(* ===== verification/_CoqProject ===== *)
-Q . S2P
Prelude.v
Words.v
Memory.v
OrdMap.v
Chunk.v
Manager.v
Heap.v
Scanner.v
Scenario.v
Mark.v
Finalize.v
WeakRefs.v
Sweep.v
Threads.v
Protocol.v
Collect.v
CollectSpec.v
Roots.v
Alloc.v
Contract.v
Handles.v
GcNew.v
ArrayHandles.v
Vector.v
Api.v
Slots.v
VectorSpec.v
Rooted.v
Diagnostics.v
Text.v
Disciplines.v
CollectorTheorems.v
ApiTheorems.v
VectorTheorems.v
HandleTheorems.v
Enrolment.v
Interleave.v
Ownership.v
Storage.v
Tidiness.v
VectorStorage.v
Making.v
HeapSafety.v
CollectSafety.v
Refinement.v
Leaving.v
Survival.v
Workers.v
Construction.v
VectorPrograms.v
Process.v
Programs.v
Outputs.v
