(* ===== verification/Prelude.v ===== *)
(** * GC-Lib: a verification library for a conservative mark-and-sweep collector

    GC-Lib is a C++ library: a process-wide [GC_Manager] hands out blocks of
    managed memory, finds the blocks still reachable by scanning registers,
    thread stacks, data segments, explicit root ranges and the payloads of
    reachable blocks word by word, finalizes and frees the others, and stops
    the other threads meanwhile, with their cooperation.  Handles ([gc_ptr],
    [gc_root], [gc_weak_ptr]) and [gc_new] are the interface of its users.

    ** The files and the code they model

    - Prelude: tactics, integer and list lemmas, and [M S A], computations
      that return, throw a C++ exception, or get stuck.
    - Words: [size_t] arithmetic of src/src/GCManager.cpp and of [gc::detail]
      in src/include/gc/gc_new.hpp, on [Z] with the wrap-around written out.
    - Memory: byte memory, little-endian words, and the word loop that
      GCManager.cpp writes three times.  OrdMap: [std::map] with integer keys.
    - Chunk: [ChunkHeader] (src/include/gc/ChunkHeader.hpp).
    - Manager: the data members of [GC_Manager]
      (src/include/gc/GCManager.hpp) and the [World] around them.
    - Heap: [find_block_locked], [register_block_locked], and [heap_wf], the
      well-formedness of the registry.
    - Scanner: src/src/RootScanner.cpp.
    - Mark, Finalize, WeakRefs, Sweep: the mark phase, the finalization order,
      the weak table and the sweep of GCManager.cpp.
    - Threads: processes ([proc]), [cooperate_with_stop_the_world_locked], the
      thread registry.  Protocol: what each action of a thread may do to the
      stop request and the thread table, and the global invariant.
    - Collect: [collect], [collect_if_needed], [shutdown], [destroy_blocks].
    - Roots: root ranges and objects, [ScopedRootRange], [ScopedRootObject],
      and [gc_root] (src/include/gc/gc_root.hpp).
    - Alloc: [malloc_internal], [finish_construction],
      [release_unconstructed].  Handles: src/include/gc/gc_ptr.hpp and
      src/include/gc/gc_weak_ptr.hpp; ArrayHandles: their specialisations for
      arrays and that of [gc_root].  GcNew: src/include/gc/gc_new.hpp.
    - Vector: src/include/gc/gc_vector.hpp over a model of
      [std::vector<gc_root<T>>].  Api: the free functions of GCManager.hpp and
      the destructor of the manager.
    - Diagnostics: statistics and heap inspection.  Text: what [dump_heap]
      prints, with the numbers formatted as libstdc++ does, and a reader of it.
    - Scenario: a heap of four blocks, where the theorems are instantiated.
    - Contract: the abstract specification, a machine on a ledger of objects,
      handles, root ranges, memory and collections counted, which says what a
      client may rely on without marks, headers, storage or threads.  [ledger]
      is the abstraction function; the rest of the file says which changes of a
      [World] are transitions of it.  Refinement: every step is one.
    - CollectSpec: whole collections and shutdowns run alone.  Slots and
      VectorSpec: the operations on vectors run alone.  Rooted: a program logic
      for what stays true while a program runs among others.
    - Disciplines: every operation keeps to the protocol.  Ownership, Storage,
      Tidiness: every operation keeps the invariant of the heap, makes only
      transitions of the contract, and gives back the storage it takes;
      VectorStorage: so do the operations of a vector.
      Enrolment: every operation but registration leaves the registration of its
      thread alone.  Making: which blocks a program has under construction, and
      that the operations finish or release what they start.
    - Interleave, HeapSafety, CollectSafety, Construction, Leaving: pools of
      threads; Leaving also runs one program alone, as a pool of one.  Survival:
      what the root ranges and blocks of a program that runs alone keep of its
      memory across allocations, collections and shutdowns.
    - VectorPrograms: scripts of vector operations, run by any number of threads.
    - Workers, Process, Programs: the programs of the repository.  Workers has
      src/examples/worker_threads.cpp, Process src/examples/weak_arrays.cpp and
      the exit of a process, Programs src/src/main.cpp (Module Demonstration),
      and of src/examples/ quick_start.cpp (QuickStart), explicit_roots.cpp
      (ExplicitRoots) and collections_and_diagnostics.cpp (Collections); Outputs
      is about what they print.
    - The properties are in CollectorTheorems, ApiTheorems, VectorTheorems,
      HandleTheorems, Interleave, HeapSafety, CollectSafety, Refinement, Construction,
      Workers, VectorPrograms, Process, Programs, Outputs and Text, each with an instance
      at a concrete state.

    ** How the model is laid out

    A function that runs with [mutex_] held is a computation in [M World].  A
    public operation is a [proc]: a tree of atomic sections, each with the
    guard its thread waits for.  A section is atomic because the mutex is held
    throughout; threads interleave between sections, and a wait on the
    condition variable is a guard ([notify_all] needs no counterpart: a thread
    is enabled as soon as its predicate holds).  [exec] runs a process alone
    and is the uninterrupted run of the steps ([steps_exec]); Interleave runs a
    pool of them in any order.

    The [World] keeps the block headers in a map by address apart from byte
    memory (the library writes headers through typed pointers only, and no
    payload overlaps one, [block_ok]); the [operator new] blocks outstanding,
    with size and alignment, so that freeing twice or with another alignment is
    undefined behaviour of the model; the outcomes of the native allocations
    to come ([oom]), so that every container growth may throw; and a log of the
    finalizers run, the blocks freed and the lines a program prints.

    Parameters stand for what is not in the repository: the aligned
    [operator new] ([Allocator], instance [bump_allocator]), the
    AddressSanitizer entry points ([AsanRuntime], instance [no_asan]), the
    contents of registers, the loaded images, the stack limits, the clock, and
    user code: constructors, destructors and generators are processes, which
    may call the library back.  [Finalizers] says that user finalizers leave
    the dying batch's headers and storage alone; [Neutral] that a program
    reaches the manager only through the library, [Tidy] that it keeps the heap
    invariant and its storage, [Steady] that it does not register or unregister
    its thread, [Crafts] that it finishes or releases the blocks it starts;
    Disciplines, Tidiness, Enrolment and Making prove them for the operations of
    the manager, the roots, the handles and the allocation functions, and
    compose; a [vector_class] is a class of programs the vector operations
    belong to.  A standard container is modelled as far as the source uses
    it: [std::vector] constructs, copies and destroys its elements in the order
    of libstdc++, and how far it grows is the parameter [VectorGrowth] with the
    bounds of the standard.

    ** What the theorems show

    - Refinement: each step of each thread, in every interleaving, is one
      transition of the contract: bookkeeping that leaves the objects alone, or
      one event.  An object goes only when it is released, when a counted
      collection does not reach it, or when everything is shut down.
    - Collection: exactly the blocks reachable from the roots survive a
      collection, which is otherwise without effect when an allocation fails;
      finalizers of the dead run once each, referrers before what they refer
      to, before anything is freed; marking, sweeping, ordering, invalidation
      and scanning each meet their specification on every branch.
    - Allocation and construction: layout, zeroing, refusals, the one retry
      after a collection, the roll-back of a failed constructor or array.
    - Handles and roots: a [gc_root] keeps its target, a weak handle observes
      its target until it is reclaimed and is null afterwards, through copies,
      moves and assignments, and its word is never taken for a pointer.
    - Vectors and arrays: every operation on a vector is transactional, its
      elements are roots on whatever storage they live, [emplace_new] never
      leaves its object unrooted; the handles of an array keep all of it.
    - Threads: parked threads stay parked and nobody else touches the manager
      while the world is stopped, in every interleaving; every schedule ends,
      and a deadlock has only one cause, a registered thread that finished
      without unregistering, which programs in the scope of a
      [ScopedThreadRegistration] exclude.
    - The heap in every interleaving: the registry stays well formed, every
      integer in its type, every storage block has one owner and none is left
      behind; no action is undefined; weak handles never dangle; a collection
      keeps exactly what the roots reach, the saved registers and frames of the
      parked threads included.
    - Construction in every interleaving: a block under construction has one
      thread that makes it, and nobody else takes it or ends its construction; in
      the end nothing is under construction, so a shutdown is not refused.
    - Programs: a process that exits leaves nothing behind, whatever it did; the
      threads of the worker example always finish; threads that work on vectors
      leave none of their storage; every program of the repository terminates
      the process or exits with an empty heap; the list of quick_start.cpp and
      the node of explicit_roots.cpp are printed as they were constructed.
    - Text: the heap can be read back from its dump, and the six digits of a
      printed double are those of a nearest decimal.
    - Arithmetic: rounding, overflow guards, saturation, header fields.

    ** Loops and fuel

    Loops that are not structural take fuel and get stuck without it; the
    theorems exclude that.  The drain of the mark worklist gets one unit per
    registered block, because a block is pushed when its mark goes from clear
    to set; Kahn's loop one per block, because an index is pushed when its
    indegree reaches zero; a word loop one per word of its range.

    ** Limits

    - The several vectors [order_blocks_for_finalization_locked] allocates are
      one allocation that may fail; it has no effect before they are all done.
    - The loop [cur + word_size <= payload_end] wraps for a payload that ends
      in the last word of the address space; [block_ok] excludes such blocks,
      which no allocator returns.
    - A thread's stack and payload reads happen inside the critical section,
      from the memory of that moment.  Data races on memory that the code
      itself does not synchronise are not modelled.
    - Programs are finite trees: a thread that loops forever is a sequence of
      longer and longer programs, and fairness is not needed to state that
      every schedule ends.
    - Theorems about one operation's effect on the heap run it alone, with the
      other threads parked or absent; what holds in every interleaving is stated
      for pools.
    - What the system says is a parameter with its documented behaviour: the
      loaded images of Linux, the sections of Mach-O, the answers of
      [VirtualQuery], the stack limits.
    - A [std::string] of a program is at most fifteen characters long, so it lies
      in its object, as libstdc++ lays it out; the stream takes what is printed.
    - Not modelled: the umbrella header, which only includes the others, and the
      tests and benchmarks, which are clients that check or time the library.
    - Of main.cpp and collections_and_diagnostics.cpp the theorems say how they
      end, and not what they print for every environment; of a worker, that it
      ends and what storage it leaves, and not what its list holds.
    - [ev_release] lets a client release any object, as [release_unconstructed]
      does; that its callers in the library release only what they have under
      construction is in Making. *)

From stdpp Require Export base gmap list sorting strings.
From Stdlib Require Export ZArith Lia.
#[global] Open Scope Z_scope.

#[global] Arguments Z.add : simpl never.
#[global] Arguments Z.sub : simpl never.
#[global] Arguments Z.mul : simpl never.
#[global] Arguments Z.pow : simpl never.
#[global] Arguments Z.modulo : simpl never.
#[global] Arguments Z.div : simpl never.
#[global] Arguments Z.leb : simpl never.
#[global] Arguments Z.ltb : simpl never.
#[global] Arguments Z.eqb : simpl never.
#[global] Arguments Z.max : simpl never.
#[global] Arguments Z.of_nat : simpl never.
#[global] Arguments Z.to_nat : simpl never.

Declare Scope gc_scope.
Delimit Scope gc_scope with gc.

(** ** Automation shared by every file

    [gc] collects the lemmas that close the common side conditions of the
    components; [gc_simpl] the equations that normalise them. *)
Create HintDb gc.
Create Rewrite HintDb gc_simpl.

(** Case analysis on every boolean integer comparison in sight. *)
Ltac zbool :=
  repeat match goal with
  | H : context [ (?a <=? ?b)%Z ] |- _ => destruct (Z.leb_spec a b); try lia
  | H : context [ (?a <? ?b)%Z ] |- _ => destruct (Z.ltb_spec a b); try lia
  | H : context [ (?a =? ?b)%Z ] |- _ => destruct (Z.eqb_spec a b); try lia
  | |- context [ (?a <=? ?b)%Z ] => destruct (Z.leb_spec a b); try lia
  | |- context [ (?a <? ?b)%Z ] => destruct (Z.ltb_spec a b); try lia
  | |- context [ (?a =? ?b)%Z ] => destruct (Z.eqb_spec a b); try lia
  end; csimpl in *.

(** ** Lists of integers *)

Fixpoint sumZ (l : list Z) : Z :=
  match l with
  | [] => 0
  | x :: l' => x + sumZ l'
  end.

Lemma sumZ_perm l1 l2 : l1 ≡ₚ l2 → sumZ l1 = sumZ l2.
Proof. induction 1; simpl in *; lia. Qed.

#[global] Instance sumZ_Proper : Proper ((≡ₚ) ==> eq) sumZ.
Proof. intros ???; by apply sumZ_perm. Qed.

Lemma sumZ_app l1 l2 : sumZ (l1 ++ l2) = sumZ l1 + sumZ l2.
Proof. induction l1; simpl; lia. Qed.

Lemma sumZ_nonneg l : (∀ x, x ∈ l → 0 <= x) → 0 <= sumZ l.
Proof.
  induction l as [|x l IH]; simpl; [lia|]; intros H.
  assert (0 <= x) by (apply H; left).
  assert (0 <= sumZ l) by (apply IH; intros; apply H; by right). lia.
Qed.

Lemma sumZ_filter_split {A} (f : A → Z) (P : A → Prop) `{∀ x, Decision (P x)} (l : list A) :
  sumZ (f <$> l) = sumZ (f <$> filter P l) + sumZ (f <$> filter (λ x, ¬ P x) l).
Proof.
  induction l as [|x l IH]; [done|].
  rewrite !filter_cons, !fmap_cons. csimpl.
  destruct (decide (P x)), (decide (¬ P x)); csimpl; try tauto; lia.
Qed.

(** ** Counting *)

Lemma filter_ext_in {A} (P Q : A → Prop)
    `{∀ x, Decision (P x), ∀ x, Decision (Q x)} (l : list A) :
  (∀ x, x ∈ l → P x ↔ Q x) → filter P l = filter Q l.
Proof.
  induction l as [|y l IH]; [done|]; intros Hiff.
  rewrite !filter_cons. pose proof (Hiff y ltac:(left)).
  rewrite IH by (intros; apply Hiff; by right). repeat case_decide; naive_solver.
Qed.

Lemma filter_length_ext {A} (P Q : A → Prop)
    `{∀ x, Decision (P x), ∀ x, Decision (Q x)} (l : list A) :
  (∀ x, x ∈ l → P x ↔ Q x) → length (filter P l) = length (filter Q l).
Proof. intros H'. by rewrite (filter_ext_in P Q) by done. Qed.

(** Changing the predicate at exactly one element of a duplicate-free list
    changes the count by exactly one. *)
Lemma filter_length_one {A} (P Q : A → Prop)
    `{∀ x, Decision (P x), ∀ x, Decision (Q x)} (l : list A) (a : A) :
  NoDup l → a ∈ l → P a → ¬ Q a → (∀ x, x ∈ l → x ≠ a → P x ↔ Q x) →
  length (filter P l) = S (length (filter Q l)).
Proof.
  intros Hnd Ha HP HQ Hiff.
  induction Hnd as [|y l Hy Hnd IH]; [by apply elem_of_nil in Ha|].
  rewrite !filter_cons. apply elem_of_cons in Ha as [<-|Ha].
  - assert (length (filter P l) = length (filter Q l)) as Hl.
    { apply filter_length_ext. intros x Hx. apply Hiff; [by right|congruence]. }
    repeat case_decide; simpl; try done. by rewrite Hl.
  - assert (y ≠ a) by (intros ->; done).
    pose proof (Hiff y ltac:(left) ltac:(done)).
    assert (length (filter P l) = S (length (filter Q l)))
      by (apply IH; [done|]; intros; apply Hiff; [by right|done]).
    repeat case_decide; simpl; naive_solver.
Qed.

(** A weaker predicate that loses an element counts fewer. *)
Lemma filter_length_lt {A} (P Q : A → Prop)
    `{∀ x, Decision (P x), ∀ x, Decision (Q x)} (l : list A) (a : A) :
  a ∈ l → P a → ¬ Q a → (∀ x, Q x → P x) → (length (filter Q l) < length (filter P l))%nat.
Proof.
  intros Ha HP HQ Himp.
  assert (∀ l, length (filter Q l) <= length (filter P l))%nat as Hle.
  { induction l0 as [|x l0 IH]; [simpl; lia|]. rewrite !filter_cons. specialize (Himp x).
    repeat case_decide; simpl; try lia; naive_solver. }
  induction l as [|y l IH]; [by apply elem_of_nil in Ha|]. rewrite !filter_cons. specialize (Hle l).
  apply elem_of_cons in Ha as [<-|Ha].
  - repeat case_decide; simpl; try done; lia.
  - specialize (IH Ha). specialize (Himp y). repeat case_decide; simpl; try lia; naive_solver.
Qed.

(** ** Sorted lists *)

Lemma StronglySorted_filter {A} (R : A → A → Prop) (P : A → Prop)
    `{∀ x, Decision (P x)} (l : list A) :
  StronglySorted R l → StronglySorted R (filter P l).
Proof.
  induction 1 as [|x l Hs IH Hx]; [constructor|].
  rewrite filter_cons. case_decide; [|done]. constructor; [done|].
  apply Forall_forall. intros y [_ Hy]%list_elem_of_filter.
  by apply (proj1 (Forall_forall _ _) Hx).
Qed.

Lemma StronglySorted_lt_NoDup (l : list Z) : StronglySorted Z.lt l → NoDup l.
Proof.
  induction 1 as [|x l Hs IH Hx]; constructor; [|done].
  intros Hin. apply (proj1 (Forall_forall _ _) Hx) in Hin. lia.
Qed.

(** ** Error and state

    [M S A] is a computation over a state [S] that returns, throws a C++
    exception, or gets stuck: undefined behaviour, a call to [std::terminate],
    a wait whose predicate is false with nobody to change it, or a loop that
    outlived its fuel.  The theorems rule the stuck outcomes out. *)

Inductive exn :=
| bad_alloc
| logic_error (what : string)
| invalid_argument (what : string)
| out_of_range
| length_error
| user_exception (id : Z).

#[global] Instance exn_eq_dec : EqDecision exn.
Proof. solve_decision. Defined.

(** What a call that needs no state gives back: a value or an exception. *)
Inductive result (A : Type) :=
| Ok (a : A)
| Raise (e : exn).
Arguments Ok {A} a.
Arguments Raise {A} e.

Inductive stuck := Undefined_behaviour | Terminated | Blocked | Out_of_fuel.

Inductive outcome (S A : Type) :=
| Ret (a : A) (s : S)
| Throw (e : exn) (s : S)
| Stuck (why : stuck).
Arguments Ret {S A} a s.
Arguments Throw {S A} e s.
Arguments Stuck {S A} why.

Definition M (S A : Type) : Type := S → outcome S A.

#[global] Instance M_ret {S} : MRet (M S) := λ A a s, Ret a s.
#[global] Instance M_bind {S} : MBind (M S) := λ A B f m s,
  match m s with
  | Ret a s' => f a s'
  | Throw e s' => Throw e s'
  | Stuck why => Stuck why
  end.

Section Monad.
Context {S : Type}.

Definition throw {A} (e : exn) : M S A := λ s, Throw e s.
Definition get : M S S := λ s, Ret s s.
Definition modify (f : S → S) : M S unit := λ s, Ret tt (f s).
Definition gets {A} (f : S → A) : M S A := λ s, Ret (f s) s.
Definition undefined {A} : M S A := λ _, Stuck Undefined_behaviour.

(** [when b m]: a C++ [if] without an [else]. *)
Definition when (b : bool) (m : M S unit) : M S unit := if b then m else mret tt.

(** [try m catch (...) { h(e) }] where the handler does not rethrow. *)
Definition catch {A} (m : M S A) (h : exn → M S A) : M S A := λ s,
  match m s with
  | Throw e s' => h e s'
  | r => r
  end.

(** A C++ range-for whose body threads an accumulator. *)
Fixpoint foldM {A B} (f : A → B → M S B) (l : list A) (b : B) : M S B :=
  match l with
  | [] => mret b
  | a :: l' => b' ← f a b; foldM f l' b'
  end.

Lemma M_bind_ret {A B} (m : M S A) (f : A → M S B) s a s' :
  m s = Ret a s' → (m ≫= f) s = f a s'.
Proof. unfold mbind, M_bind. by intros ->. Qed.

Lemma M_bind_throw {A B} (m : M S A) (f : A → M S B) s e s' :
  m s = Throw e s' → (m ≫= f) s = Throw e s'.
Proof. unfold mbind, M_bind. by intros ->. Qed.

Lemma M_bind_get {B} (f : S → M S B) s : (get ≫= f) s = f s s.
Proof. done. Qed.

Lemma M_bind_eq {A B} (m m' : M S A) (f : A → M S B) s s' :
  m s = m' s' → (m ≫= f) s = (m' ≫= f) s'.
Proof. unfold mbind, M_bind. by intros ->. Qed.

Lemma foldM_app {A B} (f : A → B → M S B) l1 l2 b s :
  foldM f (l1 ++ l2) b s = (b' ← foldM f l1 b; foldM f l2 b') s.
Proof.
  revert b s; induction l1 as [|a l1 IH]; intros b s; [done|].
  simpl. unfold mbind, M_bind in *. destruct (f a b s); [|done..].
  by rewrite IH.
Qed.

Lemma foldM_filter_skip {A B} (P : A → bool) (f : A → B → M S B) l b s :
  foldM (λ a b, if P a then mret b else f a b) l b s = foldM f (filter (λ a, P a = false) l) b s.
Proof.
  revert b s; induction l as [|a l IH]; intros b s; [done|].
  destruct (P a) eqn:E; [rewrite filter_cons_False by congruence|rewrite filter_cons_True by done];
    simpl; unfold mbind, M_bind in *; rewrite E; [apply IH|].
  destruct (f a b s); [apply IH|done..].
Qed.

Lemma foldM_fmap {A B C} (g : C → A) (f : A → B → M S B) l b s :
  foldM f (g <$> l) b s = foldM (λ c, f (g c)) l b s.
Proof.
  revert b s; induction l as [|c l IH]; intros b s; [done|]. simpl.
  unfold mbind, M_bind in *. destruct (f (g c) b s); [apply IH|done..].
Qed.
End Monad.

(** Runs one bind whose first computation is known to return, to throw, or to
    behave as another computation. *)
Ltac mstep H := rewrite (M_bind_ret _ _ _ _ _ H); simpl.
Ltac mthrow H := rewrite (M_bind_throw _ _ _ _ _ H); simpl.
Ltac mget := rewrite M_bind_get.
Ltac mrepl H := rewrite (M_bind_eq _ _ _ _ _ H).
