(* ===== verification/Words.v ===== *)
(** * Machine words

    [std::size_t] and [std::uintptr_t] are 64 bits wide and are kept as [Z]
    with the wrap-around written out ([wrap64]).  The file holds the size
    arithmetic of the anonymous namespace of src/src/GCManager.cpp and of
    [gc::detail] in src/include/gc/gc_new.hpp, with what each function
    computes on every branch. *)

From S2P Require Import Prelude.

Definition word_size : Z := 8.
Definition SIZE_MAX : Z := 2 ^ 64 - 1.
Definition UINT16_MAX : Z := 2 ^ 16 - 1.
Definition max_align : Z := 16. (* alignof(std::max_align_t) *)

Definition wrap64 (x : Z) : Z := x mod 2 ^ 64.
Definition not64 (x : Z) : Z := Z.lxor x SIZE_MAX.
Definition is_size (x : Z) : Prop := 0 <= x <= SIZE_MAX.

(** [std::has_single_bit] and [std::countr_zero] of <bit>. *)
Definition has_single_bit (x : Z) : bool := negb (x =? 0) && (Z.land x (x - 1) =? 0).

Fixpoint pos_countr_zero (p : positive) : Z :=
  match p with
  | xO q => 1 + pos_countr_zero q
  | _ => 0
  end.
Definition countr_zero (x : Z) : Z :=
  match x with
  | Zpos p => pos_countr_zero p
  | _ => 64
  end.

(** ** The size arithmetic of GCManager.cpp *)

Definition normalize_alignment (alignment : Z) : Z := Z.max alignment max_align.

Definition add_would_overflow (lhs rhs : Z) : bool := SIZE_MAX - rhs <? lhs.

Definition saturating_add (lhs rhs : Z) : Z :=
  if add_would_overflow lhs rhs then SIZE_MAX else wrap64 (lhs + rhs).

Definition round_up_to_alignment (value alignment : Z) : result Z :=
  if (alignment =? 0) || negb (Z.land alignment (wrap64 (alignment - 1)) =? 0)
  then Raise bad_alloc
  else if add_would_overflow value (wrap64 (alignment - 1))
  then Raise bad_alloc
  else Ok (Z.land (wrap64 (wrap64 (value + alignment) - 1)) (not64 (wrap64 (alignment - 1)))).

(** ** The size arithmetic of gc_new.hpp *)

Module detail.
Definition add_would_overflow (lhs rhs : Z) : bool := SIZE_MAX - rhs <? lhs.

Definition multiply_would_overflow (lhs rhs : Z) : bool :=
  negb (rhs =? 0) && (SIZE_MAX / rhs <? lhs).

Definition round_up_to_alignment (value alignment : Z) : Z :=
  Z.land (wrap64 (wrap64 (value + alignment) - 1)) (not64 (wrap64 (alignment - 1))).

(** sizeof(std::size_t) rounded up to alignof(T). *)
Definition array_elements_offset (alignof_T : Z) : Z :=
  round_up_to_alignment 8 alignof_T.
End detail.

(** ** Lemmas *)

Lemma wrap64_small x : 0 <= x < 2 ^ 64 → wrap64 x = x.
Proof. apply Z.mod_small. Qed.

Lemma wrap64_size x : is_size x → wrap64 x = x.
Proof. unfold is_size, SIZE_MAX. intros; apply wrap64_small; lia. Qed.

Lemma wrap64_bound x : is_size (wrap64 x).
Proof. unfold is_size, SIZE_MAX, wrap64. pose proof (Z.mod_pos_bound x (2 ^ 64)). lia. Qed.

#[export] Hint Resolve wrap64_bound : gc.
#[export] Hint Rewrite wrap64_size using (unfold is_size, SIZE_MAX in *; lia) : gc_simpl.

Lemma SIZE_MAX_ones : SIZE_MAX = Z.ones 64.
Proof. reflexivity. Qed.

Lemma testbit_high x n : 0 <= x < 2 ^ 64 → 64 <= n → Z.testbit x n = false.
Proof.
  intros Hx Hn. destruct (decide (x = 0)) as [->|]; [apply Z.bits_0|].
  apply Z.bits_above_log2; [lia|].
  enough (Z.log2 x < 64) by lia. apply Z.log2_lt_pow2; lia.
Qed.

(** Masking with the complement of [2^k - 1] clears the [k] low bits. *)
Lemma land_not64_ones x k :
  0 <= x < 2 ^ 64 → 0 <= k < 64 → Z.land x (not64 (2 ^ k - 1)) = x - x mod 2 ^ k.
Proof.
  intros Hx Hk.
  assert (Z.land x (not64 (2 ^ k - 1)) = Z.ldiff x (Z.ones k)) as ->.
  { unfold not64. rewrite SIZE_MAX_ones.
    replace (2 ^ k - 1) with (Z.ones k) by (rewrite Z.ones_equiv; lia).
    apply Z.bits_inj'. intros n Hn.
    rewrite Z.land_spec, Z.ldiff_spec, Z.lxor_spec.
    destruct (decide (n < 64)).
    - rewrite (Z.ones_spec_low 64) by lia. destruct (Z.testbit x n); [|done].
      by destruct (Z.testbit (Z.ones k) n).
    - by rewrite testbit_high by lia. }
  rewrite Z.ldiff_ones_r, Z.shiftl_mul_pow2, Z.shiftr_div_pow2 by lia.
  pose proof (Z.div_mod x (2 ^ k)). lia.
Qed.

Lemma has_single_bit_pow2 k : 0 <= k → has_single_bit (2 ^ k) = true.
Proof.
  intros Hk. unfold has_single_bit. assert (0 < 2 ^ k) by lia.
  apply andb_true_intro; split; [zbool|]. apply Z.eqb_eq.
  replace (2 ^ k - 1) with (Z.ones k) by (rewrite Z.ones_equiv; lia).
  rewrite Z.land_ones, Z.mod_same by lia. done.
Qed.

Lemma land_pred_pow2 x :
  0 < x → Z.land x (x - 1) = 0 → x = 2 ^ Z.log2 x.
Proof.
  intros Hx Hl. pose proof (Z.log2_spec x Hx) as [Hlo Hhi].
  destruct (decide (x = 2 ^ Z.log2 x)) as [|Hne]; [done|exfalso].
  pose proof (Z.log2_nonneg x).
  assert (Z.testbit (Z.land x (x - 1)) (Z.log2 x) = true) as Ht; [|by rewrite Hl, Z.bits_0 in Ht].
  rewrite Z.land_spec, Z.bit_log2 by lia. simpl.
  assert (Z.log2 (x - 1) = Z.log2 x) as <-; [|apply Z.bit_log2].
  - apply Z.log2_unique; lia.
  - pose proof (Z.pow_pos_nonneg 2 (Z.log2 x)). lia.
Qed.

Lemma has_single_bit_spec x :
  is_size x → has_single_bit x = true ↔ ∃ k, 0 <= k < 64 ∧ x = 2 ^ k.
Proof.
  unfold is_size, SIZE_MAX. intros Hx; split.
  - unfold has_single_bit. intros [H0 Hl]%andb_prop. apply Z.eqb_eq in Hl.
    assert (0 < x) by (destruct (Z.eqb_spec x 0); simpl in *; [done|lia]).
    exists (Z.log2 x). split; [|by apply land_pred_pow2].
    split; [apply Z.log2_nonneg|apply Z.log2_lt_pow2; lia].
  - intros (k & Hk & ->). apply has_single_bit_pow2; lia.
Qed.

Lemma pos_countr_zero_spec k : (0 <= k)%Z → countr_zero (2 ^ k) = k.
Proof.
  intros Hk. rewrite <-(Z2Nat.id k) by done. induction (Z.to_nat k) as [|n IH]; [done|].
  rewrite Nat2Z.inj_succ, Z.pow_succ_r by lia.
  destruct (2 ^ Z.of_nat n) eqn:E; [lia| |lia].
  change (2 * Z.pos p) with (Z.pos p~0). unfold countr_zero in *. simpl.
  rewrite IH. lia.
Qed.

Lemma add_would_overflow_spec a b :
  is_size a → is_size b → add_would_overflow a b = true ↔ SIZE_MAX < a + b.
Proof. unfold add_would_overflow, is_size. intros. rewrite Z.ltb_lt. lia. Qed.

Lemma add_would_overflow_false a b :
  add_would_overflow a b = false ↔ a + b <= SIZE_MAX.
Proof. unfold add_would_overflow. rewrite Z.ltb_ge. lia. Qed.

(** Saturating addition is the exact sum cut at the largest size. *)
Lemma saturating_add_spec a b :
  is_size a → is_size b → saturating_add a b = Z.min (a + b) SIZE_MAX.
Proof.
  unfold saturating_add, is_size. intros Ha Hb.
  destruct (add_would_overflow a b) eqn:E.
  - apply add_would_overflow_spec in E; unfold is_size; lia.
  - apply add_would_overflow_false in E. rewrite wrap64_size by (unfold is_size; lia). lia.
Qed.

Lemma normalize_alignment_spec k :
  0 <= k < 64 → ∃ j, 4 <= j < 64 ∧ k <= j ∧ normalize_alignment (2 ^ k) = 2 ^ j.
Proof.
  intros Hk. unfold normalize_alignment, max_align.
  destruct (decide (k <= 4)) as [Hle|].
  - exists 4. split_and!; try lia.
    rewrite Z.max_r; [done|]. change 16 with (2 ^ 4). by apply Z.pow_le_mono_r.
  - exists k. split_and!; try lia.
    rewrite Z.max_l; [done|]. change 16 with (2 ^ 4). apply Z.pow_le_mono_r; lia.
Qed.

Lemma round_up_core v k :
  is_size v → 0 <= k < 64 → v + (2 ^ k - 1) <= SIZE_MAX →
  let r := Z.land (wrap64 (wrap64 (v + 2 ^ k) - 1)) (not64 (wrap64 (2 ^ k - 1))) in
  (2 ^ k | r) ∧ v <= r < v + 2 ^ k.
Proof.
  intros Hv Hk Hb r. unfold is_size, SIZE_MAX in *.
  assert (1 <= 2 ^ k) by (pose proof (Z.pow_pos_nonneg 2 k); lia).
  assert (2 ^ k <= 2 ^ 63) by (apply Z.pow_le_mono_r; lia).
  assert (r = (v + 2 ^ k - 1) - (v + 2 ^ k - 1) mod 2 ^ k) as ->.
  { unfold r. rewrite (wrap64_small (2 ^ k - 1)) by lia.
    replace (wrap64 (wrap64 (v + 2 ^ k) - 1)) with (v + 2 ^ k - 1).
    - apply land_not64_ones; lia.
    - unfold wrap64. rewrite Zminus_mod_idemp_l, Z.mod_small; lia. }
  pose proof (Z.mod_pos_bound (v + 2 ^ k - 1) (2 ^ k)).
  split; [|lia].
  exists ((v + 2 ^ k - 1) / 2 ^ k). pose proof (Z.div_mod (v + 2 ^ k - 1) (2 ^ k)). lia.
Qed.

(** The checked rounding of GCManager.cpp on a power of two: it throws exactly
    when the padded value does not fit, and otherwise gives the least multiple
    of the alignment that is at least the value. *)
Lemma round_up_to_alignment_ok v k r :
  is_size v → 0 <= k < 64 →
  round_up_to_alignment v (2 ^ k) = Ok r → (2 ^ k | r) ∧ v <= r < v + 2 ^ k ∧ r <= SIZE_MAX.
Proof.
  intros Hv Hk. unfold round_up_to_alignment.
  assert (1 <= 2 ^ k) by (pose proof (Z.pow_pos_nonneg 2 k); lia).
  assert (2 ^ k <= 2 ^ 63) by (apply Z.pow_le_mono_r; lia).
  rewrite (wrap64_small (2 ^ k - 1)) by lia.
  pose proof (has_single_bit_pow2 k ltac:(lia)) as Hs.
  unfold has_single_bit in Hs. apply andb_prop in Hs as [Hz Hl].
  apply negb_true_iff in Hz. rewrite Hz, Hl. simpl.
  destruct (add_would_overflow v (2 ^ k - 1)) eqn:E; [done|]. intros [= <-].
  apply add_would_overflow_false in E.
  pose proof (round_up_core v k Hv Hk E) as [Hd Hb].
  rewrite (wrap64_small (2 ^ k - 1)) in Hd, Hb by lia.
  split_and!; [done|lia..|]. unfold SIZE_MAX, is_size in *. lia.
Qed.

Lemma round_up_to_alignment_not_pow2 v a :
  is_size a → has_single_bit a = false → round_up_to_alignment v a = Raise bad_alloc.
Proof.
  unfold is_size, SIZE_MAX, has_single_bit, round_up_to_alignment. intros Ha Hs.
  destruct (Z.eqb_spec a 0) as [->|]; [done|]. simpl in *.
  rewrite wrap64_small by lia. by rewrite Hs.
Qed.

Lemma round_up_to_alignment_pow2 v k :
  is_size v → 0 <= k < 64 →
  round_up_to_alignment v (2 ^ k) = Raise bad_alloc ↔ SIZE_MAX < v + (2 ^ k - 1).
Proof.
  intros Hv Hk. unfold round_up_to_alignment.
  assert (1 <= 2 ^ k) by (pose proof (Z.pow_pos_nonneg 2 k); lia).
  assert (2 ^ k <= 2 ^ 63) by (apply Z.pow_le_mono_r; lia).
  rewrite (wrap64_small (2 ^ k - 1)) by lia.
  pose proof (has_single_bit_pow2 k ltac:(lia)) as Hs.
  unfold has_single_bit in Hs. apply andb_prop in Hs as [Hz Hl].
  apply negb_true_iff in Hz. rewrite Hz, Hl. simpl.
  destruct (add_would_overflow v (2 ^ k - 1)) eqn:E.
  - apply add_would_overflow_spec in E; unfold is_size, SIZE_MAX in *; try lia. split; auto.
  - apply add_would_overflow_false in E. split; [done|lia].
Qed.

Lemma multiply_would_overflow_spec a b :
  is_size a → is_size b → detail.multiply_would_overflow a b = true ↔ SIZE_MAX < a * b.
Proof.
  unfold detail.multiply_would_overflow, is_size. intros Ha Hb.
  destruct (Z.eqb_spec b 0) as [->|]; simpl; [split; [done|unfold SIZE_MAX in *; lia]|].
  rewrite Z.ltb_lt. split; intros.
  - pose proof (Z.mul_succ_div_gt SIZE_MAX b). nia.
  - apply Z.div_lt_upper_bound; lia.
Qed.

(** The unchecked rounding used for array prefixes: alignments up to 2^62 are
    far from the wrap-around. *)
Lemma array_elements_offset_spec k :
  0 <= k <= 62 →
  let off := detail.array_elements_offset (2 ^ k) in (2 ^ k | off) ∧ 8 <= off < 8 + 2 ^ k.
Proof.
  intros Hk. assert (2 ^ k <= 2 ^ 62) by (apply Z.pow_le_mono_r; lia).
  assert (0 < 2 ^ k) by (apply Z.pow_pos_nonneg; lia).
  apply round_up_core; unfold is_size, SIZE_MAX; lia.
Qed.

(** A multiple of [d] more than [- d] above another multiple is at least it. *)
Lemma multiple_gap d r m : 0 < d → (d | r) → (d | m) → r < m + d → r <= m.
Proof. intros ? [p ->] [q ->] ?. assert (p < q + 1) by nia. nia. Qed.

(** ** Properties *)

(** The checked rounding of [malloc_internal], on every alignment: a power
    of two gives the least multiple that is at least the value, or [bad_alloc]
    when no multiple fits in a word; anything else gives [bad_alloc]. *)
Theorem round_up_to_alignment_correct v a :
  is_size v → is_size a →
  match round_up_to_alignment v a with
  | Ok r => has_single_bit a = true ∧ (a | r) ∧ v <= r <= SIZE_MAX ∧
            ∀ m, (a | m) → v <= m → r <= m
  | Raise e => e = bad_alloc ∧
            (has_single_bit a = true → ∀ m, (a | m) → v <= m → SIZE_MAX < m)
  end.
Proof.
  intros Hv Ha. destruct (has_single_bit a) eqn:Hs.
  2:{ by rewrite round_up_to_alignment_not_pow2. }
  apply (has_single_bit_spec a Ha) in Hs as (k & Hk & ->).
  assert (0 < 2 ^ k) by (apply Z.pow_pos_nonneg; lia).
  destruct (round_up_to_alignment v (2 ^ k)) as [r|e] eqn:E.
  - apply round_up_to_alignment_ok in E as (Hd & Hr & Hmax); [|done..].
    split_and!; [done|done|lia|lia|]. intros m Hm Hvm. eapply multiple_gap; [done..|lia].
  - assert (e = bad_alloc) as -> by (revert E; unfold round_up_to_alignment; repeat case_match; congruence).
    split; [done|]. intros _ m Hm Hvm. apply (round_up_to_alignment_pow2 v k Hv Hk) in E.
    destruct (Z.le_gt_cases m SIZE_MAX) as [Hle|]; [|lia]. exfalso.
    assert ((2 ^ k | SIZE_MAX + 1)) as Htop.
    { exists (2 ^ (64 - k)). rewrite <-Z.pow_add_r by lia. by replace (64 - k + k) with 64 by lia. }
    assert (SIZE_MAX + 1 <= m); [|lia].
    apply (multiple_gap (2 ^ k)); [done..|lia].
Qed.

Lemma round_up_to_alignment_correct_witness :
  is_size 33 ∧ is_size 16 ∧ round_up_to_alignment 33 16 = Ok 48 ∧
  ∀ m, (16 | m) → 33 <= m → 48 <= m.
Proof.
  assert (is_size 33) as Hv by (unfold is_size, SIZE_MAX; lia).
  assert (is_size 16) as Ha by (unfold is_size, SIZE_MAX; lia).
  split_and!; [done|done|reflexivity|]. apply (round_up_to_alignment_correct 33 16 Hv Ha).
Defined.

(** The overflow guards are exact: each is true precisely when the
    mathematical result leaves the 64-bit range, and saturating addition is the
    exact sum cut at the largest size. *)
Theorem overflow_guards_are_exact a b :
  is_size a → is_size b →
  (add_would_overflow a b = true ↔ SIZE_MAX < a + b) ∧
  (detail.multiply_would_overflow a b = true ↔ SIZE_MAX < a * b) ∧
  saturating_add a b = Z.min (a + b) SIZE_MAX.
Proof.
  intros Ha Hb. split_and!; [by apply add_would_overflow_spec|by apply multiply_would_overflow_spec|].
  by apply saturating_add_spec.
Qed.

Lemma overflow_guards_are_exact_witness :
  saturating_add SIZE_MAX 5 = SIZE_MAX ∧ (detail.multiply_would_overflow (2 ^ 33) (2 ^ 31) = true ↔ SIZE_MAX < 2 ^ 33 * 2 ^ 31).
Proof.
  split.
  - exact (proj2 (proj2 (overflow_guards_are_exact SIZE_MAX 5 ltac:(unfold is_size, SIZE_MAX; lia)
      ltac:(unfold is_size, SIZE_MAX; lia)))).
  - exact (proj1 (proj2 (overflow_guards_are_exact (2 ^ 33) (2 ^ 31) ltac:(unfold is_size, SIZE_MAX; lia)
      ltac:(unfold is_size, SIZE_MAX; lia)))).
Defined.
