(* ===== verification/Memory.v ===== *)
(** * Byte-addressed memory

    The flat memory the collector reads words from: payloads, thread stacks,
    registered ranges, data segments and the encoded words of weak handles.
    Words are stored little-endian, as on the platforms GC-Lib supports.  The
    file also holds the word loop
    [for (cur = begin; cur + word_size <= end; cur += word_size)]
    that GCManager.cpp writes three times (payload scan, outgoing references,
    finalization graph), with [uintptr_t] wrap-around. *)

From S2P Require Import Prelude Words.

Abbreviation memory := (gmap Z Z).

Definition load_byte (m : memory) (a : Z) : Z := default 0 (m !! a) mod 256.

Fixpoint le_combine (bs : list Z) : Z :=
  match bs with
  | [] => 0
  | b :: bs' => b + 256 * le_combine bs'
  end.

Fixpoint le_split (n : nat) (v : Z) : list Z :=
  match n with
  | O => []
  | S n' => v mod 256 :: le_split n' (v / 256)
  end.

(** [std::memcpy(&value, address, sizeof(std::uintptr_t))] *)
Definition load_word (m : memory) (a : Z) : Z :=
  le_combine (load_byte m <$> seqZ a 8).

Fixpoint store_bytes (m : memory) (a : Z) (bs : list Z) : memory :=
  match bs with
  | [] => m
  | b :: bs' => <[a := b]> (store_bytes m (a + 1) bs')
  end.

(** [*address = value] for a [std::uintptr_t*]. *)
Definition store_word (m : memory) (a v : Z) : memory := store_bytes m a (le_split 8 v).

Fixpoint store_words (m : memory) (a : Z) (vs : list Z) : memory :=
  match vs with
  | [] => m
  | v :: vs' => store_word (store_words m (a + 8) vs') a v
  end.

(** [std::memset(address, 0, size)] *)
Definition memset0 (m : memory) (a size : Z) : memory :=
  store_bytes m a (replicate (Z.to_nat size) 0).

(** The addresses the payload word loop visits; [None] when the fuel runs out. *)
Fixpoint payload_word_addrs (fuel : nat) (cur end_ : Z) : option (list Z) :=
  match fuel with
  | O => None
  | S fuel' =>
      if wrap64 (cur + word_size) <=? end_
      then cons cur <$> payload_word_addrs fuel' (wrap64 (cur + word_size)) end_
      else Some []
  end.

Definition payload_words (m : memory) (begin end_ : Z) : option (list Z) :=
  match payload_word_addrs (S (Z.to_nat ((end_ - begin) / word_size))) begin end_ with
  | Some addrs => Some (load_word m <$> addrs)
  | None => None
  end.

(** ** Little-endian words *)

Lemma le_combine_split n v : le_combine (le_split n v) = v mod 256 ^ Z.of_nat n.
Proof.
  revert v; induction n as [|n IH]; intros v; simpl; [by rewrite Z.mod_1_r|].
  rewrite IH, Nat2Z.inj_succ, Z.pow_succ_r by lia.
  rewrite (Z.rem_mul_r v 256 (256 ^ Z.of_nat n)); lia.
Qed.

Lemma length_le_split n v : length (le_split n v) = n.
Proof. revert v; induction n; intros; simpl; auto. Qed.

Lemma le_split_bytes n v b : b ∈ le_split n v → 0 <= b < 256.
Proof.
  revert v; induction n as [|n IH]; intros v; simpl; [by intros ?%elem_of_nil|].
  intros [->|Hb]%elem_of_cons; [|eauto].
  pose proof (Z.mod_pos_bound v 256). lia.
Qed.

Lemma le_combine_bound bs :
  (∀ b, b ∈ bs → 0 <= b < 256) → 0 <= le_combine bs < 256 ^ Z.of_nat (length bs).
Proof.
  induction bs as [|b bs IH]; intros Hb; simpl; [lia|].
  assert (0 <= b < 256) by (apply Hb; left).
  rewrite Nat2Z.inj_succ, Z.pow_succ_r by lia.
  assert (0 <= le_combine bs < 256 ^ Z.of_nat (length bs)) by (apply IH; intros; apply Hb; by right).
  lia.
Qed.

(** ** Loads and stores *)

Lemma load_byte_bound m a : 0 <= load_byte m a < 256.
Proof. unfold load_byte. pose proof (Z.mod_pos_bound (default 0 (m !! a)) 256). lia. Qed.

Lemma load_word_size m a : is_size (load_word m a).
Proof.
  unfold load_word, is_size, SIZE_MAX.
  pose proof (le_combine_bound (load_byte m <$> seqZ a 8)) as Hb.
  rewrite length_fmap, length_seqZ in Hb.
  change (256 ^ Z.of_nat (Z.to_nat 8)) with (2 ^ 64) in Hb.
  enough (0 <= le_combine (load_byte m <$> seqZ a 8) < 2 ^ 64) by lia.
  apply Hb. intros b (x & -> & _)%list_elem_of_fmap. apply load_byte_bound.
Qed.

Lemma store_bytes_out m a bs x :
  x < a ∨ a + Z.of_nat (length bs) <= x → store_bytes m a bs !! x = m !! x.
Proof.
  revert a; induction bs as [|b bs IH]; intros a Hx; [done|]. simpl in *.
  rewrite lookup_insert_ne by lia. apply IH. lia.
Qed.

Lemma store_bytes_in m a bs x :
  a <= x < a + Z.of_nat (length bs) → store_bytes m a bs !! x = bs !! Z.to_nat (x - a).
Proof.
  revert a; induction bs as [|b bs IH]; intros a Hx; simpl in *; [lia|].
  destruct (decide (x = a)) as [->|].
  - rewrite lookup_insert_eq. by replace (Z.to_nat (a - a)) with 0%nat by lia.
  - rewrite lookup_insert_ne by lia. rewrite IH by lia.
    by replace (Z.to_nat (x - a)) with (S (Z.to_nat (x - (a + 1)))) by lia.
Qed.

Lemma load_word_ext m m' a :
  (∀ x, a <= x < a + 8 → load_byte m x = load_byte m' x) → load_word m a = load_word m' a.
Proof.
  intros H. unfold load_word. f_equal. apply list_fmap_ext. intros i x Hx.
  apply H. apply lookup_seqZ in Hx. lia.
Qed.

(** Writing outside the eight bytes of a word does not change it. *)
Lemma load_store_bytes_disjoint m a b bs :
  a + 8 <= b ∨ b + Z.of_nat (length bs) <= a →
  load_word (store_bytes m b bs) a = load_word m a.
Proof.
  intros H. apply load_word_ext. intros x Hx. unfold load_byte.
  by rewrite store_bytes_out by lia.
Qed.

Lemma load_store_word_disjoint m a b v :
  a + 8 <= b ∨ b + 8 <= a → load_word (store_word m b v) a = load_word m a.
Proof. intros. apply load_store_bytes_disjoint. rewrite length_le_split. lia. Qed.

(** Reading back the bytes just written. *)
Lemma load_store_bytes m a bs n :
  length bs = Z.to_nat n → (∀ b, b ∈ bs → 0 <= b < 256) →
  load_byte (store_bytes m a bs) <$> seqZ a n = bs.
Proof.
  intros Hl Hb. apply list_eq_same_length with (Z.to_nat n);
    [done|by rewrite length_fmap, length_seqZ|].
  intros i x y Hi. rewrite list_lookup_fmap, lookup_seqZ_lt by lia. simpl.
  intros [= <-] Hy. unfold load_byte. rewrite store_bytes_in by lia.
  replace (Z.to_nat (a + Z.of_nat i - a)) with i by lia. rewrite Hy. simpl.
  apply Z.mod_small, Hb. eapply list_elem_of_lookup_2, Hy.
Qed.

Lemma load_store_word_eq m a v : is_size v → load_word (store_word m a v) a = v.
Proof.
  intros Hv. unfold load_word, store_word.
  rewrite load_store_bytes; [|by rewrite length_le_split|apply le_split_bytes].
  rewrite le_combine_split. apply Z.mod_small.
  change (256 ^ Z.of_nat 8) with (2 ^ 64). unfold is_size, SIZE_MAX in Hv. lia.
Qed.

#[export] Hint Rewrite load_store_word_eq using (eauto with gc) : gc_simpl.
#[export] Hint Resolve load_word_size : gc.

(** ** A cleared payload holds no pointer *)

Lemma load_word_empty x : load_word ∅ x = 0.
Proof.
  unfold load_word. assert (load_byte ∅ <$> seqZ x 8 = (λ _, 0) <$> seqZ x 8) as ->.
  { apply list_fmap_ext. intros. unfold load_byte. by rewrite lookup_empty. }
  done.
Qed.

Lemma load_word_memset0 m a size x :
  a <= x → x + 8 <= a + size → load_word (memset0 m a size) x = 0.
Proof.
  intros Ha Hx. rewrite <-(load_word_empty x). apply load_word_ext. intros y Hy.
  unfold load_byte, memset0. rewrite store_bytes_in by (rewrite length_replicate; lia).
  by rewrite lookup_replicate_2, lookup_empty by lia.
Qed.

(** ** The payload loop *)

(** The words wholly inside [begin, end), every eight bytes from [begin]. *)
Definition word_addrs (begin end_ : Z) : list Z :=
  (λ i, begin + word_size * i) <$> seqZ 0 ((end_ - begin) / word_size).

Lemma elem_of_word_addrs b e a :
  a ∈ word_addrs b e ↔ ∃ i, 0 <= i ∧ a = b + 8 * i ∧ a + 8 <= e.
Proof.
  unfold word_addrs, word_size. rewrite list_elem_of_fmap. split.
  - intros (i & -> & Hi%elem_of_seqZ). exists i.
    pose proof (Z.mul_div_le (e - b) 8). lia.
  - intros (i & Hi & -> & He). exists i. split; [done|]. apply elem_of_seqZ.
    assert (i + 1 <= (e - b) / 8) by (apply Z.div_le_lower_bound; lia). lia.
Qed.

Lemma word_addrs_nil b e : e < b + word_size → word_addrs b e = [].
Proof.
  unfold word_addrs, word_size. intros H.
  replace (seqZ 0 ((e - b) / 8)) with (@nil Z); [done|]. symmetry. apply seqZ_nil.
  apply Z.lt_succ_r, Z.div_lt_upper_bound; lia.
Qed.

Lemma word_addrs_cons b e :
  b + word_size <= e → word_addrs b e = b :: word_addrs (b + word_size) e.
Proof.
  unfold word_addrs, word_size. intros H.
  assert ((e - b) / 8 = 1 + (e - (b + 8)) / 8) as ->.
  { replace (e - b) with (1 * 8 + (e - (b + 8))) by lia. by rewrite Z.div_add_l by lia. }
  pose proof (Z.div_pos (e - (b + 8)) 8).
  rewrite (seqZ_cons 0 (1 + _)) by lia.
  replace (Z.pred (1 + (e - (b + 8)) / 8)) with ((e - (b + 8)) / 8) by lia.
  csimpl. f_equal; [lia|].
  replace (Z.succ 0) with (1 + 0) by lia. rewrite <-fmap_add_seqZ, <-list_fmap_compose.
  apply list_fmap_ext. intros i x Hx. simpl. lia.
Qed.

(** Away from the top of the address space the loop terminates with the fuel
    [payload_words] gives it and visits exactly [word_addrs]. *)
Lemma payload_word_addrs_spec b e fuel :
  0 <= b → b <= e → e + word_size <= SIZE_MAX →
  ((e - b) / word_size < Z.of_nat fuel) →
  payload_word_addrs fuel b e = Some (word_addrs b e).
Proof.
  unfold SIZE_MAX, word_size. intros Hb Hbe He. revert b Hb Hbe.
  induction fuel as [|fuel IH]; intros b Hb Hbe Hf; simpl.
  { pose proof (Z.div_pos (e - b) 8). lia. }
  unfold word_size. rewrite wrap64_small by lia. destruct (Z.leb_spec (b + 8) e).
  - assert ((e - b) / 8 = 1 + (e - (b + 8)) / 8) as Hd.
    { replace (e - b) with (1 * 8 + (e - (b + 8))) by lia. by rewrite Z.div_add_l by lia. }
    rewrite IH by lia. by rewrite (word_addrs_cons b e) by (unfold word_size; lia).
  - by rewrite word_addrs_nil by (unfold word_size; lia).
Qed.

Lemma payload_words_spec m b e :
  0 <= b → b <= e → e + word_size <= SIZE_MAX →
  payload_words m b e = Some (load_word m <$> word_addrs b e).
Proof.
  intros. unfold payload_words.
  rewrite payload_word_addrs_spec; [done|lia..|].
  pose proof (Z.div_pos (e - b) word_size). unfold word_size in *. lia.
Qed.
