(* ===== verification/OrdMap.v ===== *)
(** * [std::map] with integer keys

    [std::map<std::uintptr_t, T>] and [std::map<std::thread::id, T>] as
    association lists sorted by key: the collector relies on the iteration
    order (addresses ascending) and on [upper_bound], which a plain finite map
    does not have.  An iterator is its position in the list, [end()] is the
    length.  [sm_wf] is the ordering invariant every operation keeps. *)

From S2P Require Import Prelude.

Abbreviation stdmap V := (list (Z * V)).

Section OrdMap.
Context {V : Type}.
Implicit Types (m : stdmap V) (k : Z) (v : V).

Definition sm_wf m : Prop := StronglySorted Z.lt m.*1.

(** [m.find(k)] *)
Fixpoint sm_find k m : option V :=
  match m with
  | [] => None
  | (k', v') :: m' => if k =? k' then Some v' else sm_find k m'
  end.

(** [m.emplace(k, v)]: no effect when the key is present. *)
Fixpoint sm_emplace k v m : stdmap V :=
  match m with
  | [] => [(k, v)]
  | (k', v') :: m' =>
      if k <? k' then (k, v) :: m
      else if k =? k' then m
      else (k', v') :: sm_emplace k v m'
  end.

(** [m.erase(k)] *)
Fixpoint sm_erase k m : stdmap V :=
  match m with
  | [] => []
  | (k', v') :: m' => if k =? k' then m' else (k', v') :: sm_erase k m'
  end.

(** Assignment through an iterator or a pointer to the mapped value. *)
Fixpoint sm_alter (f : V → V) k m : stdmap V :=
  match m with
  | [] => []
  | (k', v') :: m' => if k =? k' then (k', f v') :: m' else (k', v') :: sm_alter f k m'
  end.

(** [m.upper_bound(k)]: the position of the first key above [k]. *)
Fixpoint sm_upper_bound k m : nat :=
  match m with
  | [] => 0
  | (k', _) :: m' => if k' <=? k then S (sm_upper_bound k m') else 0
  end.

(** [it = upper_bound(k); if (it == begin()) none; --it] *)
Definition sm_pred k m : option (Z * V) :=
  match sm_upper_bound k m with
  | O => None
  | S i => m !! i
  end.

(** ** Lemmas *)

Lemma list_filter_id (P : Z * V → Prop) `{∀ x, Decision (P x)} m :
  (∀ x, x ∈ m → P x) → filter P m = m.
Proof.
  induction m as [|x m IH]; [done|]. intros HP. rewrite filter_cons_True by (apply HP; left).
  rewrite IH; [done|]. intros; apply HP; by right.
Qed.

Lemma sm_wf_nil : sm_wf []. Proof. constructor. Qed.

Lemma sm_wf_cons k v m : sm_wf ((k, v) :: m) ↔ sm_wf m ∧ ∀ k' v', (k', v') ∈ m → k < k'.
Proof.
  unfold sm_wf; csimpl. split.
  - intros [Hs Hf]%StronglySorted_inv. split; [done|]. intros k' v' Hin.
    apply (proj1 (Forall_forall _ _) Hf). apply list_elem_of_fmap. by exists (k', v').
  - intros [Hs Hf]. constructor; [done|]. apply Forall_forall.
    intros x ([k' v'] & -> & Hin)%list_elem_of_fmap. by eapply Hf.
Qed.

Lemma sm_wf_NoDup m : sm_wf m → NoDup m.*1.
Proof. apply StronglySorted_lt_NoDup. Qed.

Lemma sm_wf_NoDup_entries m : sm_wf m → NoDup m.
Proof. intros H%sm_wf_NoDup. by eapply NoDup_fmap_1. Qed.

Lemma sm_find_elem k v m : sm_find k m = Some v → (k, v) ∈ m.
Proof.
  induction m as [|[k' v'] m IH]; simpl; [done|]. zbool.
  - intros [= ->]. subst. left.
  - intros; right; auto.
Qed.

Lemma sm_elem_find k v m : sm_wf m → (k, v) ∈ m → sm_find k m = Some v.
Proof.
  induction m as [|[k' v'] m IH]; [by intros _ ?%elem_of_nil|].
  intros [Hwf Hlt]%sm_wf_cons [[= -> ->]|Hin]%elem_of_cons; simpl.
  - by rewrite Z.eqb_refl.
  - apply Hlt in Hin as Hk. zbool. auto.
Qed.

Lemma sm_find_iff k v m : sm_wf m → sm_find k m = Some v ↔ (k, v) ∈ m.
Proof. split; eauto using sm_find_elem, sm_elem_find. Qed.

Lemma sm_find_None k m : sm_find k m = None ↔ ∀ v, (k, v) ∉ m.
Proof.
  induction m as [|[k' v'] m IH]; simpl.
  { split; [intros _ v ?%elem_of_nil|]; done. }
  zbool.
  - subst. split; [done|]. intros Hn. destruct (Hn v'). left.
  - rewrite IH. split; intros Hn v; [|intros Hin; apply (Hn v); by right].
    intros [[=]|Hin]%elem_of_cons; [done|]. by apply (Hn v).
Qed.

Lemma elem_of_sm_emplace x k v m : x ∈ sm_emplace k v m → x = (k, v) ∨ x ∈ m.
Proof.
  induction m as [|[k' v'] m IH]; simpl.
  - intros [->|?]%elem_of_cons; auto.
  - zbool; rewrite ?elem_of_cons; intuition.
Qed.

Lemma sm_wf_emplace k v m : sm_wf m → sm_wf (sm_emplace k v m).
Proof.
  induction m as [|[k' v'] m IH]; simpl.
  - intros _. apply sm_wf_cons. split; [apply sm_wf_nil|]. by intros ?? ?%elem_of_nil.
  - intros [Hwf Hlt]%sm_wf_cons. zbool.
    + apply sm_wf_cons; split; [by apply sm_wf_cons|].
      intros k'' v'' [[= -> ->]|Hin]%elem_of_cons; [done|]. apply Hlt in Hin; lia.
    + by apply sm_wf_cons.
    + apply sm_wf_cons; split; [auto|].
      intros k'' v'' [[= -> ->]|Hin]%elem_of_sm_emplace; [lia|eauto].
Qed.

Lemma sm_emplace_perm k v m : sm_find k m = None → sm_emplace k v m ≡ₚ (k, v) :: m.
Proof.
  induction m as [|[k' v'] m IH]; simpl; [done|].
  zbool; try done. intros Hf. rewrite IH by done. apply Permutation_swap.
Qed.

Lemma sm_emplace_present k v v' m : sm_wf m → sm_find k m = Some v' → sm_emplace k v m = m.
Proof.
  induction m as [|[k1 v1] m IH]; simpl; [done|].
  intros [Hwf Hlt]%sm_wf_cons. zbool; try done.
  - intros Hf%sm_find_elem. apply Hlt in Hf. lia.
  - intros Hf. by rewrite IH.
Qed.

Lemma sm_find_emplace_eq k v m : sm_find k m = None → sm_find k (sm_emplace k v m) = Some v.
Proof.
  induction m as [|[k' v'] m IH]; simpl; [by rewrite Z.eqb_refl|].
  zbool; try done; rewrite ?Z.eqb_refl; try done; zbool; auto.
Qed.

Lemma sm_find_emplace_ne k k' v m : k ≠ k' → sm_find k (sm_emplace k' v m) = sm_find k m.
Proof.
  intros Hne. induction m as [|[k1 v1] m IH]; simpl; zbool; simpl; zbool; done.
Qed.

Lemma sm_erase_filter k m : sm_wf m → sm_erase k m = filter (λ kv, kv.1 ≠ k) m.
Proof.
  induction m as [|[k' v'] m IH]; simpl; [done|].
  intros [Hwf Hlt]%sm_wf_cons. rewrite filter_cons; simpl. zbool; case_decide; try done.
  - subst. symmetry. apply list_filter_id. intros [k'' v''] Hin. apply Hlt in Hin. simpl. lia.
  - by rewrite IH.
Qed.

Lemma sm_wf_filter (P : Z * V → Prop) `{∀ x, Decision (P x)} m : sm_wf m → sm_wf (filter P m).
Proof.
  induction m as [|[k v] m IH]; [done|]. intros [Hwf Hlt]%sm_wf_cons.
  rewrite filter_cons. case_decide; [|auto]. apply sm_wf_cons; split; [auto|].
  intros k' v' [_ Hin]%list_elem_of_filter. eauto.
Qed.

Lemma sm_wf_erase k m : sm_wf m → sm_wf (sm_erase k m).
Proof. intros Hwf. rewrite sm_erase_filter by done. by apply sm_wf_filter. Qed.

Lemma sm_find_filter (P : Z * V → Prop) `{∀ x, Decision (P x)} k v m :
  sm_wf m → sm_find k (filter P m) = Some v ↔ sm_find k m = Some v ∧ P (k, v).
Proof.
  intros Hwf. rewrite !sm_find_iff, list_elem_of_filter by auto using sm_wf_filter. tauto.
Qed.

Lemma sm_find_erase k k' m :
  sm_wf m → sm_find k (sm_erase k' m) = if k =? k' then None else sm_find k m.
Proof.
  intros Hwf. rewrite sm_erase_filter by done. apply option_eq. intros v.
  rewrite sm_find_filter by done. simpl. zbool; naive_solver.
Qed.

Lemma sm_keys_alter f k m : (sm_alter f k m).*1 = m.*1.
Proof. induction m as [|[k' v'] m IH]; simpl; [done|]. zbool; csimpl; congruence. Qed.

Lemma sm_wf_alter f k m : sm_wf m → sm_wf (sm_alter f k m).
Proof. unfold sm_wf. by rewrite sm_keys_alter. Qed.

Lemma sm_find_alter f k k' m :
  sm_find k (sm_alter f k' m) = if k =? k' then f <$> sm_find k m else sm_find k m.
Proof.
  induction m as [|[k1 v1] m IH]; simpl; [by destruct (k =? k')|].
  destruct (Z.eqb_spec k' k1) as [->|]; simpl; destruct (Z.eqb_spec k k1) as [->|]; simpl;
    rewrite ?IH; zbool; done.
Qed.

Lemma sm_alter_emplace f k v m :
  sm_find k m = None → sm_alter f k (sm_emplace k v m) = sm_emplace k (f v) m.
Proof.
  induction m as [|[k' v'] m IH]; simpl; [by rewrite Z.eqb_refl|].
  zbool; simpl; rewrite ?Z.eqb_refl; try done; zbool; try done. intros Hf. by rewrite IH.
Qed.

(** On a well-formed map only the entry of the key changes. *)
Lemma sm_alter_fmap f k m :
  sm_wf m → sm_alter f k m = (λ kv, if kv.1 =? k then (kv.1, f kv.2) else kv) <$> m.
Proof.
  induction m as [|[k' v'] m IH]; [done|]. intros [Hwf Hlt]%sm_wf_cons. csimpl.
  destruct (Z.eqb_spec k k') as [->|Hne].
  - rewrite Z.eqb_refl. f_equal. rewrite <-(list_fmap_id m) at 1. apply list_fmap_ext.
    intros i [k1 v1] Hi%list_elem_of_lookup_2. apply Hlt in Hi. simpl.
    by destruct (Z.eqb_spec k1 k'); [lia|].
  - destruct (Z.eqb_spec k' k); [congruence|]. by rewrite IH.
Qed.

Lemma sm_upper_bound_le k m : (sm_upper_bound k m <= length m)%nat.
Proof. induction m as [|[k' v'] m IH]; simpl; zbool; lia. Qed.

(** The keys before the upper bound are exactly those not above [k]. *)
Lemma sm_upper_bound_spec k m i k' v' :
  sm_wf m → m !! i = Some (k', v') → (i < sm_upper_bound k m)%nat ↔ k' <= k.
Proof.
  revert i; induction m as [|[k1 v1] m IH]; intros i; [done|].
  intros [Hwf Hlt]%sm_wf_cons. destruct i as [|i]; simpl.
  - intros [= -> ->]. zbool; lia.
  - intros Hi. zbool.
    + rewrite <-IH by eauto. lia.
    + apply list_elem_of_lookup_2, Hlt in Hi. lia.
Qed.

(** [sm_pred] finds the entry with the greatest key not above [k]. *)
Lemma sm_pred_Some k m k' v' :
  sm_wf m →
  sm_pred k m = Some (k', v') ↔
  (k', v') ∈ m ∧ k' <= k ∧ ∀ k'' v'', (k'', v'') ∈ m → k'' <= k → k'' <= k'.
Proof.
  intros Hwf. unfold sm_pred. pose proof (sm_upper_bound_le k m) as Hle.
  assert (Hlook : ∀ j kv, m !! j = Some kv → kv.1 <= k ↔ (j < sm_upper_bound k m)%nat).
  { intros j [kj vj] Hj. symmetry. by eapply sm_upper_bound_spec. }
  assert (Hmono : ∀ i j a b, m !! i = Some a → m !! j = Some b → (i < j)%nat → a.1 < b.1).
  { clear Hle Hlook. induction m as [|[k1 v1] m IH]; intros i j a b; [done|].
    apply sm_wf_cons in Hwf as [Hwf Hlt]. destruct i, j; simpl; try lia.
    - intros [= <-] Hb _. destruct b. by apply list_elem_of_lookup_2, Hlt in Hb.
    - intros. apply (IH Hwf i j); auto. lia. }
  destruct (sm_upper_bound k m) as [|i] eqn:E.
  - split; [done|]. intros ([i Hi]%list_elem_of_lookup & Hk & _). apply Hlook in Hi. simpl in *. lia.
  - split.
    + intros Hi. split_and!.
      * by eapply list_elem_of_lookup_2.
      * apply Hlook in Hi. simpl in *. lia.
      * intros k'' v'' [j Hj]%list_elem_of_lookup Hk. pose proof (Hlook _ _ Hj). simpl in *.
        destruct (decide (j = i)) as [->|]; [simplify_eq; lia|].
        pose proof (Hmono j i _ _ Hj Hi ltac:(lia)). simpl in *; lia.
    + intros ([j Hj]%list_elem_of_lookup & Hk & Hmax).
      destruct (lookup_lt_is_Some_2 m i) as [[ki vi] Hi]; [lia|].
      pose proof (Hlook _ _ Hj). pose proof (Hlook _ _ Hi). simpl in *.
      destruct (decide (j = i)) as [->|]; [congruence|].
      pose proof (Hmono j i _ _ Hj Hi ltac:(lia)).
      apply list_elem_of_lookup_2, Hmax in Hi; simpl in *; lia.
Qed.

Lemma sm_pred_elem k m kv : sm_pred k m = Some kv → kv ∈ m.
Proof.
  unfold sm_pred. destruct (sm_upper_bound k m); [done|]. apply list_elem_of_lookup_2.
Qed.

End OrdMap.

#[export] Hint Resolve sm_wf_nil sm_wf_emplace sm_wf_erase sm_wf_alter sm_wf_NoDup : gc.
