(* ===== verification/Chunk.v ===== *)
(** * Block headers

    [ChunkHeader] of src/include/gc/ChunkHeader.hpp with its inline methods,
    and the address arithmetic of the anonymous namespace of
    src/src/GCManager.cpp that derives a payload from its header. *)

From S2P Require Import Prelude Words.

Definition kChunkMagicNumber : Z := 0x47434C42.
Definition sizeof_ChunkHeader : Z := 32.

(** A [DestructorFn] is the address of the function; 0 is [nullptr]. *)
Abbreviation DestructorFn := Z.

Record ChunkHeader := {
  ch_size : Z;
  ch_destructor : DestructorFn;
  ch_magic_number : Z;
  ch_payload_offset : Z;
  ch_marked : Z;
  ch_alignment_shift : Z;
}.

#[global] Instance ChunkHeader_eq_dec : EqDecision ChunkHeader.
Proof. solve_decision. Defined.

(** The state of [new (raw) ChunkHeader()]. *)
Definition ChunkHeader_init : ChunkHeader :=
  {| ch_size := 0; ch_destructor := 0; ch_magic_number := kChunkMagicNumber;
     ch_payload_offset := 0; ch_marked := 0; ch_alignment_shift := 0 |}.

Definition is_marked (h : ChunkHeader) : bool := negb (ch_marked h =? 0).

Definition set_marked (value : bool) (h : ChunkHeader) : ChunkHeader :=
  {| ch_size := ch_size h; ch_destructor := ch_destructor h;
     ch_magic_number := ch_magic_number h; ch_payload_offset := ch_payload_offset h;
     ch_marked := if value then 1 else 0; ch_alignment_shift := ch_alignment_shift h |}.

Definition set_allocation_alignment (alignment : Z) (h : ChunkHeader) : ChunkHeader :=
  {| ch_size := ch_size h; ch_destructor := ch_destructor h;
     ch_magic_number := ch_magic_number h; ch_payload_offset := ch_payload_offset h;
     ch_marked := ch_marked h; ch_alignment_shift := countr_zero alignment mod 2 ^ 8 |}.

Definition allocation_alignment (h : ChunkHeader) : Z :=
  wrap64 (Z.shiftl 1 (ch_alignment_shift h)).

(** [header] is the address of the block, [h] the header stored there. *)
Definition payload_begin (header : Z) (h : ChunkHeader) : Z := header + ch_payload_offset h.
Definition payload_pointer (header : Z) (h : ChunkHeader) : Z := header + ch_payload_offset h.
Definition block_allocation_size (h : ChunkHeader) : Z :=
  wrap64 (ch_payload_offset h + ch_size h).

(** ** Lemmas *)

(** Two headers that differ at most in the mark byte. *)
Definition same_but_mark (h h' : ChunkHeader) : Prop :=
  set_marked false h = set_marked false h'.

#[global] Instance same_but_mark_equiv : Equivalence same_but_mark.
Proof. split; [intros ?|intros ??|intros ???]; unfold same_but_mark; congruence. Qed.

Lemma same_but_mark_fields h h' :
  same_but_mark h h' →
  ch_size h = ch_size h' ∧ ch_destructor h = ch_destructor h' ∧
  ch_magic_number h = ch_magic_number h' ∧ ch_payload_offset h = ch_payload_offset h' ∧
  ch_alignment_shift h = ch_alignment_shift h'.
Proof. unfold same_but_mark, set_marked. by intros [= -> -> -> -> ->]. Qed.

#[global] Instance ch_size_Proper : Proper (same_but_mark ==> eq) ch_size.
Proof. by intros ?? (?&?&?&?&?)%same_but_mark_fields. Qed.
#[global] Instance ch_magic_number_Proper : Proper (same_but_mark ==> eq) ch_magic_number.
Proof. by intros ?? (?&?&?&?&?)%same_but_mark_fields. Qed.
#[global] Instance ch_payload_offset_Proper : Proper (same_but_mark ==> eq) ch_payload_offset.
Proof. by intros ?? (?&?&?&?&?)%same_but_mark_fields. Qed.
#[global] Instance block_allocation_size_Proper : Proper (same_but_mark ==> eq) block_allocation_size.
Proof. intros ?? H. unfold block_allocation_size. by rewrite H. Qed.
#[global] Instance allocation_alignment_Proper : Proper (same_but_mark ==> eq) allocation_alignment.
Proof. intros ?? (_&_&_&_&H)%same_but_mark_fields. unfold allocation_alignment. by rewrite H. Qed.

Lemma is_marked_set b h : is_marked (set_marked b h) = b.
Proof. by destruct b. Qed.
#[export] Hint Rewrite is_marked_set : gc_simpl.

(** The alignment survives its one-byte logarithmic encoding. *)
Lemma allocation_alignment_set k h :
  0 <= k < 64 → allocation_alignment (set_allocation_alignment (2 ^ k) h) = 2 ^ k.
Proof.
  intros Hk. unfold allocation_alignment. simpl.
  rewrite pos_countr_zero_spec, (Z.mod_small k) by lia.
  rewrite Z.shiftl_mul_pow2, Z.mul_1_l by lia. apply wrap64_small.
  split; [lia|]. apply Z.pow_lt_mono_r; lia.
Qed.
