(* ===== verification/Manager.v ===== *)
(** * The state of the collector

    The private members of [GC_Manager] (src/include/gc/GCManager.hpp) as a
    record, and the [World] the collector runs in: the headers of the blocks,
    the outstanding [operator new] blocks, memory, the outcome of the native
    allocations to come, and a log of the finalizers run, the blocks freed and
    the lines printed.
    Every locked operation of the other files is a computation in
    [M World]. *)

From S2P Require Import Prelude Words Memory OrdMap Chunk.

(** The counters of [GCStats]; the fields [stats()] fills from the live
    registries are part of the snapshot of Diagnostics. *)
Record GCStats := {
  total_collections : Z;
  bytes_reclaimed_last : Z;
  blocks_reclaimed_last : Z;
  bytes_reclaimed_total : Z;
  duration_last : Z;
  duration_total : Z;
  total_allocations : Z;
  bytes_allocated_total : Z;
  peak_live_bytes : Z;
  peak_live_blocks : Z;
}.

Definition GCStats_init : GCStats :=
  {| total_collections := 0; bytes_reclaimed_last := 0; blocks_reclaimed_last := 0;
     bytes_reclaimed_total := 0; duration_last := 0; duration_total := 0;
     total_allocations := 0; bytes_allocated_total := 0; peak_live_bytes := 0;
     peak_live_blocks := 0 |}.

(** [br_header] is the address of the block's [ChunkHeader]. *)
Record BlockRecord := {
  br_header : Z;
  br_payload_begin : Z;
  br_payload_end : Z;
  br_constructing : bool;
}.

Record RootRange := { rr_begin : Z; rr_end : Z }.

Record WeakRefEntry := { we_target : Z; we_storage : Z }.

Record ThreadState := {
  ts_stack_bottom : Z;
  ts_parked_stack_top : Z;
  ts_fake_stack_handle : Z;
  ts_register_spill : list Z;
  ts_paused_for_collection : bool;
}.

#[global] Instance BlockRecord_eq_dec : EqDecision BlockRecord.
Proof. solve_decision. Defined.
#[global] Instance RootRange_eq_dec : EqDecision RootRange.
Proof. solve_decision. Defined.
#[global] Instance WeakRefEntry_eq_dec : EqDecision WeakRefEntry.
Proof. solve_decision. Defined.
#[global] Instance ThreadState_eq_dec : EqDecision ThreadState.
Proof. solve_decision. Defined.
#[global] Instance GCStats_eq_dec : EqDecision GCStats.
Proof. solve_decision. Defined.

(** Thread ids are integers; [None] is [std::thread::id()], no thread. *)
Abbreviation thread_id := Z.

Record GC_Manager := {
  allocations_ : stdmap BlockRecord;
  threads_ : stdmap ThreadState;
  registered_root_ranges_ : list RootRange;
  weak_refs_ : list WeakRefEntry;
  managed_bytes_ : Z;
  reserved_bytes_ : Z;
  collection_threshold_bytes_ : Z;
  collector_thread_ : option thread_id;
  stop_the_world_requested_ : bool;
  collecting_ : bool;
  stats_ : GCStats;
}.

Definition GC_Manager_init : GC_Manager :=
  {| allocations_ := []; threads_ := []; registered_root_ranges_ := []; weak_refs_ := [];
     managed_bytes_ := 0; reserved_bytes_ := 0;
     collection_threshold_bytes_ := 10 * 1024 * 1024;
     collector_thread_ := None; stop_the_world_requested_ := false; collecting_ := false;
     stats_ := GCStats_init |}.

(** What the log records, in program order. *)
Inductive event :=
| EvFinalize (payload : Z)
| EvFree (raw : Z)
| EvPrint (line : String.string). (* what a program writes to std::cout *)

#[global] Instance event_eq_dec : EqDecision event.
Proof. solve_decision. Defined.

Record World := {
  mgr : GC_Manager;
  headers : gmap Z ChunkHeader;
  blocks : gmap Z (Z * Z); (* operator new: address to size and alignment *)
  mem : memory;
  oom : list bool; (* does the n-th native allocation from now on fail? *)
  log : list event;
}.

Definition World_init : World :=
  {| mgr := GC_Manager_init; headers := ∅; blocks := ∅; mem := ∅; oom := []; log := [] |}.

(** ** Updates of one field *)

Definition set_mgr (f : GC_Manager → GC_Manager) (w : World) : World :=
  {| mgr := f (mgr w); headers := headers w; blocks := blocks w; mem := mem w;
     oom := oom w; log := log w |}.
Definition set_headers (f : gmap Z ChunkHeader → gmap Z ChunkHeader) (w : World) : World :=
  {| mgr := mgr w; headers := f (headers w); blocks := blocks w; mem := mem w;
     oom := oom w; log := log w |}.
Definition set_blocks (f : gmap Z (Z * Z) → gmap Z (Z * Z)) (w : World) : World :=
  {| mgr := mgr w; headers := headers w; blocks := f (blocks w); mem := mem w;
     oom := oom w; log := log w |}.
Definition set_mem (f : memory → memory) (w : World) : World :=
  {| mgr := mgr w; headers := headers w; blocks := blocks w; mem := f (mem w);
     oom := oom w; log := log w |}.
Definition set_oom (f : list bool → list bool) (w : World) : World :=
  {| mgr := mgr w; headers := headers w; blocks := blocks w; mem := mem w;
     oom := f (oom w); log := log w |}.
Definition add_log (e : event) (w : World) : World :=
  {| mgr := mgr w; headers := headers w; blocks := blocks w; mem := mem w;
     oom := oom w; log := log w ++ [e] |}.

Definition set_allocations (f : stdmap BlockRecord → stdmap BlockRecord) (g : GC_Manager) : GC_Manager :=
  {| allocations_ := f (allocations_ g); threads_ := threads_ g;
     registered_root_ranges_ := registered_root_ranges_ g; weak_refs_ := weak_refs_ g;
     managed_bytes_ := managed_bytes_ g; reserved_bytes_ := reserved_bytes_ g;
     collection_threshold_bytes_ := collection_threshold_bytes_ g;
     collector_thread_ := collector_thread_ g;
     stop_the_world_requested_ := stop_the_world_requested_ g;
     collecting_ := collecting_ g; stats_ := stats_ g |}.
Definition set_threads (f : stdmap ThreadState → stdmap ThreadState) (g : GC_Manager) : GC_Manager :=
  {| allocations_ := allocations_ g; threads_ := f (threads_ g);
     registered_root_ranges_ := registered_root_ranges_ g; weak_refs_ := weak_refs_ g;
     managed_bytes_ := managed_bytes_ g; reserved_bytes_ := reserved_bytes_ g;
     collection_threshold_bytes_ := collection_threshold_bytes_ g;
     collector_thread_ := collector_thread_ g;
     stop_the_world_requested_ := stop_the_world_requested_ g;
     collecting_ := collecting_ g; stats_ := stats_ g |}.
Definition set_root_ranges (f : list RootRange → list RootRange) (g : GC_Manager) : GC_Manager :=
  {| allocations_ := allocations_ g; threads_ := threads_ g;
     registered_root_ranges_ := f (registered_root_ranges_ g); weak_refs_ := weak_refs_ g;
     managed_bytes_ := managed_bytes_ g; reserved_bytes_ := reserved_bytes_ g;
     collection_threshold_bytes_ := collection_threshold_bytes_ g;
     collector_thread_ := collector_thread_ g;
     stop_the_world_requested_ := stop_the_world_requested_ g;
     collecting_ := collecting_ g; stats_ := stats_ g |}.
Definition set_weak_refs (f : list WeakRefEntry → list WeakRefEntry) (g : GC_Manager) : GC_Manager :=
  {| allocations_ := allocations_ g; threads_ := threads_ g;
     registered_root_ranges_ := registered_root_ranges_ g; weak_refs_ := f (weak_refs_ g);
     managed_bytes_ := managed_bytes_ g; reserved_bytes_ := reserved_bytes_ g;
     collection_threshold_bytes_ := collection_threshold_bytes_ g;
     collector_thread_ := collector_thread_ g;
     stop_the_world_requested_ := stop_the_world_requested_ g;
     collecting_ := collecting_ g; stats_ := stats_ g |}.
Definition set_bytes (managed reserved : Z) (g : GC_Manager) : GC_Manager :=
  {| allocations_ := allocations_ g; threads_ := threads_ g;
     registered_root_ranges_ := registered_root_ranges_ g; weak_refs_ := weak_refs_ g;
     managed_bytes_ := managed; reserved_bytes_ := reserved;
     collection_threshold_bytes_ := collection_threshold_bytes_ g;
     collector_thread_ := collector_thread_ g;
     stop_the_world_requested_ := stop_the_world_requested_ g;
     collecting_ := collecting_ g; stats_ := stats_ g |}.
Definition set_threshold (t : Z) (g : GC_Manager) : GC_Manager :=
  {| allocations_ := allocations_ g; threads_ := threads_ g;
     registered_root_ranges_ := registered_root_ranges_ g; weak_refs_ := weak_refs_ g;
     managed_bytes_ := managed_bytes_ g; reserved_bytes_ := reserved_bytes_ g;
     collection_threshold_bytes_ := t;
     collector_thread_ := collector_thread_ g;
     stop_the_world_requested_ := stop_the_world_requested_ g;
     collecting_ := collecting_ g; stats_ := stats_ g |}.
Definition set_stw (collector : option thread_id) (requested collecting : bool)
    (g : GC_Manager) : GC_Manager :=
  {| allocations_ := allocations_ g; threads_ := threads_ g;
     registered_root_ranges_ := registered_root_ranges_ g; weak_refs_ := weak_refs_ g;
     managed_bytes_ := managed_bytes_ g; reserved_bytes_ := reserved_bytes_ g;
     collection_threshold_bytes_ := collection_threshold_bytes_ g;
     collector_thread_ := collector; stop_the_world_requested_ := requested;
     collecting_ := collecting; stats_ := stats_ g |}.
Definition set_stats (f : GCStats → GCStats) (g : GC_Manager) : GC_Manager :=
  {| allocations_ := allocations_ g; threads_ := threads_ g;
     registered_root_ranges_ := registered_root_ranges_ g; weak_refs_ := weak_refs_ g;
     managed_bytes_ := managed_bytes_ g; reserved_bytes_ := reserved_bytes_ g;
     collection_threshold_bytes_ := collection_threshold_bytes_ g;
     collector_thread_ := collector_thread_ g;
     stop_the_world_requested_ := stop_the_world_requested_ g;
     collecting_ := collecting_ g; stats_ := f (stats_ g) |}.

(** ** Primitive effects *)

(** A native container may have to allocate here, and may throw. *)
Definition native_alloc : M World unit := λ w,
  match oom w with
  | true :: rest => Throw bad_alloc (set_oom (λ _, rest) w)
  | false :: rest => Ret tt (set_oom (λ _, rest) w)
  | [] => Ret tt w
  end.

(** Dereferencing a [ChunkHeader*]: undefined when no header lives there. *)
Definition read_header (p : Z) : M World ChunkHeader := λ w,
  match headers w !! p with
  | Some h => Ret h w
  | None => Stuck Undefined_behaviour
  end.

Definition write_header (p : Z) (f : ChunkHeader → ChunkHeader) : M World unit := λ w,
  match headers w !! p with
  | Some h => Ret tt (set_headers <[p := f h]> w)
  | None => Stuck Undefined_behaviour
  end.

Definition write_word (a v : Z) : M World unit := modify (set_mem (λ m, store_word m a v)).
