(* ===== verification/Heap.v ===== *)
(** * The block registry

    [find_block_locked] and [register_block_locked] of src/src/GCManager.cpp,
    and [heap_wf], the well-formedness invariant of the registry that every
    operation of the collector preserves: blocks are sorted and disjoint,
    their headers are present and consistent, the byte counters are the sums
    of the block sizes, and every weak entry points into a live block. *)

From S2P Require Import Prelude Words Memory OrdMap Chunk Manager.

Abbreviation registry := (stdmap BlockRecord).

(** The returned key stands for the [BlockRecord*] into the map node. *)
Definition find_block_locked (allocations : registry) (address : Z) : option (Z * BlockRecord) :=
  match sm_pred address allocations with
  | None => None
  | Some (k, b) =>
      if (br_payload_begin b <=? address) && (address <? br_payload_end b)
      then Some (k, b) else None
  end.

Definition stats_on_register (size managed blocks : Z) (s : GCStats) : GCStats :=
  {| total_collections := total_collections s;
     bytes_reclaimed_last := bytes_reclaimed_last s;
     blocks_reclaimed_last := blocks_reclaimed_last s;
     bytes_reclaimed_total := bytes_reclaimed_total s;
     duration_last := duration_last s; duration_total := duration_total s;
     total_allocations := saturating_add (total_allocations s) 1;
     bytes_allocated_total := saturating_add (bytes_allocated_total s) size;
     peak_live_bytes := Z.max (peak_live_bytes s) managed;
     peak_live_blocks := Z.max (peak_live_blocks s) blocks |}.

Definition register_block_locked (header : Z) : M World unit :=
  h ← read_header header;
  let begin := payload_begin header h in
  native_alloc;;
  modify (set_mgr (set_allocations (sm_emplace begin
    {| br_header := header; br_payload_begin := begin;
       br_payload_end := begin + ch_size h; br_constructing := false |})));;
  modify (set_mgr (λ g, set_bytes (wrap64 (managed_bytes_ g + ch_size h))
                                  (wrap64 (reserved_bytes_ g + block_allocation_size h)) g));;
  modify (set_mgr (λ g, set_stats (stats_on_register (ch_size h) (managed_bytes_ g)
                                     (Z.of_nat (length (allocations_ g)))) g)).

(** ** The invariant *)

Abbreviation allocations w := (allocations_ (mgr w)).

Definition payload_size (kb : Z * BlockRecord) : Z := br_payload_end kb.2 - br_payload_begin kb.2.
Definition reserved_size (kb : Z * BlockRecord) : Z := br_payload_end kb.2 - br_header kb.2.

Record block_ok (w : World) (k : Z) (b : BlockRecord) : Prop := {
  bo_begin : br_payload_begin b = k;
  bo_header_pos : 0 < br_header b;
  bo_end : br_payload_end b + word_size <= SIZE_MAX;
  bo_header : ∃ h, headers w !! br_header b = Some h ∧
    ch_magic_number h = kChunkMagicNumber ∧
    payload_begin (br_header b) h = k ∧ br_payload_end b = k + ch_size h ∧
    0 < ch_size h ∧ sizeof_ChunkHeader <= ch_payload_offset h ∧
    blocks w !! br_header b = Some (ch_payload_offset h + ch_size h, allocation_alignment h);
}.

Definition points_into (al : registry) (a : Z) : Prop :=
  ∃ k b, (k, b) ∈ al ∧ k <= a < br_payload_end b.

Record heap_wf (w : World) : Prop := {
  wf_sorted : sm_wf (allocations w);
  wf_block : ∀ k b, (k, b) ∈ allocations w → block_ok w k b;
  wf_disjoint : ∀ k1 b1 k2 b2, (k1, b1) ∈ allocations w → (k2, b2) ∈ allocations w →
    k1 < k2 → br_payload_end b1 <= br_header b2;
  wf_managed : managed_bytes_ (mgr w) = sumZ (payload_size <$> allocations w);
  wf_reserved : reserved_bytes_ (mgr w) = sumZ (reserved_size <$> allocations w);
  wf_managed_max : managed_bytes_ (mgr w) <= SIZE_MAX;
  wf_reserved_max : reserved_bytes_ (mgr w) <= SIZE_MAX;
  wf_weak : ∀ e, e ∈ weak_refs_ (mgr w) → points_into (allocations w) (we_target e);
}.

(** ** Lookup *)

Lemma find_block_elem al a k b :
  find_block_locked al a = Some (k, b) →
  (k, b) ∈ al ∧ br_payload_begin b <= a < br_payload_end b.
Proof.
  unfold find_block_locked. destruct (sm_pred a al) as [[k' b']|] eqn:E; [|done].
  destruct (_ && _) eqn:Eb; [|done]. intros [= -> ->].
  apply andb_prop in Eb as [?%Z.leb_le ?%Z.ltb_lt].
  split; [by eapply sm_pred_elem|lia].
Qed.

Section Wf.
Context (w : World) (Hwf : heap_wf w).

Lemma wf_begin k b : (k, b) ∈ allocations w → br_payload_begin b = k.
Proof. intros H. exact (bo_begin _ _ _ (wf_block _ Hwf _ _ H)). Qed.

Lemma wf_extent k b :
  (k, b) ∈ allocations w →
  0 < br_header b ∧ br_header b + sizeof_ChunkHeader <= k ∧ k < br_payload_end b ∧
  br_payload_end b + word_size <= SIZE_MAX.
Proof.
  intros H. destruct (wf_block _ Hwf _ _ H) as [Hb ?? (h & ? & ? & Hpb & ? & ? & ? & ?)].
  unfold payload_begin in Hpb. lia.
Qed.

Lemma wf_key_inj k b b' : (k, b) ∈ allocations w → (k, b') ∈ allocations w → b = b'.
Proof.
  intros H H'. apply (sm_elem_find k) in H, H'; [congruence|apply wf_sorted, Hwf..].
Qed.

Lemma wf_unique_key k b k' b' a :
  (k, b) ∈ allocations w → (k', b') ∈ allocations w →
  k <= a < br_payload_end b → k' <= a < br_payload_end b' → k = k' ∧ b = b'.
Proof.
  intros H H' Ha Ha'.
  pose proof (wf_extent _ _ H). pose proof (wf_extent _ _ H'). unfold sizeof_ChunkHeader in *.
  destruct (Z.lt_trichotomy k k') as [Hlt|[->|Hlt]].
  - pose proof (wf_disjoint _ Hwf _ _ _ _ H H' Hlt). lia.
  - split; [done|]. by eapply wf_key_inj.
  - pose proof (wf_disjoint _ Hwf _ _ _ _ H' H Hlt). lia.
Qed.

(** Lookup resolves an address, base or interior, to the block it lies in. *)
Lemma find_block_spec a k b :
  find_block_locked (allocations w) a = Some (k, b) ↔
  (k, b) ∈ allocations w ∧ k <= a < br_payload_end b.
Proof.
  split.
  - intros [Hin Ha]%find_block_elem. by rewrite (wf_begin _ _ Hin) in Ha.
  - intros [Hin Ha]. unfold find_block_locked.
    assert (sm_pred a (allocations w) = Some (k, b)) as ->.
    { apply sm_pred_Some; [apply wf_sorted, Hwf|]. split_and!; [done|lia|].
      intros k' b' Hin' Hk'. destruct (decide (k' <= k)); [done|].
      pose proof (wf_disjoint _ Hwf _ _ _ _ Hin Hin' ltac:(lia)).
      pose proof (wf_extent _ _ Hin'). unfold sizeof_ChunkHeader in *. lia. }
    rewrite (wf_begin _ _ Hin). by destruct (Z.leb_spec k a), (Z.ltb_spec a (br_payload_end b)); try lia.
Qed.

Lemma find_block_points_into a :
  is_Some (find_block_locked (allocations w) a) ↔ points_into (allocations w) a.
Proof.
  split.
  - intros [[k b] H%find_block_spec]. by exists k, b.
  - intros (k & b & H). exists (k, b). by apply find_block_spec.
Qed.

Lemma wf_read_header k b :
  (k, b) ∈ allocations w → ∃ h, headers w !! br_header b = Some h ∧
    ch_magic_number h = kChunkMagicNumber ∧ payload_begin (br_header b) h = k ∧
    ch_size h = payload_size (k, b) ∧ block_allocation_size h = reserved_size (k, b).
Proof.
  intros H. pose proof (wf_extent _ _ H) as Hext. pose proof (wf_begin _ _ H) as Hb.
  destruct (wf_block _ Hwf _ _ H) as [_ _ _ (h & ? & ? & Hpb & ? & ? & ? & ?)].
  exists h. unfold payload_size, reserved_size, block_allocation_size, payload_begin in *. simpl.
  rewrite wrap64_size by (unfold is_size, word_size, sizeof_ChunkHeader in *; lia).
  split_and!; try done; lia.
Qed.

(** Distinct blocks have distinct headers. *)
Lemma wf_header_inj k b k' b' :
  (k, b) ∈ allocations w → (k', b') ∈ allocations w → br_header b = br_header b' → k = k'.
Proof.
  intros H H' Heq. pose proof (wf_extent _ _ H). pose proof (wf_extent _ _ H').
  unfold sizeof_ChunkHeader in *.
  destruct (Z.lt_trichotomy k k') as [Hlt|[->|Hlt]]; [|done|].
  - pose proof (wf_disjoint _ Hwf _ _ _ _ H H' Hlt). lia.
  - pose proof (wf_disjoint _ Hwf _ _ _ _ H' H Hlt). lia.
Qed.

Lemma wf_payload_words k b :
  (k, b) ∈ allocations w →
  payload_words (mem w) (br_payload_begin b) (br_payload_end b) =
    Some (load_word (mem w) <$> word_addrs k (br_payload_end b)).
Proof.
  intros H. pose proof (wf_extent _ _ H). rewrite (wf_begin _ _ H).
  unfold sizeof_ChunkHeader in *. apply payload_words_spec; lia.
Qed.
End Wf.

(** ** Worlds that differ only in mark bits *)

Definition erase_marks (w : World) : World := set_headers (fmap (set_marked false)) w.

Record marks_equiv (w w' : World) : Prop := { me_erase : erase_marks w = erase_marks w' }.

Infix "≈ₘ" := marks_equiv (at level 70) : gc_scope.
#[global] Open Scope gc_scope.

#[global] Instance marks_equiv_equivalence : Equivalence marks_equiv.
Proof. split; [intros ?|intros ?? []|intros ??? [] []]; split; congruence. Qed.

#[global] Instance mgr_Proper : Proper (marks_equiv ==> eq) mgr.
Proof. by intros ?? [[=]]. Qed.
#[global] Instance mem_Proper : Proper (marks_equiv ==> eq) mem.
Proof. by intros ?? [[=]]. Qed.
#[global] Instance blocks_Proper : Proper (marks_equiv ==> eq) blocks.
Proof. by intros ?? [[=]]. Qed.
#[global] Instance oom_Proper : Proper (marks_equiv ==> eq) oom.
Proof. by intros ?? [[=]]. Qed.
#[global] Instance log_Proper : Proper (marks_equiv ==> eq) log.
Proof. by intros ?? [[=]]. Qed.

Lemma marks_equiv_header w w' p h :
  w ≈ₘ w' → headers w !! p = Some h → ∃ h', headers w' !! p = Some h' ∧ same_but_mark h h'.
Proof.
  intros [Heq] Hh. unfold erase_marks, set_headers in Heq. injection Heq as _ Hf _ _ _ _.
  assert ((set_marked false <$> headers w) !! p = (set_marked false <$> headers w') !! p) as Hp
    by by rewrite Hf.
  rewrite !lookup_fmap, Hh in Hp. destruct (headers w' !! p) as [h'|]; [|done].
  exists h'. split; [done|]. by apply (inj Some) in Hp.
Qed.

Lemma marks_equiv_insert w p h h' :
  headers w !! p = Some h → same_but_mark h h' → set_headers <[p := h']> w ≈ₘ w.
Proof.
  intros Hh Hs. split. unfold erase_marks, set_headers. simpl. f_equal.
  rewrite fmap_insert. rewrite <-Hs. apply insert_id. by rewrite lookup_fmap, Hh.
Qed.

#[global] Instance block_ok_Proper : Proper (marks_equiv ==> eq ==> eq ==> iff) block_ok.
Proof.
  assert (∀ w w' k b, w ≈ₘ w' → block_ok w k b → block_ok w' k b) as H.
  { intros w w' k b Heq [? ? ? (h & Hh & Hm & Hpb & Hpe & Hs & Ho & Hbl)].
    destruct (marks_equiv_header _ _ _ _ Heq Hh) as (h' & Hh' & Hsame).
    split; [done..|]. exists h'. unfold payload_begin in *.
    rewrite <-(blocks_Proper _ _ Heq). destruct (same_but_mark_fields _ _ Hsame) as (<- & _ & <- & <- & _).
    by rewrite <-(allocation_alignment_Proper _ _ Hsame). }
  intros w w' Heq k ? <- b ? <-. split; apply H; [done|by symmetry].
Qed.

#[global] Instance heap_wf_Proper : Proper (marks_equiv ==> iff) heap_wf.
Proof.
  assert (∀ w w', w ≈ₘ w' → heap_wf w → heap_wf w') as H.
  { intros w w' Heq [? Hb ? ? ? ? ? ?]. split; rewrite <-?(mgr_Proper _ _ Heq); try done.
    intros k b Hin. rewrite <-Heq. auto. }
  intros w w' Heq. split; apply H; [done|by symmetry].
Qed.

(** ** What the invariant depends on *)

Lemma block_ok_ext w w' k b :
  headers w !! br_header b = headers w' !! br_header b →
  blocks w !! br_header b = blocks w' !! br_header b →
  block_ok w k b → block_ok w' k b.
Proof. intros Hh Hb []. split; [done..|]. by rewrite <-Hh, <-Hb. Qed.

Lemma heap_wf_ext w w' :
  allocations w = allocations w' → weak_refs_ (mgr w) = weak_refs_ (mgr w') →
  managed_bytes_ (mgr w) = managed_bytes_ (mgr w') →
  reserved_bytes_ (mgr w) = reserved_bytes_ (mgr w') →
  headers w = headers w' → blocks w = blocks w' → heap_wf w → heap_wf w'.
Proof.
  intros Ha Hw Hm Hr Hh Hb []. split; rewrite <-?Ha, <-?Hw, <-?Hm, <-?Hr; try done.
  intros k b Hin. eapply block_ok_ext; [by rewrite Hh|by rewrite Hb|auto].
Qed.

(** Headers and storage matter only at the registered blocks. *)
Lemma heap_wf_local w w' :
  allocations w = allocations w' → weak_refs_ (mgr w) = weak_refs_ (mgr w') →
  managed_bytes_ (mgr w) = managed_bytes_ (mgr w') →
  reserved_bytes_ (mgr w) = reserved_bytes_ (mgr w') →
  (∀ k b, (k, b) ∈ allocations w →
    headers w !! br_header b = headers w' !! br_header b ∧
    blocks w !! br_header b = blocks w' !! br_header b) →
  heap_wf w → heap_wf w'.
Proof.
  intros Ha Hw Hm Hr Hl []. split; rewrite <-?Ha, <-?Hw, <-?Hm, <-?Hr; try done.
  intros k b Hin. destruct (Hl k b Hin). eapply block_ok_ext; eauto.
Qed.

(** Every registered block has storage of its own. *)
Lemma wf_storage w k b :
  heap_wf w → (k, b) ∈ allocations w →
  ∃ a, blocks w !! br_header b = Some (br_payload_end b - br_header b, a).
Proof.
  intros Hwf Hin. destruct (wf_block w Hwf k b Hin) as [_ _ _ (h & _ & _ & Hk & He & _ & _ & Hb)].
  exists (allocation_alignment h). rewrite Hb. do 2 f_equal. unfold payload_begin in Hk. lia.
Qed.

Lemma managed_nonneg w : heap_wf w → 0 <= managed_bytes_ (mgr w).
Proof.
  intros Hwf. rewrite (wf_managed w Hwf). apply sumZ_nonneg.
  intros x ([k b] & -> & Hin)%list_elem_of_fmap. pose proof (wf_extent w Hwf _ _ Hin).
  unfold payload_size. simpl. rewrite (wf_begin w Hwf _ _ Hin). lia.
Qed.

Lemma reserved_nonneg w : heap_wf w → 0 <= reserved_bytes_ (mgr w).
Proof.
  intros Hwf. rewrite (wf_reserved w Hwf). apply sumZ_nonneg.
  intros x ([k b] & -> & Hin)%list_elem_of_fmap. pose proof (wf_extent w Hwf _ _ Hin).
  unfold reserved_size, sizeof_ChunkHeader in *. simpl. lia.
Qed.

(** [b] overlaps no registered block. *)
Definition apart (al : registry) (b : BlockRecord) : Prop :=
  ∀ k' b', (k', b') ∈ al → br_payload_end b <= br_header b' ∨ br_payload_end b' <= br_header b.

(** Registering a block. *)
Definition add_block (k : Z) (b : BlockRecord) (g : GC_Manager) : GC_Manager :=
  set_bytes (managed_bytes_ g + payload_size (k, b)) (reserved_bytes_ g + reserved_size (k, b))
    (set_allocations (sm_emplace k b) g).

Lemma apart_fresh w k b :
  heap_wf w → block_ok w k b → apart (allocations w) b → sm_find k (allocations w) = None.
Proof.
  intros Hwf [Hb Hp He (h & _ & _ & Hk & Hend & Hs & Ho & _)] Hap. apply sm_find_None.
  intros b' Hin. pose proof (wf_extent w Hwf _ _ Hin). unfold payload_begin in Hk.
  unfold sizeof_ChunkHeader in *. destruct (Hap _ _ Hin); lia.
Qed.

Lemma heap_wf_add w k b :
  heap_wf w → block_ok w k b → apart (allocations w) b →
  managed_bytes_ (mgr w) + payload_size (k, b) <= SIZE_MAX →
  reserved_bytes_ (mgr w) + reserved_size (k, b) <= SIZE_MAX →
  heap_wf (set_mgr (add_block k b) w).
Proof.
  intros Hwf Hok Hap Hm Hr. pose proof (apart_fresh w k b Hwf Hok Hap) as Hf.
  pose proof (sm_emplace_perm k b _ Hf) as Hperm.
  assert (Hin : ∀ kb, kb ∈ sm_emplace k b (allocations w) ↔ kb = (k, b) ∨ kb ∈ allocations w).
  { intros kb. by rewrite Hperm, elem_of_cons. }
  assert (Hord : ∀ k1 b1, (k1, b1) ∈ allocations w →
    (k1 < k → br_payload_end b1 <= br_header b) ∧ (k < k1 → br_payload_end b <= br_header b1)).
  { intros k1 b1 Hin1. pose proof (wf_extent w Hwf _ _ Hin1).
    destruct Hok as [? ? ? (h & _ & _ & Hk & Hend & ? & ? & _)]. unfold payload_begin in Hk.
    unfold sizeof_ChunkHeader in *. destruct (Hap _ _ Hin1); lia. }
  split; simpl; try done.
  - apply sm_wf_emplace, wf_sorted, Hwf.
  - intros k' b' [[= -> ->]|H]%Hin.
    + eapply block_ok_ext, Hok; done.
    + eapply block_ok_ext, (wf_block w Hwf _ _ H); done.
  - intros k1 b1 k2 b2 [[= -> ->]|H1]%Hin [[= -> ->]|H2]%Hin Hlt.
    + lia.
    + by apply (Hord _ _ H2).
    + by apply (Hord _ _ H1).
    + by eapply (wf_disjoint w Hwf).
  - rewrite Hperm. csimpl. rewrite (wf_managed w Hwf). lia.
  - rewrite Hperm. csimpl. rewrite (wf_reserved w Hwf). lia.
  - intros e He. destruct (wf_weak w Hwf e He) as (k' & b' & ? & ?). exists k', b'.
    split; [|done]. apply Hin. by right.
Qed.

(** Changing attributes of a block other than its place. *)
Lemma heap_wf_alter w k f :
  (∀ b, br_header (f b) = br_header b ∧ br_payload_begin (f b) = br_payload_begin b ∧
        br_payload_end (f b) = br_payload_end b) →
  heap_wf w → heap_wf (set_mgr (set_allocations (sm_alter f k)) w).
Proof.
  intros Hf Hwf.
  set (g := λ kv : Z * BlockRecord, if kv.1 =? k then (kv.1, f kv.2) else kv).
  assert (Hg : ∀ kb, (g kb).1 = kb.1 ∧ br_header (g kb).2 = br_header kb.2 ∧
    br_payload_begin (g kb).2 = br_payload_begin kb.2 ∧ br_payload_end (g kb).2 = br_payload_end kb.2).
  { intros [k' b]. unfold g. simpl. destruct (k' =? k); [|done]. simpl. by destruct (Hf b) as (-> & -> & ->). }
  assert (E : sm_alter f k (allocations w) = g <$> allocations w)
    by apply sm_alter_fmap, wf_sorted, Hwf.
  assert (Hin : ∀ k' b', (k', b') ∈ g <$> allocations w → ∃ b, (k', b) ∈ allocations w ∧
    br_header b' = br_header b ∧ br_payload_begin b' = br_payload_begin b ∧
    br_payload_end b' = br_payload_end b).
  { intros k' b' ([k1 b1] & Heq & H)%list_elem_of_fmap. exists b1.
    destruct (Hg (k1, b1)) as (H1 & H2 & H3 & H4). rewrite <-Heq in *. simpl in *. by subst. }
  split; simpl; rewrite ?E.
  - unfold sm_wf. rewrite <-list_fmap_compose. rewrite (list_fmap_ext _ fst); [by apply wf_sorted|].
    intros i kb _. apply Hg.
  - intros k' b' (b & Hb & Hh & Hpb & Hpe)%Hin. destruct (wf_block w Hwf _ _ Hb).
    split; simpl; rewrite ?Hh, ?Hpb, ?Hpe; done.
  - intros k1 b1 k2 b2 (b1' & H1 & Hh1 & _ & He1)%Hin (b2' & H2 & Hh2 & _ & He2)%Hin.
    rewrite He1, Hh2. by apply (wf_disjoint w Hwf).
  - rewrite (wf_managed w Hwf), <-list_fmap_compose. f_equal. apply list_fmap_ext.
    intros i kb _. unfold payload_size. simpl. by destruct (Hg kb) as (_ & _ & -> & ->).
  - rewrite (wf_reserved w Hwf), <-list_fmap_compose. f_equal. apply list_fmap_ext.
    intros i kb _. unfold reserved_size. simpl. by destruct (Hg kb) as (_ & -> & _ & ->).
  - apply (wf_managed_max w Hwf).
  - apply (wf_reserved_max w Hwf).
  - intros e He. destruct (wf_weak w Hwf e He) as (k' & b' & H & Hr).
    destruct (Hg (k', b')) as (H1 & _ & _ & H4). exists k', (g (k', b')).2. split.
    + apply list_elem_of_fmap. exists (k', b'). split; [|done]. simpl in H1. rewrite <-H1 at 1. by destruct (g _).
    + by rewrite H4.
Qed.
