(* ===== verification/Scanner.v ===== *)
(** * The conservative root scanner

    src/src/RootScanner.cpp: the word scan, the register and stack scans built
    on it, and the data-segment scan of each platform.  The visitor is a
    computation with an accumulator, so an exception it throws is an exception
    of the scan.  The AddressSanitizer runtime, the register contents [setjmp]
    saves, the stack pointer and what the loader or the system says about the
    loaded images are parameters ([AsanRuntime], [ScanEnv], [Platform]). *)

From S2P Require Import Prelude Words Memory.

(** The sanitizer entry points the scanner calls; [no_asan] is the build
    without them. *)
Class AsanRuntime := {
  region_is_poisoned : Z → Z → bool;
  addr_is_in_fake_stack : Z → Z → option (Z * (Z * Z)); (* real top, frame begin, frame end *)
  asan_current_fake_stack : Z;
}.

Definition no_asan : AsanRuntime :=
  {| region_is_poisoned := λ _ _, false; addr_is_in_fake_stack := λ _ _, None;
     asan_current_fake_stack := 0 |}.

(** The ELF program headers [dl_iterate_phdr] hands to its callback. *)
Record Phdr := { p_type : Z; p_flags : Z; p_vaddr : Z; p_memsz : Z }.
Record dl_phdr_info := { dlpi_addr : Z; dlpi_phdr : list Phdr }.
Definition PT_LOAD : Z := 1.
Definition PF_W : Z := 2.
Definition PF_R : Z := 4.

(** A Mach-O image: its magic number and [getsectiondata(image, seg, sect, &sz)],
    the address of a section (null when there is none) and its size. *)
Record mach_header := { mh_magic : Z; getsectiondata : string → string → Z * Z }.
Definition MH_MAGIC : Z := 0xfeedface.
Definition MH_MAGIC_64 : Z := 0xfeedfacf.

Record MEMORY_BASIC_INFORMATION := {
  mbi_BaseAddress : Z;
  mbi_RegionSize : Z;
  mbi_State : Z;
  mbi_Protect : Z;
  mbi_Type : Z;
}.
Definition PAGE_READWRITE : Z := 0x04.
Definition PAGE_WRITECOPY : Z := 0x08.
Definition PAGE_EXECUTE_READWRITE : Z := 0x40.
Definition PAGE_EXECUTE_WRITECOPY : Z := 0x80.
Definition PAGE_GUARD : Z := 0x100.
Definition MEM_COMMIT : Z := 0x1000.
Definition MEM_IMAGE : Z := 0x1000000.

(** [VirtualQuery(address, &mbi, sizeof(mbi))]: the region of the address, or
    nothing above the address space; [regions] lists the regions there are. *)
Record AddressSpace := {
  VirtualQuery : Z → option MEMORY_BASIC_INFORMATION;
  regions : list MEMORY_BASIC_INFORMATION;
}.

(** What each platform tells the scanner about the loaded images; a null header
    of a Mach-O image is [None], [lp64] selects the 64-bit headers. *)
Inductive Platform :=
| Linux (images : list dl_phdr_info)
| Apple (lp64 : bool) (images : list (option mach_header))
| Windows (space : AddressSpace)
| Other_platform.

(** What a scan by the current thread finds in the machine: where the
    [jmp_buf] lives and the words [setjmp] writes there, the address of
    [local_marker], and the images loaded. *)
Record ScanEnv := {
  se_jmp_buf : Z;
  se_registers : list Z;
  se_local_marker : Z;
  se_platform : Platform;
}.

Section Scanner.
Context {ASAN : AsanRuntime} {S A : Type} (visitor : Z → A → M S A).

(** [for (cur = start; finish - cur >= word_size; cur += word_size)] *)
Fixpoint scan_words_loop (fuel : nat) (m : memory) (cur finish : Z) (acc : A) : M S A :=
  match fuel with
  | O => λ _, Stuck Out_of_fuel
  | Datatypes.S fuel' =>
      if word_size <=? wrap64 (finish - cur)
      then
        acc' ← (if region_is_poisoned cur word_size then mret acc
                else visitor (load_word m cur) acc);
        scan_words_loop fuel' m (wrap64 (cur + word_size)) finish acc'
      else mret acc
  end.

Definition scan_words (m : memory) (begin end_ : Z) (acc : A) : M S A :=
  if (begin =? 0) || (end_ =? 0) then mret acc
  else
    let '(start, finish) := if end_ <? begin then (end_, begin) else (begin, end_) in
    let padding := (word_size - start mod word_size) mod word_size in
    if wrap64 (finish - start) <? padding then mret acc
    else
      let start := wrap64 (start + padding) in
      scan_words_loop (Datatypes.S (Z.to_nat ((finish - start) / word_size)))
                      m start finish acc.

Definition scan_range := scan_words.

(** [setjmp] fills the zeroed buffer, which is then scanned. *)
Definition scan_registers (env : ScanEnv) (m : memory) (acc : A) : M S A :=
  let m' := store_words m (se_jmp_buf env) (se_registers env) in
  scan_words m' (se_jmp_buf env)
    (se_jmp_buf env + word_size * Z.of_nat (length (se_registers env))) acc.

Definition scan_stack_range (m : memory) (stack_top stack_bottom fake_stack_handle : Z)
    (acc : A) : M S A :=
  if (stack_top =? 0) || (stack_bottom =? 0) then mret acc
  else if fake_stack_handle =? 0 then scan_words m stack_top stack_bottom acc
  else
    match addr_is_in_fake_stack fake_stack_handle stack_top with
    | Some (real_stack_top, (fake_frame_begin, fake_frame_end)) =>
        acc' ← scan_words m fake_frame_begin fake_frame_end acc;
        scan_words m real_stack_top stack_bottom acc'
    | None => scan_words m stack_top stack_bottom acc
    end.

Definition scan_thread_stack := scan_stack_range.

Definition scan_segment (m : memory) (dlpi : Z) (segment : Phdr) (acc : A) : M S A :=
  if negb (p_type segment =? PT_LOAD)
     || negb (Z.land (p_flags segment) (Z.lor PF_R PF_W) =? Z.lor PF_R PF_W)
     || (p_memsz segment =? 0)
  then mret acc
  else
    let begin := wrap64 (dlpi + p_vaddr segment) in
    if SIZE_MAX - begin <? p_memsz segment then mret acc
    else scan_words m begin (begin + p_memsz segment) acc.

(** The callback: the accumulator and [context.error], and the value it
    returns to the loader. *)
Definition scan_linux_image (m : memory) (image : dl_phdr_info)
    (acc : A) : M S (Z * (A * option exn)) :=
  catch (acc' ← foldM (scan_segment m (dlpi_addr image)) (dlpi_phdr image) acc;
         mret (0, (acc', None)))
        (λ e, mret (1, (acc, Some e))).

(** The calls [dl_iterate_phdr] makes: one per image, until one returns
    non-zero. *)
Fixpoint dl_iterate_phdr (m : memory) (images : list dl_phdr_info)
    (acc : A) : M S (A * option exn) :=
  match images with
  | [] => mret (acc, None)
  | image :: images' =>
      r ← scan_linux_image m image acc;
      if (r.1 =? 0)%Z then dl_iterate_phdr m images' r.2.1 else mret r.2
  end.

Definition scan_globals_linux (images : list dl_phdr_info) (m : memory) (acc : A) : M S A :=
  r ← dl_iterate_phdr m images acc;
  match r.2 with
  | Some e => throw e
  | None => mret r.1
  end.

Definition kSections : list (string * string) :=
  [("__DATA", "__data"); ("__DATA", "__bss"); ("__DATA", "__common"); ("__DATA_CONST", "__const")]%string.

Definition scan_section (m : memory) (mh : mach_header) (s : string * string) (acc : A) : M S A :=
  let '(ptr, sz) := getsectiondata mh s.1 s.2 in
  if negb (ptr =? 0) && (0 <? sz) then scan_words m ptr (ptr + sz) acc else mret acc.

Definition scan_globals_apple (lp64 : bool) (images : list (option mach_header)) (m : memory) (acc : A) : M S A :=
  foldM (λ raw_header acc,
    match raw_header with
    | None => mret acc
    | Some mh =>
        if negb (mh_magic mh =? if lp64 then MH_MAGIC_64 else MH_MAGIC) then mret acc
        else foldM (scan_section m mh) kSections acc
    end) images acc.

Definition scan_region (m : memory) (mbi : MEMORY_BASIC_INFORMATION) (acc : A) : M S A :=
  let has flag := negb (Z.land (mbi_Protect mbi) flag =? 0) in
  let readable_writable :=
    has PAGE_READWRITE || has PAGE_WRITECOPY || has PAGE_EXECUTE_READWRITE || has PAGE_EXECUTE_WRITECOPY in
  if (mbi_State mbi =? MEM_COMMIT) && readable_writable && negb (has PAGE_GUARD) && (mbi_Type mbi =? MEM_IMAGE)
  then scan_words m (mbi_BaseAddress mbi) (wrap64 (mbi_BaseAddress mbi + mbi_RegionSize mbi)) acc
  else mret acc.

(** The loop from [address] on; it stops at the first address without a
    region, or when the end of a region wraps around. *)
Fixpoint scan_regions (fuel : nat) (space : AddressSpace) (m : memory) (address : Z) (acc : A) : M S A :=
  match fuel with
  | O => λ _, Stuck Out_of_fuel
  | Datatypes.S fuel' =>
      match VirtualQuery space address with
      | None => mret acc
      | Some mbi =>
          acc' ← scan_region m mbi acc;
          let next := wrap64 (mbi_BaseAddress mbi + mbi_RegionSize mbi) in
          if next <=? mbi_BaseAddress mbi then mret acc' else scan_regions fuel' space m next acc'
      end
  end.

Definition scan_globals_windows (space : AddressSpace) (m : memory) (acc : A) : M S A :=
  scan_regions (Datatypes.S (length (regions space))) space m 0 acc.

Definition scan_globals_other (m : memory) (acc : A) : M S A := mret acc.

Definition scan_globals (env : ScanEnv) (m : memory) (acc : A) : M S A :=
  match se_platform env with
  | Linux images => scan_globals_linux images m acc
  | Apple lp64 images => scan_globals_apple lp64 images m acc
  | Windows space => scan_globals_windows space m acc
  | Other_platform => scan_globals_other m acc
  end.

Definition current_fake_stack_handle : Z := asan_current_fake_stack.

(** [RootScanner::scan] *)
Definition scan (env : ScanEnv) (m : memory) (stack_bottom : Z) (acc : A) : M S A :=
  acc ← scan_registers env m acc;
  acc ← scan_stack_range m (se_local_marker env) stack_bottom current_fake_stack_handle acc;
  scan_globals env m acc.
End Scanner.

(** ** What each scan visits, as a list of candidate words *)

Section Candidates.
Context {ASAN : AsanRuntime}.

Definition align_word (a : Z) : Z := a + (- a) mod word_size.

Definition scan_addrs (begin end_ : Z) : list Z :=
  if (begin =? 0) || (end_ =? 0) then []
  else filter (λ a, region_is_poisoned a word_size = false)
         (word_addrs (align_word (Z.min begin end_)) (Z.max begin end_)).

Definition range_candidates (m : memory) (begin end_ : Z) : list Z :=
  load_word m <$> scan_addrs begin end_.

Definition register_candidates (env : ScanEnv) (m : memory) : list Z :=
  range_candidates (store_words m (se_jmp_buf env) (se_registers env)) (se_jmp_buf env)
    (se_jmp_buf env + word_size * Z.of_nat (length (se_registers env))).

Definition stack_candidates (m : memory) (top bottom handle : Z) : list Z :=
  if (top =? 0) || (bottom =? 0) then []
  else if handle =? 0 then range_candidates m top bottom
  else
    match addr_is_in_fake_stack handle top with
    | Some (real, (fb, fe)) => range_candidates m fb fe ++ range_candidates m real bottom
    | None => range_candidates m top bottom
    end.

Definition segment_candidates (m : memory) (dlpi : Z) (s : Phdr) : list Z :=
  if negb (p_type s =? PT_LOAD)
     || negb (Z.land (p_flags s) (Z.lor PF_R PF_W) =? Z.lor PF_R PF_W)
     || (p_memsz s =? 0) then []
  else if SIZE_MAX - wrap64 (dlpi + p_vaddr s) <? p_memsz s then []
  else range_candidates m (wrap64 (dlpi + p_vaddr s)) (wrap64 (dlpi + p_vaddr s) + p_memsz s).

Definition section_candidates (m : memory) (mh : mach_header) (s : string * string) : list Z :=
  let '(ptr, sz) := getsectiondata mh s.1 s.2 in
  if negb (ptr =? 0) && (0 <? sz) then range_candidates m ptr (ptr + sz) else [].

Definition mach_candidates (lp64 : bool) (m : memory) (raw_header : option mach_header) : list Z :=
  match raw_header with
  | None => []
  | Some mh =>
      if negb (mh_magic mh =? if lp64 then MH_MAGIC_64 else MH_MAGIC) then []
      else s ← kSections; section_candidates m mh s
  end.

(** A committed, writable, unguarded part of an image. *)
Definition image_data (mbi : MEMORY_BASIC_INFORMATION) : bool :=
  let has flag := negb (Z.land (mbi_Protect mbi) flag =? 0) in
  (mbi_State mbi =? MEM_COMMIT) &&
  (has PAGE_READWRITE || has PAGE_WRITECOPY || has PAGE_EXECUTE_READWRITE || has PAGE_EXECUTE_WRITECOPY) &&
  negb (has PAGE_GUARD) && (mbi_Type mbi =? MEM_IMAGE).

Definition region_candidates (m : memory) (mbi : MEMORY_BASIC_INFORMATION) : list Z :=
  if image_data mbi
  then range_candidates m (mbi_BaseAddress mbi) (wrap64 (mbi_BaseAddress mbi + mbi_RegionSize mbi))
  else [].

(** The regions the loop goes through. *)
Fixpoint walk_regions (fuel : nat) (space : AddressSpace) (address : Z) : list MEMORY_BASIC_INFORMATION :=
  match fuel with
  | O => []
  | Datatypes.S fuel' =>
      match VirtualQuery space address with
      | None => []
      | Some mbi =>
          let next := wrap64 (mbi_BaseAddress mbi + mbi_RegionSize mbi) in
          mbi :: if next <=? mbi_BaseAddress mbi then [] else walk_regions fuel' space next
      end
  end.

Definition walked (space : AddressSpace) : list MEMORY_BASIC_INFORMATION :=
  walk_regions (Datatypes.S (length (regions space))) space 0.

Definition global_candidates (env : ScanEnv) (m : memory) : list Z :=
  match se_platform env with
  | Linux images => image ← images; segment ← dlpi_phdr image; segment_candidates m (dlpi_addr image) segment
  | Apple lp64 images => image ← images; mach_candidates lp64 m image
  | Windows space => mbi ← walked space; region_candidates m mbi
  | Other_platform => []
  end.

Definition scan_candidates (env : ScanEnv) (m : memory) (stack_bottom : Z) : list Z :=
  register_candidates env m ++
  stack_candidates m (se_local_marker env) stack_bottom current_fake_stack_handle ++
  global_candidates env m.

(** What the loader or the system documents: sizes are not negative, a section
    lies in the address space, and the region of an address contains it. *)
Definition platform_ok (p : Platform) : Prop :=
  match p with
  | Linux images => ∀ i s, i ∈ images → s ∈ dlpi_phdr i → 0 <= p_memsz s
  | Apple _ images => ∀ mh seg sect, Some mh ∈ images →
      let '(ptr, sz) := getsectiondata mh seg sect in 0 <= ptr ∧ 0 <= sz ∧ ptr + sz <= SIZE_MAX
  | Windows space => ∀ a mbi, VirtualQuery space a = Some mbi → mbi ∈ regions space ∧
      0 <= mbi_BaseAddress mbi ∧ mbi_BaseAddress mbi <= a < mbi_BaseAddress mbi + mbi_RegionSize mbi ∧
      mbi_BaseAddress mbi + mbi_RegionSize mbi <= 2 ^ 64
  | Other_platform => True
  end.

(** The machine addresses an environment mentions are 64-bit values. *)
Record env_ok (env : ScanEnv) : Prop := {
  env_jmp_buf : 0 <= se_jmp_buf env;
  env_jmp_buf_end : se_jmp_buf env + word_size * Z.of_nat (length (se_registers env)) <= SIZE_MAX;
  env_marker : is_size (se_local_marker env);
  env_fake : ∀ h a r fb fe, addr_is_in_fake_stack h a = Some (r, (fb, fe)) →
    is_size r ∧ is_size fb ∧ is_size fe;
  env_platform : platform_ok (se_platform env);
}.
End Candidates.

(** ** The scan visits exactly the complete aligned words of the range *)

Lemma align_word_spec a :
  (word_size | align_word a) ∧ a <= align_word a < a + word_size.
Proof.
  unfold align_word, word_size. pose proof (Z.mod_pos_bound (- a) 8). split; [|lia].
  exists (- (- a / 8)). pose proof (Z.div_mod (- a) 8). lia.
Qed.

Lemma align_word_least a x : (word_size | x) → a <= x → align_word a <= x.
Proof.
  intros [q ->] Hx. destruct (align_word_spec a) as [[p Hp] Hb]. unfold word_size in *. lia.
Qed.

Lemma padding_align a : a + (word_size - a mod word_size) mod word_size = align_word a.
Proof.
  unfold align_word, word_size. f_equal.
  rewrite Zminus_mod, Z_mod_same_full, Z.mod_mod by lia.
  rewrite <-(Z.sub_0_l a), (Zminus_mod 0 a). done.
Qed.

Section ScannerSpec.
Context {ASAN : AsanRuntime} {S A : Type} (visitor : Z → A → M S A).

Lemma elem_of_scan_addrs b e a :
  a ∈ scan_addrs b e ↔
  b ≠ 0 ∧ e ≠ 0 ∧ (word_size | a) ∧ Z.min b e <= a ∧ a + word_size <= Z.max b e ∧
  region_is_poisoned a word_size = false.
Proof.
  unfold scan_addrs.
  destruct (Z.eqb_spec b 0), (Z.eqb_spec e 0); simpl;
    [by split; [intros ?%elem_of_nil|naive_solver]..|].
  rewrite list_elem_of_filter, elem_of_word_addrs.
  destruct (align_word_spec (Z.min b e)) as [[q Hq] Hb].
  unfold word_size in *. split.
  - intros (Hp & i & Hi & -> & He). split_and!; try done; try lia.
    exists (q + i). lia.
  - intros (_ & _ & [r Hr] & Hmin & Hmax & Hp). split; [done|].
    pose proof (align_word_least (Z.min b e) a ltac:(by exists r) Hmin).
    exists (r - q). unfold word_size in *. lia.
Qed.

(** Started below [finish] the loop terminates, without wrapping, and visits
    [word_addrs]. *)
Lemma seqZ_sorted m n : StronglySorted Z.lt (seqZ m n).
Proof.
  unfold seqZ. generalize 0%nat at 1. induction (Z.to_nat n) as [|k IH]; intros i; [constructor|].
  csimpl. constructor; [apply IH|]. apply Forall_forall. intros x (j & -> & Hj%elem_of_seq)%list_elem_of_fmap.
  lia.
Qed.

Lemma scan_addrs_sorted b e : StronglySorted Z.lt (scan_addrs b e).
Proof.
  unfold scan_addrs. destruct (_ || _); [constructor|]. apply StronglySorted_filter. unfold word_addrs.
  pose proof (seqZ_sorted 0 ((Z.max b e - align_word (Z.min b e)) / word_size)) as H. unfold word_size in *.
  induction H as [|x l Hs IH Hx]; csimpl; [constructor|]. constructor; [done|].
  apply Forall_forall. intros y (z & -> & Hz)%list_elem_of_fmap. apply (proj1 (Forall_forall _ _) Hx) in Hz. lia.
Qed.

Lemma scan_words_loop_spec fuel m cur finish acc s :
  0 <= cur → cur <= finish → finish <= SIZE_MAX →
  (finish - cur) / word_size < Z.of_nat fuel →
  scan_words_loop visitor fuel m cur finish acc s =
  foldM (λ a acc, if region_is_poisoned a word_size then mret acc
                  else visitor (load_word m a) acc) (word_addrs cur finish) acc s.
Proof.
  unfold SIZE_MAX, word_size. revert cur acc s.
  induction fuel as [|fuel IH]; intros cur acc s H0 Hle Hmax Hf; simpl.
  { pose proof (Z.div_pos (finish - cur) 8). lia. }
  unfold word_size. rewrite (wrap64_small (finish - cur)) by lia.
  destruct (Z.leb_spec 8 (finish - cur)).
  - rewrite word_addrs_cons by (unfold word_size; lia). simpl.
    assert ((finish - cur) / 8 = 1 + (finish - (cur + 8)) / 8) as Hd.
    { replace (finish - cur) with (1 * 8 + (finish - (cur + 8))) by lia.
      by rewrite Z.div_add_l by lia. }
    unfold mbind, M_bind, word_size.
    match goal with |- match ?x with _ => _ end = _ => destruct x end; [|done..].
    rewrite wrap64_small by lia. apply IH; lia.
  - rewrite word_addrs_nil by (unfold word_size; lia). done.
Qed.

Lemma scan_words_spec m b e acc s :
  is_size b → is_size e →
  scan_words visitor m b e acc s = foldM visitor (range_candidates m b e) acc s.
Proof.
  unfold is_size. intros Hb He. unfold scan_words, range_candidates, scan_addrs.
  destruct (_ || _) eqn:Enull; [done|].
  rewrite foldM_fmap, <-(foldM_filter_skip (λ a, region_is_poisoned a word_size)).
  assert (∃ lo hi, (if e <? b then (e, b) else (b, e)) = (lo, hi) ∧
    Z.min b e = lo ∧ Z.max b e = hi ∧ 0 <= lo <= hi ∧ hi <= SIZE_MAX)
    as (lo & hi & -> & -> & -> & Hlo & Hhi).
  { destruct (Z.ltb_spec e b); eexists _, _; split_and!; try done; lia. }
  pose proof (padding_align lo) as Hpad.
  destruct (align_word_spec lo) as [_ Hal]. unfold word_size, SIZE_MAX in *.
  set (p := (8 - lo mod 8) mod 8) in *.
  assert (0 <= p < 8) by (apply Z.mod_pos_bound; lia).
  rewrite (wrap64_small (hi - lo)) by lia.
  destruct (Z.ltb_spec (hi - lo) p).
  - rewrite word_addrs_nil by (unfold word_size; lia). done.
  - rewrite wrap64_small, Hpad by lia.
    apply scan_words_loop_spec; unfold SIZE_MAX, word_size; lia.
Qed.

Lemma scan_registers_spec env m acc s :
  env_ok env →
  scan_registers visitor env m acc s = foldM visitor (register_candidates env m) acc s.
Proof. intros []. apply scan_words_spec; unfold is_size, word_size in *; lia. Qed.

Lemma scan_stack_range_spec env m top bottom handle acc s :
  env_ok env → is_size top → is_size bottom →
  scan_stack_range visitor m top bottom handle acc s =
  foldM visitor (stack_candidates m top bottom handle) acc s.
Proof.
  intros Henv Ht Hb. unfold scan_stack_range, stack_candidates.
  destruct (_ || _); [done|]. destruct (handle =? 0); [by apply scan_words_spec|].
  destruct (addr_is_in_fake_stack handle top) as [[r [fb fe]]|] eqn:E; [|by apply scan_words_spec].
  destruct (env_fake _ Henv _ _ _ _ _ E) as (?&?&?).
  rewrite foldM_app. unfold mbind, M_bind. rewrite scan_words_spec by done.
  destruct (foldM visitor _ acc s); [|done..]. by apply scan_words_spec.
Qed.

Lemma scan_segment_spec m dlpi seg acc s :
  0 <= p_memsz seg →
  scan_segment visitor m dlpi seg acc s = foldM visitor (segment_candidates m dlpi seg) acc s.
Proof.
  intros Hsz. unfold scan_segment, segment_candidates.
  destruct (_ || _); [done|]. destruct (Z.ltb_spec (SIZE_MAX - wrap64 (dlpi + p_vaddr seg)) (p_memsz seg)); [done|].
  pose proof (wrap64_bound (dlpi + p_vaddr seg)).
  apply scan_words_spec; unfold is_size in *; lia.
Qed.

(** An exception leaves the loader's loop through [context.error] and is
    rethrown unchanged: the two-step protocol is a plain iteration. *)
Lemma dl_iterate_phdr_spec m images acc s :
  (∀ i seg, i ∈ images → seg ∈ dlpi_phdr i → 0 <= p_memsz seg) →
  scan_globals_linux visitor images m acc s =
  foldM visitor (image ← images; segment ← dlpi_phdr image;
                 segment_candidates m (dlpi_addr image) segment) acc s.
Proof.
  unfold scan_globals_linux.
  revert acc s. induction images as [|im images IH]; intros acc s Hsz; [done|].
  csimpl. rewrite foldM_app. unfold scan_linux_image, catch. unfold mbind, M_bind in *.
  assert (foldM (scan_segment visitor m (dlpi_addr im)) (dlpi_phdr im) acc s =
    foldM visitor (list_bind _ _ (segment_candidates m (dlpi_addr im)) (dlpi_phdr im)) acc s) as ->.
  { assert (Him : ∀ seg, seg ∈ dlpi_phdr im → 0 <= p_memsz seg)
      by (intros; apply (Hsz im); [left|done]).
    clear -Him. revert acc s. induction (dlpi_phdr im) as [|seg segs IHs]; intros acc s; [done|].
    simpl. rewrite foldM_app. unfold mbind, M_bind.
    rewrite scan_segment_spec by (apply Him; left).
    destruct (foldM visitor _ acc s); [|done..]. apply IHs. intros; apply Him; by right. }
  destruct (foldM visitor _ acc s) as [acc' s'|e s'|]; simpl; [|done..].
  apply IH. intros; eapply Hsz; [by right|done].
Qed.

(** A scan of a list of things, each a scan of its candidates. *)
Lemma foldM_bind_spec {B} (f : B → A → M S A) (g : B → list Z) l acc s :
  (∀ b acc s, b ∈ l → f b acc s = foldM visitor (g b) acc s) →
  foldM f l acc s = foldM visitor (l ≫= g) acc s.
Proof.
  revert acc s. induction l as [|b l IH]; intros acc s Hf; [done|]. csimpl. rewrite foldM_app.
  unfold mbind, M_bind. simpl. rewrite Hf by left.
  destruct (foldM visitor (g b) acc s); [|done..]. apply IH. intros; apply Hf; by right.
Qed.

Lemma scan_globals_apple_spec lp64 images m acc s :
  platform_ok (Apple lp64 images) →
  scan_globals_apple visitor lp64 images m acc s = foldM visitor (images ≫= mach_candidates lp64 m) acc s.
Proof.
  intros Hok. apply foldM_bind_spec. intros [mh|] acc' s' Hin; [|done]. unfold mach_candidates.
  destruct (negb _); [done|]. apply foldM_bind_spec. intros [seg sect] acc2 s2 _.
  unfold scan_section, section_candidates. simpl. specialize (Hok mh seg sect Hin).
  destruct (getsectiondata mh seg sect) as [ptr sz]. destruct (_ && _); [|done].
  apply scan_words_spec; unfold is_size; lia.
Qed.

(** *** The walk over the regions *)

Section Walk.
Context (space : AddressSpace) (Hok : platform_ok (Windows space)).

Definition region_end (mbi : MEMORY_BASIC_INFORMATION) : Z := mbi_BaseAddress mbi + mbi_RegionSize mbi.

(** The regions that end above [a]: one fewer at each turn. *)
Definition regions_above (a : Z) : nat := length (filter (λ mbi, a < region_end mbi) (regions space)).

Lemma regions_above_next a mbi :
  VirtualQuery space a = Some mbi → (regions_above (region_end mbi) < regions_above a)%nat.
Proof.
  intros E. destruct (Hok a mbi E) as (Hin & Hb & Ha & He). fold (region_end mbi) in *. unfold regions_above.
  apply filter_length_lt with mbi; [done|lia|lia|]. intros x. lia.
Qed.

(** Enough fuel: the walk does not depend on how much there is. *)
Lemma scan_regions_spec fuel m a acc s :
  (regions_above a < fuel)%nat →
  scan_regions visitor fuel space m a acc s =
  foldM visitor (mbi ← walk_regions fuel space a; region_candidates m mbi) acc s.
Proof.
  revert a acc s. induction fuel as [|fuel IH]; intros a acc s Hf; [lia|]. simpl.
  destruct (VirtualQuery space a) as [mbi|] eqn:E; [|done]. destruct (Hok a mbi E) as (Hin & Hb & Ha & He).
  assert (scan_region visitor m mbi acc s = foldM visitor (region_candidates m mbi) acc s) as Hr.
  { unfold scan_region, region_candidates, image_data. destruct (_ && _); [|done].
    pose proof (wrap64_bound (mbi_BaseAddress mbi + mbi_RegionSize mbi)).
    apply scan_words_spec; unfold is_size, SIZE_MAX in *; lia. }
  csimpl. rewrite foldM_app. unfold mbind, M_bind. rewrite Hr.
  destruct (foldM visitor (region_candidates m mbi) acc s) as [acc' s'| |]; [|done..].
  destruct (Z.leb_spec (wrap64 (mbi_BaseAddress mbi + mbi_RegionSize mbi)) (mbi_BaseAddress mbi)) as [|Hlt]; [done|].
  apply IH. pose proof (regions_above_next a mbi E) as Hd. unfold region_end in Hd.
  destruct (decide (mbi_BaseAddress mbi + mbi_RegionSize mbi = 2 ^ 64)) as [E2|Hne].
  - rewrite E2 in Hlt. change (wrap64 (2 ^ 64)) with 0 in Hlt. lia.
  - rewrite wrap64_small by lia. lia.
Qed.

Lemma walk_regions_fuel fuel fuel' a :
  (regions_above a < fuel)%nat → (regions_above a < fuel')%nat →
  walk_regions fuel space a = walk_regions fuel' space a.
Proof.
  revert fuel' a. induction fuel as [|fuel IH]; intros [|fuel'] a Hf Hf'; [lia..|]. simpl.
  destruct (VirtualQuery space a) as [mbi|] eqn:E; [|done]. destruct (Hok a mbi E) as (Hin & Hb & Ha & He).
  pose proof (regions_above_next a mbi E) as Hd. unfold region_end in Hd. f_equal.
  destruct (Z.leb_spec (wrap64 (mbi_BaseAddress mbi + mbi_RegionSize mbi)) (mbi_BaseAddress mbi)) as [|Hlt]; [done|].
  assert (mbi_BaseAddress mbi + mbi_RegionSize mbi ≠ 2 ^ 64).
  { intros E2. rewrite E2 in Hlt. change (wrap64 (2 ^ 64)) with 0 in Hlt. lia. }
  rewrite wrap64_small by lia. apply IH; lia.
Qed.

Lemma walk_regions_base fuel a mbi : mbi ∈ walk_regions fuel space a → 0 <= mbi_BaseAddress mbi.
Proof.
  revert a. induction fuel as [|fuel IH]; intros a; [by intros ?%elem_of_nil|]. simpl.
  destruct (VirtualQuery space a) as [mx|] eqn:E; [|by intros ?%elem_of_nil].
  intros [->|Hin]%elem_of_cons; [apply (Hok a mx E)|]. case_match; [by apply elem_of_nil in Hin|by eapply IH].
Qed.

Lemma scan_globals_windows_spec m acc s :
  scan_globals_windows visitor space m acc s = foldM visitor (mbi ← walked space; region_candidates m mbi) acc s.
Proof. apply scan_regions_spec. unfold regions_above. pose proof (length_filter (λ mbi, 0 < region_end mbi) (regions space)). lia. Qed.

(** Every address below which there is no gap lies in a region of the walk. *)
Lemma walk_covers fuel a x :
  (regions_above a < fuel)%nat → a <= x → (∀ y, a <= y <= x → is_Some (VirtualQuery space y)) →
  ∃ mbi, mbi ∈ walk_regions fuel space a ∧ mbi_BaseAddress mbi <= x < region_end mbi.
Proof.
  revert a. induction fuel as [|fuel IH]; intros a Hf Hx Hall; [lia|]. simpl.
  destruct (Hall a) as [mbi E]; [lia|]. rewrite E. destruct (Hok a mbi E) as (Hin & Hb & Ha & He).
  fold (region_end mbi) in *. destruct (decide (x < region_end mbi)) as [Hl|Hl].
  { exists mbi. split; [left|lia]. }
  assert (is_Some (VirtualQuery space x)) as [mx Ex] by (apply Hall; lia).
  destruct (Hok x mx Ex) as (_ & Hb' & Ha' & He').
  assert (region_end mbi < 2 ^ 64) by (unfold region_end in *; lia).
  rewrite wrap64_small by lia. destruct (Z.leb_spec (region_end mbi) (mbi_BaseAddress mbi)); [lia|].
  destruct (IH (region_end mbi)) as (m' & Hm' & Hr); [|lia|intros y Hy; apply Hall; lia|].
  - pose proof (regions_above_next a mbi E). lia.
  - exists m'. split; [by right|done].
Qed.
End Walk.

(** [RootScanner::scan] visits the saved registers, the stack of the calling
    thread and the writable segments, in this order. *)
Lemma scan_spec env m bottom acc s :
  env_ok env → is_size bottom →
  scan visitor env m bottom acc s = foldM visitor (scan_candidates env m bottom) acc s.
Proof.
  intros Henv Hb. unfold scan, scan_candidates. rewrite !foldM_app.
  unfold mbind, M_bind. rewrite scan_registers_spec by done.
  destruct (foldM visitor (register_candidates env m) acc s) as [acc1 s1| |]; [|done..].
  rewrite (scan_stack_range_spec env) by (try done; apply env_marker, Henv).
  rewrite foldM_app. unfold mbind, M_bind.
  destruct (foldM visitor (stack_candidates _ _ _ _) acc1 s1) as [acc2 s2| |]; [|done..].
  pose proof (env_platform _ Henv) as Hp. unfold scan_globals, global_candidates.
  destruct (se_platform env) as [images|lp64 images|space|]; [by apply dl_iterate_phdr_spec|
    by apply scan_globals_apple_spec|by apply scan_globals_windows_spec|done].
Qed.
End ScannerSpec.
