(* ===== verification/Scenario.v ===== *)
(** * A concrete heap

    Four blocks of one thread: a root range points to [A], [A] points into the
    middle of [B]; nothing reaches [C], which points to [D].  Two weak handles
    observe [B] and [D].  The theorems of the other files are instantiated
    here. *)

From S2P Require Import Prelude Words Memory OrdMap Chunk Manager Heap Scanner.

Definition demo_header (d : DestructorFn) : ChunkHeader :=
  {| ch_size := 32; ch_destructor := d; ch_magic_number := kChunkMagicNumber;
     ch_payload_offset := 32; ch_marked := 0; ch_alignment_shift := 4 |}.

Definition demo_record (header : Z) : BlockRecord :=
  {| br_header := header; br_payload_begin := header + 32; br_payload_end := header + 64;
     br_constructing := false |}.

Definition addr_A := 4128.
Definition addr_B := 4192.
Definition addr_C := 4256.
Definition addr_D := 4320.
Definition demo_root := 65536.
Definition weak_B := 70000.
Definition weak_D := 70008.

Definition demo_registry : stdmap BlockRecord :=
  [(addr_A, demo_record 4096); (addr_B, demo_record 4160);
   (addr_C, demo_record 4224); (addr_D, demo_record 4288)].

Definition demo_thread : ThreadState :=
  {| ts_stack_bottom := 131072; ts_parked_stack_top := 0; ts_fake_stack_handle := 0;
     ts_register_spill := []; ts_paused_for_collection := false |}.

Definition demo_manager : GC_Manager :=
  {| allocations_ := demo_registry; threads_ := [(1, demo_thread)];
     registered_root_ranges_ := [{| rr_begin := demo_root; rr_end := demo_root + 8 |}];
     weak_refs_ := [{| we_target := addr_B; we_storage := weak_B |};
                    {| we_target := addr_D; we_storage := weak_D |}];
     managed_bytes_ := 128; reserved_bytes_ := 256;
     collection_threshold_bytes_ := 10 * 1024 * 1024;
     collector_thread_ := None; stop_the_world_requested_ := false; collecting_ := false;
     stats_ := GCStats_init |}.

(** The encoded word of a weak handle to [p]. *)
Definition demo_encoded (p : Z) : Z := 2 ^ 64 - p.

Definition demo_memory : memory :=
  store_word (store_word (store_word (store_word (store_word ∅
    demo_root addr_A) addr_A (addr_B + 8)) addr_C addr_D)
    weak_B (demo_encoded addr_B)) weak_D (demo_encoded addr_D).

Definition demo_world : World :=
  {| mgr := demo_manager;
     headers := {[ 4096 := demo_header 0; 4160 := demo_header 0;
                   4224 := demo_header 1; 4288 := demo_header 1 ]};
     blocks := {[ 4096 := (64, 16); 4160 := (64, 16); 4224 := (64, 16); 4288 := (64, 16) ]};
     mem := demo_memory; oom := []; log := [] |}.

(** The collecting thread: no register holds a pointer, its stack is empty,
    and no image is loaded. *)
Definition demo_env : ScanEnv :=
  {| se_jmp_buf := 90000; se_registers := []; se_local_marker := 131072; se_platform := Linux [] |}.

(** A process that has just registered its thread. *)
Definition fresh_world : World :=
  set_mgr (set_threads (λ _, [(1, demo_thread)])) World_init.

Lemma demo_block h : h ∈ [4096; 4160; 4224; 4288] → block_ok demo_world (h + 32) (demo_record h).
Proof.
  intros Hin. repeat (apply elem_of_cons in Hin as [->|Hin]);
    try (by apply elem_of_nil in Hin);
    (split; simpl; [done|done|unfold word_size, SIZE_MAX; lia|eexists; split_and!; [reflexivity|done..]]).
Qed.

Lemma demo_registry_eq : demo_registry = (λ h, (h + 32, demo_record h)) <$> [4096; 4160; 4224; 4288].
Proof. done. Qed.

Lemma demo_wf : heap_wf demo_world.
Proof.
  assert (Hin : ∀ k b, (k, b) ∈ demo_registry → ∃ h, k = h + 32 ∧ b = demo_record h ∧
    h ∈ [4096; 4160; 4224; 4288]).
  { intros k b. rewrite demo_registry_eq. intros (h & [= -> ->] & Hh)%list_elem_of_fmap. eauto. }
  split; simpl.
  - repeat constructor.
  - intros k b (h & -> & -> & Hh)%Hin. by apply demo_block.
  - intros k1 b1 k2 b2 (h1 & -> & -> & H1)%Hin (h2 & -> & -> & H2)%Hin Hlt. simpl.
    rewrite !elem_of_cons, elem_of_nil in H1, H2.
    intuition (subst; lia).
  - done.
  - done.
  - unfold SIZE_MAX. lia.
  - unfold SIZE_MAX. lia.
  - intros e [->|[->|[]%elem_of_nil]%elem_of_cons]%elem_of_cons; simpl.
    + exists addr_B, (demo_record 4160). split; [right; left|done].
    + exists addr_D, (demo_record 4288). split; [right; right; right; left|done].
Qed.

Lemma fresh_wf : heap_wf fresh_world.
Proof.
  split; simpl; try done.
  - constructor.
  - by intros k b ?%elem_of_nil.
  - by intros k1 b1 k2 b2 ?%elem_of_nil.
  - by intros e ?%elem_of_nil.
Qed.
