(* ===== verification/Mark.v ===== *)
(** * The mark phase

    [clear_marks_locked], [mark_candidate_locked], [scan_payload_locked],
    [drain_mark_worklist_locked], [scan_registered_threads_locked] and
    [scan_registered_roots_locked] of src/src/GCManager.cpp, and the part of
    [collect] that runs them.  The main result ([mark_phase_spec]) is that the
    phase terminates, changes nothing but mark bits, and marks exactly the
    blocks reachable from the root words through payload words. *)

From S2P Require Import Prelude Words Memory OrdMap Chunk Manager Heap Scanner.

(** A worklist holds [BlockRecord*]s, here the keys of their map nodes; the
    head of the list is the back of the vector. *)
Abbreviation worklist := (list Z).

Definition clear_marks_locked : M World unit :=
  w ← get;
  foldM (λ kb _, write_header (br_header kb.2) (set_marked false)) (allocations w) tt.

Definition mark_candidate_locked (candidate : Z) (wl : worklist) : M World worklist :=
  w ← get;
  match find_block_locked (allocations w) candidate with
  | None => mret wl
  | Some (k, b) =>
      h ← read_header (br_header b);
      if negb (ch_magic_number h =? kChunkMagicNumber) || is_marked h
      then mret wl
      else write_header (br_header b) (set_marked true);; mret (k :: wl)
  end.

(** The words of a payload, read by the loop of [Memory.payload_words]. *)
Definition read_payload_words (b : BlockRecord) : M World (list Z) := λ w,
  match payload_words (mem w) (br_payload_begin b) (br_payload_end b) with
  | Some words => Ret words w
  | None => Stuck Out_of_fuel
  end.

Definition scan_payload_locked (b : BlockRecord) (wl : worklist) : M World worklist :=
  words ← read_payload_words b;
  foldM mark_candidate_locked words wl.

(** Dereferencing a [BlockRecord*]. *)
Definition read_record (k : Z) : M World BlockRecord := λ w,
  match sm_find k (allocations w) with
  | Some b => Ret b w
  | None => Stuck Undefined_behaviour
  end.

Fixpoint drain_mark_worklist_locked (fuel : nat) (wl : worklist) : M World unit :=
  match wl with
  | [] => mret tt
  | k :: wl' =>
      match fuel with
      | O => λ _, Stuck Out_of_fuel
      | S fuel' =>
          b ← read_record k;
          wl'' ← scan_payload_locked b wl';
          drain_mark_worklist_locked fuel' wl''
      end
  end.

Section Roots.
Context {ASAN : AsanRuntime}.

(** The spill array is an array of words and is visited element by element. *)
Definition scan_thread (env : ScanEnv) (collector : thread_id)
    (t : thread_id * ThreadState) (wl : worklist) : M World worklist :=
  w ← get;
  if ts_stack_bottom t.2 =? 0 then mret wl
  else if t.1 =? collector
  then scan mark_candidate_locked env (mem w) (ts_stack_bottom t.2) wl
  else
    wl ← foldM mark_candidate_locked (ts_register_spill t.2) wl;
    scan_thread_stack mark_candidate_locked (mem w) (ts_parked_stack_top t.2)
      (ts_stack_bottom t.2) (ts_fake_stack_handle t.2) wl.

Definition scan_registered_threads_locked (env : ScanEnv) (collector : thread_id)
    (wl : worklist) : M World worklist :=
  w ← get;
  foldM (scan_thread env collector) (threads_ (mgr w)) wl.

Definition scan_registered_roots_locked (wl : worklist) : M World worklist :=
  w ← get;
  foldM (λ r wl, scan_range mark_candidate_locked (mem w) (rr_begin r) (rr_end r) wl)
    (registered_root_ranges_ (mgr w)) wl.

(** Blocks under construction are pinned. *)
Definition mark_constructing_locked (wl : worklist) : M World worklist :=
  w ← get;
  foldM (λ kb wl, if br_constructing kb.2 then mark_candidate_locked kb.1 wl else mret wl)
    (allocations w) wl.

(** The marking part of [collect]; [drain] gets one unit of fuel per block. *)
Definition mark_phase (env : ScanEnv) (collector : thread_id) : M World unit :=
  clear_marks_locked;;
  native_alloc;; (* worklist.reserve *)
  wl ← mark_constructing_locked [];
  wl ← scan_registered_threads_locked env collector wl;
  wl ← scan_registered_roots_locked wl;
  w ← get;
  drain_mark_worklist_locked (length (allocations w)) wl.
End Roots.

(** ** Specification: reachability over the conservative object graph *)

(** The payload of [k] holds a word that resolves to the block [k']. *)
Definition edge (w : World) (k k' : Z) : Prop :=
  ∃ b b' a, (k, b) ∈ allocations w ∧ a ∈ word_addrs k (br_payload_end b) ∧
    find_block_locked (allocations w) (load_word (mem w) a) = Some (k', b').

Inductive reachable (w : World) (roots : list Z) : Z → Prop :=
| reach_root c k b :
    c ∈ roots → find_block_locked (allocations w) c = Some (k, b) → reachable w roots k
| reach_edge k k' :
    reachable w roots k → edge w k k' → reachable w roots k'.

Section RootCandidates.
Context {ASAN : AsanRuntime}.

Definition thread_candidates (env : ScanEnv) (m : memory) (collector : thread_id)
    (t : thread_id * ThreadState) : list Z :=
  if ts_stack_bottom t.2 =? 0 then []
  else if t.1 =? collector then scan_candidates env m (ts_stack_bottom t.2)
  else ts_register_spill t.2 ++
       stack_candidates m (ts_parked_stack_top t.2) (ts_stack_bottom t.2)
         (ts_fake_stack_handle t.2).

Definition constructing_candidates (al : registry) : list Z :=
  (filter (λ kb, br_constructing kb.2 = true) al).*1.

(** Every root word of a collection, in the order it is visited. *)
Definition root_candidates (env : ScanEnv) (collector : thread_id) (w : World) : list Z :=
  constructing_candidates (allocations w) ++
  (t ← threads_ (mgr w); thread_candidates env (mem w) collector t) ++
  (r ← registered_root_ranges_ (mgr w); range_candidates (mem w) (rr_begin r) (rr_end r)).

(** Stacks and ranges are given by 64-bit addresses. *)
Record roots_ok (env : ScanEnv) (w : World) : Prop := {
  ro_env : env_ok env;
  ro_threads : ∀ t s, (t, s) ∈ threads_ (mgr w) →
    is_size (ts_stack_bottom s) ∧ is_size (ts_parked_stack_top s);
  ro_ranges : ∀ r, r ∈ registered_root_ranges_ (mgr w) → is_size (rr_begin r) ∧ is_size (rr_end r);
}.
End RootCandidates.

(** ** Mark bits *)

Definition markedb (w : World) (kb : Z * BlockRecord) : bool :=
  match headers w !! br_header kb.2 with
  | Some h => is_marked h
  | None => false
  end.

Definition unmarked (w : World) : nat := length (filter (λ kb, markedb w kb = false) (allocations w)).

(** Edges and reachability read the registry and memory only. *)
Lemma edge_ext w w' k k' :
  allocations w = allocations w' → mem w = mem w' → edge w k k' ↔ edge w' k k'.
Proof. intros Ha Hm. unfold edge. by rewrite Ha, Hm. Qed.

Lemma reachable_ext w w' roots k :
  allocations w = allocations w' → mem w = mem w' → reachable w roots k ↔ reachable w' roots k.
Proof.
  assert (∀ w w', allocations w = allocations w' → mem w = mem w' →
    reachable w roots k → reachable w' roots k) as H.
  { clear. intros w w' Ha Hm. induction 1 as [c k b Hc Hf|k k' Hk IH He].
    - eapply reach_root; [done|]. by rewrite <-Ha.
    - eapply reach_edge; [done|]. by rewrite <-(edge_ext w w'). }
  intros. split; by apply H.
Qed.

#[global] Instance edge_Proper : Proper (marks_equiv ==> eq ==> eq ==> iff) edge.
Proof.
  intros w w' Heq k ? <- k' ? <-.
  apply edge_ext; [by rewrite (mgr_Proper _ _ Heq)|by rewrite (mem_Proper _ _ Heq)].
Qed.

Lemma mark_block w k b v h :
  heap_wf w → (k, b) ∈ allocations w → headers w !! br_header b = Some h →
  let w' := set_headers <[br_header b := set_marked v h]> w in
  w' ≈ₘ w ∧
  ∀ k' b', (k', b') ∈ allocations w →
    markedb w' (k', b') = if decide (k' = k) then v else markedb w (k', b').
Proof.
  intros Hwf Hin Hh w'. split; [by eapply marks_equiv_insert|].
  intros k' b' Hin'. unfold markedb, w'; simpl. case_decide as Hk.
  - subst k'. rewrite (wf_key_inj w Hwf _ _ _ Hin' Hin).
    by rewrite lookup_insert_eq, is_marked_set.
  - rewrite lookup_insert_ne; [done|]. intros Heq. apply Hk. symmetry.
    by eapply (wf_header_inj w Hwf k b k' b').
Qed.

(** ** One batch of candidates *)

(** What marking the candidates [cs] from worklist [wl] and world [w] does. *)
Record marks (cs : list Z) (w : World) (wl : worklist) (w' : World) (wl' : worklist) : Prop := {
  ms_equiv : w' ≈ₘ w;
  ms_new : ∃ new, wl' = new ++ wl ∧ NoDup new ∧
    (∀ k, k ∈ new → ∃ b c, (k, b) ∈ allocations w ∧ markedb w (k, b) = false ∧
      c ∈ cs ∧ find_block_locked (allocations w) c = Some (k, b)) ∧
    (∀ k b, (k, b) ∈ allocations w →
      markedb w' (k, b) = true ↔ markedb w (k, b) = true ∨ k ∈ new) ∧
    unmarked w = (unmarked w' + length new)%nat;
  ms_done : ∀ c k b, c ∈ cs → find_block_locked (allocations w) c = Some (k, b) →
    markedb w' (k, b) = true;
}.

Lemma marks_nil w wl : marks [] w wl w wl.
Proof.
  split; [done| |by intros ??? ?%elem_of_nil].
  exists []. split_and!; [done|constructor|by intros ? ?%elem_of_nil| |simpl; lia].
  intros. rewrite elem_of_nil. tauto.
Qed.

Lemma marks_app cs1 cs2 w1 wl1 w2 wl2 w3 wl3 :
  marks cs1 w1 wl1 w2 wl2 → marks cs2 w2 wl2 w3 wl3 → marks (cs1 ++ cs2) w1 wl1 w3 wl3.
Proof.
  intros [He1 (n1 & -> & Hnd1 & Hn1 & Hm1 & Hu1) Hd1] [He2 (n2 & -> & Hnd2 & Hn2 & Hm2 & Hu2) Hd2].
  rewrite (mgr_Proper _ _ He1) in Hn2, Hm2, Hd2.
  split; [by etrans| |].
  - exists (n2 ++ n1). split_and!.
    + by rewrite app_assoc.
    + apply NoDup_app. split_and!; [done| |done]. intros k Hk2 Hk1.
      destruct (Hn2 k Hk2) as (b & c & Hin & Hf & _).
      assert (markedb w2 (k, b) = true) by (apply Hm1; auto). congruence.
    + intros k [Hk|Hk]%elem_of_app.
      * destruct (Hn2 k Hk) as (b & c & Hin & Hf & Hc & Hfind). exists b, c.
        split_and!; try done; [|set_solver].
        destruct (markedb w1 (k, b)) eqn:E; [|done].
        assert (markedb w2 (k, b) = true) by (apply Hm1; auto). congruence.
      * destruct (Hn1 k Hk) as (b & c & ? & ? & ? & ?). exists b, c. set_solver.
    + intros k b Hin. rewrite Hm2, Hm1, elem_of_app by done. tauto.
    + rewrite length_app. lia.
  - intros c k b [Hc|Hc]%elem_of_app Hf; [|by eapply Hd2].
    apply Hm2; [by eapply find_block_elem|]. left. by eapply Hd1.
Qed.

Lemma mark_candidate_spec c wl w :
  heap_wf w → ∃ w' wl', mark_candidate_locked c wl w = Ret wl' w' ∧ marks [c] w wl w' wl'.
Proof.
  intros Hwf. unfold mark_candidate_locked, mbind, M_bind, get.
  destruct (find_block_locked (allocations w) c) as [[k b]|] eqn:Ef.
  2:{ exists w, wl. split; [done|]. destruct (marks_nil w wl) as [? (n & ? & ? & Hn & ? & ?) ?].
      split; [done| |by intros ??? ->%list_elem_of_singleton; rewrite Ef].
      exists n. split_and!; try done.
      intros k Hk. destruct (Hn k Hk) as (? & ? & _ & _ & []%elem_of_nil & _). }
  apply find_block_elem in Ef as Hin. destruct Hin as [Hin _].
  destruct (wf_read_header w Hwf k b Hin) as (h & Hh & Hmg & _).
  unfold read_header. rewrite Hh, Hmg, Z.eqb_refl. simpl.
  assert (Hmb : markedb w (k, b) = is_marked h) by (unfold markedb; simpl; by rewrite Hh).
  destruct (is_marked h) eqn:Em.
  - exists w, wl. split; [done|]. split; [done| |].
    + exists []. split_and!; [done|constructor|by intros ? ?%elem_of_nil| |simpl; lia].
      intros. rewrite elem_of_nil. tauto.
    + intros ? k' b' ->%list_elem_of_singleton. rewrite Ef. intros [= <- <-]. done.
  - unfold write_header. rewrite Hh. eexists _, _. split; [done|].
    destruct (mark_block w k b true h Hwf Hin Hh) as [Heq Hm]. split; [done| |].
    + exists [k]. split_and!; [done|apply NoDup_singleton| | |].
      * intros k' ->%list_elem_of_singleton. exists b, c. by rewrite list_elem_of_singleton.
      * intros k' b' Hin'. rewrite Hm, list_elem_of_singleton by done. case_decide; naive_solver.
      * unfold unmarked. simpl. rewrite Nat.add_1_r.
        apply (filter_length_one _ _ _ (k, b)); try done.
        -- apply sm_wf_NoDup_entries, wf_sorted, Hwf.
        -- rewrite Hm by done. by rewrite decide_True.
        -- intros [k' b'] Hin' Hne. rewrite Hm by done. case_decide; [|done]. subst k'.
           by rewrite (wf_key_inj w Hwf _ _ _ Hin' Hin) in Hne.
    + intros ? k' b' ->%list_elem_of_singleton. rewrite Ef. intros [= <- <-].
      rewrite Hm by done. by rewrite decide_True.
Qed.

Lemma foldM_mark_spec cs wl w :
  heap_wf w → ∃ w' wl', foldM mark_candidate_locked cs wl w = Ret wl' w' ∧ marks cs w wl w' wl'.
Proof.
  revert wl w. induction cs as [|c cs IH]; intros wl w Hwf; simpl.
  - exists w, wl. split; [done|apply marks_nil].
  - destruct (mark_candidate_spec c wl w Hwf) as (w1 & wl1 & E1 & M1).
    mstep E1. assert (heap_wf w1) as Hwf1 by by rewrite (ms_equiv _ _ _ _ _ M1).
    destruct (IH wl1 w1 Hwf1) as (w2 & wl2 & E2 & M2).
    exists w2, wl2. split; [done|]. apply (marks_app [c] cs _ _ _ _ _ _ M1 M2).
Qed.

Lemma marks_capacity cs w wl w' wl' :
  marks cs w wl w' wl' → (unmarked w' + length wl' = unmarked w + length wl)%nat.
Proof. intros [_ (n & -> & _ & _ & _ & Hu) _]. rewrite length_app. lia. Qed.

Lemma unmarked_le w : (unmarked w <= length (allocations w))%nat.
Proof. apply length_filter. Qed.

Lemma scan_payload_spec k b wl w :
  heap_wf w → (k, b) ∈ allocations w →
  ∃ w' wl', scan_payload_locked b wl w = Ret wl' w' ∧
    marks (load_word (mem w) <$> word_addrs k (br_payload_end b)) w wl w' wl'.
Proof.
  intros Hwf Hin. unfold scan_payload_locked.
  destruct (foldM_mark_spec (load_word (mem w) <$> word_addrs k (br_payload_end b)) wl w Hwf)
    as (w' & wl' & E & Hm).
  exists w', wl'. split; [|done]. unfold read_payload_words, mbind, M_bind.
  by rewrite (wf_payload_words w Hwf k b Hin).
Qed.

Lemma marks_edge k b w wl w' wl' k' :
  heap_wf w → (k, b) ∈ allocations w →
  marks (load_word (mem w) <$> word_addrs k (br_payload_end b)) w wl w' wl' →
  edge w k k' → ∃ b', (k', b') ∈ allocations w ∧ markedb w' (k', b') = true.
Proof.
  intros Hwf Hin Hm (b1 & b' & a & Hin1 & Ha & Hf).
  rewrite (wf_key_inj w Hwf _ _ _ Hin1 Hin) in Ha.
  exists b'. split; [by eapply find_block_elem|]. eapply (ms_done _ _ _ _ _ Hm); [|done].
  apply list_elem_of_fmap. eauto.
Qed.

Lemma marks_new_edge k b w wl w' wl' k' :
  heap_wf w → (k, b) ∈ allocations w →
  marks (load_word (mem w) <$> word_addrs k (br_payload_end b)) w wl w' wl' →
  k' ∈ wl' → k' ∈ wl ∨ edge w k k'.
Proof.
  intros Hwf Hin [_ (n & -> & _ & Hn & _) _] [Hk|Hk]%elem_of_app; [|by left]. right.
  destruct (Hn k' Hk) as (b' & c & _ & _ & (a & -> & Ha)%list_elem_of_fmap & Hf).
  exists b, b', a. done.
Qed.

(** ** Draining the worklist *)

Definition marked (w : World) (k : Z) : Prop :=
  ∃ b, (k, b) ∈ allocations w ∧ markedb w (k, b) = true.

Lemma marks_mono cs w wl w' wl' k : marks cs w wl w' wl' → marked w k → marked w' k.
Proof.
  intros [He (n & _ & _ & _ & Hm & _) _] (b & Hin & Hb). exists b.
  rewrite (mgr_Proper _ _ He). split; [done|]. apply Hm; auto.
Qed.

Lemma marks_worklist cs w wl w' wl' :
  marks cs w wl w' wl' → (∀ k, k ∈ wl → marked w k) → ∀ k, k ∈ wl' → marked w' k.
Proof.
  intros Hm Hwl k Hk. destruct Hm as [He (n & -> & Hnd & Hn & Hmk & Hu) Hd] eqn:E.
  apply elem_of_app in Hk as [Hk|Hk].
  - destruct (Hn k Hk) as (b & c & Hin & _). exists b. rewrite (mgr_Proper _ _ He).
    split; [done|]. apply Hmk; auto.
  - eapply marks_mono, Hwl; done.
Qed.

Lemma marks_fresh cs w wl w' wl' k :
  marks cs w wl w' wl' → marked w' k → marked w k ∨ k ∈ wl'.
Proof.
  intros [He (n & -> & Hnd & Hn & Hmk & Hu) Hd] (b & Hin & Hb).
  rewrite (mgr_Proper _ _ He) in Hin. apply Hmk in Hb as [Hb|Hk]; [|right; set_solver|done].
  left. by exists b.
Qed.

(** With one unit of fuel per unmarked block and per pending entry the loop
    ends; it marks only what is reachable from the worklist, and everything
    the pending and the newly marked blocks point to. *)
Record drained (w : World) (wl : worklist) (w' : World) : Prop := {
  dr_equiv : w' ≈ₘ w;
  dr_mono : ∀ k, marked w k → marked w' k;
  dr_sound : ∀ k, marked w' k → marked w k ∨ ∃ k0, k0 ∈ wl ∧ rtc (edge w) k0 k;
  dr_pending : ∀ k k', k ∈ wl → edge w k k' → marked w' k';
  dr_closed : ∀ k k', marked w' k → ¬ marked w k → edge w k k' → marked w' k';
}.

Lemma drain_spec fuel wl w :
  heap_wf w → (∀ k, k ∈ wl → marked w k) → (unmarked w + length wl <= fuel)%nat →
  ∃ w', drain_mark_worklist_locked fuel wl w = Ret tt w' ∧ drained w wl w'.
Proof.
  revert wl w. induction fuel as [|fuel IH]; intros [|k wl] w Hwf Hwl Hfuel; simpl in *;
    try lia; try (exists w; split; [done|]; split; [done|done|by left|by intros ?? ?%elem_of_nil|done]).
  destruct (Hwl k ltac:(left)) as (b & Hin & Hb).
  assert (E0 : read_record k w = Ret b w).
  { unfold read_record. by rewrite (sm_elem_find k b) by (try done; apply wf_sorted, Hwf). }
  mstep E0. destruct (scan_payload_spec k b wl w Hwf Hin) as (w1 & wl1 & E1 & M1). mstep E1.
  pose proof (ms_equiv _ _ _ _ _ M1) as He1.
  assert (Hwl1 : ∀ j, j ∈ wl1 → marked w1 j)
    by (eapply marks_worklist; [done|]; intros; apply Hwl; by right).
  destruct (IH wl1 w1) as (w2 & E2 & [He2 Hmono Hsound Hpend Hclosed]).
  { by rewrite He1. }
  { done. }
  { pose proof (marks_capacity _ _ _ _ _ M1). lia. }
  exists w2. split; [done|]. split.
  - by etrans.
  - intros j Hj. by eapply Hmono, marks_mono.
  - intros j Hj. apply Hsound in Hj as [Hj|(k0 & Hk0 & Hj)].
    + apply (marks_fresh _ _ _ _ _ _ M1) in Hj as [Hj|Hj]; [by left|right].
      destruct (marks_new_edge _ _ _ _ _ _ _ Hwf Hin M1 Hj) as [Hj'|Hj'].
      * exists j. split; [by right|done].
      * exists k. split; [left|by apply rtc_once].
    + right.
      assert (rtc (edge w) k0 j) as Hr.
      { eapply rtc_subrel; [|done]. intros ?? ?. by rewrite <-He1. }
      destruct (marks_new_edge _ _ _ _ _ _ _ Hwf Hin M1 Hk0) as [Hk|Hk].
      * exists k0. split; [by right|done].
      * exists k. split; [left|by eapply rtc_l].
  - intros j j' [->|Hj]%elem_of_cons Hjj'.
    + destruct (marks_edge _ _ _ _ _ _ _ Hwf Hin M1 Hjj') as (b' & Hin' & Hb').
      apply Hmono. exists b'. by rewrite (mgr_Proper _ _ He1).
    + destruct M1 as [_ (n & -> & _) _]. eapply (Hpend j); [set_solver|]. by rewrite He1.
  - intros j j' Hj Hnj Hjj'. destruct (decide (j ∈ wl1)) as [Hin1|Hnin1].
    + eapply Hpend; [done|]. by rewrite He1.
    + eapply Hclosed; [done| |by rewrite He1].
      intros Hm1. destruct (marks_fresh _ _ _ _ _ _ M1 Hm1); done.
Qed.

(** ** Clearing *)

Lemma clear_one_spec k b w :
  heap_wf w → (k, b) ∈ allocations w →
  ∃ w', write_header (br_header b) (set_marked false) w = Ret tt w' ∧ w' ≈ₘ w ∧
    ∀ k' b', (k', b') ∈ allocations w →
      markedb w' (k', b') = if decide (k' = k) then false else markedb w (k', b').
Proof.
  intros Hwf Hin. destruct (wf_read_header w Hwf k b Hin) as (h & Hh & _).
  unfold write_header. rewrite Hh. eexists. split; [done|]. by apply mark_block.
Qed.

Lemma clear_marks_list l w :
  heap_wf w → (∀ kb, kb ∈ l → kb ∈ allocations w) →
  ∃ w', foldM (λ kb _, write_header (br_header kb.2) (set_marked false)) l tt w = Ret tt w' ∧
    w' ≈ₘ w ∧ ∀ kb, kb ∈ allocations w → kb ∈ l ∨ markedb w kb = false → markedb w' kb = false.
Proof.
  revert w. induction l as [|[k b] l IH]; intros w Hwf Hl; simpl.
  - exists w. split_and!; [done..|]. by intros kb _ [?%elem_of_nil|].
  - destruct (clear_one_spec k b w Hwf) as (w1 & E1 & He1 & Hm1); [apply Hl; left|].
    mstep E1. destruct (IH w1) as (w2 & E2 & He2 & Hm2).
    { by rewrite He1. }
    { intros. rewrite (mgr_Proper _ _ He1). apply Hl. by right. }
    exists w2. split_and!; [done|by etrans|]. intros [k' b'] Hin Hor.
    apply Hm2; [by rewrite (mgr_Proper _ _ He1)|]. rewrite Hm1 by done.
    destruct Hor as [[[= -> ->]|]%elem_of_cons|Hf]; [right|by left|right].
    + by rewrite decide_True.
    + by case_decide.
Qed.

Lemma clear_marks_spec w :
  heap_wf w →
  ∃ w', clear_marks_locked w = Ret tt w' ∧ w' ≈ₘ w ∧ ∀ k, ¬ marked w' k.
Proof.
  intros Hwf. destruct (clear_marks_list (allocations w) w Hwf) as (w' & E & He & Hm); [done|].
  exists w'. split_and!; [done..|]. intros k (b & Hin & Hb).
  rewrite (mgr_Proper _ _ He) in Hin. by rewrite Hm in Hb by auto.
Qed.

(** ** Visiting the roots *)

Lemma marks_foldM {X} (f : X → worklist → M World worklist) (cands : memory → X → list Z)
    (l : list X) w wl :
  heap_wf w →
  (∀ x w0 wl, x ∈ l → w0 ≈ₘ w →
    ∃ w' wl', f x wl w0 = Ret wl' w' ∧ marks (cands (mem w0) x) w0 wl w' wl') →
  ∃ w' wl', foldM f l wl w = Ret wl' w' ∧ marks (x ← l; cands (mem w) x) w wl w' wl'.
Proof.
  intros Hwf Hf.
  enough (∀ w0 wl, w0 ≈ₘ w → ∃ w' wl', foldM f l wl w0 = Ret wl' w' ∧
    marks (x ← l; cands (mem w) x) w0 wl w' wl') as H by (by apply H).
  clear wl. induction l as [|x l IH]; intros w0 wl Heq; csimpl.
  - exists w0, wl. split; [done|apply marks_nil].
  - destruct (Hf x w0 wl) as (w1 & wl1 & E1 & M1); [left|done|]. mstep E1.
    destruct (IH) with (w0 := w1) (wl := wl1) as (w2 & wl2 & E2 & M2).
    { intros; apply Hf; [by right|done]. }
    { etrans; [apply M1|done]. }
    exists w2, wl2. split; [done|]. rewrite (mem_Proper _ _ Heq) in M1. by eapply marks_app.
Qed.

Lemma foldM_mark_any cs wl w w0 :
  heap_wf w → w0 ≈ₘ w →
  ∃ w' wl', foldM mark_candidate_locked cs wl w0 = Ret wl' w' ∧ marks cs w0 wl w' wl'.
Proof. intros Hwf Heq. apply foldM_mark_spec. by rewrite Heq. Qed.

Section RootSpec.
Context {ASAN : AsanRuntime} (env : ScanEnv) (collector : thread_id).

Lemma scan_thread_spec w w0 t wl :
  heap_wf w → roots_ok env w → w0 ≈ₘ w → t ∈ threads_ (mgr w) →
  ∃ w' wl', scan_thread env collector t wl w0 = Ret wl' w' ∧
    marks (thread_candidates env (mem w0) collector t) w0 wl w' wl'.
Proof.
  intros Hwf [Henv Hts _] Heq Ht. destruct t as [t st]. destruct (Hts _ _ Ht) as [Hb Hp].
  destruct (foldM_mark_any (thread_candidates env (mem w0) collector (t, st)) wl w w0 Hwf Heq)
    as (w' & wl' & E & Hm).
  exists w', wl'. split; [|done]. unfold thread_candidates in E. simpl in E.
  unfold scan_thread, mbind, M_bind, get. simpl.
  destruct (ts_stack_bottom st =? 0); [done|].
  destruct (t =? collector); [by rewrite scan_spec|].
  rewrite foldM_app in E. unfold mbind, M_bind in E.
  destruct (foldM mark_candidate_locked (ts_register_spill st) wl w0); [|done..].
  by rewrite (scan_stack_range_spec _ env).
Qed.

Lemma scan_registered_threads_spec w wl :
  heap_wf w → roots_ok env w →
  ∃ w' wl', scan_registered_threads_locked env collector wl w = Ret wl' w' ∧
    marks (t ← threads_ (mgr w); thread_candidates env (mem w) collector t) w wl w' wl'.
Proof.
  intros Hwf Hr. unfold scan_registered_threads_locked, mbind at 1, M_bind, get.
  apply (marks_foldM _ (λ m t, thread_candidates env m collector t)); [done|].
  intros t w0 wl0 Ht Heq. by eapply scan_thread_spec.
Qed.

Lemma scan_registered_roots_spec w wl :
  heap_wf w → roots_ok env w →
  ∃ w' wl', scan_registered_roots_locked wl w = Ret wl' w' ∧
    marks (r ← registered_root_ranges_ (mgr w); range_candidates (mem w) (rr_begin r) (rr_end r))
      w wl w' wl'.
Proof.
  intros Hwf [_ _ Hr]. unfold scan_registered_roots_locked, mbind at 1, M_bind, get.
  apply (marks_foldM _ (λ _ r, range_candidates (mem w) (rr_begin r) (rr_end r))); [done|].
  intros r w0 wl0 Hin Heq. destruct (Hr _ Hin).
  destruct (foldM_mark_any (range_candidates (mem w) (rr_begin r) (rr_end r)) wl0 w w0 Hwf Heq)
    as (w' & wl' & E & Hm).
  exists w', wl'. split; [|done]. unfold scan_range. by rewrite scan_words_spec.
Qed.

Lemma mark_constructing_spec w wl :
  heap_wf w →
  ∃ w' wl', mark_constructing_locked wl w = Ret wl' w' ∧
    marks (constructing_candidates (allocations w)) w wl w' wl'.
Proof.
  intros Hwf. unfold mark_constructing_locked, mbind at 1, M_bind, get.
  destruct (foldM_mark_spec (constructing_candidates (allocations w)) wl w Hwf)
    as (w' & wl' & E & Hm).
  exists w', wl'. split; [|done]. rewrite <-E. unfold constructing_candidates.
  rewrite foldM_fmap. generalize (allocations w) as al. clear. intros al. revert wl w.
  induction al as [|kb l IH]; intros wl w; [done|].
  rewrite filter_cons. destruct (br_constructing kb.2) eqn:Ec.
  - rewrite decide_True by done. simpl. rewrite Ec. unfold mbind, M_bind.
    destruct (mark_candidate_locked kb.1 wl w); [apply IH|done..].
  - rewrite decide_False by done. simpl. rewrite Ec. apply IH.
Qed.

Lemma roots_ok_equiv w w' : w' ≈ₘ w → roots_ok env w → roots_ok env w'.
Proof. intros Heq []. split; rewrite ?(mgr_Proper _ _ Heq); done. Qed.

(** The root pass: everything before the drain. *)
Lemma root_pass_spec w :
  heap_wf w → roots_ok env w →
  ∃ w' wl', (wl ← mark_constructing_locked [];
             wl ← scan_registered_threads_locked env collector wl;
             scan_registered_roots_locked wl) w = Ret wl' w' ∧
    marks (root_candidates env collector w) w [] w' wl'.
Proof.
  intros Hwf Hr. destruct (mark_constructing_spec w [] Hwf) as (w1 & wl1 & E1 & M1).
  mstep E1. pose proof (ms_equiv _ _ _ _ _ M1) as He1.
  assert (Hwf1 : heap_wf w1) by by rewrite He1.
  destruct (scan_registered_threads_spec w1 wl1 Hwf1) as (w2 & wl2 & E2 & M2).
  { by eapply roots_ok_equiv. }
  mstep E2. pose proof (ms_equiv _ _ _ _ _ M2) as He2.
  assert (He : w2 ≈ₘ w) by by etrans.
  destruct (scan_registered_roots_spec w2 wl2) as (w3 & wl3 & E3 & M3).
  { by rewrite He. }
  { by eapply roots_ok_equiv. }
  exists w3, wl3. split; [done|]. unfold root_candidates.
  rewrite (mgr_Proper _ _ He1), (mem_Proper _ _ He1) in M2.
  rewrite (mgr_Proper _ _ He), (mem_Proper _ _ He) in M3.
  by repeat (eapply marks_app; [done|]).
Qed.
End RootSpec.

(** ** The whole phase *)

Lemma reachable_rtc w roots k0 k : reachable w roots k0 → rtc (edge w) k0 k → reachable w roots k.
Proof. intros H0 Hr. revert H0. induction Hr; [done|]. intros. eauto using reach_edge. Qed.

Lemma drained_roots w roots wl w1 w2 k :
  heap_wf w → (∀ k, ¬ marked w k) → marks roots w [] w1 wl → drained w1 wl w2 →
  marked w2 k ↔ reachable w roots k.
Proof.
  intros Hwf Hclear M1 [He2 Hmono Hsound Hpend Hclosed].
  pose proof (ms_equiv _ _ _ _ _ M1) as He1.
  assert (Hroot : ∀ j, j ∈ wl → reachable w roots j).
  { destruct M1 as [_ (n & -> & _ & Hn & _) _]. rewrite app_nil_r. intros j Hj.
    destruct (Hn j Hj) as (b & c & _ & _ & Hc & Hf). by eapply reach_root. }
  assert (Hin1 : ∀ j, marked w1 j → j ∈ wl).
  { intros j Hj. destruct (marks_fresh _ _ _ _ _ _ M1 Hj) as [Hj'|]; [|done]. by destruct (Hclear j). }
  split.
  - intros [Hk|(k0 & Hk0 & Hr)]%Hsound; [by auto|]. eapply reachable_rtc; [by apply Hroot|].
    eapply rtc_subrel; [|done]. intros ?? ?. by rewrite <-He1.
  - induction 1 as [c k b Hc Hf|k k' Hk IH Hedge].
    + apply Hmono. exists b. rewrite (mgr_Proper _ _ He1). split; [by eapply find_block_elem|].
      by eapply ms_done.
    + rewrite <-He1 in Hedge. destruct (decide (k ∈ wl)); [by eapply Hpend|].
      eapply Hclosed; [done| |done]. intros ?%Hin1. done.
Qed.

Section MarkPhase.
Context {ASAN : AsanRuntime} (env : ScanEnv) (collector : thread_id).

(** [mark_phase] after the only allocation it makes has succeeded. *)
Lemma mark_phase_spec w w0 :
  heap_wf w → roots_ok env w →
  (clear_marks_locked;; native_alloc) w = Ret tt w0 →
  ∃ w', mark_phase env collector w = Ret tt w' ∧ w' ≈ₘ w0 ∧
    set_oom (λ _, oom w) w' ≈ₘ w ∧
    ∀ k, marked w' k ↔ reachable w (root_candidates env collector w) k.
Proof.
  intros Hwf Hr H0. destruct (clear_marks_spec w Hwf) as (wc & Ec & Hec & Hclear).
  unfold mbind, M_bind in H0. rewrite Ec in H0.
  assert (H0' : ∃ rest, w0 = set_oom (λ _, rest) wc).
  { unfold native_alloc in H0. destruct (oom wc) as [|[] rest] eqn:Eo; simplify_eq.
    - exists []. destruct w0; simpl in *; by rewrite <-Eo.
    - by exists rest. }
  destruct H0' as [rest Hw0].
  assert (Hwf0 : heap_wf w0) by (rewrite <-Hec in Hwf; subst w0; by eapply heap_wf_ext, Hwf).
  assert (Hr0 : roots_ok env w0).
  { apply (roots_ok_equiv env w wc) in Hr as Hrc; [|done]. subst w0. destruct Hrc. by split. }
  destruct (root_pass_spec env collector w0 Hwf0 Hr0) as (w1 & wl1 & E1 & M1).
  assert (Hclear0 : ∀ k, ¬ marked w0 k) by (subst w0; apply Hclear).
  pose proof (ms_equiv _ _ _ _ _ M1) as He1.
  destruct (drain_spec (length (allocations w0)) wl1 w1) as (w2 & E2 & D2).
  { by rewrite He1. }
  { eapply marks_worklist; [done|]. by intros ? ?%elem_of_nil. }
  { pose proof (marks_capacity _ _ _ _ _ M1). pose proof (unmarked_le w0). simpl in *. lia. }
  pose proof (dr_equiv _ _ _ D2) as He2.
  exists w2. split_and!.
  - unfold mark_phase. unfold mbind, M_bind, get in *. rewrite Ec, H0.
    destruct (mark_constructing_locked [] w0); [|done..].
    destruct (scan_registered_threads_locked env collector a s); [|done..].
    rewrite E1. by rewrite (mgr_Proper _ _ He1).
  - by etrans.
  - assert (He : w2 ≈ₘ w0) by by etrans. destruct He as [He], Hec as [Hec]. split.
    change (set_oom (λ _, oom w) (erase_marks w2) = erase_marks w). rewrite He, Hw0.
    change (set_oom (λ _, oom w) (set_oom (λ _, rest) (erase_marks wc)) = erase_marks w).
    by rewrite Hec.
  - intros k. rewrite (drained_roots w0 (root_candidates env collector w0) wl1 w1 w2 k) by done.
    assert (allocations w0 = allocations w ∧ mem w0 = mem w ∧
      root_candidates env collector w0 = root_candidates env collector w) as (Ha & Hm & ->).
    { subst w0. unfold root_candidates. simpl.
      by rewrite (mgr_Proper _ _ Hec), (mem_Proper _ _ Hec). }
    by apply reachable_ext.
Qed.
End MarkPhase.
