(* ===== verification/Finalize.v ===== *)
(** * Dependency-aware finalization order

    [order_blocks_for_finalization_locked] of src/src/GCManager.cpp: the
    dependency graph of the blocks about to be reclaimed, Kahn's algorithm with
    a priority queue that prefers high addresses, and the reverse-order tail
    for blocks on cycles.  The result is a permutation of the blocks in which,
    for acyclic dependencies, every block precedes the blocks it points to. *)

From S2P Require Import Prelude Words Memory OrdMap Chunk Manager Heap.

(** [edges] and [indegree], indexed by position in [blocks]. *)
Abbreviation graph := (list (list nat) * list nat)%type.

Section Order.
Context (m : memory) (bs : list BlockRecord).

Definition index_by_begin : stdmap nat :=
  foldl (λ idx ib, sm_emplace (br_payload_begin ib.2) ib.1 idx) [] (imap pair bs).

(** One word of the payload of block [source]. *)
Definition add_edge (idx : stdmap nat) (source : nat) (g : graph) (candidate : Z) : graph :=
  match sm_pred candidate idx with
  | None => g
  | Some (_, target) =>
      match bs !! target with
      | None => g
      | Some t =>
          if (candidate <? br_payload_begin t) || (br_payload_end t <=? candidate)
             || bool_decide (target = source)
          then g
          else if bool_decide (target ∈ g.1 !!! source) then g
          else (<[source := (g.1 !!! source) ++ [target]]> g.1,
                <[target := S (g.2 !!! target)]> g.2)
      end
  end.

Fixpoint build_graph (idx : stdmap nat) (l : list (nat * BlockRecord)) (g : graph) : option graph :=
  match l with
  | [] => Some g
  | (source, block) :: l' =>
      match payload_words m (br_payload_begin block) (br_payload_end block) with
      | None => None
      | Some words => build_graph idx l' (foldl (add_edge idx source) g words)
      end
  end.

(** [higher_address_first]: the queue is kept with its top in front. *)
Definition begin_of (i : nat) : Z := default 0 (br_payload_begin <$> bs !! i).

Fixpoint pq_push (i : nat) (q : list nat) : list nat :=
  match q with
  | [] => [i]
  | j :: q' => if begin_of j <? begin_of i then i :: q else j :: pq_push i q'
  end.

(** The inner loop: one decrement per outgoing edge. *)
Definition release (s : list nat * list nat) (target : nat) : list nat * list nat :=
  let '(indegree, ready) := s in
  if (0 <? indegree !!! target)%nat
  then
    let indegree' : list nat := <[target := (indegree !!! target - 1)%nat]> indegree in
    (indegree', if (indegree' !!! target =? 0)%nat then pq_push target ready else ready)
  else s.

(** The emitted indices, in order, and [emitted]; [None] without fuel. *)
Fixpoint kahn (edges : list (list nat)) (fuel : nat) (ready indegree : list nat)
    (emitted : list bool) (ordered : list nat) : option (list bool * list nat) :=
  match ready with
  | [] => Some (emitted, ordered)
  | index :: ready' =>
      match fuel with
      | O => None
      | S fuel' =>
          if (emitted !!! index : bool) then kahn edges fuel' ready' indegree emitted ordered
          else
            let '(indegree', ready'') := foldl release (indegree, ready') (edges !!! index) in
            kahn edges fuel' ready'' indegree' (<[index := true]> emitted) (ordered ++ [index])
      end
  end.

Definition order_indices : option (list nat) :=
  let n := length bs in
  match build_graph index_by_begin (imap pair bs) (replicate n [], replicate n 0%nat) with
  | None => None
  | Some (edges, indegree) =>
      let ready := foldl (λ q i, if (indegree !!! i =? 0)%nat then pq_push i q else q) [] (seq 0 n) in
      match kahn edges n ready indegree (replicate n false) [] with
      | None => None
      | Some (emitted, ordered) =>
          Some (ordered ++ filter (λ i, emitted !!! i = false) (reverse (seq 0 n)))
      end
  end.

Definition header_of (i : nat) : Z := default 0 (br_header <$> bs !! i).

Definition order_blocks_for_finalization_locked : option (list Z) :=
  if (length bs <=? 1)%nat then Some (br_header <$> bs)
  else
    match order_indices with
    | Some ordered => Some (header_of <$> ordered)
    | None => None
    end.
End Order.

(** ** Specification *)

(** [i] comes before [j] in [l]. *)
Definition before {A} (l : list A) (i j : A) : Prop := ∃ l1 l2, l = l1 ++ j :: l2 ∧ i ∈ l1.

Section Spec.
Context (m : memory) (bs : list BlockRecord).

(** The block at [i] holds a word pointing into the different block at [j]. *)
Definition dep (i j : nat) : Prop :=
  ∃ bi bj a, bs !! i = Some bi ∧ bs !! j = Some bj ∧ i ≠ j ∧
    a ∈ word_addrs (br_payload_begin bi) (br_payload_end bi) ∧
    br_payload_begin bj <= load_word m a < br_payload_end bj.

(** Address-ordered, disjoint, and away from the top of the address space. *)
Record blocks_sorted : Prop := {
  bs_range : ∀ i b, bs !! i = Some b →
    0 <= br_payload_begin b ∧ br_payload_begin b < br_payload_end b ∧
    br_payload_end b + word_size <= SIZE_MAX;
  bs_order : ∀ i j bi bj, bs !! i = Some bi → bs !! j = Some bj → (i < j)%nat →
    br_payload_end bi <= br_payload_begin bj;
}.

(** ** The dependency graph *)

Record graph_ok (P : nat → nat → Prop) (g : graph) : Prop := {
  go_edges : length g.1 = length bs;
  go_indegree : length g.2 = length bs;
  go_nodup : ∀ i, NoDup (g.1 !!! i);
  go_edge : ∀ i j, j ∈ g.1 !!! i ↔ P i j;
  go_bound : ∀ i j, j ∈ g.1 !!! i → (i < length bs)%nat ∧ (j < length bs)%nat;
  go_count : ∀ j, (j < length bs)%nat →
    g.2 !!! j = length (filter (λ i, j ∈ g.1 !!! i) (seq 0 (length bs)));
}.

Lemma length_filter_add (l : list (list nat)) (s t : nat) :
  (s < length l)%nat → t ∉ l !!! s → 
  ∀ j, length (filter (λ i, j ∈ <[s := (l !!! s) ++ [t]]> l !!! i) (seq 0 (length l))) =
    ((if decide (j = t) then 1 else 0) + length (filter (λ i, j ∈ l !!! i) (seq 0 (length l))))%nat.
Proof.
  intros Hs Hn j.
  assert (Hlook : ∀ i, j ∈ <[s := (l !!! s) ++ [t]]> l !!! i ↔ (j ∈ l !!! i ∨ (i = s ∧ j = t))).
  { intros i. destruct (decide (i = s)) as [->|Hne].
    - rewrite list_lookup_total_insert_eq by done. rewrite elem_of_app, list_elem_of_singleton.
      naive_solver.
    - rewrite list_lookup_total_insert_ne by done. naive_solver. }
  case_decide as Hj.
  - subst j. apply (filter_length_one _ _ _ s).
    + apply NoDup_seq.
    + apply elem_of_seq. lia.
    + apply Hlook. by right.
    + done.
    + intros x _ Hx. rewrite Hlook. naive_solver.
  - apply filter_length_ext. intros x _. rewrite Hlook. naive_solver.
Qed.

Lemma add_edge_ok P idx s g c :
  (s < length bs)%nat → graph_ok P g →
  (∀ k t, sm_pred c idx = Some (k, t) → (t < length bs)%nat) →
  graph_ok (λ i j, P i j ∨ (i = s ∧ i ≠ j ∧ ∃ k t, sm_pred c idx = Some (k, j) ∧ bs !! j = Some t ∧
    br_payload_begin t <= c < br_payload_end t)) (add_edge bs idx s g c).
Proof.
  intros Hs Hg Hidx. unfold add_edge.
  assert (Hsame : (∀ k j t, sm_pred c idx = Some (k, j) → bs !! j = Some t → s ≠ j →
      br_payload_begin t <= c < br_payload_end t → P s j) →
    graph_ok (λ i j, P i j ∨ (i = s ∧ i ≠ j ∧ ∃ k t, sm_pred c idx = Some (k, j) ∧
      bs !! j = Some t ∧ br_payload_begin t <= c < br_payload_end t)) g).
  { intros Hno. destruct Hg. split; try done. intros i j. rewrite go_edge0. split; [by left|].
    intros [?|(-> & Hij & k & t & ? & ? & ?)]; [done|]. by eapply Hno. }
  destruct (sm_pred c idx) as [[k t]|] eqn:Ep; [|by apply Hsame].
  specialize (Hidx k t eq_refl).
  destruct (bs !! t) as [bt|] eqn:Et; [|apply Hsame; naive_solver].
  destruct (_ || _ || _) eqn:Ec.
  { apply Hsame. intros k' j t' [= <- <-] Et' Hsj Hr. rewrite Et in Et'. injection Et' as <-.
    destruct (Z.ltb_spec c (br_payload_begin bt)), (Z.leb_spec (br_payload_end bt) c); try lia.
    simpl in Ec. apply bool_decide_eq_true in Ec. done. }
  apply orb_false_iff in Ec as [Ec Hts]. apply bool_decide_eq_false in Hts.
  apply orb_false_iff in Ec as [?%Z.ltb_ge ?%Z.leb_gt].
  case_bool_decide as Hin.
  { apply Hsame. intros k' j t' [= <- <-] _ _ _. by apply (go_edge _ _ Hg). }
  destruct Hg as [Hl1 Hl2 Hnd He Hb Hc].
  assert (Hlook : ∀ i j, j ∈ <[s := (g.1 !!! s) ++ [t]]> g.1 !!! i ↔ j ∈ g.1 !!! i ∨ (i = s ∧ j = t)).
  { intros i j. destruct (decide (i = s)) as [->|Hne].
    - rewrite list_lookup_total_insert_eq by lia. rewrite elem_of_app, list_elem_of_singleton.
      naive_solver.
    - rewrite list_lookup_total_insert_ne by done. naive_solver. }
  split; simpl.
  - by rewrite length_insert.
  - by rewrite length_insert.
  - intros i. destruct (decide (i = s)) as [->|Hne].
    + rewrite list_lookup_total_insert_eq by lia. apply NoDup_app. split_and!; [done| |apply NoDup_singleton].
      intros x Hx ->%list_elem_of_singleton. done.
    + by rewrite list_lookup_total_insert_ne.
  - intros i j. rewrite Hlook, He. split.
    + intros [?|[-> ->]]; [by left|]. right. split_and!; [done|done|]. exists k, bt. done.
    + intros [?|(-> & Hij & k' & t' & [= <- <-] & _)]; [by left|by right].
  - intros i j [Hj|[-> ->]]%Hlook; [by eapply Hb|lia].
  - intros j Hj. rewrite <-Hl1, length_filter_add by (done || lia).
    rewrite Hl1, <-Hc by done. case_decide as Hjt.
    + subst. by rewrite list_lookup_total_insert_eq by lia.
    + by rewrite list_lookup_total_insert_ne.
Qed.

Lemma graph_ok_iff P Q g : (∀ i j, P i j ↔ Q i j) → graph_ok P g → graph_ok Q g.
Proof. intros HPQ []. split; try done. intros. by rewrite <-HPQ. Qed.

Lemma index_foldl (l : list (nat * BlockRecord)) acc :
  sm_wf acc → NoDup ((λ ib, br_payload_begin ib.2) <$> l) →
  (∀ t b v, (t, b) ∈ l → (br_payload_begin b, v) ∉ acc) →
  let idx := foldl (λ idx ib, sm_emplace (br_payload_begin ib.2) ib.1 idx) acc l in
  sm_wf idx ∧ ∀ k t, (k, t) ∈ idx ↔ (k, t) ∈ acc ∨ ∃ b, (t, b) ∈ l ∧ br_payload_begin b = k.
Proof.
  revert acc. induction l as [|[t b] l IH]; intros acc Hwf Hnd Hfresh; simpl.
  { split; [done|]. intros. split; [auto|]. intros [?|(?&?%elem_of_nil&_)]; done. }
  apply NoDup_cons in Hnd as [Hn Hnd].
  assert (Hperm : sm_emplace (br_payload_begin b) t acc ≡ₚ (br_payload_begin b, t) :: acc).
  { apply sm_emplace_perm, sm_find_None. intros v. apply (Hfresh t). left. }
  destruct (IH (sm_emplace (br_payload_begin b) t acc)) as [Hwf' Hin']; [by apply sm_wf_emplace|done| |].
  { intros t' b' v Hin. rewrite Hperm. intros [[= Heq ->]|Hv]%elem_of_cons.
    - apply Hn. apply list_elem_of_fmap. by exists (t', b').
    - eapply Hfresh; [by right|done]. }
  split; [done|]. intros k t'. rewrite Hin', Hperm, elem_of_cons. split.
  - intros [[[= -> ->]|?]|(b' & ? & ?)]; [right|by left|right].
    + exists b. split; [left|done].
    + exists b'. split; [by right|done].
  - intros [?|(b' & [[= -> ->]|?]%elem_of_cons & <-)]; [auto..|]. right. by exists b'.
Qed.

Context (Hbs : blocks_sorted).

Lemma begins_NoDup : NoDup ((λ ib, br_payload_begin ib.2) <$> imap pair bs).
Proof.
  apply NoDup_alt. intros i j x. rewrite !list_lookup_fmap, !list_lookup_imap.
  destruct (bs !! i) as [bi|] eqn:Ei, (bs !! j) as [bj|] eqn:Ej; try done. simpl.
  intros [= <-] [= Heq]. destruct (Nat.lt_trichotomy i j) as [?|[?|?]]; [|done|].
  - pose proof (bs_order Hbs _ _ _ _ Ei Ej ltac:(done)). pose proof (bs_range Hbs _ _ Ei). lia.
  - pose proof (bs_order Hbs _ _ _ _ Ej Ei ltac:(done)). pose proof (bs_range Hbs _ _ Ej). lia.
Qed.

Lemma elem_of_imap_pair i b : (i, b) ∈ imap pair bs ↔ bs !! i = Some b.
Proof.
  rewrite elem_of_lookup_imap. split; [intros (? & ? & [= -> ->] & ?); done|eauto].
Qed.

Lemma index_by_begin_spec :
  sm_wf (index_by_begin bs) ∧
  ∀ k t, (k, t) ∈ index_by_begin bs ↔ ∃ b, bs !! t = Some b ∧ br_payload_begin b = k.
Proof.
  destruct (index_foldl (imap pair bs) []) as [Hwf Hin].
  - apply sm_wf_nil.
  - apply begins_NoDup.
  - intros ??? _. by intros ?%elem_of_nil.
  - split; [done|]. intros k t. unfold index_by_begin. rewrite Hin.
    setoid_rewrite elem_of_imap_pair. split; [intros [?%elem_of_nil|]; done|auto].
Qed.

(** The index resolves an address to the block it lies in. *)
Lemma index_pred c j t :
  bs !! j = Some t → br_payload_begin t <= c < br_payload_end t →
  sm_pred c (index_by_begin bs) = Some (br_payload_begin t, j).
Proof.
  intros Hj Hc. destruct index_by_begin_spec as [Hwf Hin].
  apply sm_pred_Some; [done|]. split_and!; [apply Hin; eauto|lia|].
  intros k i (b & Hi & <-)%Hin Hle. destruct (Nat.lt_trichotomy i j) as [?|[->|?]].
  - pose proof (bs_order Hbs _ _ _ _ Hi Hj ltac:(done)). pose proof (bs_range Hbs _ _ Hi). lia.
  - simplify_eq. lia.
  - pose proof (bs_order Hbs _ _ _ _ Hj Hi ltac:(done)). lia.
Qed.

Definition resolves (c : Z) (j : nat) : Prop :=
  ∃ t, bs !! j = Some t ∧ br_payload_begin t <= c < br_payload_end t.

Lemma add_edges_ok P s ws g :
  (s < length bs)%nat → graph_ok P g →
  graph_ok (λ i j, P i j ∨ (i = s ∧ i ≠ j ∧ ∃ c, c ∈ ws ∧ resolves c j))
    (foldl (add_edge bs (index_by_begin bs) s) g ws).
Proof.
  intros Hs. revert P g. induction ws as [|c ws IH]; intros P g Hg; simpl.
  - eapply graph_ok_iff, Hg. intros i j. split; [by left|].
    intros [?|(_ & _ & ? & ?%elem_of_nil & _)]; done.
  - eapply graph_ok_iff; [|apply IH, add_edge_ok; [done|done|]].
    + intros i j. simpl. split.
      * intros [[?|(? & ? & k & t & ? & ? & ?)]|(? & ? & c' & ? & ?)]; [by left|right..].
        -- split_and!; [done..|]. exists c. split; [left|by exists t].
        -- split_and!; [done..|]. exists c'. split; [by right|done].
      * intros [?|(? & ? & c' & [->|Hc]%elem_of_cons & t & ? & ?)]; [by do 2 left| |].
        -- left; right. split_and!; [done..|]. eexists _, t. split; [by apply index_pred|done].
        -- right. split_and!; [done..|]. exists c'. split; [done|by exists t].
    + intros k t Hp. apply sm_pred_elem in Hp. apply index_by_begin_spec in Hp as (b & Hb & _).
      by eapply lookup_lt_Some.
Qed.

Lemma build_graph_ok l P g :
  (∀ i b, (i, b) ∈ l → bs !! i = Some b) → graph_ok P g →
  ∃ g', build_graph m bs (index_by_begin bs) l g = Some g' ∧
    graph_ok (λ i j, P i j ∨ ∃ b, (i, b) ∈ l ∧ i ≠ j ∧ ∃ a,
      a ∈ word_addrs (br_payload_begin b) (br_payload_end b) ∧ resolves (load_word m a) j) g'.
Proof.
  revert P g. induction l as [|[s b] l IH]; intros P g Hl Hg; simpl.
  - exists g. split; [done|]. eapply graph_ok_iff, Hg. intros i j. split; [by left|].
    intros [?|(? & ?%elem_of_nil & _)]; done.
  - assert (Hb : bs !! s = Some b) by (apply Hl; left).
    pose proof (bs_range Hbs _ _ Hb).
    rewrite payload_words_spec by lia.
    edestruct IH as (g' & E & Hg'); [intros; apply Hl; by right| |].
    { apply add_edges_ok, Hg. by eapply lookup_lt_Some. }
    exists g'. split; [exact E|]. eapply graph_ok_iff, Hg'. intros i j. simpl. split.
    + intros [[?|(-> & ? & c & (a & -> & Ha)%list_elem_of_fmap & Hr)]|(b' & ? & ?)];
        [by left|right..].
      * exists b. split; [left|eauto].
      * exists b'. split; [by right|done].
    + intros [?|(b' & [[= -> ->]|Hin]%elem_of_cons & Hij & a & Ha & Hr)]; [by do 2 left|left; right|right].
      * split_and!; [done..|]. exists (load_word m a). split; [|done].
        apply list_elem_of_fmap. eauto.
      * exists b'. eauto.
Qed.

Lemma replicate_total {A} `{Inhabited A} n (x : A) i :
  x = inhabitant → replicate n x !!! i = x.
Proof.
  intros ->. rewrite list_lookup_total_alt. destruct (replicate n inhabitant !! i) eqn:E; [|done].
  by apply lookup_replicate in E as [-> _].
Qed.

Lemma graph_empty : graph_ok (λ _ _, False) (replicate (length bs) [], replicate (length bs) 0%nat).
Proof.
  split; simpl; try (by rewrite length_replicate).
  - intros i. rewrite replicate_total by done. constructor.
  - intros i j. rewrite replicate_total by done. apply elem_of_nil.
  - intros i j. rewrite replicate_total by done. by intros ?%elem_of_nil.
  - intros j Hj. rewrite replicate_total by done. symmetry.
    rewrite (filter_length_ext _ (λ _, False)); [by induction (seq 0 (length bs))|].
    intros x _. rewrite replicate_total by done. apply elem_of_nil.
Qed.

Lemma build_graph_dep :
  ∃ g, build_graph m bs (index_by_begin bs) (imap pair bs)
         (replicate (length bs) [], replicate (length bs) 0%nat) = Some g ∧ graph_ok dep g.
Proof.
  destruct (build_graph_ok (imap pair bs) _ _ ltac:(intros; by apply elem_of_imap_pair) graph_empty)
    as (g & E & Hg).
  exists g. split; [exact E|]. eapply graph_ok_iff, Hg. intros i j. unfold dep, resolves.
  setoid_rewrite elem_of_imap_pair. split; [intros [[]|]; naive_solver|naive_solver].
Qed.
End Spec.

(** ** Kahn's algorithm *)

Lemma pq_push_perm bs i q : pq_push bs i q ≡ₚ i :: q.
Proof.
  induction q as [|j q IH]; simpl; [done|]. case_match; [done|]. rewrite IH. apply Permutation_swap.
Qed.

Lemma release_foldl bs ts ind rd :
  NoDup ts → (∀ t, t ∈ ts → (t < length ind)%nat ∧ (0 < ind !!! t)%nat) →
  ∃ ind' rd', foldl (release bs) (ind, rd) ts = (ind', rd') ∧ length ind' = length ind ∧
    (∀ j, ind' !!! j = (ind !!! j - if decide (j ∈ ts) then 1 else 0)%nat) ∧
    rd' ≡ₚ filter (λ t, ind !!! t = 1%nat) ts ++ rd.
Proof.
  revert ind rd. induction ts as [|t ts IH]; intros ind rd Hnd Hts; simpl.
  { exists ind, rd. split_and!; [done|done| |done]. intros. lia. }
  apply NoDup_cons in Hnd as [Hnt Hnd]. destruct (Hts t ltac:(left)) as [Hlt Hpos].
  destruct (Nat.ltb_spec 0 (ind !!! t)); [|lia].
  rewrite list_lookup_total_insert_eq by done.
  set (ind1 := <[t := (ind !!! t - 1)%nat]> ind) in *.
  assert (Hne : ∀ j, j ≠ t → ind1 !!! j = ind !!! j)
    by (intros; unfold ind1; by rewrite list_lookup_total_insert_ne).
  assert (Heq : ind1 !!! t = (ind !!! t - 1)%nat)
    by (unfold ind1; by rewrite list_lookup_total_insert_eq).
  destruct (IH ind1 (if (ind !!! t - 1 =? 0)%nat then pq_push bs t rd else rd) Hnd)
    as (ind' & rd' & E & Hl & Hi & Hr).
  { intros t' Ht'. rewrite Hne by (intros ->; done). unfold ind1. rewrite length_insert.
    apply Hts. by right. }
  exists ind', rd'. split_and!; [done|by rewrite Hl; unfold ind1; rewrite length_insert| |].
  - intros j. rewrite Hi. destruct (decide (j = t)) as [->|Hj].
    + rewrite Heq, (decide_True _ _ (list_elem_of_here t ts)), decide_False by done. lia.
    + rewrite Hne by done. do 2 case_decide; set_solver.
  - rewrite Hr, filter_cons.
    assert (filter (λ t0, ind1 !!! t0 = 1%nat) ts = filter (λ t0, ind !!! t0 = 1%nat) ts) as ->.
    { apply filter_ext_in. intros x Hx. rewrite Hne; [done|]. intros ->; done. }
    destruct (Nat.eqb_spec (ind !!! t - 1) 0); case_decide; try lia; [|done].
    rewrite pq_push_perm. by rewrite <-Permutation_middle.
Qed.

Lemma before_in {A} (l : list A) i j : before l i j → i ∈ l.
Proof. intros (l1 & l2 & -> & ?). set_solver. Qed.

Lemma before_app {A} (l l' : list A) i j : before l i j → before (l ++ l') i j.
Proof. intros (l1 & l2 & -> & ?). exists l1, (l2 ++ l'). by rewrite <-app_assoc. Qed.

Lemma count_zero n (P : nat → Prop) `{∀ x, Decision (P x)} :
  length (filter P (seq 0 n)) = 0%nat ↔ ∀ i, (i < n)%nat → ¬ P i.
Proof.
  rewrite length_zero_iff_nil. split.
  - intros Hf i Hi HP. assert (i ∈ filter P (seq 0 n)) as Hin; [|by rewrite Hf in Hin; apply elem_of_nil in Hin].
    apply list_elem_of_filter. split; [done|]. apply elem_of_seq. lia.
  - intros Hno. destruct (filter P (seq 0 n)) as [|i l] eqn:E; [done|].
    assert (i ∈ filter P (seq 0 n)) as [HP Hi]%list_elem_of_filter by (rewrite E; left).
    apply elem_of_seq in Hi. destruct (Hno i); [lia|done].
Qed.

Section Kahn.
Context (bs : list BlockRecord) (edges : list (list nat)).
Let n := length bs.
Context (Hnodup : ∀ i, NoDup (edges !!! i)).
Context (Hbound : ∀ i j, j ∈ edges !!! i → (i < n)%nat ∧ (j < n)%nat).
Context (Hirrefl : ∀ i, i ∉ edges !!! i).

(** The state of the loop between two iterations. *)
Record kahn_inv (ready indegree : list nat) (emitted : list bool) (out : list nat) : Prop := {
  ki_indegree : length indegree = n;
  ki_emitted : length emitted = n;
  ki_out : NoDup out ∧ ∀ i, i ∈ out → (i < n)%nat;
  ki_flag : ∀ i, (i < n)%nat → emitted !!! i = true ↔ i ∈ out;
  ki_ready : NoDup ready ∧ ∀ i, i ∈ ready ↔ (i < n)%nat ∧ i ∉ out ∧ indegree !!! i = 0%nat;
  ki_count : ∀ j, (j < n)%nat → j ∉ out →
    indegree !!! j = length (filter (λ i, j ∈ edges !!! i ∧ i ∉ out) (seq 0 n));
  ki_order : ∀ i j, j ∈ edges !!! i → j ∈ out → before out i j;
}.

(** A vertex that has just become ready has not been emitted, and its
    successors all still wait for it. *)
Lemma kahn_targets x rd ind em out t :
  kahn_inv (x :: rd) ind em out → t ∈ edges !!! x →
  (t < n)%nat ∧ t ∉ out ∧ t ≠ x ∧ (0 < ind !!! t)%nat.
Proof.
  intros Hk Ht. destruct (ki_ready _ _ _ _ Hk) as [_ Hr].
  destruct (proj1 (Hr x) ltac:(left)) as (Hx & Hxo & Hx0).
  destruct (Hbound _ _ Ht) as [_ Htn].
  assert (Hto : t ∉ out).
  { intros Hto. by destruct Hxo; eapply before_in, (ki_order _ _ _ _ Hk). }
  split_and!; try done.
  - intros ->. by eapply Hirrefl.
  - rewrite (ki_count _ _ _ _ Hk) by done.
    destruct (length (filter _ _)) eqn:E; [|lia].
    pose proof (proj1 (count_zero _ _) E x Hx). tauto.
Qed.

(** One decrement per successor restores the count of waiting predecessors. *)
Lemma kahn_count x out (ind : list nat) t :
  (x < n)%nat → x ∉ out → (t < n)%nat →
  ind !!! t = length (filter (λ i, t ∈ edges !!! i ∧ i ∉ out) (seq 0 n)) →
  (ind !!! t - if decide (t ∈ edges !!! x) then 1 else 0)%nat =
    length (filter (λ i, t ∈ edges !!! i ∧ i ∉ out ++ [x]) (seq 0 n)).
Proof.
  intros Hx Hxo Ht ->. case_decide as Htx.
  - rewrite (filter_length_one _ (λ i, t ∈ edges !!! i ∧ i ∉ out ++ [x]) _ x); [lia| | | | |].
    + apply NoDup_seq.
    + apply elem_of_seq. lia.
    + done.
    + set_solver.
    + intros i _ Hi. set_solver.
  - rewrite Nat.sub_0_r. apply filter_length_ext. intros i _. set_solver.
Qed.

Lemma kahn_step x rd ind em out :
  kahn_inv (x :: rd) ind em out →
  em !!! x = false ∧
  ∃ ind' rd', foldl (release bs) (ind, rd) (edges !!! x) = (ind', rd') ∧
    kahn_inv rd' ind' (<[x := true]> em) (out ++ [x]).
Proof.
  intros Hk.
  destruct (ki_ready _ _ _ _ Hk) as [Hrnd Hr]. apply NoDup_cons in Hrnd as [Hxrd Hrnd].
  destruct (proj1 (Hr x) ltac:(left)) as (Hx & Hxo & Hx0).
  split. { destruct (em !!! x) eqn:E; [|done]. by apply (ki_flag _ _ _ _ Hk) in E. }
  destruct (release_foldl bs (edges !!! x) ind rd (Hnodup x)) as (ind' & rd' & E & Hl & Hi & Hp).
  { intros t Ht. rewrite (ki_indegree _ _ _ _ Hk).
    by destruct (kahn_targets _ _ _ _ _ _ Hk Ht) as (? & ? & ? & ?). }
  assert (Hrd' : ∀ i, i ∈ rd' ↔ (i ∈ edges !!! x ∧ ind !!! i = 1%nat) ∨ i ∈ rd).
  { intros i. rewrite Hp, elem_of_app, list_elem_of_filter. tauto. }
  exists ind', rd'. split; [exact E|]. split.
  - by rewrite Hl, (ki_indegree _ _ _ _ Hk).
  - by rewrite length_insert, (ki_emitted _ _ _ _ Hk).
  - destruct (ki_out _ _ _ _ Hk). split; [|set_solver].
    apply NoDup_app. split_and!; [done|set_solver|apply NoDup_singleton].
  - intros i Hin. destruct (decide (i = x)) as [->|Hne].
    + rewrite list_lookup_total_insert_eq by (by rewrite (ki_emitted _ _ _ _ Hk)). set_solver.
    + rewrite list_lookup_total_insert_ne, (ki_flag _ _ _ _ Hk) by done. set_solver.
  - split.
    + rewrite Hp. apply NoDup_app. split_and!; [by apply NoDup_filter| |done].
      intros i [Hi1 Hie]%list_elem_of_filter Hird.
      destruct (proj1 (Hr i) ltac:(by right)) as (_ & _ & ?). congruence.
    + intros i. rewrite Hrd', Hi. split.
      * intros [[Hie Hi1]|Hird].
        -- destruct (kahn_targets _ _ _ _ _ _ Hk Hie) as (? & ? & ? & ?).
           rewrite decide_True by done. set_solver by lia.
        -- destruct (proj1 (Hr i) ltac:(by right)) as (? & ? & Hi0). rewrite Hi0.
           split_and!; [done|set_solver|lia].
      * intros (Hin & Hio & Hz). case_decide as Hie.
        -- left. destruct (kahn_targets _ _ _ _ _ _ Hk Hie) as (? & ? & ? & ?). split; [done|lia].
        -- right. assert (i ∈ x :: rd) as [->|]%elem_of_cons; [|set_solver|done].
           apply Hr. split_and!; [done|set_solver|lia].
  - intros j Hj Hjo. rewrite Hi. apply kahn_count; [done|done|done|].
    apply (ki_count _ _ _ _ Hk); set_solver.
  - intros i j Hij [Hjo|Hjx]%elem_of_app.
    + by apply before_app, (ki_order _ _ _ _ Hk).
    + apply list_elem_of_singleton in Hjx as ->.
      exists out, []. split; [done|].
      rewrite (ki_count _ _ _ _ Hk) in Hx0 by done.
      destruct (Hbound _ _ Hij) as [Hin _].
      pose proof (proj1 (count_zero _ _) Hx0 i Hin) as Hno. simpl in Hno.
      destruct (decide (i ∈ out)); tauto.
Qed.

Lemma kahn_spec fuel ready ind em out :
  kahn_inv ready ind em out → (n <= fuel + length out)%nat →
  ∃ ind' em' out', kahn bs edges fuel ready ind em out = Some (em', out') ∧
    kahn_inv [] ind' em' out'.
Proof.
  revert ready ind em out. induction fuel as [|fuel IH]; intros [|x rd] ind em out Hk Hf;
    simpl; try (by exists ind, em, out).
  - exfalso. destruct (ki_ready _ _ _ _ Hk) as [_ Hr].
    destruct (proj1 (Hr x) ltac:(left)) as (Hx & Hxo & _). destruct (ki_out _ _ _ _ Hk) as [Hnd Ho].
    assert (out ++ [x] ⊆+ seq 0 n) as Hs.
    { apply NoDup_submseteq.
      - apply NoDup_app. split_and!; [done|set_solver|apply NoDup_singleton].
      - intros i [Hi| ->%list_elem_of_singleton]%elem_of_app; apply elem_of_seq; [|lia].
        pose proof (Ho i Hi). lia. }
    apply submseteq_length in Hs. rewrite length_app, length_seq in Hs. simpl in Hs. lia.
  - destruct (kahn_step _ _ _ _ _ Hk) as (-> & ind' & rd' & E & Hk'). rewrite E.
    apply (IH _ _ _ _ Hk'). rewrite length_app. simpl. lia.
Qed.
End Kahn.

(** ** The finalization order *)

Lemma initial_ready_perm bs (indegree : list nat) l q :
  foldl (λ q i, if (indegree !!! i =? 0)%nat then pq_push bs i q else q) q l ≡ₚ
  filter (λ i, indegree !!! i = 0%nat) l ++ q.
Proof.
  revert q. induction l as [|i l IH]; intros q; simpl; [done|].
  rewrite IH, filter_cons. destruct (Nat.eqb_spec (indegree !!! i) 0); case_decide; try done.
  rewrite pq_push_perm. by rewrite <-Permutation_middle.
Qed.

Section OrderSpec.
Context (m : memory) (bs : list BlockRecord) (Hbs : blocks_sorted bs).
Let n := length bs.

Lemma dep_bound i j : dep m bs i j → (i < n)%nat ∧ (j < n)%nat ∧ i ≠ j.
Proof.
  intros (bi & bj & a & Hi & Hj & Hne & _). split_and!; [|by eapply lookup_lt_Some|done].
  by eapply lookup_lt_Some.
Qed.

Lemma kahn_inv_init edges indegree ready :
  graph_ok bs (dep m bs) (edges, indegree) →
  ready ≡ₚ filter (λ i, indegree !!! i = 0%nat) (seq 0 n) →
  kahn_inv bs edges ready indegree (replicate n false) [].
Proof.
  intros [Hl1 Hl2 Hnd He Hb Hc] Hp. simpl in *. split; try done.
  - by rewrite length_replicate.
  - split; [constructor|]. by intros i ?%elem_of_nil.
  - intros i Hi. rewrite list_lookup_total_alt, lookup_replicate_2 by done. simpl.
    split; [done|]. by intros ?%elem_of_nil.
  - split; [rewrite Hp; apply NoDup_filter, NoDup_seq|].
    intros i. rewrite Hp, list_elem_of_filter, elem_of_seq. fold n.
    split; [|intuition lia]. intros [? ?]. split_and!; [lia| |done]. apply not_elem_of_nil.
  - intros j Hj _. rewrite (Hc j Hj). apply filter_length_ext. intros i _.
    split; [|tauto]. intros ?. split; [done|]. apply not_elem_of_nil.
  - by intros i j _ ?%elem_of_nil.
Qed.

(** When the queue is empty every vertex not emitted waits for one that was
    not emitted either: it is on a cycle or behind one. *)
Lemma kahn_emitted edges ind em out j :
  (∀ i j, j ∈ edges !!! i ↔ dep m bs i j) → kahn_inv bs edges [] ind em out →
  Acc (dep m bs) j → (j < n)%nat → j ∈ out.
Proof.
  intros He Hk. induction 1 as [j _ IH]. intros Hj.
  destruct (decide (j ∈ out)) as [|Hjo]; [done|exfalso].
  destruct (ki_ready _ _ _ _ _ _ Hk) as [_ Hr].
  assert (ind !!! j = 0%nat) as Hz.
  { rewrite (ki_count _ _ _ _ _ _ Hk) by done. apply count_zero. intros i Hi [Hij Hio].
    apply Hio, IH; [by apply He|done]. }
  by eapply not_elem_of_nil, Hr.
Qed.

Lemma order_indices_spec :
  ∃ ord, order_indices m bs = Some ord ∧ ord ≡ₚ seq 0 n ∧
    ∀ i j, dep m bs i j → Acc (dep m bs) j → before ord i j.
Proof.
  destruct (build_graph_dep m bs Hbs) as ([edges indegree] & Eg & Hg).
  set (ready := foldl (λ q i, if (indegree !!! i =? 0)%nat then pq_push bs i q else q) [] (seq 0 n)).
  assert (Hready : ready ≡ₚ filter (λ i, indegree !!! i = 0%nat) (seq 0 n)).
  { unfold ready. by rewrite initial_ready_perm, app_nil_r. }
  pose proof (kahn_inv_init _ _ _ Hg Hready) as Hk0.
  pose proof (go_edge _ _ _ Hg) as He. simpl in He.
  destruct (kahn_spec bs edges) with (fuel := n) (ready := ready) (ind := indegree)
    (em := replicate n false) (out := @nil nat) as (ind' & em & out & Ek & Hk).
  { apply (go_nodup _ _ _ Hg). }
  { apply (go_bound _ _ _ Hg). }
  { intros i Hi%He. by apply dep_bound in Hi as (_ & _ & ?). }
  { done. }
  { simpl. lia. }
  destruct (ki_out _ _ _ _ _ _ Hk) as [Hnd Hlt].
  exists (out ++ filter (λ i, em !!! i = false) (reverse (seq 0 n))). split_and!.
  - unfold order_indices. cbv zeta. rewrite Eg. fold n. fold ready. by rewrite Ek.
  - assert (filter (λ i, em !!! i = false) (reverse (seq 0 n)) ≡ₚ
            filter (λ i, i ∉ out) (seq 0 n)) as ->.
    { rewrite reverse_Permutation. rewrite (filter_ext_in (λ i, em !!! i = false) (λ i, i ∉ out)); [done|].
      intros i Hi%elem_of_seq. rewrite <-(ki_flag _ _ _ _ _ _ Hk) by (fold n; lia).
      by destruct (em !!! i). }
    apply NoDup_Permutation; [|apply NoDup_seq|].
    + apply NoDup_app. split_and!; [done| |apply NoDup_filter, NoDup_seq].
      intros i Hi [? _]%list_elem_of_filter. done.
    + intros i. rewrite elem_of_app, list_elem_of_filter, elem_of_seq. split.
      * intros [Hi%Hlt|[_ ?]]; [fold n in Hi; lia|lia].
      * intros ?. destruct (decide (i ∈ out)); [by left|right]. split; [done|lia].
  - intros i j Hij Hacc. apply before_app, (ki_order _ _ _ _ _ _ Hk); [by apply He|].
    eapply kahn_emitted; [done..|]. by apply dep_bound in Hij as (_ & ? & _).
Qed.

Lemma header_of_seq : header_of bs <$> seq 0 n = br_header <$> bs.
Proof.
  unfold n, header_of. clear. induction bs as [|b l IH]; [done|]. csimpl.
  f_equal. rewrite <-IH, <-(fmap_S_seq 0), <-list_fmap_compose. by apply list_fmap_ext.
Qed.

Lemma order_blocks_spec :
  ∃ ord, order_blocks_for_finalization_locked m bs = Some (header_of bs <$> ord) ∧
    ord ≡ₚ seq 0 n ∧ ∀ i j, dep m bs i j → Acc (dep m bs) j → before ord i j.
Proof.
  unfold order_blocks_for_finalization_locked. fold n. destruct (Nat.leb_spec n 1).
  - exists (seq 0 n). rewrite header_of_seq. split_and!; [done..|].
    intros i j Hij. apply dep_bound in Hij. lia.
  - destruct order_indices_spec as (ord & -> & ? & ?). by exists ord.
Qed.

Lemma order_blocks_perm :
  ∃ hs, order_blocks_for_finalization_locked m bs = Some hs ∧ hs ≡ₚ br_header <$> bs.
Proof.
  destruct order_blocks_spec as (ord & E & Hp & _). eexists. split; [done|].
  by rewrite Hp, header_of_seq.
Qed.
End OrderSpec.
