(* ===== verification/WeakRefs.v ===== *)
(** * The weak-reference table

    The bodies of [register_weak_ref], [read_weak_ref], [unregister_weak_ref],
    [copy_weak_ref], [update_weak_ref] and
    [invalidate_weak_refs_for_block_locked] of src/src/GCManager.cpp, run while
    the mutex is held, and the encoding of src/include/gc/gc_weak_ptr.hpp.

    [weak_ok] ties the table to memory: every entry owns its handle word, which
    holds the encoded target.  Together with [Heap.wf_weak] it says that a weak
    handle never reads back a reclaimed address. *)

From S2P Require Import Prelude Words Memory OrdMap Chunk Manager Heap.

(** ** The encoding of handle words *)

Definition encode_weak_ptr (ptr : Z) : Z := if ptr =? 0 then 0 else wrap64 (0 - ptr).
Definition decode_weak_ptr (encoded : Z) : Z := if encoded =? 0 then 0 else wrap64 (0 - encoded).

(** ** Operations *)

Abbreviation weak_refs w := (weak_refs_ (mgr w)).

Definition push_weak_ref (e : WeakRefEntry) : M World unit :=
  native_alloc;; modify (set_mgr (set_weak_refs (λ l, l ++ [e]))).

Definition register_weak_ref (target storage : Z) : M World unit :=
  if storage =? 0 then mret tt
  else
    w ← get;
    match find_block_locked (allocations w) target with
    | None => write_word storage 0
    | Some _ => push_weak_ref {| we_target := target; we_storage := storage |}
    end.

(** The first entry registered for [storage], with its position. *)
Definition find_weak (storage : Z) (l : list WeakRefEntry) : option (nat * WeakRefEntry) :=
  list_find (λ e, we_storage e = storage) l.

Definition read_weak_ref (storage : Z) : M World Z :=
  w ← get;
  match find_weak storage (weak_refs w) with
  | Some (_, e) => mret (we_target e)
  | None => mret 0
  end.

(** [*it = back(); pop_back();] *)
Definition swap_pop {A} (i : nat) (l : list A) : list A :=
  match last l with
  | Some b => take (length l - 1) (<[i := b]> l)
  | None => l
  end.

Definition unregister_weak_ref (storage : Z) : M World unit :=
  w ← get;
  match find_weak storage (weak_refs w) with
  | Some (i, _) => modify (set_mgr (set_weak_refs (swap_pop i)))
  | None => mret tt
  end.

Definition copy_weak_ref (old_storage new_storage : Z) : M World unit :=
  w ← get;
  match find_weak old_storage (weak_refs w) with
  | Some (_, e) =>
      let encoded := load_word (mem w) old_storage in
      push_weak_ref {| we_target := we_target e; we_storage := new_storage |};;
      write_word new_storage encoded
  | None => write_word new_storage 0
  end.

Definition update_weak_ref (old_storage new_storage : Z) : M World unit :=
  w ← get;
  match find_weak old_storage (weak_refs w) with
  | Some (i, e) =>
      write_word new_storage (load_word (mem w) old_storage);;
      write_word old_storage 0;;
      modify (set_mgr (set_weak_refs
        <[i := {| we_target := we_target e; we_storage := new_storage |}]>))
  | None => write_word new_storage 0
  end.

Definition weak_hits (pb pe : Z) (e : WeakRefEntry) : bool :=
  (pb <=? we_target e) && (we_target e <? pe).

(** [remove_if] with the predicate that clears the word of each removed entry. *)
Definition invalidate_weak_refs_for_block_locked (pb pe : Z) : M World unit :=
  w ← get;
  foldM (λ e _, when (weak_hits pb pe e) (write_word (we_storage e) 0)) (weak_refs w) tt;;
  modify (set_mgr (set_weak_refs (filter (λ e, weak_hits pb pe e = false)))).

(** ** The encoding is a bijection that keeps null and leaves the heap *)

Lemma encode_size p : is_size (encode_weak_ptr p).
Proof.
  unfold encode_weak_ptr. destruct (p =? 0); [unfold is_size, SIZE_MAX; lia|apply wrap64_bound].
Qed.

Lemma wrap64_opp p : 0 < p <= SIZE_MAX → wrap64 (0 - p) = 2 ^ 64 - p.
Proof.
  unfold SIZE_MAX, wrap64. intros. symmetry. apply (Zmod_unique _ _ (-1)); lia.
Qed.

Lemma decode_encode p : is_size p → decode_weak_ptr (encode_weak_ptr p) = p.
Proof.
  unfold is_size. intros Hp. unfold encode_weak_ptr. destruct (Z.eqb_spec p 0) as [->|]; [done|].
  rewrite wrap64_opp by lia. unfold decode_weak_ptr, SIZE_MAX in *.
  destruct (Z.eqb_spec (2 ^ 64 - p) 0); [lia|]. rewrite wrap64_opp by (unfold SIZE_MAX; lia). lia.
Qed.

Lemma encode_zero p : is_size p → encode_weak_ptr p = 0 ↔ p = 0.
Proof.
  intros Hp. split; [|by intros ->]. intros He. by rewrite <-(decode_encode p Hp), He.
Qed.

(** An encoded word never resolves to a block of the lower half of the address
    space, where user heaps live: a weak handle is not a strong root. *)
Lemma encode_not_in_heap w p :
  heap_wf w → (∀ k b, (k, b) ∈ allocations w → br_payload_end b <= 2 ^ 63) →
  0 < p <= 2 ^ 63 → find_block_locked (allocations w) (encode_weak_ptr p) = None.
Proof.
  intros Hwf Hlow Hp. destruct (find_block_locked _ _) as [[k b]|] eqn:E; [exfalso|done].
  apply (find_block_spec w Hwf) in E as [Hin Hr]. pose proof (Hlow _ _ Hin).
  unfold encode_weak_ptr in Hr. destruct (Z.eqb_spec p 0); [lia|].
  rewrite wrap64_opp in Hr by (unfold SIZE_MAX; lia). lia.
Qed.

(** ** Lists *)

Lemma swap_pop_perm {A} (l : list A) i x : l !! i = Some x → x :: swap_pop i l ≡ₚ l.
Proof.
  intros Hi. unfold swap_pop. destruct (last l) as [b|] eqn:E.
  2:{ apply last_None in E. by subst. }
  apply last_Some in E as [l' ->]. rewrite length_app. simpl. rewrite Nat.add_sub.
  destruct (decide (i < length l')%nat).
  - rewrite lookup_app_l in Hi by done. rewrite insert_app_l by done.
    rewrite take_app_length' by by rewrite length_insert.
    destruct (list_elem_of_split_length _ _ _ Hi) as (l1 & l2 & -> & ->).
    rewrite insert_app_r_alt, Nat.sub_diag by done. simpl.
    rewrite (Permutation_app_comm _ [b]). simpl. rewrite <-!Permutation_middle.
    apply Permutation_swap.
  - apply lookup_lt_Some in Hi as Hlt. rewrite length_app in Hlt. simpl in Hlt.
    assert (i = length l') as -> by lia. rewrite list_lookup_middle in Hi by done. simplify_eq.
    rewrite insert_app_r_alt, Nat.sub_diag by done. simpl.
    rewrite take_app_length. by rewrite Permutation_app_comm.
Qed.

Lemma find_weak_Some storage l i e :
  find_weak storage l = Some (i, e) → l !! i = Some e ∧ we_storage e = storage.
Proof. unfold find_weak. rewrite list_find_Some. tauto. Qed.

Lemma find_weak_None storage l : find_weak storage l = None ↔ ∀ e, e ∈ l → we_storage e ≠ storage.
Proof. unfold find_weak. rewrite list_find_None, Forall_forall. done. Qed.

(** ** Invalidation *)

(** The memory after clearing the words of the hit entries, in table order. *)
Definition clear_words (l : list WeakRefEntry) (m : memory) : memory :=
  foldl (λ m e, store_word m (we_storage e) 0) m l.

Lemma invalidate_spec pb pe w :
  invalidate_weak_refs_for_block_locked pb pe w =
  Ret tt (set_mgr (set_weak_refs (filter (λ e, weak_hits pb pe e = false)))
    (set_mem (clear_words (filter (λ e, weak_hits pb pe e = true) (weak_refs w))) w)).
Proof.
  unfold invalidate_weak_refs_for_block_locked.
  assert (∀ l w, foldM (λ e _, when (weak_hits pb pe e) (write_word (we_storage e) 0)) l tt w =
    Ret tt (set_mem (clear_words (filter (λ e, weak_hits pb pe e = true) l)) w)) as H.
  { clear w. induction l as [|e l IH]; intros w; [by destruct w|].
    destruct (weak_hits pb pe e) eqn:E; simpl; rewrite E; simpl;
      unfold mbind, M_bind, write_word, modify; (etrans; [apply IH|]).
    - by rewrite filter_cons_True by done.
    - by rewrite filter_cons_False by congruence. }
  unfold mbind, M_bind, get, modify. by rewrite H.
Qed.

Lemma clear_words_out l m a :
  (∀ e, e ∈ l → we_storage e + word_size <= a ∨ a + word_size <= we_storage e) →
  load_word (clear_words l m) a = load_word m a.
Proof.
  revert m. induction l as [|e l IH]; intros m Hl; simpl; [done|].
  unfold clear_words in *. simpl. rewrite IH by (intros; apply Hl; by right).
  apply load_store_word_disjoint. destruct (Hl e ltac:(left)); unfold word_size in *; lia.
Qed.

Lemma clear_words_in l m e :
  (∀ e', e' ∈ l → we_storage e' = we_storage e ∨
    we_storage e' + word_size <= we_storage e ∨ we_storage e + word_size <= we_storage e') →
  e ∈ l → load_word (clear_words l m) (we_storage e) = 0.
Proof.
  intros Hdis Hin. revert m Hdis. induction l as [|e' l IH] using rev_ind; intros m Hdis;
    [by apply elem_of_nil in Hin|].
  unfold clear_words. rewrite foldl_app. simpl. fold (clear_words l m).
  assert (H0 : is_size 0) by (unfold is_size, SIZE_MAX; lia).
  destruct (Hdis e') as [Heq|Hd]; [set_solver| |].
  - rewrite <-Heq. by apply load_store_word_eq.
  - rewrite load_store_word_disjoint by (unfold word_size in *; lia). apply IH.
    + apply elem_of_app in Hin as [| ->%list_elem_of_singleton]; [done|]. unfold word_size in *; lia.
    + intros. apply Hdis. set_solver.
Qed.

(** ** The table and the handle words *)

(** The words of two handles are the same word or do not overlap; every entry's
    word holds its encoded target; no two entries share a word. *)
Record weak_ok (w : World) : Prop := {
  wo_nodup : NoDup (we_storage <$> weak_refs w);
  wo_apart : ∀ e e', e ∈ weak_refs w → e' ∈ weak_refs w → we_storage e = we_storage e' ∨
    we_storage e + word_size <= we_storage e' ∨ we_storage e' + word_size <= we_storage e;
  wo_word : ∀ e, e ∈ weak_refs w →
    load_word (mem w) (we_storage e) = encode_weak_ptr (we_target e);
}.

(** A fresh handle word: it overlaps no registered one. *)
Definition fresh_word (w : World) (storage : Z) : Prop :=
  ∀ e, e ∈ weak_refs w →
    we_storage e + word_size <= storage ∨ storage + word_size <= we_storage e.

Lemma weak_unique w e e' :
  weak_ok w → e ∈ weak_refs w → e' ∈ weak_refs w → we_storage e = we_storage e' → e = e'.
Proof.
  intros Hok [i Hi]%list_elem_of_lookup [j Hj]%list_elem_of_lookup Heq.
  assert (i = j) as ->; [|congruence].
  eapply (NoDup_lookup _ _ _ (we_storage e) (wo_nodup _ Hok)); rewrite list_lookup_fmap.
  - by rewrite Hi.
  - rewrite Hj. simpl. congruence.
Qed.

Lemma read_weak_ref_entry w e :
  weak_ok w → e ∈ weak_refs w → read_weak_ref (we_storage e) w = Ret (we_target e) w.
Proof.
  intros Hok Hin. unfold read_weak_ref, mbind, M_bind, get.
  destruct (find_weak _ _) as [[i e']|] eqn:E.
  - apply find_weak_Some in E as [Hi Heq].
    by rewrite (weak_unique w e e' Hok Hin (list_elem_of_lookup_2 _ _ _ Hi) (eq_sym Heq)).
  - exfalso. by eapply find_weak_None in E.
Qed.

Lemma read_weak_ref_absent w storage :
  (∀ e, e ∈ weak_refs w → we_storage e ≠ storage) → read_weak_ref storage w = Ret 0 w.
Proof.
  intros Hno. unfold read_weak_ref, mbind, M_bind, get.
  by rewrite (proj2 (find_weak_None _ _) Hno).
Qed.

(** What a read returns is null or an address inside a live block. *)
Lemma read_weak_ref_live w storage :
  heap_wf w → ∃ t, read_weak_ref storage w = Ret t w ∧ (t = 0 ∨ points_into (allocations w) t).
Proof.
  intros Hwf. unfold read_weak_ref, mbind, M_bind, get.
  destruct (find_weak _ _) as [[i e]|] eqn:E; [|by exists 0; auto].
  exists (we_target e). split; [done|]. right. apply (wf_weak _ Hwf).
  apply find_weak_Some in E as [Hi _]. by eapply list_elem_of_lookup_2.
Qed.

(** ** Preservation of the heap invariant *)

(** Operations that touch only the weak table and memory. *)
Lemma heap_wf_weak w l m :
  heap_wf w → (∀ e, e ∈ l → points_into (allocations w) (we_target e)) →
  heap_wf (set_mgr (set_weak_refs (λ _, l)) (set_mem (λ _, m) w)).
Proof. intros [] Hl. split; try done. intros k b Hin. apply (block_ok_ext w); auto. Qed.

Lemma set_weak_const (f : list WeakRefEntry → list WeakRefEntry) (g : memory → memory) w :
  set_mgr (set_weak_refs f) (set_mem g w) =
  set_mgr (set_weak_refs (λ _, f (weak_refs w))) (set_mem (λ _, g (mem w)) w).
Proof. done. Qed.

(** ** The table invariant is preserved *)

Definition with_table (l : list WeakRefEntry) (m : memory) (w : World) : World :=
  set_mgr (set_weak_refs (λ _, l)) (set_mem (λ _, m) w).

(** Fewer entries, same words. *)
Lemma weak_ok_sub w w' :
  weak_ok w → weak_refs w' `sublist_of` weak_refs w →
  (∀ e, e ∈ weak_refs w' → load_word (mem w') (we_storage e) = load_word (mem w) (we_storage e)) →
  weak_ok w'.
Proof.
  intros Hok Hsub Hm.
  assert (Hin : ∀ e, e ∈ weak_refs w' → e ∈ weak_refs w).
  { intros e He. by eapply elem_of_sublist. }
  split.
  - apply NoDup_fmap_2_strong.
    + intros e e' He He' Heq. apply (weak_unique w); auto.
    + eapply sublist_NoDup, Hsub. eapply NoDup_fmap_1, wo_nodup, Hok.
  - intros e e' He He'. apply (wo_apart _ Hok); auto.
  - intros e He. rewrite Hm by done. apply (wo_word _ Hok). auto.
Qed.

Lemma weak_ok_perm w l :
  weak_ok w → l ≡ₚ weak_refs w → weak_ok (with_table l (mem w) w).
Proof.
  intros [Hnd Hap Hw] Hp. split; simpl.
  - by rewrite Hp.
  - intros e e'. rewrite Hp. auto.
  - intros e. rewrite Hp. auto.
Qed.

(** Adding an entry for a fresh word that already holds its target. *)
Lemma weak_ok_add w e :
  weak_ok w → fresh_word w (we_storage e) →
  load_word (mem w) (we_storage e) = encode_weak_ptr (we_target e) →
  weak_ok (with_table (e :: weak_refs w) (mem w) w).
Proof.
  intros [Hnd Hap Hw] Hf He. unfold fresh_word, word_size in *. split; simpl; csimpl.
  - constructor; [|done]. intros (e' & Heq & Hin)%list_elem_of_fmap.
    destruct (Hf e' Hin); lia.
  - intros e1 e2 [->|H1]%elem_of_cons [->|H2]%elem_of_cons; [by left| | |by apply Hap].
    + right. destruct (Hf e2 H2); unfold word_size in *; lia.
    + right. destruct (Hf e1 H1); unfold word_size in *; lia.
  - intros e' [->|H']%elem_of_cons; [done|auto].
Qed.

(** Writing a word that no entry owns. *)
Lemma weak_ok_write w s v :
  weak_ok w → fresh_word w s → weak_ok (with_table (weak_refs w) (store_word (mem w) s v) w).
Proof.
  intros Hok Hf. eapply (weak_ok_sub w); [done|done|]. intros e He. simpl.
  apply load_store_word_disjoint. destruct (Hf e He); unfold word_size in *; lia.
Qed.

(** Clearing the words of some entries keeps the words of the others. *)
Lemma clear_words_kept w dead e :
  weak_ok w → (∀ e', e' ∈ dead → e' ∈ weak_refs w) → e ∈ weak_refs w → e ∉ dead →
  load_word (clear_words dead (mem w)) (we_storage e) = load_word (mem w) (we_storage e).
Proof.
  intros Hok Hd Hin Hn. apply clear_words_out. intros e' He'.
  destruct (wo_apart _ Hok e' e (Hd _ He') Hin) as [Heq|?]; [|done].
  by rewrite (weak_unique w e e' Hok Hin (Hd _ He') (eq_sym Heq)) in Hn.
Qed.

Lemma clear_words_dead w dead e :
  weak_ok w → (∀ e', e' ∈ dead → e' ∈ weak_refs w) → e ∈ dead →
  load_word (clear_words dead (mem w)) (we_storage e) = 0.
Proof.
  intros Hok Hd Hin. apply clear_words_in; [|done]. intros e' He'.
  destruct (wo_apart _ Hok e' e (Hd _ He') (Hd _ Hin)) as [?|[?|?]]; auto.
Qed.

(** ** What each operation does to a well-formed table *)

Definition table_ok (w : World) : Prop := heap_wf w ∧ weak_ok w.

Section Ops.
Context (w : World) (Hwf : heap_wf w) (Hok : weak_ok w).

Lemma find_weak_entry e :
  e ∈ weak_refs w → ∃ i, find_weak (we_storage e) (weak_refs w) = Some (i, e).
Proof.
  intros Hin. destruct (find_weak _ _) as [[i e']|] eqn:E.
  - exists i. apply find_weak_Some in E as [Hi Heq].
    by rewrite (weak_unique w e e' Hok Hin (list_elem_of_lookup_2 _ _ _ Hi) (eq_sym Heq)).
  - exfalso. by eapply find_weak_None in E.
Qed.

(** Registration of a handle whose word is written. *)
Lemma register_weak_ref_live t s :
  s ≠ 0 → points_into (allocations w) t → oom w = [] →
  register_weak_ref t s w = Ret tt
    (with_table (weak_refs w ++ [{| we_target := t; we_storage := s |}]) (mem w) w).
Proof.
  intros Hs Ht Ho. unfold register_weak_ref. destruct (Z.eqb_spec s 0); [done|].
  rewrite M_bind_get. apply (find_block_points_into w Hwf) in Ht as [kb ->].
  unfold push_weak_ref, native_alloc, mbind, M_bind. rewrite Ho. by destruct w.
Qed.

Lemma register_weak_ref_dead t s :
  s ≠ 0 → ¬ points_into (allocations w) t →
  register_weak_ref t s w = Ret tt (with_table (weak_refs w) (store_word (mem w) s 0) w).
Proof.
  intros Hs Ht. unfold register_weak_ref. destruct (Z.eqb_spec s 0); [done|].
  rewrite M_bind_get. destruct (find_block_locked _ t) as [kb|] eqn:E; [|by destruct w as [[]]].
  exfalso. apply Ht, (find_block_points_into w Hwf). eauto.
Qed.

Lemma registered_ok t s :
  fresh_word w s → points_into (allocations w) t → load_word (mem w) s = encode_weak_ptr t →
  table_ok (with_table (weak_refs w ++ [{| we_target := t; we_storage := s |}]) (mem w) w).
Proof.
  intros Hf Ht Hw. split.
  - apply heap_wf_weak; [done|]. intros e [?| ->%list_elem_of_singleton]%elem_of_app; [by apply (wf_weak _ Hwf)|done].
  - set (e := {| we_target := t; we_storage := s |}).
    assert (weak_ok (with_table (e :: weak_refs w) (mem w) w)) as H by by apply weak_ok_add.
    apply (weak_ok_perm _ (weak_refs w ++ [e]) H). simpl. by rewrite (Permutation_app_comm _ [e]).
Qed.

Lemma unregister_weak_ref_entry e :
  e ∈ weak_refs w → ∃ l, unregister_weak_ref (we_storage e) w = Ret tt (with_table l (mem w) w) ∧
    e :: l ≡ₚ weak_refs w.
Proof.
  intros Hin. destruct (find_weak_entry e Hin) as [i E]. unfold unregister_weak_ref.
  rewrite M_bind_get, E. exists (swap_pop i (weak_refs w)). split; [by destruct w|].
  apply swap_pop_perm. by apply find_weak_Some in E as [Hi _].
Qed.

Lemma unregistered_ok e l : e :: l ≡ₚ weak_refs w → table_ok (with_table l (mem w) w).
Proof.
  intros Hp. split.
  - apply heap_wf_weak; [done|]. intros e' He'. apply (wf_weak _ Hwf). rewrite <-Hp. by right.
  - destruct (weak_ok_perm w (e :: l) Hok Hp) as [Hnd Hap Hw]. simpl in *. csimpl in *.
    apply NoDup_cons in Hnd as [_ Hnd]. split; simpl; [done|..].
    + intros e1 e2 H1 H2. apply Hap; by right.
    + intros e1 H1. apply Hw. by right.
Qed.

(** Copying makes a second entry for the same target. *)
Lemma copy_weak_ref_entry e s :
  e ∈ weak_refs w → fresh_word w s → oom w = [] →
  copy_weak_ref (we_storage e) s w = Ret tt
    (with_table (weak_refs w ++ [{| we_target := we_target e; we_storage := s |}])
       (store_word (mem w) s (encode_weak_ptr (we_target e))) w).
Proof.
  intros Hin Hf Ho. destruct (find_weak_entry e Hin) as [i E]. unfold copy_weak_ref.
  rewrite M_bind_get, E, (wo_word w Hok e Hin). unfold push_weak_ref, native_alloc, mbind, M_bind.
  rewrite Ho. by destruct w.
Qed.

Lemma copied_ok e s :
  e ∈ weak_refs w → fresh_word w s →
  table_ok (with_table (weak_refs w ++ [{| we_target := we_target e; we_storage := s |}])
    (store_word (mem w) s (encode_weak_ptr (we_target e))) w).
Proof.
  intros Hin Hf. set (w1 := with_table (weak_refs w) (store_word (mem w) s (encode_weak_ptr (we_target e))) w).
  assert (heap_wf w1) as Hwf1 by (apply heap_wf_weak; [done|apply (wf_weak _ Hwf)]).
  assert (weak_ok w1) as Hok1 by by apply weak_ok_write.
  split; [apply heap_wf_weak; [done|]|].
  - intros e' [?| ->%list_elem_of_singleton]%elem_of_app; [by apply (wf_weak _ Hwf)|by apply (wf_weak _ Hwf e)].
  - set (e' := {| we_target := we_target e; we_storage := s |}).
    assert (weak_ok (with_table (e' :: weak_refs w1) (mem w1) w1)) as H.
    { apply weak_ok_add; [done|exact Hf|]. apply load_store_word_eq, encode_size. }
    apply (weak_ok_perm _ (weak_refs w ++ [e']) H). simpl. by rewrite (Permutation_app_comm _ [e']).
Qed.

(** Moving hands the entry over to the new word and clears the old one. *)
Lemma update_weak_ref_entry e s :
  e ∈ weak_refs w → ∃ l, update_weak_ref (we_storage e) s w = Ret tt
      (with_table l (store_word (store_word (mem w) s (encode_weak_ptr (we_target e))) (we_storage e) 0) w) ∧
    ∃ l0, e :: l0 ≡ₚ weak_refs w ∧ l ≡ₚ {| we_target := we_target e; we_storage := s |} :: l0.
Proof.
  intros Hin. destruct (find_weak_entry e Hin) as [i E]. pose proof E as [Hi _]%find_weak_Some.
  unfold update_weak_ref. rewrite M_bind_get, E, (wo_word w Hok e Hin).
  exists (<[i := {| we_target := we_target e; we_storage := s |}]> (weak_refs w)). split; [done|].
  destruct (list_elem_of_split_length _ _ _ Hi) as (l1 & l2 & -> & ->).
  exists (l1 ++ l2). split; [apply Permutation_middle|].
  rewrite insert_app_r_alt, Nat.sub_diag by done. simpl. by rewrite <-Permutation_middle.
Qed.

Lemma updated_ok e s l l0 :
  e ∈ weak_refs w → fresh_word w s → e :: l0 ≡ₚ weak_refs w →
  l ≡ₚ {| we_target := we_target e; we_storage := s |} :: l0 →
  table_ok (with_table l (store_word (store_word (mem w) s (encode_weak_ptr (we_target e))) (we_storage e) 0) w).
Proof.
  intros Hin Hf Hp Hl. destruct (unregistered_ok e l0 Hp) as [Hwf0 Hok0].
  set (m := store_word (store_word (mem w) s (encode_weak_ptr (we_target e))) (we_storage e) 0).
  set (e' := {| we_target := we_target e; we_storage := s |}).
  assert (Hl0 : ∀ x, x ∈ l0 → x ∈ weak_refs w) by (intros x Hx; rewrite <-Hp; by right).
  assert (Hfe : fresh_word (with_table l0 (mem w) w) (we_storage e)).
  { intros x Hx. simpl in Hx. pose proof (wo_nodup w Hok) as Hnd. rewrite <-Hp in Hnd. csimpl in Hnd.
    apply NoDup_cons in Hnd as [Hnd _].
    destruct (wo_apart w Hok x e (Hl0 x Hx) Hin) as [Heq|[?|?]]; [|by left|by right].
    exfalso. apply Hnd. rewrite <-Heq. by apply list_elem_of_fmap_2. }
  assert (Hfs : fresh_word (with_table l0 (mem w) w) s) by (intros x Hx; apply Hf; auto).
  split; [apply heap_wf_weak; [done|]|].
  - intros x. rewrite Hl. intros [->|Hx]%elem_of_cons; simpl; apply (wf_weak _ Hwf); auto.
  - set (w1 := with_table l0 m w).
    assert (weak_ok w1) as Hok1.
    { apply (weak_ok_sub (with_table l0 (mem w) w)); [done|done|]. intros x Hx. simpl. unfold m.
      rewrite !load_store_word_disjoint; [done|..].
      - destruct (Hfs x Hx); unfold word_size in *; lia.
      - destruct (Hfe x Hx); unfold word_size in *; lia. }
    apply (weak_ok_perm (with_table (e' :: l0) m w) l); [|done].
    apply (weak_ok_add w1 e' Hok1); [exact Hfs|]. simpl. unfold m.
    rewrite load_store_word_disjoint; [apply load_store_word_eq, encode_size|].
    destruct (Hf e Hin); unfold word_size in *; lia.
Qed.
End Ops.
