(* ===== verification/Sweep.v ===== *)
(** * The sweep

    [sweep_locked] and [detach_all_blocks_locked] of src/src/GCManager.cpp:
    unmarked blocks leave the registry, the weak entries that point into them
    are dropped and their handle words cleared, the byte counters shrink by the
    sizes reclaimed, and the surviving blocks come out unmarked.  Every
    allocation that may throw happens before the first block is detached. *)

From S2P Require Import Prelude Words Memory OrdMap Chunk Manager Heap Scanner Mark Finalize WeakRefs.

Definition run_order (bs : list BlockRecord) : M World (list Z) := λ w,
  match order_blocks_for_finalization_locked (mem w) bs with
  | Some ordered => Ret ordered w
  | None => Stuck Out_of_fuel
  end.

(** The ordering may throw while it allocates; it has no other effect. *)
Definition order_blocks (bs : list BlockRecord) : M World (list Z) :=
  native_alloc;; run_order bs.

Definition collect_unmarked : M World (list BlockRecord) :=
  w ← get;
  foldM (λ kb acc, h ← read_header (br_header kb.2);
                   mret (if is_marked h then acc else acc ++ [kb.2])) (allocations w) [].

(** One turn of the sweep loop, at the map node [kb]. *)
Definition sweep_entry (kb : Z * BlockRecord) : M World unit :=
  let '(k, b) := kb in
  h ← read_header (br_header b);
  if is_marked h then write_header (br_header b) (set_marked false)
  else
    invalidate_weak_refs_for_block_locked (br_payload_begin b) (br_payload_end b);;
    modify (set_mgr (λ g, set_bytes (wrap64 (managed_bytes_ g - ch_size h))
                                    (wrap64 (reserved_bytes_ g - block_allocation_size h)) g));;
    modify (set_mgr (set_allocations (sm_erase k))).

Definition sweep_locked : M World (list Z) :=
  native_alloc;; (* unreachable.reserve *)
  unreachable ← collect_unmarked;
  ordered ← order_blocks unreachable;
  w ← get;
  foldM (λ kb _, sweep_entry kb) (allocations w) tt;;
  mret ordered.

Definition detach_all_blocks_locked : M World (list Z) :=
  native_alloc;; (* blocks.reserve *)
  w ← get;
  ordered ← order_blocks ((allocations w).*2);
  modify (set_mgr (set_allocations (λ _, [])));;
  modify (set_mgr (set_bytes 0 0));;
  mret ordered.

(** ** Removing one block from the registry *)

Definition drop_block (k : Z) (b : BlockRecord) (w : World) : World :=
  set_mgr (set_allocations (sm_erase k))
    (set_mgr (λ g, set_bytes (managed_bytes_ g - payload_size (k, b))
                             (reserved_bytes_ g - reserved_size (k, b)) g)
      (set_mgr (set_weak_refs (filter (λ e, weak_hits k (br_payload_end b) e = false)))
        (set_mem (clear_words (filter (λ e, weak_hits k (br_payload_end b) e = true) (weak_refs w))) w))).

Lemma weak_hits_spec pb pe e : weak_hits pb pe e = true ↔ pb <= we_target e < pe.
Proof. unfold weak_hits. rewrite andb_true_iff, Z.leb_le, Z.ltb_lt. done. Qed.

Lemma erase_perm {V} k (v : V) (m : stdmap V) :
  sm_wf m → (k, v) ∈ m → m ≡ₚ (k, v) :: sm_erase k m.
Proof.
  induction m as [|[k' v'] m IH]; [by intros _ ?%elem_of_nil|].
  intros [Hwf Hlt]%sm_wf_cons Hin. simpl. destruct (Z.eqb_spec k k') as [->|Hne].
  - apply elem_of_cons in Hin as [[= ->]|Hin]; [done|]. apply Hlt in Hin. lia.
  - apply elem_of_cons in Hin as [[= -> ->]|Hin]; [done|].
    rewrite (IH Hwf Hin) at 1. apply Permutation_swap.
Qed.

Lemma elem_of_sm_erase {V} k (m : stdmap V) kv : sm_wf m → kv ∈ sm_erase k m ↔ kv ∈ m ∧ kv.1 ≠ k.
Proof. intros. rewrite sm_erase_filter, list_elem_of_filter by done. tauto. Qed.

Section Drop.
Context (w : World) (Hwf : heap_wf w) (k : Z) (b : BlockRecord) (Hin : (k, b) ∈ allocations w).

Lemma sizes_pos kb : kb ∈ allocations w → 0 < payload_size kb ∧ payload_size kb <= reserved_size kb.
Proof.
  destruct kb as [k' b']. intros H. pose proof (wf_extent w Hwf _ _ H).
  pose proof (wf_begin w Hwf _ _ H). unfold payload_size, reserved_size, sizeof_ChunkHeader in *.
  simpl. lia.
Qed.

Lemma sum_split (f : Z * BlockRecord → Z) :
  sumZ (f <$> allocations w) = f (k, b) + sumZ (f <$> sm_erase k (allocations w)).
Proof. by rewrite (erase_perm k b (allocations w) (wf_sorted _ Hwf) Hin) at 1. Qed.

Lemma sum_erase_nonneg (f : Z * BlockRecord → Z) :
  (∀ kb, kb ∈ allocations w → 0 <= f kb) → 0 <= sumZ (f <$> sm_erase k (allocations w)).
Proof.
  intros Hf. apply sumZ_nonneg. intros x (kb & -> & Hkb)%list_elem_of_fmap.
  apply elem_of_sm_erase in Hkb as [? _]; [auto|apply wf_sorted, Hwf].
Qed.

(** The two subtractions never wrap. *)
Lemma drop_bytes :
  wrap64 (managed_bytes_ (mgr w) - payload_size (k, b)) = managed_bytes_ (mgr w) - payload_size (k, b) ∧
  wrap64 (reserved_bytes_ (mgr w) - reserved_size (k, b)) = reserved_bytes_ (mgr w) - reserved_size (k, b).
Proof.
  pose proof (wf_managed_max _ Hwf). pose proof (wf_reserved_max _ Hwf).
  pose proof (wf_managed _ Hwf) as Hm. pose proof (wf_reserved _ Hwf) as Hr.
  rewrite sum_split in Hm, Hr. pose proof (sizes_pos _ Hin).
  assert (0 <= sumZ (payload_size <$> sm_erase k (allocations w)))
    by (apply sum_erase_nonneg; intros kb Hkb; pose proof (sizes_pos _ Hkb); lia).
  assert (0 <= sumZ (reserved_size <$> sm_erase k (allocations w)))
    by (apply sum_erase_nonneg; intros kb Hkb; pose proof (sizes_pos _ Hkb); lia).
  split; apply wrap64_size; unfold is_size; lia.
Qed.

Lemma drop_block_wf : heap_wf (drop_block k b w).
Proof.
  pose proof (sizes_pos _ Hin). pose proof (wf_sorted _ Hwf) as Hs.
  pose proof (wf_managed _ Hwf) as Hm. pose proof (wf_reserved _ Hwf) as Hr.
  rewrite sum_split in Hm, Hr.
  split; unfold drop_block; simpl.
  - by apply sm_wf_erase.
  - intros k' b' [H' _]%elem_of_sm_erase; [|done]. apply (block_ok_ext w); [done..|].
    by apply (wf_block _ Hwf).
  - intros k1 b1 k2 b2 [H1 _]%elem_of_sm_erase [H2 _]%elem_of_sm_erase; [|done..].
    by apply (wf_disjoint _ Hwf).
  - lia.
  - lia.
  - pose proof (wf_managed_max _ Hwf). lia.
  - pose proof (wf_reserved_max _ Hwf). lia.
  - intros e [Hhit He]%list_elem_of_filter. destruct (wf_weak _ Hwf e He) as (k' & b' & H' & Hr').
    exists k', b'. split; [|done]. apply elem_of_sm_erase; [done|]. split; [done|]. simpl.
    intros ->. rewrite (wf_key_inj w Hwf _ _ _ H' Hin) in Hr'.
    apply weak_hits_spec in Hr'. congruence.
Qed.

Lemma sweep_entry_unmarked :
  markedb w (k, b) = false → sweep_entry (k, b) w = Ret tt (drop_block k b w).
Proof.
  intros Hm. destruct (wf_read_header w Hwf k b Hin) as (h & Hh & _ & _ & Hsz & Hrs).
  unfold markedb in Hm. simpl in Hm. rewrite Hh in Hm.
  unfold sweep_entry, read_header. unfold mbind, M_bind. rewrite Hh, Hm.
  rewrite invalidate_spec, Hsz, Hrs, (wf_begin w Hwf _ _ Hin).
  unfold modify, drop_block, set_mgr, set_bytes, set_mem, set_weak_refs, set_allocations. simpl.
  destruct drop_bytes as [Hb1 Hb2]. by rewrite Hb1, Hb2.
Qed.

Lemma sweep_entry_marked :
  markedb w (k, b) = true →
  ∃ w', sweep_entry (k, b) w = Ret tt w' ∧ w' ≈ₘ w ∧
    ∀ k' b', (k', b') ∈ allocations w →
      markedb w' (k', b') = if decide (k' = k) then false else markedb w (k', b').
Proof.
  intros Hm. destruct (wf_read_header w Hwf k b Hin) as (h & Hh & _).
  unfold markedb in Hm. simpl in Hm. rewrite Hh in Hm.
  destruct (clear_one_spec k b w Hwf Hin) as (w' & E & He & Hmk).
  exists w'. split; [|done]. unfold sweep_entry, read_header. unfold mbind, M_bind.
  by rewrite Hh, Hm.
Qed.
End Drop.

(** ** The loop *)

(** Everything the sweep leaves alone. *)
Record same_rest (w w' : World) : Prop := {
  sr_threads : threads_ (mgr w) = threads_ (mgr w');
  sr_ranges : registered_root_ranges_ (mgr w) = registered_root_ranges_ (mgr w');
  sr_threshold : collection_threshold_bytes_ (mgr w) = collection_threshold_bytes_ (mgr w');
  sr_collector : collector_thread_ (mgr w) = collector_thread_ (mgr w');
  sr_stw : stop_the_world_requested_ (mgr w) = stop_the_world_requested_ (mgr w');
  sr_collecting : collecting_ (mgr w) = collecting_ (mgr w');
  sr_stats : stats_ (mgr w) = stats_ (mgr w');
  sr_blocks : blocks w = blocks w';
  sr_log : log w = log w';
  sr_headers : set_marked false <$> headers w = set_marked false <$> headers w';
}.

#[global] Instance same_rest_equivalence : Equivalence same_rest.
Proof.
  split.
  - by intros ?.
  - intros ?? []. by split.
  - intros ??? [] []. split; congruence.
Qed.

Lemma marks_equiv_rest w w' : w ≈ₘ w' → same_rest w w'.
Proof.
  intros Heq. pose proof (mgr_Proper _ _ Heq). pose proof (blocks_Proper _ _ Heq).
  pose proof (log_Proper _ _ Heq). destruct Heq as [[=]]. split; congruence.
Qed.

(** The entry points into an unmarked block of [l]. *)
Definition dead_hits (w : World) (l : registry) (e : WeakRefEntry) : bool :=
  existsb (λ kb, negb (markedb w kb) && weak_hits kb.1 (br_payload_end kb.2) e) l.

#[global] Arguments dead_hits : simpl never.

Record swept (l : registry) (w w' : World) : Prop := {
  sw_wf : heap_wf w';
  sw_alloc : allocations w' = filter (λ kb, kb ∉ l ∨ markedb w kb = true) (allocations w);
  sw_weak : weak_refs w' = filter (λ e, dead_hits w l e = false) (weak_refs w);
  sw_mem : ∃ dead, mem w' = clear_words dead (mem w) ∧
    ∀ e, e ∈ dead ↔ e ∈ weak_refs w ∧ dead_hits w l e = true;
  sw_marks : ∀ kb, kb ∈ allocations w' →
    markedb w' kb = if decide (kb ∈ l) then false else markedb w kb;
  sw_rest : same_rest w w' ∧ oom w = oom w';
}.

Lemma filter_true {A} (l : list A) (P : A → Prop) `{∀ x, Decision (P x)} :
  (∀ x, x ∈ l → P x) → filter P l = l.
Proof.
  induction l as [|x l IH]; [done|]. intros HP. rewrite filter_cons_True by (apply HP; left).
  rewrite IH; [done|]. intros; apply HP; by right.
Qed.

Lemma elem_of_cons_ne {A} (x y : A) l : x ≠ y → x ∈ l ↔ x ∈ y :: l.
Proof. rewrite elem_of_cons. tauto. Qed.

Lemma swept_nil w : heap_wf w → swept [] w w.
Proof.
  intros Hwf. split; try done.
  - symmetry. apply filter_true. intros; left. apply not_elem_of_nil.
  - symmetry. by apply filter_true.
  - exists []. split; [done|]. intros e. rewrite elem_of_nil. naive_solver.
Qed.

Lemma existsb_ext {A} (f g : A → bool) l : (∀ x, x ∈ l → f x = g x) → existsb f l = existsb g l.
Proof.
  induction l as [|x l IH]; [done|]. intros Hfg. simpl.
  rewrite (Hfg x) by left. by rewrite IH by (intros; apply Hfg; by right).
Qed.

Lemma dead_hits_ext w w' l e :
  (∀ kb, kb ∈ l → markedb w kb = markedb w' kb) → dead_hits w l e = dead_hits w' l e.
Proof. intros H. apply existsb_ext. intros kb Hkb. by rewrite H. Qed.

Lemma swept_cons_dead k b l w w' :
  heap_wf w → (k, b) ∈ allocations w → (k, b) ∉ l → markedb w (k, b) = false →
  swept l (drop_block k b w) w' → swept ((k, b) :: l) w w'.
Proof.
  intros Hwf Hin Hnl Hm [Hwf' Ha Hw Hmem Hmk [Hr Ho]].
  assert (Hmb : ∀ kb, markedb (drop_block k b w) kb = markedb w kb) by done.
  assert (Hdh : ∀ e, dead_hits w ((k, b) :: l) e =
      weak_hits k (br_payload_end b) e || dead_hits (drop_block k b w) l e).
  { intros e. unfold dead_hits at 1. simpl. by rewrite Hm. }
  split; try done.
  - rewrite Ha. unfold drop_block. simpl. rewrite sm_erase_filter by apply wf_sorted, Hwf.
    rewrite list_filter_filter. apply filter_ext_in. intros [k' b'] Hin'. simpl.
    rewrite Hmb, not_elem_of_cons. destruct (decide (k' = k)) as [->|Hne].
    + rewrite (wf_key_inj w Hwf _ _ _ Hin' Hin). rewrite Hm. naive_solver.
    + assert ((k', b') ≠ (k, b)) by congruence. tauto.
  - rewrite Hw. unfold drop_block at 2. simpl. rewrite list_filter_filter.
    apply filter_ext_in. intros e _. cbv beta. rewrite Hdh, orb_false_iff. tauto.
  - destruct Hmem as (dead & Em & Hd). unfold drop_block in Em; simpl in Em.
    exists (filter (λ e, weak_hits k (br_payload_end b) e = true) (weak_refs w) ++ dead).
    unfold clear_words in *. rewrite foldl_app. split; [done|]. intros e.
    rewrite elem_of_app, Hd, Hdh, orb_true_iff. unfold drop_block at 1. simpl.
    rewrite !list_elem_of_filter. destruct (weak_hits k (br_payload_end b) e); naive_solver.
  - intros kb Hkb. rewrite Hmk, Hmb by done.
    destruct (decide (kb = (k, b))) as [->|Hne].
    + rewrite Hm. by repeat case_decide.
    + apply decide_ext. by apply elem_of_cons_ne.
  - split; [|done]. destruct Hr. by split.
Qed.

Lemma swept_cons_live k b l w w1 w' :
  heap_wf w → (k, b) ∈ allocations w → (k, b) ∉ l → (∀ kb, kb ∈ l → kb ∈ allocations w) →
  markedb w (k, b) = true → w1 ≈ₘ w →
  (∀ k' b', (k', b') ∈ allocations w →
    markedb w1 (k', b') = if decide (k' = k) then false else markedb w (k', b')) →
  swept l w1 w' → swept ((k, b) :: l) w w'.
Proof.
  intros Hwf Hin Hnl Hl Hm Heq Hm1 [Hwf' Ha Hw Hmem Hmk [Hr Ho]].
  assert (Hother : ∀ kb, kb ∈ allocations w → kb ≠ (k, b) → markedb w1 kb = markedb w kb).
  { intros [k' b'] Hin' Hne. rewrite Hm1 by done. case_decide; [subst|done].
    by rewrite (wf_key_inj w Hwf _ _ _ Hin' Hin) in Hne. }
  assert (Hdh : ∀ e, dead_hits w ((k, b) :: l) e = dead_hits w1 l e).
  { intros e. unfold dead_hits at 1. simpl. rewrite Hm. simpl. apply dead_hits_ext.
    intros kb Hkb. symmetry. apply Hother; [auto|]. by intros ->. }
  rewrite (mgr_Proper _ _ Heq) in Ha, Hw, Hmem. rewrite (mem_Proper _ _ Heq) in Hmem.
  rewrite (oom_Proper _ _ Heq) in Ho.
  split; try done.
  - rewrite Ha. apply filter_ext_in. intros kb Hkb. rewrite not_elem_of_cons.
    destruct (decide (kb = (k, b))) as [->|Hne]; [naive_solver|]. rewrite Hother by done. tauto.
  - rewrite Hw. apply filter_ext_in. intros e _. cbv beta. by rewrite Hdh.
  - destruct Hmem as (dead & ? & Hd). exists dead. split; [done|]. intros e. by rewrite Hd, Hdh.
  - intros kb Hkb. rewrite Hmk by done. rewrite Ha in Hkb. apply list_elem_of_filter in Hkb as [_ Hkb].
    destruct (decide (kb = (k, b))) as [->|Hne].
    + rewrite decide_False, decide_True by (done || left).
      rewrite Hm1 by done. by rewrite decide_True.
    + rewrite Hother by done. apply decide_ext. by apply elem_of_cons_ne.
  - split; [|done]. etrans; [|done]. symmetry. by apply marks_equiv_rest.
Qed.

Lemma sweep_loop_spec l w :
  heap_wf w → NoDup l → (∀ kb, kb ∈ l → kb ∈ allocations w) →
  ∃ w', foldM (λ kb _, sweep_entry kb) l tt w = Ret tt w' ∧ swept l w w'.
Proof.
  revert w. induction l as [|[k b] l IH]; intros w Hwf Hnd Hl; simpl.
  { exists w. split; [done|by apply swept_nil]. }
  apply NoDup_cons in Hnd as [Hnl Hnd]. assert (Hin : (k, b) ∈ allocations w) by (apply Hl; left).
  destruct (markedb w (k, b)) eqn:Hm.
  - destruct (sweep_entry_marked w Hwf k b Hin Hm) as (w1 & E & Heq & Hm1).
    simpl in E. mstep E. destruct (IH w1) as (w' & E' & Hsw).
    { by rewrite Heq. }
    { done. }
    { intros kb Hkb. rewrite (mgr_Proper _ _ Heq). apply Hl. by right. }
    exists w'. split; [exact E'|]. eapply swept_cons_live; try done.
    intros; apply Hl; by right.
  - pose proof (sweep_entry_unmarked w Hwf k b Hin Hm) as E. simpl in E. mstep E.
    destruct (IH (drop_block k b w)) as (w' & E' & Hsw).
    { by apply drop_block_wf. }
    { done. }
    { intros [k' b'] Hkb. change (allocations (drop_block k b w)) with (sm_erase k (allocations w)).
      apply elem_of_sm_erase; [apply wf_sorted, Hwf|].
      split; [apply Hl; by right|]. simpl. intros ->. apply Hnl.
      by rewrite (wf_key_inj w Hwf _ _ _ Hin (Hl _ ltac:(by right))). }
    exists w'. split; [exact E'|]. by apply swept_cons_dead.
Qed.

(** ** The whole sweep *)

Definition dead_blocks (w : World) : list BlockRecord :=
  (filter (λ kb, markedb w kb = false) (allocations w)).*2.

Lemma collect_unmarked_spec w :
  heap_wf w → collect_unmarked w = Ret (dead_blocks w) w.
Proof.
  intros Hwf. unfold collect_unmarked, mbind at 1, M_bind, get, dead_blocks.
  enough (∀ l acc, (∀ kb, kb ∈ l → kb ∈ allocations w) →
    foldM (λ kb acc, h ← read_header (br_header kb.2);
                     mret (if is_marked h then acc else acc ++ [kb.2])) l acc w =
    Ret (acc ++ (filter (λ kb, markedb w kb = false) l).*2) w) as H by by rewrite H.
  induction l as [|[k b] l IH]; intros acc Hl; simpl; [by rewrite app_nil_r|].
  destruct (wf_read_header w Hwf k b) as (h & Hh & _); [apply Hl; left|].
  unfold read_header, mbind, M_bind. rewrite Hh. simpl.
  assert (Hmb : markedb w (k, b) = is_marked h) by (unfold markedb; simpl; by rewrite Hh).
  assert (Hl' : ∀ kb, kb ∈ l → kb ∈ allocations w) by (intros; apply Hl; by right).
  etrans; [apply IH, Hl'|]. f_equal. destruct (is_marked h).
  - by rewrite filter_cons_False by congruence.
  - rewrite filter_cons_True by done. csimpl. by rewrite <-app_assoc.
Qed.

Lemma sublist_sorted w (P : Z * BlockRecord → Prop) `{∀ x, Decision (P x)} :
  heap_wf w → blocks_sorted ((filter P (allocations w)).*2).
Proof.
  intros Hwf.
  assert (Hs : sm_wf (filter P (allocations w))) by (apply sm_wf_filter, wf_sorted, Hwf).
  assert (Hlook : ∀ i b, (filter P (allocations w)).*2 !! i = Some b →
    ∃ k, filter P (allocations w) !! i = Some (k, b) ∧ (k, b) ∈ allocations w).
  { intros i b. rewrite list_lookup_fmap. destruct (_ !! i) as [[k b']|] eqn:E; [|done].
    intros [= <-]. exists k. split; [done|].
    by apply list_elem_of_lookup_2, list_elem_of_filter in E as [_ E]. }
  split.
  - intros i b (k & _ & Hin)%Hlook. pose proof (wf_extent w Hwf _ _ Hin).
    rewrite (wf_begin w Hwf _ _ Hin). unfold sizeof_ChunkHeader in *. lia.
  - intros i j bi bj (ki & Hi & Hini)%Hlook (kj & Hj & Hinj)%Hlook Hlt.
    assert (ki < kj).
    { revert Hs Hi Hj Hlt. clear. generalize (filter P (allocations w)) as l.
      induction i as [|i IH] in j |- *; intros [|[k0 b0] l] Hs; simpl; try done.
      - apply sm_wf_cons in Hs as [_ Hs]. intros [= -> ->] Hj Hlt. destruct j; [lia|].
        simpl in Hj. by apply list_elem_of_lookup_2, Hs in Hj.
      - apply sm_wf_cons in Hs as [Hs _]. intros Hi Hj Hlt. destruct j as [|j]; [lia|].
        simpl in Hj. eapply (IH j); [done..|lia]. }
    pose proof (wf_disjoint _ Hwf _ _ _ _ Hini Hinj ltac:(done)).
    pose proof (wf_extent w Hwf _ _ Hinj). rewrite (wf_begin w Hwf _ _ Hinj).
    unfold sizeof_ChunkHeader in *. lia.
Qed.

(** A world in which only the fate of the coming native allocations differs. *)
Definition with_oom (o : list bool) (w : World) : World := set_oom (λ _, o) w.

(** It fails only when some coming allocation is to fail. *)
Definition may_fail (w : World) : Prop := true ∈ oom w.

Lemma native_alloc_cases w :
  (∃ o, native_alloc w = Ret tt (with_oom o w) ∧ (true ∈ o → may_fail w)) ∨
  (∃ o, native_alloc w = Throw bad_alloc (with_oom o w) ∧ may_fail w).
Proof.
  unfold native_alloc, with_oom, may_fail. destruct (oom w) as [|[] o] eqn:E; [left|right|left].
  - exists []. rewrite <-E. by destruct w.
  - exists o. split; [done|left].
  - exists o. split; [done|by right].
Qed.

Lemma native_alloc_ok w : oom w = [] → native_alloc w = Ret tt w.
Proof. unfold native_alloc. by intros ->. Qed.

Lemma with_oom_id w : with_oom (oom w) w = w.
Proof. by destruct w. Qed.

Lemma with_oom_wf o w : heap_wf w → heap_wf (with_oom o w).
Proof. by apply heap_wf_ext. Qed.

#[export] Hint Resolve with_oom_wf : gc.

(** The part of the sweep after its two fallible steps. *)
Lemma sweep_commit o w :
  heap_wf w → ∃ hs w',
    order_blocks_for_finalization_locked (mem w) (dead_blocks w) = Some hs ∧
    hs ≡ₚ br_header <$> dead_blocks w ∧
    (ordered ← run_order (dead_blocks w); w ← get;
     foldM (λ kb _, sweep_entry kb) (allocations w) tt;; mret ordered) (with_oom o w) = Ret hs w' ∧
    swept (allocations w) (with_oom o w) w'.
Proof.
  intros Hwf.
  destruct (order_blocks_perm (mem w) (dead_blocks w) (sublist_sorted w _ Hwf)) as (hs & E & Hp).
  destruct (sweep_loop_spec (allocations w) (with_oom o w)) as (w' & E' & Hsw).
  { by apply with_oom_wf. }
  { apply sm_wf_NoDup_entries, wf_sorted, Hwf. }
  { done. }
  exists hs, w'. split_and!; [done..| |done].
  unfold run_order, mbind, M_bind, get. simpl. rewrite E. simpl. by rewrite E'.
Qed.

Lemma order_blocks_cases bs w :
  (∃ o, order_blocks bs w = run_order bs (with_oom o w) ∧ (true ∈ o → may_fail w)) ∨
  (∃ o, order_blocks bs w = Throw bad_alloc (with_oom o w) ∧ may_fail w).
Proof.
  unfold order_blocks. destruct (native_alloc_cases w) as [(o & E & Ho)|(o & E & Ho)].
  - left. exists o. by mstep E.
  - right. exists o. by mthrow E.
Qed.

(** The sweep either throws before it has detached anything, or completes. *)
Lemma sweep_spec w :
  heap_wf w →
  (∃ o, sweep_locked w = Throw bad_alloc (with_oom o w) ∧ may_fail w) ∨
  (∃ o hs w', sweep_locked w = Ret hs w' ∧ swept (allocations w) (with_oom o w) w' ∧
     order_blocks_for_finalization_locked (mem w) (dead_blocks w) = Some hs ∧
     hs ≡ₚ br_header <$> dead_blocks w ∧ (true ∈ o → may_fail w)).
Proof.
  intros Hwf. unfold sweep_locked.
  destruct (native_alloc_cases w) as [(o & E & Ho)|(o & E & Ho)]; [|left; exists o; by mthrow E].
  mstep E. pose proof (collect_unmarked_spec _ (with_oom_wf o _ Hwf)) as Eu. mstep Eu.
  destruct (order_blocks_cases (dead_blocks w) (with_oom o w)) as [(o' & E' & Ho')|(o' & E' & Ho')].
  - right. destruct (sweep_commit o' w Hwf) as (hs & w' & Eo & Hp & Er & Hsw).
    exists o', hs, w'. split_and!; [|done..|by intros ?%Ho'%Ho]. rewrite <-Er. by mrepl E'.
  - left. exists o'. split; [by mthrow E'|by apply Ho].
Qed.

(** ** Detaching everything at shutdown *)

Definition detached (w : World) : World :=
  set_mgr (set_bytes 0 0) (set_mgr (set_allocations (λ _, [])) w).

Lemma detach_spec w :
  heap_wf w →
  (∃ o, detach_all_blocks_locked w = Throw bad_alloc (with_oom o w) ∧ may_fail w) ∨
  (∃ o hs, detach_all_blocks_locked w = Ret hs (detached (with_oom o w)) ∧
     order_blocks_for_finalization_locked (mem w) ((allocations w).*2) = Some hs ∧
     hs ≡ₚ br_header <$> (allocations w).*2).
Proof.
  intros Hwf. unfold detach_all_blocks_locked.
  destruct (native_alloc_cases w) as [(o & E & Ho)|(o & E & Ho)]; [|left; exists o; by mthrow E].
  mstep E. mget. change (allocations (with_oom o w)) with (allocations w).
  destruct (order_blocks_perm (mem w) ((allocations w).*2)) as (hs & Eo & Hp).
  { pose proof (sublist_sorted w (λ _, True) Hwf) as Hs. by rewrite filter_true in Hs. }
  destruct (order_blocks_cases ((allocations w).*2) (with_oom o w)) as [(o' & E' & Ho')|(o' & E' & Ho')].
  - right. exists o', hs. split_and!; [|done..]. mrepl E'.
    assert (run_order ((allocations w).*2) (with_oom o' (with_oom o w)) =
      Ret hs (with_oom o' (with_oom o w))) as Er by (unfold run_order; simpl; by rewrite Eo).
    by mstep Er.
  - left. exists o'. split; [by mthrow E'|by apply Ho].
Qed.
