(* ===== verification/Threads.v ===== *)
(** * Threads and the cooperative stop-the-world protocol

    A public operation of [GC_Manager] is a [proc]: a sequence of critical
    sections, each atomic because it runs with [mutex_] held, separated by the
    points where the thread unlocks the mutex or waits on the condition
    variable.  [exec] runs a [proc] alone; Interleave runs many of them.

    Models [cooperate_with_stop_the_world_locked], the thread registry and
    [release_stop_the_world] / [wait_for_other_threads_to_pause_locked] of
    src/src/GCManager.cpp, and [ScopedThreadRegistration] of
    src/include/gc/GCManager.hpp. *)

From S2P Require Import Prelude Words Memory OrdMap Chunk Manager Heap Scanner.

(** ** Processes *)

(** [Atomic guard act k]: wait until [guard] holds with the mutex free, run
    [act] under the mutex, continue with its result or its exception. *)
Inductive proc (A : Type) : Type :=
| Done (r : result A)
| Atomic {X : Type} (guard : World → bool) (act : M World X) (k : result X → proc A).
Arguments Done {A} r.
Arguments Atomic {A X} guard act k.

(** Continue with the value or the exception: the [try] of the language. *)
Fixpoint bind_result {A B} (p : proc A) (f : result A → proc B) : proc B :=
  match p with
  | Done r => f r
  | Atomic guard act k => Atomic guard act (λ x, bind_result (k x) f)
  end.

#[global] Instance proc_ret : MRet proc := λ A a, Done (Ok a).
#[global] Instance proc_bind : MBind proc := λ A B f p,
  bind_result p (λ r, match r with Ok a => f a | Raise e => Done (Raise e) end).

Definition raise {A} (e : exn) : proc A := Done (Raise e).

Definition always : World → bool := λ _, true.
Definition atomic {A} (act : M World A) : proc A := Atomic always act Done.

(** Running one process alone; a false guard then stays false. *)
Fixpoint exec {A} (p : proc A) (w : World) : outcome World A :=
  match p with
  | Done (Ok a) => Ret a w
  | Done (Raise e) => Throw e w
  | Atomic guard act k =>
      if guard w
      then
        match act w with
        | Ret x w' => exec (k (Ok x)) w'
        | Throw e w' => exec (k (Raise e)) w'
        | Stuck why => Stuck why
        end
      else Stuck Blocked
  end.

(** ** Cooperation *)

(** A [noexcept] function: an exception that would leave it ends the program. *)
Definition noexcept {A} (p : proc A) : proc A :=
  bind_result p (λ r, match r with Ok a => mret a | Raise _ => atomic (λ _, Stuck Terminated) end).

(** What [setjmp] and the stack frame of a parking thread expose. *)
Record ParkEnv := {
  pe_stack_marker : Z;
  pe_registers : list Z;
}.

Definition may_run (me : thread_id) (w : World) : bool :=
  negb (stop_the_world_requested_ (mgr w)) || bool_decide (collector_thread_ (mgr w) = Some me).

Definition find_thread_state_locked (me : thread_id) (w : World) : option ThreadState :=
  sm_find me (threads_ (mgr w)).

Definition registered (me : thread_id) (w : World) : bool :=
  match find_thread_state_locked me w with
  | Some s => negb (ts_stack_bottom s =? 0)
  | None => false
  end.

Definition not_registered_error : exn :=
  logic_error "Current thread must call gc::register_current_thread() or gc::register_stack_bottom() before using GC-Lib on that thread.".

Definition require_registered_thread_locked (me : thread_id) : M World unit :=
  w ← get; if registered me w then mret tt else throw not_registered_error.

Section Cooperate.
Context {ASAN : AsanRuntime} (me : thread_id) (env : ParkEnv).

Definition park : M World unit :=
  modify (set_mgr (set_threads (sm_alter (λ s,
    {| ts_stack_bottom := ts_stack_bottom s;
       ts_parked_stack_top := pe_stack_marker env;
       ts_fake_stack_handle := current_fake_stack_handle;
       ts_register_spill := pe_registers env;
       ts_paused_for_collection := true |}) me))).

Definition unpark : M World unit :=
  modify (set_mgr (set_threads (sm_alter (λ s,
    {| ts_stack_bottom := ts_stack_bottom s;
       ts_parked_stack_top := 0;
       ts_fake_stack_handle := 0;
       ts_register_spill := replicate (length (ts_register_spill s)) 0;
       ts_paused_for_collection := false |}) me))).

(** How a critical section that starts with [cooperate] goes on. *)
Inductive entry (A : Type) :=
| Entered (a : A)
| Not_registered
| Must_park.

(** Up to the first [lock.unlock()] or [wait] of [cooperate], or through the
    body when it returns at once; [parking] is what is done before waiting. *)
Definition enter {A} (pre : M World unit) (parking : M World unit) (body : M World A)
    : M World (entry A) :=
  pre;;
  w ← get;
  if may_run me w then a ← body; mret (Entered A a)
  else if negb (registered me w) then mret (Not_registered A)
  else parking;; mret (Must_park A).

(** [lock; pre; cooperate_with_stop_the_world_locked(lock); body; unlock].
    A registered thread drops the lock once to capture its registers with
    [setjmp] and looks again before it parks. *)
Definition locked_after {A} (pre : M World unit) (body : M World A) : proc A :=
  let wait_unregistered := Atomic (may_run me) body Done in
  Atomic always (enter pre (mret tt) body) (λ r,
    match r with
    | Raise e => Done (Raise e)
    | Ok (Entered _ a) => Done (Ok a)
    | Ok (Not_registered _) => wait_unregistered
    | Ok (Must_park _) =>
        Atomic always (enter (mret tt) park body) (λ r,
          match r with
          | Raise e => Done (Raise e)
          | Ok (Entered _ a) => Done (Ok a)
          | Ok (Not_registered _) => wait_unregistered
          | Ok (Must_park _) =>
              Atomic (λ w, negb (stop_the_world_requested_ (mgr w))) (unpark;; body) Done
          end)
    end).

Definition locked {A} (body : M World A) : proc A := locked_after (mret tt) body.

(** ** The collector's side *)

Definition all_others_paused (w : World) : bool :=
  forallb (λ ts, (ts.1 =? me) || (ts_stack_bottom ts.2 =? 0) || ts_paused_for_collection ts.2)
    (threads_ (mgr w)).

(** [wait_for_other_threads_to_pause_locked(lock, me); act] *)
Definition wait_for_other_threads_to_pause_locked {A} (act : M World A) : proc A :=
  Atomic all_others_paused act Done.

Definition request_stop_the_world : M World unit :=
  modify (set_mgr (set_stw (Some me) true true)).

Definition release_stop_the_world : proc unit :=
  atomic (modify (set_mgr (set_stw None false false))).

(** ** The thread registry *)

Definition ThreadState_init : ThreadState :=
  {| ts_stack_bottom := 0; ts_parked_stack_top := 0; ts_fake_stack_handle := 0;
     ts_register_spill := []; ts_paused_for_collection := false |}.

Definition set_stack_bottom (sb : Z) (s : ThreadState) : ThreadState :=
  {| ts_stack_bottom := sb; ts_parked_stack_top := ts_parked_stack_top s;
     ts_fake_stack_handle := ts_fake_stack_handle s;
     ts_register_spill := ts_register_spill s;
     ts_paused_for_collection := ts_paused_for_collection s |}.

(** [threads_[me].stack_bottom = sb]: a missing node is allocated first. *)
Definition assign_stack_bottom (sb : Z) : M World unit :=
  w ← get;
  (if find_thread_state_locked me w then mret tt else native_alloc);;
  modify (set_mgr (set_threads (λ ts,
    sm_alter (set_stack_bottom sb) me (sm_emplace me ThreadState_init ts)))).

Definition register_stack_bottom (stack_bottom : Z) : proc unit :=
  if stack_bottom =? 0 then raise (invalid_argument "GC-Lib stack anchor must not be null.")
  else locked (assign_stack_bottom stack_bottom).

(** The answers of the pthread calls, on Linux. *)
Record PthreadStack := {
  pt_getattr_rc : Z;
  pt_getstack_rc : Z;
  pt_stack_base : Z;
  pt_stack_size : Z;
}.

(** What the platform says about the stack of the calling thread: the pthread
    calls of Linux, [pthread_get_stackaddr_np], [GetCurrentThreadStackLimits]. *)
Inductive StackLimits :=
| Linux_stack (pt : PthreadStack)
| Apple_stack (stack_high : Z)
| Windows_stack (low high : Z)
| Unsupported_stack.

Definition stack_bounds_error : exn :=
  logic_error "GC-Lib could not determine the current thread stack bounds.".

Definition detect_stack_bottom_linux (pt : PthreadStack) : result Z :=
  if negb (pt_getattr_rc pt =? 0)
  then Raise (logic_error "GC-Lib could not query the current thread stack bounds.")
  else if negb (pt_getstack_rc pt =? 0) || (pt_stack_base pt =? 0) || (pt_stack_size pt =? 0)
  then Raise stack_bounds_error
  else Ok (wrap64 (pt_stack_base pt + pt_stack_size pt)).

Definition detect_stack_bottom_apple (stack_high : Z) : result Z :=
  if stack_high =? 0 then Raise stack_bounds_error else Ok stack_high.

Definition detect_stack_bottom_windows (low high : Z) : result Z :=
  if high =? 0 then Raise stack_bounds_error else Ok high.

Definition detect_stack_bottom_other : result Z :=
  Raise (logic_error "GC-Lib does not support automatic thread stack detection on this platform; use gc::register_stack_bottom().").

Definition detect_current_thread_stack_bottom (limits : StackLimits) : result Z :=
  match limits with
  | Linux_stack pt => detect_stack_bottom_linux pt
  | Apple_stack stack_high => detect_stack_bottom_apple stack_high
  | Windows_stack low high => detect_stack_bottom_windows low high
  | Unsupported_stack => detect_stack_bottom_other
  end.

Definition register_current_thread (limits : StackLimits) : proc unit :=
  match detect_current_thread_stack_bottom limits with
  | Raise e => raise e
  | Ok sb => register_stack_bottom sb
  end.

Definition unregister_current_thread : proc unit :=
  locked (modify (set_mgr (set_threads (sm_erase me)))).

Definition is_current_thread_registered : proc bool := locked (gets (registered me)).

Definition safepoint : proc unit := locked (mret tt).

(** ** [ScopedThreadRegistration]: the state is [owns_registration_] *)

Definition ScopedThreadRegistration (limits : StackLimits) : proc bool :=
  r ← is_current_thread_registered;
  if negb r then register_current_thread limits;; mret true else mret false.

Definition ScopedThreadRegistration_at (stack_bottom : Z) : proc bool :=
  r ← is_current_thread_registered;
  if negb r then register_stack_bottom stack_bottom;; mret true else mret false.

Definition destroy_ScopedThreadRegistration (owns_registration : bool) : proc unit :=
  if owns_registration then noexcept unregister_current_thread else mret tt.
End Cooperate.

(** ** Running alone *)

Lemma exec_bind {A B} (p : proc A) (f : A → proc B) w :
  exec (p ≫= f) w =
  match exec p w with
  | Ret a w' => exec (f a) w'
  | Throw e w' => Throw e w'
  | Stuck why => Stuck why
  end.
Proof.
  unfold mbind, proc_bind. revert w.
  induction p as [[a|e]|X guard act k IH]; intros w; simpl; [done|done|].
  destruct (guard w); [|done]. destruct (act w); [apply IH|apply IH|done].
Qed.

Lemma exec_bind_result {A B} (p : proc A) (f : result A → proc B) w :
  exec (bind_result p f) w =
  match exec p w with
  | Ret a w' => exec (f (Ok a)) w'
  | Throw e w' => exec (f (Raise e)) w'
  | Stuck why => Stuck why
  end.
Proof.
  revert w. induction p as [[a|e]|X guard act k IH]; intros w; simpl; [done|done|].
  destruct (guard w); [|done]. destruct (act w); [apply IH|apply IH|done].
Qed.

Lemma exec_atomic {A} (act : M World A) w : exec (atomic act) w = act w.
Proof. unfold atomic. simpl. by destruct (act w). Qed.

Lemma exec_noexcept {A} (p : proc A) w a w' : exec p w = Ret a w' → exec (noexcept p) w = Ret a w'.
Proof. intros E. unfold noexcept. by rewrite exec_bind_result, E. Qed.

Section Alone.
Context {ASAN : AsanRuntime} (me : thread_id) (env : ParkEnv).

(** A thread that need not cooperate runs the section in one piece. *)
Lemma exec_locked_after {A} (pre : M World unit) (body : M World A) w w' :
  pre w = Ret tt w' → may_run me w' = true →
  exec (locked_after me env pre body) w = body w'.
Proof.
  intros Hpre Hrun. unfold locked_after, enter. simpl.
  unfold mbind, M_bind, get. rewrite Hpre, Hrun. by destruct (body w').
Qed.

Lemma exec_locked {A} (body : M World A) w :
  may_run me w = true → exec (locked me env body) w = body w.
Proof. intros. by apply exec_locked_after. Qed.

(** A thread that must cooperate with a collector blocks when nobody else
    runs, whether it is registered or not. *)
Lemma exec_locked_blocked {A} (body : M World A) w :
  may_run me w = false → exec (locked me env body) w = Stuck Blocked.
Proof.
  intros Hrun. unfold locked, locked_after, enter. simpl.
  unfold mbind, M_bind, get. simpl. rewrite Hrun.
  destruct (registered me w) eqn:Hreg; simpl; rewrite ?Hrun, ?Hreg; simpl; rewrite ?Hrun; try done.
  unfold may_run in Hrun. apply orb_false_iff in Hrun as [Hs _]. by rewrite Hs.
Qed.
End Alone.

(** ** One atomic action at a time *)

(** A process takes one step when its guard holds; between two steps the other
    threads may run.  [Stuck] actions have no step. *)
Inductive pstep {A} : proc A * World → proc A * World → Prop :=
| pstep_ret {X} guard (act : M World X) k w x w' :
    guard w = true → act w = Ret x w' → pstep (Atomic guard act k, w) (k (Ok x), w')
| pstep_throw {X} guard (act : M World X) k w e w' :
    guard w = true → act w = Throw e w' → pstep (Atomic guard act k, w) (k (Raise e), w').

(** [exec] is exactly the uninterrupted run. *)
Lemma steps_exec {A} (p : proc A) w r w' :
  rtc pstep (p, w) (Done r, w') ↔
  exec p w = match r with Ok a => Ret a w' | Raise e => Throw e w' end.
Proof.
  split.
  - intros H. remember (p, w) as c eqn:Ec. remember (Done r, w') as c' eqn:Ec'.
    induction H as [c|c c1 c2 Hs _ IH] in p, w, Ec, Ec' |- *.
    { rewrite Ec in Ec'. injection Ec' as -> ->. by destruct r. }
    specialize (IH c1.1 c1.2 (surjective_pairing c1) Ec'). subst c2.
    inversion Hs as [X guard act k w0 x w1 Hg Ha E1 E2|X guard act k w0 e w1 Hg Ha E1 E2]; subst c c1;
      injection E1 as <- <-; simpl in *; by rewrite Hg, Ha.
  - revert w. induction p as [r'|X guard act k IH]; intros w E.
    + destruct r', r; simpl in E; simplify_eq; reflexivity.
    + simpl in E. destruct (guard w) eqn:Hg; [|by destruct r].
      destruct (act w) as [x w1|e w1|] eqn:Ha; [| |by destruct r].
      * eapply rtc_l; [by eapply pstep_ret|]. by apply IH.
      * eapply rtc_l; [by eapply pstep_throw|]. by apply IH.
Qed.

(** The state of a parked thread. *)
Definition parked_state (env : ParkEnv) (handle : Z) (s : ThreadState) : ThreadState :=
  {| ts_stack_bottom := ts_stack_bottom s;
     ts_parked_stack_top := pe_stack_marker env;
     ts_fake_stack_handle := handle;
     ts_register_spill := pe_registers env;
     ts_paused_for_collection := true |}.

Section Parking.
Context {ASAN : AsanRuntime} (me : thread_id) (env : ParkEnv).

(** The node at which a thread waits for the world to restart. *)
Definition parked_node {A} (body : M World A) : proc A :=
  Atomic (λ w, negb (stop_the_world_requested_ (mgr w))) (unpark me;; body) Done.

Definition parked_world (w : World) : World :=
  set_mgr (set_threads (sm_alter (parked_state env current_fake_stack_handle) me)) w.

Lemma locked_parks {A} (body : M World A) w :
  may_run me w = false → registered me w = true →
  rtc pstep (locked me env body, w) (parked_node body, parked_world w).
Proof.
  intros Hrun Hreg.
  assert (∀ parking w1, parking w = Ret tt w1 →
    enter me (mret tt) parking body w = Ret (Must_park A) w1) as Henter.
  { intros parking w1 Hp. unfold enter, mbind, M_bind, get. simpl. rewrite Hrun, Hreg. simpl.
    by rewrite Hp. }
  eapply rtc_l; [eapply (pstep_ret always _ _ w (Must_park A) w); [done|by apply Henter]|].
  eapply rtc_l; [eapply (pstep_ret always _ _ w (Must_park A) (parked_world w)); [done|]|reflexivity].
  by apply Henter.
Qed.

Lemma parked_node_waits {A} (body : M World A) w c :
  stop_the_world_requested_ (mgr w) = true → ¬ pstep (parked_node body, w) c.
Proof.
  intros Hs H. inversion H as [X g a k w0 x w1 Hg Ha E1 E2|X g a k w0 e w1 Hg Ha E1 E2];
    simpl in Hg; rewrite Hs in Hg; discriminate.
Qed.

(** Restarting forgets what parking recorded. *)
Lemma unpark_parked w :
  ∃ w', unpark me (parked_world w) = Ret tt w' ∧
    (∀ t, t ≠ me → sm_find t (threads_ (mgr w')) = sm_find t (threads_ (mgr w))) ∧
    ∀ s, sm_find me (threads_ (mgr w)) = Some s →
      sm_find me (threads_ (mgr w')) = Some
        {| ts_stack_bottom := ts_stack_bottom s; ts_parked_stack_top := 0; ts_fake_stack_handle := 0;
           ts_register_spill := replicate (length (pe_registers env)) 0;
           ts_paused_for_collection := false |}.
Proof.
  eexists. split; [done|]. simpl. split.
  - intros t Ht. rewrite !sm_find_alter. by destruct (Z.eqb_spec t me).
  - intros s Hs. rewrite !sm_find_alter, Z.eqb_refl, Hs. done.
Qed.
End Parking.
