(* ===== verification/Protocol.v ===== *)
(** * The discipline of the stop-the-world protocol

    Many threads run their processes under one mutex.  A thread is [Running],
    [Owner] of the stop (between its request and its release), [Paused] in
    [cooperate_with_stop_the_world_locked] with its parking record published,
    or [Waiting] there because it is not registered.  [step_ok] lists what an
    action of a thread may do to the shared state in each phase, [disciplined]
    says that every action of a process keeps to it, and [neutral] that the
    process also ends in the phase it began in.  [protocol_ok] is the global
    invariant; disciplined actions preserve it whatever the interleaving. *)

From S2P Require Import Prelude Words Memory OrdMap Chunk Manager Heap Scanner Threads.

(** ** The shared state of the protocol *)

Definition control (w : World) : option thread_id * bool * bool :=
  (collector_thread_ (mgr w), stop_the_world_requested_ (mgr w), collecting_ (mgr w)).

Abbreviation threads w := (threads_ (mgr w)).

Definition paused (t : thread_id) (w : World) : bool :=
  match sm_find t (threads w) with
  | Some s => ts_paused_for_collection s
  | None => false
  end.

Inductive phase := Running | Owner | Paused | Waiting.

#[global] Instance phase_eq_dec : EqDecision phase.
Proof. solve_decision. Defined.

(** The world of [set_root_ranges f] up to what the manager does not own. *)
Definition publishes (w w' : World) : Prop := ∃ f, mgr w' = set_root_ranges f (mgr w).

(** An action of [me] touches no other thread's entry and keeps the table a map. *)
Record own_entry (me : thread_id) (w w' : World) : Prop := {
  oe_others : ∀ t, t ≠ me → sm_find t (threads w') = sm_find t (threads w);
  oe_wf : sm_wf (threads w) → sm_wf (threads w');
}.

Definition active (ph : phase) : Prop := ph = Running ∨ ph = Owner.

(** What an action of [me] may do, from one phase to another. *)
Inductive step_ok (me : thread_id) : phase → phase → World → World → Prop :=
| so_publish ph w w' :
    active ph → publishes w w' → step_ok me ph ph w w'
| so_act ph w w' :
    active ph → may_run me w = true → control w' = control w → own_entry me w w' →
    paused me w' = paused me w → step_ok me ph ph w w'
| so_wait w w' :
    registered me w = false → publishes w w' → step_ok me Running Waiting w w'
| so_resume ph' w w' :
    may_run me w = true → step_ok me Running ph' w w' → step_ok me Waiting ph' w w'
| so_park w w' :
    registered me w = true → control w' = control w → own_entry me w w' →
    paused me w' = true → registered me w' = true → step_ok me Running Paused w w'
| so_unpark ph' w w1 w' :
    stop_the_world_requested_ (mgr w) = false → control w1 = control w → own_entry me w w1 →
    paused me w1 = false → step_ok me Running ph' w1 w' → step_ok me Paused ph' w w'
| so_request w w' :
    collecting_ (mgr w) = false → control w' = (Some me, true, true) →
    threads w' = threads w → step_ok me Running Owner w w'
| so_release w w' :
    control w' = (None, false, false) → threads w' = threads w → step_ok me Owner Running w w'.

(** What a thread knows about itself, whatever the others do. *)
Record local_ok (me : thread_id) (ph : phase) (w : World) : Prop := {
  lo_control : control w = (None, false, false) ∨ ∃ c, control w = (Some c, true, true);
  lo_owner : ph = Owner ↔ collector_thread_ (mgr w) = Some me;
  lo_paused : ph = Paused ↔ paused me w = true;
  lo_waiting : ph = Waiting → registered me w = false;
  lo_registered : ph = Paused → registered me w = true;
  lo_wf : sm_wf (threads w);
}.

Definition protocol_ok (φ : thread_id → phase) (w : World) : Prop := ∀ t, local_ok t (φ t) w.

Definition move (t : thread_id) (ph : phase) (φ : thread_id → phase) : thread_id → phase :=
  λ t', if t' =? t then ph else φ t'.

(** ** The invariant is preserved *)

Lemma publishes_refl w : publishes w w.
Proof. exists (λ l, l). by destruct (mgr w). Qed.

Lemma publishes_mgr w w' : mgr w' = mgr w → publishes w w'.
Proof. intros E. destruct (publishes_refl w) as [f Hf]. exists f. by rewrite E. Qed.

Lemma publishes_trans w1 w2 w3 : publishes w1 w2 → publishes w2 w3 → publishes w1 w3.
Proof. intros [f Hf] [g Hg]. exists (g ∘ f). by rewrite Hg, Hf. Qed.

Lemma publishes_same w w' :
  publishes w w' → threads w' = threads w ∧ control w' = control w.
Proof. intros [f Hf]. unfold control. by rewrite Hf. Qed.

Lemma same_entry t w w' :
  sm_find t (threads w') = sm_find t (threads w) →
  paused t w' = paused t w ∧ registered t w' = registered t w.
Proof. intros E. unfold paused, registered, find_thread_state_locked. by rewrite E. Qed.

Lemma same_threads t w w' :
  threads w' = threads w → paused t w' = paused t w ∧ registered t w' = registered t w.
Proof. intros E. apply same_entry. by rewrite E. Qed.

Lemma control_parts w w' :
  control w' = control w →
  collector_thread_ (mgr w') = collector_thread_ (mgr w) ∧
  stop_the_world_requested_ (mgr w') = stop_the_world_requested_ (mgr w) ∧
  collecting_ (mgr w') = collecting_ (mgr w).
Proof. unfold control. by intros [= ? ? ?]. Qed.

Lemma may_run_control me w w' : control w' = control w → may_run me w' = may_run me w.
Proof. unfold may_run. by intros (-> & -> & _)%control_parts. Qed.

Lemma own_entry_wf me w w' : own_entry me w w' → sm_wf (threads w) → sm_wf (threads w').
Proof. by intros [_ H]. Qed.

Lemma own_entry_same me w w' : threads w' = threads w → own_entry me w w'.
Proof. intros E. split; by rewrite E. Qed.

(** A thread other than the actor sees the control state only. *)
Lemma local_ok_frame t ph w w' :
  sm_find t (threads w') = sm_find t (threads w) → sm_wf (threads w') → control w' = control w →
  local_ok t ph w → local_ok t ph w'.
Proof.
  intros [Hp Hr]%same_entry Hwf Hc [H1 H2 H3 H4 H5 _]. pose proof (control_parts _ _ Hc) as (Hcol & _).
  split; rewrite ?Hc, ?Hcol, ?Hp, ?Hr; done.
Qed.

Lemma local_ok_publishes me ph w w' : publishes w w' → local_ok me ph w → local_ok me ph w'.
Proof.
  intros [Ht Hc]%publishes_same Hl. apply (local_ok_frame _ _ w); rewrite ?Ht; try done. apply Hl.
Qed.

Lemma move_same t ph φ : move t ph φ t = ph.
Proof. unfold move. by rewrite Z.eqb_refl. Qed.

Lemma move_other t t' ph φ : t' ≠ t → move t ph φ t' = φ t'.
Proof. unfold move. by destruct (Z.eqb_spec t' t). Qed.

(** An action that leaves the control state alone. *)
Lemma protocol_ok_local me ph φ w w' :
  protocol_ok φ w → control w' = control w → own_entry me w w' →
  local_ok me ph w' → protocol_ok (move me ph φ) w'.
Proof.
  intros Hl Hc [Ho Hw] Hme t. destruct (decide (t = me)) as [->|Ht].
  - by rewrite move_same.
  - rewrite move_other by done. apply (local_ok_frame t _ w); auto. apply Hme.
Qed.

Lemma protocol_ok_ext φ φ' w : (∀ t, φ t = φ' t) → protocol_ok φ w → protocol_ok φ' w.
Proof. intros E Hl t. rewrite <-E. apply Hl. Qed.

Lemma move_move t ph ph' φ t' : move t ph (move t ph' φ) t' = move t ph φ t'.
Proof. unfold move. by destruct (t' =? t). Qed.

Lemma active_ne ph : active ph → ph ≠ Paused ∧ ph ≠ Waiting.
Proof. by intros [->| ->]. Qed.

(** Taking or giving back the stop: nobody else can be its owner. *)
Lemma protocol_ok_transfer me ph φ w w' :
  protocol_ok φ w → threads w' = threads w →
  (∀ t, t ≠ me → φ t ≠ Owner ∧ collector_thread_ (mgr w') ≠ Some t) →
  local_ok me ph w' → protocol_ok (move me ph φ) w'.
Proof.
  intros Hl Ht Hno Hme t.
  destruct (decide (t = me)) as [->|Hne]; [by rewrite move_same|]. rewrite move_other by done.
  destruct (Hno t Hne) as [Hn1 Hn2]. destruct (Hl t) as [_ _ H3 H4 H5 Hwf].
  pose proof (same_threads t _ _ Ht) as [Hp Hr].
  split; rewrite ?Hp, ?Hr, ?Ht; try done. apply Hme.
Qed.

(** Entering and leaving the three states in which [me] is neither paused nor
    the collector of the world it sees. *)
Lemma local_ok_plain me ph ph' w w' :
  local_ok me ph w → ph ≠ Owner → ph' ≠ Owner → control w' = control w → own_entry me w w' →
  (ph' = Paused ↔ paused me w' = true) → (ph' = Waiting → registered me w' = false) →
  (ph' = Paused → registered me w' = true) → local_ok me ph' w'.
Proof.
  intros [H1 H2 H3 H4 H5 Hwf] Hn Hn' Hc Ho Hp Hw Hr. pose proof (control_parts _ _ Hc) as (Hcol & _).
  split; rewrite ?Hc, ?Hcol; [done|tauto|done..|by apply (own_entry_wf _ _ _ Ho)].
Qed.

Lemma local_ok_resumed me w w1 :
  local_ok me Paused w → control w1 = control w → own_entry me w w1 →
  paused me w1 = false → local_ok me Running w1.
Proof. intros Hl Hc Ho Hp. by apply (local_ok_plain me Paused _ w); rewrite ?Hp. Qed.

Lemma local_ok_waiting me w : local_ok me Waiting w → local_ok me Running w.
Proof.
  intros Hl. apply (local_ok_plain me Waiting _ w); try done.
  rewrite <-(lo_paused _ _ _ Hl). split; discriminate.
Qed.

(** The thread that acts knows the phase it reaches. *)
Lemma step_ok_local me ph ph' w w' : local_ok me ph w → step_ok me ph ph' w w' → local_ok me ph' w'.
Proof.
  intros Hl H. induction H as [ph w w' Ha Hpub|ph w w' Ha Hrun Hc Ho Hp|w w' Hreg Hpub|
      ph' w w' Hrun H IH|w w' Hreg Hc Ho Hp Hr'|ph' w w1 w' Hs Hc Ho Hp H IH|
      w w' Hcol Hc Ht|w w' Hc Ht].
  - by apply (local_ok_publishes _ _ w).
  - apply active_ne in Ha as [Ha1 Ha2]. destruct Hl as [H1 H2 H3 H4 H5 Hwf].
    pose proof (control_parts _ _ Hc) as (Hcol & _).
    split; rewrite ?Hc, ?Hcol, ?Hp; try done. by apply (own_entry_wf _ _ _ Ho).
  - destruct (publishes_same _ _ Hpub) as [Ht Hc]. destruct (same_threads me _ _ Ht) as [Hp Hr].
    apply (local_ok_plain me Running _ w); rewrite ?Hp, ?Hr; try done; [by apply own_entry_same|].
    rewrite <-(lo_paused _ _ _ Hl). split; discriminate.
  - by apply IH, local_ok_waiting.
  - by apply (local_ok_plain me Running _ w); rewrite ?Hp.
  - apply IH. by apply (local_ok_resumed me w).
  - destruct (same_threads me _ _ Ht) as [Hp Hr]. destruct Hl as [H1 H2 H3 H4 H5 Hwf].
    assert (collector_thread_ (mgr w') = Some me) as Hn by (unfold control in Hc; congruence).
    split; rewrite ?Hn, ?Hp, ?Ht; try done; [eauto|]. rewrite <-H3. split; discriminate.
  - destruct (same_threads me _ _ Ht) as [Hp Hr]. destruct Hl as [H1 H2 H3 H4 H5 Hwf].
    assert (collector_thread_ (mgr w') = None) as Hn by (unfold control in Hc; congruence).
    split; rewrite ?Hn, ?Hp, ?Ht; try done; [auto|]. rewrite <-H3. split; discriminate.
Qed.

Lemma step_ok_protocol me ph ph' φ w w' :
  φ me = ph → protocol_ok φ w → step_ok me ph ph' w w' → protocol_ok (move me ph' φ) w'.
Proof.
  intros Hφ Hok H. assert (local_ok me ph w) as Hme by (rewrite <-Hφ; apply Hok).
  pose proof (step_ok_local _ _ _ _ _ Hme H) as Hme'.
  induction H as [ph w w' Ha Hpub|ph w w' Ha Hrun Hc Ho Hp|w w' Hreg Hpub|
      ph' w w' Hrun H IH|w w' Hreg Hc Ho Hp Hr'|ph' w w1 w' Hs Hc Ho Hp H IH|
      w w' Hcol Hc Ht|w w' Hc Ht] in φ, Hφ, Hok, Hme, Hme' |- *.
  - destruct (publishes_same _ _ Hpub) as [Ht Hc].
    apply (protocol_ok_local me _ _ w); [done..|by apply own_entry_same|done].
  - by apply (protocol_ok_local me _ _ w).
  - destruct (publishes_same _ _ Hpub) as [Ht Hc].
    apply (protocol_ok_local me _ _ w); [done..|by apply own_entry_same|done].
  - apply local_ok_waiting in Hme. apply (protocol_ok_ext (move me ph' (move me Running φ))); [apply move_move|].
    apply IH; [apply move_same| |done|done].
    by apply (protocol_ok_local me _ _ w); [| |apply own_entry_same|].
  - by apply (protocol_ok_local me _ _ w).
  - apply (local_ok_resumed me w w1) in Hme; [|done..].
    apply (protocol_ok_ext (move me ph' (move me Running φ))); [apply move_move|].
    apply IH; [apply move_same| |done|done]. by apply (protocol_ok_local me _ _ w).
  - apply (protocol_ok_transfer me _ _ w); [done..| |done]. intros t Hne.
    assert (collector_thread_ (mgr w) = None ∧ collector_thread_ (mgr w') = Some me) as [Hn Hn'].
    { destruct (lo_control _ _ _ Hme) as [E|[c E]]; unfold control in *; split; congruence. }
    split; [|congruence]. intros E%(lo_owner _ _ _ (Hok t)). congruence.
  - apply (protocol_ok_transfer me _ _ w); [done..| |done]. intros t Hne.
    assert (collector_thread_ (mgr w) = Some me) as Hsome by by apply (lo_owner _ _ _ Hme).
    assert (collector_thread_ (mgr w') = None) as Hn' by (unfold control in Hc; congruence).
    split; [|congruence]. intros E%(lo_owner _ _ _ (Hok t)). congruence.
Qed.

(** ** Disciplined processes *)

Definition yields {A} (act : M World A) (w : World) (r : result A) (w' : World) : Prop :=
  act w = match r with Ok a => Ret a w' | Raise e => Throw e w' end.

(** When the guard of a node must be open. *)
Definition enabled (me : thread_id) (ph : phase) (w : World) : Prop :=
  match ph with
  | Running => True
  | Owner => all_others_paused me w = true
  | Paused | Waiting => stop_the_world_requested_ (mgr w) = false
  end.

(** Every action of the process keeps to [step_ok], every guard opens when it
    must, and the process ends with a result and a phase that satisfy [Q]. *)
Fixpoint disciplined (me : thread_id) {A} (p : proc A) (Q : result A → phase → Prop) (ph : phase) : Prop :=
  match p with
  | Done r => Q r ph
  | Atomic guard act k =>
      (∀ w, local_ok me ph w → enabled me ph w → guard w = true) ∧
      ∀ w r w', local_ok me ph w → guard w = true → yields act w r w' →
        ∃ ph', step_ok me ph ph' w w' ∧ disciplined me (k r) Q ph'
  end.

Class Neutral (me : thread_id) {A} (p : proc A) : Prop :=
  neutral : ∀ ph, active ph → disciplined me p (λ _ ph', ph' = ph) ph.

Lemma disciplined_mono me {A} (p : proc A) (Q Q' : result A → phase → Prop) ph :
  (∀ r ph', Q r ph' → Q' r ph') → disciplined me p Q ph → disciplined me p Q' ph.
Proof.
  intros HQ. revert ph. induction p as [r|X guard act k IH]; intros ph; simpl; [apply HQ|].
  intros [Hg Hk]. split; [done|]. intros w r w' Hl Hgw Hy.
  destruct (Hk w r w' Hl Hgw Hy) as (ph' & ? & ?). exists ph'. split; [done|]. by apply IH.
Qed.

Lemma disciplined_bind_result me {A B} (p : proc A) (f : result A → proc B) Q ph :
  disciplined me p (λ r ph', disciplined me (f r) Q ph') ph → disciplined me (bind_result p f) Q ph.
Proof.
  revert ph. induction p as [r|X guard act k IH]; intros ph; simpl; [done|].
  intros [Hg Hk]. split; [done|]. intros w r w' Hl Hgw Hy.
  destruct (Hk w r w' Hl Hgw Hy) as (ph' & ? & ?). exists ph'. split; [done|]. by apply IH.
Qed.

Lemma neutral_done me {A} (r : result A) : Neutral me (Done r).
Proof. by intros ph _. Qed.

Lemma neutral_bind_result me {A B} (p : proc A) (f : result A → proc B) :
  Neutral me p → (∀ r, Neutral me (f r)) → Neutral me (bind_result p f).
Proof.
  intros Hp Hf ph Ha. apply disciplined_bind_result. eapply disciplined_mono; [|by apply Hp].
  intros r ph' ->. by apply Hf.
Qed.

Lemma neutral_bind me {A B} (p : proc A) (f : A → proc B) :
  Neutral me p → (∀ a, Neutral me (f a)) → Neutral me (p ≫= f).
Proof. intros Hp Hf. apply neutral_bind_result; [done|]. intros [a|e]; [apply Hf|apply neutral_done]. Qed.

(** ** Actions outside the collector's own data: user code, handle words *)

Definition private {A} (act : M World A) : Prop := ∀ w r w', yields act w r w' → mgr w' = mgr w.

Lemma neutral_private me {A} (act : M World A) : private act → Neutral me (atomic act).
Proof.
  intros Hp ph Ha. split; [done|]. intros w r w' _ _ Hy. exists ph. split; [|by destruct r].
  apply so_publish; [done|]. apply publishes_mgr. by eapply Hp.
Qed.

(** ** Critical sections *)

Lemma step_ok_publish_first me ph ph' w w1 w' :
  active ph → publishes w w1 → step_ok me ph ph' w1 w' → step_ok me ph ph' w w'.
Proof.
  intros Ha Hpub H. pose proof (publishes_same _ _ Hpub) as [Ht Hc].
  pose proof (control_parts _ _ Hc) as (Hcol & Hs & Hg). pose proof (same_threads me _ _ Ht) as [Hp Hr].
  assert (∀ w2, own_entry me w1 w2 → own_entry me w w2) as Hown
    by (intros w2 [H1 H2]; split; rewrite <-Ht; auto).
  destruct H as [ph w1 w' _ Hpub'|ph w1 w' _ Hrun Hc' Ho Hp'|w1 w' Hreg Hpub'| |w1 w' Hreg Hc' Ho Hp' Hr'| |
    w1 w' Hcol' Hc' Ht'|w1 w' Hc' Ht'].
  - apply so_publish; [done|]. by eapply publishes_trans.
  - apply so_act; [done|by rewrite <-(may_run_control _ _ _ Hc)|congruence|auto|congruence].
  - apply so_wait; [congruence|]. by eapply publishes_trans.
  - by destruct (proj2 (active_ne _ Ha)).
  - apply so_park; [congruence|congruence|auto|done|done].
  - by destruct (proj1 (active_ne _ Ha)).
  - apply so_request; congruence.
  - apply so_release; congruence.
Qed.

Definition section_ok (me : thread_id) {A} (body : M World A) (Q : result A → phase → Prop) (ph : phase) : Prop :=
  ∀ w r w', local_ok me ph w → may_run me w = true → yields body w r w' →
    ∃ ph', step_ok me ph ph' w w' ∧ Q r ph'.

Lemma owner_may_run me w : local_ok me Owner w → may_run me w = true.
Proof.
  intros Hl. unfold may_run. rewrite (proj1 (lo_owner _ _ _ Hl) eq_refl), bool_decide_true by done.
  apply orb_true_r.
Qed.

Lemma own_entry_alter f me w w' :
  threads w' = sm_alter f me (threads w) → own_entry me w w'.
Proof.
  intros E. split; rewrite E; [|apply sm_wf_alter].
  intros t Ht. rewrite sm_find_alter. by destruct (Z.eqb_spec t me).
Qed.

Section Sections.
Context {ASAN : AsanRuntime} (me : thread_id) (env : ParkEnv) {A : Type}.
Context (pre : M World unit) (body : M World A) (Q : result A → phase → Prop).

(** How [enter] ends. *)
Inductive entered (parking : M World unit) (w : World) : result (entry A) → World → Prop :=
| en_pre e w' : yields pre w (Raise e) w' → entered parking w (Raise e) w'
| en_body w1 a w' :
    yields pre w (Ok tt) w1 → may_run me w1 = true → yields body w1 (Ok a) w' →
    entered parking w (Ok (Entered A a)) w'
| en_throw w1 e w' :
    yields pre w (Ok tt) w1 → may_run me w1 = true → yields body w1 (Raise e) w' →
    entered parking w (Raise e) w'
| en_wait w1 :
    yields pre w (Ok tt) w1 → may_run me w1 = false → registered me w1 = false →
    entered parking w (Ok (Not_registered A)) w1
| en_park w1 w' :
    yields pre w (Ok tt) w1 → may_run me w1 = false → registered me w1 = true →
    yields parking w1 (Ok tt) w' → entered parking w (Ok (Must_park A)) w'.

Lemma enter_entered (f : World → World) w r w' :
  yields (enter me pre (modify f) body) w r w' → entered (modify f) w r w'.
Proof.
  unfold yields, enter, mbind, M_bind, get, mret, M_ret.
  destruct (pre w) as [[] w1|e w1|why] eqn:Hpre.
  - destruct (may_run me w1) eqn:Hrun.
    + destruct (body w1) as [a w2|e w2|why] eqn:Hb; destruct r as [x|e']; intros E; simplify_eq;
        [by apply (en_body _ _ w1)|by apply (en_throw _ _ w1)].
    + destruct (registered me w1) eqn:Hreg; simpl; destruct r as [x|e']; intros E; simplify_eq;
        [by apply (en_park _ _ w1)|by apply en_wait].
  - destruct r; intros E; simplify_eq. by apply en_pre.
  - by destruct r.
Qed.

Lemma unregistered_section :
  section_ok me body Q Running → disciplined me (Atomic (may_run me) body Done) Q Waiting.
Proof.
  intros Hb. split; [intros w _ Hs; unfold may_run; simpl in Hs; by rewrite Hs|].
  intros w r w' Hl Hrun Hy. destruct (Hb w r w' (local_ok_waiting _ _ Hl) Hrun Hy) as (ph' & Hs & HQ).
  exists ph'. split; [by apply so_resume|done].
Qed.

Lemma parked_section :
  section_ok me body Q Running → disciplined me (parked_node me body) Q Paused.
Proof.
  intros Hb. split; [intros w _ Hs; simpl in Hs; by rewrite Hs|].
  intros w r w' Hl Hg Hy. apply negb_true_iff in Hg.
  change (yields body (set_mgr (set_threads (sm_alter (λ s,
    {| ts_stack_bottom := ts_stack_bottom s; ts_parked_stack_top := 0; ts_fake_stack_handle := 0;
       ts_register_spill := replicate (length (ts_register_spill s)) 0;
       ts_paused_for_collection := false |}) me)) w) r w') in Hy.
  match type of Hy with yields _ ?w1 _ _ => set (w1' := w1) in Hy end.
  assert (control w1' = control w) as Hc by done.
  assert (paused me w1' = false) as Hp.
  { unfold paused. simpl. rewrite sm_find_alter, Z.eqb_refl. by destruct (sm_find me (threads w)). }
  assert (own_entry me w w1') as Ho by by eapply own_entry_alter.
  destruct (Hb w1' r w') as (ph' & Hs & HQ); [by apply (local_ok_resumed me w)| |done|].
  { rewrite (may_run_control _ _ _ Hc). unfold may_run. by rewrite Hg. }
  exists ph'. split; [|done]. apply (so_unpark me ph' w w1'); [done..].
Qed.

Lemma entered_step (f : World → World) ph w r w' :
  active ph → local_ok me ph w → (∀ w r w', yields pre w r w' → publishes w w') →
  (∀ e, Q (Raise e) ph) → section_ok me body Q ph → entered (modify f) w r w' →
  (∃ ph', step_ok me ph ph' w w' ∧
     match r with Ok (Entered _ a) => Q (Ok a) ph' | Raise e => Q (Raise e) ph' | _ => False end) ∨
  (ph = Running ∧ ∃ w1, publishes w w1 ∧ may_run me w1 = false ∧
     ((r = Ok (Not_registered A) ∧ registered me w1 = false ∧ w' = w1) ∨
      (r = Ok (Must_park A) ∧ registered me w1 = true ∧ w' = f w1))).
Proof.
  intros Ha Hl Hpre HQ Hb H.
  assert (∀ w1, yields pre w (Ok tt) w1 → may_run me w1 = false → ph = Running) as Hrun.
  { intros w1 Hy Hf. destruct Ha as [->| ->]; [done|]. rewrite owner_may_run in Hf; [done|].
    apply (local_ok_publishes _ _ w); [by eapply Hpre|done]. }
  assert (∀ w1 rb w', yields pre w (Ok tt) w1 → may_run me w1 = true → yields body w1 rb w' →
    ∃ ph', step_ok me ph ph' w w' ∧ Q rb ph') as Hbody.
  { intros w1 rb w2 Hy Hf Hyb. pose proof (Hpre _ _ _ Hy) as Hpub.
    destruct (Hb w1 rb w2 (local_ok_publishes _ _ _ _ Hpub Hl) Hf Hyb) as (ph' & ? & ?).
    exists ph'. split; [|done]. by eapply step_ok_publish_first. }
  destruct H as [e w' Hy|w1 a w' Hy Hf Hyb|w1 e w' Hy Hf Hyb|w1 Hy Hf Hreg|w1 w' Hy Hf Hreg Hyp].
  - left. exists ph. split; [apply so_publish; [done|by eapply Hpre]|apply HQ].
  - left. by apply (Hbody w1 (Ok a)).
  - left. by apply (Hbody w1 (Raise e)).
  - right. split; [by eapply Hrun|]. exists w1. split_and!; [by eapply Hpre|done|]. left. done.
  - right. split; [by eapply Hrun|]. exists w1. split_and!; [by eapply Hpre|done|]. right.
    split_and!; [done|done|]. by injection Hyp as <-.
Qed.
End Sections.

Lemma publishes_nothing w (r : result unit) w' : yields (mret tt) w r w' → publishes w w'.
Proof. destruct r; intros E; [|done]. injection E as _ <-. apply publishes_refl. Qed.

(** The rule for a critical section: it is enough to look at its body. *)
Lemma disciplined_locked_after {ASAN : AsanRuntime} me env {A} (pre : M World unit) (body : M World A) Q ph :
  active ph → (∀ w r w', yields pre w r w' → publishes w w') → (∀ e, Q (Raise e) ph) →
  section_ok me body Q ph → disciplined me (locked_after me env pre body) Q ph.
Proof.
  intros Ha Hpre HQ Hb. split; [done|]. intros w r w' Hl _ Hy.
  apply (enter_entered me pre body (λ w, w)) in Hy.
  destruct (entered_step me pre body Q (λ w, w) ph w r w' Ha Hl Hpre HQ Hb Hy)
    as [(ph' & Hs & HQr)|(-> & w1 & Hpub & Hrun & [(-> & Hreg & ->)|(-> & Hreg & ->)])].
  - exists ph'. split; [done|]. by destruct r as [[a| |]|e].
  - exists Waiting. split; [by apply so_wait; [rewrite <-(proj2 (same_threads me _ _ (proj1 (publishes_same _ _ Hpub))))|]|].
    by apply unregistered_section.
  - exists Running. split; [by apply so_publish; [left|]|].
    split; [done|]. intros w2 r2 w3 Hl2 _ Hy2. apply enter_entered in Hy2.
    destruct (entered_step me (mret tt) body Q _ Running w2 r2 w3 Ha Hl2 publishes_nothing HQ Hb Hy2)
      as [(ph' & Hs & HQr)|(_ & w4 & Hpub4 & Hrun4 & [(-> & Hreg4 & ->)|(-> & Hreg4 & ->)])].
    + exists ph'. split; [done|]. by destruct r2 as [[a| |]|e].
    + exists Waiting. split; [|by apply unregistered_section]. apply so_wait; [|done].
      by rewrite <-(proj2 (same_threads me _ _ (proj1 (publishes_same _ _ Hpub4)))).
    + exists Paused. split; [|by apply parked_section].
      destruct (publishes_same _ _ Hpub4) as [Ht4 Hc4].
      apply (step_ok_publish_first me _ _ w2 w4); [done..|].
      assert (∃ s, sm_find me (threads w4) = Some s ∧ ts_stack_bottom s ≠ 0) as (s & Hs & Hsb).
      { unfold registered, find_thread_state_locked in Hreg4.
        destruct (sm_find me (threads w4)) as [s|]; [|done]. exists s. split; [done|].
        by destruct (Z.eqb_spec (ts_stack_bottom s) 0). }
      apply so_park; [done|done|by eapply own_entry_alter| |].
      * unfold paused. simpl. by rewrite sm_find_alter, Z.eqb_refl, Hs.
      * unfold registered, find_thread_state_locked. simpl. rewrite sm_find_alter, Z.eqb_refl, Hs. simpl.
        by destruct (Z.eqb_spec (ts_stack_bottom s) 0).
Qed.

(** ** Bodies that leave threads and control alone *)

Definition calm {A} (act : M World A) : Prop :=
  ∀ w r w', yields act w r w' → threads w' = threads w ∧ control w' = control w.

Lemma calm_ret {A} (a : A) : calm (mret a).
Proof. intros w [x|e] w' E; [|done]. by injection E as _ <-. Qed.

Lemma calm_throw {A} e : calm (throw (A := A) e).
Proof. intros w [x|e'] w' E; [done|]. by injection E as _ <-. Qed.

Lemma calm_get : calm get.
Proof. intros w [x|e] w' E; [|done]. by injection E as _ <-. Qed.

Lemma calm_gets {A} (f : World → A) : calm (gets f).
Proof. intros w [x|e] w' E; [|done]. by injection E as _ <-. Qed.

Lemma calm_stuck {A} why : calm (λ _, Stuck why : outcome World A).
Proof. by intros w [x|e] w' E. Qed.

Lemma calm_modify f :
  (∀ w, threads (f w) = threads w ∧ control (f w) = control w) → calm (modify f).
Proof. intros Hf w [x|e] w' E; [|done]. injection E as _ <-. apply Hf. Qed.

Lemma calm_bind {A B} (m : M World A) (f : A → M World B) :
  calm m → (∀ a, calm (f a)) → calm (m ≫= f).
Proof.
  intros Hm Hf w r w' E. unfold yields, mbind, M_bind in E.
  destruct (m w) as [a w1|e w1|] eqn:Em; [| |by destruct r].
  - destruct (Hm w (Ok a) w1 Em) as [<- <-]. by apply (Hf a w1 r w').
  - destruct r; [done|]. injection E as -> <-. by apply (Hm w (Raise _) w1 Em).
Qed.

Lemma calm_foldM {A B} (f : A → B → M World B) l b :
  (∀ a b, calm (f a b)) → calm (foldM f l b).
Proof.
  intros Hf. revert b. induction l as [|a l IH]; intros b; [apply calm_ret|].
  apply calm_bind; [apply Hf|apply IH].
Qed.

Lemma calm_catch {A} (m : M World A) h : calm m → (∀ e, calm (h e)) → calm (catch m h).
Proof.
  intros Hm Hh w r w' E. unfold yields, catch in E.
  destruct (m w) as [a w1|e w1|] eqn:Em; [| |by destruct r].
  - destruct r; [|done]. injection E as _ <-. by apply (Hm w (Ok a) w1).
  - destruct (Hm w (Raise e) w1 Em) as [<- <-]. by apply (Hh e w1 r w').
Qed.

Lemma calm_native_alloc : calm native_alloc.
Proof.
  intros w r w' E. unfold yields, native_alloc in E.
  destruct (oom w) as [|[] o], r; simplify_eq; done.
Qed.

Lemma calm_read_header p : calm (read_header p).
Proof.
  intros w r w' E. unfold yields, read_header in E.
  destruct (headers w !! p), r; simplify_eq; done.
Qed.

Lemma calm_write_header p f : calm (write_header p f).
Proof.
  intros w r w' E. unfold yields, write_header in E.
  destruct (headers w !! p), r; simplify_eq; done.
Qed.

Create HintDb calm discriminated.
#[export] Hint Resolve calm_ret calm_throw calm_get calm_gets calm_stuck
  calm_native_alloc calm_read_header calm_write_header : calm.

(** Walks through the binds, loops and branches of a body. *)
Ltac calm :=
  repeat first
    [ solve [auto 3 with calm nocore]
    | apply calm_modify; intros ?; split; reflexivity
    | apply calm_bind; [|intros ?]
    | apply calm_foldM; intros ? ?
    | apply calm_catch; [|intros ?]
    | case_match ].

Lemma section_ok_calm me {A} (body : M World A) ph :
  active ph → calm body → section_ok me body (λ _ ph', ph' = ph) ph.
Proof.
  intros Ha Hc w r w' Hl Hrun [Ht Hctl]%Hc. exists ph. split; [|done].
  apply so_act; [done..|by apply own_entry_same|]. by apply same_threads.
Qed.

Section Locked.
Context {ASAN : AsanRuntime} (me : thread_id) (env : ParkEnv).

Lemma neutral_locked {A} (body : M World A) : calm body → Neutral me (locked me env body).
Proof.
  intros Hc ph Ha. apply disciplined_locked_after; [done|apply publishes_nothing|done|].
  by apply section_ok_calm.
Qed.

(** The collector's node: waiting for the others, then acting. *)
Lemma disciplined_wait {A B} (act : M World A) (k : result A → proc B) Q :
  calm act → (∀ r, disciplined me (k r) Q Owner) →
  disciplined me (bind_result (wait_for_other_threads_to_pause_locked me act) k) Q Owner.
Proof.
  intros Hc Hk. split; [done|]. intros w r w' Hl _ [Ht Hctl]%Hc. exists Owner. split; [|apply Hk].
  apply so_act; [by right|by apply owner_may_run|done|by apply own_entry_same|]. by apply same_threads.
Qed.

Lemma disciplined_release {B} (k : unit → proc B) Q :
  disciplined me (k tt) Q Running → disciplined me (release_stop_the_world ≫= k) Q Owner.
Proof.
  intros Hk. split; [done|]. intros w r w' Hl _ Hy. destruct r as [[]|e]; [|done].
  injection Hy as <-. exists Running. split; [|done]. by apply so_release.
Qed.

Lemma section_ok_request {A} (body : M World A) (stops : A → bool) ph :
  active ph →
  (∀ w r w', yields body w r w' →
     (threads w' = threads w ∧ control w' = control w ∧ ∀ a, r = Ok a → stops a = false) ∨
     (collecting_ (mgr w) = false ∧ w' = set_mgr (set_stw (Some me) true true) w ∧ ∃ a, r = Ok a ∧ stops a = true)) →
  section_ok me body (λ r ph', match r with
    | Ok a => if stops a then ph = Running ∧ ph' = Owner else ph' = ph
    | Raise _ => ph' = ph end) ph.
Proof.
  intros Ha Hb w r w' Hl Hrun Hy. destruct (Hb w r w' Hy) as [(Ht & Hc & Hs)|(Hc & -> & a & -> & Hs)].
  - exists ph. split.
    + apply so_act; [done..|by apply own_entry_same|]. by apply same_threads.
    + destruct r as [a|e]; [|done]. by rewrite (Hs a eq_refl).
  - destruct Ha as [->| ->].
    + exists Owner. rewrite Hs. split; [by apply so_request|done].
    + exfalso. pose proof (proj1 (lo_owner _ _ _ Hl) eq_refl) as E.
      destruct (lo_control _ _ _ Hl) as [E'|[c E']]; unfold control in E'; congruence.
Qed.
End Locked.
