(* ===== verification/Collect.v ===== *)
(** * Collection and shutdown

    [collect], [collect_if_needed], [shutdown], [destroy_blocks] and
    [free_block_memory] of src/src/GCManager.cpp.  Destructors are user code:
    [dtor d p] is the process that the [DestructorFn] [d] runs on the payload
    [p]; it may call back into the collector. *)

From S2P Require Import Prelude Words Memory OrdMap Chunk Manager Heap Scanner Mark.
From S2P Require Import Finalize WeakRefs Sweep Threads.

(** What the machine gives a collection: the scan and parking environments and
    two readings of the steady clock. *)
Record CollectEnv := {
  ce_scan : ScanEnv;
  ce_park : ParkEnv;
  ce_start : Z;
  ce_now : Z;
}.

Definition operator_delete (raw alignment : Z) : M World unit := λ w,
  match blocks w !! raw with
  | Some (_, a) =>
      if a =? alignment then Ret tt (add_log (EvFree raw) (set_blocks (delete raw) w))
      else Stuck Undefined_behaviour
  | None => Stuck Undefined_behaviour
  end.

Definition free_block_memory (header : Z) : M World unit :=
  h ← read_header header;
  let alignment := allocation_alignment h in
  modify (set_headers (delete header));;
  operator_delete header alignment.

Definition bytes_freed (unreachable : list Z) : M World Z :=
  foldM (λ p acc, h ← read_header p; mret (wrap64 (acc + ch_size h))) unreachable 0.

Definition stats_on_collect (nblocks bytes duration : Z) (s : GCStats) : GCStats :=
  {| total_collections := wrap64 (total_collections s + 1);
     bytes_reclaimed_last := bytes;
     blocks_reclaimed_last := nblocks;
     bytes_reclaimed_total := wrap64 (bytes_reclaimed_total s + bytes);
     duration_last := duration;
     duration_total := duration_total s + duration;
     total_allocations := total_allocations s;
     bytes_allocated_total := bytes_allocated_total s;
     peak_live_bytes := peak_live_bytes s;
     peak_live_blocks := peak_live_blocks s |}.

Section Collect.
Context {ASAN : AsanRuntime} (dtor : DestructorFn → Z → proc unit).

(** A finalizer that throws ends the program. *)
Definition finalize_block (header : Z) : proc unit :=
  if header =? 0 then mret tt
  else
    h ← atomic (read_header header);
    if ch_destructor h =? 0 then mret tt
    else
      atomic (modify (add_log (EvFinalize (payload_pointer header h))));;
      bind_result (dtor (ch_destructor h) (payload_pointer header h)) (λ r,
        match r with
        | Ok _ => mret tt
        | Raise _ => atomic (λ _, Stuck Terminated)
        end).

Fixpoint finalize_blocks (blocks : list Z) : proc unit :=
  match blocks with
  | [] => mret tt
  | header :: blocks' => finalize_block header;; finalize_blocks blocks'
  end.

Fixpoint free_blocks (blocks : list Z) : proc unit :=
  match blocks with
  | [] => mret tt
  | header :: blocks' => atomic (free_block_memory header);; free_blocks blocks'
  end.

Definition destroy_blocks (blocks : list Z) : proc unit :=
  finalize_blocks blocks;; free_blocks blocks.

Context (me : thread_id) (env : CollectEnv).

(** [collect] up to the wait; [false] is the early return. *)
Definition collect_enter : M World bool :=
  w ← get;
  if collecting_ (mgr w) then mret false
  else
    require_registered_thread_locked me;;
    request_stop_the_world me;;
    mret true.

(** From the end of the wait to the end of the [try] block. *)
Definition collect_locked : M World (list Z) :=
  mark_phase (ce_scan env) me;;
  unreachable ← sweep_locked;
  bytes ← bytes_freed unreachable;
  modify (set_mgr (set_stats (stats_on_collect (Z.of_nat (length unreachable)) bytes
                                (ce_now env - ce_start env))));;
  mret unreachable.

Definition collect : proc unit :=
  entered ← locked me (ce_park env) collect_enter;
  if negb entered then mret tt
  else
    bind_result (wait_for_other_threads_to_pause_locked me collect_locked) (λ r,
      match r with
      | Raise e => release_stop_the_world;; raise e
      | Ok unreachable => destroy_blocks unreachable;; release_stop_the_world
      end).

Definition collection_needed (incoming_payload_bytes : Z) : M World bool :=
  require_registered_thread_locked me;;
  w ← get;
  let managed := managed_bytes_ (mgr w) in
  let projected :=
    if add_would_overflow managed incoming_payload_bytes then SIZE_MAX
    else wrap64 (managed + incoming_payload_bytes) in
  mret (negb (collecting_ (mgr w)) && (collection_threshold_bytes_ (mgr w) <=? projected)).

Definition collect_if_needed (incoming_payload_bytes : Z) : proc unit :=
  should_collect ← locked me (ce_park env) (collection_needed incoming_payload_bytes);
  if (should_collect : bool) then collect else mret tt.

Definition shutdown_enter : M World bool :=
  w ← get;
  if collecting_ (mgr w) then mret false
  else request_stop_the_world me;; mret true.

Definition shutdown_locked : M World (list Z) :=
  w ← get;
  foldM (λ kb _, if br_constructing kb.2
                 then throw (logic_error "GC-Lib cannot shut down during object construction.")
                 else mret tt) (allocations w) tt;;
  blocks ← detach_all_blocks_locked;
  foldM (λ e _, when (negb (we_storage e =? 0)) (write_word (we_storage e) 0)) (weak_refs w) tt;;
  modify (set_mgr (set_weak_refs (λ _, [])));;
  modify (set_mgr (set_stats (λ _, GCStats_init)));;
  mret blocks.

Definition shutdown : proc unit :=
  entered ← locked me (ce_park env) shutdown_enter;
  if negb entered then mret tt
  else
    bind_result (wait_for_other_threads_to_pause_locked me shutdown_locked) (λ r,
      match r with
      | Raise e => release_stop_the_world;; raise e
      | Ok blocks => destroy_blocks blocks;; release_stop_the_world
      end).
End Collect.

(** ** The locked part of a collection *)

Section Collected.
Context {ASAN : AsanRuntime} (env : CollectEnv) (me : thread_id).

Definition roots_of (w : World) : list Z := root_candidates (ce_scan env) me w.

(** A root reaches the block [k]. *)
Definition live (w : World) (k : Z) : Prop := reachable w (roots_of w) k.

(** The dead block [k] points into the different dead block [k']. *)
Definition dead_edge (w : World) (k k' : Z) : Prop :=
  ¬ live w k ∧ ¬ live w k' ∧ k ≠ k' ∧ edge w k k'.

(** The weak entry points into a block that survives. *)
Definition live_entry (w : World) (e : WeakRefEntry) : Prop :=
  ∃ k b, (k, b) ∈ allocations w ∧ live w k ∧ k <= we_target e < br_payload_end b.

(** What a collection that detached the headers [hs] did to the world. *)
Record collected (w w' : World) (hs : list Z) : Prop := {
  co_wf : heap_wf w';
  co_alloc : ∀ kb, kb ∈ allocations w' ↔ kb ∈ allocations w ∧ live w kb.1;
  co_dead : NoDup hs ∧ ∀ p, p ∈ hs ↔ ∃ k b, (k, b) ∈ allocations w ∧ ¬ live w k ∧ br_header b = p;
  co_order : ∀ k b k' b', (k, b) ∈ allocations w → (k', b') ∈ allocations w →
    dead_edge w k k' → Acc (dead_edge w) k' → before hs (br_header b) (br_header b');
  co_weak : ∀ e, e ∈ weak_refs w' ↔ e ∈ weak_refs w ∧ live_entry w e;
  co_weak_sub : weak_refs w' `sublist_of` weak_refs w;
  co_mem : ∃ dead, mem w' = clear_words dead (mem w) ∧
    ∀ e, e ∈ dead ↔ e ∈ weak_refs w ∧ ¬ live_entry w e;
  co_unmarked : ∀ kb, kb ∈ allocations w' → markedb w' kb = false;
  co_stats : stats_ (mgr w') =
    stats_on_collect (Z.of_nat (length hs)) (managed_bytes_ (mgr w) - managed_bytes_ (mgr w'))
      (ce_now env - ce_start env) (stats_ (mgr w));
  co_rest : same_rest (set_mgr (set_stats (λ _, stats_ (mgr w'))) w) w';
}.

End Collected.

(** ** Lemmas *)

Lemma same_rest_oom o w : same_rest w (with_oom o w).
Proof. by split. Qed.

Lemma marked_markedb w k b : heap_wf w → (k, b) ∈ allocations w → marked w k ↔ markedb w (k, b) = true.
Proof.
  intros Hwf Hin. split; [|by exists b].
  intros (b' & Hin' & Hb). by rewrite (wf_key_inj w Hwf _ _ _ Hin Hin').
Qed.

Definition size_at (w : World) (p : Z) : Z :=
  match headers w !! p with Some h => ch_size h | None => 0 end.

Lemma bytes_freed_spec w hs :
  (∀ p, p ∈ hs → is_Some (headers w !! p) ∧ 0 <= size_at w p) →
  sumZ (size_at w <$> hs) <= SIZE_MAX →
  bytes_freed hs w = Ret (sumZ (size_at w <$> hs)) w.
Proof.
  intros Hh Hmax. unfold bytes_freed.
  enough (∀ acc, 0 <= acc → acc + sumZ (size_at w <$> hs) <= SIZE_MAX →
    foldM (λ p acc, h ← read_header p; mret (wrap64 (acc + ch_size h))) hs acc w =
    Ret (acc + sumZ (size_at w <$> hs)) w) as H by (rewrite H by lia; f_equal; lia).
  clear Hmax. induction hs as [|p hs IH]; intros acc Ha Hmax; csimpl; [by rewrite Z.add_0_r|].
  destruct (Hh p) as [[h Hp] Hpos]; [left|]. csimpl in *.
  assert (0 <= sumZ (size_at w <$> hs)).
  { apply sumZ_nonneg. intros x (q & -> & Hq)%list_elem_of_fmap. apply Hh. by right. }
  assert (E : (h ← read_header p; mret (wrap64 (acc + ch_size h))) w = Ret (acc + size_at w p) w).
  { unfold read_header, mbind, M_bind, size_at in *. rewrite Hp in *.
    rewrite wrap64_size; [done|]. unfold is_size. lia. }
  mstep E. rewrite Z.add_assoc. apply IH; [|lia|lia]. intros; apply Hh; by right.
Qed.

(** Sizes do not depend on marks. *)
Lemma size_at_same w w' p : same_rest w w' → size_at w p = size_at w' p.
Proof.
  intros Hr. pose proof (f_equal (lookup p) (sr_headers _ _ Hr)) as Hp.
  rewrite !lookup_fmap in Hp. unfold size_at.
  by destruct (headers w !! p), (headers w' !! p); simplify_eq/=.
Qed.

Lemma same_rest_header w w' p : same_rest w w' → is_Some (headers w !! p) → is_Some (headers w' !! p).
Proof.
  intros Hr [h Hh]. pose proof (f_equal (lookup p) (sr_headers _ _ Hr)) as Hp.
  rewrite !lookup_fmap, Hh in Hp. destruct (headers w' !! p); [eauto|done].
Qed.

Lemma size_at_block w k b : heap_wf w → (k, b) ∈ allocations w →
  is_Some (headers w !! br_header b) ∧ size_at w (br_header b) = payload_size (k, b).
Proof.
  intros Hwf Hin. destruct (wf_read_header w Hwf k b Hin) as (h & Hh & _ & _ & Hs & _).
  unfold size_at. by rewrite Hh.
Qed.

(** *** The mark phase returns, or throws having changed nothing but marks *)

Section Locked.
Context {ASAN : AsanRuntime} (env : CollectEnv) (me : thread_id).

Lemma mark_phase_cases w :
  heap_wf w → roots_ok (ce_scan env) w →
  ∃ w1, with_oom (oom w) w1 ≈ₘ w ∧
    ((mark_phase (ce_scan env) me w = Throw bad_alloc w1 ∧ may_fail w) ∨
     (mark_phase (ce_scan env) me w = Ret tt w1 ∧ (may_fail w1 → may_fail w) ∧
      ∀ k, marked w1 k ↔ live env me w k)).
Proof.
  intros Hwf Hr. destruct (clear_marks_spec w Hwf) as (wc & Ec & Hec & Hclear).
  pose proof (oom_Proper _ _ Hec) as Ho.
  destruct (native_alloc_cases wc) as [(o & E & Hf)|(o & E & Hf)]; unfold may_fail in Hf; rewrite Ho in Hf.
  - destruct (mark_phase_spec (ce_scan env) me w (with_oom o wc)) as (w1 & E1 & Heq & Heq' & Hm).
    { done. } { done. } { by mstep Ec. }
    exists w1. split; [done|]. right. split_and!; [done| |done].
    unfold may_fail. by rewrite (oom_Proper _ _ Heq).
  - exists (with_oom o wc). split.
    + etrans; [|done]. change (with_oom (oom w) (with_oom o wc)) with (with_oom (oom w) wc).
      rewrite <-Ho. by rewrite with_oom_id.
    + left. split; [|done]. unfold mark_phase. mstep Ec. by mthrow E.
Qed.

(** *** From the sweep to [collected] *)

Context (w w1 w2 : World) (o : list bool) (hs : list Z).
Context (Hwf : heap_wf w) (Hw1 : with_oom (oom w) w1 ≈ₘ w).
Context (Hmarks : ∀ k, marked w1 k ↔ live env me w k).
Context (Hsw : swept (allocations w1) (with_oom o w1) w2).
Context (Hord : order_blocks_for_finalization_locked (mem w1) (dead_blocks w1) = Some hs).
Context (Hperm : hs ≡ₚ br_header <$> dead_blocks w1).

Lemma w1_mgr : mgr w1 = mgr w.
Proof. apply (mgr_Proper _ _ Hw1). Qed.

Lemma w1_mem : mem w1 = mem w.
Proof. apply (mem_Proper _ _ Hw1). Qed.

Lemma w1_wf : heap_wf w1.
Proof.
  assert (heap_wf (with_oom (oom w) w1)) as H by by rewrite Hw1.
  eapply heap_wf_ext, H; done.
Qed.

Lemma w1_live k b : (k, b) ∈ allocations w → markedb w1 (k, b) = true ↔ live env me w k.
Proof.
  intros Hin. rewrite <-Hmarks, (marked_markedb w1 k b); [done|apply w1_wf|by rewrite w1_mgr].
Qed.

Lemma w1_dead k b : (k, b) ∈ allocations w → markedb w1 (k, b) = false ↔ ¬ live env me w k.
Proof. intros Hin. rewrite <-(w1_live k b Hin). by destruct (markedb _ _). Qed.

Lemma elem_of_dead b :
  b ∈ dead_blocks w1 ↔ ∃ k, (k, b) ∈ allocations w ∧ ¬ live env me w k.
Proof.
  unfold dead_blocks. rewrite list_elem_of_fmap. split.
  - intros ([k b'] & -> & [Hm Hin]%list_elem_of_filter). rewrite w1_mgr in Hin.
    exists k. split; [done|]. by eapply w1_dead.
  - intros (k & Hin & Hl). exists (k, b). split; [done|]. apply list_elem_of_filter.
    rewrite w1_mgr. split; [|done]. by eapply w1_dead.
Qed.

Lemma sweep_alloc kb : kb ∈ allocations w2 ↔ kb ∈ allocations w ∧ live env me w kb.1.
Proof.
  destruct kb as [k b].
  rewrite (sw_alloc _ _ _ Hsw), list_elem_of_filter. change (allocations (with_oom o w1)) with (allocations w1).
  change (markedb (with_oom o w1)) with (markedb w1). rewrite w1_mgr. split.
  - intros [[?|Hm] Hin]; [done|]. split; [done|]. by eapply w1_live.
  - intros [Hin Hl]. split; [|done]. right. by eapply w1_live.
Qed.

Lemma dead_hits_live e :
  e ∈ weak_refs w → dead_hits (with_oom o w1) (allocations w1) e = true ↔ ¬ live_entry env me w e.
Proof.
  intros He. rewrite w1_mgr. unfold dead_hits. change (markedb (with_oom o w1)) with (markedb w1).
  destruct (wf_weak w Hwf e He) as (k & b & Hin & Ht). rewrite existsb_exists. split.
  - intros ([k1 b1] & Hin1%list_elem_of_In & Hh). apply andb_prop in Hh as [Hm Hh].
    apply negb_true_iff in Hm. apply weak_hits_spec in Hh. simpl in *.
    intros (k2 & b2 & Hin2 & Hl & Ht2). apply (w1_dead k1 b1 Hin1) in Hm.
    by destruct (wf_unique_key w Hwf _ _ _ _ _ Hin1 Hin2 Hh Ht2) as [-> _].
  - intros Hd. exists (k, b). split; [by apply list_elem_of_In|]. apply andb_true_intro.
    split; [|by apply weak_hits_spec]. apply negb_true_iff, (w1_dead k b Hin).
    intros Hl. apply Hd. by exists k, b.
Qed.

Lemma sweep_weak e : e ∈ weak_refs w2 ↔ e ∈ weak_refs w ∧ live_entry env me w e.
Proof.
  rewrite (sw_weak _ _ _ Hsw), list_elem_of_filter.
  change (weak_refs (with_oom o w1)) with (weak_refs w1). rewrite w1_mgr at 2.
  split; intros [H1 H2].
  - split; [done|]. pose proof (dead_hits_live e H2).
    destruct (wf_weak w Hwf e H2) as (k & b & Hin & Ht).
    exists k, b. split_and!; [done| |lia..]. apply (w1_live k b Hin).
    destruct (markedb w1 (k, b)) eqn:Hm; [done|]. exfalso.
    assert (dead_hits (with_oom o w1) (allocations w1) e = true); [|congruence].
    apply dead_hits_live; [done|]. intros (k2 & b2 & Hin2 & Hl & Ht2).
    destruct (wf_unique_key w Hwf _ _ _ _ _ Hin Hin2 Ht Ht2) as [-> ->].
    by apply (w1_dead k2 b2 Hin) in Hm.
  - split; [|done]. destruct (dead_hits _ _ _) eqn:E; [|done].
    by apply (dead_hits_live e H1) in E.
Qed.

Lemma sweep_weak_sub : weak_refs w2 `sublist_of` weak_refs w.
Proof.
  rewrite (sw_weak _ _ _ Hsw). change (weak_refs (with_oom o w1)) with (weak_refs w1).
  rewrite w1_mgr. apply sublist_filter.
Qed.

(** *** Finalization order *)

Lemma dead_sorted : blocks_sorted (dead_blocks w1).
Proof. apply sublist_sorted, w1_wf. Qed.

Lemma dead_lookup i b :
  dead_blocks w1 !! i = Some b → (br_payload_begin b, b) ∈ allocations w ∧ ¬ live env me w (br_payload_begin b).
Proof.
  intros Hi%list_elem_of_lookup_2. apply elem_of_dead in Hi as (k & Hin & Hl).
  by rewrite (wf_begin w Hwf _ _ Hin).
Qed.

Lemma dep_dead_edge i j bi bj :
  dead_blocks w1 !! i = Some bi → dead_blocks w1 !! j = Some bj →
  dep (mem w) (dead_blocks w1) i j ↔ dead_edge env me w (br_payload_begin bi) (br_payload_begin bj).
Proof.
  intros Hi Hj. destruct (dead_lookup _ _ Hi) as [Hini Hli], (dead_lookup _ _ Hj) as [Hinj Hlj]. split.
  - intros (bi' & bj' & a & Hi' & Hj' & Hne & Ha & Ht). simplify_eq. split_and!; [done..| |].
    + intros Heq. apply Hne. destruct (Nat.lt_trichotomy i j) as [Hlt|[|Hlt]]; [|done|].
      * pose proof (bs_order _ dead_sorted _ _ _ _ Hi Hj Hlt).
        pose proof (bs_range _ dead_sorted _ _ Hi). lia.
      * pose proof (bs_order _ dead_sorted _ _ _ _ Hj Hi Hlt).
        pose proof (bs_range _ dead_sorted _ _ Hj). lia.
    + exists bi, bj, a. split_and!; [done..|]. by apply (find_block_spec w Hwf).
  - intros (_ & _ & Hne & b & b' & a & Hin & Ha & [Hin' Ht]%(find_block_spec w Hwf)).
    rewrite (wf_key_inj w Hwf _ _ _ Hin Hini) in Ha. rewrite (wf_key_inj w Hwf _ _ _ Hin' Hinj) in Ht.
    exists bi, bj, a. split_and!; [done|done| |done|lia|lia]. congruence.
Qed.

Lemma dead_edge_acc k : Acc (dead_edge env me w) k →
  ∀ j b, dead_blocks w1 !! j = Some b → br_payload_begin b = k →
  Acc (dep (mem w) (dead_blocks w1)) j.
Proof.
  induction 1 as [k _ IH]. intros j b Hj <-. constructor. intros i Hij.
  assert (is_Some (dead_blocks w1 !! i)) as [bi Hi] by (destruct Hij as (bi & ? & ? & ? & _); eauto).
  eapply IH; [|done|done]. by apply (dep_dead_edge i j).
Qed.

Lemma before_fmap {A B} (f : A → B) l i j : before l i j → before (f <$> l) (f i) (f j).
Proof.
  intros (l1 & l2 & -> & Hi). exists (f <$> l1), (f <$> l2). rewrite fmap_app. split; [done|].
  apply list_elem_of_fmap. eauto.
Qed.

Lemma sweep_order k b k' b' :
  (k, b) ∈ allocations w → (k', b') ∈ allocations w →
  dead_edge env me w k k' → Acc (dead_edge env me w) k' → before hs (br_header b) (br_header b').
Proof.
  intros Hin Hin' Hd Hacc. pose proof Hd as (Hl & Hl' & _).
  assert (Hb : b ∈ dead_blocks w1) by (apply elem_of_dead; eauto).
  assert (Hb' : b' ∈ dead_blocks w1) by (apply elem_of_dead; eauto).
  apply list_elem_of_lookup in Hb as [i Hi], Hb' as [j Hj].
  pose proof (wf_begin w Hwf _ _ Hin). pose proof (wf_begin w Hwf _ _ Hin'). subst k k'.
  destruct (order_blocks_spec (mem w1) _ dead_sorted) as (ord & E & _ & Hbef).
  rewrite Hord in E. injection E as Ehs. rewrite w1_mem in Hbef. rewrite Ehs.
  assert (before ord i j) as Hij.
  { apply Hbef; [by apply (dep_dead_edge i j b b')|]. by eapply dead_edge_acc. }
  apply (before_fmap (header_of (dead_blocks w1))) in Hij.
  unfold header_of in Hij at 2 3. by rewrite Hi, Hj in Hij.
Qed.

(** *** The bytes freed are the bytes no longer managed *)

Lemma sweep_rest : same_rest (with_oom o w1) w2.
Proof. apply Hsw. Qed.

Lemma freed_sizes : sumZ (size_at w2 <$> hs) = managed_bytes_ (mgr w) - managed_bytes_ (mgr w2).
Proof.
  rewrite Hperm. unfold dead_blocks. rewrite <-!list_fmap_compose.
  rewrite (wf_managed w Hwf), (wf_managed w2 (sw_wf _ _ _ Hsw)), (sw_alloc _ _ _ Hsw).
  change (allocations (with_oom o w1)) with (allocations w1). rewrite w1_mgr.
  rewrite (sumZ_filter_split payload_size (λ kb, markedb w1 kb = false) (allocations w)).
  assert (filter (λ kb, ¬ markedb w1 kb = false) (allocations w) =
    filter (λ kb, kb ∉ allocations w ∨ markedb (with_oom o w1) kb = true) (allocations w)) as ->.
  { apply filter_ext_in. intros kb Hkb. change (markedb (with_oom o w1)) with (markedb w1).
    destruct (markedb w1 kb); naive_solver. }
  rewrite Z.add_simpl_r. f_equal. apply list_fmap_ext. intros i [k b] Hi. simpl.
  apply list_elem_of_lookup_2, list_elem_of_filter in Hi as [_ Hi].
  rewrite <-(size_at_same _ _ _ sweep_rest). change (size_at (with_oom o w1)) with (size_at w1).
  apply size_at_block; [apply w1_wf|by rewrite w1_mgr].
Qed.

Lemma freed_ok : bytes_freed hs w2 = Ret (managed_bytes_ (mgr w) - managed_bytes_ (mgr w2)) w2.
Proof.
  rewrite <-freed_sizes. apply bytes_freed_spec.
  - intros p. rewrite Hperm. intros (b & -> & Hb)%list_elem_of_fmap.
    apply elem_of_dead in Hb as (k & Hin & _). rewrite <-w1_mgr in Hin.
    destruct (size_at_block w1 k b w1_wf Hin) as [Hs He].
    rewrite <-(size_at_same _ _ _ sweep_rest). split; [by apply (same_rest_header _ _ _ sweep_rest)|].
    change (size_at (with_oom o w1)) with (size_at w1). rewrite He.
    pose proof (wf_extent w1 w1_wf _ _ Hin). unfold payload_size. simpl.
    rewrite (wf_begin w1 w1_wf _ _ Hin). lia.
  - rewrite freed_sizes. pose proof (wf_managed_max w Hwf).
    pose proof (managed_nonneg w2 (sw_wf _ _ _ Hsw)). lia.
Qed.

(** *** All of it *)

Lemma dead_headers_NoDup : NoDup hs.
Proof.
  rewrite Hperm. unfold dead_blocks. rewrite <-list_fmap_compose. apply NoDup_fmap_2_strong.
  - intros [k b] [k' b'] [_ Hin]%list_elem_of_filter [_ Hin']%list_elem_of_filter Heq.
    simpl in Heq. pose proof (wf_header_inj w1 w1_wf _ _ _ _ Hin Hin' Heq) as ->.
    by rewrite (wf_key_inj w1 w1_wf _ _ _ Hin Hin').
  - apply NoDup_filter, sm_wf_NoDup_entries, wf_sorted, w1_wf.
Qed.

Lemma sweep_memory :
  ∃ dead, mem w2 = clear_words dead (mem w) ∧
    ∀ e, e ∈ dead ↔ e ∈ weak_refs w ∧ ¬ live_entry env me w e.
Proof.
  destruct (sw_mem _ _ _ Hsw) as (dead & Em & Hd). exists dead.
  change (mem (with_oom o w1)) with (mem w1) in Em. rewrite w1_mem in Em. split; [done|].
  intros e. rewrite Hd. change (weak_refs (with_oom o w1)) with (weak_refs w1).
  rewrite w1_mgr at 1. split; intros [He Hh]; (split; [done|]); by apply dead_hits_live.
Qed.

Lemma sweep_unmarked kb : kb ∈ allocations w2 → markedb w2 kb = false.
Proof.
  intros Hin. rewrite (sw_marks _ _ _ Hsw) by done. rewrite decide_True; [done|].
  rewrite (sw_alloc _ _ _ Hsw) in Hin. by apply list_elem_of_filter in Hin as [_ Hin].
Qed.

Definition record_stats (w' : World) : World :=
  set_mgr (set_stats (stats_on_collect (Z.of_nat (length hs))
    (managed_bytes_ (mgr w) - managed_bytes_ (mgr w')) (ce_now env - ce_start env))) w'.

Lemma sweep_collected : collected env me w (record_stats w2) hs.
Proof.
  assert (Hr : same_rest w w2).
  { etrans; [|apply sweep_rest]. etrans; [|apply same_rest_oom].
    symmetry. etrans; [apply (same_rest_oom (oom w))|]. by apply marks_equiv_rest. }
  split; try done.
  - eapply heap_wf_ext, (sw_wf _ _ _ Hsw); done.
  - apply sweep_alloc.
  - split; [apply dead_headers_NoDup|]. intros p. rewrite Hperm, list_elem_of_fmap. split.
    + intros (b & -> & (k & ? & ?)%elem_of_dead). eauto.
    + intros (k & b & ? & ? & <-). exists b. split; [done|]. apply elem_of_dead. eauto.
  - intros *. apply sweep_order.
  - apply sweep_weak.
  - apply sweep_weak_sub.
  - apply sweep_memory.
  - apply sweep_unmarked.
  - unfold record_stats. simpl. by rewrite (sr_stats _ _ Hr).
  - destruct Hr. by split.
Qed.
End Locked.

Section CollectSpec.
Context {ASAN : AsanRuntime} (env : CollectEnv) (me : thread_id).

Lemma collect_locked_cases w :
  heap_wf w → roots_ok (ce_scan env) w →
  (∃ w', collect_locked me env w = Throw bad_alloc w' ∧ may_fail w ∧ with_oom (oom w) w' ≈ₘ w) ∨
  (∃ hs w', collect_locked me env w = Ret hs w' ∧ collected env me w w' hs).
Proof.
  intros Hwf Hr. unfold collect_locked.
  destruct (mark_phase_cases env me w Hwf Hr) as (w1 & Heq & [[E Hf]|(E & Hf & Hm)]).
  { left. exists w1. by mthrow E. }
  assert (heap_wf w1) as Hwf1 by by eapply w1_wf.
  mstep E. destruct (sweep_spec w1 Hwf1) as [(o & Es & Hf')|(o & hs & w2 & Es & Hsw & Ho & Hp & _)].
  - left. exists (with_oom o w1). split_and!; [by mthrow Es|auto|done].
  - right. mstep Es. exists hs, (record_stats env w hs w2). split; [|by eapply sweep_collected].
    assert (bytes_freed hs w2 = Ret (managed_bytes_ (mgr w) - managed_bytes_ (mgr w2)) w2) as Ef
      by by eapply freed_ok.
    by mstep Ef.
Qed.
End CollectSpec.

(** The weak table stays consistent with the handle words. *)
Lemma collected_weak_ok {ASAN : AsanRuntime} env me w w' hs :
  collected env me w w' hs → weak_ok w → weak_ok w'.
Proof.
  intros Hc Hok. destruct (co_mem _ _ _ _ _ Hc) as (dead & Hm & Hd).
  apply (weak_ok_sub w); [done|apply (co_weak_sub _ _ _ _ _ Hc)|].
  intros e [Hin Hl]%(co_weak _ _ _ _ _ Hc). rewrite Hm. apply clear_words_kept; [done| |done|].
  - by intros e' [? _]%Hd.
  - by intros [_ ?]%Hd.
Qed.
