(* ===== verification/CollectSpec.v ===== *)
(** * Whole collections

    What [destroy_blocks], [collect], [collect_if_needed] and [shutdown] do when
    the calling thread runs them alone, with the other threads parked. *)

From S2P Require Import Prelude Words Memory OrdMap Chunk Manager Heap Scanner Mark.
From S2P Require Import Finalize WeakRefs Sweep Threads Collect.

(** ** User finalizers

    A finalizer is arbitrary user code, but it must leave alone the headers and
    the storage of the batch being destroyed. *)

Record user_step (batch : list Z) (w w' : World) : Prop := {
  us_headers : ∀ p, p ∈ batch → headers w' !! p = headers w !! p;
  us_blocks : ∀ p, p ∈ batch → blocks w' !! p = blocks w !! p;
  us_log : log w' = log w;
}.

(** Finalizers that return. *)
Class Finalizers (batch : list Z) (dtor : DestructorFn → Z → proc unit) : Prop :=
  finalizer_runs : ∀ d p w, ∃ w', exec (dtor d p) w = Ret tt w' ∧ user_step batch w w'.

Definition no_finalizer : DestructorFn → Z → proc unit := λ _ _, mret tt.

#[export] Instance no_finalizer_ok batch : Finalizers batch no_finalizer.
Proof. intros d p w. exists w. by split. Qed.

(** The event the destruction of one header logs. *)
Definition finalize_event (w : World) (p : Z) : list event :=
  match headers w !! p with
  | Some h => if (p =? 0) || (ch_destructor h =? 0) then [] else [EvFinalize (payload_pointer p h)]
  | None => []
  end.

(** A batch that can be destroyed: distinct headers, each with its storage. *)
Record batch_ok (w : World) (hs : list Z) : Prop := {
  ba_nodup : NoDup hs;
  ba_header : ∀ p, p ∈ hs → ∃ h n, headers w !! p = Some h ∧
    blocks w !! p = Some (n, allocation_alignment h);
}.

Lemma batch_ok_ext w w' hs :
  (∀ p, p ∈ hs → headers w' !! p = headers w !! p ∧ blocks w' !! p = blocks w !! p) →
  batch_ok w hs → batch_ok w' hs.
Proof.
  intros Heq [Hnd Hh]. split; [done|]. intros p Hp.
  destruct (Hh p Hp) as (h & n & ? & ?), (Heq p Hp) as [-> ->]. eauto.
Qed.

Section Destroy.
Context (dtor : DestructorFn → Z → proc unit).

Lemma finalize_blocks_spec batch hs w :
  Finalizers batch dtor → (∀ p, p ∈ hs → p ∈ batch) → batch_ok w hs →
  ∃ w', exec (finalize_blocks dtor hs) w = Ret tt w' ∧
    log w' = log w ++ (p ← hs; finalize_event w p) ∧
    ∀ p, p ∈ batch → headers w' !! p = headers w !! p ∧ blocks w' !! p = blocks w !! p.
Proof.
  intros Hf. revert w. induction hs as [|p hs IH]; intros w Hb [Hnd Hh]; simpl.
  { exists w. by rewrite app_nil_r. }
  destruct (Hh p) as (h & n & Hp & _); [left|].
  assert (∃ w1, exec (finalize_block dtor p) w = Ret tt w1 ∧ log w1 = log w ++ finalize_event w p ∧
    ∀ q, q ∈ batch → headers w1 !! q = headers w !! q ∧ blocks w1 !! q = blocks w !! q)
    as (w1 & E1 & L1 & S1).
  { unfold finalize_block, finalize_event. rewrite Hp. destruct (p =? 0); cbn [orb].
    { exists w. by rewrite app_nil_r. }
    rewrite exec_bind, exec_atomic. unfold read_header. rewrite Hp.
    destruct (ch_destructor h =? 0).
    { exists w. by rewrite app_nil_r. }
    rewrite exec_bind, exec_atomic. cbn [modify]. rewrite exec_bind_result.
    destruct (finalizer_runs (ch_destructor h) (payload_pointer p h)
      (add_log (EvFinalize (payload_pointer p h)) w)) as (w' & E & [Sh Sb Sl]).
    exists w'. rewrite E. split; [done|]. split; [by rewrite Sl|]. intros q Hq. by rewrite Sh, Sb. }
  rewrite exec_bind, E1.
  assert (Hb1 : batch_ok w1 hs).
  { apply (batch_ok_ext w); [intros q Hq; apply S1, Hb; by right|].
    apply NoDup_cons in Hnd as [_ Hnd]. split; [done|]. intros; apply Hh; by right. }
  destruct (IH w1) as (w' & E' & L' & S'); [intros; apply Hb; by right|done|].
  exists w'. split; [done|]. split.
  - rewrite L', L1, <-app_assoc. do 2 f_equal.
    assert (∀ q, q ∈ hs → finalize_event w1 q = finalize_event w q) as He.
    { intros q Hq. unfold finalize_event. destruct (S1 q) as [-> _]; [apply Hb; by right|done]. }
    clear -He. induction hs as [|q hs IH]; [done|]. simpl. rewrite He by left. f_equal.
    apply IH. intros; apply He; by right.
  - intros q Hq. destruct (S' q Hq) as [-> ->]. by apply S1.
Qed.

Lemma free_block_memory_spec w p h n :
  headers w !! p = Some h → blocks w !! p = Some (n, allocation_alignment h) →
  free_block_memory p w =
    Ret tt (add_log (EvFree p) (set_blocks (delete p) (set_headers (delete p) w))).
Proof.
  intros Hh Hb. unfold free_block_memory, read_header, operator_delete, mbind, M_bind, modify.
  rewrite Hh. simpl. by rewrite Hb, Z.eqb_refl.
Qed.

Lemma free_blocks_spec hs w :
  batch_ok w hs →
  ∃ w', exec (free_blocks hs) w = Ret tt w' ∧ log w' = log w ++ (EvFree <$> hs) ∧
    mgr w' = mgr w ∧ mem w' = mem w ∧
    ∀ p, headers w' !! p = (if decide (p ∈ hs) then None else headers w !! p) ∧
         blocks w' !! p = (if decide (p ∈ hs) then None else blocks w !! p).
Proof.
  revert w. induction hs as [|p hs IH]; intros w [Hnd Hh]; cbn [free_blocks].
  { exists w. by rewrite app_nil_r. }
  destruct (Hh p) as (h & n & Hp & Hb); [left|]. apply NoDup_cons in Hnd as [Hn Hnd].
  rewrite exec_bind, exec_atomic, (free_block_memory_spec w p h n) by done.
  destruct (IH (add_log (EvFree p) (set_blocks (delete p) (set_headers (delete p) w))))
    as (w' & E & L & Hm & Hmem & Hrest).
  { split; [done|]. intros q Hq. destruct (Hh q) as (h' & n' & ? & ?); [by right|].
    assert (p ≠ q) by congruence. exists h', n'. simpl. by rewrite !lookup_delete_ne. }
  exists w'. split_and!; [done| |done..|].
  - rewrite L. simpl. by rewrite <-app_assoc.
  - intros q. destruct (Hrest q) as [-> ->]. simpl. destruct (decide (q = p)) as [->|Hne].
    + rewrite !lookup_delete_eq. split; repeat case_decide; set_solver.
    + rewrite !lookup_delete_ne by done. split; apply decide_ext; rewrite elem_of_cons; tauto.
Qed.

Lemma destroy_blocks_spec hs w :
  Finalizers hs dtor → batch_ok w hs →
  ∃ w', exec (destroy_blocks dtor hs) w = Ret tt w' ∧
    log w' = log w ++ (p ← hs; finalize_event w p) ++ (EvFree <$> hs) ∧
    ∀ p, p ∈ hs → headers w' !! p = None ∧ blocks w' !! p = None.
Proof.
  intros Hf Hb. unfold destroy_blocks. rewrite exec_bind.
  destruct (finalize_blocks_spec hs hs w Hf (λ _ H, H) Hb) as (w1 & -> & L1 & S1).
  destruct (free_blocks_spec hs w1) as (w' & E & L & _ & _ & Hrest).
  { by apply (batch_ok_ext w). }
  exists w'. split; [done|]. rewrite L, L1, <-app_assoc. split; [done|].
  intros p Hp. destruct (Hrest p) as [-> ->]. split; by rewrite decide_True.
Qed.

(** A finalizer that throws terminates the program: nothing is freed. *)
Lemma finalize_block_throws w p h e w' :
  headers w !! p = Some h → p ≠ 0 → ch_destructor h ≠ 0 →
  exec (dtor (ch_destructor h) (payload_pointer p h))
    (add_log (EvFinalize (payload_pointer p h)) w) = Throw e w' →
  exec (finalize_block dtor p) w = Stuck Terminated.
Proof.
  intros Hp H0 Hd E. unfold finalize_block. destruct (Z.eqb_spec p 0); [done|].
  rewrite exec_bind, exec_atomic. unfold read_header. rewrite Hp.
  destruct (Z.eqb_spec (ch_destructor h) 0); [done|].
  rewrite exec_bind, exec_atomic. cbn [modify]. rewrite exec_bind_result. by rewrite E.
Qed.
End Destroy.

(** ** [collect] *)

(** The worlds in which a collection has been announced and in which it is over. *)
Definition announce (me : thread_id) (w : World) : World :=
  set_mgr (set_stw (Some me) true true) w.
Definition released (w : World) : World := set_mgr (set_stw None false false) w.

Lemma announce_wf me w : heap_wf w → heap_wf (announce me w).
Proof. by apply heap_wf_ext. Qed.

Lemma released_wf w : heap_wf w → heap_wf (released w).
Proof. by apply heap_wf_ext. Qed.

#[export] Hint Resolve announce_wf released_wf : gc.

Lemma collected_batch {ASAN : AsanRuntime} env me w w' hs :
  heap_wf w → collected env me w w' hs → batch_ok w' hs.
Proof.
  intros Hwf Hc. destruct (co_dead _ _ _ _ _ Hc) as [Hnd Hd]. split; [done|].
  intros p (k & b & Hin & _ & <-)%Hd. pose proof (co_rest _ _ _ _ _ Hc) as Hr.
  destruct (wf_block w Hwf k b Hin) as [_ _ _ (h & Hh & _ & _ & _ & _ & _ & Hbl)].
  pose proof (sr_headers _ _ Hr) as Hm. simpl in Hm.
  apply (f_equal (lookup (br_header b))) in Hm. rewrite !lookup_fmap, Hh in Hm.
  destruct (headers w' !! br_header b) as [h'|]; [|done]. simpl in Hm. injection Hm as Hm1 Hm2 Hm3 Hm4 Hm5.
  exists h', (ch_payload_offset h + ch_size h). split; [done|].
  rewrite <-(sr_blocks _ _ Hr). simpl. rewrite Hbl. unfold allocation_alignment. congruence.
Qed.

Section CollectAlone.
Context {ASAN : AsanRuntime} (dtor : DestructorFn → Z → proc unit) (me : thread_id) (env : CollectEnv).

Lemma exec_release w : exec release_stop_the_world w = Ret tt (released w).
Proof. done. Qed.

(** A collection requested while one is running is a no-op. *)
Lemma collect_nested w :
  may_run me w = true → collecting_ (mgr w) = true → exec (collect dtor me env) w = Ret tt w.
Proof.
  intros Hrun Hc. unfold collect. rewrite exec_bind, exec_locked by done.
  unfold collect_enter. rewrite M_bind_get, Hc. done.
Qed.

Lemma collect_unregistered w :
  may_run me w = true → collecting_ (mgr w) = false → registered me w = false →
  exec (collect dtor me env) w = Throw not_registered_error w.
Proof.
  intros Hrun Hc Hr. unfold collect. rewrite exec_bind, exec_locked by done.
  unfold collect_enter, require_registered_thread_locked. rewrite M_bind_get, Hc.
  unfold mbind, M_bind, get. by rewrite Hr.
Qed.

(** A registered thread announces the collection, waits, collects, runs the
    finalizers, frees, and releases the other threads; also when it fails. *)
Lemma collect_runs w :
  may_run me w = true → collecting_ (mgr w) = false → registered me w = true →
  all_others_paused me (announce me w) = true →
  exec (collect dtor me env) w =
  match collect_locked me env (announce me w) with
  | Ret hs w1 =>
      match exec (destroy_blocks dtor hs) w1 with
      | Ret _ w2 => Ret tt (released w2)
      | Throw e w2 => Throw e w2
      | Stuck why => Stuck why
      end
  | Throw e w1 => Throw e (released w1)
  | Stuck why => Stuck why
  end.
Proof.
  intros Hrun Hc Hr Hp. unfold collect. rewrite exec_bind, exec_locked by done.
  unfold collect_enter, require_registered_thread_locked. rewrite M_bind_get, Hc.
  unfold mbind at 1, M_bind at 1. unfold mbind at 1, M_bind at 1, get. rewrite Hr. simpl.
  change (set_mgr (set_stw (Some me) true true) w) with (announce me w). rewrite Hp.
  destruct (collect_locked me env (announce me w)) as [hs w1|e w1|why]; [|done..].
  rewrite exec_bind. destruct (exec _ w1); [|done..]. by rewrite exec_release.
Qed.

End CollectAlone.

(** ** [shutdown] *)

(** The first block still under construction makes [shutdown] throw. *)
Definition under_construction (w : World) : Prop :=
  ∃ kb, kb ∈ allocations w ∧ br_constructing kb.2 = true.

(** What [shutdown] leaves: nothing managed, no weak entries, fresh statistics;
    the thread and root registries and the threshold stay. *)
Definition shut_down (w : World) (o : list bool) : World :=
  set_mgr (set_stats (λ _, GCStats_init)) (set_mgr (set_weak_refs (λ _, []))
    (set_mem (clear_words (filter (λ e, we_storage e ≠ 0) (weak_refs w)))
      (detached (with_oom o w)))).

Definition shutdown_error : exn :=
  logic_error "GC-Lib cannot shut down during object construction.".

Abbreviation check_constructing l :=
  (foldM (λ (kb : Z * BlockRecord) (_ : unit), if br_constructing kb.2
                 then throw shutdown_error else mret tt) l tt : M World unit).

Section Shutdown.

Lemma shutdown_check_throws w l :
  (∃ kb, kb ∈ l ∧ br_constructing kb.2 = true) →
  check_constructing l w =
  Throw shutdown_error w.
Proof.
  induction l as [|kb l IH]; intros (kb' & Hin & Hc); [by apply elem_of_nil in Hin|].
  simpl. destruct (br_constructing kb.2) eqn:E; [by apply M_bind_throw|].
  apply elem_of_cons in Hin as [->|Hin]; [congruence|].
  rewrite (M_bind_ret _ _ w tt w) by done. apply IH. eauto.
Qed.

Lemma shutdown_check_ok w (l : registry) :
  (∀ kb, kb ∈ l → br_constructing kb.2 = false) →
  check_constructing l w =
  Ret tt w.
Proof.
  induction l as [|kb l IH]; intros Hl; [done|]. simpl.
  rewrite (Hl kb) by left. rewrite (M_bind_ret _ _ w tt w) by done. apply IH.
  intros; apply Hl; by right.
Qed.

Lemma clear_storages l w :
  foldM (λ e _, when (negb (we_storage e =? 0)) (write_word (we_storage e) 0)) l tt w =
  Ret tt (set_mem (clear_words (filter (λ e, we_storage e ≠ 0) l)) w).
Proof.
  revert w. induction l as [|e l IH]; intros w; [by destruct w|]. simpl.
  destruct (Z.eqb_spec (we_storage e) 0) as [He|He]; simpl.
  - rewrite (M_bind_ret _ _ w tt w) by done. rewrite IH.
    by rewrite filter_cons_False by (intros ?; done).
  - rewrite (M_bind_ret _ _ w tt (set_mem (λ m, store_word m (we_storage e) 0) w)) by done.
    rewrite IH. by rewrite filter_cons_True by done.
Qed.

Lemma shutdown_locked_cases w :
  heap_wf w →
  (under_construction w ∧ shutdown_locked w = Throw shutdown_error w) ∨
  (¬ under_construction w ∧ may_fail w ∧ ∃ o, shutdown_locked w = Throw bad_alloc (with_oom o w)) ∨
  (¬ under_construction w ∧ ∃ o hs, shutdown_locked w = Ret hs (shut_down w o) ∧
     order_blocks_for_finalization_locked (mem w) ((allocations w).*2) = Some hs ∧
     hs ≡ₚ br_header <$> (allocations w).*2).
Proof.
  intros Hwf. unfold shutdown_locked. rewrite M_bind_get.
  destruct (decide (Exists (λ kb, br_constructing kb.2 = true) (allocations w))) as [Hex|Hno].
  { left. apply Exists_exists in Hex. split; [done|].
    apply M_bind_throw. by apply shutdown_check_throws. }
  right. assert (Hu : ¬ under_construction w) by by rewrite Exists_exists in Hno.
  assert (Hok : ∀ kb, kb ∈ allocations w → br_constructing kb.2 = false).
  { intros kb Hkb. destruct (br_constructing kb.2) eqn:E; [|done]. exfalso. apply Hu. by exists kb. }
  rewrite (M_bind_ret _ _ _ _ _ (shutdown_check_ok w _ Hok)).
  destruct (detach_spec w Hwf) as [(o & E & Hf)|(o & hs & E & Ho & Hp)].
  - left. split_and!; [done..|]. exists o. by mthrow E.
  - right. split; [done|]. exists o, hs. split; [|done].
    rewrite (M_bind_ret _ _ _ _ _ E). by rewrite (M_bind_ret _ _ _ _ _ (clear_storages _ _)).
Qed.

End Shutdown.

Lemma shut_down_wf w o : heap_wf (shut_down w o).
Proof.
  split; simpl; try done.
  - constructor.
  - by intros k b ?%elem_of_nil.
  - by intros k1 b1 k2 b2 ?%elem_of_nil.
  - by intros e ?%elem_of_nil.
Qed.

Lemma shut_down_batch w o hs :
  heap_wf w → hs ≡ₚ br_header <$> (allocations w).*2 → batch_ok (shut_down w o) hs.
Proof.
  intros Hwf Hp. rewrite <-list_fmap_compose in Hp. split.
  - rewrite Hp. apply NoDup_fmap_2_strong; [|apply sm_wf_NoDup_entries, wf_sorted, Hwf].
    intros [k b] [k' b'] Hin Hin' Heq. simpl in Heq.
    pose proof (wf_header_inj w Hwf _ _ _ _ Hin Hin' Heq) as ->.
    by rewrite (wf_key_inj w Hwf _ _ _ Hin Hin').
  - intros p. rewrite Hp. intros ([k b] & -> & Hin)%list_elem_of_fmap.
    destruct (wf_block w Hwf k b Hin) as [_ _ _ (h & Hh & _ & _ & _ & _ & _ & Hbl)].
    exists h, (ch_payload_offset h + ch_size h). done.
Qed.

Section ShutdownAlone.
Context {ASAN : AsanRuntime} (dtor : DestructorFn → Z → proc unit) (me : thread_id) (env : CollectEnv).

Lemma shutdown_nested w :
  may_run me w = true → collecting_ (mgr w) = true → exec (shutdown dtor me env) w = Ret tt w.
Proof.
  intros Hrun Hc. unfold shutdown. rewrite exec_bind, exec_locked by done.
  unfold shutdown_enter. rewrite M_bind_get, Hc. done.
Qed.

Lemma shutdown_runs w :
  may_run me w = true → collecting_ (mgr w) = false →
  all_others_paused me (announce me w) = true →
  exec (shutdown dtor me env) w =
  match shutdown_locked (announce me w) with
  | Ret hs w1 =>
      match exec (destroy_blocks dtor hs) w1 with
      | Ret _ w2 => Ret tt (released w2)
      | Throw e w2 => Throw e w2
      | Stuck why => Stuck why
      end
  | Throw e w1 => Throw e (released w1)
  | Stuck why => Stuck why
  end.
Proof.
  intros Hrun Hc Hp. unfold shutdown. rewrite exec_bind, exec_locked by done.
  unfold shutdown_enter. rewrite M_bind_get, Hc.
  unfold mbind at 1, M_bind at 1. simpl.
  change (set_mgr (set_stw (Some me) true true) w) with (announce me w). rewrite Hp.
  destruct (shutdown_locked (announce me w)) as [hs w1|e w1|why]; [|done..].
  rewrite exec_bind. destruct (exec _ w1); [|done..]. by rewrite exec_release.
Qed.

(** ** [collect_if_needed] *)

Lemma collection_needed_spec n w :
  registered me w = true →
  is_size n → is_size (managed_bytes_ (mgr w)) →
  collection_needed me n w =
  Ret (negb (collecting_ (mgr w)) &&
       (collection_threshold_bytes_ (mgr w) <=? Z.min (managed_bytes_ (mgr w) + n) SIZE_MAX)) w.
Proof.
  intros Hr Hn Hm. unfold collection_needed, require_registered_thread_locked.
  unfold mbind, M_bind, get. rewrite Hr. simpl.
  rewrite <-(saturating_add_spec _ _ Hm Hn). done.
Qed.

Lemma collect_if_needed_runs n w :
  may_run me w = true → registered me w = true → is_size n → is_size (managed_bytes_ (mgr w)) →
  exec (collect_if_needed dtor me env n) w =
  if negb (collecting_ (mgr w)) &&
     (collection_threshold_bytes_ (mgr w) <=? Z.min (managed_bytes_ (mgr w) + n) SIZE_MAX)
  then exec (collect dtor me env) w else Ret tt w.
Proof.
  intros Hrun Hr Hn Hm. unfold collect_if_needed. rewrite exec_bind, exec_locked by done.
  rewrite collection_needed_spec by done. by destruct (_ && _).
Qed.

Lemma collect_if_needed_unregistered n w :
  may_run me w = true → registered me w = false →
  exec (collect_if_needed dtor me env n) w = Throw not_registered_error w.
Proof.
  intros Hrun Hr. unfold collect_if_needed. rewrite exec_bind, exec_locked by done.
  unfold collection_needed, require_registered_thread_locked. unfold mbind, M_bind, get. by rewrite Hr.
Qed.
End ShutdownAlone.
