(* ===== verification/Roots.v ===== *)
(** * Explicit roots

    [register_root_range] and [unregister_root_range] of src/src/GCManager.cpp,
    [register_root_object] / [unregister_root_object], [ScopedRootRange] and
    [ScopedRootObject] of src/include/gc/GCManager.hpp, and [gc_root] of
    src/include/gc/gc_root.hpp, whose word lives in memory at the address of
    the handle. *)

From S2P Require Import Prelude Words Memory OrdMap Chunk Manager Heap Scanner Mark.
From S2P Require Import Finalize WeakRefs Sweep Threads Collect CollectSpec.

(** [std::swap(start, finish)] when out of order. *)
Definition normalize_range (begin end_ : Z) : RootRange :=
  if end_ <? begin then {| rr_begin := end_; rr_end := begin |}
  else {| rr_begin := begin; rr_end := end_ |}.

Definition empty_range (begin end_ : Z) : bool := (begin =? 0) || (end_ =? 0) || (begin =? end_).

(** [find_if] and [erase]. *)
Fixpoint erase_first {A} `{EqDecision A} (x : A) (l : list A) : list A :=
  match l with
  | [] => []
  | y :: l' => if decide (y = x) then l' else y :: erase_first x l'
  end.

Section Roots.
Context {ASAN : AsanRuntime} (me : thread_id) (env : ParkEnv).

(** The range is published before the thread cooperates. *)
Definition register_root_range (begin end_ : Z) : proc unit :=
  if empty_range begin end_ then mret tt
  else
    locked_after me env
      (native_alloc;;
       modify (set_mgr (set_root_ranges (λ l, l ++ [normalize_range begin end_])))) (mret tt).

Definition unregister_root_range (begin end_ : Z) : proc unit :=
  if empty_range begin end_ then mret tt
  else
    locked me env
      (modify (set_mgr (set_root_ranges (erase_first (normalize_range begin end_))))).

Definition register_root_object (object sizeof_T : Z) : proc unit :=
  if object =? 0 then mret tt
  else register_root_range object (wrap64 (object + sizeof_T)).

Definition unregister_root_object (object sizeof_T : Z) : proc unit :=
  if object =? 0 then mret tt
  else unregister_root_range object (wrap64 (object + sizeof_T)).
End Roots.

(** ** [ScopedRootRange] *)

Record ScopedRootRange := { sr_begin : Z; sr_end : Z; sr_registered : bool }.

Definition ScopedRootRange_init : ScopedRootRange :=
  {| sr_begin := 0; sr_end := 0; sr_registered := false |}.

Section ScopedRange.
Context {ASAN : AsanRuntime} (me : thread_id) (env : ParkEnv).

(** The new range is registered before the old one is dropped. *)
Definition ScopedRootRange_reset (this : ScopedRootRange) (begin end_ : Z) : proc ScopedRootRange :=
  let register_new := negb (empty_range begin end_) in
  (if register_new then register_root_range me env begin end_ else mret tt);;
  (if sr_registered this then unregister_root_range me env (sr_begin this) (sr_end this) else mret tt);;
  mret {| sr_begin := begin; sr_end := end_; sr_registered := register_new |}.

Definition ScopedRootRange_new (begin end_ : Z) : proc ScopedRootRange :=
  ScopedRootRange_reset ScopedRootRange_init begin end_.

Definition ScopedRootRange_destroy (this : ScopedRootRange) : proc unit :=
  noexcept (ScopedRootRange_reset this 0 0;; mret tt).

Definition ScopedRootRange_begin (this : ScopedRootRange) : Z := sr_begin this.
Definition ScopedRootRange_end (this : ScopedRootRange) : Z := sr_end this.
Definition ScopedRootRange_bool (this : ScopedRootRange) : bool := sr_registered this.

(** The move constructor: the new object and what is left of the old one. *)
Definition ScopedRootRange_move (other : ScopedRootRange) : ScopedRootRange * ScopedRootRange :=
  (other, ScopedRootRange_init).

(** [this = std::move(other)] for distinct objects. *)
Definition ScopedRootRange_move_assign (this other : ScopedRootRange)
    : proc (ScopedRootRange * ScopedRootRange) :=
  noexcept (ScopedRootRange_reset this 0 0;; mret (other, ScopedRootRange_init)).
End ScopedRange.

(** ** [ScopedRootObject]: the state is [object_] *)

Section ScopedObject.
Context {ASAN : AsanRuntime} (me : thread_id) (env : ParkEnv) (sizeof_T : Z).

Definition ScopedRootObject_reset (object_ object : Z) : proc Z :=
  (if negb (object =? 0) then register_root_object me env object sizeof_T else mret tt);;
  (if negb (object_ =? 0) then unregister_root_object me env object_ sizeof_T else mret tt);;
  mret object.

Definition ScopedRootObject_new (object : Z) : proc Z := ScopedRootObject_reset 0 object.
Definition ScopedRootObject_move (other : Z) : Z * Z := (other, 0).
Definition ScopedRootObject_get (object_ : Z) : Z := object_.
Definition ScopedRootObject_bool (object_ : Z) : bool := negb (object_ =? 0).

Definition ScopedRootObject_destroy (object_ : Z) : proc unit :=
  noexcept (ScopedRootObject_reset object_ 0;; mret tt).

Definition ScopedRootObject_move_assign (object_ other : Z) : proc (Z * Z) :=
  noexcept (ScopedRootObject_reset object_ 0;; mret (other, 0)).
End ScopedObject.

(** ** [gc_root]: [self] and [other] are addresses of handles *)

Definition sizeof_gc_root : Z := 8.

Definition read_word (a : Z) : M World Z := gets (λ w, load_word (mem w) a).

Section GcRoot.
Context {ASAN : AsanRuntime} (me : thread_id) (env : ParkEnv).

Definition register_self (self : Z) : proc unit := register_root_object me env self sizeof_gc_root.
Definition unregister_self (self : Z) : proc unit := noexcept (unregister_root_object me env self sizeof_gc_root).

(** [gc_root()] and [gc_root(nullptr)]; [gc_root(ptr)]. *)
Definition gc_root_null (self : Z) : proc unit := atomic (write_word self 0);; register_self self.
Definition gc_root_new (self ptr : Z) : proc unit := atomic (write_word self ptr);; register_self self.

Definition gc_root_copy (self other : Z) : proc unit :=
  ptr ← atomic (read_word other); gc_root_new self ptr.

Definition gc_root_move (self other : Z) : proc unit :=
  gc_root_copy self other;; atomic (write_word other 0).

Definition gc_root_destroy (self : Z) : proc unit := unregister_self self.

Definition gc_root_assign (self other : Z) : proc unit :=
  if self =? other then mret tt
  else ptr ← atomic (read_word other); atomic (write_word self ptr).

Definition gc_root_move_assign (self other : Z) : proc unit :=
  if self =? other then mret tt
  else ptr ← atomic (read_word other); atomic (write_word self ptr);; atomic (write_word other 0).

Definition gc_root_assign_ptr (self ptr : Z) : proc unit := atomic (write_word self ptr).
Definition gc_root_assign_null (self : Z) : proc unit := atomic (write_word self 0).
Definition gc_root_reset (self ptr : Z) : proc unit := atomic (write_word self ptr).

Definition gc_root_get (self : Z) : proc Z := atomic (read_word self).
Definition gc_root_bool (self : Z) : proc bool := ptr ← gc_root_get self; mret (negb (ptr =? 0)).
End GcRoot.

(** ** Lemmas *)

Abbreviation root_ranges w := (registered_root_ranges_ (mgr w)).

Lemma erase_first_perm {A} `{EqDecision A} (x : A) l : x ∈ l → x :: erase_first x l ≡ₚ l.
Proof.
  induction l as [|y l IH]; [by intros ?%elem_of_nil|]. simpl. case_decide as Hx; [by subst|].
  intros [?|Hin]%elem_of_cons; [congruence|]. rewrite <-(IH Hin) at 2. apply Permutation_swap.
Qed.

Lemma erase_first_snoc {A} `{EqDecision A} (x : A) l : erase_first x (l ++ [x]) ≡ₚ l.
Proof.
  apply (Permutation_cons_inv (a := x)). rewrite erase_first_perm by set_solver.
  by rewrite Permutation_app_comm.
Qed.

(** The ranges of a world changed by [f]. *)
Definition with_ranges (f : list RootRange → list RootRange) (w : World) : World :=
  set_mgr (set_root_ranges f) w.

Lemma with_ranges_wf f w : heap_wf w → heap_wf (with_ranges f w).
Proof. by apply heap_wf_ext. Qed.

#[export] Hint Resolve with_ranges_wf : gc.

Section RootsAlone.
Context {ASAN : AsanRuntime} (me : thread_id) (env : ParkEnv).

Lemma register_root_range_ok w b e :
  may_run me w = true → oom w = [] →
  exec (register_root_range me env b e) w =
  Ret tt (if empty_range b e then w else with_ranges (λ l, l ++ [normalize_range b e]) w).
Proof.
  intros Hrun Ho. unfold register_root_range. destruct (empty_range b e); [done|].
  rewrite (exec_locked_after me env _ _ w (with_ranges (λ l, l ++ [normalize_range b e]) w)); [done| |done].
  by mstep (native_alloc_ok w Ho).
Qed.

Lemma register_root_range_cases w b e :
  may_run me w = true →
  (∃ o, exec (register_root_range me env b e) w =
     Ret tt (if empty_range b e then w else with_ranges (λ l, l ++ [normalize_range b e]) (with_oom o w)) ∧
     (true ∈ o → may_fail w)) ∨
  (∃ o, exec (register_root_range me env b e) w = Throw bad_alloc (with_oom o w) ∧ may_fail w).
Proof.
  intros Hrun. unfold register_root_range.
  destruct (empty_range b e); [left; exists []; split; [done|by intros ?%elem_of_nil]|].
  destruct (native_alloc_cases w) as [(o & E & Ho)|(o & E & Hf)].
  - left. exists o. split; [|done].
    rewrite (exec_locked_after me env _ _ w
      (with_ranges (λ l, l ++ [normalize_range b e]) (with_oom o w))); [done| |done].
    by mstep E.
  - right. exists o. split; [|done]. unfold locked_after, enter. simpl.
    unfold mbind, M_bind. by rewrite E.
Qed.

Lemma unregister_root_range_ok w b e :
  may_run me w = true →
  exec (unregister_root_range me env b e) w =
  Ret tt (if empty_range b e then w else with_ranges (erase_first (normalize_range b e)) w).
Proof.
  intros Hrun. unfold unregister_root_range. destruct (empty_range b e); [done|].
  by rewrite exec_locked.
Qed.
End RootsAlone.

(** ** [ScopedRootRange] on a running world *)

Section ScopedAlone.
Context {ASAN : AsanRuntime} (me : thread_id) (env : ParkEnv) (this : ScopedRootRange) (w : World).
Context (Hrun : may_run me w = true).
Let old := normalize_range (sr_begin this) (sr_end this).
Let owned := if sr_registered this then [old] else [].
Context (Hold : sr_registered this = true →
  empty_range (sr_begin this) (sr_end this) = false ∧ old ∈ root_ranges w).

Lemma scoped_reset_empty :
  ∃ w', exec (ScopedRootRange_reset me env this 0 0) w =
      Ret {| sr_begin := 0; sr_end := 0; sr_registered := false |} w' ∧
    owned ++ root_ranges w' ≡ₚ root_ranges w.
Proof.
  unfold ScopedRootRange_reset. change (empty_range 0 0) with true. cbn [negb]. rewrite exec_bind.
  change (exec (mret tt) w) with (@Ret World unit tt w). cbv beta iota. rewrite exec_bind.
  unfold owned. destruct (sr_registered this).
  - destruct Hold as [He Hin]; [done|]. rewrite unregister_root_range_ok, He by done.
    eexists. split; [done|]. simpl. by apply erase_first_perm.
  - by exists w.
Qed.

Lemma scoped_reset_cases b e :
  (∃ w', exec (ScopedRootRange_reset me env this b e) w =
       Ret {| sr_begin := b; sr_end := e; sr_registered := negb (empty_range b e) |} w' ∧
     owned ++ root_ranges w' ≡ₚ (if empty_range b e then [] else [normalize_range b e]) ++ root_ranges w) ∨
  (∃ o, exec (ScopedRootRange_reset me env this b e) w = Throw bad_alloc (with_oom o w) ∧ may_fail w).
Proof.
  unfold ScopedRootRange_reset. destruct (empty_range b e) eqn:Ee; cbn [negb].
  - left. rewrite exec_bind. change (exec (mret tt) w) with (@Ret World unit tt w). cbv beta iota. rewrite exec_bind.
    unfold owned. destruct (sr_registered this).
    + destruct Hold as [He Hin]; [done|]. rewrite unregister_root_range_ok, He by done.
      eexists. split; [done|]. simpl. by apply erase_first_perm.
    + by exists w.
  - rewrite exec_bind. destruct (register_root_range_cases me env w b e Hrun) as [(o & E & _)|(o & E & Hf)].
    2:{ right. exists o. rewrite E. done. }
    left. rewrite E, Ee. set (w1 := with_ranges (λ l, l ++ [normalize_range b e]) (with_oom o w)).
    rewrite exec_bind. unfold owned. destruct (sr_registered this).
    + destruct Hold as [He Hin]; [done|]. rewrite unregister_root_range_ok, He by done.
      eexists. split; [done|]. simpl. fold old. rewrite erase_first_perm by (apply elem_of_app; by left).
      by rewrite Permutation_app_comm.
    + eexists. split; [done|]. simpl. by rewrite Permutation_app_comm.
Qed.
End ScopedAlone.

(** ** What a registered range protects *)

(** A word of a registered range that points into a block keeps it alive. *)
Lemma range_live {ASAN : AsanRuntime} env me w r a k b :
  r ∈ root_ranges w → a ∈ scan_addrs (rr_begin r) (rr_end r) →
  find_block_locked (allocations w) (load_word (mem w) a) = Some (k, b) →
  live env me w k.
Proof.
  intros Hr Ha Hf. eapply reach_root; [|done]. unfold roots_of, root_candidates.
  rewrite !elem_of_app. right. right. apply list_elem_of_bind. exists r. split; [|done].
  apply list_elem_of_fmap. eauto.
Qed.

(** The word of a live [gc_root] is scanned. *)
Lemma gc_root_scanned {ASAN : AsanRuntime} self :
  (word_size | self) → 0 < self → self + sizeof_gc_root <= SIZE_MAX →
  region_is_poisoned self word_size = false →
  let r := normalize_range self (wrap64 (self + sizeof_gc_root)) in
  empty_range self (wrap64 (self + sizeof_gc_root)) = false ∧ self ∈ scan_addrs (rr_begin r) (rr_end r).
Proof.
  unfold sizeof_gc_root, word_size. intros Hal Hpos Hmax Hp.
  rewrite wrap64_size by (unfold is_size; lia). unfold empty_range, normalize_range.
  destruct (Z.eqb_spec self 0), (Z.eqb_spec (self + 8) 0), (Z.eqb_spec self (self + 8)),
    (Z.ltb_spec (self + 8) self); try lia.
  split; [done|]. apply elem_of_scan_addrs. simpl. unfold word_size. split_and!; try done; lia.
Qed.
