(* ===== verification/Alloc.v ===== *)
(** * Allocation

    [malloc_internal], [finish_construction] and [release_unconstructed] of
    src/src/GCManager.cpp, over an aligned [operator new] given by its
    documented contract. *)

From S2P Require Import Prelude Words Memory OrdMap Chunk Manager Heap Scanner Mark.
From S2P Require Import Finalize WeakRefs Sweep Threads Collect CollectSpec.

(** [::operator new(size, align_val_t(alignment))]: [None] is [bad_alloc]. What
    it returns is aligned, in the lower half of the address space, and apart
    from every block still outstanding. *)
Class Allocator := {
  new_address : World → Z → Z → option Z;
  new_address_pos w n a p : new_address w n a = Some p → 0 < p;
  new_address_aligned w n a p : 0 < a → new_address w n a = Some p → (a | p);
  new_address_low w n a p : new_address w n a = Some p → p + n <= 2 ^ 63;
  new_address_fresh w n a p q m b : new_address w n a = Some p → blocks w !! q = Some (m, b) →
    p ≠ q ∧ (p + n <= q ∨ q + m <= p);
}.

Section Alloc.
Context {ASAN : AsanRuntime} {ALLOC : Allocator}.
Context (dtor : DestructorFn → Z → proc unit) (me : thread_id) (env : CollectEnv).

Definition operator_new (size alignment : Z) : M World Z := λ w,
  match new_address w size alignment with
  | Some p => Ret p (set_blocks <[p := (size, alignment)]> w)
  | None => Throw bad_alloc w
  end.

(** [raw = operator new] with one collection before the second attempt. *)
Definition operator_new_retry (size alignment : Z) : proc Z :=
  bind_result (atomic (operator_new size alignment)) (λ r,
    match r with
    | Ok raw => mret raw
    | Raise bad_alloc => collect dtor me env;; atomic (operator_new size alignment)
    | Raise e => raise e
    end).

(** The header [malloc_internal] writes at [raw]. *)
Definition make_header (payload_size alignment p_offset : Z) (destructor : DestructorFn) : ChunkHeader :=
  set_allocation_alignment alignment (set_marked false
    {| ch_size := payload_size; ch_destructor := destructor; ch_magic_number := kChunkMagicNumber;
       ch_payload_offset := p_offset mod 2 ^ 16; ch_marked := ch_marked ChunkHeader_init;
       ch_alignment_shift := ch_alignment_shift ChunkHeader_init |}).

Definition set_constructing (constructing : bool) (b : BlockRecord) : BlockRecord :=
  {| br_header := br_header b; br_payload_begin := br_payload_begin b;
     br_payload_end := br_payload_end b; br_constructing := constructing |}.

(** The body of the [try] block, under the mutex. *)
Definition publish_block (header payload_size total_size : Z) (constructing : bool) : M World unit :=
  require_registered_thread_locked me;;
  w ← get;
  if add_would_overflow (managed_bytes_ (mgr w)) payload_size
     || add_would_overflow (reserved_bytes_ (mgr w)) total_size
  then throw bad_alloc
  else
    h ← read_header header;
    modify (set_mem (λ m, memset0 m (payload_pointer header h) payload_size));;
    register_block_locked header;;
    modify (set_mgr (set_allocations (sm_alter (set_constructing constructing) (payload_begin header h)))).

(** From the [operator new] on, for a block of the given layout. *)
Definition allocate_block (payload_size alignment p_offset : Z) (destructor : DestructorFn)
    (constructing : bool) : proc Z :=
  let total_size := wrap64 (p_offset + payload_size) in
  raw ← operator_new_retry total_size alignment;
  let h := make_header payload_size alignment p_offset destructor in
  atomic (modify (set_headers <[raw := h]>));;
  bind_result (locked me (ce_park env) (publish_block raw payload_size total_size constructing)) (λ r,
    match r with
    | Ok _ => mret (payload_pointer raw h)
    | Raise e => atomic (free_block_memory raw);; raise e
    end).

Definition malloc_internal (payload_size payload_alignment : Z) (destructor : DestructorFn)
    (constructing : bool) : proc Z :=
  if (payload_size =? 0) || negb (has_single_bit payload_alignment) then raise bad_alloc
  else
    locked me (ce_park env) (require_registered_thread_locked me);;
    let alignment := normalize_alignment payload_alignment in
    match round_up_to_alignment sizeof_ChunkHeader alignment with
    | Raise e => raise e
    | Ok p_offset =>
        if (UINT16_MAX <? p_offset) || add_would_overflow p_offset payload_size
        then raise bad_alloc
        else allocate_block payload_size alignment p_offset destructor constructing
    end.

Definition unknown_allocation_error : exn :=
  logic_error "GC-Lib construction refers to an unknown allocation.".

Definition finish_construction_locked (payload : Z) : M World unit :=
  w ← get;
  match sm_find payload (allocations w) with
  | None => throw unknown_allocation_error
  | Some _ => modify (set_mgr (set_allocations (sm_alter (set_constructing false) payload)))
  end.

Definition finish_construction (payload : Z) : proc unit :=
  locked me (ce_park env) (finish_construction_locked payload).

(** Unlinks the block and gives its header, or null. *)
Definition release_unconstructed_locked (payload : Z) : M World Z :=
  require_registered_thread_locked me;;
  w ← get;
  match sm_find payload (allocations w) with
  | None => mret 0
  | Some b =>
      h ← read_header (br_header b);
      modify (set_mgr (λ g, set_bytes (wrap64 (managed_bytes_ g - ch_size h))
                                      (wrap64 (reserved_bytes_ g - block_allocation_size h)) g));;
      invalidate_weak_refs_for_block_locked (br_payload_begin b) (br_payload_end b);;
      modify (set_mgr (set_allocations (sm_erase payload)));;
      mret (br_header b)
  end.

Definition release_unconstructed (payload : Z) : proc unit :=
  if payload =? 0 then mret tt
  else
    header ← locked me (ce_park env) (release_unconstructed_locked payload);
    if (header : Z) =? 0 then mret tt else atomic (free_block_memory header).
End Alloc.

(** ** Layout *)

Definition layout_offset (k : Z) : Z := Z.max sizeof_ChunkHeader (2 ^ Z.max k 4).

Lemma normalize_pow2 k : 0 <= k → normalize_alignment (2 ^ k) = 2 ^ Z.max k 4.
Proof.
  intros Hk. unfold normalize_alignment, max_align. change 16 with (2 ^ 4).
  destruct (Z.max_spec k 4) as [[? ->]|[? ->]].
  - apply Z.max_r. apply Z.pow_le_mono_r; lia.
  - apply Z.max_l. apply Z.pow_le_mono_r; lia.
Qed.

(** The payload offset is the larger of the header and the alignment. *)
Lemma layout_ok k :
  0 <= k < 64 →
  round_up_to_alignment sizeof_ChunkHeader (normalize_alignment (2 ^ k)) = Ok (layout_offset k) ∧
  (2 ^ Z.max k 4 | layout_offset k).
Proof.
  intros Hk. rewrite normalize_pow2 by lia. unfold layout_offset, sizeof_ChunkHeader.
  set (j := Z.max k 4). assert (4 <= j < 64) by lia.
  assert (2 ^ j <= 2 ^ 63) by (apply Z.pow_le_mono_r; lia).
  assert (is_size 32) as H32 by (unfold is_size, SIZE_MAX; lia).
  destruct (round_up_to_alignment 32 (2 ^ j)) as [r|e] eqn:E.
  2:{ assert (e = bad_alloc) as -> by (revert E; unfold round_up_to_alignment; repeat case_match; congruence).
      apply round_up_to_alignment_pow2 in E; [unfold SIZE_MAX in E; lia|done|lia]. }
  apply round_up_to_alignment_ok in E as (Hd & Hr & _); [|done|lia].
  assert (r = Z.max 32 (2 ^ j)) as ->; [|done].
  destruct (Z.le_gt_cases j 5) as [Hj|Hj].
  - assert (2 ^ j <= 2 ^ 5) by (apply Z.pow_le_mono_r; lia). rewrite Z.max_l by lia.
    assert ((2 ^ j | 32)) as H2.
    { exists (2 ^ (5 - j)). rewrite <-Z.pow_add_r by lia. by replace (5 - j + j) with 5 by lia. }
    assert (r <= 32); [|lia]. apply (multiple_gap (2 ^ j)); [lia|done|done|lia].
  - assert (2 ^ 6 <= 2 ^ j) by (apply Z.pow_le_mono_r; lia). rewrite Z.max_r by lia.
    apply Z.le_antisymm; [apply (multiple_gap (2 ^ j))|apply (multiple_gap (2 ^ j))]; try done; try lia.
Qed.

Lemma layout_offset_bound k : 0 <= k <= 15 → sizeof_ChunkHeader <= layout_offset k <= UINT16_MAX.
Proof.
  intros Hk. unfold layout_offset, sizeof_ChunkHeader, UINT16_MAX.
  assert (2 ^ Z.max k 4 <= 2 ^ 15) by (apply Z.pow_le_mono_r; lia). lia.
Qed.

Lemma layout_offset_big k : 16 <= k → UINT16_MAX < layout_offset k.
Proof.
  intros Hk. unfold layout_offset, UINT16_MAX.
  assert (2 ^ 16 <= 2 ^ Z.max k 4) by (apply Z.pow_le_mono_r; lia). lia.
Qed.

Section HeaderFields.
Context (size k : Z) (d : DestructorFn) (Hk : 0 <= k <= 15).
Let h := make_header size (2 ^ Z.max k 4) (layout_offset k) d.

Lemma make_header_offset : ch_payload_offset h = layout_offset k.
Proof.
  unfold h, make_header. simpl. pose proof (layout_offset_bound k Hk) as Hb.
  unfold UINT16_MAX, sizeof_ChunkHeader in Hb. apply Z.mod_small. lia.
Qed.

Lemma make_header_alignment : allocation_alignment h = 2 ^ Z.max k 4.
Proof. apply allocation_alignment_set. lia. Qed.
End HeaderFields.

(** ** Publishing a block *)

Definition new_record (header : Z) (h : ChunkHeader) (constructing : bool) : BlockRecord :=
  {| br_header := header; br_payload_begin := payload_begin header h;
     br_payload_end := payload_begin header h + ch_size h; br_constructing := constructing |}.

(** The world after a successful [publish_block]. *)
Definition published (header : Z) (h : ChunkHeader) (constructing : bool) (w : World) : World :=
  set_mgr (λ g, set_stats (stats_on_register (ch_size h) (managed_bytes_ g)
                             (Z.of_nat (length (allocations_ g)))) g)
    (set_mgr (add_block (payload_begin header h) (new_record header h constructing))
      (set_mem (λ m, memset0 m (payload_begin header h) (ch_size h)) w)).

Section Publish.
Context (me : thread_id) (w : World) (header : Z) (h : ChunkHeader) (constructing : bool).
Context (Hwf : heap_wf w) (Hh : headers w !! header = Some h).
Let k := payload_begin header h.
Let b := new_record header h constructing.
Context (Hok : block_ok w k b) (Hap : apart (allocations w) b).

Lemma new_payload_size : payload_size (k, b) = ch_size h.
Proof. unfold payload_size, b. simpl. lia. Qed.

Lemma new_reserved_size : reserved_size (k, b) = ch_payload_offset h + ch_size h ∧
  block_allocation_size h = ch_payload_offset h + ch_size h ∧ 0 < ch_size h ∧ 0 < ch_payload_offset h.
Proof.
  destruct Hok as [_ Hp He (h' & Hh' & _ & _ & _ & Hs & Ho & _)]. simpl in Hh'.
  rewrite Hh in Hh'. injection Hh' as <-. unfold reserved_size, b, block_allocation_size. simpl in *.
  unfold payload_begin, word_size, sizeof_ChunkHeader in *.
  rewrite wrap64_size by (unfold is_size; lia). split_and!; lia.
Qed.

Let size := ch_size h.
Let total := ch_payload_offset h + ch_size h.

Lemma publish_block_full :
  registered me w = true →
  SIZE_MAX < managed_bytes_ (mgr w) + size ∨ SIZE_MAX < reserved_bytes_ (mgr w) + total →
  publish_block me header size total constructing w = Throw bad_alloc w.
Proof.
  intros Hr Hfull. unfold publish_block, require_registered_thread_locked.
  unfold mbind, M_bind, get. rewrite Hr. simpl.
  assert (∀ a c, SIZE_MAX < a + c → add_would_overflow a c = true) as Ho.
  { intros a c. unfold add_would_overflow. rewrite Z.ltb_lt. lia. }
  destruct Hfull as [H|H]; rewrite (Ho _ _ H), ?orb_true_r; done.
Qed.

Lemma publish_mgr g :
  g = mgr w → managed_bytes_ g + size <= SIZE_MAX → reserved_bytes_ g + total <= SIZE_MAX →
  set_allocations (sm_alter (set_constructing constructing) k)
    (let g1 := set_allocations (sm_emplace k (new_record header h false)) g in
     let g2 := set_bytes (wrap64 (managed_bytes_ g1 + ch_size h))
                         (wrap64 (reserved_bytes_ g1 + block_allocation_size h)) g1 in
     set_stats (stats_on_register (ch_size h) (managed_bytes_ g2)
                  (Z.of_nat (length (allocations_ g2)))) g2) =
  (let g1 := add_block k b g in
   set_stats (stats_on_register (ch_size h) (managed_bytes_ g1)
                (Z.of_nat (length (allocations_ g1)))) g1).
Proof.
  intros -> Hm Hrs. destruct new_reserved_size as (Hrs1 & Hrs2 & Hs & Ho).
  pose proof (apart_fresh w k b Hwf Hok Hap) as Hfresh.
  pose proof (managed_nonneg w Hwf). pose proof (reserved_nonneg w Hwf).
  assert (length (sm_emplace k (new_record header h false) (allocations w)) =
      length (sm_emplace k b (allocations w))) as Hlen
    by by rewrite !(Permutation_length (sm_emplace_perm k _ _ Hfresh)).
  unfold set_allocations, set_stats, set_bytes, add_block. simpl.
  rewrite sm_alter_emplace, new_payload_size, Hrs1, Hrs2, Hlen by done.
  unfold total, size in *. by rewrite !wrap64_size by (unfold is_size; lia).
Qed.

Lemma publish_block_cases :
  registered me w = true →
  managed_bytes_ (mgr w) + size <= SIZE_MAX → reserved_bytes_ (mgr w) + total <= SIZE_MAX →
  let w0 := set_mem (λ m, memset0 m k size) w in
  (∃ o, publish_block me header size total constructing w = Throw bad_alloc (with_oom o w0) ∧ may_fail w) ∨
  (∃ o, publish_block me header size total constructing w =
        Ret tt (published header h constructing (with_oom o w))).
Proof.
  intros Hr Hm Hrs w0.
  assert (publish_block me header size total constructing w =
    (register_block_locked header;;
     modify (set_mgr (set_allocations (sm_alter (set_constructing constructing) k)))) w0) as Ep.
  { unfold publish_block, require_registered_thread_locked.
    unfold mbind at 1, M_bind at 1. unfold mbind at 1, M_bind at 1, get at 1. rewrite Hr. cbn [mret M_ret].
    rewrite M_bind_get. rewrite !(proj2 (add_would_overflow_false _ _)) by done. cbn [orb].
    assert (read_header header w = Ret h w) as E by (unfold read_header; by rewrite Hh). by mstep E. }
  assert (read_header header w0 = Ret h w0) as E0 by (unfold read_header; simpl; by rewrite Hh).
  destruct new_reserved_size as (Hrs1 & Hrs2 & Hs & Ho).
  destruct (native_alloc_cases w0) as [(o & En & _)|(o & En & Hf)].
  - right. exists o.
    assert (register_block_locked header w0 = Ret tt (set_mgr (λ g, set_stats (stats_on_register
        (ch_size h) (managed_bytes_ g) (Z.of_nat (length (allocations_ g)))) g)
      (set_mgr (λ g, set_bytes (wrap64 (managed_bytes_ g + ch_size h))
                               (wrap64 (reserved_bytes_ g + block_allocation_size h)) g)
        (set_mgr (set_allocations (sm_emplace k (new_record header h false))) (with_oom o w0))))) as Er.
    { unfold register_block_locked. mstep E0. by mstep En. }
    rewrite Ep. mstep Er. unfold modify, published. f_equal.
    pose proof (publish_mgr (mgr w) eq_refl Hm Hrs) as Hg. cbv zeta in Hg.
    unfold set_mgr. f_equal. exact Hg.
  - left. exists o. assert (register_block_locked header w0 = Throw bad_alloc (with_oom o w0)) as Er
      by (unfold register_block_locked; mstep E0; by mthrow En).
    split; [rewrite Ep; by mthrow Er|done].
Qed.

Lemma published_wf o :
  managed_bytes_ (mgr w) + size <= SIZE_MAX → reserved_bytes_ (mgr w) + total <= SIZE_MAX →
  heap_wf (published header h constructing (with_oom o w)).
Proof.
  intros Hm Hr. destruct new_reserved_size as (Hrs & _).
  assert (heap_wf (set_mgr (add_block k b) w)) as H.
  { apply heap_wf_add; [done..|by rewrite new_payload_size|by rewrite Hrs]. }
  eapply heap_wf_ext, H; done.
Qed.
End Publish.

(** ** Running alone *)

Definition with_raw (raw n a : Z) (h : ChunkHeader) (w : World) : World :=
  set_headers <[raw := h]> (set_blocks <[raw := (n, a)]> w).

Definition freed (raw : Z) (w : World) : World :=
  add_log (EvFree raw) (set_blocks (delete raw) (set_headers (delete raw) w)).

Section Raw.
Context {ALLOC : Allocator} (w : World) (raw size k : Z) (d : DestructorFn) (constructing : bool).
Context (Hwf : heap_wf w) (Hk : 0 <= k <= 15) (Hs : 0 < size).
Let off := layout_offset k.
Let a := 2 ^ Z.max k 4.
Let h := make_header size a off d.
Context (Hraw : new_address w (off + size) a = Some raw).
Let w1 := with_raw raw (off + size) a h w.

Lemma raw_fresh k' b' : (k', b') ∈ allocations w → br_header b' ≠ raw ∧
  (raw + (off + size) <= br_header b' ∨ br_payload_end b' <= raw).
Proof.
  intros Hin. destruct (wf_storage w k' b' Hwf Hin) as [a' Hst].
  destruct (new_address_fresh _ _ _ _ _ _ _ Hraw Hst). split; [congruence|lia].
Qed.

Lemma with_raw_wf : heap_wf w1.
Proof.
  apply (heap_wf_local w); try done. intros k' b' Hin. destruct (raw_fresh k' b' Hin) as [Hne _].
  simpl. by rewrite !lookup_insert_ne by congruence.
Qed.

Lemma with_raw_header : headers w1 !! raw = Some h.
Proof. apply lookup_insert_eq. Qed.

Lemma with_raw_block : block_ok w1 (payload_begin raw h) (new_record raw h constructing).
Proof.
  pose proof (new_address_pos _ _ _ _ Hraw). pose proof (new_address_low _ _ _ _ Hraw).
  pose proof (make_header_offset size k d Hk) as Ho. fold a in Ho. fold off in Ho. fold h in Ho.
  pose proof (layout_offset_bound k Hk). split; simpl; [done|done| |].
  - unfold payload_begin. rewrite Ho. simpl. unfold word_size, SIZE_MAX. lia.
  - exists h. rewrite !lookup_insert_eq. split_and!; try done.
    + rewrite Ho. unfold off. lia.
    + rewrite Ho. do 2 f_equal. symmetry. apply (make_header_alignment size k d Hk).
Qed.

Lemma with_raw_apart : apart (allocations w1) (new_record raw h constructing).
Proof.
  intros k' b' Hin. destruct (raw_fresh k' b' Hin) as [_ Hd]. simpl.
  pose proof (make_header_offset size k d Hk) as Ho. fold a in Ho. fold off in Ho. fold h in Ho.
  unfold payload_begin. rewrite Ho. simpl. lia.
Qed.

(** Giving the storage back. *)
Lemma freed_wf w' :
  allocations w' = allocations w → weak_refs w' = weak_refs w →
  managed_bytes_ (mgr w') = managed_bytes_ (mgr w) →
  reserved_bytes_ (mgr w') = reserved_bytes_ (mgr w) →
  headers w' = headers w1 → blocks w' = blocks w1 → heap_wf (freed raw w').
Proof.
  intros Ha Hw Hm Hr Hh Hb. apply (heap_wf_local w); try done.
  intros k' b' Hin. destruct (raw_fresh k' b' Hin) as [Hne _]. simpl.
  rewrite Hh, Hb. unfold w1, with_raw. simpl.
  by rewrite !lookup_delete_ne, !lookup_insert_ne by congruence.
Qed.

Lemma freed_blocks w' : blocks w' = blocks w1 → blocks (freed raw w') = blocks w.
Proof.
  intros Hb. simpl. rewrite Hb. unfold w1, with_raw. simpl.
  rewrite delete_insert_id; [done|]. destruct (blocks w !! raw) as [[m' b']|] eqn:E; [|done].
  by destruct (new_address_fresh _ _ _ _ _ _ _ Hraw E).
Qed.
End Raw.

Section MallocAlone.
Context {ASAN : AsanRuntime} {ALLOC : Allocator}.
Context (dtor : DestructorFn → Z → proc unit) (me : thread_id) (env : CollectEnv).

Lemma operator_new_retry_spec n a w :
  exec (operator_new_retry dtor me env n a) w =
  match new_address w n a with
  | Some p => Ret p (set_blocks <[p := (n, a)]> w)
  | None =>
      match exec (collect dtor me env) w with
      | Ret _ w' => operator_new n a w'
      | Throw e w' => Throw e w'
      | Stuck why => Stuck why
      end
  end.
Proof.
  unfold operator_new_retry. rewrite exec_bind_result, exec_atomic. unfold operator_new at 1.
  destruct (new_address w n a); [done|]. rewrite exec_bind.
  destruct (exec (collect dtor me env) w); [|done..]. by rewrite exec_atomic.
Qed.

(** What follows once [operator new] has given the storage [raw]. *)
Lemma allocate_block_cont size a off d c w w1 raw :
  exec (operator_new_retry dtor me env (wrap64 (off + size)) a) w = Ret raw w1 →
  may_run me w1 = true →
  let h := make_header size a off d in
  let w2 := set_headers <[raw := h]> w1 in
  exec (allocate_block dtor me env size a off d c) w =
  match publish_block me raw size (wrap64 (off + size)) c w2 with
  | Ret _ w3 => Ret (payload_pointer raw h) w3
  | Throw e w3 =>
      match free_block_memory raw w3 with
      | Ret _ w4 => Throw e w4
      | Throw e' w4 => Throw e' w4
      | Stuck why => Stuck why
      end
  | Stuck why => Stuck why
  end.
Proof.
  intros E Hrun h w2. unfold allocate_block. rewrite exec_bind, E, exec_bind, exec_atomic.
  cbn [modify]. rewrite exec_bind_result, exec_locked by done.
  fold h. fold w2. destruct (publish_block _ _ _ _ _ w2); [done| |done].
  rewrite exec_bind, exec_atomic. by destruct (free_block_memory raw s).
Qed.

(** The possible ends of an allocation whose storage was found at once. *)
Inductive malloc_end (raw size k : Z) (d : DestructorFn) (c : bool) (w : World) :
    outcome World Z → Prop :=
| malloc_done o :
    let h := make_header size (2 ^ Z.max k 4) (layout_offset k) d in
    managed_bytes_ (mgr w) + size <= SIZE_MAX →
    reserved_bytes_ (mgr w) + (layout_offset k + size) <= SIZE_MAX →
    malloc_end raw size k d c w
      (Ret (payload_begin raw h)
         (published raw h c (with_oom o
            (with_raw raw (layout_offset k + size) (2 ^ Z.max k 4) h w))))
| malloc_full :
    let h := make_header size (2 ^ Z.max k 4) (layout_offset k) d in
    SIZE_MAX < managed_bytes_ (mgr w) + size ∨
      SIZE_MAX < reserved_bytes_ (mgr w) + (layout_offset k + size) →
    malloc_end raw size k d c w
      (Throw bad_alloc (freed raw (with_raw raw (layout_offset k + size) (2 ^ Z.max k 4) h w)))
| malloc_oom o m :
    let h := make_header size (2 ^ Z.max k 4) (layout_offset k) d in
    may_fail w →
    malloc_end raw size k d c w
      (Throw bad_alloc (freed raw (with_oom o (set_mem m
         (with_raw raw (layout_offset k + size) (2 ^ Z.max k 4) h w))))).

Context (w : World) (size k : Z) (d : DestructorFn) (c : bool).
Context (Hrun : may_run me w = true) (Hk : 0 <= k < 64) (Hs : is_size size).

Lemma malloc_arguments :
  size = 0 → exec (malloc_internal dtor me env size (2 ^ k) d c) w = Throw bad_alloc w.
Proof. intros ->. done. Qed.

Lemma malloc_enter :
  0 < size → registered me w = true →
  exec (malloc_internal dtor me env size (2 ^ k) d c) w =
  if (UINT16_MAX <? layout_offset k) || add_would_overflow (layout_offset k) size
  then Throw bad_alloc w
  else exec (allocate_block dtor me env size (2 ^ Z.max k 4) (layout_offset k) d c) w.
Proof.
  intros Hpos Hr. unfold malloc_internal.
  rewrite has_single_bit_pow2 by lia. destruct (Z.eqb_spec size 0); [lia|]. cbn [orb negb].
  rewrite exec_bind, exec_locked by done.
  unfold require_registered_thread_locked at 1, mbind at 1, M_bind at 1, get at 1. rewrite Hr.
  cbn [mret M_ret]. destruct (layout_ok k Hk) as [-> _]. rewrite normalize_pow2 by lia.
  by destruct (_ || _).
Qed.

Lemma malloc_unregistered :
  0 < size → registered me w = false →
  exec (malloc_internal dtor me env size (2 ^ k) d c) w = Throw not_registered_error w.
Proof.
  intros Hpos Hr. unfold malloc_internal.
  rewrite has_single_bit_pow2 by lia. destruct (Z.eqb_spec size 0); [lia|]. cbn [orb negb].
  rewrite exec_bind, exec_locked by done.
  unfold require_registered_thread_locked at 1, mbind at 1, M_bind at 1, get at 1. by rewrite Hr.
Qed.

Lemma malloc_ends raw :
  heap_wf w → k <= 15 → 0 < size → layout_offset k + size <= SIZE_MAX → registered me w = true →
  new_address w (layout_offset k + size) (2 ^ Z.max k 4) = Some raw →
  malloc_end raw size k d c w (exec (malloc_internal dtor me env size (2 ^ k) d c) w).
Proof.
  intros Hwf Hk15 Hpos Hfit Hr Hraw. rewrite malloc_enter by done.
  pose proof (layout_offset_bound k ltac:(lia)) as Hoff.
  destruct (Z.ltb_spec UINT16_MAX (layout_offset k)); [lia|].
  rewrite (proj2 (add_would_overflow_false _ _)) by done. cbn [orb].
  assert (wrap64 (layout_offset k + size) = layout_offset k + size) as Hw64.
  { apply wrap64_size. unfold is_size, sizeof_ChunkHeader in *. lia. }
  set (h := make_header size (2 ^ Z.max k 4) (layout_offset k) d).
  set (w1 := with_raw raw (layout_offset k + size) (2 ^ Z.max k 4) h w).
  rewrite (allocate_block_cont _ _ _ _ _ _ (set_blocks <[raw := (layout_offset k + size, 2 ^ Z.max k 4)]> w) raw);
    [|by rewrite Hw64, operator_new_retry_spec, Hraw|done].
  rewrite Hw64. fold h. change (set_headers _ (set_blocks _ w)) with w1.
  assert (Hk' : 0 <= k <= 15) by lia.
  assert (heap_wf w1) as Hwf1 by by eapply with_raw_wf.
  assert (headers w1 !! raw = Some h) as Hh1 by by eapply with_raw_header.
  assert (block_ok w1 (payload_begin raw h) (new_record raw h c)) as Hok1 by by eapply with_raw_block.
  assert (apart (allocations w1) (new_record raw h c)) as Hap1 by by eapply with_raw_apart.
  assert (ch_payload_offset h = layout_offset k) as Ho by by apply make_header_offset.
  assert (Htot : layout_offset k + size = ch_payload_offset h + ch_size h) by by rewrite Ho.
  assert (Hfree : ∀ w', headers w' = headers w1 → blocks w' = blocks w1 →
    free_block_memory raw w' = Ret tt (freed raw w')).
  { intros w' Hh' Hb'. apply (free_block_memory_spec w' raw h (layout_offset k + size)).
    - by rewrite Hh'.
    - rewrite Hb'. unfold w1. simpl. rewrite lookup_insert_eq. do 2 f_equal.
      symmetry. by apply make_header_alignment. }
  destruct (decide (managed_bytes_ (mgr w) + size <= SIZE_MAX ∧
    reserved_bytes_ (mgr w) + (layout_offset k + size) <= SIZE_MAX)) as [[Hm Hrs]|Hfull].
  - destruct (publish_block_cases me w1 raw h c Hwf1 Hh1 Hok1 Hap1 Hr Hm) as [(o & E & Hf)|(o & E)].
    + by rewrite <-Htot.
    + rewrite <-Htot in E. change (ch_size h) with size in E. rewrite E.
      rewrite Hfree by done. by apply malloc_oom.
    + rewrite <-Htot in E. change (ch_size h) with size in E. rewrite E. by apply malloc_done.
  - pose proof (publish_block_full me w1 raw h c Hr) as E. rewrite <-Htot in E.
    change (ch_size h) with size in E. rewrite E.
    + rewrite Hfree by done. apply malloc_full. simpl in *. lia.
    + simpl. lia.
Qed.
End MallocAlone.

(** What a successful allocation leaves behind. *)
Lemma published_facts {ALLOC : Allocator} w raw size k d c o :
  heap_wf w → 0 < size → 0 <= k <= 15 →
  new_address w (layout_offset k + size) (2 ^ Z.max k 4) = Some raw →
  managed_bytes_ (mgr w) + size <= SIZE_MAX →
  reserved_bytes_ (mgr w) + (layout_offset k + size) <= SIZE_MAX →
  let h := make_header size (2 ^ Z.max k 4) (layout_offset k) d in
  let p := payload_begin raw h in
  let w' := published raw h c (with_oom o (with_raw raw (layout_offset k + size) (2 ^ Z.max k 4) h w)) in
  heap_wf w' ∧ (2 ^ k | p) ∧ (16 | p) ∧
  allocations w' ≡ₚ
    (p, {| br_header := raw; br_payload_begin := p; br_payload_end := p + size; br_constructing := c |})
    :: allocations w ∧
  (∀ a, p <= a → a + 8 <= p + size → load_word (mem w') a = 0) ∧
  managed_bytes_ (mgr w') = managed_bytes_ (mgr w) + size ∧
  reserved_bytes_ (mgr w') = reserved_bytes_ (mgr w) + (layout_offset k + size).
Proof.
  intros Hwf Hs Hk Hraw Hm Hr h p w'.
  set (w1 := with_raw raw (layout_offset k + size) (2 ^ Z.max k 4) h w).
  assert (heap_wf w1) as Hwf1 by by eapply with_raw_wf.
  assert (headers w1 !! raw = Some h) as Hh1 by by eapply with_raw_header.
  assert (block_ok w1 (payload_begin raw h) (new_record raw h c)) as Hok1 by by eapply with_raw_block.
  assert (apart (allocations w1) (new_record raw h c)) as Hap1 by by eapply with_raw_apart.
  assert (ch_payload_offset h = layout_offset k) as Ho by by apply make_header_offset.
  assert (p = raw + layout_offset k) as Hp by (unfold p, payload_begin; by rewrite Ho).
  assert ((2 ^ Z.max k 4 | p)) as Hdiv.
  { rewrite Hp. apply Z.divide_add_r; [|apply layout_ok; lia].
    eapply new_address_aligned, Hraw. apply Z.pow_pos_nonneg; lia. }
  assert (∀ j, 0 <= j <= Z.max k 4 → (2 ^ j | p)) as Hj.
  { intros j Hj. etrans; [|exact Hdiv]. exists (2 ^ (Z.max k 4 - j)). rewrite <-Z.pow_add_r by lia.
    by replace (Z.max k 4 - j + j) with (Z.max k 4) by lia. }
  split_and!.
  - apply published_wf; [done..| |]; [exact Hm|]. by rewrite Ho.
  - apply Hj. lia.
  - change 16 with (2 ^ 4). apply Hj. lia.
  - apply sm_emplace_perm. change (allocations w) with (allocations w1). by apply (apart_fresh w1 _ _ Hwf1 Hok1).
  - intros a Ha1 Ha2. by apply load_word_memset0.
  - simpl. unfold payload_size. simpl. fold p. lia.
  - simpl. unfold reserved_size. simpl. fold p. lia.
Qed.

(** ** Undoing an allocation, and finishing it *)

Lemma freed_block_wf w k b :
  heap_wf w → (k, b) ∈ allocations w → heap_wf (freed (br_header b) (drop_block k b w)).
Proof.
  intros Hwf Hin. pose proof (drop_block_wf w Hwf k b Hin) as Hd.
  apply (heap_wf_local (drop_block k b w)); try done.
  intros k' b' Hk'. change (allocations (drop_block k b w)) with (sm_erase k (allocations w)) in Hk'.
  apply elem_of_sm_erase in Hk' as [Hin' Hne]; [|apply wf_sorted, Hwf]. simpl in *.
  rewrite !lookup_delete_ne; [done|..];
    intros Heq; apply Hne; symmetry; by eapply (wf_header_inj w Hwf).
Qed.

Section ReleaseAlone.
Context {ASAN : AsanRuntime} (me : thread_id) (env : CollectEnv).
Context (w : World) (Hwf : heap_wf w) (Hrun : may_run me w = true).

Lemma release_unconstructed_locked_spec k b :
  registered me w = true → (k, b) ∈ allocations w →
  release_unconstructed_locked me k w = Ret (br_header b) (drop_block k b w).
Proof.
  intros Hr Hin. unfold release_unconstructed_locked, require_registered_thread_locked.
  unfold mbind at 1, M_bind at 1. unfold mbind at 1, M_bind at 1, get at 1. rewrite Hr.
  cbn [mret M_ret]. rewrite M_bind_get.
  rewrite (sm_elem_find k b _ (wf_sorted w Hwf) Hin).
  destruct (wf_read_header w Hwf k b Hin) as (h & Hh & _ & _ & Hsz & Hrs).
  assert (read_header (br_header b) w = Ret h w) as E by (unfold read_header; by rewrite Hh).
  mstep E. rewrite Hsz, Hrs. unfold mbind, M_bind, modify. rewrite invalidate_spec.
  destruct (drop_bytes w Hwf k b Hin) as [Hb1 Hb2].
  unfold drop_block, set_mgr, set_bytes, set_mem, set_weak_refs, set_allocations. simpl.
  by rewrite Hb1, Hb2, (wf_begin w Hwf _ _ Hin).
Qed.

Lemma release_unconstructed_alone k b :
  registered me w = true → (k, b) ∈ allocations w →
  exec (release_unconstructed me env k) w = Ret tt (freed (br_header b) (drop_block k b w)).
Proof.
  intros Hr Hin. pose proof (wf_extent w Hwf k b Hin) as Hx. unfold sizeof_ChunkHeader in Hx.
  unfold release_unconstructed. destruct (Z.eqb_spec k 0); [lia|].
  rewrite exec_bind, exec_locked, (release_unconstructed_locked_spec k b) by done.
  destruct (Z.eqb_spec (br_header b) 0); [lia|]. rewrite exec_atomic.
  destruct (wf_block w Hwf k b Hin) as [_ _ _ (h & Hh & _ & _ & _ & _ & _ & Hbl)].
  by apply (free_block_memory_spec _ _ h (ch_payload_offset h + ch_size h)).
Qed.

Lemma release_unknown k :
  registered me w = true → sm_find k (allocations w) = None →
  exec (release_unconstructed me env k) w = Ret tt w.
Proof.
  intros Hr Hf. unfold release_unconstructed. destruct (k =? 0); [done|].
  rewrite exec_bind, exec_locked by done.
  unfold release_unconstructed_locked, require_registered_thread_locked.
  unfold mbind, M_bind, get. rewrite Hr. cbn [mret M_ret]. by rewrite Hf.
Qed.

Definition finished (k : Z) : World :=
  set_mgr (set_allocations (sm_alter (set_constructing false) k)) w.

Lemma finished_wf k : heap_wf (finished k).
Proof. by apply heap_wf_alter. Qed.

Lemma finish_construction_alone k :
  exec (finish_construction me env k) w =
  match sm_find k (allocations w) with
  | Some _ => Ret tt (finished k)
  | None => Throw unknown_allocation_error w
  end.
Proof.
  unfold finish_construction. rewrite exec_locked by done.
  unfold finish_construction_locked. rewrite M_bind_get. by destruct (sm_find k _).
Qed.
End ReleaseAlone.

(** ** A concrete allocator: the first aligned address above all blocks *)

Definition top_of (bs : gmap Z (Z * Z)) : Z :=
  foldr Z.max 4096 ((λ qb, qb.1 + Z.max qb.2.1 1) <$> map_to_list bs).

Lemma top_of_above bs q m b : bs !! q = Some (m, b) → q + m <= top_of bs ∧ q + 1 <= top_of bs.
Proof.
  rewrite <-elem_of_map_to_list. unfold top_of. induction (map_to_list bs) as [|[q' [m' b']] l IH]; [by intros ?%elem_of_nil|].
  csimpl. intros [[= <- <- <-]|Hin]%elem_of_cons; [simpl; lia|]. apply IH in Hin. lia.
Qed.

Lemma top_of_pos bs : 4096 <= top_of bs.
Proof. unfold top_of. induction (map_to_list bs) as [|[q' [m' b']] l IH]; csimpl; lia. Qed.

Definition bump_address (w : World) (n a : Z) : option Z :=
  let p := a * ((top_of (blocks w) + a - 1) / a) in
  if (0 <? a) && (p + n <=? 2 ^ 63) then Some p else None.

Lemma bump_address_spec w n a p :
  bump_address w n a = Some p → 0 < a ∧ p + n <= 2 ^ 63 ∧ (a | p) ∧ top_of (blocks w) <= p.
Proof.
  unfold bump_address. destruct (Z.ltb_spec 0 a); [|done]. simpl.
  destruct (Z.leb_spec (a * ((top_of (blocks w) + a - 1) / a) + n) (2 ^ 63)); [|done].
  intros [= <-]. split_and!; [done|done| |].
  - exists ((top_of (blocks w) + a - 1) / a). lia.
  - pose proof (Z.div_mod (top_of (blocks w) + a - 1) a). pose proof (Z.mod_pos_bound (top_of (blocks w) + a - 1) a). lia.
Qed.

#[export] Program Instance bump_allocator : Allocator := {| new_address := bump_address |}.
Next Obligation. intros w n a p (_ & _ & _ & ?)%bump_address_spec. pose proof (top_of_pos (blocks w)). lia. Qed.
Next Obligation. by intros w n a p _ (_ & _ & ? & _)%bump_address_spec. Qed.
Next Obligation. by intros w n a p (_ & ? & _ & _)%bump_address_spec. Qed.
Next Obligation.
  intros w n a p q m b (_ & _ & _ & Hp)%bump_address_spec Hq%top_of_above. lia.
Qed.
