(* ===== verification/Contract.v ===== *)
(** * The contract of the manager

    What a client may rely on, without the mechanism: a ledger of the objects
    there are, the weak handles tracked, the root ranges registered and the
    contents of memory, and the transitions a client may see it make.  The
    second half says what the ledger of a [World] is and which changes of a world
    are transitions of its ledger; Ownership makes that part of what every
    operation does. *)

From S2P Require Import Prelude Words Memory OrdMap Chunk Manager Heap Scanner Mark Finalize WeakRefs.
From S2P Require Import Sweep Threads Collect CollectSpec Roots Alloc.

(** ** The ledger *)

(** [objects]: the size of an object by its address, and whether it is under
    construction.  [cycles]: the number of collections, as the statistics count
    them. *)
Record Ledger := {
  objects : gmap Z (Z * bool);
  handles : list WeakRefEntry;
  ranges : list RootRange;
  bytes : memory;
  cycles : Z;
}.

(** The ledger with other tables and other memory. *)
Definition with_tables (es : list WeakRefEntry) (rs : list RootRange) (m : memory) (h : Ledger) : Ledger :=
  {| objects := objects h; handles := es; ranges := rs; bytes := m; cycles := cycles h |}.

(** With the object [k]. *)
Definition with_object (k n : Z) (c : bool) (h : Ledger) : Ledger :=
  {| objects := <[k := (n, c)]> (objects h); handles := handles h; ranges := ranges h; bytes := bytes h;
     cycles := cycles h |}.

(** The address [a] lies in the object [k]. *)
Definition within (h : Ledger) (a k : Z) : Prop := ∃ n c, objects h !! k = Some (n, c) ∧ k <= a < k + n.

(** Reached from the words [R] through the words of objects. *)
Inductive reached (h : Ledger) (R : list Z) : Z → Prop :=
| reached_root a k : a ∈ R → within h a k → reached h R k
| reached_word k n c a k' :
    reached h R k → objects h !! k = Some (n, c) → a ∈ word_addrs k (k + n) →
    within h (load_word (bytes h) a) k' → reached h R k'.

(** An entry that refers to one of the objects [D]. *)
Definition refers (h : Ledger) (D : Z → Prop) (e : WeakRefEntry) : Prop := ∃ k, D k ∧ within h (we_target e) k.

(** The objects [D] go: the weak handles that refer to them are forgotten and
    their words cleared; nothing else changes. *)
Record dropped (D : Z → Prop) (h h' : Ledger) : Prop := {
  dr_objects : ∀ k, (D k ∧ objects h' !! k = None) ∨ (¬ D k ∧ objects h' !! k = objects h !! k);
  dr_handles : ∀ e, e ∈ handles h' ↔ e ∈ handles h ∧ ¬ refers h D e;
  dr_ranges : ranges h' = ranges h;
  dr_bytes : ∃ l, bytes h' = clear_words l (bytes h) ∧
    (∀ e, e ∈ l → e ∈ handles h ∧ refers h D e) ∧
    ∀ e, e ∈ handles h → refers h D e → we_storage e ≠ 0 → e ∈ l;
}.

Section Contract.
Context {ASAN : AsanRuntime}.

(** The words of the registered root ranges. *)
Definition root_words (h : Ledger) : list Z := r ← ranges h; range_candidates (bytes h) (rr_begin r) (rr_end r).

(** What a collection may start from: the registered ranges, the objects under
    construction, and whatever else looks like a pointer. *)
Record root_set (h : Ledger) (R : list Z) : Prop := {
  rs_words : ∀ a, a ∈ root_words h → a ∈ R;
  rs_making : ∀ k n, objects h !! k = Some (n, true) → k ∈ R;
}.

(** What leaves the objects alone: memory, the ranges and the tracked handles
    change. *)
Inductive clerical : Ledger → Ledger → Prop :=
| cl_write m h :
    clerical h (with_tables (handles h) (ranges h) m h)
| cl_add_range r rs h :
    rs ≡ₚ r :: ranges h →
    clerical h (with_tables (handles h) rs (bytes h) h)
| cl_remove_range r rs h :
    ranges h ≡ₚ r :: rs →
    clerical h (with_tables (handles h) rs (bytes h) h)
| cl_track e es h :
    (∃ k, within h (we_target e) k) → es ≡ₚ e :: handles h →
    clerical h (with_tables es (ranges h) (bytes h) h)
| cl_forget e es h :
    handles h ≡ₚ e :: es →
    clerical h (with_tables es (ranges h) (bytes h) h).

(** What happens to objects. *)
Inductive event : Ledger → Ledger → Prop :=
| ev_allocate k n c h :
    0 < n → (∀ a, k <= a < k + n → ∀ k', ¬ within h a k') →
    event h (with_tables (handles h) (ranges h) (memset0 (bytes h) k n) (with_object k n c h))
| ev_finish k n c h :
    objects h !! k = Some (n, c) →
    event h (with_object k n false h)
| ev_release k h h' :
    is_Some (objects h !! k) → dropped (λ k', k' = k) h h' → cycles h' = cycles h → event h h'
| ev_collect R h h' :
    root_set h R → dropped (λ k, is_Some (objects h !! k) ∧ ¬ reached h R k) h h' →
    cycles h' = wrap64 (cycles h + 1) → event h h'
| ev_shutdown h h' :
    (∀ k n c, objects h !! k = Some (n, c) → c = false) → objects h' = ∅ →
    dropped (λ k, is_Some (objects h !! k)) h h' → cycles h' = 0 → event h h'.

(** What one step of a thread does to the ledger: bookkeeping, or one event. *)
Definition bookkeeping : relation Ledger := rtc clerical.
Definition transition (h h' : Ledger) : Prop := bookkeeping h h' ∨ event h h'.

(** ** What holds of every ledger *)

Record ledger_ok (h : Ledger) : Prop := {
  lg_size : ∀ k n c, objects h !! k = Some (n, c) → 0 < n;
  lg_apart : ∀ a k k', within h a k → within h a k' → k = k';
  lg_handles : ∀ e, e ∈ handles h → ∃ k, within h (we_target e) k;
}.

Lemma within_kept D h h' a k : dropped D h h' → within h' a k ↔ within h a k ∧ ¬ D k.
Proof.
  intros Hd. unfold within. destruct (dr_objects _ _ _ Hd k) as [[HD ->]|[HD ->]]; naive_solver.
Qed.

Lemma dropped_ok D h h' : dropped D h h' → ledger_ok h → ledger_ok h'.
Proof.
  intros Hd [Hs Ha Hh]. split.
  - intros k n c. destruct (dr_objects _ _ _ Hd k) as [[_ ->]|[_ ->]]; [done|apply Hs].
  - intros a k k' [? _]%(within_kept D h) [? _]%(within_kept D h); [by eapply Ha|done..].
  - intros e [He Hn]%(dr_handles _ _ _ Hd). destruct (Hh e He) as [k Hk]. exists k.
    apply (within_kept D h); [done|]. split; [done|]. intros HD. apply Hn. by exists k.
Qed.

Lemma within_same h h' a k : objects h' = objects h → within h a k → within h' a k.
Proof. intros E (n & c & Hk & Ha). exists n, c. by rewrite E. Qed.

Lemma within_insert k n c h h' a k' :
  objects h' = <[k := (n, c)]> (objects h) → within h' a k' → (k' = k ∧ k <= a < k + n) ∨ within h a k'.
Proof.
  intros E (n' & c' & Ek & Ha). rewrite E in Ek. apply lookup_insert_Some in Ek as [[<- [= <- <-]]|[_ Ek]]; [by left|].
  right. by exists n', c'.
Qed.

Lemma finish_within h k n c a k' :
  objects h !! k = Some (n, c) →
  within (with_object k n false h) a k' ↔
  within h a k'.
Proof.
  intros E. unfold within. simpl. destruct (decide (k' = k)) as [->|]; [|by rewrite lookup_insert_ne].
  rewrite lookup_insert_eq, E. naive_solver.
Qed.

(** A transition keeps the objects apart and the handles on objects. *)
Lemma clerical_ok h h' : clerical h h' → ledger_ok h → ledger_ok h'.
Proof.
  intros Hc. destruct Hc as [m h|r rs h Hr|r rs h Hr|e es h He Hes|e es h Hes]; intros [Hs Ha Hh]; split; try done; simpl.
  - intros e'. rewrite Hes, elem_of_cons. intros [->|?]; [done|by apply Hh].
  - intros e' He'. apply Hh. rewrite Hes. by right.
Qed.

Lemma event_ok h h' : event h h' → ledger_ok h → ledger_ok h'.
Proof.
  intros He. destruct He as [k n c h Hn Hfr|k n c h Hk|k h h' _ Hd _|R h h' _ Hd _|h h' _ _ Hd _];
    try (by apply (dropped_ok _ _ _ Hd)); intros [Hs Ha Hh]; split; try done; simpl.
  - intros k' n' c' [[<- [= <- <-]]|[_ E]]%lookup_insert_Some; [done|by eapply Hs].
  - intros a k1 k2 H1%(within_insert k n c h) H2%(within_insert k n c h); [|done..].
    destruct H1 as [[-> H1]|H1], H2 as [[-> H2]|H2]; [done| | |by eapply Ha].
    + by destruct (Hfr a H1 k2).
    + by destruct (Hfr a H2 k1).
  - intros e (k' & n' & c' & E & Ha')%Hh. exists k', n', c'. simpl. split; [|done].
    rewrite lookup_insert_ne; [done|]. intros <-. pose proof (Hs k n' c' E). destruct (Hfr k ltac:(lia) k).
    exists n', c'. split; [done|lia].
  - intros k' n' c' [[<- [= <- <-]]|[_ E]]%lookup_insert_Some; [by eapply Hs|by eapply Hs].
  - intros a k1 k2 H1 H2. apply (Ha a); by eapply finish_within.
  - intros e [k' Hk']%Hh. exists k'. by eapply finish_within.
Qed.

Lemma transition_refl h : transition h h.
Proof. left. apply rtc_refl. Qed.

Lemma transition_ok h h' : transition h h' → ledger_ok h → ledger_ok h'.
Proof.
  intros [Ht|Ht]; [|by apply event_ok]. induction Ht as [|x y z Hx _ IH]; [done|].
  intros Hok. by eapply IH, clerical_ok.
Qed.

Lemma bookkeeping_objects h h' : bookkeeping h h' → objects h' = objects h.
Proof. induction 1 as [|x y z Hx _ IH]; [done|]. rewrite IH. by destruct Hx. Qed.

(** An object goes alone, when it is released; or in a collection that does not
    reach it; or with all others, when nothing is under construction. *)
Lemma object_goes h h' k n c :
  ledger_ok h → transition h h' → objects h !! k = Some (n, c) → objects h' !! k = None →
  (cycles h' = cycles h ∧ ∀ k', k' ≠ k → objects h' !! k' = objects h !! k') ∨
  (cycles h' = wrap64 (cycles h + 1) ∧ c = false ∧ ∃ R, root_set h R ∧ ¬ reached h R k ∧
     ∀ k', reached h R k' → objects h' !! k' = objects h !! k') ∨
  (cycles h' = 0 ∧ objects h' = ∅ ∧ ∀ k' n' c', objects h !! k' = Some (n', c') → c' = false).
Proof.
  intros Hok [Ht|Ht] Hk Hk'; [rewrite (bookkeeping_objects h h' Ht) in Hk'; congruence|].
  destruct Ht as [k1 n1 c1 h Hn _|k1 n1 c1 h Hk1|k1 h h' _ Hd Hcy|R h h' HR Hd Hcy|h h' Hc He _ Hcy].
  - simpl in Hk'. apply lookup_insert_None in Hk' as [? _]. congruence.
  - simpl in Hk'. apply lookup_insert_None in Hk' as [? _]. congruence.
  - left. split; [done|]. intros k' Hne. destruct (dr_objects _ _ _ Hd k) as [[-> _]|[_ E]]; [|congruence].
    by destruct (dr_objects _ _ _ Hd k') as [[-> _]|[_ E]].
  - right; left. destruct (dr_objects _ _ _ Hd k) as [[[_ Hn] _]|[_ E]]; [|congruence]. split_and!; [done| |].
    + destruct c; [|done]. destruct Hn. eapply reached_root; [by eapply (rs_making h R HR)|].
      exists n, true. split; [done|]. pose proof (lg_size h Hok k n true Hk). lia.
    + exists R. split_and!; [done| |].
      * done.
      * intros k' Hr. by destruct (dr_objects _ _ _ Hd k') as [[[_ ?] _]|[_ E]].
  - by right; right.
Qed.
End Contract.

(** ** The ledger of a world *)

Definition object (kb : Z * BlockRecord) : Z * (Z * bool) := (kb.1, (payload_size kb, br_constructing kb.2)).

Definition ledger (w : World) : Ledger := {|
  objects := list_to_map (object <$> allocations w);
  handles := weak_refs w;
  ranges := root_ranges w;
  bytes := mem w;
  cycles := total_collections (stats_ (mgr w));
|}.

Section World.
Context (w : World) (Hwf : heap_wf w).

Lemma objects_ledger k n c :
  objects (ledger w) !! k = Some (n, c) ↔
  ∃ b, (k, b) ∈ allocations w ∧ br_payload_end b = k + n ∧ br_constructing b = c.
Proof.
  simpl. rewrite <-elem_of_list_to_map.
  2:{ rewrite <-list_fmap_compose. apply sm_wf_NoDup, wf_sorted, Hwf. }
  rewrite list_elem_of_fmap. split.
  - intros ([k' b] & [= -> -> ->] & Hin). exists b. unfold payload_size. simpl. rewrite (wf_begin w Hwf k' b Hin).
    split_and!; [done|lia|done].
  - intros (b & Hin & He & <-). exists (k, b). split; [|done]. unfold object, payload_size. simpl.
    rewrite (wf_begin w Hwf k b Hin). do 2 f_equal. lia.
Qed.

Lemma within_ledger a k : within (ledger w) a k ↔ ∃ b, (k, b) ∈ allocations w ∧ k <= a < br_payload_end b.
Proof.
  unfold within. setoid_rewrite objects_ledger. split.
  - intros (n & c & (b & Hin & He & _) & Ha). exists b. split; [done|lia].
  - intros (b & Hin & Ha). exists (br_payload_end b - k), (br_constructing b). split; [|lia].
    exists b. split_and!; [done|lia|done].
Qed.

Lemma object_present k b : (k, b) ∈ allocations w → is_Some (objects (ledger w) !! k).
Proof.
  intros Hin. exists (br_payload_end b - k, br_constructing b). apply objects_ledger. exists b. split_and!; [done|lia|done].
Qed.

Lemma object_absent k : objects (ledger w) !! k = None ↔ ∀ b, (k, b) ∉ allocations w.
Proof.
  split.
  - intros E b [x Hx]%object_present. congruence.
  - intros Hn. destruct (objects (ledger w) !! k) as [[n c]|] eqn:E; [|done].
    apply objects_ledger in E as (b & Hin & _). by destruct (Hn b).
Qed.

Lemma within_find a k : within (ledger w) a k ↔ ∃ b, find_block_locked (allocations w) a = Some (k, b).
Proof. rewrite within_ledger. by setoid_rewrite (find_block_spec w Hwf). Qed.

Lemma reached_ledger R k : reached (ledger w) R k ↔ reachable w R k.
Proof.
  split.
  - induction 1 as [a k Ha Hk|k n c a k' _ IH Hk Ha Hw].
    + apply within_find in Hk as [b Hb]. by eapply reach_root.
    + apply objects_ledger in Hk as (b & Hin & He & _). apply within_find in Hw as [b' Hb'].
      eapply reach_edge; [exact IH|]. exists b, b', a. by rewrite He.
  - induction 1 as [a k b Ha Hb|k k' _ IH (b & b' & a & Hin & Ha & Hb')].
    + eapply reached_root; [done|]. apply within_find. by exists b.
    + eapply (reached_word _ _ k (br_payload_end b - k) (br_constructing b) a); [done| | |apply within_find; by exists b'].
      * apply objects_ledger. exists b. split_and!; [done|lia|done].
      * by replace (k + (br_payload_end b - k)) with (br_payload_end b) by lia.
Qed.

Lemma ledger_is_ok : ledger_ok (ledger w).
Proof.
  split.
  - intros k n c (b & Hin & He & _)%objects_ledger. pose proof (wf_extent w Hwf k b Hin). lia.
  - intros a k k' [b Hb]%within_find [b' Hb']%within_find. congruence.
  - intros e He. destruct (wf_weak w Hwf e He) as (k & b & Hin & Ha). exists k. apply within_ledger. by exists b.
Qed.
End World.

(** ** Changes of a world *)

Lemma ledger_same w w' :
  allocations w' = allocations w → weak_refs w' = weak_refs w → root_ranges w' = root_ranges w → mem w' = mem w →
  total_collections (stats_ (mgr w')) = total_collections (stats_ (mgr w)) → ledger w' = ledger w.
Proof. unfold ledger. by intros -> -> -> -> ->. Qed.

Section Changes.
Context {ASAN : AsanRuntime}.

(** Two worlds with the same objects. *)
Lemma bookkeeping_tables w w' m :
  allocations w' = allocations w → total_collections (stats_ (mgr w')) = total_collections (stats_ (mgr w)) →
  bookkeeping (with_tables (weak_refs w) (root_ranges w) m (ledger w))
    (with_tables (weak_refs w') (root_ranges w') m (ledger w)) →
  m = mem w' → bookkeeping (ledger w) (ledger w').
Proof.
  intros Ha Hc Ht ->. eapply rtc_l; [apply (cl_write (mem w'))|].
  assert (ledger w' = with_tables (weak_refs w') (root_ranges w') (mem w') (ledger w)) as ->
    by (unfold ledger, with_tables; simpl; by rewrite Ha, Hc). exact Ht.
Qed.

Lemma dropped_ledger (D : Z → Prop) w w' (l : list WeakRefEntry) :
  heap_wf w → heap_wf w' →
  (∀ k b, (k, b) ∈ allocations w' ↔ (k, b) ∈ allocations w ∧ ¬ D k) →
  (∀ k b, (k, b) ∈ allocations w → D k ∨ ¬ D k) → (∀ k, D k → ∃ b, (k, b) ∈ allocations w) →
  (∀ e, e ∈ weak_refs w' ↔ e ∈ weak_refs w ∧ ¬ refers (ledger w) D e) →
  root_ranges w' = root_ranges w → mem w' = clear_words l (mem w) →
  (∀ e, e ∈ l → e ∈ weak_refs w ∧ refers (ledger w) D e) →
  (∀ e, e ∈ weak_refs w → refers (ledger w) D e → we_storage e ≠ 0 → e ∈ l) →
  dropped D (ledger w) (ledger w').
Proof.
  intros Hwf Hwf' Ha Hdec HD Hw Hr Hm Hl1 Hl2. split; [|done|done|by exists l].
  assert (∀ k, ¬ D k → objects (ledger w') !! k = objects (ledger w) !! k) as Hkeep.
  { intros k Hk. apply option_eq. intros [n c]. rewrite !objects_ledger by done.
    split; intros (b & Hin & ?); exists b; (split; [|done]); [by apply Ha in Hin as [? _]|by apply Ha]. }
  intros k. destruct (objects (ledger w) !! k) as [[n c]|] eqn:E.
  - pose proof E as (b & Hin & _)%objects_ledger; [|done]. destruct (Hdec k b Hin) as [Hk|Hk].
    + left. split; [done|]. apply object_absent; [done|]. intros b' [_ ?]%Ha. done.
    + right. split; [done|]. by rewrite Hkeep.
  - right. assert (¬ D k) as Hk.
    { intros (b & Hin)%HD. by apply (proj1 (object_absent w Hwf k) E b). }
    split; [done|]. by rewrite Hkeep.
Qed.

Lemma collected_event env me w w' hs :
  heap_wf w → collected env me w w' hs → event (ledger w) (ledger w').
Proof.
  intros Hwf Hc. pose proof (reached_ledger w Hwf (roots_of env me w)) as Hre.
  apply (ev_collect (roots_of env me w)).
  - split.
    + intros a Ha. unfold roots_of, root_candidates. apply elem_of_app; right. by apply elem_of_app; right.
    + intros k n (b & Hin & _ & Hb)%objects_ledger; [|done]. unfold roots_of, root_candidates. apply elem_of_app; left.
      unfold constructing_candidates. apply (list_elem_of_fmap_2' fst _ (k, b)); [|done]. by apply list_elem_of_filter.
  - assert (∀ e, e ∈ weak_refs w → refers (ledger w) (λ k, is_Some (objects (ledger w) !! k) ∧
      ¬ reached (ledger w) (roots_of env me w) k) e ↔ ¬ live_entry env me w e) as Hent.
    { intros e He. destruct (wf_weak w Hwf e He) as (k & b & Hin & Ha). split.
      - intros (k1 & [_ Hk1] & Hx) (k2 & b2 & Hin2 & Hl & Ha2). apply Hk1, Hre.
        assert (within (ledger w) (we_target e) k2) as H2 by (apply within_ledger; [done|by exists b2]).
        by rewrite (lg_apart _ (ledger_is_ok w Hwf) _ _ _ Hx H2).
      - intros Hn. exists k. split; [|apply within_ledger; [done|by exists b]]. split.
        + by eapply object_present.
        + intros Hl%Hre. apply Hn. by exists k, b. }
    destruct (co_mem _ _ _ _ _ Hc) as (dead & Em & Hd). pose proof (co_wf _ _ _ _ _ Hc) as Hwf'.
    apply (dropped_ledger _ w w' dead); try done.
    + intros k b. rewrite (co_alloc _ _ _ _ _ Hc). simpl. split; intros [Hin Hl]; (split; [done|]).
      * intros [_ Hn]. apply Hn, Hre, Hl.
      * destruct (decide ((k, b) ∈ allocations w')) as [Hin'|Hn']; [by apply (co_alloc _ _ _ _ _ Hc) in Hin' as [_ ?]|].
        exfalso. apply Hl. split; [|intros Hk%Hre; by apply Hn', (co_alloc _ _ _ _ _ Hc)].
        by eapply object_present.
    + intros k b Hin. destruct (decide ((k, b) ∈ allocations w')) as [Hin'|Hn'].
      * right. intros [_ Hk]. apply Hk, Hre. by apply (co_alloc _ _ _ _ _ Hc) in Hin' as [_ ?].
      * left. split; [|intros Hk%Hre; by apply Hn', (co_alloc _ _ _ _ _ Hc)].
        by eapply object_present.
    + intros k [[[n c] (b & Hin & _)%objects_ledger] _]; [by exists b|done].
    + intros e. rewrite (co_weak _ _ _ _ _ Hc). split; intros [He Hl]; (split; [done|]).
      * intros Hx. by apply (Hent e He) in Hx.
      * destruct (decide (e ∈ weak_refs w')) as [He'|He']; [by apply (co_weak _ _ _ _ _ Hc) in He' as [_ ?]|].
        exfalso. apply Hl, (Hent e He). intros Hle. by apply He', (co_weak _ _ _ _ _ Hc).
    + symmetry. apply (sr_ranges _ _ (co_rest _ _ _ _ _ Hc)).
    + intros e [He Hn]%Hd. split; [done|by apply Hent].
    + intros e He Hx _. apply Hd. split; [done|by apply Hent].
  - simpl. by rewrite (co_stats _ _ _ _ _ Hc).
Qed.

Lemma weak_hits_within w k b e :
  heap_wf w → (k, b) ∈ allocations w → weak_hits k (br_payload_end b) e = true ↔ within (ledger w) (we_target e) k.
Proof.
  intros Hwf Hin. rewrite within_ledger by done. unfold weak_hits. rewrite andb_true_iff, Z.leb_le, Z.ltb_lt. split.
  - intros Ha. by exists b.
  - intros (b' & Hin' & Ha). by rewrite (wf_key_inj w Hwf k b b' Hin Hin').
Qed.

Lemma release_event w k b :
  heap_wf w → (k, b) ∈ allocations w → event (ledger w) (ledger (drop_block k b w)).
Proof.
  intros Hwf Hin. pose proof (drop_block_wf w Hwf k b Hin) as Hwf'. apply (ev_release k); [by eapply object_present| |done].
  assert (∀ e, refers (ledger w) (λ k', k' = k) e ↔ weak_hits k (br_payload_end b) e = true) as Hent.
  { intros e. rewrite (weak_hits_within w) by done. split; [by intros (? & -> & ?)|intros H; by exists k]. }
  apply (dropped_ledger _ w _ (filter (λ e, weak_hits k (br_payload_end b) e = true) (weak_refs w))); try done.
  - intros k' b'. change (allocations (drop_block k b w)) with (sm_erase k (allocations w)).
    by rewrite elem_of_sm_erase by apply (wf_sorted w Hwf).
  - intros k' b' _. destruct (decide (k' = k)); auto.
  - intros k' ->. by exists b.
  - intros e. simpl. rewrite list_elem_of_filter, Hent. destruct (weak_hits _ _ e); naive_solver.
  - intros e [Hh He]%list_elem_of_filter. by rewrite Hent.
  - intros e He Hh _. rewrite list_elem_of_filter. by rewrite Hent in Hh.
Qed.

Lemma shutdown_event w o :
  heap_wf w → ¬ under_construction w → event (ledger w) (ledger (shut_down w o)).
Proof.
  intros Hwf Hu. apply ev_shutdown; [|done| |done].
  - intros k n c (b & Hin & _ & <-)%objects_ledger; [|done]. destruct (br_constructing b) eqn:E; [|done].
    destruct Hu. by exists (k, b).
  - assert (∀ e, e ∈ weak_refs w → refers (ledger w) (λ k, is_Some (objects (ledger w) !! k)) e) as Hall.
    { intros e He. destruct (wf_weak w Hwf e He) as (k & b & Hin & Ha). exists k. split; [by eapply object_present|].
      apply within_ledger; [done|by exists b]. }
    apply (dropped_ledger _ w (shut_down w o) (filter (λ e, we_storage e ≠ 0) (weak_refs w))); try done.
    + apply shut_down_wf.
    + intros k b. split; [by intros ?%elem_of_nil|]. intros [Hin Hn]. destruct Hn. by eapply object_present.
    + intros k b Hin. left. by eapply object_present.
    + intros k [[n c] (b & Hin & _)%objects_ledger]; [by exists b|done].
    + intros e. split; [by intros ?%elem_of_nil|]. intros [He Hn]. by destruct Hn; apply Hall.
    + intros e [_ He]%list_elem_of_filter. split; [done|by apply Hall].
    + intros e He _ Hs. by apply list_elem_of_filter.
Qed.

Lemma publish_event w header h c o :
  heap_wf w → headers w !! header = Some h → heap_wf (published header h c (with_oom o w)) →
  block_ok w (payload_begin header h) (new_record header h c) → apart (allocations w) (new_record header h c) →
  event (ledger w) (ledger (published header h c (with_oom o w))).
Proof.
  intros Hwf Hh Hwf' Hok Hap. set (k := payload_begin header h) in *. set (w' := published header h c (with_oom o w)) in *.
  pose proof (apart_fresh w _ _ Hwf Hok Hap) as Hfr. pose proof (sm_emplace_perm _ (new_record header h c) _ Hfr) as Hperm.
  assert (∀ k' b', (k', b') ∈ allocations w' ↔ (k' = k ∧ b' = new_record header h c) ∨ (k', b') ∈ allocations w) as Hin.
  { intros k' b'. change (allocations w') with (sm_emplace k (new_record header h c) (allocations w)).
    rewrite Hperm, elem_of_cons. naive_solver. }
  assert (objects (ledger w') = <[k := (ch_size h, c)]> (objects (ledger w))) as Ho.
  { apply map_eq. intros k'. apply option_eq. intros [n c']. rewrite (objects_ledger w' Hwf'), lookup_insert_Some.
    setoid_rewrite Hin. split.
    - intros (b & [[-> ->]|Hb] & He & Hc); [left|right].
      + split; [done|]. simpl in *. f_equal; [fold k in He; lia|done].
      + split; [intros <-; by apply (proj1 (sm_find_None _ _) Hfr b)|]. apply objects_ledger; [done|by exists b].
    - intros [[<- [= <- <-]]|[_ (b & Hb & ? & ?)%objects_ledger]]; [|exists b; auto|done].
      exists (new_record header h c). split_and!; [by left|done|done]. }
  assert (ledger w' = with_tables (handles (ledger w)) (ranges (ledger w)) (memset0 (bytes (ledger w)) k (ch_size h))
    (with_object k (ch_size h) c (ledger w))) as ->.
  { unfold with_tables, with_object. unfold ledger at 1. f_equal. exact Ho. }
  destruct (new_reserved_size w header h c Hh Hok) as (_ & _ & Hpos & _).
  apply ev_allocate; [done|]. intros a Ha k' (b' & Hb' & Ha')%within_ledger; [|done].
  pose proof (wf_extent w Hwf k' b' Hb') as Hx. unfold sizeof_ChunkHeader in Hx.
  destruct (Hap k' b' Hb') as [Hlt|Hlt]; simpl in Hlt; fold k in Hlt; [lia|].
  destruct Hok as [_ _ _ (h' & Hh' & _ & Hk & _ & _ & Hoff & _)]. simpl in *. unfold payload_begin in *.
  unfold sizeof_ChunkHeader in *. lia.
Qed.

Lemma finish_event w k b :
  heap_wf w → (k, b) ∈ allocations w → event (ledger w) (ledger (finished w k)).
Proof.
  intros Hwf Hin. assert (heap_wf (finished w k)) as Hwf' by by apply finished_wf.
  assert (ledger (finished w k) = with_object k (br_payload_end b - k) false (ledger w)) as ->.
  2:{ eapply ev_finish. apply objects_ledger; [done|]. exists b. split_and!; [done|lia|done]. }
  unfold with_object, ledger at 1. f_equal. apply map_eq. intros k'.
  apply option_eq. intros [n c]. pose proof (objects_ledger _ Hwf' k' n c) as ->.
  rewrite lookup_insert_Some, objects_ledger by done.
  change (allocations (finished w k)) with (sm_alter (set_constructing false) k (allocations w)).
  pose proof (wf_sorted w Hwf) as Hs. setoid_rewrite <-(sm_find_iff _ _ _ (sm_wf_alter (set_constructing false) k _ Hs)).
  setoid_rewrite <-(sm_find_iff _ _ _ Hs). setoid_rewrite sm_find_alter. pose proof (sm_elem_find k b _ Hs Hin) as Hk.
  destruct (Z.eqb_spec k' k) as [->|Hne]; [rewrite Hk|]; split.
  - intros (b' & [= <-] & He & <-). left. split; [done|]. simpl in He. do 2 f_equal. lia.
  - intros [[_ [= <- <-]]|[[] _]]; [|done]. exists (set_constructing false b). simpl. split_and!; [done|lia|done].
  - intros (b' & ?). right. split; [done|by exists b'].
  - intros [[<- _]|[_ ?]]; done.
Qed.

(** One range more or less, or the same. *)
Definition range_change (l l' : list RootRange) : Prop := l' = l ∨ ∃ r, l' ≡ₚ r :: l ∨ l ≡ₚ r :: l'.

Lemma range_change_snoc r l : range_change l (l ++ [r]).
Proof. right. exists r. left. by rewrite Permutation_app_comm. Qed.

Lemma range_change_erase r l : range_change l (erase_first r l).
Proof.
  destruct (decide (r ∈ l)) as [Hin|Hn]; [right; exists r; right; symmetry; by apply erase_first_perm|left].
  induction l as [|x l IH]; [done|]. simpl. apply not_elem_of_cons in Hn as [Hne Hn].
  rewrite decide_False by congruence. f_equal. by apply IH.
Qed.

Lemma bookkeeping_range h es l l' m :
  range_change l l' →
  bookkeeping (with_tables es l m h)
    (with_tables es l' m h).
Proof.
  intros [->|(r & [Hr|Hr])]; [apply rtc_refl|apply rtc_once..].
  - by apply (cl_add_range r l' (with_tables es l m h)).
  - by apply (cl_remove_range r l' (with_tables es l m h)).
Qed.

(** The tables after a handle comes, goes, or changes. *)
Definition handle_change (h : Ledger) (l l' : list WeakRefEntry) : Prop :=
  (∃ e, (∃ k, within h (we_target e) k) ∧ l' ≡ₚ e :: l) ∨ (∃ e, l ≡ₚ e :: l') ∨
  ∃ e e' rest, (∃ k, within h (we_target e') k) ∧ l ≡ₚ e :: rest ∧ l' ≡ₚ e' :: rest.

Lemma bookkeeping_handles h l l' rs m :
  handle_change h l l' →
  bookkeeping (with_tables l rs m h)
    (with_tables l' rs m h).
Proof.
  set (h1 := with_tables l rs m h).
  assert (∀ a k, within h a k → within h1 a k) as Hin by by intros a k; apply within_same.
  intros [(e & [k Hk] & Hl)|[(e & Hl)|(e & e' & rest & [k Hk] & Hl & Hl')]].
  - apply rtc_once. apply (cl_track e l' h1); [exists k; by apply Hin|done].
  - apply rtc_once. by apply (cl_forget e l' h1).
  - eapply rtc_l; [by apply (cl_forget e rest h1)|]. apply rtc_once.
    apply (cl_track e' l' (with_tables rest rs m h)); [|done].
    exists k. by apply (within_same h).
Qed.
End Changes.
