(* ===== verification/Handles.v ===== *)
(** * Handles

    [gc_ptr] (src/include/gc/gc_ptr.hpp), a plain pointer, and [gc_weak_ptr]
    (src/include/gc/gc_weak_ptr.hpp), whose single word [encoded_ptr_] lives in
    memory at the address of the handle.  The specialisations for arrays are in
    ArrayHandles. *)

From S2P Require Import Prelude Words Memory OrdMap Chunk Manager Heap Scanner Mark.
From S2P Require Import Finalize WeakRefs Sweep Threads Collect CollectSpec Roots.

(** ** [gc_ptr] *)

Record gc_ptr := { ptr_ : Z }.

#[global] Instance gc_ptr_eq_dec : EqDecision gc_ptr.
Proof. solve_decision. Defined.

Definition gc_ptr_null : gc_ptr := {| ptr_ := 0 |}.
Definition gc_ptr_get (p : gc_ptr) : Z := ptr_ p.
Definition gc_ptr_bool (p : gc_ptr) : bool := negb (ptr_ p =? 0).
Definition gc_ptr_assign_null (p : gc_ptr) : gc_ptr := gc_ptr_null.

(** Handles of other types: [convert] is what the conversion from [U*] to [T*],
    or the cast, does to the address. *)
Definition gc_ptr_convert (convert : Z → Z) (other : gc_ptr) : gc_ptr := {| ptr_ := convert (gc_ptr_get other) |}.
Definition gc_ptr_convert_assign (convert : Z → Z) (p other : gc_ptr) : gc_ptr :=
  {| ptr_ := convert (gc_ptr_get other) |}.
Definition static_gc_ptr_cast (cast : Z → Z) (p : gc_ptr) : gc_ptr := {| ptr_ := cast (gc_ptr_get p) |}.
Definition dynamic_gc_ptr_cast (cast : Z → Z) (p : gc_ptr) : gc_ptr := {| ptr_ := cast (gc_ptr_get p) |}.
Definition const_gc_ptr_cast (p : gc_ptr) : gc_ptr := {| ptr_ := gc_ptr_get p |}.

Definition gc_ptr_hash (hash : Z → Z) (p : gc_ptr) : Z := hash (gc_ptr_get p).
Definition gc_ptr_eq_null (lhs : gc_ptr) : bool := gc_ptr_get lhs =? 0.
Definition gc_ptr_eqb (lhs rhs : gc_ptr) : bool := gc_ptr_get lhs =? gc_ptr_get rhs.
Definition gc_ptr_ltb (lhs rhs : gc_ptr) : bool := gc_ptr_get lhs <? gc_ptr_get rhs.
Definition gc_ptr_reset (p : gc_ptr) (ptr : Z) : gc_ptr := {| ptr_ := ptr |}.

(** The two handles after [swap(lhs, rhs)]. *)
Definition gc_ptr_swap (lhs rhs : gc_ptr) : gc_ptr * gc_ptr :=
  let tmp := gc_ptr_get lhs in
  let lhs := gc_ptr_reset lhs (gc_ptr_get rhs) in
  let rhs := gc_ptr_reset rhs tmp in (lhs, rhs).

(** ** [gc_weak_ptr] *)

Section Weak.
Context {ASAN : AsanRuntime} (me : thread_id) (env : ParkEnv).

(** [explicit gc_weak_ptr(const gc_ptr<T>& p)] *)
Definition gc_weak_ptr_new (self : Z) (p : gc_ptr) : proc unit :=
  atomic (write_word self (encode_weak_ptr (gc_ptr_get p)));;
  encoded ← atomic (read_word self);
  if (encoded : Z) =? 0 then mret tt
  else locked me env (register_weak_ref (gc_ptr_get p) self).

Definition gc_weak_ptr_destroy (self : Z) : proc unit :=
  encoded ← atomic (read_word self);
  if (encoded : Z) =? 0 then mret tt
  else noexcept (locked me env (unregister_weak_ref self)).

(** The copy constructor; the member starts out zero. *)
Definition gc_weak_ptr_copy (self other : Z) : proc unit :=
  atomic (write_word self 0);; locked me env (copy_weak_ref other self).

(** The part the move constructor and the move assignment share. *)
Definition gc_weak_ptr_take (self other : Z) : proc unit :=
  encoded ← atomic (read_word other);
  atomic (write_word self encoded);;
  encoded ← atomic (read_word self);
  if (encoded : Z) =? 0 then mret tt
  else locked me env (update_weak_ref other self);; atomic (write_word other 0).

Definition gc_weak_ptr_move (self other : Z) : proc unit := noexcept (gc_weak_ptr_take self other).

Definition gc_weak_ptr_reset (self : Z) : proc unit :=
  noexcept (
    encoded ← atomic (read_word self);
    if (encoded : Z) =? 0 then mret tt
    else locked me env (unregister_weak_ref self);; atomic (write_word self 0)).

Definition gc_weak_ptr_move_assign (self other : Z) : proc unit :=
  noexcept (
    if self =? other then mret tt
    else gc_weak_ptr_reset self;; gc_weak_ptr_take self other).

(** The assignments build a temporary at [replacement] and move it in. *)
Definition gc_weak_ptr_copy_assign (self other replacement : Z) : proc unit :=
  if self =? other then mret tt
  else
    gc_weak_ptr_copy replacement other;;
    gc_weak_ptr_move_assign self replacement;;
    gc_weak_ptr_destroy replacement.

Definition gc_weak_ptr_assign (self : Z) (p : gc_ptr) (replacement : Z) : proc unit :=
  gc_weak_ptr_new replacement p;;
  gc_weak_ptr_move_assign self replacement;;
  gc_weak_ptr_destroy replacement.

Definition gc_weak_ptr_lock (self : Z) : proc gc_ptr :=
  target ← noexcept (locked me env (read_weak_ref self));
  mret (if (target : Z) =? 0 then gc_ptr_null else {| ptr_ := target |}).

Definition gc_weak_ptr_expired (self : Z) : proc bool :=
  target ← noexcept (locked me env (read_weak_ref self));
  mret ((target : Z) =? 0).
End Weak.

(** ** What a handle says about the table *)

(** The handle at [self] observes [t]: one entry owns its word; or it is empty:
    its word is zero and overlaps no entry. *)
Definition observes (w : World) (self t : Z) : Prop :=
  {| we_target := t; we_storage := self |} ∈ weak_refs w.

Definition expired_handle (w : World) (self : Z) : Prop :=
  load_word (mem w) self = 0 ∧ fresh_word w self.

(** Targets of entries are addresses of blocks, so their encoding is not zero. *)
Lemma entry_word w e :
  heap_wf w → weak_ok w → e ∈ weak_refs w →
  is_size (we_target e) ∧ 0 < we_target e ∧ load_word (mem w) (we_storage e) ≠ 0.
Proof.
  intros Hwf Hok Hin. destruct (wf_weak w Hwf e Hin) as (k & b & Hb & Ht).
  pose proof (wf_extent w Hwf k b Hb). unfold sizeof_ChunkHeader, word_size in *.
  assert (is_size (we_target e)) as Hs by (unfold is_size; lia).
  split_and!; [done|lia|]. rewrite (wo_word w Hok e Hin), (encode_zero _ Hs). lia.
Qed.

Section WeakAlone.
Context {ASAN : AsanRuntime} (me : thread_id) (env : ParkEnv) (w : World).
Context (Hwf : heap_wf w) (Hok : weak_ok w) (Hrun : may_run me w = true).

Lemma write_word_table self v : write_word self v w = Ret tt (with_table (weak_refs w) (store_word (mem w) self v) w).
Proof. by destruct w as [[]]. Qed.

Lemma lock_observes self t :
  observes w self t → exec (gc_weak_ptr_lock me env self) w = Ret {| ptr_ := t |} w.
Proof.
  intros Ho. unfold gc_weak_ptr_lock. rewrite exec_bind, (exec_noexcept _ _ t w).
  - destruct (entry_word w _ Hwf Hok Ho) as (_ & Hpos & _). simpl in *.
    by destruct (Z.eqb_spec t 0); [lia|].
  - rewrite exec_locked by done. apply (read_weak_ref_entry w {| we_target := t; we_storage := self |} Hok Ho).
Qed.

Lemma lock_expired self :
  fresh_word w self → exec (gc_weak_ptr_lock me env self) w = Ret gc_ptr_null w.
Proof.
  intros Hf. unfold gc_weak_ptr_lock. rewrite exec_bind, (exec_noexcept _ _ 0 w); [done|].
  rewrite exec_locked by done. apply read_weak_ref_absent.
  intros e He Heq. destruct (Hf e He); unfold word_size in *; lia.
Qed.

(** Construction from a pointer into a live block. *)
Lemma weak_new_live self p k b :
  self ≠ 0 → fresh_word w self → oom w = [] → (k, b) ∈ allocations w → k <= p < br_payload_end b →
  let w' := with_table (weak_refs w ++ [{| we_target := p; we_storage := self |}])
              (store_word (mem w) self (encode_weak_ptr p)) w in
  exec (gc_weak_ptr_new me env self {| ptr_ := p |}) w = Ret tt w' ∧
  table_ok w' ∧ observes w' self p.
Proof.
  intros Hs Hf Ho Hin Hp w'. set (w1 := with_table (weak_refs w) (store_word (mem w) self (encode_weak_ptr p)) w).
  assert (Hwf1 : heap_wf w1) by (apply heap_wf_weak; [done|apply (wf_weak _ Hwf)]).
  assert (Hok1 : weak_ok w1) by by apply weak_ok_write.
  assert (Hpt : points_into (allocations w1) p) by by exists k, b.
  assert (Hl : load_word (mem w1) self = encode_weak_ptr p) by apply load_store_word_eq, encode_size.
  pose proof (wf_extent w Hwf k b Hin). unfold sizeof_ChunkHeader, word_size in *.
  assert (encode_weak_ptr p ≠ 0) as He by (rewrite encode_zero; [|unfold is_size]; lia).
  split_and!.
  - unfold gc_weak_ptr_new. change (gc_ptr_get {| ptr_ := p |}) with p.
    rewrite exec_bind, exec_atomic, write_word_table. fold w1.
    assert (read_word self w1 = Ret (encode_weak_ptr p) w1) as Er by (unfold read_word, gets; by rewrite Hl).
    rewrite exec_bind, exec_atomic, Er.
    destruct (Z.eqb_spec (encode_weak_ptr p) 0); [done|].
    rewrite exec_locked by done. by apply (register_weak_ref_live w1 Hwf1).
  - by apply (registered_ok w1 Hwf1 Hok1).
  - apply elem_of_app. right. apply list_elem_of_singleton. done.
Qed.

(** A copy observes the same target; the original still does. *)
Definition copied (self t : Z) : World :=
  with_table (weak_refs w ++ [{| we_target := t; we_storage := self |}])
    (store_word (store_word (mem w) self 0) self (encode_weak_ptr t)) w.

Lemma weak_copy_observes self other t :
  observes w other t → fresh_word w self → oom w = [] →
  exec (gc_weak_ptr_copy me env self other) w = Ret tt (copied self t) ∧ table_ok (copied self t) ∧
  observes (copied self t) self t ∧ observes (copied self t) other t.
Proof.
  intros Ho Hf Hoom. set (w1 := with_table (weak_refs w) (store_word (mem w) self 0) w).
  assert (Hwf1 : heap_wf w1) by (apply heap_wf_weak; [done|apply (wf_weak _ Hwf)]).
  assert (Hok1 : weak_ok w1) by by apply weak_ok_write.
  pose proof (copy_weak_ref_entry w1 Hwf1 Hok1 _ self Ho Hf Hoom) as E. split_and!.
  - unfold gc_weak_ptr_copy. rewrite exec_bind, exec_atomic, write_word_table. fold w1.
    rewrite exec_locked by done. exact E.
  - by apply (copied_ok w1 Hwf1 Hok1 _ self Ho).
  - apply elem_of_app. right. by apply list_elem_of_singleton.
  - apply elem_of_app. by left.
Qed.

(** A move hands the observation over and empties the source. *)
Lemma weak_take_observes self other t :
  observes w other t → fresh_word w self →
  ∃ w', exec (gc_weak_ptr_take me env self other) w = Ret tt w' ∧ table_ok w' ∧
    observes w' self t ∧ expired_handle w' other ∧ may_run me w' = true ∧
    ∃ l, {| we_target := t; we_storage := other |} :: l ≡ₚ weak_refs w ∧
      weak_refs w' ≡ₚ {| we_target := t; we_storage := self |} :: l.
Proof.
  intros Ho Hf. set (e := {| we_target := t; we_storage := other |}).
  destruct (entry_word w e Hwf Hok Ho) as (Ht & Hpos & Hne). simpl in Ht, Hpos, Hne.
  pose proof (wo_word w Hok e Ho) as Hw. simpl in Hw.
  assert (encode_weak_ptr t ≠ 0) as He by congruence.
  set (w1 := with_table (weak_refs w) (store_word (mem w) self (encode_weak_ptr t)) w).
  assert (Hwf1 : heap_wf w1) by (apply heap_wf_weak; [done|apply (wf_weak _ Hwf)]).
  assert (Hok1 : weak_ok w1) by by apply weak_ok_write.
  assert (Er0 : read_word other w = Ret (encode_weak_ptr t) w) by (unfold read_word, gets; by rewrite Hw).
  assert (Er1 : read_word self w1 = Ret (encode_weak_ptr t) w1).
  { unfold read_word, gets. simpl. by rewrite load_store_word_eq by apply encode_size. }
  destruct (update_weak_ref_entry w1 Hok1 e self Ho) as (l & Eu & l0 & Hp & Hl).
  destruct (updated_ok w1 Hwf1 Hok1 e self l l0 Ho Hf Hp Hl) as [Hwf2 Hok2].
  set (w2 := with_table l _ w1) in Eu, Hwf2, Hok2.
  assert (Hfo : fresh_word w2 other).
  { intros x. simpl. rewrite Hl. intros [->|Hx]%elem_of_cons; simpl.
    - destruct (Hf e Ho); simpl in *; [by right|by left].
    - assert (x ∈ weak_refs w) as Hxw by (change (weak_refs w) with (weak_refs w1); rewrite <-Hp; by right).
      destruct (wo_apart w Hok x e Hxw Ho) as [Heq|?]; [|done].
      pose proof (wo_nodup w1 Hok1) as Hnd. rewrite <-Hp in Hnd. csimpl in Hnd.
      apply NoDup_cons in Hnd as [Hnd _]. exfalso. apply Hnd.
      change other with (we_storage e). rewrite <-Heq. by apply list_elem_of_fmap_2. }
  exists (with_table (weak_refs w2) (store_word (mem w2) other 0) w2). split_and!.
  - unfold gc_weak_ptr_take. rewrite exec_bind, exec_atomic, Er0.
    rewrite exec_bind, exec_atomic, write_word_table. fold w1.
    rewrite exec_bind, exec_atomic, Er1. destruct (Z.eqb_spec (encode_weak_ptr t) 0); [done|].
    rewrite exec_bind, exec_locked by done. change (we_storage e) with other in Eu.
    rewrite Eu. by rewrite exec_atomic.
  - split; [apply heap_wf_weak; [done|apply (wf_weak _ Hwf2)]|by apply weak_ok_write].
  - unfold observes. simpl. rewrite Hl. by left.
  - split; [|exact Hfo]. simpl. apply load_store_word_eq. unfold is_size, SIZE_MAX. lia.
  - done.
  - by exists l0.
Qed.

(** Destruction and reset drop the entry. *)
Lemma weak_destroy_observes self t :
  observes w self t →
  ∃ l, exec (gc_weak_ptr_destroy me env self) w = Ret tt (with_table l (mem w) w) ∧
    {| we_target := t; we_storage := self |} :: l ≡ₚ weak_refs w ∧ table_ok (with_table l (mem w) w).
Proof.
  intros Ho. set (e := {| we_target := t; we_storage := self |}).
  destruct (entry_word w e Hwf Hok Ho) as (_ & _ & Hne). simpl in Hne.
  destruct (unregister_weak_ref_entry w Hwf Hok e Ho) as (l & E & Hp).
  exists l. split_and!; [|done|by apply (unregistered_ok w Hwf Hok e)].
  unfold gc_weak_ptr_destroy. rewrite exec_bind, exec_atomic. unfold read_word, gets.
  destruct (Z.eqb_spec (load_word (mem w) self) 0); [done|].
  apply exec_noexcept. by rewrite exec_locked.
Qed.

(** An entry off the table leaves its word to nobody. *)
Lemma gone_fresh e l m : e :: l ≡ₚ weak_refs w → fresh_word (with_table l m w) (we_storage e).
Proof.
  intros Hp x Hx. simpl in Hx. pose proof (wo_nodup w Hok) as Hnd. rewrite <-Hp in Hnd. csimpl in Hnd.
  apply NoDup_cons in Hnd as [Hnd _].
  assert (x ∈ weak_refs w ∧ e ∈ weak_refs w) as [Hxw He] by (rewrite <-Hp; split; [by right|by left]).
  destruct (wo_apart w Hok x e Hxw He) as [Heq|[?|?]]; [|by left|by right].
  exfalso. apply Hnd. rewrite <-Heq. by apply list_elem_of_fmap_2.
Qed.

Lemma weak_reset_observes self t :
  observes w self t →
  ∃ w', exec (gc_weak_ptr_reset me env self) w = Ret tt w' ∧ table_ok w' ∧ expired_handle w' self ∧
    may_run me w' = true ∧ {| we_target := t; we_storage := self |} :: weak_refs w' ≡ₚ weak_refs w.
Proof.
  intros Ho. set (e := {| we_target := t; we_storage := self |}).
  destruct (entry_word w e Hwf Hok Ho) as (_ & _ & Hne). simpl in Hne.
  destruct (unregister_weak_ref_entry w Hwf Hok e Ho) as (l & E & Hp).
  destruct (unregistered_ok w Hwf Hok e l Hp) as [Hwf1 Hok1]. set (w1 := with_table l (mem w) w) in *.
  pose proof (gone_fresh e l (mem w) Hp) as Hf. fold w1 in Hf. simpl in Hf.
  exists (with_table l (store_word (mem w) self 0) w). split_and!; [| |split|done|done].
  - unfold gc_weak_ptr_reset. apply exec_noexcept. rewrite exec_bind, exec_atomic. unfold read_word, gets.
    destruct (Z.eqb_spec (load_word (mem w) self) 0); [done|].
    rewrite exec_bind, exec_locked by done. change (we_storage e) with self in E. by rewrite E, exec_atomic.
  - split; [apply (heap_wf_weak w1); [done|apply (wf_weak _ Hwf1)]|by apply (weak_ok_write w1)].
  - simpl. apply load_store_word_eq. unfold is_size, SIZE_MAX. lia.
  - exact Hf.
Qed.

Lemma weak_reset_expired self :
  expired_handle w self → exec (gc_weak_ptr_reset me env self) w = Ret tt w.
Proof.
  intros [Hz _]. unfold gc_weak_ptr_reset. apply exec_noexcept. rewrite exec_bind, exec_atomic.
  unfold read_word, gets. by rewrite Hz.
Qed.

Lemma weak_destroy_expired self :
  expired_handle w self → exec (gc_weak_ptr_destroy me env self) w = Ret tt w.
Proof.
  intros [Hz _]. unfold gc_weak_ptr_destroy. rewrite exec_bind, exec_atomic.
  unfold read_word, gets. by rewrite Hz.
Qed.
End WeakAlone.

(** ** Assignment *)

(** A handle is expired or observes something. *)
Definition handle (w : World) (self : Z) : Prop := expired_handle w self ∨ ∃ s, observes w self s.

Lemma weak_move_assign_observes {ASAN : AsanRuntime} me env w self other t :
  heap_wf w → weak_ok w → may_run me w = true → self ≠ other → handle w self → observes w other t →
  ∃ w', exec (gc_weak_ptr_move_assign me env self other) w = Ret tt w' ∧ table_ok w' ∧
    observes w' self t ∧ expired_handle w' other ∧ may_run me w' = true ∧
    ∀ s u, observes w s u → s ≠ self → s ≠ other → observes w' s u.
Proof.
  intros Hwf Hok Hrun Hne Hself Ho.
  assert (∃ w1, exec (gc_weak_ptr_reset me env self) w = Ret tt w1 ∧ table_ok w1 ∧ expired_handle w1 self ∧
    may_run me w1 = true ∧ ∀ s u, observes w s u → s ≠ self → observes w1 s u)
    as (w1 & E1 & [Hwf1 Hok1] & Hex & Hrun1 & Hkeep).
  { destruct Hself as [Hz|[s Hs]].
    - exists w. split_and!; try done. by apply weak_reset_expired.
    - destruct (weak_reset_observes me env w Hwf Hok Hrun self s Hs) as (w1 & E1 & Ht & Hex & Hr & Hp).
      exists w1. split_and!; try done. intros s' u Ho' Hn. unfold observes in *. rewrite <-Hp in Ho'.
      by apply elem_of_cons in Ho' as [[= ? ?]|]. }
  destruct (weak_take_observes me env w1 Hwf1 Hok1 Hrun1 self other t (Hkeep other t Ho (not_eq_sym Hne)) (proj2 Hex))
    as (w2 & E2 & Ht2 & Hs2 & Hex2 & Hrun2 & l & Hp1 & Hp2).
  exists w2. split_and!; try done.
  - unfold gc_weak_ptr_move_assign. apply exec_noexcept. destruct (Z.eqb_spec self other); [done|].
    by rewrite exec_bind, E1.
  - intros s u Hsu Hn Hn'. pose proof (Hkeep s u Hsu Hn) as H. unfold observes in *. rewrite Hp2. rewrite <-Hp1 in H.
    apply elem_of_cons in H as [[= ? ?]|]; [done|by right].
Qed.

Lemma weak_copy_assign_observes {ASAN : AsanRuntime} me env w self other t tmp :
  heap_wf w → weak_ok w → may_run me w = true → oom w = [] → self ≠ other → handle w self → observes w other t →
  fresh_word w tmp → self + word_size <= tmp ∨ tmp + word_size <= self →
  ∃ w', exec (gc_weak_ptr_copy_assign me env self other tmp) w = Ret tt w' ∧ table_ok w' ∧
    observes w' self t ∧ observes w' other t ∧ may_run me w' = true.
Proof.
  intros Hwf Hok Hrun Hoom Hne Hself Ho Hf Hap.
  destruct (weak_copy_observes me env w Hwf Hok Hrun tmp other t Ho Hf Hoom) as (E1 & [Hwf1 Hok1] & Htmp & Hoth).
  set (w1 := copied w tmp t) in *.
  assert (handle w1 self) as Hself1.
  { destruct Hself as [[Hz Hfr]|[s Hs]]; [left; split|right; exists s; apply elem_of_app; by left].
    - simpl. by rewrite !load_store_word_disjoint by (unfold word_size in *; lia).
    - intros e [He| ->%list_elem_of_singleton]%elem_of_app; [by apply Hfr|simpl; unfold word_size in *; lia]. }
  assert (tmp ≠ other) as Hto by (intros ->; destruct (Hf _ Ho); simpl in *; unfold word_size in *; lia).
  destruct (weak_move_assign_observes me env w1 self tmp t) as (w2 & E2 & Ht2 & Hs2 & Hex2 & Hrun2 & Hkeep);
    [done..|unfold word_size in *; lia|done|done|].
  exists w2. split_and!; try done.
  - unfold gc_weak_ptr_copy_assign. destruct (Z.eqb_spec self other); [done|].
    rewrite exec_bind, E1, exec_bind, E2. by apply weak_destroy_expired.
  - apply Hkeep; [done|congruence|congruence].
Qed.

Lemma weak_assign_observes {ASAN : AsanRuntime} me env w self p k b tmp :
  heap_wf w → weak_ok w → may_run me w = true → oom w = [] → handle w self →
  tmp ≠ 0 → fresh_word w tmp → self + word_size <= tmp ∨ tmp + word_size <= self →
  (k, b) ∈ allocations w → k <= p < br_payload_end b →
  ∃ w', exec (gc_weak_ptr_assign me env self {| ptr_ := p |} tmp) w = Ret tt w' ∧ table_ok w' ∧
    observes w' self p ∧ may_run me w' = true.
Proof.
  intros Hwf Hok Hrun Hoom Hself Htmp0 Hf Hap Hin Hp.
  destruct (weak_new_live me env w Hwf Hok Hrun tmp p k b Htmp0 Hf Hoom Hin Hp) as (E1 & [Hwf1 Hok1] & Htmp).
  match type of E1 with _ = Ret _ ?x => set (w1 := x) in * end.
  assert (handle w1 self) as Hself1.
  { destruct Hself as [[Hz Hfr]|[s Hs]]; [left; split|right; exists s; apply elem_of_app; by left].
    - simpl. by rewrite !load_store_word_disjoint by (unfold word_size in *; lia).
    - intros e [He| ->%list_elem_of_singleton]%elem_of_app; [by apply Hfr|simpl; unfold word_size in *; lia]. }
  destruct (weak_move_assign_observes me env w1 self tmp p) as (w2 & E2 & Ht2 & Hs2 & Hex2 & Hrun2 & _);
    [done..|unfold word_size in *; lia|done|done|].
  exists w2. split_and!; try done. unfold gc_weak_ptr_assign. rewrite exec_bind, E1, exec_bind, E2.
  by apply weak_destroy_expired.
Qed.

(** ** Handles across a collection *)

(** The handle of a block that survives still observes it. *)
Lemma observes_live {ASAN : AsanRuntime} env me w w' hs self t :
  collected env me w w' hs → observes w self t →
  live_entry env me w {| we_target := t; we_storage := self |} → observes w' self t.
Proof. intros Hc Ho Hl. by apply (co_weak _ _ _ _ _ Hc). Qed.

(** The handle of a block that dies is emptied. *)
Lemma observes_dead {ASAN : AsanRuntime} env me w w' hs self t :
  weak_ok w → collected env me w w' hs → observes w self t →
  ¬ live_entry env me w {| we_target := t; we_storage := self |} → expired_handle w' self.
Proof.
  intros Hok Hc Ho Hl. destruct (co_mem _ _ _ _ _ Hc) as (dead & Hm & Hd). split.
  - rewrite Hm. apply (clear_words_dead w dead {| we_target := t; we_storage := self |}); [done| |].
    + by intros e' [? _]%Hd.
    + by apply Hd.
  - intros e [Hin Hle]%(co_weak _ _ _ _ _ Hc).
    destruct (wo_apart w Hok e _ Hin Ho) as [Heq|[?|?]]; [|by left|by right].
    exfalso. apply Hl. by rewrite <-(weak_unique w e _ Hok Hin Ho Heq).
Qed.
