(* ===== verification/GcNew.v ===== *)
(** * Allocation of objects and arrays

    [gc_new], [gc_new_array], [gc_generate_array], their [nothrow] variants and
    [detail::construct_array] / [detail::ArrayDestructor] of
    src/include/gc/gc_new.hpp.  Constructors and destructors of the element
    type are user code: processes that get the address of the object. *)

From S2P Require Import Prelude Words Memory OrdMap Chunk Manager Heap Scanner Mark.
From S2P Require Import Finalize WeakRefs Sweep Threads Collect CollectSpec Roots Alloc Handles.

Section GcNew.
Context {ASAN : AsanRuntime} {ALLOC : Allocator}.
Context (dtor : DestructorFn → Z → proc unit) (me : thread_id) (env : CollectEnv).

(** [T(args...)] at the given address. *)
Definition gc_new (sizeof_T alignof_T : Z) (destroy_object : DestructorFn)
    (ctor : Z → proc unit) : proc gc_ptr :=
  collect_if_needed dtor me env sizeof_T;;
  payload ← malloc_internal dtor me env sizeof_T alignof_T destroy_object true;
  bind_result (ctor payload) (λ r,
    match r with
    | Raise e => release_unconstructed me env payload;; raise e
    | Ok _ => finish_construction me env payload;; mret {| ptr_ := payload |}
    end).

(** [try { return p; } catch (...) { return null; }] *)
Definition nothrow (p : proc gc_ptr) : proc gc_ptr :=
  bind_result p (λ r, match r with Ok q => mret q | Raise _ => mret gc_ptr_null end).

Definition gc_new_nothrow sizeof_T alignof_T destroy_object ctor : proc gc_ptr :=
  nothrow (gc_new sizeof_T alignof_T destroy_object ctor).

(** ** Arrays *)

Section Array.
Context (sizeof_T alignof_T : Z).

Definition array_elements_begin (payload : Z) : Z := payload + detail.array_elements_offset alignof_T.

Definition element (payload : Z) (i : nat) : Z :=
  array_elements_begin payload + Z.of_nat i * sizeof_T.

(** Elements [n - 1] down to [0]. *)
Fixpoint destroy_elements (elem_dtor : Z → proc unit) (payload : Z) (n : nat) : proc unit :=
  match n with
  | O => mret tt
  | S i => elem_dtor (element payload i);; destroy_elements elem_dtor payload i
  end.

Definition ArrayDestructor_destroy (elem_dtor : Z → proc unit) (payload : Z) : proc unit :=
  count ← atomic (read_word payload);
  noexcept (destroy_elements elem_dtor payload (Z.to_nat count)).

(** The loop of [construct_array] over the [n] elements from [constructed] on. *)
Fixpoint construct_elements (construct : Z → nat → proc unit) (payload : Z)
    (n constructed : nat) : proc unit :=
  match n with
  | O => mret tt
  | S n' =>
      construct (element payload constructed) constructed;;
      atomic (write_word payload (Z.of_nat constructed + 1));;
      construct_elements construct payload n' (S constructed)
  end.

(** From the allocation of the payload on. *)
Definition construct_payload (count payload : Z) (construct : Z → nat → proc unit)
    (elem_dtor : Z → proc unit) : proc gc_ptr :=
  atomic (write_word payload 0);;
  bind_result (construct_elements construct payload (Z.to_nat count) 0) (λ r,
    match r with
    | Raise e =>
        ArrayDestructor_destroy elem_dtor payload;; release_unconstructed me env payload;; raise e
    | Ok _ =>
        finish_construction me env payload;; mret {| ptr_ := array_elements_begin payload |}
    end).

Definition construct_array (count : Z) (array_destroy : DestructorFn)
    (construct : Z → nat → proc unit) (elem_dtor : Z → proc unit) : proc gc_ptr :=
  if count =? 0 then mret gc_ptr_null
  else
    let prefix_size := detail.array_elements_offset alignof_T in
    if detail.multiply_would_overflow sizeof_T count
       || detail.add_would_overflow prefix_size (wrap64 (sizeof_T * count))
    then raise bad_alloc
    else
      let payload_size := wrap64 (prefix_size + wrap64 (sizeof_T * count)) in
      let alignment := if 8 <=? alignof_T then alignof_T else 8 in
      collect_if_needed dtor me env payload_size;;
      payload ← malloc_internal dtor me env payload_size alignment array_destroy true;
      construct_payload count payload construct elem_dtor.

(** Value initialisation, copies of an initial value, and a generator. *)
Definition gc_new_array count d (ctor : Z → proc unit) (elem_dtor : Z → proc unit) : proc gc_ptr :=
  construct_array count d (λ element _, ctor element) elem_dtor.

Definition gc_new_array_copies count d (copy_ctor : Z → proc unit) (elem_dtor : Z → proc unit) : proc gc_ptr :=
  construct_array count d (λ element _, copy_ctor element) elem_dtor.

Definition gc_generate_array count d (generate : nat → Z → proc unit) (elem_dtor : Z → proc unit) : proc gc_ptr :=
  construct_array count d (λ element index, generate index element) elem_dtor.

Definition gc_new_array_nothrow count d ctor elem_dtor : proc gc_ptr :=
  nothrow (gc_new_array count d ctor elem_dtor).

Definition gc_new_array_copies_nothrow count d copy_ctor elem_dtor : proc gc_ptr :=
  nothrow (gc_new_array_copies count d copy_ctor elem_dtor).

Definition gc_generate_array_nothrow count d generate elem_dtor : proc gc_ptr :=
  nothrow (gc_generate_array count d generate elem_dtor).
End Array.
End GcNew.

(** ** Arrays: sizes *)

(** On success the payload holds the prefix, the padding and the elements, and
    element zero is aligned whenever the payload is. *)
Lemma array_size_ok sizeof_T k count :
  0 <= k <= 62 → is_size sizeof_T → is_size count →
  let off := detail.array_elements_offset (2 ^ k) in
  (detail.multiply_would_overflow sizeof_T count
   || detail.add_would_overflow off (wrap64 (sizeof_T * count))) = false →
  wrap64 (off + wrap64 (sizeof_T * count)) = off + sizeof_T * count ∧
  off + sizeof_T * count <= SIZE_MAX.
Proof.
  intros Hk Hs Hc off [Hm Ha]%orb_false_iff.
  assert (sizeof_T * count <= SIZE_MAX) as Hle.
  { destruct (Z.le_gt_cases (sizeof_T * count) SIZE_MAX) as [|Hgt]; [done|].
    apply (multiply_would_overflow_spec _ _ Hs Hc) in Hgt. congruence. }
  assert (0 <= sizeof_T * count) by (unfold is_size in *; nia).
  rewrite (wrap64_size (sizeof_T * count)) in * by (unfold is_size; lia).
  unfold detail.add_would_overflow in Ha. apply Z.ltb_ge in Ha.
  pose proof (array_elements_offset_spec k Hk) as [_ Hoff]. fold off in Hoff.
  rewrite wrap64_size by (unfold is_size; lia). split; [done|lia].
Qed.

(** ** Objects *)

Section NewAlone.
Context {ASAN : AsanRuntime} {ALLOC : Allocator}.
Context (dtor : DestructorFn → Z → proc unit) (me : thread_id) (env : CollectEnv).
Context (sizeof_T alignof_T : Z) (d : DestructorFn) (ctor : Z → proc unit).

(** After the storage has been found, the constructor decides. *)
Lemma gc_new_cont w w1 w2 payload :
  exec (collect_if_needed dtor me env sizeof_T) w = Ret tt w1 →
  exec (malloc_internal dtor me env sizeof_T alignof_T d true) w1 = Ret payload w2 →
  exec (gc_new dtor me env sizeof_T alignof_T d ctor) w =
  match exec (ctor payload) w2 with
  | Ret _ w3 =>
      match exec (finish_construction me env payload) w3 with
      | Ret _ w4 => Ret {| ptr_ := payload |} w4
      | Throw e w4 => Throw e w4
      | Stuck why => Stuck why
      end
  | Throw e w3 =>
      match exec (release_unconstructed me env payload) w3 with
      | Ret _ w4 => Throw e w4
      | Throw e' w4 => Throw e' w4
      | Stuck why => Stuck why
      end
  | Stuck why => Stuck why
  end.
Proof.
  intros E1 E2. unfold gc_new. rewrite exec_bind, E1, exec_bind, E2, exec_bind_result.
  destruct (exec (ctor payload) w2); [| |done]; rewrite exec_bind; by destruct (exec _ s).
Qed.

Lemma nothrow_spec p w :
  exec (nothrow p) w =
  match exec p w with
  | Ret q w' => Ret q w'
  | Throw _ w' => Ret gc_ptr_null w'
  | Stuck why => Stuck why
  end.
Proof. unfold nothrow. rewrite exec_bind_result. by destruct (exec p w). Qed.
End NewAlone.

(** ** Array construction and destruction *)

Section ArrayAlone.
Context {ASAN : AsanRuntime} (me : thread_id) (env : CollectEnv).
Context (sizeof_T alignof_T : Z) (payload : Z).

(** The elements in the order the destructor visits them: last to first. *)
Definition elements_down (n : nat) : list Z :=
  element sizeof_T alignof_T payload <$> reverse (seq 0 n).

Fixpoint run_all (f : Z → proc unit) (l : list Z) : proc unit :=
  match l with
  | [] => mret tt
  | a :: l' => f a;; run_all f l'
  end.

Lemma destroy_elements_down elem_dtor n w :
  exec (destroy_elements sizeof_T alignof_T elem_dtor payload n) w =
  exec (run_all elem_dtor (elements_down n)) w.
Proof.
  revert w. unfold elements_down. induction n as [|n IH]; intros w; [done|].
  rewrite seq_S, reverse_app. cbn [destroy_elements]. rewrite fmap_app. simpl (reverse [_]).
  cbn [run_all app]. csimpl. rewrite !exec_bind. destruct (exec _ w); [apply IH|done..].
Qed.

(** Destruction runs the element destructors once each, last element first, as
    many as the count prefix says; an exception ends the program. *)
Lemma ArrayDestructor_spec elem_dtor w :
  exec (ArrayDestructor_destroy sizeof_T alignof_T elem_dtor payload) w =
  match exec (run_all elem_dtor (elements_down (Z.to_nat (load_word (mem w) payload)))) w with
  | Throw _ _ => Stuck Terminated
  | r => r
  end.
Proof.
  unfold ArrayDestructor_destroy. rewrite exec_bind, exec_atomic. unfold read_word, gets, noexcept.
  rewrite exec_bind_result, destroy_elements_down. by destruct (exec _ w).
Qed.

(** [built i w w']: the loop has constructed elements [0 .. i - 1]. *)
Inductive built (construct : Z → nat → proc unit) (w : World) : nat → World → Prop :=
| built_0 : built construct w 0 w
| built_S i w1 w2 :
    built construct w i w1 →
    exec (construct (element sizeof_T alignof_T payload i) i) w1 = Ret tt w2 →
    built construct w (S i) (set_mem (λ m, store_word m payload (Z.of_nat i + 1)) w2).

(** The prefix counts the constructed elements at every step. *)
Lemma built_prefix construct w i w' :
  built construct w i w' → load_word (mem w) payload = 0 → Z.of_nat i <= SIZE_MAX →
  load_word (mem w') payload = Z.of_nat i.
Proof.
  intros [|j w1 w2 _ _] H0 Hi; [done|]. simpl. rewrite load_store_word_eq; [lia|].
  unfold is_size. lia.
Qed.

Lemma construct_elements_built construct w i w' n :
  built construct w i w' →
  exec (construct_elements sizeof_T alignof_T construct payload (i + n) 0) w =
  exec (construct_elements sizeof_T alignof_T construct payload n i) w'.
Proof.
  intros Hb. revert n. induction Hb as [|i w1 w2 Hb IH E]; intros n; [done|].
  replace (S i + n)%nat with (i + S n)%nat by lia. rewrite IH. cbn [construct_elements].
  rewrite exec_bind, E, exec_bind, exec_atomic. done.
Qed.

(** All elements constructed: the array is handed out. *)
Lemma construct_payload_ok construct elem_dtor count w w' :
  0 <= count →
  built construct (set_mem (λ m, store_word m payload 0) w) (Z.to_nat count) w' →
  exec (construct_payload me env sizeof_T alignof_T count payload construct elem_dtor) w =
  match exec (finish_construction me env payload) w' with
  | Ret _ w4 => Ret {| ptr_ := array_elements_begin alignof_T payload |} w4
  | Throw e w4 => Throw e w4
  | Stuck why => Stuck why
  end.
Proof.
  intros Hc Hb. unfold construct_payload. rewrite exec_bind, exec_atomic. unfold write_word, modify.
  rewrite exec_bind_result. rewrite <-(Nat.add_0_r (Z.to_nat count)).
  rewrite (construct_elements_built _ _ _ _ 0 Hb).
  assert (exec (construct_elements sizeof_T alignof_T construct payload 0 (Z.to_nat count)) w' =
    Ret tt w') as -> by done.
  rewrite exec_bind. by destruct (exec _ w').
Qed.

(** Element [i] throws: elements [i - 1 .. 0] are destroyed, the block is
    given back and the exception goes on. *)
Lemma construct_payload_throws construct elem_dtor count w i w1 w2 e :
  Z.of_nat i < count →
  built construct (set_mem (λ m, store_word m payload 0) w) i w1 →
  exec (construct (element sizeof_T alignof_T payload i) i) w1 = Throw e w2 →
  load_word (mem w2) payload = Z.of_nat i →
  exec (construct_payload me env sizeof_T alignof_T count payload construct elem_dtor) w =
  match exec (run_all elem_dtor (elements_down i)) w2 with
  | Ret _ w3 =>
      match exec (release_unconstructed me env payload) w3 with
      | Ret _ w4 => Throw e w4
      | Throw e' w4 => Throw e' w4
      | Stuck why => Stuck why
      end
  | Throw _ _ => Stuck Terminated
  | Stuck why => Stuck why
  end.
Proof.
  intros Hi Hb E Hp. unfold construct_payload. rewrite exec_bind, exec_atomic. unfold write_word, modify.
  rewrite exec_bind_result.
  replace (Z.to_nat count) with (i + S (Z.to_nat count - S i))%nat by lia.
  rewrite (construct_elements_built _ _ _ _ _ Hb). cbn [construct_elements]. rewrite exec_bind, E.
  rewrite exec_bind, ArrayDestructor_spec, Hp, Nat2Z.id.
  destruct (exec (run_all _ _) w2); [|done..]. rewrite exec_bind. by destruct (exec _ s).
Qed.
End ArrayAlone.
