(* ===== verification/ArrayHandles.v ===== *)
(** * Handles of arrays

    The specialisations [gc_ptr<T[]>], [gc_root<T[]>] and [gc_weak_ptr<T[]>].
    Their members have the text of the primary templates, over a pointer to the
    first element; what is new is [operator[]].  The pointer of an array handle
    points behind the length prefix, into the middle of its block, so every
    element address resolves to the block and a root of the handle keeps the
    whole array. *)

From S2P Require Import Prelude Words Memory OrdMap Chunk Manager Heap Scanner Mark Finalize.
From S2P Require Import WeakRefs Sweep Threads Collect CollectSpec Roots Alloc Handles GcNew.

(** ** [gc_ptr<T[]>] *)

Record gc_array_ptr := { array_ptr_ : Z }.

Definition gc_array_ptr_null : gc_array_ptr := {| array_ptr_ := 0 |}.
Definition gc_array_ptr_convert (convert : Z → Z) (other : gc_array_ptr) : gc_array_ptr :=
  {| array_ptr_ := convert (array_ptr_ other) |}.
Definition gc_array_ptr_assign_null (p : gc_array_ptr) : gc_array_ptr := gc_array_ptr_null.
Definition gc_array_ptr_get (p : gc_array_ptr) : Z := array_ptr_ p.
Definition gc_array_ptr_bool (p : gc_array_ptr) : bool := negb (array_ptr_ p =? 0).
Definition gc_array_ptr_reset (p : gc_array_ptr) (ptr : Z) : gc_array_ptr := {| array_ptr_ := ptr |}.

(** The address of the element. *)
Definition gc_array_ptr_index (sizeof_T : Z) (p : gc_array_ptr) (index : Z) : Z := array_ptr_ p + index * sizeof_T.

Definition gc_array_ptr_swap (lhs rhs : gc_array_ptr) : gc_array_ptr * gc_array_ptr :=
  let tmp := gc_array_ptr_get lhs in
  let lhs := gc_array_ptr_reset lhs (gc_array_ptr_get rhs) in
  let rhs := gc_array_ptr_reset rhs tmp in (lhs, rhs).

Definition gc_array_ptr_hash (hash : Z → Z) (p : gc_array_ptr) : Z := hash (gc_array_ptr_get p).

(** What the array constructors return, as the array handle it is. *)
Definition as_array (p : gc_ptr) : gc_array_ptr := {| array_ptr_ := ptr_ p |}.

(** ** [gc_root<T[]>]: [self] and [other] are addresses of handles *)

Section ArrayRoot.
Context {ASAN : AsanRuntime} (me : thread_id) (env : ParkEnv).

Definition gc_array_root_register_self (self : Z) : proc unit := register_root_object me env self sizeof_gc_root.
Definition gc_array_root_unregister_self (self : Z) : proc unit :=
  noexcept (unregister_root_object me env self sizeof_gc_root).

Definition gc_array_root_null (self : Z) : proc unit :=
  atomic (write_word self 0);; gc_array_root_register_self self.

Definition gc_array_root_new (self : Z) (ptr : gc_array_ptr) : proc unit :=
  atomic (write_word self (array_ptr_ ptr));; gc_array_root_register_self self.

Definition gc_array_root_copy (self other : Z) : proc unit :=
  ptr ← atomic (read_word other); atomic (write_word self ptr);; gc_array_root_register_self self.

Definition gc_array_root_move (self other : Z) : proc unit :=
  gc_array_root_copy self other;; atomic (write_word other 0).

Definition gc_array_root_destroy (self : Z) : proc unit := gc_array_root_unregister_self self.

Definition gc_array_root_assign (self other : Z) : proc unit :=
  if self =? other then mret tt
  else ptr ← atomic (read_word other); atomic (write_word self ptr).

Definition gc_array_root_move_assign (self other : Z) : proc unit :=
  if self =? other then mret tt
  else ptr ← atomic (read_word other); atomic (write_word self ptr);; atomic (write_word other 0).

Definition gc_array_root_assign_ptr (self : Z) (ptr : gc_array_ptr) : proc unit :=
  atomic (write_word self (array_ptr_ ptr)).
Definition gc_array_root_assign_null (self : Z) : proc unit := atomic (write_word self 0).
Definition gc_array_root_reset (self ptr : Z) : proc unit := atomic (write_word self ptr).

Definition gc_array_root_get (self : Z) : proc gc_array_ptr :=
  ptr ← atomic (read_word self); mret {| array_ptr_ := ptr |}.
Definition gc_array_root_index (sizeof_T self index : Z) : proc Z :=
  p ← gc_array_root_get self; mret (gc_array_ptr_index sizeof_T p index).
Definition gc_array_root_bool (self : Z) : proc bool := p ← gc_array_root_get self; mret (gc_array_ptr_bool p).
End ArrayRoot.

(** ** [gc_weak_ptr<T[]>] *)

Section ArrayWeak.
Context {ASAN : AsanRuntime} (me : thread_id) (env : ParkEnv).

Definition gc_array_weak_ptr_new (self : Z) (p : gc_array_ptr) : proc unit :=
  atomic (write_word self (encode_weak_ptr (gc_array_ptr_get p)));;
  encoded ← atomic (read_word self);
  if (encoded : Z) =? 0 then mret tt
  else locked me env (register_weak_ref (gc_array_ptr_get p) self).

Definition gc_array_weak_ptr_destroy (self : Z) : proc unit :=
  encoded ← atomic (read_word self);
  if (encoded : Z) =? 0 then mret tt
  else noexcept (locked me env (unregister_weak_ref self)).

Definition gc_array_weak_ptr_copy (self other : Z) : proc unit :=
  atomic (write_word self 0);; locked me env (copy_weak_ref other self).

Definition gc_array_weak_ptr_take (self other : Z) : proc unit :=
  encoded ← atomic (read_word other);
  atomic (write_word self encoded);;
  encoded ← atomic (read_word self);
  if (encoded : Z) =? 0 then mret tt
  else locked me env (update_weak_ref other self);; atomic (write_word other 0).

Definition gc_array_weak_ptr_move (self other : Z) : proc unit := noexcept (gc_array_weak_ptr_take self other).

Definition gc_array_weak_ptr_reset (self : Z) : proc unit :=
  noexcept (
    encoded ← atomic (read_word self);
    if (encoded : Z) =? 0 then mret tt
    else locked me env (unregister_weak_ref self);; atomic (write_word self 0)).

Definition gc_array_weak_ptr_move_assign (self other : Z) : proc unit :=
  noexcept (
    if self =? other then mret tt
    else gc_array_weak_ptr_reset self;; gc_array_weak_ptr_take self other).

Definition gc_array_weak_ptr_copy_assign (self other replacement : Z) : proc unit :=
  if self =? other then mret tt
  else
    gc_array_weak_ptr_copy replacement other;;
    gc_array_weak_ptr_move_assign self replacement;;
    gc_array_weak_ptr_destroy replacement.

Definition gc_array_weak_ptr_assign (self : Z) (p : gc_array_ptr) (replacement : Z) : proc unit :=
  gc_array_weak_ptr_new replacement p;;
  gc_array_weak_ptr_move_assign self replacement;;
  gc_array_weak_ptr_destroy replacement.

Definition gc_array_weak_ptr_lock (self : Z) : proc gc_array_ptr :=
  target ← noexcept (locked me env (read_weak_ref self));
  mret (if (target : Z) =? 0 then gc_array_ptr_null else {| array_ptr_ := target |}).

Definition gc_array_weak_ptr_expired (self : Z) : proc bool :=
  target ← noexcept (locked me env (read_weak_ref self));
  mret ((target : Z) =? 0).

(** ** The specialisations do what the primary templates do *)

Lemma gc_array_root_same self other p :
  gc_array_root_new me env self (as_array p) = gc_root_new me env self (ptr_ p) ∧
  gc_array_root_copy me env self other = gc_root_copy me env self other ∧
  gc_array_root_move me env self other = gc_root_move me env self other ∧
  gc_array_root_destroy me env self = gc_root_destroy me env self.
Proof. split_and!; reflexivity. Qed.

Lemma gc_array_weak_ptr_same self other p tmp :
  gc_array_weak_ptr_new self (as_array p) = gc_weak_ptr_new me env self p ∧
  gc_array_weak_ptr_copy self other = gc_weak_ptr_copy me env self other ∧
  gc_array_weak_ptr_move self other = gc_weak_ptr_move me env self other ∧
  gc_array_weak_ptr_copy_assign self other tmp = gc_weak_ptr_copy_assign me env self other tmp ∧
  gc_array_weak_ptr_assign self (as_array p) tmp = gc_weak_ptr_assign me env self p tmp ∧
  gc_array_weak_ptr_destroy self = gc_weak_ptr_destroy me env self ∧
  gc_array_weak_ptr_expired self = gc_weak_ptr_expired me env self.
Proof. split_and!; reflexivity. Qed.

Lemma gc_array_weak_ptr_lock_same self w :
  exec (gc_array_weak_ptr_lock self) w =
  match exec (gc_weak_ptr_lock me env self) w with
  | Ret p w' => Ret (as_array p) w'
  | Throw e w' => Throw e w'
  | Stuck why => Stuck why
  end.
Proof.
  unfold gc_array_weak_ptr_lock, gc_weak_ptr_lock. rewrite !exec_bind.
  destruct (exec _ w) as [t w'| |]; [|done..]. simpl. by destruct (t =? 0).
Qed.
End ArrayWeak.

(** ** Elements *)

(** The elements of an array in the payload of a block. *)
Record array_in (b : BlockRecord) (k sizeof_T alignof_T count : Z) : Prop := {
  ai_size : 0 < sizeof_T;
  ai_count : 0 < count;
  ai_offset : 0 < detail.array_elements_offset alignof_T;
  ai_end : k + detail.array_elements_offset alignof_T + sizeof_T * count <= br_payload_end b;
}.

Lemma array_element_in b k sizeof_T alignof_T count i :
  array_in b k sizeof_T alignof_T count → 0 <= i < count →
  let p := {| array_ptr_ := array_elements_begin alignof_T k |} in
  k < gc_array_ptr_get p < br_payload_end b ∧
  k < gc_array_ptr_index sizeof_T p i ∧ gc_array_ptr_index sizeof_T p i + sizeof_T <= br_payload_end b ∧
  ∀ j, 0 <= j < count → i ≠ j →
    gc_array_ptr_index sizeof_T p i + sizeof_T <= gc_array_ptr_index sizeof_T p j ∨
    gc_array_ptr_index sizeof_T p j + sizeof_T <= gc_array_ptr_index sizeof_T p i.
Proof.
  intros [Hs Hc Ho He] Hi. unfold gc_array_ptr_index, gc_array_ptr_get, array_elements_begin. simpl.
  assert (0 <= i * sizeof_T <= (count - 1) * sizeof_T) by nia. split_and!; [lia|nia|lia|nia|].
  intros j Hj Hne. assert (i < j ∨ j < i) as [Hlt|Hlt] by lia; [left|right]; nia.
Qed.
