(* ===== verification/Vector.v ===== *)
(** * Vectors of roots

    [gc_vector] of src/include/gc/gc_vector.hpp and the operations of
    [std::vector<gc_root<T>>] it forwards to.  The elements live in storage of
    [operator new] and are root handles, so every construction registers a
    range and may throw; the move constructor of [gc_root] is not [noexcept],
    so growth copies the elements.  How far a full vector grows is a parameter
    with the bounds the standard gives it.  Operations that change a vector
    return the new one; when they throw, the old one is still there. *)

From S2P Require Import Prelude Words Memory OrdMap Chunk Manager Heap Scanner Mark Finalize.
From S2P Require Import WeakRefs Sweep Threads Collect CollectSpec Roots Alloc Handles GcNew.

(** [begin], [size()] and [capacity()]. *)
Record vector := { data_ : Z; size_ : nat; capacity_ : Z }.

Definition vector_empty : vector := {| data_ := 0; size_ := 0; capacity_ := 0 |}.

(** [PTRDIFF_MAX / sizeof(gc_root<T>)] *)
Definition max_size : Z := (2 ^ 63 - 1) / sizeof_gc_root.

(** [__STDCPP_DEFAULT_NEW_ALIGNMENT__] *)
Definition default_new_alignment : Z := 16.

(** The capacity of a full vector of [size] elements after [n] more. *)
Class VectorGrowth := {
  next_capacity : Z → Z → Z;
  next_capacity_ok size n : 0 <= size → 0 < n → size + n <= max_size →
    size + n <= next_capacity size n <= max_size;
}.

(** At least double, as libstdc++ does. *)
#[refine] Definition doubling : VectorGrowth :=
  {| next_capacity size n := Z.min max_size (size + Z.max size n) |}.
Proof. intros. lia. Defined.

Definition slot (data : Z) (i : nat) : Z := data + sizeof_gc_root * Z.of_nat i.

(** ** [std::vector<gc_root<T>>] *)

Section StdVector.
Context {ASAN : AsanRuntime} {ALLOC : Allocator} {GROWTH : VectorGrowth} (me : thread_id) (env : ParkEnv).

Fixpoint destroy_slots (first : Z) (n : nat) : proc unit :=
  match n with
  | O => mret tt
  | S n' => gc_root_destroy me env first;; destroy_slots (first + sizeof_gc_root) n'
  end.

(** Constructs [n] elements from number [done] on; when one throws, all of them
    are destroyed. *)
Fixpoint construct_slots (construct : nat → Z → proc unit) (first : Z) (done n : nat) : proc unit :=
  match n with
  | O => mret tt
  | S n' =>
      bind_result (construct done (slot first done)) (λ r,
        match r with
        | Raise e => destroy_slots first done;; raise e
        | Ok _ => construct_slots construct first (S done) n'
        end)
  end.

Definition default_slot (i : nat) (a : Z) : proc unit := gc_root_new me env a 0.
Definition copy_slot (src : Z) (i : nat) (a : Z) : proc unit := gc_root_copy me env a (slot src i).

Definition allocate (n : Z) : proc Z :=
  if n =? 0 then mret 0 else atomic (operator_new (sizeof_gc_root * n) default_new_alignment).

Definition deallocate (p : Z) : proc unit :=
  if p =? 0 then mret tt else atomic (operator_delete p default_new_alignment).

Definition allocate_and_construct (capacity : Z) (construct : nat → Z → proc unit) (n : nat) : proc Z :=
  data ← allocate capacity;
  bind_result (construct_slots construct data 0 n) (λ r,
    match r with
    | Raise e => deallocate data;; raise e
    | Ok _ => mret data
    end).

Definition release_storage (v : vector) : proc unit :=
  destroy_slots (data_ v) (size_ v);; deallocate (data_ v).

(** [n] new elements at the end.  On growth they are constructed first, in the
    new storage, then the old ones are copied, then the old storage goes. *)
Definition vector_extend (construct : nat → Z → proc unit) (n : Z) (v : vector) : proc vector :=
  let size := Z.of_nat (size_ v) in
  if n <=? capacity_ v - size
  then
    construct_slots construct (slot (data_ v) (size_ v)) 0 (Z.to_nat n);;
    mret {| data_ := data_ v; size_ := size_ v + Z.to_nat n; capacity_ := capacity_ v |}
  else if max_size - size <? n then raise length_error
  else
    let capacity := next_capacity size n in
    data ← allocate capacity;
    let tail := slot data (size_ v) in
    bind_result (construct_slots construct tail 0 (Z.to_nat n)) (λ r,
      match r with
      | Raise e => deallocate data;; raise e
      | Ok _ =>
          bind_result (construct_slots (copy_slot (data_ v)) data 0 (size_ v)) (λ r,
            match r with
            | Raise e => destroy_slots tail (Z.to_nat n);; deallocate data;; raise e
            | Ok _ =>
                release_storage v;;
                mret {| data_ := data; size_ := size_ v + Z.to_nat n; capacity_ := capacity |}
            end)
      end).

(** [emplace_back(pointer)] and [push_back(root)]. *)
Definition emplace_back (v : vector) (pointer : Z) : proc vector :=
  vector_extend (λ _ a, gc_root_new me env a pointer) 1 v.

Definition push_back (v : vector) (root : Z) : proc vector :=
  vector_extend (λ _ a, gc_root_copy me env a root) 1 v.

Definition vector_reserve (v : vector) (n : Z) : proc vector :=
  if max_size <? n then raise length_error
  else if capacity_ v <? n
  then
    data ← allocate_and_construct n (copy_slot (data_ v)) (size_ v);
    release_storage v;;
    mret {| data_ := data; size_ := size_ v; capacity_ := n |}
  else mret v.

(** A request: when it fails, the vector stays as it is. *)
Definition vector_shrink_to_fit (v : vector) : proc vector :=
  let size := Z.of_nat (size_ v) in
  if capacity_ v =? size then mret v
  else
    bind_result (allocate_and_construct size (copy_slot (data_ v)) (size_ v)) (λ r,
      match r with
      | Raise _ => mret v
      | Ok data => release_storage v;; mret {| data_ := data; size_ := size_ v; capacity_ := size |}
      end).

Definition erase_at_end (v : vector) (count : nat) : proc vector :=
  destroy_slots (slot (data_ v) count) (size_ v - count);;
  mret {| data_ := data_ v; size_ := count; capacity_ := capacity_ v |}.

Definition vector_resize (v : vector) (count : Z) : proc vector :=
  let size := Z.of_nat (size_ v) in
  if size <? count then vector_extend default_slot (count - size) v
  else erase_at_end v (Z.to_nat count).

Definition vector_clear (v : vector) : proc vector := erase_at_end v 0.

(** Undefined on an empty vector. *)
Definition vector_pop_back (v : vector) : proc vector :=
  match size_ v with
  | O => atomic undefined
  | S n => erase_at_end v n
  end.

(** [std::move(first, last, result)] and the loop of [std::copy]. *)
Fixpoint move_slots (result first : Z) (n : nat) : proc unit :=
  match n with
  | O => mret tt
  | S n' =>
      gc_root_move_assign result first;;
      move_slots (result + sizeof_gc_root) (first + sizeof_gc_root) n'
  end.

Fixpoint assign_slots (result first : Z) (n : nat) : proc unit :=
  match n with
  | O => mret tt
  | S n' =>
      gc_root_assign result first;;
      assign_slots (result + sizeof_gc_root) (first + sizeof_gc_root) n'
  end.

(** [erase(begin() + first, begin() + last)] *)
Definition vector_erase_range (v : vector) (first last : nat) : proc vector :=
  if negb ((first <=? last)%nat && (last <=? size_ v)%nat) then atomic undefined
  else if (first =? last)%nat then mret v
  else
    move_slots (slot (data_ v) first) (slot (data_ v) last) (size_ v - last);;
    erase_at_end v (first + (size_ v - last)).

Definition vector_erase (v : vector) (position : nat) : proc vector :=
  vector_erase_range v position (S position).

Definition vector_count (count : Z) : proc vector :=
  if max_size <? count then raise length_error
  else
    data ← allocate_and_construct count default_slot (Z.to_nat count);
    mret {| data_ := data; size_ := Z.to_nat count; capacity_ := count |}.

Definition vector_copy (other : vector) : proc vector :=
  let size := Z.of_nat (size_ other) in
  data ← allocate_and_construct size (copy_slot (data_ other)) (size_ other);
  mret {| data_ := data; size_ := size_ other; capacity_ := size |}.

(** [this = other] for distinct vectors. *)
Definition vector_copy_assign (this other : vector) : proc vector :=
  let n := size_ other in
  if capacity_ this <? Z.of_nat n
  then
    data ← allocate_and_construct (Z.of_nat n) (copy_slot (data_ other)) n;
    release_storage this;;
    mret {| data_ := data; size_ := n; capacity_ := Z.of_nat n |}
  else if (n <=? size_ this)%nat
  then assign_slots (data_ this) (data_ other) n;; erase_at_end this n
  else
    assign_slots (data_ this) (data_ other) (size_ this);;
    construct_slots (copy_slot (slot (data_ other) (size_ this))) (slot (data_ this) (size_ this)) 0 (n - size_ this);;
    mret {| data_ := data_ this; size_ := n; capacity_ := capacity_ this |}.

(** The vectors after [this = std::move(other)], for distinct ones. *)
Definition vector_move_assign (this other : vector) : proc (vector * vector) :=
  noexcept (release_storage this;; mret (other, vector_empty)).

Definition vector_destroy (v : vector) : proc unit := noexcept (release_storage v).
End StdVector.

(** ** [gc_vector] *)

Section GcVector.
Context {ASAN : AsanRuntime} {ALLOC : Allocator} {GROWTH : VectorGrowth} (me : thread_id) (env : ParkEnv).

Definition gc_vector : vector := vector_empty.
Definition gc_vector_count (count : Z) : proc vector := vector_count me env count.

(** The loop of the initializer-list constructor; the member is destroyed when
    the body throws. *)
Fixpoint emplace_all (roots_ : vector) (pointers : list gc_ptr) : proc vector :=
  match pointers with
  | [] => mret roots_
  | pointer :: pointers' =>
      bind_result (emplace_back me env roots_ (gc_ptr_get pointer)) (λ r,
        match r with
        | Raise e => vector_destroy me env roots_;; raise e
        | Ok roots_ => emplace_all roots_ pointers'
        end)
  end.

Definition gc_vector_list (pointers : list gc_ptr) : proc vector :=
  bind_result (vector_reserve me env vector_empty (Z.of_nat (length pointers))) (λ r,
    match r with
    | Raise e => vector_destroy me env vector_empty;; raise e
    | Ok roots_ => emplace_all roots_ pointers
    end).

Definition gc_vector_copy (other : vector) : proc vector := vector_copy me env other.
Definition gc_vector_move (other : vector) : vector * vector := (other, vector_empty).
Definition gc_vector_assign (this other : vector) : proc vector := vector_copy_assign me env this other.
Definition gc_vector_move_assign (this other : vector) : proc (vector * vector) :=
  vector_move_assign me env this other.
Definition gc_vector_destroy (this : vector) : proc unit := vector_destroy me env this.

Definition gc_vector_is_empty (this : vector) : bool := (size_ this =? 0)%nat.
Definition gc_vector_size (this : vector) : nat := size_ this.
Definition gc_vector_capacity (this : vector) : Z := capacity_ this.

(** Access: the address of the element. *)
Definition gc_vector_index (this : vector) (index : nat) : Z := slot (data_ this) index.
Definition gc_vector_at (this : vector) (index : nat) : result Z :=
  if (index <? size_ this)%nat then Ok (slot (data_ this) index) else Raise out_of_range.
Definition gc_vector_front (this : vector) : Z := slot (data_ this) 0.
Definition gc_vector_back (this : vector) : Z := slot (data_ this) (size_ this - 1).
Definition gc_vector_begin (this : vector) : Z := data_ this.
Definition gc_vector_end (this : vector) : Z := slot (data_ this) (size_ this).

Definition gc_vector_reserve (this : vector) (capacity : Z) : proc vector := vector_reserve me env this capacity.
Definition gc_vector_shrink_to_fit (this : vector) : proc vector := vector_shrink_to_fit me env this.
Definition gc_vector_resize (this : vector) (count : Z) : proc vector := vector_resize me env this count.
Definition gc_vector_clear (this : vector) : proc vector := vector_clear me env this.
Definition gc_vector_push_back (this : vector) (pointer : gc_ptr) : proc vector :=
  emplace_back me env this (gc_ptr_get pointer).
Definition gc_vector_pop_back (this : vector) : proc vector := vector_pop_back me env this.
Definition gc_vector_erase (this : vector) (position : nat) : proc vector := vector_erase me env this position.
Definition gc_vector_erase_range (this : vector) (first last : nat) : proc vector :=
  vector_erase_range me env this first last.
Definition gc_vector_swap (this other : vector) : vector * vector := (other, this).

(** From the moment the new object is in [created], a root on the stack. *)
Definition insert_created (this : vector) (created : Z) : proc (gc_ptr * vector) :=
  bind_result (push_back me env this created) (λ r,
    match r with
    | Raise e => gc_root_destroy me env created;; raise e
    | Ok this => p ← gc_root_get created; gc_root_destroy me env created;; mret ({| ptr_ := p |}, this)
    end).
End GcVector.

Section EmplaceNew.
Context {ASAN : AsanRuntime} {ALLOC : Allocator} {GROWTH : VectorGrowth}.
Context (dtor : DestructorFn → Z → proc unit) (me : thread_id) (env : CollectEnv).

(** [created] is the address of the local root. *)
Definition gc_vector_emplace_new (sizeof_T alignof_T : Z) (destroy_object : DestructorFn)
    (ctor : Z → proc unit) (this : vector) (created : Z) : proc (gc_ptr * vector) :=
  p ← gc_new dtor me env sizeof_T alignof_T destroy_object ctor;
  gc_root_new me (ce_park env) created (gc_ptr_get p);;
  insert_created me (ce_park env) this created.
End EmplaceNew.
