(* ===== verification/Api.v ===== *)
(** * The entry points outside the classes

    The free functions at the end of src/include/gc/GCManager.hpp, which
    forward to the one manager, the destructor of the manager, which runs when
    the process exits, and the finalizer that an allocation of type [T]
    carries. *)

From S2P Require Import Prelude Words Memory OrdMap Chunk Manager Heap Scanner Mark Finalize.
From S2P Require Import WeakRefs Sweep Threads Collect.

(** [destroy_object<T>]: the destructor of [T] on the payload. *)
Definition destroy_object (dtor_T : Z → proc unit) (payload : Z) : proc unit := dtor_T payload.

Module gc.
Section Gc.
Context {ASAN : AsanRuntime} (dtor : DestructorFn → Z → proc unit) (me : thread_id) (env : CollectEnv).

Definition register_stack_bottom (stack_bottom : Z) : proc unit :=
  Threads.register_stack_bottom me (ce_park env) stack_bottom.

Definition register_current_thread (limits : StackLimits) : proc unit :=
  Threads.register_current_thread me (ce_park env) limits.

Definition unregister_current_thread : proc unit := Threads.unregister_current_thread me (ce_park env).

Definition safepoint : proc unit := Threads.safepoint me (ce_park env).

Definition collect : proc unit := Collect.collect dtor me env.

Definition shutdown : proc unit := Collect.shutdown dtor me env.

(** [~GC_Manager()] *)
Definition destroy_GC_Manager : proc unit := noexcept shutdown.
End Gc.
End gc.
