(* ===== verification/Slots.v ===== *)
(** * Slots: root handles in storage

    [runs] is the weakest precondition of an uninterrupted run.  [change keep]
    and [effect lo hi] say what an operation on root handles leaves alone.  The
    lemmas give the effect of constructing, copying, moving and destroying one
    handle and runs of handles, and of taking and giving back storage for
    them. *)

From S2P Require Import Prelude Words Memory OrdMap Chunk Manager Heap Scanner Mark Finalize.
From S2P Require Import WeakRefs Sweep Threads Collect CollectSpec Roots Alloc Handles GcNew Vector.

(** ** Runs *)

Definition runs {A} (p : proc A) (Q : result A → World → Prop) (w : World) : Prop :=
  match exec p w with
  | Ret a w' => Q (Ok a) w'
  | Throw e w' => Q (Raise e) w'
  | Stuck _ => False
  end.

Lemma runs_mono {A} (p : proc A) (Q Q' : result A → World → Prop) w :
  (∀ r w', Q r w' → Q' r w') → runs p Q w → runs p Q' w.
Proof. unfold runs. intros HQ. destruct (exec p w); auto. Qed.

Lemma runs_ret {A} (a : A) (Q : result A → World → Prop) w : Q (Ok a) w → runs (mret a) Q w.
Proof. done. Qed.

Lemma runs_raise {A} e (Q : result A → World → Prop) w : Q (Raise e) w → runs (raise e) Q w.
Proof. done. Qed.

Lemma runs_bind_result {A B} (p : proc A) (f : result A → proc B) Q w :
  runs p (λ r w', runs (f r) Q w') w → runs (bind_result p f) Q w.
Proof. unfold runs. rewrite exec_bind_result. by destruct (exec p w). Qed.

Lemma runs_bind {A B} (p : proc A) (f : A → proc B) Q w :
  runs p (λ r w', match r with Ok a => runs (f a) Q w' | Raise e => Q (Raise e) w' end) w →
  runs (p ≫= f) Q w.
Proof. intros Hp. apply runs_bind_result. eapply runs_mono, Hp. by intros [a|e] w'. Qed.

Lemma runs_atomic {A} (act : M World A) (Q : result A → World → Prop) w :
  match act w with Ret a w' => Q (Ok a) w' | Throw e w' => Q (Raise e) w' | Stuck _ => False end →
  runs (atomic act) Q w.
Proof. unfold runs. by rewrite exec_atomic. Qed.

Lemma runs_noexcept {A} (p : proc A) (Q : result A → World → Prop) w :
  runs p (λ r w', match r with Ok a => Q (Ok a) w' | Raise _ => False end) w → runs (noexcept p) Q w.
Proof. intros Hp. apply runs_bind_result. eapply runs_mono, Hp. by intros [a|e] w'. Qed.

(** ** Effects on elements *)

Definition root_range (a : Z) : RootRange := {| rr_begin := a; rr_end := a + sizeof_gc_root |}.

Definition outside (lo hi a : Z) : Prop := a + word_size <= lo ∨ hi <= a ∨ hi <= lo.

(** [change keep] changes at most root ranges, storage, and words not in
    [keep]; [effect lo hi] leaves the storage alone and writes in [lo, hi) only. *)
Record change (keep : Z → Prop) (w w' : World) : Prop := {
  ch_mgr : set_root_ranges (λ _, []) (mgr w') = set_root_ranges (λ _, []) (mgr w);
  ch_headers : headers w' = headers w;
  ch_oom : may_fail w' → may_fail w;
  ch_mem : ∀ a, keep a → load_word (mem w') a = load_word (mem w) a;
}.

Record effect (lo hi : Z) (w w' : World) : Prop := {
  ef_change : change (outside lo hi) w w';
  ef_blocks : blocks w' = blocks w;
}.

Lemma change_refl keep w : change keep w w.
Proof. by split. Qed.

Lemma change_trans (keep keep1 keep2 : Z → Prop) w w1 w2 :
  (∀ a, keep a → keep1 a ∧ keep2 a) → change keep1 w w1 → change keep2 w1 w2 → change keep w w2.
Proof.
  intros Hk [??? H1] [??? H2]. split; [congruence..|auto|]. intros a [??]%Hk. by rewrite H2, H1.
Qed.

Lemma change_mono (keep keep' : Z → Prop) w w' :
  (∀ a, keep' a → keep a) → change keep w w' → change keep' w w'.
Proof. intros Hk [??? H]. split; [done..|]. intros a Ha. by apply H, Hk. Qed.

Lemma effect_refl lo hi w : effect lo hi w w.
Proof. by split. Qed.

Lemma effect_mono lo hi lo' hi' w w' :
  hi <= lo ∨ lo' <= lo ∧ hi <= hi' → effect lo hi w w' → effect lo' hi' w w'.
Proof.
  intros Hlo [H ?]. split; [|done]. eapply change_mono, H. unfold outside. lia.
Qed.

Lemma effect_trans lo hi w w1 w2 : effect lo hi w w1 → effect lo hi w1 w2 → effect lo hi w w2.
Proof. intros [H1 ?] [H2 ?]. split; [|congruence]. eapply change_trans; [|exact H1|exact H2]. done. Qed.

Lemma change_may_run me keep w w' : change keep w w' → may_run me w = true → may_run me w' = true.
Proof.
  intros [Hm _ _ _]. unfold may_run.
  pose proof (f_equal stop_the_world_requested_ Hm) as Hs. pose proof (f_equal collector_thread_ Hm) as Hc.
  simpl in Hs, Hc. by rewrite Hs, Hc.
Qed.

Lemma effect_may_run me lo hi w w' : effect lo hi w w' → may_run me w = true → may_run me w' = true.
Proof. intros [H _]. by eapply change_may_run. Qed.

(** An address at which a root handle fits. *)
Definition root_place (a : Z) : Prop := 0 < a ∧ a + sizeof_gc_root <= SIZE_MAX.

Section Elements.
Context {ASAN : AsanRuntime} (me : thread_id) (env : ParkEnv).

Lemma place_range a :
  root_place a → a =? 0 = false ∧ empty_range a (wrap64 (a + sizeof_gc_root)) = false ∧
    normalize_range a (wrap64 (a + sizeof_gc_root)) = root_range a.
Proof.
  unfold root_place, sizeof_gc_root. intros [Hpos Hmax].
  rewrite wrap64_size by (unfold is_size; lia). unfold empty_range, normalize_range, root_range, sizeof_gc_root.
  destruct (Z.eqb_spec a 0), (Z.eqb_spec (a + 8) 0), (Z.eqb_spec a (a + 8)), (Z.ltb_spec (a + 8) a); try lia; done.
Qed.

(** The handle is constructed, or an allocation failed and no root was added. *)
Lemma gc_root_new_runs a p w :
  root_place a → is_size p → may_run me w = true →
  runs (gc_root_new me env a p) (λ r w', effect a (a + word_size) w w' ∧ load_word (mem w') a = p ∧
    match r with
    | Ok _ => root_ranges w' ≡ₚ root_range a :: root_ranges w
    | Raise e => e = bad_alloc ∧ may_fail w ∧ root_ranges w' = root_ranges w
    end) w.
Proof.
  intros Ha Hp Hrun. destruct (place_range a Ha) as (Hz & He & Hn).
  unfold gc_root_new, register_self, register_root_object. rewrite Hz. apply runs_bind, runs_atomic. unfold write_word, modify.
  set (w1 := set_mem (λ m, store_word m a p) w). unfold runs.
  assert (effect a (a + word_size) w w1) as Hw1.
  { split; [|done]. split; [done..|]. intros x Hx. simpl. apply load_store_word_disjoint. unfold outside, word_size in *. lia. }
  destruct (register_root_range_cases me env w1 a (wrap64 (a + sizeof_gc_root)) Hrun) as [(o & E & Ho)|(o & E & Hf)];
    rewrite E; rewrite ?He, ?Hn; simpl.
  - split_and!; [|by apply load_store_word_eq|by rewrite Permutation_app_comm].
    eapply effect_trans; [exact Hw1|]. by repeat split.
  - split_and!; [|by apply load_store_word_eq|done..]. eapply effect_trans; [exact Hw1|]. by repeat split.
Qed.

Lemma gc_root_copy_runs a b w :
  root_place a → may_run me w = true →
  runs (gc_root_copy me env a b) (λ r w', effect a (a + word_size) w w' ∧
    load_word (mem w') a = load_word (mem w) b ∧
    match r with
    | Ok _ => root_ranges w' ≡ₚ root_range a :: root_ranges w
    | Raise e => e = bad_alloc ∧ may_fail w ∧ root_ranges w' = root_ranges w
    end) w.
Proof.
  intros Ha Hrun. unfold gc_root_copy. apply runs_bind, runs_atomic. unfold read_word, gets.
  apply gc_root_new_runs; [done|apply load_word_size|done].
Qed.

Lemma gc_root_destroy_runs a w rs :
  root_place a → may_run me w = true → root_ranges w ≡ₚ root_range a :: rs →
  runs (gc_root_destroy me env a) (λ r w', r = Ok tt ∧ effect 0 0 w w' ∧ root_ranges w' ≡ₚ rs) w.
Proof.
  intros Ha Hrun Hrs. destruct (place_range a Ha) as (Hz & He & Hn).
  unfold gc_root_destroy, unregister_self, unregister_root_object. rewrite Hz. apply runs_noexcept. unfold runs.
  rewrite unregister_root_range_ok, He, Hn by done. split_and!; [done|by repeat split|]. simpl.
  apply (Permutation_cons_inv (a := root_range a)). rewrite erase_first_perm; [done|].
  rewrite Hrs. left.
Qed.

(** *** Sequences of elements *)

Definition slots (first : Z) (n : nat) : list Z := slot first <$> seq 0 n.

Definition root_places (first : Z) (n : nat) : Prop := ∀ i, (i < n)%nat → root_place (slot first i).

Lemma slot_S first i : slot (first + sizeof_gc_root) i = slot first (S i).
Proof. unfold slot, sizeof_gc_root. lia. Qed.

Lemma slot_0 first : slot first 0 = first.
Proof. unfold slot. lia. Qed.

Lemma slot_add first i j : slot (slot first i) j = slot first (i + j).
Proof. unfold slot. lia. Qed.

Lemma slots_cons first n : slots first (S n) = first :: slots (first + sizeof_gc_root) n.
Proof.
  unfold slots. rewrite <-cons_seq, <-fmap_S_seq. csimpl. rewrite slot_0. f_equal.
  rewrite <-list_fmap_compose. apply list_fmap_ext. intros i j _. simpl. by rewrite slot_S.
Qed.

Lemma slots_snoc first n : slots first (S n) = slots first n ++ [slot first n].
Proof. unfold slots. by rewrite seq_S, fmap_app. Qed.

Lemma slots_app first n m : slots first (n + m) = slots first n ++ slots (slot first n) m.
Proof.
  induction m as [|m IH]; [by rewrite Nat.add_0_r, app_nil_r|].
  replace (n + S m)%nat with (S (n + m)) by lia. by rewrite !slots_snoc, IH, slot_add, app_assoc.
Qed.

Lemma root_places_tail first n : root_places first (S n) → root_places (first + sizeof_gc_root) n.
Proof. intros H i Hi. rewrite slot_S. apply H. lia. Qed.

Lemma destroy_slots_runs n first w rs :
  root_places first n → may_run me w = true → root_ranges w ≡ₚ (root_range <$> slots first n) ++ rs →
  runs (destroy_slots me env first n) (λ r w', r = Ok tt ∧ effect 0 0 w w' ∧ root_ranges w' ≡ₚ rs) w.
Proof.
  revert first w. induction n as [|n IH]; intros first w Hp Hrun Hrs; cbn [destroy_slots].
  { split_and!; [done|apply effect_refl|done]. }
  rewrite slots_cons in Hrs. csimpl in Hrs. apply runs_bind. eapply runs_mono; [|apply gc_root_destroy_runs; [|done|exact Hrs]].
  2:{ rewrite <-(slot_0 first). apply Hp. lia. }
  intros r w1 (-> & He & Hr). eapply runs_mono; [|apply IH; [by apply root_places_tail| |exact Hr]].
  - intros r' w2 (-> & He' & Hr'). split_and!; [done|by eapply effect_trans|done].
  - by eapply effect_may_run.
Qed.
(** The pointers in [n] slots. *)
Definition words (w : World) (first : Z) (n : nat) : list Z := load_word (mem w) <$> slots first n.

Lemma words_change keep w w' first n :
  change keep w w' → (∀ i, (i < n)%nat → keep (slot first i)) → words w' first n = words w first n.
Proof.
  intros Hc Hd. apply list_fmap_ext. intros i a Ha. apply list_lookup_fmap_Some in Ha as (j & -> & Hj).
  apply lookup_seq in Hj as [-> Hj]. apply (ch_mem _ _ _ Hc), Hd. lia.
Qed.

Lemma words_snoc w first n : words w first (S n) = words w first n ++ [load_word (mem w) (slot first n)].
Proof. unfold words. by rewrite slots_snoc, fmap_app. Qed.

Lemma words_app w first n m : words w first (n + m) = words w first n ++ words w (slot first n) m.
Proof. unfold words. by rewrite slots_app, fmap_app. Qed.

Lemma words_length w first n : length (words w first n) = n.
Proof. unfold words, slots. by rewrite !length_fmap, length_seq. Qed.

(** Element [i] is constructed with [f i], from any world the construction of
    the others leads to. *)
Definition constructs (construct : nat → Z → proc unit) (first : Z) (n : nat) (f : nat → Z) (w0 : World) : Prop :=
  ∀ i w, (i < n)%nat → may_run me w = true → effect first (slot first n) w0 w →
    runs (construct i (slot first i)) (λ r w', effect (slot first i) (slot first (S i)) w w' ∧
      match r with
      | Ok _ => load_word (mem w') (slot first i) = f i ∧
          root_ranges w' ≡ₚ root_range (slot first i) :: root_ranges w
      | Raise e => e = bad_alloc ∧ may_fail w ∧ root_ranges w' = root_ranges w
      end) w.

Lemma slot_succ first i : slot first (S i) = slot first i + word_size.
Proof. unfold slot, sizeof_gc_root, word_size. lia. Qed.

Section Construct.
Context (construct : nat → Z → proc unit) (first : Z) (n : nat) (f : nat → Z) (w0 : World).
Context (Hplaces : root_places first n) (Hrun : may_run me w0 = true) (Hc : constructs construct first n f w0).

Lemma construct_slots_from m i w :
  (i + m)%nat = n → effect first (slot first n) w0 w → words w first i = f <$> seq 0 i →
  root_ranges w ≡ₚ (root_range <$> slots first i) ++ root_ranges w0 →
  runs (construct_slots me env construct first i m) (λ r w', effect first (slot first n) w0 w' ∧
    match r with
    | Ok _ => words w' first n = f <$> seq 0 n ∧ root_ranges w' ≡ₚ (root_range <$> slots first n) ++ root_ranges w0
    | Raise e => e = bad_alloc ∧ may_fail w0 ∧ root_ranges w' ≡ₚ root_ranges w0
    end) w.
Proof.
  revert i w. induction m as [|m IH]; intros i w Hn He Hw Hr; cbn [construct_slots].
  { replace n with i by lia. split; [by replace i with n by lia|done]. }
  pose proof (effect_may_run me _ _ _ _ He Hrun) as Hrun'.
  assert (∀ w1, effect (slot first i) (slot first (S i)) w w1 → effect first (slot first n) w0 w1) as He'.
  { intros w1 H1. eapply effect_trans; [exact He|]. eapply effect_mono, H1.
    unfold slot, sizeof_gc_root. lia. }
  apply runs_bind_result. eapply runs_mono; [|apply (Hc i w); [lia|done..]].
  intros [[]|e] w1 (H1 & Hpost).
  - destruct Hpost as [Hl Hr1]. apply IH; [lia|by apply He'| |].
    + rewrite words_snoc, seq_S, fmap_app, Hl. f_equal.
      rewrite (words_change _ _ _ _ _ (ef_change _ _ _ _ H1)); [done|].
      intros j Hj. unfold outside, slot, sizeof_gc_root, word_size. lia.
    + rewrite slots_snoc, fmap_app, Hr1, Hr, <-app_assoc. by rewrite Permutation_middle.
  - destruct Hpost as (-> & Hf & Hr1). apply runs_bind.
    eapply runs_mono; [|apply (destroy_slots_runs i first w1 (root_ranges w0))].
    + intros r w2 (-> & H2 & Hr2). apply runs_raise. split_and!; [|done| |done].
      * eapply effect_trans; [by apply He'|]. eapply effect_mono, H2. lia.
      * by apply (ch_oom _ _ _ (ef_change _ _ _ _ He)).
    + intros j Hj. apply Hplaces. lia.
    + by eapply effect_may_run.
    + by rewrite Hr1.
Qed.

Lemma construct_slots_runs :
  runs (construct_slots me env construct first 0 n) (λ r w', effect first (slot first n) w0 w' ∧
    match r with
    | Ok _ => words w' first n = f <$> seq 0 n ∧ root_ranges w' ≡ₚ (root_range <$> slots first n) ++ root_ranges w0
    | Raise e => e = bad_alloc ∧ may_fail w0 ∧ root_ranges w' ≡ₚ root_ranges w0
    end) w0.
Proof. apply construct_slots_from; [done|apply effect_refl|done..]. Qed.
End Construct.

Lemma constructs_new p first n w0 :
  is_size p → root_places first n → constructs (λ _ a, gc_root_new me env a p) first n (λ _, p) w0.
Proof.
  intros Hp Hplaces i w Hi Hrun He. eapply runs_mono; [|apply gc_root_new_runs; [by apply Hplaces|done..]].
  rewrite slot_succ. intros [[]|e] w' (H1 & H2 & H3); done.
Qed.

(** A source that the constructions do not overwrite. *)
Lemma constructs_copy (src : nat → Z) first n w0 :
  root_places first n → (∀ i, (i < n)%nat → outside first (slot first n) (src i)) →
  constructs (λ i a, gc_root_copy me env a (src i)) first n (λ i, load_word (mem w0) (src i)) w0.
Proof.
  intros Hplaces Hsrc i w Hi Hrun He. eapply runs_mono; [|apply gc_root_copy_runs; [by apply Hplaces|done]].
  rewrite slot_succ, (ch_mem _ _ _ (ef_change _ _ _ _ He) (src i) (Hsrc i Hi)).
  intros [[]|e] w' (H1 & H2 & H3); done.
Qed.
(** Pointer assignments change words only. *)
Lemma write_word_effect a p w :
  is_size p → let w' := set_mem (λ m, store_word m a p) w in
  effect a (a + word_size) w w' ∧ root_ranges w' = root_ranges w ∧ load_word (mem w') a = p.
Proof.
  intros Hp. split_and!; [|done|by apply load_store_word_eq]. split; [|done]. split; [done..|]. intros x Hx. simpl.
  apply load_store_word_disjoint. unfold outside, word_size in *. lia.
Qed.

Lemma gc_root_assign_runs a b w :
  a ≠ b →
  runs (gc_root_assign a b) (λ r w', r = Ok tt ∧ effect a (a + word_size) w w' ∧ root_ranges w' = root_ranges w ∧
    load_word (mem w') a = load_word (mem w) b) w.
Proof.
  intros Hab. unfold gc_root_assign. destruct (Z.eqb_spec a b); [done|].
  apply runs_bind, runs_atomic, runs_atomic. split; [done|]. apply write_word_effect, load_word_size.
Qed.

Lemma gc_root_move_assign_runs a b w :
  a + word_size <= b ∨ b + word_size <= a →
  runs (gc_root_move_assign a b) (λ r w', r = Ok tt ∧ root_ranges w' = root_ranges w ∧ blocks w' = blocks w ∧
    change (λ x, outside a (a + word_size) x ∧ outside b (b + word_size) x) w w' ∧
    load_word (mem w') a = load_word (mem w) b) w.
Proof.
  intros Hab. unfold gc_root_move_assign. destruct (Z.eqb_spec a b); [unfold word_size in *; lia|].
  apply runs_bind, runs_atomic. apply runs_bind, runs_atomic, runs_atomic.
  destruct (write_word_effect a (load_word (mem w) b) w (load_word_size _ _)) as (H1 & _ & Hl).
  set (w1 := set_mem (λ m, store_word m a (load_word (mem w) b)) w) in *.
  destruct (write_word_effect b 0 w1 ltac:(unfold is_size, SIZE_MAX; lia)) as (H2 & _ & _).
  split_and!; [done..| |].
  - eapply change_trans; [|exact (ef_change _ _ _ _ H1)|exact (ef_change _ _ _ _ H2)]. done.
  - rewrite (ch_mem _ _ _ (ef_change _ _ _ _ H2)); [done|]. unfold outside. lia.
Qed.

(** The elements from [first] on, moved down to [result]. *)
Lemma move_slots_runs n result first w :
  result + word_size <= first →
  runs (move_slots result first n) (λ r w', r = Ok tt ∧ root_ranges w' = root_ranges w ∧
    effect result (slot first n) w w' ∧ words w' result n = words w first n) w.
Proof.
  revert result first w. induction n as [|n IH]; intros result first w Hd; cbn [move_slots].
  { split_and!; [done|done|apply effect_refl|done]. }
  apply runs_bind. eapply runs_mono; [|by apply gc_root_move_assign_runs; left].
  intros r w1 (-> & Hr & Hb & Hc & Hl). eapply runs_mono; [|apply (IH (result + sizeof_gc_root) (first + sizeof_gc_root) w1)].
  2:{ unfold sizeof_gc_root. lia. }
  intros r w2 (-> & Hr2 & H2 & Hw2). rewrite slot_S in H2.
  split_and!; [done|congruence| |].
  - eapply (effect_trans _ _ _ w1); [split; [eapply change_mono, Hc|done]|eapply effect_mono, H2].
    + intros a. unfold outside, slot, sizeof_gc_root, word_size in *. lia.
    + unfold sizeof_gc_root. lia.
  - unfold words in *. rewrite !slots_cons. csimpl. f_equal.
    + rewrite (ch_mem _ _ _ (ef_change _ _ _ _ H2)); [done|]. unfold outside, sizeof_gc_root, word_size. lia.
    + rewrite Hw2. eapply (words_change _ w w1); [exact Hc|]. intros i Hi.
      unfold outside, slot, sizeof_gc_root, word_size in *. lia.
Qed.

Lemma assign_slots_runs n result first w :
  slot result n <= first ∨ slot first n <= result →
  runs (assign_slots result first n) (λ r w', r = Ok tt ∧ root_ranges w' = root_ranges w ∧
    effect result (slot result n) w w' ∧ words w' result n = words w first n) w.
Proof.
  revert result first w. induction n as [|n IH]; intros result first w Hd; cbn [assign_slots].
  { split_and!; [done|done|apply effect_refl|done]. }
  apply runs_bind. eapply runs_mono; [|apply gc_root_assign_runs]; [|unfold slot, sizeof_gc_root in Hd; lia].
  intros r w1 (-> & H1 & Hr & Hl). eapply runs_mono; [|apply (IH (result + sizeof_gc_root) (first + sizeof_gc_root) w1)].
  2:{ unfold slot, sizeof_gc_root in *. lia. }
  intros r w2 (-> & Hr2 & H2 & Hw2). rewrite slot_S in H2. split_and!; [done|congruence| |].
  - eapply (effect_trans _ _ _ w1); [eapply effect_mono, H1|eapply effect_mono, H2];
      unfold slot, sizeof_gc_root, word_size; lia.
  - unfold words in *. rewrite !slots_cons. csimpl. f_equal.
    + rewrite (ch_mem _ _ _ (ef_change _ _ _ _ H2)); [done|]. unfold outside, sizeof_gc_root, word_size. lia.
    + rewrite Hw2. eapply (words_change _ w w1); [apply H1|]. intros i Hi.
      unfold outside, slot, sizeof_gc_root, word_size in *. lia.
Qed.

Lemma words_take w first n i : (i <= n)%nat → take i (words w first n) = words w first i.
Proof.
  intros Hi. replace n with (i + (n - i))%nat by lia. rewrite words_app, take_app_le by by rewrite words_length.
  by rewrite take_ge by by rewrite words_length.
Qed.

Lemma words_drop w first n i : (i <= n)%nat → drop i (words w first n) = words w (slot first i) (n - i).
Proof.
  intros Hi. replace n with (i + (n - i))%nat at 1 by lia. rewrite words_app, drop_app_ge by by rewrite words_length.
  by rewrite words_length, Nat.sub_diag.
Qed.

(** ** Storage *)

(** The storage blocks with one more of [n] elements at [p]; none when [n] is 0. *)
Definition grant (p n : Z) (bs : gmap Z (Z * Z)) : gmap Z (Z * Z) :=
  if p =? 0 then bs else <[p := (sizeof_gc_root * n, default_new_alignment)]> bs.

Definition place (p n : Z) : Prop :=
  (n = 0 ∧ p = 0) ∨ (0 < n ∧ 0 < p ∧ (word_size | p) ∧ p + sizeof_gc_root * n <= 2 ^ 63).

Definition ungranted (p : Z) (bs : gmap Z (Z * Z)) : Prop := p ≠ 0 → bs !! p = None.

Lemma place_root_places p n first m :
  place p n → p <= first → slot first m <= p + sizeof_gc_root * n → root_places first m.
Proof.
  unfold place, root_places, root_place, slot, sizeof_gc_root, SIZE_MAX. intros Hp H1 H2 i Hi. lia.
Qed.

Lemma deallocate_runs p n w bs :
  blocks w = grant p n bs → ungranted p bs →
  runs (deallocate p) (λ r w', r = Ok tt ∧ change (λ _, True) w w' ∧ blocks w' = bs ∧
    root_ranges w' = root_ranges w) w.
Proof.
  unfold deallocate, grant, ungranted. intros Hb Hn. destruct (Z.eqb_spec p 0) as [->|Hp].
  { apply runs_ret. split_and!; [done|apply change_refl|done|done]. }
  apply runs_atomic. unfold operator_delete. rewrite Hb, lookup_insert_eq, Z.eqb_refl.
  split_and!; [done|by split| |done]. simpl. rewrite Hb. apply delete_insert_id, Hn, Hp.
Qed.

Lemma release_storage_runs v w bs rs :
  root_places (data_ v) (size_ v) → may_run me w = true →
  root_ranges w ≡ₚ (root_range <$> slots (data_ v) (size_ v)) ++ rs →
  blocks w = grant (data_ v) (capacity_ v) bs → ungranted (data_ v) bs →
  runs (release_storage me env v) (λ r w', r = Ok tt ∧ change (λ _, True) w w' ∧ blocks w' = bs ∧
    root_ranges w' ≡ₚ rs) w.
Proof.
  intros Hp Hrun Hr Hb Hn. unfold release_storage. apply runs_bind.
  eapply runs_mono; [|by apply destroy_slots_runs]. intros r w1 (-> & [H1 Hb1] & Hr1).
  eapply runs_mono; [|apply (deallocate_runs _ (capacity_ v) _ bs); [by rewrite Hb1|done]].
  intros r w2 (-> & H2 & Hb2 & Hr2). split_and!; [done| |done|by rewrite Hr2].
  eapply change_trans; [|exact H1|exact H2]. intros a _. unfold outside. lia.
Qed.

Context {ALLOC : Allocator}.

(** Words that no storage allocated now can contain. *)
Definition unavailable (w : World) (a : Z) : Prop := ∀ n p,
  new_address w n default_new_alignment = Some p → outside p (p + n) a.

Definition exhausted : Prop := ∃ w n, new_address w n default_new_alignment = None.

Lemma outstanding_unavailable w q m b a :
  blocks w !! q = Some (m, b) → q <= a → a + word_size <= q + m → unavailable w a.
Proof.
  intros Hq Ha Hm n p Hp. destruct (new_address_fresh _ _ _ _ _ _ _ Hp Hq) as [_ ?]. unfold outside. lia.
Qed.

Lemma allocate_runs n w :
  0 <= n →
  runs (allocate n) (λ r w', match r with
    | Ok p => w' = set_blocks (grant p n) w ∧ place p n ∧ ungranted p (blocks w) ∧
        (∀ a, unavailable w a → outside p (p + sizeof_gc_root * n) a)
    | Raise e => e = bad_alloc ∧ exhausted ∧ w' = w
    end) w.
Proof.
  intros Hn. unfold allocate. destruct (Z.eqb_spec n 0) as [->|Hn0].
  { apply runs_ret. split_and!; [by destruct w|by left|by intros []|]. unfold outside, sizeof_gc_root. lia. }
  apply runs_atomic. unfold operator_new.
  destruct (new_address w (sizeof_gc_root * n) default_new_alignment) as [p|] eqn:E; [|by split_and!; [|eexists _, _|]].
  pose proof (new_address_pos _ _ _ _ E) as Hp.
  assert (grant p n = <[p := (sizeof_gc_root * n, default_new_alignment)]>) as Hg.
  { unfold grant. destruct (Z.eqb_spec p 0); [lia|done]. }
  rewrite Hg. split_and!; [done| | |].
  - right. split_and!; [lia|done| |by eapply new_address_low].
    transitivity default_new_alignment; [by exists 2|by eapply new_address_aligned].
  - intros _. destruct (blocks w !! p) as [[m b]|] eqn:Eb; [|done].
    by destruct (new_address_fresh _ _ _ _ _ _ _ E Eb).
  - intros a Ha. by apply Ha.
Qed.

Lemma change_set_blocks keep f w : change keep w (set_blocks f w).
Proof. by split. Qed.

(** Storage whose elements are all constructed, or none is left. *)
Lemma allocate_and_construct_runs capacity construct n f w :
  Z.of_nat n <= capacity → may_run me w = true →
  (∀ p w1, place p capacity → (∀ a, unavailable w a → outside p (p + sizeof_gc_root * capacity) a) →
     mem w1 = mem w → constructs construct p n f w1) →
  runs (allocate_and_construct me env capacity construct n) (λ r w', change (unavailable w) w w' ∧
    match r with
    | Ok p => place p capacity ∧ ungranted p (blocks w) ∧ blocks w' = grant p capacity (blocks w) ∧
        (∀ a, unavailable w a → outside p (p + sizeof_gc_root * capacity) a) ∧
        words w' p n = f <$> seq 0 n ∧ root_ranges w' ≡ₚ (root_range <$> slots p n) ++ root_ranges w
    | Raise e => e = bad_alloc ∧ (may_fail w ∨ exhausted) ∧ blocks w' = blocks w ∧ root_ranges w' ≡ₚ root_ranges w
    end) w.
Proof.
  intros Hn Hrun Hc. unfold allocate_and_construct. apply runs_bind.
  eapply runs_mono; [|apply allocate_runs; lia]. intros [p|e] w1.
  2:{ intros (-> & Hx & ->). split_and!; [apply change_refl|auto..]. }
  intros (-> & Hp & Hu & Ha). set (w1 := set_blocks (grant p capacity) w).
  assert (∀ w2, effect p (slot p n) w1 w2 → change (unavailable w) w w2) as Hch.
  { intros w2 [H2 _]. eapply (change_trans _ (unavailable w) _ w w1); [|apply change_set_blocks|exact H2].
    intros a Hua. split; [done|]. specialize (Ha a Hua). unfold outside, slot, sizeof_gc_root, word_size in *. lia. }
  apply runs_bind_result. eapply runs_mono; [|apply (construct_slots_runs construct p n f w1); [|done|by apply Hc]].
  2:{ eapply place_root_places; [done|lia|]. unfold slot, sizeof_gc_root. lia. }
  intros [[]|e] w2 (H2 & Hpost).
  - destruct Hpost as [Hw Hr]. apply runs_ret. split_and!; [by apply Hch|done|done| |done|done|done].
    by rewrite (ef_blocks _ _ _ _ H2).
  - destruct Hpost as (-> & Hf & Hr). apply runs_bind.
    eapply runs_mono; [|apply (deallocate_runs p capacity w2 (blocks w)); [by rewrite (ef_blocks _ _ _ _ H2)|done]].
    intros r w3 (-> & H3 & Hb & Hr3). apply runs_raise. split_and!; [|done|by left|done|by rewrite Hr3].
    eapply change_trans; [|by apply Hch|exact H3]. done.
Qed.
End Elements.
