(* ===== verification/VectorSpec.v ===== *)
(** * Vectors of roots: what the operations do

    [vector_ok] relates a vector to the world: its storage is outstanding and
    the ranges of its elements are registered; [contents] are the pointers in
    it.  [vector_post] is what an operation leads to: another vector with the
    contents it should have, or an exception and the vector as it was. *)

From S2P Require Import Prelude Words Memory OrdMap Chunk Manager Heap Scanner Mark Finalize.
From S2P Require Import WeakRefs Sweep Threads Collect CollectSpec Roots Alloc Handles GcNew Vector Slots.

Section Vectors.
Context {ASAN : AsanRuntime} {ALLOC : Allocator} (me : thread_id) (env : ParkEnv).

(** In a world with the other roots [rs] and the other storage [bs]. *)
Record vector_ok (w : World) (v : vector) (rs : list RootRange) (bs : gmap Z (Z * Z)) : Prop := {
  vo_size : Z.of_nat (size_ v) <= capacity_ v <= max_size;
  vo_place : place (data_ v) (capacity_ v);
  vo_fresh : ungranted (data_ v) bs;
  vo_blocks : blocks w = grant (data_ v) (capacity_ v) bs;
  vo_roots : root_ranges w ≡ₚ (root_range <$> slots (data_ v) (size_ v)) ++ rs;
}.

Definition contents (w : World) (v : vector) : list Z := words w (data_ v) (size_ v).

Definition storage_end (v : vector) : Z := data_ v + sizeof_gc_root * capacity_ v.

(** What an operation on [v] keeps of the words of others. *)
Definition others (w : World) (v : vector) (a : Z) : Prop :=
  unavailable w a ∧ outside (data_ v) (storage_end v) a.

Lemma vector_slots w v rs bs first n :
  vector_ok w v rs bs → data_ v <= first → slot first n <= storage_end v → root_places first n.
Proof. intros [_ Hp _ _ _]. by apply place_root_places. Qed.

(** The storage of a vector is not available. *)
Lemma vector_unavailable w v rs bs a :
  vector_ok w v rs bs → data_ v <= a → a + word_size <= storage_end v → unavailable w a.
Proof.
  intros [_ Hp _ Hb _] Ha He. unfold storage_end, word_size in *.
  destruct (Z.eqb_spec (data_ v) 0) as [E|Hne]; [unfold place, sizeof_gc_root in *; lia|].
  eapply outstanding_unavailable; [|exact Ha|exact He]. rewrite Hb. unfold grant.
  destruct (Z.eqb_spec (data_ v) 0); [done|]. apply lookup_insert_eq.
Qed.

Lemma slots_in_storage v i : Z.of_nat (size_ v) <= capacity_ v → (i < size_ v)%nat →
  data_ v <= slot (data_ v) i ∧ slot (data_ v) i + word_size <= slot (data_ v) (size_ v) ∧
  slot (data_ v) (size_ v) <= storage_end v.
Proof. unfold slot, storage_end, sizeof_gc_root, word_size. lia. Qed.
(** What an operation leads to: the new contents, or the vector as it was. *)
Definition vector_post (w : World) (v : vector) (rs : list RootRange) (bs : gmap Z (Z * Z)) (vs : list Z)
    (Q : vector → Prop) (E : exn → Prop) (r : result vector) (w' : World) : Prop :=
  change (others w v) w w' ∧
  match r with
  | Ok v' => vector_ok w' v' rs bs ∧ contents w' v' = vs ∧ Q v'
  | Raise e => E e ∧ vector_ok w' v rs bs ∧ contents w' v = contents w v
  end.

Definition no_memory (w : World) (e : exn) : Prop := e = bad_alloc ∧ (may_fail w ∨ exhausted).

Section Operations.
Context {GROWTH : VectorGrowth}.
Context (w : World) (v : vector) (rs : list RootRange) (bs : gmap Z (Z * Z)).
Context (Hrun : may_run me w = true) (Hv : vector_ok w v rs bs).

Definition own_places := λ first n, vector_slots w v rs bs first n Hv.

(** Copies of the elements, anywhere in new storage. *)
Lemma copies_elsewhere first m w1 :
  (m <= size_ v)%nat → root_places first m → words w1 (data_ v) m = words w (data_ v) m →
  (∀ a, unavailable w a → outside first (slot first m) a) →
  constructs me (copy_slot me env (data_ v)) first m (λ i, load_word (mem w) (slot (data_ v) i)) w1.
Proof.
  intros Hm Hp Hw Ha. pose proof (vo_size _ _ _ _ Hv) as Hs.
  assert (∀ i, (i < m)%nat → load_word (mem w1) (slot (data_ v) i) = load_word (mem w) (slot (data_ v) i)) as Hl.
  { intros i Hi. apply (f_equal (.!! i)) in Hw. unfold words, slots in Hw.
    rewrite !list_lookup_fmap, !lookup_seq_lt in Hw by done. by injection Hw. }
  intros i w2 Hi Hrun2 He. rewrite <-Hl by done.
  apply (constructs_copy me env (slot (data_ v)) first m w1); try done.
  intros j Hj. apply Ha. destruct (slots_in_storage v j) as (?&?&?); [lia..|].
  eapply vector_unavailable; [exact Hv|lia|lia].
Qed.

Lemma words_seq (w1 : World) first n f :
  words w1 first n = f <$> seq 0 n ↔ ∀ i, (i < n)%nat → load_word (mem w1) (slot first i) = f i.
Proof.
  unfold words, slots. split.
  - intros H i Hi. apply (f_equal (.!! i)) in H. rewrite !list_lookup_fmap, !lookup_seq_lt in H by done.
    by injection H.
  - intros H. rewrite <-list_fmap_compose. apply list_fmap_ext. intros i j [-> Hi]%lookup_seq. by apply H.
Qed.

Lemma contents_seq : contents w v = (λ i, load_word (mem w) (slot (data_ v) i)) <$> seq 0 (size_ v).
Proof. by apply words_seq. Qed.

(** The contents survive what writes neither to them nor to available words. *)
Lemma contents_kept w' : change (unavailable w) w w' → contents w' v = contents w v.
Proof.
  intros Hc. eapply words_change; [exact Hc|]. intros i Hi. pose proof (vo_size _ _ _ _ Hv).
  destruct (slots_in_storage v i) as (?&?&?); [lia..|]. eapply vector_unavailable; [exact Hv|lia|lia].
Qed.

Lemma keep_others w' : change (unavailable w) w w' → change (others w v) w w'.
Proof. apply change_mono. by intros a []. Qed.

(** New storage with a copy of the elements. *)
Lemma reallocate_runs capacity (m : nat) :
  (m <= size_ v)%nat → Z.of_nat m <= capacity →
  runs (allocate_and_construct me env capacity (copy_slot me env (data_ v)) m)
    (λ r w', change (unavailable w) w w' ∧
    match r with
    | Ok p => place p capacity ∧ ungranted p (blocks w) ∧ blocks w' = grant p capacity (blocks w) ∧
        (∀ a, unavailable w a → outside p (p + sizeof_gc_root * capacity) a) ∧
        words w' p m = words w (data_ v) m ∧ root_ranges w' ≡ₚ (root_range <$> slots p m) ++ root_ranges w
    | Raise e => no_memory w e ∧ vector_ok w' v rs bs ∧ contents w' v = contents w v
    end) w.
Proof.
  intros Hm Hcap. eapply runs_mono; [|apply (allocate_and_construct_runs me env capacity (copy_slot me env (data_ v)) m
    (λ i, load_word (mem w) (slot (data_ v) i))); [done|done|]].
  - intros [p|e] w' (Hc & Hpost).
    + destruct Hpost as (? & ? & ? & ? & Hw & ?). split_and!; try done. rewrite Hw. symmetry. by apply words_seq.
    + destruct Hpost as (-> & Hf & Hb & Hr). split_and!; [done|done| |by apply contents_kept].
      destruct Hv. split; [done..|by rewrite Hb|by rewrite Hr].
  - intros p w1 Hp Ha Hmem. apply copies_elsewhere; [done| |unfold words; by rewrite Hmem|].
    + eapply place_root_places; [done|lia|]. unfold slot, sizeof_gc_root. lia.
    + intros a Hua. specialize (Ha a Hua). unfold outside, slot, sizeof_gc_root in *. lia.
Qed.

(** The old storage goes; the new one, with [n] elements at [p], takes its place. *)
Lemma replace_runs p capacity n w1 :
  place p capacity → ungranted p (blocks w) → Z.of_nat n <= capacity <= max_size →
  change (unavailable w) w w1 → blocks w1 = grant p capacity (blocks w) →
  root_ranges w1 ≡ₚ (root_range <$> slots p n) ++ root_ranges w →
  runs (release_storage me env v;; mret {| data_ := p; size_ := n; capacity_ := capacity |})
    (λ r w', r = Ok {| data_ := p; size_ := n; capacity_ := capacity |} ∧ change (unavailable w) w w' ∧
       vector_ok w' {| data_ := p; size_ := n; capacity_ := capacity |} rs bs ∧
       ∀ first m, words w' first m = words w1 first m) w1.
Proof.
  intros Hp Hu Hn Hc Hb Hr. destruct Hv as [Hs Hpl Hf Hbl Hro]. apply runs_bind.
  assert (data_ v ≠ 0 → p ≠ data_ v) as Hne.
  { intros Hd E. rewrite E in Hu. specialize (Hu Hd). rewrite Hbl in Hu. unfold grant in Hu.
    destruct (Z.eqb_spec (data_ v) 0); [done|]. by rewrite lookup_insert_eq in Hu. }
  eapply runs_mono; [|apply (release_storage_runs me env v w1 (grant p capacity bs) ((root_range <$> slots p n) ++ rs))].
  - intros r w2 (-> & H2 & Hb2 & Hr2). apply runs_ret. split_and!; [done| | |].
    + by eapply change_trans; [|exact Hc|exact H2].
    + split; simpl; [done|done| |done|done]. intros Hp0. specialize (Hu Hp0). rewrite Hbl in Hu. unfold grant in Hu.
      destruct (data_ v =? 0); [done|]. by apply lookup_insert_None in Hu as [? _].
    + intros first m. eapply words_change; [exact H2|]. done.
  - apply own_places; [lia|]. unfold storage_end, slot, sizeof_gc_root. lia.
  - by eapply change_may_run.
  - rewrite Hr, Hro. rewrite !app_assoc. f_equiv. by rewrite Permutation_app_comm.
  - rewrite Hb, Hbl. unfold grant. destruct (Z.eqb_spec p 0), (Z.eqb_spec (data_ v) 0); try done.
    by rewrite insert_insert_ne by auto.
  - intros Hd. unfold grant. destruct (Z.eqb_spec p 0); [by apply Hf|].
    rewrite lookup_insert_ne by auto. by apply Hf.
Qed.
Lemma vector_same_post (Q : vector → Prop) (E : exn → Prop) :
  Q v → vector_post w v rs bs (contents w v) Q E (Ok v) w.
Proof. intros HQ. by split; [apply change_refl|]. Qed.

Lemma vector_reserve_runs n :
  runs (vector_reserve me env v n)
    (vector_post w v rs bs (contents w v) (λ v', capacity_ v' = Z.max (capacity_ v) n ∧ ∀ a, others w v a → outside (data_ v') (storage_end v') a)
       (λ e, (e = length_error ∧ max_size < n) ∨ no_memory w e)) w.
Proof.
  pose proof (vo_size _ _ _ _ Hv) as Hs. unfold vector_reserve. destruct (Z.ltb_spec max_size n).
  { apply runs_raise. split; [apply change_refl|auto]. }
  destruct (Z.ltb_spec (capacity_ v) n); [|apply runs_ret, vector_same_post; split; [lia|by intros a []]].
  apply runs_bind. eapply runs_mono; [|apply reallocate_runs; lia]. intros [p|e] w1 (Hc & Hpost).
  - destruct Hpost as (Hp & Hu & Hb & Ha & Hw & Hr).
    eapply runs_mono; [|apply (replace_runs p n (size_ v) w1); try done; lia].
    intros r w2 (-> & Hc2 & Hok & Hws). split; [by apply keep_others|]. split_and!; [done| |simpl; lia|].
    + unfold contents. simpl. by rewrite Hws.
    + intros a [Hua _]. by apply Ha.
  - destruct Hpost as (He & Hok & Hcon). split; [by apply keep_others|auto].
Qed.

Lemma vector_shrink_to_fit_runs :
  runs (vector_shrink_to_fit me env v)
    (vector_post w v rs bs (contents w v)
       (λ v', capacity_ v' = Z.of_nat (size_ v) ∨ v' = v ∧ (may_fail w ∨ exhausted)) (λ _, False)) w.
Proof.
  pose proof (vo_size _ _ _ _ Hv) as Hs. unfold vector_shrink_to_fit.
  destruct (Z.eqb_spec (capacity_ v) (Z.of_nat (size_ v))); [apply runs_ret, vector_same_post; by left|].
  apply runs_bind_result. eapply runs_mono; [|apply reallocate_runs; lia]. intros [p|e] w1 (Hc & Hpost).
  - destruct Hpost as (Hp & Hu & Hb & Ha & Hw & Hr).
    eapply runs_mono; [|apply (replace_runs p (Z.of_nat (size_ v)) (size_ v) w1); try done; lia].
    intros r w2 (-> & Hc2 & Hok & Hws). split; [by apply keep_others|]. split_and!; [done| |by left].
    unfold contents. simpl. by rewrite Hws.
  - destruct Hpost as ([_ He] & Hok & Hcon). apply runs_ret. split; [by apply keep_others|auto].
Qed.

(** *** New elements at the end *)

(** The constructions only read words that neither the tail nor new storage
    covers. *)
Definition builds (construct : nat → Z → proc unit) (n : nat) (f : nat → Z) : Prop :=
  ∀ first w1, root_places first n → mem w1 = mem w →
    (∀ a, unavailable w a → outside (slot (data_ v) (size_ v)) (storage_end v) a → outside first (slot first n) a) →
    constructs me construct first n f w1.

Definition vector_extend_error (n : Z) (e : exn) : Prop :=
  (e = length_error ∧ max_size < Z.of_nat (size_ v) + n) ∨ no_memory w e.

Lemma keep_storage w' : change (outside (data_ v) (storage_end v)) w w' → change (others w v) w w'.
Proof. apply change_mono. by intros a []. Qed.

(** With room left, in place. *)
Lemma extend_in_place construct n f :
  Z.of_nat n <= capacity_ v - Z.of_nat (size_ v) →
  constructs me construct (slot (data_ v) (size_ v)) n f w →
  runs (construct_slots me env construct (slot (data_ v) (size_ v)) 0 n) (λ r w',
    change (outside (data_ v) (storage_end v)) w w' ∧ words w' (data_ v) (size_ v) = contents w v ∧
    match r with
    | Ok _ => let v' := {| data_ := data_ v; size_ := size_ v + n; capacity_ := capacity_ v |} in
        vector_ok w' v' rs bs ∧ contents w' v' = contents w v ++ (f <$> seq 0 n)
    | Raise e => no_memory w e ∧ vector_ok w' v rs bs
    end) w.
Proof.
  intros Hn Hc. pose proof (vo_size _ _ _ _ Hv) as Hs. set (tail := slot (data_ v) (size_ v)).
  assert (data_ v <= tail ∧ slot tail n <= storage_end v) as [Ht He].
  { unfold tail, slot, storage_end, sizeof_gc_root. lia. }
  eapply runs_mono; [|apply (construct_slots_runs me env construct tail n f w); [by apply own_places|done|done]].
  intros r w' (H & Hpost).
  assert (words w' (data_ v) (size_ v) = contents w v) as Hcon.
  { eapply words_change; [apply H|]. intros i Hi. destruct (slots_in_storage v i) as (?&?&?); [lia..|].
    left. unfold tail. lia. }
  split_and!; [|done|].
  { eapply change_mono; [|apply H]. intros a Ho. unfold outside, tail, slot, storage_end, sizeof_gc_root in *. lia. }
  destruct r as [[]|e].
  - destruct Hpost as [Hw Hr]. split; [|unfold contents at 1; simpl; rewrite words_app; by f_equal].
    destruct Hv as [_ ??? Hro]. split; simpl; [lia|done|done|by rewrite (ef_blocks _ _ _ _ H)|].
    rewrite Hr, Hro, slots_app, fmap_app, !app_assoc. f_equiv. by rewrite Permutation_app_comm.
  - destruct Hpost as (-> & Hf & Hr). split; [by split; [|left]|].
    destruct Hv. split; [done..|by rewrite (ef_blocks _ _ _ _ H)|by rewrite Hr].
Qed.

(** New storage that is not needed after all. *)
Lemma give_back_runs p capacity w1 vs Q n :
  ungranted p (blocks w) → change (unavailable w) w w1 → blocks w1 = grant p capacity (blocks w) →
  root_ranges w1 ≡ₚ root_ranges w → may_fail w →
  runs (deallocate p;; raise bad_alloc) (vector_post w v rs bs vs Q (vector_extend_error n)) w1.
Proof.
  intros Hu Hc Hb Hr Hf. apply runs_bind. eapply runs_mono; [|by apply (deallocate_runs p capacity w1 (blocks w))].
  intros r w2 (-> & H2 & Hb2 & Hr2). apply runs_raise.
  assert (change (unavailable w) w w2) as Hc2 by by eapply change_trans; [|exact Hc|exact H2].
  split; [by apply keep_others|]. split_and!; [by right; split; [|left]| |by apply contents_kept].
  destruct Hv. split; [done..|by rewrite Hb2|by rewrite Hr2, Hr].
Qed.

Section Reallocating.
Context (p capacity : Z) (n : nat) (f : nat → Z) (Q : vector → Prop) (w2 : World).
Let tail := slot p (size_ v).
Context (Hp : place p capacity) (Hu : ungranted p (blocks w)) (Hcap : Z.of_nat (size_ v) + Z.of_nat n <= capacity <= max_size).
Context (Ha : ∀ a, unavailable w a → outside p (p + sizeof_gc_root * capacity) a).
Context (Hc2 : change (unavailable w) w w2) (Hb2 : blocks w2 = grant p capacity (blocks w)).
Context (Hw2 : words w2 tail n = f <$> seq 0 n) (Hr2 : root_ranges w2 ≡ₚ (root_range <$> slots tail n) ++ root_ranges w).
Context (HQ : Q {| data_ := p; size_ := size_ v + n; capacity_ := capacity |}).

Lemma tail_outside a : unavailable w a → outside p tail a ∧ outside tail (slot tail n) a.
Proof. intros Hua. specialize (Ha a Hua). unfold outside, tail, slot, sizeof_gc_root, word_size in *. lia. Qed.

(** The new elements are in place: the old ones follow. *)
Lemma extend_copies_runs n' :
  runs (bind_result (construct_slots me env (copy_slot me env (data_ v)) p 0 (size_ v)) (λ r,
          match r with
          | Raise e => destroy_slots me env tail n;; deallocate p;; raise e
          | Ok _ => release_storage me env v;; mret {| data_ := p; size_ := size_ v + n; capacity_ := capacity |}
          end))
    (vector_post w v rs bs (contents w v ++ (f <$> seq 0 n)) Q (vector_extend_error n')) w2.
Proof.
  assert (root_places p (size_ v) ∧ root_places tail n) as [Hpp Hpt].
  { split; (eapply place_root_places; [exact Hp|unfold tail, slot, sizeof_gc_root; lia|
      unfold tail, slot, sizeof_gc_root; lia]). }
  assert (may_run me w2 = true) as Hrun2 by by eapply change_may_run.
  apply runs_bind_result. eapply runs_mono; [|apply (construct_slots_runs me env (copy_slot me env (data_ v)) p (size_ v)
    (λ i, load_word (mem w) (slot (data_ v) i)) w2); [done|done|]].
  2:{ apply copies_elsewhere; [done|done|by apply contents_kept|]. intros a Hua. by apply tail_outside. }
  intros r w3 (H3 & Hpost3).
  assert (change (unavailable w) w w3) as Hc3.
  { eapply (change_trans _ (unavailable w) _ w w2); [|exact Hc2|apply H3]. intros a Hua. split; [done|by apply tail_outside]. }
  assert (blocks w3 = grant p capacity (blocks w)) as Hb3 by by rewrite (ef_blocks _ _ _ _ H3).
  destruct r as [[]|e].
  - destruct Hpost3 as [Hw3 Hr3].
    eapply runs_mono; [|apply (replace_runs p capacity (size_ v + n) w3); try done; [lia|]].
    + intros r w4 (-> & Hc4 & Hok & Hws). split; [by apply keep_others|]. split_and!; [done| |done].
      unfold contents at 1. simpl. rewrite Hws, words_app, Hw3, contents_seq. f_equal.
      rewrite <-Hw2. eapply words_change; [apply H3|]. intros i Hi. unfold outside, tail, slot, sizeof_gc_root. lia.
    + rewrite Hr3, Hr2, slots_app, fmap_app. by rewrite !app_assoc.
  - destruct Hpost3 as (-> & Hf & Hr3). apply runs_bind.
    eapply runs_mono; [|apply (destroy_slots_runs me env n tail w3 (root_ranges w)); [done| |by rewrite Hr3]].
    + intros r w4 (-> & H4 & Hr4). apply (give_back_runs p capacity); [done| | |done|by apply (ch_oom _ _ _ Hc2)].
      * eapply change_trans; [|exact Hc3|apply H4]. intros a Hua. split; [done|]. unfold outside. lia.
      * by rewrite (ef_blocks _ _ _ _ H4).
    + by eapply change_may_run.
Qed.
End Reallocating.

Lemma vector_extend_runs construct n f :
  0 < n → builds construct (Z.to_nat n) f →
  runs (vector_extend me env construct n v)
    (vector_post w v rs bs (contents w v ++ (f <$> seq 0 (Z.to_nat n)))
       (λ v', n <= capacity_ v - Z.of_nat (size_ v) → data_ v' = data_ v ∧ capacity_ v' = capacity_ v)
       (vector_extend_error n)) w.
Proof.
  intros Hn Hc. pose proof (vo_size _ _ _ _ Hv) as Hs. unfold vector_extend.
  destruct (Z.leb_spec n (capacity_ v - Z.of_nat (size_ v))).
  { apply runs_bind. eapply runs_mono; [|apply (extend_in_place construct _ f); [lia|]].
    - intros [[]|e] w' (Hch & Hcon & Hpost); apply keep_storage in Hch; (split; [done|]).
      + destruct Hpost as [? ?]. done.
      + destruct Hpost as [? ?]. split_and!; [by right|done|done].
    - apply Hc; [apply own_places; unfold slot, storage_end, sizeof_gc_root; lia|done|].
      intros a _ Ho. unfold outside, slot, storage_end, sizeof_gc_root in *. lia. }
  destruct (Z.ltb_spec (max_size - Z.of_nat (size_ v)) n).
  { apply runs_raise. split; [apply change_refl|]. split; [left; split; [done|lia]|done]. }
  destruct (next_capacity_ok (Z.of_nat (size_ v)) n) as [Hcap Hmax]; [lia..|].
  set (capacity := next_capacity (Z.of_nat (size_ v)) n) in *. apply runs_bind.
  eapply runs_mono; [|apply allocate_runs; lia]. intros [p|e] w1.
  2:{ intros (-> & Hx & ->). split; [apply change_refl|]. split_and!; [right; split; [done|by right]|done..]. }
  intros (-> & Hp & Hu & Ha). set (w1 := set_blocks (grant p capacity) w). set (tail := slot p (size_ v)).
  pose proof (tail_outside p capacity (Z.to_nat n) ltac:(lia) Ha) as Ho. fold tail in Ho.
  apply runs_bind_result. eapply runs_mono; [|apply (construct_slots_runs me env construct tail (Z.to_nat n) f w1); [|done|]].
  2:{ eapply place_root_places; [exact Hp|unfold tail, slot, sizeof_gc_root; lia|unfold tail, slot, sizeof_gc_root; lia]. }
  2:{ apply Hc; [|done|]; [|intros a Hua _; by apply Ho].
      eapply place_root_places; [exact Hp|unfold tail, slot, sizeof_gc_root; lia|unfold tail, slot, sizeof_gc_root; lia]. }
  intros r w2 (H2 & Hpost2).
  assert (change (unavailable w) w w2) as Hc2.
  { eapply (change_trans _ (unavailable w) _ w w1); [|apply change_set_blocks|apply H2]. intros a Hua. split; [done|by apply Ho]. }
  assert (blocks w2 = grant p capacity (blocks w)) as Hb2 by by rewrite (ef_blocks _ _ _ _ H2).
  destruct r as [[]|e]; destruct Hpost2 as [H2a H2b].
  - apply extend_copies_runs; try done; lia.
  - destruct H2b as [Hf Hr]. subst e. by apply (give_back_runs p capacity).
Qed.
(** *** Fewer elements *)

Lemma erase_at_end_runs count w1 :
  (count <= size_ v)%nat → change (others w v) w w1 → blocks w1 = blocks w → root_ranges w1 = root_ranges w →
  runs (erase_at_end me env v count)
    (vector_post w v rs bs (words w1 (data_ v) count) (λ v', data_ v' = data_ v ∧ capacity_ v' = capacity_ v)
       (λ _, False)) w1.
Proof.
  intros Hcount Hc Hb Hr. pose proof (vo_size _ _ _ _ Hv) as Hs. unfold erase_at_end. apply runs_bind.
  eapply runs_mono; [|apply (destroy_slots_runs me env (size_ v - count) (slot (data_ v) count) w1
    ((root_range <$> slots (data_ v) count) ++ rs))].
  - intros r w2 (-> & [H2 Hb2] & Hr2). apply runs_ret. split.
    { eapply change_trans; [|exact Hc|exact H2]. intros a Ha. split; [done|]. unfold outside. lia. }
    split_and!; [|by eapply words_change; [exact H2|intros; unfold outside; lia]|done..].
    destruct Hv as [_ ??? Hro]. split; simpl; [lia|done|done|congruence|done].
  - apply own_places; unfold slot, storage_end, sizeof_gc_root; lia.
  - by eapply change_may_run.
  - rewrite Hr, (vo_roots _ _ _ _ Hv). replace (size_ v) with (count + (size_ v - count))%nat at 1 by lia.
    rewrite slots_app, fmap_app, !app_assoc. f_equiv. by rewrite Permutation_app_comm.
Qed.

Lemma erase_tail_runs count :
  (count <= size_ v)%nat →
  runs (erase_at_end me env v count)
    (vector_post w v rs bs (take count (contents w v)) (λ v', data_ v' = data_ v ∧ capacity_ v' = capacity_ v)
       (λ _, False)) w.
Proof.
  intros Hc. unfold contents. rewrite words_take by done. apply erase_at_end_runs; [done|apply change_refl|done..].
Qed.

Lemma vector_resize_runs count :
  0 <= count →
  runs (vector_resize me env v count)
    (vector_post w v rs bs (take (Z.to_nat count) (contents w v) ++ replicate (Z.to_nat count - size_ v) 0)
       (λ v', count <= capacity_ v → data_ v' = data_ v ∧ capacity_ v' = capacity_ v)
       (λ e, (e = length_error ∧ max_size < count) ∨ no_memory w e)) w.
Proof.
  intros Hcount. unfold vector_resize. destruct (Z.ltb_spec (Z.of_nat (size_ v)) count).
  - rewrite take_ge by (unfold contents; rewrite words_length; lia).
    eapply runs_mono; [|apply (vector_extend_runs _ _ (λ _, 0)); [lia|]].
    + intros r w' [Hch Hpost]. split; [done|].
      replace (replicate (Z.to_nat count - size_ v) 0) with ((λ _ : nat, 0) <$> seq 0 (Z.to_nat (count - Z.of_nat (size_ v)))).
      2:{ replace (Z.to_nat (count - Z.of_nat (size_ v))) with (Z.to_nat count - size_ v)%nat by lia.
          rewrite (const_fmap _ _ 0) by done. by rewrite length_seq. }
      destruct r as [v'|e]; destruct Hpost as (H1 & H2 & H3); split_and!; try done; [intros; apply H3; lia|].
      destruct H1 as [[-> ?]|?]; [left; split; [done|lia]|by right].
    + intros first w1 Hp _ _. apply constructs_new; [unfold is_size, SIZE_MAX; lia|done].
  - replace (Z.to_nat count - size_ v)%nat with 0%nat by lia. rewrite app_nil_r.
    eapply runs_mono; [|apply erase_tail_runs; lia]. intros [v'|e] w' [Hch Hpost]; (split; [done|]).
    + destruct Hpost as (? & ? & ?). done.
    + by destruct Hpost.
Qed.

Lemma vector_pop_back_runs :
  size_ v ≠ 0%nat →
  runs (vector_pop_back me env v)
    (vector_post w v rs bs (take (size_ v - 1) (contents w v)) (λ v', data_ v' = data_ v ∧ capacity_ v' = capacity_ v)
       (λ _, False)) w.
Proof.
  intros Hs. unfold vector_pop_back. destruct (size_ v) as [|n] eqn:E; [done|].
  replace (S n - 1)%nat with n by lia. apply erase_tail_runs. lia.
Qed.

Lemma vector_erase_range_runs first last :
  (first <= last)%nat → (last <= size_ v)%nat →
  runs (vector_erase_range me env v first last)
    (vector_post w v rs bs (take first (contents w v) ++ drop last (contents w v))
       (λ v', data_ v' = data_ v ∧ capacity_ v' = capacity_ v) (λ _, False)) w.
Proof.
  intros Hfl Hl. pose proof (vo_size _ _ _ _ Hv) as Hs. unfold vector_erase_range.
  rewrite (proj2 (Nat.leb_le _ _) Hfl), (proj2 (Nat.leb_le _ _) Hl). simpl.
  destruct (Nat.eqb_spec first last) as [->|Hne]; [rewrite take_drop; by apply runs_ret, vector_same_post|].
  apply runs_bind. eapply runs_mono; [|apply move_slots_runs].
  2:{ unfold slot, sizeof_gc_root, word_size. lia. }
  intros r w1 (-> & Hr & H1 & Hw).
  replace (take first (contents w v) ++ drop last (contents w v))
    with (words w1 (data_ v) (first + (size_ v - last))).
  - apply erase_at_end_runs; [lia| |apply H1|done]. eapply change_mono; [|apply H1].
    intros a [_ Ha]. unfold outside, slot, storage_end, sizeof_gc_root in *. lia.
  - unfold contents. rewrite words_take, words_drop by lia. rewrite words_app, Hw. f_equal.
    eapply words_change; [apply H1|]. intros i Hi. unfold outside, slot, sizeof_gc_root, word_size. lia.
Qed.
(** *** Giving everything up *)

Lemma vector_release_runs :
  runs (release_storage me env v) (λ r w', r = Ok tt ∧ change (λ _, True) w w' ∧ blocks w' = bs ∧
    root_ranges w' ≡ₚ rs) w.
Proof.
  destruct Hv as [Hs Hp Hf Hb Hr]. apply release_storage_runs; try done.
  apply own_places; [lia|]. unfold slot, storage_end, sizeof_gc_root. lia.
Qed.

Lemma vector_destroy_runs :
  runs (vector_destroy me env v) (λ r w', r = Ok tt ∧ change (λ _, True) w w' ∧ blocks w' = bs ∧
    root_ranges w' ≡ₚ rs) w.
Proof. apply runs_noexcept. eapply runs_mono; [|apply vector_release_runs]. by intros r w' (-> & ? & ? & ?). Qed.

Lemma vector_move_assign_runs other :
  runs (vector_move_assign me env v other) (λ r w', r = Ok (other, vector_empty) ∧ change (λ _, True) w w' ∧
    blocks w' = bs ∧ root_ranges w' ≡ₚ rs) w.
Proof.
  apply runs_noexcept, runs_bind. eapply runs_mono; [|apply vector_release_runs].
  by intros r w' (-> & ? & ? & ?).
Qed.
(** *** One element *)

Lemma emplace_back_runs p :
  is_size p →
  runs (emplace_back me env v p)
    (vector_post w v rs bs (contents w v ++ [p])
       (λ v', Z.of_nat (size_ v) < capacity_ v → data_ v' = data_ v ∧ capacity_ v' = capacity_ v)
       (vector_extend_error 1)) w.
Proof.
  intros Hp. eapply runs_mono; [|apply (vector_extend_runs _ 1 (λ _, p)); [done|]].
  - intros [v'|e] w' [Hch Hpost]; (split; [done|]); [|done]. destruct Hpost as (? & ? & HQ).
    split_and!; [done..|]. intros ?. apply HQ. lia.
  - intros first w1 Hpl _ _. by apply constructs_new.
Qed.

(** The copied handle may be an element, or anything outside the storage. *)
Lemma push_back_runs root :
  unavailable w root → outside (slot (data_ v) (size_ v)) (storage_end v) root →
  runs (push_back me env v root)
    (vector_post w v rs bs (contents w v ++ [load_word (mem w) root])
       (λ v', Z.of_nat (size_ v) < capacity_ v → data_ v' = data_ v ∧ capacity_ v' = capacity_ v)
       (vector_extend_error 1)) w.
Proof.
  intros Hu Ho. eapply runs_mono; [|apply (vector_extend_runs _ 1 (λ _, load_word (mem w) root)); [done|]].
  - intros [v'|e] w' [Hch Hpost]; (split; [done|]); [|done]. destruct Hpost as (? & ? & HQ).
    split_and!; [done..|]. intros ?. apply HQ. lia.
  - intros first w1 Hpl Hm Hd. rewrite <-Hm. apply (constructs_copy me env (λ _, root)); [done|].
    intros i _. by apply Hd.
Qed.

(** *** Copy assignment *)

Section CopyAssign.
Context (other : vector) (rs' : list RootRange) (bs' : gmap Z (Z * Z)).
Context (Ho : vector_ok w other rs' bs').
Context (Hapart : storage_end v <= data_ other ∨ storage_end other <= data_ v).

Lemma other_slot i : (i < size_ other)%nat → others w v (slot (data_ other) i).
Proof.
  intros Hi. destruct (slots_in_storage other i (proj1 (vo_size _ _ _ _ Ho)) Hi) as (?&?&?). split.
  - eapply vector_unavailable; [exact Ho|lia|lia].
  - unfold outside. lia.
Qed.

Definition copy_assign_post (r : result vector) (w' : World) : Prop :=
  change (others w v) w w' ∧
  match r with
  | Ok v' => vector_ok w' v' rs bs ∧ contents w' v' = contents w other
  | Raise e => no_memory w e ∧ vector_ok w' v rs bs ∧
      (contents w' v = contents w v ∨ contents w' v = take (size_ v) (contents w other))
  end.

(** The elements that both vectors have room for. *)
Lemma assign_common_runs n :
  (n <= size_ v)%nat → (n <= size_ other)%nat →
  runs (assign_slots (data_ v) (data_ other) n) (λ r w', r = Ok tt ∧ change (outside (data_ v) (storage_end v)) w w' ∧
    blocks w' = blocks w ∧ root_ranges w' = root_ranges w ∧ words w' (data_ v) n = words w (data_ other) n) w.
Proof.
  intros Hn Hn'. pose proof (vo_size _ _ _ _ Hv). pose proof (vo_size _ _ _ _ Ho).
  eapply runs_mono; [|apply assign_slots_runs].
  - intros r w' (-> & Hr & H1 & Hw). split_and!; [done| |apply H1|done|done]. eapply change_mono; [|apply H1].
    intros a Ha. unfold outside, slot, storage_end, sizeof_gc_root in *. lia.
  - unfold slot, storage_end, sizeof_gc_root in *. lia.
Qed.

Lemma copy_assign_reallocates :
  capacity_ v < Z.of_nat (size_ other) →
  runs (data ← allocate_and_construct me env (Z.of_nat (size_ other)) (copy_slot me env (data_ other)) (size_ other);
        release_storage me env v;;
        mret {| data_ := data; size_ := size_ other; capacity_ := Z.of_nat (size_ other) |}) copy_assign_post w.
Proof.
  intros Hcap. pose proof (vo_size _ _ _ _ Ho) as Hos. apply runs_bind.
  eapply runs_mono; [|apply (allocate_and_construct_runs me env _ (copy_slot me env (data_ other)) (size_ other)
    (λ i, load_word (mem w) (slot (data_ other) i)) w); [lia|done|]].
  - intros [p|e] w1 [Hc Hpost].
    + destruct Hpost as (Hp & Hu & Hb & Ha & Hw & Hr).
      eapply runs_mono; [|apply (replace_runs p (Z.of_nat (size_ other)) (size_ other) w1); try done; lia].
      intros r w2 (-> & Hc2 & Hok & Hws). split; [by apply keep_others|]. split; [done|].
      unfold contents at 1. simpl. rewrite Hws, Hw. symmetry. by apply words_seq.
    + destruct Hpost as (-> & Hf & Hb & Hr). split; [by apply keep_others|]. split_and!; [done| |].
      * destruct Hv. split; [done..|by rewrite Hb|by rewrite Hr].
      * left. by apply contents_kept.
  - intros p w1 Hp Ha Hmem. rewrite <-Hmem. apply (constructs_copy me env (slot (data_ other))).
    + eapply place_root_places; [exact Hp|lia|unfold slot, sizeof_gc_root; lia].
    + intros i Hi. specialize (Ha _ (proj1 (other_slot i Hi))).
      unfold outside, slot, sizeof_gc_root, word_size in *. lia.
Qed.
End CopyAssign.
End Operations.
Section CopyAssign.
Context {GROWTH : VectorGrowth} (w : World) (v other : vector) (rs rs' : list RootRange) (bs bs' : gmap Z (Z * Z)).
Context (Hrun : may_run me w = true) (Hv : vector_ok w v rs bs) (Ho : vector_ok w other rs' bs').
Context (Hapart : storage_end v <= data_ other ∨ storage_end other <= data_ v).

(** More elements than before, in the storage there is. *)
Lemma copy_assign_extends :
  (size_ v < size_ other)%nat → Z.of_nat (size_ other) <= capacity_ v →
  runs (assign_slots (data_ v) (data_ other) (size_ v);;
        construct_slots me env (copy_slot me env (slot (data_ other) (size_ v))) (slot (data_ v) (size_ v)) 0 (size_ other - size_ v);;
        mret {| data_ := data_ v; size_ := size_ other; capacity_ := capacity_ v |})
    (copy_assign_post w v rs bs other) w.
Proof.
  intros Hlt Hcap. apply runs_bind.
  eapply runs_mono; [|apply (assign_common_runs w v rs bs Hv other rs' bs' Ho Hapart); lia].
  intros r w1 (-> & Hc & Hb & Hr & Hw).
  assert (vector_ok w1 v rs bs) as Hv1 by (destruct Hv; split; [done..|by rewrite Hb|by rewrite Hr]).
  assert (contents w1 v = take (size_ v) (contents w other)) as Hcon.
  { unfold contents. rewrite words_take by lia. done. }
  set (n := (size_ other - size_ v)%nat). assert (size_ other = (size_ v + n)%nat) as Hn by lia.
  set (f := λ i, load_word (mem w1) (slot (slot (data_ other) (size_ v)) i)).
  assert (∀ i, (i < n)%nat → others w v (slot (slot (data_ other) (size_ v)) i)) as Hoth.
  { intros i Hi. rewrite slot_add. apply (other_slot w v other rs' bs' Ho Hapart). lia. }
  apply runs_bind. eapply runs_mono; [|apply (extend_in_place w1 v rs bs (change_may_run _ _ _ _ Hc Hrun) Hv1 _ n f); [lia|]].
  - intros r w2 (Hc2 & Hcv & Hpost).
    assert (change (others w v) w w2) as Hc3.
    { apply keep_storage. eapply change_trans; [|exact Hc|exact Hc2]. done. }
    destruct r as [[]|e]; (split; [done|]).
    + destruct Hpost as [Hok Hall]. rewrite Hn. split; [done|]. rewrite Hall, Hcon.
      rewrite <-(take_drop (size_ v) (contents w other)) at 2. f_equal.
      unfold contents. rewrite words_drop by lia. symmetry. apply words_seq. intros i Hi.
      symmetry. apply (ch_mem _ _ _ Hc), Hoth. unfold n in *. lia.
    + destruct Hpost as [[-> Hf] Hok]. split_and!; [|done|right; by rewrite <-Hcon].
      split; [done|]. destruct Hf as [Hf|]; [left; by apply (ch_oom _ _ _ Hc)|by right].
  - apply (constructs_copy me env (slot (slot (data_ other) (size_ v)))).
    + eapply vector_slots; [exact Hv|..]; unfold slot, storage_end, sizeof_gc_root; lia.
    + intros i [_ Ha]%Hoth. unfold outside, slot, storage_end, sizeof_gc_root in *. lia.
Qed.

Lemma vector_copy_assign_runs :
  runs (vector_copy_assign me env v other) (copy_assign_post w v rs bs other) w.
Proof.
  unfold vector_copy_assign. destruct (Z.ltb_spec (capacity_ v) (Z.of_nat (size_ other))).
  { by eapply copy_assign_reallocates. }
  destruct (Nat.leb_spec (size_ other) (size_ v)); [|by apply copy_assign_extends].
  apply runs_bind. eapply runs_mono; [|apply (assign_common_runs w v rs bs Hv other rs' bs' Ho Hapart); lia].
  intros r w1 (-> & Hc & Hb & Hr & Hw).
  eapply runs_mono; [|apply (erase_at_end_runs w v rs bs Hrun Hv (size_ other) w1); [lia|by apply keep_storage|done..]].
  intros [v'|e] w2 [Hc2 Hpost]; (split; [done|]); [|by destruct Hpost].
  destruct Hpost as (Hok & Hcon & _). split; [done|]. by rewrite Hcon, Hw.
Qed.
End CopyAssign.

(** ** New vectors *)

Section New.
Context (w : World) (Hrun : may_run me w = true).

(** No vector: nothing is left of it. *)
Definition new_post (vs : list Z) (E : exn → Prop) (r : result vector) (w' : World) : Prop :=
  change (unavailable w) w w' ∧
  match r with
  | Ok v => vector_ok w' v (root_ranges w) (blocks w) ∧ contents w' v = vs
  | Raise e => E e ∧ root_ranges w' ≡ₚ root_ranges w ∧ blocks w' = blocks w
  end.

Lemma vector_empty_ok : vector_ok w vector_empty (root_ranges w) (blocks w).
Proof. split; simpl; [done|by left|by intros []|done|done]. Qed.

Lemma new_vector_runs capacity construct n f :
  Z.of_nat n <= capacity <= max_size →
  (∀ p w1, place p capacity → (∀ a, unavailable w a → outside p (p + sizeof_gc_root * capacity) a) →
     mem w1 = mem w → constructs me construct p n f w1) →
  runs (data ← allocate_and_construct me env capacity construct n;
        mret {| data_ := data; size_ := n; capacity_ := capacity |}) (new_post (f <$> seq 0 n) (no_memory w)) w.
Proof.
  intros Hn Hc. apply runs_bind. eapply runs_mono; [|apply (allocate_and_construct_runs me env capacity construct n f w);
    [lia|done|done]].
  intros [p|e] w1 [Hch Hpost]; (split; [done|]).
  - destruct Hpost as (Hp & Hu & Hb & Ha & Hw & Hr). by split.
  - destruct Hpost as (-> & Hf & Hb & Hr). done.
Qed.

Lemma vector_count_runs count :
  0 <= count →
  runs (vector_count me env count) (new_post (replicate (Z.to_nat count) 0)
    (λ e, (e = length_error ∧ max_size < count) ∨ no_memory w e)) w.
Proof.
  intros Hcount. unfold vector_count. destruct (Z.ltb_spec max_size count).
  { apply runs_raise. split; [apply change_refl|auto]. }
  eapply runs_mono; [|apply (new_vector_runs count (default_slot me env) (Z.to_nat count) (λ _, 0)); [lia|]].
  - rewrite (const_fmap _ _ 0) by done. rewrite length_seq. intros [v|e] w' [Hch Hpost]; (split; [done|]); [done|].
    destruct Hpost; auto.
  - intros p w1 Hp Ha _. apply constructs_new; [unfold is_size, SIZE_MAX; lia|].
    eapply place_root_places; [exact Hp|lia|unfold slot, sizeof_gc_root; lia].
Qed.

Lemma vector_copy_runs v rs bs :
  vector_ok w v rs bs → runs (vector_copy me env v) (new_post (contents w v) (no_memory w)) w.
Proof.
  intros Hv. pose proof (vo_size _ _ _ _ Hv). unfold vector_copy. rewrite (contents_seq w v).
  apply new_vector_runs; [lia|]. intros p w1 Hp Ha Hmem.
  apply (copies_elsewhere w v rs bs Hv); [done| |unfold words; by rewrite Hmem|].
  - eapply place_root_places; [exact Hp|lia|unfold slot, sizeof_gc_root; lia].
  - intros a Hua. specialize (Ha a Hua). unfold outside, slot, sizeof_gc_root in *. lia.
Qed.

(** The initializer list; when an element throws, the vector goes. *)
Lemma emplace_all_runs {GROWTH : VectorGrowth} rs bs pointers v w1 :
  vector_ok w1 v rs bs → may_run me w1 = true → Forall (λ p, is_size (gc_ptr_get p)) pointers →
  Z.of_nat (length pointers) <= capacity_ v - Z.of_nat (size_ v) →
  runs (emplace_all me env v pointers) (λ r w', change (outside (data_ v) (storage_end v)) w1 w' ∧
    match r with
    | Ok v' => vector_ok w' v' rs bs ∧ contents w' v' = contents w1 v ++ (gc_ptr_get <$> pointers)
    | Raise e => no_memory w1 e ∧ root_ranges w' ≡ₚ rs ∧ blocks w' = bs
    end) w1.
Proof.
  revert v w1. induction pointers as [|p pointers IH]; intros v w1 Hv Hrun1 Hp Hroom; cbn [emplace_all].
  { apply runs_ret. split; [apply change_refl|]. by rewrite app_nil_r. }
  apply Forall_cons in Hp as [Hp Hps]. pose proof (vo_size _ _ _ _ Hv). simpl in Hroom.
  apply runs_bind_result. unfold emplace_back, vector_extend.
  destruct (Z.leb_spec 1 (capacity_ v - Z.of_nat (size_ v))); [|lia].
  apply runs_bind. eapply runs_mono; [|apply (extend_in_place w1 v rs bs Hrun1 Hv _ 1 (λ _, gc_ptr_get p)); [lia|]].
  2:{ apply constructs_new; [done|]. eapply vector_slots; [exact Hv|..]; unfold slot, storage_end, sizeof_gc_root; lia. }
  intros [[]|e] w2 (Hc & Hcon & Hpost).
  - destruct Hpost as [Hok Hall]. apply runs_ret. set (v2 := {| data_ := data_ v |}) in *.
    eapply runs_mono; [|apply (IH v2 w2 Hok); [by eapply change_may_run|done|simpl; lia]].
    intros r w3 [Hc3 Hpost3]. split; [by eapply change_trans; [|exact Hc|exact Hc3]|].
    destruct r as [v3|e].
    + destruct Hpost3 as [Hok3 ->]. split; [done|]. by rewrite Hall, <-app_assoc.
    + destruct Hpost3 as ([-> Hf] & Hpost3). split; [|done]. split; [done|].
      destruct Hf; [left; by apply (ch_oom _ _ _ Hc)|by right].
  - destruct Hpost as [He Hok]. apply runs_bind.
    eapply runs_mono; [|apply (vector_destroy_runs w2 v rs bs); [by eapply change_may_run|done]].
    intros r w3 (-> & Hc3 & Hb & Hr). apply runs_raise. split; [|done]. by eapply change_trans; [|exact Hc|exact Hc3].
Qed.

Lemma gc_vector_list_runs {GROWTH : VectorGrowth} pointers :
  Forall (λ p, is_size (gc_ptr_get p)) pointers →
  runs (gc_vector_list me env pointers) (new_post (gc_ptr_get <$> pointers)
    (λ e, (e = length_error ∧ max_size < Z.of_nat (length pointers)) ∨ no_memory w e)) w.
Proof.
  intros Hp. unfold gc_vector_list. apply runs_bind_result.
  eapply runs_mono; [|apply (vector_reserve_runs w vector_empty _ _ Hrun vector_empty_ok)].
  assert (∀ w', change (others w vector_empty) w w' → change (unavailable w) w w') as Hk.
  { intros w'. apply change_mono. intros a Ha. split; [done|]. unfold outside, storage_end, sizeof_gc_root. simpl. lia. }
  intros [v|e] w1 [Hc Hpost]; apply Hk in Hc.
  - destruct Hpost as (Hok & Hcon & Hcap & Hout).
    assert (size_ v = 0%nat) as Hs.
    { apply (f_equal length) in Hcon. unfold contents in Hcon. by rewrite !words_length in Hcon. }
    eapply runs_mono; [|apply (emplace_all_runs _ _ pointers v w1 Hok); [by eapply change_may_run|done|]].
    2:{ rewrite Hs, Hcap. lia. }
    intros r w2 [Hc2 Hpost2]. split.
    { eapply (change_trans _ (unavailable w)); [|exact Hc|exact Hc2]. intros a Ha. split; [done|].
      apply Hout. split; [done|]. unfold outside, storage_end, sizeof_gc_root. simpl. lia. }
    destruct r as [v2|e].
    + destruct Hpost2 as [Hok2 ->]. by rewrite Hcon.
    + destruct Hpost2 as ([-> Hf] & Hr & Hb). split_and!; [|done|done]. right. split; [done|].
      destruct Hf; [left; by apply (ch_oom _ _ _ Hc)|by right].
  - destruct Hpost as (He & Hok & _). apply runs_bind.
    eapply runs_mono; [|apply (vector_destroy_runs w1 vector_empty (root_ranges w) (blocks w)); [by eapply change_may_run|done]].
    intros r w2 (-> & Hc2 & Hb & Hr). apply runs_raise. split; [by eapply change_trans; [|exact Hc|exact Hc2]|]. done.
Qed.
End New.
End Vectors.
