(* ===== verification/Rooted.v ===== *)
(** * What stays true while a process runs

    [stable I p]: every action of [p] keeps [I], from whatever world the other
    threads have made of it meanwhile, as long as they keep [I] too.  The
    instance is [rooted created p]: the local root of [emplace_new] stays
    registered, and keeps its pointer, through all of the insertion. *)

From S2P Require Import Prelude Words Memory OrdMap Chunk Manager Heap Scanner Mark Finalize WeakRefs.
From S2P Require Import Sweep Threads Protocol Collect CollectSpec Roots Alloc Handles GcNew Vector Slots VectorSpec.

Section Stable.
Context (I : World → Prop).

(** An action keeps [I] and ends as [Q] says; a process likewise. *)
Definition act_stable {A} (act : M World A) (Q : result A → Prop) : Prop :=
  ∀ w r w', I w → yields act w r w' → I w' ∧ Q r.

Fixpoint stable {A} (p : proc A) (Q : result A → Prop) : Prop :=
  match p with
  | Done r => Q r
  | Atomic _ act k => act_stable act (λ r, stable (k r) Q)
  end.

(** A step of the process, or anything of others that keeps [I]. *)
Definition interfered {A} (c c' : proc A * World) : Prop :=
  pstep c c' ∨ (c'.1 = c.1 ∧ (I c.2 → I c'.2)).

Lemma stable_interfered {A} (p p' : proc A) w w' Q :
  stable p Q → I w → rtc interfered (p, w) (p', w') → I w' ∧ stable p' Q.
Proof.
  intros Hp Hw Hs. remember (p, w) as c eqn:Ec. remember (p', w') as c' eqn:Ec'.
  induction Hs as [c|c [p1 w1] c2 Hs _ IH] in p, w, Hp, Hw, Ec, Ec' |- *; [by simplify_eq|subst c].
  apply (IH p1 w1); [| |done..]; destruct Hs as [Hs|[E HI]]; simpl in *; subst; auto.
  - inversion Hs as [X g a k w0 x w2 Hg Ha E1 E2|X g a k w0 e w2 Hg Ha E1 E2]; subst.
    + by apply (Hp w (Ok x) w1).
    + by apply (Hp w (Raise e) w1).
  - inversion Hs as [X g a k w0 x w2 Hg Ha E1 E2|X g a k w0 e w2 Hg Ha E1 E2]; subst.
    + by apply (Hp w (Ok x) w1).
    + by apply (Hp w (Raise e) w1).
Qed.

Lemma act_stable_mono {A} (act : M World A) (Q Q' : result A → Prop) :
  (∀ r, Q r → Q' r) → act_stable act Q → act_stable act Q'.
Proof. intros HQ Ha w r w' Hw Hy. destruct (Ha w r w' Hw Hy). auto. Qed.

Lemma stable_mono {A} (p : proc A) (Q Q' : result A → Prop) : (∀ r, Q r → Q' r) → stable p Q → stable p Q'.
Proof.
  intros HQ. induction p as [r|X g act k IH]; simpl; [apply HQ|]. apply act_stable_mono. intros r. apply IH.
Qed.

Lemma stable_bind_result {A B} (p : proc A) (f : result A → proc B) Q :
  stable p (λ r, stable (f r) Q) → stable (bind_result p f) Q.
Proof.
  induction p as [r|X g act k IH]; simpl; [done|]. apply act_stable_mono. intros r. apply IH.
Qed.

Lemma stable_bind {A B} (p : proc A) (f : A → proc B) Q :
  stable p (λ r, match r with Ok a => stable (f a) Q | Raise e => Q (Raise e) end) → stable (p ≫= f) Q.
Proof. intros Hp. apply stable_bind_result. eapply stable_mono, Hp. by intros [a|e]. Qed.

Lemma stable_atomic {A} (act : M World A) Q : act_stable act Q → stable (atomic act) Q.
Proof. apply act_stable_mono. by intros []. Qed.

Lemma act_stable_bind {A B} (m : M World A) (f : A → M World B) Q :
  act_stable m (λ r, match r with Ok a => act_stable (f a) Q | Raise e => Q (Raise e) end) → act_stable (m ≫= f) Q.
Proof.
  intros Hm w r w' Hw Hy. unfold yields, mbind, M_bind in Hy. destruct (m w) as [a w1|e w1|why] eqn:E.
  - destruct (Hm w (Ok a) w1 Hw E) as [Hw1 Hf]. by apply (Hf w1 r w').
  - destruct (Hm w (Raise e) w1 Hw E) as [Hw1 HQ]. destruct r; by simplify_eq.
  - by destruct r.
Qed.

Lemma act_stable_ret {A} (a : A) (Q : result A → Prop) : Q (Ok a) → act_stable (mret a) Q.
Proof. intros HQ w r w' Hw. destruct r; intros [= <- <-]; done. Qed.

Lemma act_stable_get (Q : result World → Prop) : (∀ w, Q (Ok w)) → act_stable get Q.
Proof. intros HQ w r w' Hw. destruct r; intros [= <- <-]; done. Qed.

Lemma act_stable_gets {A} (f : World → A) (Q : result A → Prop) : (∀ a, Q (Ok a)) → act_stable (gets f) Q.
Proof. intros HQ w r w' Hw. destruct r; intros [= <- <-]; done. Qed.

Lemma act_stable_modify f (Q : result unit → Prop) :
  (∀ w, I w → I (f w)) → Q (Ok tt) → act_stable (modify f) Q.
Proof. intros Hf HQ w r w' Hw. destruct r as [[]|]; intros [= <-]; auto. Qed.

Lemma act_stable_native_alloc (Q : result unit → Prop) :
  (∀ o w, I w → I (with_oom o w)) → (∀ r, Q r) → act_stable native_alloc Q.
Proof.
  intros Ho HQ w r w' Hw Hy. split; [|apply HQ]. unfold yields in Hy.
  destruct (native_alloc_cases w) as [(o & E & _)|(o & E & _)]; rewrite E in Hy; destruct r; simplify_eq; by apply Ho.
Qed.

(** A critical section, parked or not. *)
Lemma stable_locked_after {ASAN : AsanRuntime} {A} me env (pre : M World unit) (body : M World A) (Q : result A → Prop) :
  (∀ f w, I w → I (set_mgr (set_threads f) w)) →
  act_stable pre (λ _, True) → act_stable body Q → (∀ e, Q (Raise e)) →
  stable (locked_after me env pre body) Q.
Proof.
  intros Hthreads Hpre Hbody HQ.
  assert (∀ f, act_stable (modify (set_mgr (set_threads f))) (λ r, r = Ok tt)) as Hmod
    by (intros f; apply act_stable_modify; [by apply Hthreads|done]).
  assert (∀ pre parking, act_stable pre (λ _, True) → act_stable parking (λ r, r = Ok tt) →
    act_stable (enter me pre parking body) (λ r, match r with
      | Ok (Entered _ a) => Q (Ok a) | Ok _ => True | Raise _ => True end)) as Henter.
  { intros pre' parking Hp Hpk. unfold enter. apply act_stable_bind. eapply act_stable_mono, Hp.
    intros [[]|e] _; [|done]. apply act_stable_bind, act_stable_get. intros w0. simpl.
    destruct (may_run me w0); [|destruct (negb _)].
    - apply act_stable_bind. eapply act_stable_mono, Hbody. intros [a|e] Ha; [by apply act_stable_ret|done].
    - by apply act_stable_ret.
    - apply act_stable_bind. eapply act_stable_mono, Hpk. intros r ->. by apply act_stable_ret. }
  assert (stable (Atomic (may_run me) body Done) Q) as Hwait by done.
  simpl. eapply act_stable_mono; [|by apply Henter, act_stable_ret].
  intros [[a| |]|e]; intros H; simpl; auto.
  eapply act_stable_mono; [|by apply Henter; [apply act_stable_ret|apply Hmod]].
  intros [[a'| |]|e']; intros H'; simpl; auto.
  apply act_stable_bind. eapply act_stable_mono; [|apply Hmod]. by intros r ->.
Qed.

Lemma stable_noexcept {A} (p : proc A) (Q : result A → Prop) :
  stable p (λ r, match r with Ok a => Q (Ok a) | Raise _ => True end) → stable (noexcept p) Q.
Proof.
  intros Hp. apply stable_bind_result. eapply stable_mono, Hp. intros [a|e]; [done|]. intros _ w r w' _.
  by destruct r.
Qed.
End Stable.

(** ** A root that stays *)

(** The handle at [created] is registered and holds [p]. *)
Definition rooted (created p : Z) (w : World) : Prop :=
  root_range created ∈ root_ranges w ∧ load_word (mem w) created = p.

Lemma rooted_ext created p w w' :
  root_ranges w' = root_ranges w → mem w' = mem w → rooted created p w → rooted created p w'.
Proof. unfold rooted. by intros -> ->. Qed.

Lemma elem_of_erase_first {A} `{EqDecision A} (x y : A) l : x ≠ y → x ∈ l → x ∈ erase_first y l.
Proof.
  intros Hne. induction l as [|z l IH]; [done|]. simpl. case_decide as E.
  - subst. by intros [->|?]%elem_of_cons.
  - intros [->|?]%elem_of_cons; [left|right; auto].
Qed.

Section Insertion.
Context {ASAN : AsanRuntime} {ALLOC : Allocator} {GROWTH : VectorGrowth} (me : thread_id) (env : ParkEnv).
Context (created p : Z).
Context (Havoid : ∀ w, unavailable w created).
Abbreviation kept := (stable (rooted created p)).

Lemma kept_locked_after {A} (pre : M World unit) (body : M World A) Q :
  act_stable (rooted created p) pre (λ _, True) → act_stable (rooted created p) body Q → (∀ e, Q (Raise e)) →
  kept (locked_after me env pre body) Q.
Proof. apply stable_locked_after. intros f w. by apply rooted_ext. Qed.

Lemma kept_register_root_range b e : kept (register_root_range me env b e) (λ _, True).
Proof.
  unfold register_root_range. destruct (empty_range b e); [done|]. apply kept_locked_after; [|by apply act_stable_ret|done].
  apply act_stable_bind, act_stable_native_alloc; [intros o w; by apply rooted_ext|].
  intros [[]|?]; [|done]. apply act_stable_modify; [|done]. intros w [Hr Hm]. split; [|done].
  apply elem_of_app. by left.
Qed.

Lemma kept_gc_root_new a q : outside a (a + word_size) created → kept (gc_root_new me env a q) (λ _, True).
Proof.
  intros Ha. apply stable_bind, stable_atomic, act_stable_modify.
  - intros w [Hr Hm]. split; [done|]. simpl. rewrite load_store_word_disjoint; [done|].
    unfold outside, word_size in *. lia.
  - unfold register_self, register_root_object. destruct (a =? 0); [done|]. apply kept_register_root_range.
Qed.

Lemma kept_gc_root_copy a b : outside a (a + word_size) created → kept (gc_root_copy me env a b) (λ _, True).
Proof. intros Ha. apply stable_bind, stable_atomic, act_stable_gets. intros q. by apply kept_gc_root_new. Qed.

Lemma kept_gc_root_destroy a : a ≠ created → kept (gc_root_destroy me env a) (λ _, True).
Proof.
  intros Ha. apply stable_noexcept. unfold unregister_root_object. destruct (a =? 0); [done|].
  unfold unregister_root_range. destruct (empty_range _ _); [done|].
  apply kept_locked_after; [by apply act_stable_ret| |done]. apply act_stable_modify; [|done].
  intros w [Hr Hm]. split; [|done]. simpl. apply elem_of_erase_first; [|done].
  unfold root_range, normalize_range, sizeof_gc_root, wrap64. intros E.
  pose proof (Z.mod_pos_bound (a + 8) (2 ^ 64) ltac:(lia)).
  destruct (Z.ltb_spec ((a + 8) mod 2 ^ 64) a); injection E as E1 E2; [|lia].
  assert (a = created + 8) as -> by lia. pose proof (Z.div_mod (created + 8 + 8) (2 ^ 64) ltac:(lia)). lia.
Qed.

Lemma outside_slot first n i a :
  outside first (slot first n) a → (i < n)%nat → outside (slot first i) (slot first i + word_size) a.
Proof. unfold outside, slot, sizeof_gc_root, word_size. lia. Qed.

Lemma kept_destroy_slots n first : outside first (slot first n) created → kept (destroy_slots me env first n) (λ _, True).
Proof.
  revert first. induction n as [|n IH]; intros first Ho; [done|]. cbn [destroy_slots]. apply stable_bind.
  eapply stable_mono; [|apply kept_gc_root_destroy; unfold outside, slot, sizeof_gc_root, word_size in Ho; lia].
  intros [[]|e] _; [|done]. apply IH. rewrite slot_S. unfold outside, slot, sizeof_gc_root in *. lia.
Qed.

Lemma kept_construct_slots construct n done_ first :
  (∀ i, outside (slot first i) (slot first i + word_size) created → kept (construct i (slot first i)) (λ _, True)) →
  outside first (slot first (done_ + n)) created → kept (construct_slots me env construct first done_ n) (λ _, True).
Proof.
  intros Hc. revert done_. induction n as [|n IH]; intros i Ho; [done|]. cbn [construct_slots]. apply stable_bind_result.
  eapply stable_mono; [|apply Hc; eapply outside_slot; [exact Ho|lia]]. intros [[]|e] _.
  - apply IH. by replace (S i + n)%nat with (i + S n)%nat by lia.
  - apply stable_bind. eapply stable_mono; [|apply kept_destroy_slots; unfold outside, slot, sizeof_gc_root in *; lia].
    by intros [[]|e'].
Qed.

Lemma kept_allocate n :
  kept (allocate n) (λ r, match r with Ok q => outside q (q + sizeof_gc_root * n) created | Raise _ => True end).
Proof.
  unfold allocate. destruct (Z.eqb_spec n 0) as [->|]; [unfold outside, sizeof_gc_root; simpl; lia|].
  apply stable_atomic. intros w r w' Hw Hy. unfold yields, operator_new in Hy.
  destruct (new_address w _ _) as [q|] eqn:E; destruct r; simplify_eq.
  - split; [by eapply rooted_ext, Hw|]. by eapply Havoid.
  - done.
Qed.

Lemma kept_deallocate q : kept (deallocate q) (λ _, True).
Proof.
  unfold deallocate. destruct (q =? 0); [done|]. apply stable_atomic. intros w r w' Hw Hy. split; [|done].
  unfold yields, operator_delete in Hy. repeat case_match; simplify_eq. by eapply rooted_ext, Hw.
Qed.

Section Vector.
Context (v : vector) (Hsize : Z.of_nat (size_ v) <= capacity_ v) (Hv : outside (data_ v) (storage_end v) created).

Lemma kept_release_storage : kept (release_storage me env v) (λ _, True).
Proof.
  apply stable_bind. eapply stable_mono; [|apply kept_destroy_slots].
  - intros [[]|e] _; [apply kept_deallocate|done].
  - unfold outside, storage_end, slot, sizeof_gc_root in *. lia.
Qed.

Lemma kept_deallocate_raise {A} q e : kept (deallocate q;; raise (A := A) e) (λ _, True).
Proof. apply stable_bind. eapply stable_mono; [|apply kept_deallocate]. by intros [[]|e']. Qed.

(** Growth and insertion write to the storage of the vector and to new storage. *)
Lemma kept_extend construct n :
  0 < n →
  (∀ i a, outside a (a + word_size) created → kept (construct i a) (λ _, True)) →
  kept (vector_extend me env construct n v) (λ _, True).
Proof.
  intros Hn Hc. unfold vector_extend. destruct (Z.leb_spec n (capacity_ v - Z.of_nat (size_ v))).
  { apply stable_bind. eapply stable_mono; [|apply kept_construct_slots; [intros; by apply Hc|]].
    - by intros [[]|e].
    - unfold outside, storage_end, slot, sizeof_gc_root in *. lia. }
  destruct (Z.ltb_spec (max_size - Z.of_nat (size_ v)) n); [done|].
  destruct (next_capacity_ok (Z.of_nat (size_ v)) n) as [Hcap _]; [lia..|].
  apply stable_bind. eapply stable_mono; [|apply kept_allocate]. intros [q|e] Hq; [|done].
  assert (outside q (slot q (size_ v)) created ∧
    outside (slot q (size_ v)) (slot (slot q (size_ v)) (Z.to_nat n)) created) as [Ho Ht].
  { unfold outside, slot, sizeof_gc_root in *. lia. }
  apply stable_bind_result. eapply stable_mono; [|apply kept_construct_slots; [intros; by apply Hc|exact Ht]].
  intros [[]|e] _; [|apply kept_deallocate_raise].
  apply stable_bind_result. eapply stable_mono; [|apply kept_construct_slots; [|exact Ho]].
  - intros [[]|e] _.
    + apply stable_bind. eapply stable_mono; [|apply kept_release_storage]. by intros [[]|e].
    + apply stable_bind. eapply stable_mono; [|by apply kept_destroy_slots].
      intros [[]|e'] _; [apply kept_deallocate_raise|done].
  - intros i Hi. by apply kept_gc_root_copy.
Qed.

Lemma kept_push_back root : kept (push_back me env v root) (λ _, True).
Proof. apply kept_extend; [done|]. intros _ a Ha. by apply kept_gc_root_copy. Qed.
End Vector.
End Insertion.

(** A registered range keeps what its word points into. *)
Lemma rooted_live {ASAN : AsanRuntime} cenv collector created p w k b :
  rooted created p w → heap_wf w → (word_size | created) → root_place created →
  region_is_poisoned created word_size = false → (k, b) ∈ allocations w → k <= p < br_payload_end b →
  live cenv collector w k.
Proof.
  intros [Hr <-] Hwf Hal Hpl Hpois Hin Hp.
  destruct (gc_root_scanned created Hal (proj1 Hpl) (proj2 Hpl) Hpois) as [_ Hs].
  rewrite (proj2 (proj2 (place_range created Hpl))) in Hs.
  eapply (range_live cenv collector w _ created k b Hr Hs). by apply find_block_spec.
Qed.
