(* ===== verification/Diagnostics.v ===== *)
(** * Diagnostics

    The getters and setters of [GC_Manager], [stats], [describe_block_locked],
    [collect_outgoing_references_locked], [live_objects], [object_info],
    [dump_heap] and [is_live] of src/src/GCManager.cpp. *)

From Stdlib Require Import Floats.SpecFloat.
From S2P Require Import Prelude Words Memory OrdMap Chunk Manager Heap Scanner Mark.
From S2P Require Import Finalize WeakRefs Sweep Threads Collect CollectSpec.

(** [double] is IEEE binary64. *)
Definition double_of_size (n : Z) : spec_float := binary_normalize 53 1024 n 0 false.
Definition double_div : spec_float → spec_float → spec_float := SFdiv 53 1024.

(** The snapshot: the cumulative counters and the fields read off the registries. *)
Record GCStatsSnapshot := {
  sn_stats : GCStats;
  live_bytes : Z;
  live_blocks : Z;
  reserved_bytes : Z;
  fragmentation_ratio : spec_float;
  registered_threads : Z;
  registered_root_ranges : Z;
  registered_weak_refs : Z;
}.

Definition stats_locked (g : GC_Manager) : GCStatsSnapshot :=
  {| sn_stats := stats_ g;
     live_bytes := managed_bytes_ g;
     live_blocks := Z.of_nat (length (allocations_ g));
     reserved_bytes := reserved_bytes_ g;
     fragmentation_ratio :=
       if reserved_bytes_ g =? 0 then S754_zero false
       else double_div (double_of_size (wrap64 (reserved_bytes_ g - managed_bytes_ g)))
                       (double_of_size (reserved_bytes_ g));
     registered_threads := Z.of_nat (length (threads_ g));
     registered_root_ranges := Z.of_nat (length (registered_root_ranges_ g));
     registered_weak_refs := Z.of_nat (length (weak_refs_ g)) |}.

Record HeapObjectInfo := {
  ho_payload : Z;
  ho_payload_size : Z;
  ho_reserved_size : Z;
  ho_payload_offset : Z;
  ho_allocation_alignment : Z;
  ho_marked : bool;
  ho_outgoing_references : list Z;
}.

(** One payload word: the payload of another block it points into is added
    unless it is already there. *)
Definition outgoing_reference (self : Z) (candidate : Z) (references : list Z) : M World (list Z) :=
  w ← get;
  match find_block_locked (allocations w) candidate with
  | None => mret references
  | Some (k, b) =>
      if k =? self then mret references
      else
        h ← read_header (br_header b);
        let payload := payload_pointer (br_header b) h in
        if bool_decide (payload ∈ references) then mret references
        else native_alloc;; mret (references ++ [payload])
  end.

(** [self] is the key of the map node of [b]: [target == &block] compares nodes. *)
Definition collect_outgoing_references_locked (self : Z) (b : BlockRecord) : M World (list Z) :=
  words ← read_payload_words b;
  foldM (outgoing_reference self) words [].

Definition describe_block_locked (self : Z) (b : BlockRecord) : M World HeapObjectInfo :=
  h ← read_header (br_header b);
  references ← collect_outgoing_references_locked self b;
  mret {| ho_payload := payload_pointer (br_header b) h;
          ho_payload_size := ch_size h;
          ho_reserved_size := block_allocation_size h;
          ho_payload_offset := ch_payload_offset h;
          ho_allocation_alignment := allocation_alignment h;
          ho_marked := is_marked h;
          ho_outgoing_references := references |}.

Definition describe_all_locked : M World (list HeapObjectInfo) :=
  native_alloc;; (* objects.reserve *)
  w ← get;
  foldM (λ kb acc, info ← describe_block_locked kb.1 kb.2; mret (acc ++ [info])) (allocations w) [].

Definition object_info_locked (pointer : Z) : M World (option HeapObjectInfo) :=
  w ← get;
  match find_block_locked (allocations w) pointer with
  | None => mret None
  | Some (k, b) => info ← describe_block_locked k b; mret (Some info)
  end.

Section Diagnostics.
Context {ASAN : AsanRuntime} (me : thread_id) (env : ParkEnv).

Definition stats : proc GCStatsSnapshot := locked me env (gets (λ w, stats_locked (mgr w))).

Definition managed_bytes : proc Z := locked me env (gets (λ w, managed_bytes_ (mgr w))).

Definition managed_block_count : proc Z :=
  locked me env (gets (λ w, Z.of_nat (length (allocations w)))).

Definition collection_threshold_bytes : proc Z :=
  locked me env (gets (λ w, collection_threshold_bytes_ (mgr w))).

Definition set_collection_threshold_bytes (threshold_bytes : Z) : proc unit :=
  locked me env (modify (set_mgr (set_threshold threshold_bytes))).

Definition is_live (payload : Z) : proc bool :=
  if payload =? 0 then mret false
  else
    locked me env (gets (λ w,
      match find_block_locked (allocations w) payload with Some _ => true | None => false end)).

(** Stops the world when nobody else has, unless it is called back from a
    finalizer: then it only reads. *)
Definition inspect_enter {A} (body : M World A) : M World (option A) :=
  w ← get;
  if collecting_ (mgr w) then a ← body; mret (Some a)
  else request_stop_the_world me;; mret None.

Definition inspect {A} (body : M World A) : proc A :=
  r ← locked me env (inspect_enter body);
  match r with
  | Some a => mret a
  | None =>
      bind_result (wait_for_other_threads_to_pause_locked me body) (λ r,
        release_stop_the_world;;
        match r with
        | Ok a => mret a
        | Raise e => raise e
        end)
  end.

Definition live_objects : proc (list HeapObjectInfo) := inspect describe_all_locked.

Definition object_info (pointer : Z) : proc (option HeapObjectInfo) :=
  if pointer =? 0 then mret None else inspect (object_info_locked pointer).

(** What [dump_heap] writes to its stream. *)
Inductive dump_item :=
| Heap_line (nobjects live reserved : Z) (ratio : spec_float)
| Object_line (payload payload_size reserved_size alignment refs : Z)
| Reference_line (reference : Z).

Definition dump_object (o : HeapObjectInfo) : list dump_item :=
  Object_line (ho_payload o) (ho_payload_size o) (ho_reserved_size o) (ho_allocation_alignment o)
    (Z.of_nat (length (ho_outgoing_references o)))
  :: (Reference_line <$> ho_outgoing_references o).

Definition dump_heap : proc (list dump_item) :=
  snapshot ← stats;
  objects ← live_objects;
  mret (Heap_line (Z.of_nat (length objects)) (live_bytes snapshot) (reserved_bytes snapshot)
          (fragmentation_ratio snapshot)
        :: (o ← objects; dump_object o)).
End Diagnostics.

(** ** Lemmas *)

(** What the description of the block [(k, b)] must be. *)
Definition describes (w : World) (k : Z) (b : BlockRecord) (info : HeapObjectInfo) : Prop :=
  ho_payload info = k ∧ ho_payload_size info = payload_size (k, b) ∧
  ho_reserved_size info = reserved_size (k, b) ∧ ho_payload_offset info = k - br_header b ∧
  ho_marked info = markedb w (k, b) ∧
  (∃ n, blocks w !! br_header b = Some (n, ho_allocation_alignment info)) ∧
  NoDup (ho_outgoing_references info) ∧
  ∀ k', k' ∈ ho_outgoing_references info ↔ edge w k k' ∧ k' ≠ k.

Section Describe.
Context (w : World) (Hwf : heap_wf w) (Hoom : oom w = []).

Lemma outgoing_reference_spec self c refs :
  ∃ refs', outgoing_reference self c refs w = Ret refs' w ∧ (NoDup refs → NoDup refs') ∧
    ∀ k, k ∈ refs' ↔ k ∈ refs ∨ (k ≠ self ∧ ∃ b, find_block_locked (allocations w) c = Some (k, b)).
Proof.
  unfold outgoing_reference. rewrite M_bind_get.
  destruct (find_block_locked (allocations w) c) as [[k b]|] eqn:Ef.
  2:{ exists refs. split_and!; [done..|]. naive_solver. }
  destruct (Z.eqb_spec k self) as [->|Hne].
  { exists refs. split_and!; [done..|]. naive_solver. }
  apply (find_block_spec w Hwf) in Ef as [Hin _].
  destruct (wf_read_header w Hwf k b Hin) as (h & Hh & _ & Hpb & _).
  assert (read_header (br_header b) w = Ret h w) as E by (unfold read_header; by rewrite Hh). mstep E.
  unfold payload_pointer. unfold payload_begin in Hpb. rewrite Hpb.
  case_bool_decide as Hr.
  { exists refs. split_and!; [done..|]. naive_solver. }
  exists (refs ++ [k]). split_and!.
  - by mstep (native_alloc_ok w Hoom).
  - intros Hnd. apply NoDup_app. split_and!; [done| |apply NoDup_singleton].
    by intros x Hx ->%list_elem_of_singleton.
  - intros x. rewrite elem_of_app, list_elem_of_singleton. naive_solver.
Qed.

Lemma outgoing_references_spec self cs refs :
  NoDup refs → ∃ refs', foldM (outgoing_reference self) cs refs w = Ret refs' w ∧ NoDup refs' ∧
    ∀ k, k ∈ refs' ↔ k ∈ refs ∨ (k ≠ self ∧ ∃ c b, c ∈ cs ∧ find_block_locked (allocations w) c = Some (k, b)).
Proof.
  revert refs. induction cs as [|c cs IH]; intros refs Hnd; simpl.
  { exists refs. split_and!; [done..|]. intros k. split; [auto|].
    intros [?|(_ & c & b & []%elem_of_nil & _)]; done. }
  destruct (outgoing_reference_spec self c refs) as (refs1 & E & Hn & Hin1). mstep E.
  destruct (IH refs1 (Hn Hnd)) as (refs' & E' & Hn' & Hin'). exists refs'. split_and!; [done..|].
  intros k. rewrite Hin', Hin1. setoid_rewrite elem_of_cons. naive_solver.
Qed.

Lemma describe_block_spec k b :
  (k, b) ∈ allocations w → ∃ info, describe_block_locked k b w = Ret info w ∧ describes w k b info.
Proof.
  intros Hin. destruct (wf_read_header w Hwf k b Hin) as (h & Hh & _ & Hpb & Hsz & Hrs).
  unfold describe_block_locked, collect_outgoing_references_locked.
  assert (read_header (br_header b) w = Ret h w) as E by (unfold read_header; by rewrite Hh). mstep E.
  destruct (outgoing_references_spec k (load_word (mem w) <$> word_addrs k (br_payload_end b)) [])
    as (refs & Er & Hnd & Hrefs); [constructor|].
  assert (read_payload_words b w = Ret (load_word (mem w) <$> word_addrs k (br_payload_end b)) w) as Ew
    by (unfold read_payload_words; by rewrite (wf_payload_words w Hwf k b Hin)).
  assert ((words ← read_payload_words b; foldM (outgoing_reference k) words []) w = Ret refs w) as Ec
    by by mstep Ew.
  mstep Ec. eexists. split; [done|]. unfold payload_begin in Hpb. split_and!; simpl; try done.
  - lia.
  - unfold markedb. simpl. by rewrite Hh.
  - destruct (wf_block w Hwf k b Hin) as [_ _ _ (h' & Hh' & _ & _ & _ & _ & _ & Hbl)].
    assert (h' = h) as -> by congruence. eauto.
  - intros k'. rewrite Hrefs, elem_of_nil. unfold edge. split.
    + intros [[]|(Hne & c & b' & (a & -> & Ha)%list_elem_of_fmap & Hf)]. split; [|done].
      exists b, b', a. done.
    + intros [(b1 & b' & a & Hin1 & Ha & Hf) Hne]. right. split; [done|].
      rewrite (wf_key_inj w Hwf _ _ _ Hin1 Hin) in Ha. exists (load_word (mem w) a), b'.
      split; [by apply list_elem_of_fmap_2|done].
Qed.

Lemma describe_list_spec (l : registry) acc :
  (∀ kb, kb ∈ l → kb ∈ allocations w) →
  ∃ infos, foldM (λ kb acc, info ← describe_block_locked kb.1 kb.2; mret (acc ++ [info])) l acc w =
    Ret (acc ++ infos) w ∧ Forall2 (λ kb info, describes w kb.1 kb.2 info) l infos.
Proof.
  revert acc. induction l as [|[k b] l IH]; intros acc Hl; simpl.
  { exists []. rewrite app_nil_r. split; [done|constructor]. }
  destruct (describe_block_spec k b) as (info & E & Hd); [apply Hl; left|].
  assert ((info ← describe_block_locked k b; mret (acc ++ [info])) w = Ret (acc ++ [info]) w) as E1
    by by mstep E.
  mstep E1. destruct (IH (acc ++ [info])) as (infos & E' & Hi); [intros; apply Hl; by right|].
  exists (info :: infos). rewrite E', <-app_assoc. split; [done|by constructor].
Qed.

Lemma describe_all_spec :
  ∃ infos, describe_all_locked w = Ret infos w ∧
    Forall2 (λ kb info, describes w kb.1 kb.2 info) (allocations w) infos.
Proof.
  destruct (describe_list_spec (allocations w) []) as (infos & E & Hi); [done|].
  exists infos. split; [|done]. unfold describe_all_locked. mstep (native_alloc_ok w Hoom). done.
Qed.
End Describe.

Section InspectAlone.
Context {ASAN : AsanRuntime} (me : thread_id) (env : ParkEnv).

(** Alone, an inspection stops the world, reads, and releases it. *)
Lemma inspect_runs {A} (body : M World A) w :
  may_run me w = true → collecting_ (mgr w) = false →
  all_others_paused me (announce me w) = true →
  exec (inspect me env body) w =
  match body (announce me w) with
  | Ret a w1 => Ret a (released w1)
  | Throw e w1 => Throw e (released w1)
  | Stuck why => Stuck why
  end.
Proof.
  intros Hrun Hc Hp. unfold inspect. rewrite exec_bind, exec_locked by done.
  unfold inspect_enter. rewrite M_bind_get, Hc. unfold mbind at 1, M_bind at 1. simpl.
  change (set_mgr (set_stw (Some me) true true) w) with (announce me w). rewrite Hp.
  destruct (body (announce me w)); done.
Qed.

(** Called back from a finalizer, it reads without stopping anybody. *)
Lemma inspect_nested {A} (body : M World A) w :
  may_run me w = true → collecting_ (mgr w) = true →
  exec (inspect me env body) w = body w.
Proof.
  intros Hrun Hc. unfold inspect. rewrite exec_bind, exec_locked by done.
  unfold inspect_enter. rewrite M_bind_get, Hc. unfold mbind, M_bind. by destruct (body w).
Qed.
End InspectAlone.
