(* ===== verification/Text.v ===== *)
(** * The text of a heap dump

    [GC_Manager::dump_heap] writes to a [std::ostream] with its default flags:
    [size_t] in decimal, pointers as libstdc++ does, in hexadecimal with its
    base, a [double] with six significant digits ([%g]).  A reader recovers the
    dump from the text. *)

From Stdlib Require Import Floats.SpecFloat Ascii.
From S2P Require Import Prelude Words Memory OrdMap Chunk Manager Heap Scanner Scenario Mark.
From S2P Require Import Finalize WeakRefs Sweep Threads Collect CollectSpec Diagnostics.
#[local] Open Scope string_scope.
#[local] Open Scope Z_scope.

(** ** Numbers *)

Definition digit_char (d : Z) : ascii := ascii_of_N (Z.to_N (if d <? 10 then 48 + d else 87 + d)).

Definition char_digit (c : ascii) : option Z :=
  let n := Z.of_N (N_of_ascii c) in
  if (48 <=? n) && (n <? 58) then Some (n - 48)
  else if (97 <=? n) && (n <? 103) then Some (n - 87)
  else None.

(** The digits of [n] in base [b] in front of [acc]. *)
Fixpoint put_digits (b : Z) (fuel : nat) (n : Z) (acc : string) : string :=
  match fuel with
  | O => acc
  | S fuel' =>
      let acc' := String (digit_char (n mod b)) acc in
      if n <? b then acc' else put_digits b fuel' (n / b) acc'
  end.

Definition digits_fuel (n : Z) : nat := S (Z.to_nat (Z.log2 n)).

Definition put_number (b n : Z) (acc : string) : string := put_digits b (digits_fuel n) n acc.

Definition put_dec (n : Z) (acc : string) : string := put_number 10 n acc.

(** [operator<<(const void* )]: no base in front of zero. *)
Definition put_pointer (p : Z) (acc : string) : string :=
  if p =? 0 then String "0" acc else "0x" +:+ put_number 16 p acc.

(** ** Doubles *)

Fixpoint put_zeros (n : nat) (acc : string) : string :=
  match n with O => acc | S n' => String "0" (put_zeros n' acc) end.

(** Without its trailing zeros, as a fraction after the point. *)
Fixpoint strip_zeros (s : string) : string :=
  match s with
  | "" => ""
  | String c s' =>
      match strip_zeros s' with
      | "" => if Ascii.eqb c "0" then "" else String c ""
      | t => String c t
      end
  end.

Definition with_fraction (whole fraction : string) : string :=
  match strip_zeros fraction with "" => whole | f => whole +:+ "." +:+ f end.

(** [10 ^ x <= n / d < 10 ^ (x + 1)]. *)
Fixpoint decimal_exponent_up (fuel : nat) (n d x : Z) : Z :=
  match fuel with
  | O => x
  | S fuel' => if n <? 10 * d then x else decimal_exponent_up fuel' n (10 * d) (x + 1)
  end.

Fixpoint decimal_exponent_down (fuel : nat) (n d x : Z) : Z :=
  match fuel with
  | O => x
  | S fuel' => if d <=? n then x else decimal_exponent_down fuel' (10 * n) d (x - 1)
  end.

Definition decimal_exponent (n d : Z) : Z :=
  if d <=? n then decimal_exponent_up (digits_fuel (n / d)) n d 0
  else decimal_exponent_down (digits_fuel (d / n)) n d 0.

(** [n / d] to the nearest integer, ties to even. *)
Definition round_half_even (n d : Z) : Z :=
  let q := n / d in
  let r := n mod d in
  if (2 * r <? d) || ((2 * r =? d) && Z.even q) then q else q + 1.

(** Six significant digits [D] and the exponent [x] of the first one. *)
Definition six_digits (n d : Z) : Z * Z :=
  let x := decimal_exponent n d in
  let D := if x <=? 5 then round_half_even (n * 10 ^ (5 - x)) d else round_half_even n (d * 10 ^ (x - 5)) in
  if D =? 10 ^ 6 then (10 ^ 5, x + 1) else (D, x).

Definition put_exponent (x : Z) : string :=
  (if x <? 0 then "e-" else "e+") +:+ (if Z.abs x <? 10 then String "0" (put_dec (Z.abs x) "") else put_dec (Z.abs x) "").

(** [%g] of the positive number [n / d]. *)
Definition format_ratio (n d : Z) : string :=
  let '(D, x) := six_digits n d in
  if (x <? -4) || (5 <? x) then
    with_fraction (put_dec (D / 10 ^ 5) "") (let f := put_dec (D mod 10 ^ 5) "" in put_zeros (5 - String.length f) f)
      +:+ put_exponent x
  else if 0 <=? x then
    with_fraction (put_dec (D / 10 ^ (5 - x)) "")
      (let f := put_dec (D mod 10 ^ (5 - x)) "" in put_zeros (Z.to_nat (5 - x) - String.length f) f)
  else with_fraction "0" (put_zeros (Z.to_nat (- x - 1)) (put_dec D "")).

Definition format_double (f : spec_float) : string :=
  match f with
  | S754_zero s => (if s then "-" else "") +:+ "0"
  | S754_infinity s => (if s then "-" else "") +:+ "inf"
  | S754_nan => "nan"
  | S754_finite s m e =>
      (if s then "-" else "") +:+ format_ratio (Z.pos m * 2 ^ Z.max e 0) (2 ^ Z.max (- e) 0)
  end.

Example format_half : format_double (double_div (double_of_size 1) (double_of_size 2)) = "0.5".
Proof. reflexivity. Qed.
Example format_third : format_double (double_div (double_of_size 1) (double_of_size 3)) = "0.333333".
Proof. reflexivity. Qed.
Example format_two_thirds : format_double (double_div (double_of_size 2) (double_of_size 3)) = "0.666667".
Proof. reflexivity. Qed.
Example format_small : format_double (double_div (double_of_size 1) (double_of_size 123456789)) = "8.1e-09".
Proof. reflexivity. Qed.
Example format_big : format_double (double_of_size 12345678) = "1.23457e+07".
Proof. reflexivity. Qed.
Example format_round_up : format_double (double_div (double_of_size 9999999) (double_of_size 10000000)) = "1".
Proof. reflexivity. Qed.
Example format_int : format_double (double_of_size 100) = "100".
Proof. reflexivity. Qed.
Example format_mid : format_double (double_div (double_of_size 12345) (double_of_size 8)) = "1543.12".
Proof. reflexivity. Qed.

(** ** The text *)

Definition newline_char : ascii := ascii_of_N 10.
Definition newline : string := String newline_char "".

Definition write_item (i : dump_item) (acc : string) : string :=
  match i with
  | Heap_line nobjects live reserved ratio =>
      "GC heap snapshot: live_objects=" +:+ put_dec nobjects (
      " live_bytes=" +:+ put_dec live (
      " reserved_bytes=" +:+ put_dec reserved (
      " fragmentation_ratio=" +:+ format_double ratio +:+ newline +:+ acc)))
  | Object_line payload payload_size reserved_size alignment refs =>
      "object payload=" +:+ put_pointer payload (
      " payload_size=" +:+ put_dec payload_size (
      " reserved_size=" +:+ put_dec reserved_size (
      " alignment=" +:+ put_dec alignment (
      " refs=" +:+ put_dec refs (newline +:+ acc)))))
  | Reference_line reference => "  -> " +:+ put_pointer reference (newline +:+ acc)
  end.

Fixpoint dump_text (items : list dump_item) : string :=
  match items with
  | [] => ""
  | i :: items' => write_item i (dump_text items')
  end.

Definition dump_heap_text {ASAN : AsanRuntime} (me : thread_id) (env : ParkEnv) : proc string :=
  items ← dump_heap me env; mret (dump_text items).

(** ** Reading it back *)

Fixpoint expect (literal s : string) : option string :=
  match literal, s with
  | "", _ => Some s
  | String c l, String c' s' => if Ascii.eqb c c' then expect l s' else None
  | String _ _, "" => None
  end.

Fixpoint get_digits (b acc : Z) (s : string) : Z * string :=
  match s with
  | "" => (acc, "")
  | String c s' =>
      match char_digit c with
      | Some d => if d <? b then get_digits b (acc * b + d) s' else (acc, s)
      | None => (acc, s)
      end
  end.

Definition get_dec (s : string) : Z * string := get_digits 10 0 s.

Definition get_pointer (s : string) : Z * string :=
  match expect "0x" s with Some s' => get_digits 16 0 s' | None => get_digits 10 0 s end.

Fixpoint get_line (s : string) : option (string * string) :=
  match s with
  | "" => None
  | String c s' =>
      if Ascii.eqb c newline_char then Some ("", s')
      else '(l, t) ← get_line s'; Some (String c l, t)
  end.

(** A field: its label, then its value. *)
Definition field (label : string) (get : string → Z * string) (s : string) : option (Z * string) :=
  get <$> expect label s.

(** What the text says of an object. *)
Record object_entry := {
  oe_payload : Z;
  oe_payload_size : Z;
  oe_reserved_size : Z;
  oe_alignment : Z;
  oe_references : list Z;
}.

Record dump_contents := {
  dc_live_bytes : Z;
  dc_reserved_bytes : Z;
  dc_fragmentation_ratio : string;
  dc_objects : list object_entry;
}.

Fixpoint read_references (n : nat) (s : string) : option (list Z * string) :=
  match n with
  | O => Some ([], s)
  | S n' =>
      '(r, s) ← field "  -> " get_pointer s;
      s ← expect newline s;
      '(rs, s) ← read_references n' s;
      Some (r :: rs, s)
  end.

Definition read_object (s : string) : option (object_entry * string) :=
  '(payload, s) ← field "object payload=" get_pointer s;
  '(payload_size, s) ← field " payload_size=" get_dec s;
  '(reserved_size, s) ← field " reserved_size=" get_dec s;
  '(alignment, s) ← field " alignment=" get_dec s;
  '(refs, s) ← field " refs=" get_dec s;
  s ← expect newline s;
  '(rs, s) ← read_references (Z.to_nat refs) s;
  Some ({| oe_payload := payload; oe_payload_size := payload_size; oe_reserved_size := reserved_size;
           oe_alignment := alignment; oe_references := rs |}, s).

Fixpoint read_objects (n : nat) (s : string) : option (list object_entry * string) :=
  match n with
  | O => Some ([], s)
  | S n' =>
      '(o, s) ← read_object s;
      '(os, s) ← read_objects n' s;
      Some (o :: os, s)
  end.

Definition read_dump (s : string) : option dump_contents :=
  '(nobjects, s) ← field "GC heap snapshot: live_objects=" get_dec s;
  '(live, s) ← field " live_bytes=" get_dec s;
  '(reserved, s) ← field " reserved_bytes=" get_dec s;
  s ← expect " fragmentation_ratio=" s;
  '(ratio, s) ← get_line s;
  '(objects, s) ← read_objects (Z.to_nat nobjects) s;
  match s with
  | "" => Some {| dc_live_bytes := live; dc_reserved_bytes := reserved; dc_fragmentation_ratio := ratio;
                 dc_objects := objects |}
  | _ => None
  end.

(** ** Round trips *)

Lemma digit_char_digit d : 0 <= d < 16 → char_digit (digit_char d) = Some d.
Proof.
  intros Hd. assert (forallb (λ d, bool_decide (char_digit (digit_char d) = Some d)) (seqZ 0 16) = true) as Hall
    by (vm_compute; reflexivity).
  rewrite forallb_forall in Hall. specialize (Hall d). rewrite bool_decide_eq_true in Hall.
  apply Hall, list_elem_of_In, elem_of_seqZ. lia.
Qed.

Lemma digit_char_eqb d c : 0 <= d < 16 → char_digit c = None → Ascii.eqb (digit_char d) c = false.
Proof.
  intros Hd Hc. destruct (Ascii.eqb_spec (digit_char d) c) as [<-|]; [|done]. by rewrite digit_char_digit in Hc.
Qed.

Lemma get_put_digits b fuel n s :
  1 < b <= 16 → 0 <= n < b ^ Z.of_nat fuel → (0 < fuel)%nat →
  get_digits b 0 (put_digits b fuel n s) = get_digits b n s.
Proof.
  intros Hb. revert n s. induction fuel as [|fuel IH]; intros n s Hn Hf; [lia|]. cbn [put_digits].
  pose proof (Z.mod_pos_bound n b ltac:(lia)) as Hm.
  assert (∀ a, get_digits b a (String (digit_char (n mod b)) s) = get_digits b (a * b + n mod b) s) as Hd.
  { intros a. cbn [get_digits]. rewrite digit_char_digit by lia. destruct (Z.ltb_spec (n mod b) b); [done|lia]. }
  destruct (Z.ltb_spec n b) as [Hlt|Hge].
  - rewrite Hd, Z.mod_small by lia. done.
  - rewrite Nat2Z.inj_succ, Z.pow_succ_r in Hn by lia.
    assert (0 <= n / b < b ^ Z.of_nat fuel) as Hq by (split; [apply Z.div_pos|apply Z.div_lt_upper_bound]; lia).
    rewrite IH, Hd; [|done|].
    + f_equal. pose proof (Z.div_mod n b ltac:(lia)). lia.
    + destruct fuel; [|lia]. simpl in Hq. assert (n / b = 0) as E by lia. apply Z.div_small_iff in E; lia.
Qed.

Lemma digits_fuel_enough b n : 2 <= b → 0 <= n → n < b ^ Z.of_nat (digits_fuel n).
Proof.
  intros Hb Hn. unfold digits_fuel. pose proof (Z.log2_nonneg n).
  rewrite Nat2Z.inj_succ, Z2Nat.id by done. apply Z.lt_le_trans with (2 ^ Z.succ (Z.log2 n)); [|by apply Z.pow_le_mono_l; lia].
  destruct (decide (n = 0)) as [->|]; [done|]. apply Z.log2_spec. lia.
Qed.

(** The text after a number does not start with a digit. *)
Definition ends_number (s : string) : Prop :=
  match s with String c _ => char_digit c = None | "" => True end.

Lemma get_digits_end b n s : ends_number s → get_digits b n s = (n, s).
Proof. destruct s as [|c s]; simpl; [done|]. by intros ->. Qed.

Lemma get_put_number b n s :
  1 < b <= 16 → 0 <= n → ends_number s → get_digits b 0 (put_number b n s) = (n, s).
Proof.
  intros Hb Hn Hs. unfold put_number. rewrite get_put_digits; [by apply get_digits_end|done| |unfold digits_fuel; lia].
  split; [done|]. apply digits_fuel_enough; lia.
Qed.

Lemma get_put_dec n s : 0 <= n → ends_number s → get_dec (put_dec n s) = (n, s).
Proof. intros. by apply get_put_number. Qed.

Lemma expect_app l s : expect l (l +:+ s) = Some s.
Proof. induction l as [|c l IH]; [done|]. simpl. by rewrite Ascii.eqb_refl. Qed.

Lemma get_put_pointer p s : 0 < p → ends_number s → get_pointer (put_pointer p s) = (p, s).
Proof.
  intros Hp Hs. unfold get_pointer, put_pointer. destruct (Z.eqb_spec p 0) as [->|Hne]; [done|].
  rewrite expect_app. by apply get_put_number; [|lia|].
Qed.

Lemma field_dec label n s : 0 <= n → ends_number s → field label get_dec (label +:+ put_dec n s) = Some (n, s).
Proof. intros. unfold field. rewrite expect_app. simpl. by rewrite get_put_dec. Qed.

Lemma field_pointer label p s :
  0 < p → ends_number s → field label get_pointer (label +:+ put_pointer p s) = Some (p, s).
Proof. intros. unfold field. rewrite expect_app. simpl. by rewrite get_put_pointer. Qed.

(** Text without a newline. *)
Fixpoint one_line (s : string) : Prop :=
  match s with "" => True | String c s' => Ascii.eqb c newline_char = false ∧ one_line s' end.

Lemma one_line_app s t : one_line s → one_line t → one_line (s +:+ t).
Proof. induction s as [|c s IH]; simpl; [done|]. intros [? ?] ?. split; [done|]. by apply IH. Qed.

Lemma one_line_digits b fuel n acc : 0 < b <= 16 → one_line acc → one_line (put_digits b fuel n acc).
Proof.
  intros Hb. revert n acc. induction fuel as [|fuel IH]; intros n acc Ha; [done|]. cbn [put_digits].
  assert (one_line (String (digit_char (n mod b)) acc)) as Hl.
  { split; [|done]. apply digit_char_eqb; [|done]. pose proof (Z.mod_pos_bound n b). lia. }
  case_match; [done|]. by apply IH.
Qed.

Lemma one_line_dec n acc : one_line acc → one_line (put_dec n acc).
Proof. by apply one_line_digits. Qed.

Lemma one_line_zeros n acc : one_line acc → one_line (put_zeros n acc).
Proof. intros Ha. by induction n as [|n IH]. Qed.

Lemma one_line_strip s : one_line s → one_line (strip_zeros s).
Proof.
  induction s as [|c s IH]; [done|]. intros [Hc Hs]. specialize (IH Hs). simpl.
  destruct (strip_zeros s); [by case_match|done].
Qed.

Lemma one_line_fraction w f : one_line w → one_line f → one_line (with_fraction w f).
Proof.
  intros Hw Hf%one_line_strip. unfold with_fraction. destruct (strip_zeros f) as [|c t]; [done|].
  by apply one_line_app, (one_line_app ".").
Qed.

Lemma one_line_exponent x : one_line (put_exponent x).
Proof.
  unfold put_exponent. apply one_line_app; [by case_match|]. case_match; [|by apply one_line_dec].
  split; [done|]. by apply one_line_dec.
Qed.

Lemma one_line_double f : one_line (format_double f).
Proof.
  assert (∀ s : bool, one_line (if s then "-" else "")) as Hs by by intros [].
  destruct f as [s|s| |s m e]; simpl; try (by apply one_line_app); [done|]. apply one_line_app; [done|].
  unfold format_ratio. destruct (six_digits _ _) as [D x]. cbv zeta.
  repeat case_match; repeat first [apply one_line_exponent|apply one_line_app|apply one_line_fraction
    |apply one_line_zeros|apply one_line_dec|done].
Qed.

Lemma get_line_app l s : one_line l → get_line (l +:+ newline +:+ s) = Some (l, s).
Proof. induction l as [|c l IH]; [done|]. intros [Hc Hl]. simpl. rewrite Hc, IH by done. done. Qed.

Definition entry_of (o : HeapObjectInfo) : object_entry :=
  {| oe_payload := ho_payload o; oe_payload_size := ho_payload_size o; oe_reserved_size := ho_reserved_size o;
     oe_alignment := ho_allocation_alignment o; oe_references := ho_outgoing_references o |}.

Record printable (o : HeapObjectInfo) : Prop := {
  pr_payload : 0 < ho_payload o;
  pr_size : 0 <= ho_payload_size o;
  pr_reserved : 0 <= ho_reserved_size o;
  pr_alignment : 0 <= ho_allocation_alignment o;
  pr_references : Forall (λ r, 0 < r) (ho_outgoing_references o);
}.

Lemma dump_text_app l l' : dump_text (l ++ l') = foldr write_item (dump_text l') l.
Proof. induction l as [|i l IH]; [done|]. simpl. by rewrite IH. Qed.

Lemma read_references_spec l s :
  Forall (λ r, 0 < r) l → read_references (length l) (foldr write_item s (Reference_line <$> l)) = Some (l, s).
Proof.
  induction 1 as [|r l Hr _ IH]; [done|]. cbn [fmap list_fmap foldr write_item read_references length].
  rewrite field_pointer by done. cbn [mbind option_bind]. rewrite expect_app. cbn [mbind option_bind].
  change (list_fmap _ _ Reference_line l) with (Reference_line <$> l). by rewrite IH.
Qed.

Lemma read_object_spec o s :
  printable o → read_object (foldr write_item s (dump_object o)) = Some (entry_of o, s).
Proof.
  intros [Hp Hs Hr Ha Href]. unfold read_object, dump_object. cbn [foldr write_item].
  rewrite field_pointer by done. cbn [mbind option_bind]. do 3 (rewrite field_dec by done; cbn [mbind option_bind]).
  rewrite field_dec by (done || lia). cbn [mbind option_bind]. rewrite expect_app. cbn [mbind option_bind].
  by rewrite Nat2Z.id, read_references_spec.
Qed.

Lemma read_objects_spec os s :
  Forall printable os → read_objects (length os) (foldr write_item s (os ≫= dump_object)) = Some (entry_of <$> os, s).
Proof.
  induction 1 as [|o os Ho _ IH]; [done|]. cbn [mbind list_bind length read_objects].
  rewrite foldr_app, read_object_spec by done. cbn [mbind option_bind].
  change (list_bind _ _ dump_object os) with (os ≫= dump_object). by rewrite IH.
Qed.

Lemma read_dump_spec os live reserved ratio :
  0 <= live → 0 <= reserved → Forall printable os →
  read_dump (dump_text (Heap_line (Z.of_nat (length os)) live reserved ratio :: (os ≫= dump_object))) =
  Some {| dc_live_bytes := live; dc_reserved_bytes := reserved; dc_fragmentation_ratio := format_double ratio;
          dc_objects := entry_of <$> os |}.
Proof.
  intros Hl Hr Hos. unfold read_dump. cbn [dump_text write_item].
  rewrite field_dec by (done || lia). cbn [mbind option_bind]. do 2 (rewrite field_dec by done; cbn [mbind option_bind]).
  rewrite expect_app. cbn [mbind option_bind]. rewrite get_line_app by apply one_line_double. cbn [mbind option_bind].
  rewrite Nat2Z.id. rewrite <-(app_nil_r (os ≫= dump_object)), dump_text_app, read_objects_spec by done. done.
Qed.

(** ** Six digits *)

Lemma decimal_exponent_up_spec fuel n d x :
  0 < d → d <= n → n < d * 10 ^ Z.of_nat fuel →
  let y := decimal_exponent_up fuel n d x in x <= y ∧ d * 10 ^ (y - x) <= n < d * 10 ^ (y - x + 1).
Proof.
  revert d x. induction fuel as [|fuel IH]; intros d x Hd Hle Hlt; cbn [decimal_exponent_up]; cbv zeta.
  { simpl in Hlt. lia. }
  destruct (Z.ltb_spec n (10 * d)) as [H|H].
  - rewrite Z.sub_diag. simpl. lia.
  - rewrite Nat2Z.inj_succ, Z.pow_succ_r in Hlt by lia.
    destruct (IH (10 * d) (x + 1)) as [Hy [H1 H2]]; [lia..|]. split; [lia|].
    set (y := decimal_exponent_up fuel n (10 * d) (x + 1)) in *.
    assert (0 <= y - (x + 1)) as He by lia. replace (y - x) with (Z.succ (y - (x + 1))) by lia.
    revert He H1 H2. generalize (y - (x + 1)). intros e He H1 H2. rewrite Z.add_1_r in *.
    rewrite Z.pow_succ_r in H2 by done. rewrite !Z.pow_succ_r by lia. lia.
Qed.

Lemma decimal_exponent_down_spec fuel n d x :
  0 < n → n < 10 * d → d <= n * 10 ^ Z.of_nat fuel →
  let y := decimal_exponent_down fuel n d x in y <= x ∧ d <= n * 10 ^ (x - y) < 10 * d.
Proof.
  revert n x. induction fuel as [|fuel IH]; intros n x Hn Hlt Hle; cbn [decimal_exponent_down]; cbv zeta.
  { simpl in Hle. rewrite Z.sub_diag. simpl. lia. }
  destruct (Z.leb_spec d n) as [H|H].
  - rewrite Z.sub_diag. simpl. lia.
  - rewrite Nat2Z.inj_succ, Z.pow_succ_r in Hle by lia.
    destruct (IH (10 * n) (x - 1)) as [Hy [H1 H2]]; [lia..|]. split; [lia|].
    set (y := decimal_exponent_down fuel (10 * n) d (x - 1)) in *.
    replace (x - y) with (Z.succ (x - 1 - y)) by lia. rewrite Z.pow_succ_r by lia. lia.
Qed.

Lemma div_below a b c : 0 < b → a / b < c → a < b * c.
Proof. intros Hb H. pose proof (Z.mul_succ_div_gt a b Hb). nia. Qed.

(** [x] is the exponent of the leading digit. *)
Lemma decimal_exponent_spec n d :
  0 < n → 0 < d → let x := decimal_exponent n d in
  d * 10 ^ Z.max x 0 <= n * 10 ^ Z.max (- x) 0 < 10 * (d * 10 ^ Z.max x 0).
Proof.
  intros Hn Hd. unfold decimal_exponent. cbv zeta. destruct (Z.leb_spec d n) as [H|H].
  - destruct (decimal_exponent_up_spec (digits_fuel (n / d)) n d 0) as [Hx [H1 H2]]; [done|done| |].
    + apply div_below; [done|]. apply digits_fuel_enough; [lia|]. apply Z.div_pos; lia.
    + set (x := decimal_exponent_up _ _ _ _) in *. rewrite Z.sub_0_r in *. rewrite Z.max_l, Z.max_r by lia.
      rewrite Z.add_1_r, Z.pow_succ_r in H2 by lia. simpl. lia.
  - destruct (decimal_exponent_down_spec (digits_fuel (d / n)) n d 0) as [Hx [H1 H2]]; [done|lia| |].
    + apply Z.lt_le_incl, div_below; [done|]. apply digits_fuel_enough; [lia|]. apply Z.div_pos; lia.
    + set (x := decimal_exponent_down _ _ _ _) in *. rewrite Z.max_r, Z.max_l by lia.
      replace (0 - x) with (- x) in * by lia. simpl. lia.
Qed.

Lemma round_half_even_spec n d : 0 <= n → 0 < d → 2 * Z.abs (round_half_even n d * d - n) <= d.
Proof.
  intros Hn Hd. unfold round_half_even. pose proof (Z.div_mod n d ltac:(lia)). pose proof (Z.mod_pos_bound n d Hd).
  destruct (Z.ltb_spec (2 * (n mod d)) d), (Z.eqb_spec (2 * (n mod d)) d), (Z.even (n / d)); simpl; nia.
Qed.

(** The exponent, scaled to an integer of six digits. *)
Lemma decimal_exponent_scaled n d :
  0 < n → 0 < d → let e := decimal_exponent n d - 5 in
  d * 10 ^ Z.max e 0 * 10 ^ 5 <= n * 10 ^ Z.max (- e) 0 < d * 10 ^ Z.max e 0 * 10 ^ 6.
Proof.
  intros Hn Hd. pose proof (decimal_exponent_spec n d Hn Hd) as Hx. cbv zeta in *.
  set (x := decimal_exponent n d) in *. destruct (Z.le_gt_cases 5 x) as [H5|H5].
  - rewrite Z.max_l, Z.max_r in Hx |- * by lia.
    replace x with (x - 5 + 5) in Hx by lia. rewrite Z.pow_add_r in Hx by lia. lia.
  - rewrite (Z.max_r (x - 5)), (Z.max_l (- (x - 5))) by lia. destruct (Z.le_gt_cases 0 x) as [H0|H0].
    + rewrite Z.max_l, Z.max_r in Hx by lia. replace 5 with (x + (5 - x)) at 1 by lia. rewrite Z.pow_add_r by lia.
      replace 6 with (1 + (x + (5 - x))) by lia. rewrite !Z.pow_add_r by lia.
      replace (- (x - 5)) with (5 - x) by lia. pose proof (Z.pow_pos_nonneg 10 (5 - x)). nia.
    + rewrite Z.max_r, Z.max_l in Hx by lia. replace (- (x - 5)) with (- x + 5) by lia. rewrite Z.pow_add_r by lia. lia.
Qed.

(** The six digits are those of a nearest decimal of that length. *)
Lemma six_digits_nearest n d D x :
  0 < n → 0 < d → six_digits n d = (D, x) →
  10 ^ 5 <= D < 10 ^ 6 ∧
  2 * Z.abs (D * (d * 10 ^ Z.max (x - 5) 0) - n * 10 ^ Z.max (5 - x) 0) <= d * 10 ^ Z.max (x - 5) 0.
Proof.
  intros Hn Hd. pose proof (decimal_exponent_scaled n d Hn Hd) as He. unfold six_digits. cbv zeta in *.
  set (y := decimal_exponent n d) in *. replace (- (y - 5)) with (5 - y) in He by lia.
  set (R := if y <=? 5 then _ else _).
  assert (R = round_half_even (n * 10 ^ Z.max (5 - y) 0) (d * 10 ^ Z.max (y - 5) 0)) as HR.
  { subst R. destruct (Z.leb_spec y 5).
    - by rewrite Z.max_l, Z.max_r, Z.mul_1_r by lia.
    - by rewrite Z.max_r, Z.max_l, Z.mul_1_r by lia. }
  clearbody R. pose proof (Z.pow_pos_nonneg 10 (Z.max (y - 5) 0) ltac:(lia) ltac:(lia)).
  pose proof (Z.pow_pos_nonneg 10 (Z.max (5 - y) 0) ltac:(lia) ltac:(lia)).
  assert (2 * Z.abs (R * (d * 10 ^ Z.max (y - 5) 0) - n * 10 ^ Z.max (5 - y) 0) <= d * 10 ^ Z.max (y - 5) 0) as Hr
    by (rewrite HR; apply round_half_even_spec; nia).
  assert (10 ^ 5 <= R <= 10 ^ 6) as HD.
  { generalize dependent (d * 10 ^ Z.max (y - 5) 0). intros b. generalize (n * 10 ^ Z.max (5 - y) 0). intros a. nia. }
  destruct (Z.eqb_spec R (10 ^ 6)) as [E|E]; intros [= <- <-]; (split; [lia|]); [|done].
  rewrite E in Hr. destruct (Z.le_gt_cases 5 y).
  - rewrite Z.max_l, Z.max_r in Hr |- * by lia.
    replace (y + 1 - 5) with (1 + (y - 5)) by lia. rewrite Z.pow_add_r by lia. rewrite Z.pow_0_r in *. lia.
  - rewrite Z.max_r, Z.max_l in Hr |- * by lia.
    replace (5 - y) with (1 + (5 - (y + 1))) in Hr by lia. rewrite Z.pow_add_r in Hr by lia. lia.
Qed.

(** ** The dump of a heap *)

(** What the text says of the block [kb]. *)
Record dumped (w : World) (kb : Z * BlockRecord) (e : object_entry) : Prop := {
  du_payload : oe_payload e = kb.1;
  du_payload_size : oe_payload_size e = payload_size kb;
  du_reserved_size : oe_reserved_size e = reserved_size kb;
  du_alignment : ∃ n, blocks w !! br_header kb.2 = Some (n, oe_alignment e);
  du_references : NoDup (oe_references e) ∧ ∀ k, k ∈ oe_references e ↔ edge w kb.1 k ∧ k ≠ kb.1;
}.

Section Described.
Context (w : World) (Hwf : heap_wf w).

Lemma edge_key k k' : edge w k k' → 0 < k'.
Proof.
  intros (b & b' & a & _ & _ & [Hin _]%(find_block_spec w Hwf)).
  pose proof (wf_extent w Hwf _ _ Hin). unfold sizeof_ChunkHeader in *. lia.
Qed.

Lemma describes_printable k b o : (k, b) ∈ allocations w → describes w k b o → printable o.
Proof.
  intros Hin (Hp & Hs & Hr & _ & _ & [n Ha] & _ & Href). pose proof (wf_extent w Hwf _ _ Hin) as He.
  pose proof (wf_begin w Hwf _ _ Hin). unfold payload_size, reserved_size, sizeof_ChunkHeader in *. simpl in *.
  split; [lia..| |].
  - destruct (bo_header _ _ _ (wf_block w Hwf _ _ Hin)) as (h & _ & _ & _ & _ & _ & _ & E).
    rewrite E in Ha. injection Ha as _ <-. apply Z.mod_pos_bound. done.
  - apply Forall_forall. intros r [Hr' _]%Href. by apply edge_key in Hr'.
Qed.

Lemma describes_dumped k b o : describes w k b o → dumped w (k, b) (entry_of o).
Proof. intros (Hp & Hs & Hr & _ & _ & Ha & Hnd & Href). by split. Qed.
End Described.

(** C40. [dump_heap] writes a text from which the heap can be read back: the two
    byte counters, the fragmentation ratio to six digits, and every block of
    the registry in address order with its sizes, its alignment and, once each,
    the other blocks a word of its payload points into.  The world is released. *)
Theorem dump_is_the_object_graph {ASAN : AsanRuntime} me env w :
  heap_wf w → oom w = [] → may_run me w = true → collecting_ (mgr w) = false →
  all_others_paused me (announce me w) = true →
  ∃ text c, exec (dump_heap_text me env) w = Ret text (released (announce me w)) ∧ read_dump text = Some c ∧
    dc_live_bytes c = managed_bytes_ (mgr w) ∧ dc_reserved_bytes c = reserved_bytes_ (mgr w) ∧
    dc_fragmentation_ratio c = format_double (fragmentation_ratio (stats_locked (mgr w))) ∧
    Forall2 (dumped w) (allocations w) (dc_objects c).
Proof.
  intros Hwf Ho Hrun Hc Hp. destruct (describe_all_spec (announce me w) (announce_wf me w Hwf) Ho) as (infos & E & Hi).
  assert (Forall2 (λ kb o, describes w kb.1 kb.2 o) (allocations w) infos) as Hd by exact Hi.
  set (s := stats_locked (mgr w)).
  set (items := Heap_line (Z.of_nat (length infos)) (live_bytes s) (reserved_bytes s) (fragmentation_ratio s)
    :: (infos ≫= dump_object)).
  assert (exec (dump_heap_text me env) w = Ret (dump_text items) (released (announce me w))) as Ed.
  { unfold dump_heap_text, dump_heap, stats, live_objects. rewrite !exec_bind, exec_locked by done.
    unfold gets. cbv beta iota. by rewrite exec_bind, inspect_runs, E. }
  assert (Forall printable infos) as Hpr.
  { apply Forall_forall. intros o [i Hi']%list_elem_of_lookup.
    destruct (Forall2_lookup_r _ _ _ _ _ Hd Hi') as ([k b] & Hin%list_elem_of_lookup_2 & Ho'). by eapply describes_printable. }
  exists (dump_text items). eexists. split; [exact Ed|]. split.
  { apply read_dump_spec; [by apply managed_nonneg|by apply reserved_nonneg|done]. }
  simpl. split_and!; try done. apply Forall2_fmap_r. eapply Forall2_impl; [exact Hd|].
  intros [k b] o. apply describes_dumped.
Qed.

Definition dump_park : ParkEnv := {| pe_stack_marker := 0; pe_registers := [] |}.

Lemma dump_is_the_object_graph_witness :
  ∃ text c, exec (@dump_heap_text no_asan 1 dump_park) demo_world = Ret text demo_world ∧ read_dump text = Some c ∧
    Forall2 (dumped demo_world) (allocations demo_world) (dc_objects c) ∧
    oe_references <$> dc_objects c = [[addr_B]; []; [addr_D]; []].
Proof.
  destruct (@dump_is_the_object_graph no_asan 1 dump_park demo_world demo_wf eq_refl eq_refl eq_refl eq_refl)
    as (text & c & E & Hr & _ & _ & _ & Hd).
  exists text, c. split; [exact E|]. split; [exact Hr|]. split; [exact Hd|].
  assert (match exec (@dump_heap_text no_asan 1 dump_park) demo_world with
    | Ret text _ => (λ c, oe_references <$> dc_objects c) <$> read_dump text = Some [[addr_B]; []; [addr_D]; []]
    | _ => False end) as Hv by (vm_compute; reflexivity).
  rewrite E, Hr in Hv. injection Hv as Hv. exact Hv.
Defined.
