(* ===== verification/Disciplines.v ===== *)
(** * Every operation keeps to the protocol

    The critical sections of the collector leave the thread table and the stop
    request alone ([calm]), except those that register a thread or stop the
    world; every public operation, run in any phase, is [Neutral]: it ends in
    the phase it began in, with the world released if it stopped it. *)

From S2P Require Import Prelude Words Memory OrdMap Chunk Manager Heap Scanner Mark Finalize WeakRefs.
From S2P Require Import Sweep Threads Protocol Collect Roots Alloc Handles GcNew Diagnostics.

(** ** Critical sections *)

Lemma calm_require me : calm (require_registered_thread_locked me).
Proof. unfold require_registered_thread_locked. calm. Qed.
#[export] Hint Resolve calm_require : calm.

Lemma calm_write_word a v : calm (write_word a v).
Proof. unfold write_word. calm. Qed.
#[export] Hint Resolve calm_write_word : calm.

Lemma calm_mark_candidate c wl : calm (mark_candidate_locked c wl).
Proof. unfold mark_candidate_locked. calm. Qed.
#[export] Hint Resolve calm_mark_candidate : calm.

Lemma calm_read_payload_words b : calm (read_payload_words b).
Proof.
  intros w r w' E. unfold yields, read_payload_words in E.
  destruct (payload_words _ _ _), r; simplify_eq; done.
Qed.
#[export] Hint Resolve calm_read_payload_words : calm.

Lemma calm_read_record k : calm (read_record k).
Proof.
  intros w r w' E. unfold yields, read_record in E. destruct (sm_find k _), r; simplify_eq; done.
Qed.
#[export] Hint Resolve calm_read_record : calm.

Lemma calm_drain fuel wl : calm (drain_mark_worklist_locked fuel wl).
Proof.
  revert wl. induction fuel as [|fuel IH]; intros [|k wl]; simpl; [calm..|].
  apply calm_bind; [calm|intros b]. apply calm_bind; [unfold scan_payload_locked; calm|apply IH].
Qed.
#[export] Hint Resolve calm_drain : calm.

Section Scan.
Context {ASAN : AsanRuntime} {A : Type} (visitor : Z → A → M World A).
Hypothesis Hvisit : ∀ c a, calm (visitor c a).

Lemma calm_scan_words_loop fuel m cur finish acc : calm (scan_words_loop visitor fuel m cur finish acc).
Proof.
  revert cur acc. induction fuel as [|fuel IH]; intros cur acc; simpl; [calm|].
  case_match; [|calm]. apply calm_bind; [case_match; [calm|apply Hvisit]|intros; apply IH].
Qed.

Lemma calm_scan_words m b e acc : calm (scan_words visitor m b e acc).
Proof. unfold scan_words. repeat case_match; auto using calm_scan_words_loop, calm_ret. Qed.
Hint Resolve calm_scan_words : calm.

Lemma calm_scan_stack_range m t b h acc : calm (scan_stack_range visitor m t b h acc).
Proof. unfold scan_stack_range. calm. Qed.
Hint Resolve calm_scan_stack_range : calm.

Lemma calm_scan_globals env m acc : calm (scan_globals visitor env m acc).
Proof.
  assert (∀ images acc, calm (dl_iterate_phdr visitor m images acc)) as Hd.
  { induction images as [|i images IH]; intros acc'; simpl; [calm|].
    apply calm_bind; [unfold scan_linux_image, scan_segment; calm|]. intros r. case_match; [apply IH|calm]. }
  assert (∀ fuel space a acc, calm (scan_regions visitor fuel space m a acc)) as Hw.
  { induction fuel as [|fuel IH]; intros space a acc'; simpl; [calm|]. unfold scan_region. calm; apply IH. }
  unfold scan_globals. destruct (se_platform env); [|unfold scan_globals_apple, scan_section; calm|apply Hw|apply calm_ret].
  apply calm_bind; [apply Hd|intros; calm].
Qed.

Lemma calm_scan env m b acc : calm (scan visitor env m b acc).
Proof.
  unfold scan, scan_registers. apply calm_bind; [calm|intros]. apply calm_bind; [calm|intros].
  apply calm_scan_globals.
Qed.
End Scan.
#[export] Hint Resolve calm_scan_words calm_scan_stack_range calm_scan : calm.

Lemma calm_mark_phase {ASAN : AsanRuntime} env me : calm (mark_phase env me).
Proof.
  unfold mark_phase, clear_marks_locked, mark_constructing_locked, scan_registered_threads_locked,
    scan_registered_roots_locked, scan_thread, scan_range, scan_thread_stack. calm.
Qed.
#[export] Hint Resolve calm_mark_phase : calm.

Lemma calm_invalidate pb pe : calm (invalidate_weak_refs_for_block_locked pb pe).
Proof. unfold invalidate_weak_refs_for_block_locked, when. calm. Qed.
#[export] Hint Resolve calm_invalidate : calm.

Lemma calm_order_blocks bs : calm (order_blocks bs).
Proof.
  unfold order_blocks. calm. intros w r w' E. unfold yields, run_order in E.
  destruct (order_blocks_for_finalization_locked _ _), r; simplify_eq; done.
Qed.
#[export] Hint Resolve calm_order_blocks : calm.

Lemma calm_sweep : calm sweep_locked.
Proof. unfold sweep_locked, collect_unmarked, sweep_entry. calm. Qed.
#[export] Hint Resolve calm_sweep : calm.

Lemma calm_collect_locked {ASAN : AsanRuntime} me env : calm (collect_locked me env).
Proof. unfold collect_locked, bytes_freed. calm. Qed.

Lemma calm_shutdown_locked : calm shutdown_locked.
Proof. unfold shutdown_locked, detach_all_blocks_locked, when. calm. Qed.

(** ** Actions outside the manager *)

Lemma private_bind {A B} (m : M World A) (f : A → M World B) :
  private m → (∀ a, private (f a)) → private (m ≫= f).
Proof.
  intros Hm Hf w r w' E. unfold yields, mbind, M_bind in E.
  destruct (m w) as [a w1|e w1|] eqn:Em; [| |by destruct r].
  - rewrite <-(Hm w (Ok a) w1 Em). by apply (Hf a w1 r w').
  - destruct r; [done|]. injection E as -> <-. by apply (Hm w (Raise _) w1 Em).
Qed.

Lemma private_set {A} (act : M World A) (f : World → World) a :
  (∀ w, act w = Ret a (f w)) → (∀ w, mgr (f w) = mgr w) → private act.
Proof. intros E Hf w r w'. unfold yields. rewrite E. destruct r; [|done]. intros [= _ <-]. apply Hf. Qed.

Lemma private_read_header p : private (read_header p).
Proof. intros w r w' E. unfold yields, read_header in E. destruct (headers w !! p), r; simplify_eq; done. Qed.

Lemma private_gets {A} (f : World → A) : private (gets f).
Proof. intros w [x|e] w' E; [|done]. by injection E as _ <-. Qed.

Lemma private_stuck {A} why : private (λ _, Stuck why : outcome World A).
Proof. by intros w [x|e] w' E. Qed.

Lemma private_operator_delete p a : private (operator_delete p a).
Proof. intros w r w' E. unfold yields, operator_delete in E. repeat case_match; destruct r; simplify_eq; done. Qed.

Lemma private_free_block_memory h : private (free_block_memory h).
Proof.
  apply private_bind; [apply private_read_header|intros hd].
  apply private_bind; [by apply (private_set _ (set_headers (delete h)) tt)|intros _]. apply private_operator_delete.
Qed.

Lemma private_operator_new {ALLOC : Allocator} n a : private (operator_new n a).
Proof. intros w r w' E. unfold yields, operator_new in E. repeat case_match; destruct r; simplify_eq; done. Qed.

Lemma private_write_word a v : private (write_word a v).
Proof. by apply (private_set _ (set_mem (λ m, store_word m a v)) tt). Qed.

Lemma private_modify f : (∀ w, mgr (f w) = mgr w) → private (modify f).
Proof. intros Hf. by apply (private_set _ f tt). Qed.

Create HintDb private discriminated.
#[export] Hint Resolve private_read_header private_gets private_stuck private_free_block_memory
  private_operator_new private_operator_delete private_write_word : private.
#[export] Hint Extern 1 (private (modify _)) => apply private_modify; reflexivity : private.
#[export] Hint Extern 1 (private (read_word _)) => apply private_gets : private.

(** ** Operations *)

(** Walks through a process down to its critical sections. *)
Ltac neutral :=
  repeat first
    [ assumption
    | solve [auto 2 with neutral nocore]
    | apply neutral_done
    | apply neutral_private; solve [auto 2 with private nocore]
    | apply neutral_locked; solve [calm]
    | apply neutral_bind; [|intros ?]
    | apply neutral_bind_result; [|intros ?]
    | case_match ].

Create HintDb neutral discriminated.

Section Threads.
Context {ASAN : AsanRuntime} (me : thread_id) (env : ParkEnv).

(** A section may change its own entry, but not whether it is paused. *)
Definition keeps_running {A} (body : M World A) : Prop := ∀ w r w',
  sm_wf (threads w) → paused me w = false → yields body w r w' →
  control w' = control w ∧ own_entry me w w' ∧ paused me w' = false.

Lemma keeps_running_calm {A} (body : M World A) : calm body → keeps_running body.
Proof.
  intros Hc w r w' Hwf Hp [Ht Hctl]%Hc. split_and!; [done|by apply own_entry_same|].
  by rewrite (proj1 (same_threads me _ _ Ht)).
Qed.

Lemma keeps_running_bind {A B} (m : M World A) (f : A → M World B) :
  keeps_running m → (∀ a, keeps_running (f a)) → keeps_running (m ≫= f).
Proof.
  intros Hm Hf w r w' Hwf Hp E. unfold yields, mbind, M_bind in E.
  destruct (m w) as [a w1|e w1|] eqn:Em; [| |by destruct r].
  - destruct (Hm w (Ok a) w1 Hwf Hp Em) as (Hc1 & [Ho1 Hw1] & Hp1).
    destruct (Hf a w1 r w' (Hw1 Hwf) Hp1 E) as (Hc2 & [Ho2 Hw2] & Hp2).
    split_and!; [congruence|split; [|auto]|done]. intros t Ht. by rewrite Ho2, Ho1.
  - destruct r as [|e']; [done|]. injection E as -> <-. by apply (Hm w (Raise e') w1).
Qed.

Lemma keeps_running_modify f :
  (∀ w, sm_wf (threads w) → paused me w = false →
     control (f w) = control w ∧ own_entry me w (f w) ∧ paused me (f w) = false) →
  keeps_running (modify f).
Proof. intros Hf w [x|e] w' Hwf Hp E; [|done]. injection E as _ <-. by apply Hf. Qed.

Lemma neutral_keeps_running {A} (body : M World A) : keeps_running body → Neutral me (locked me env body).
Proof.
  intros Hb ph Ha. apply disciplined_locked_after; [done|apply publishes_nothing|done|].
  intros w r w' Hl Hrun Hy. destruct (active_ne _ Ha) as [Hn _].
  assert (paused me w = false) as Hp.
  { destruct (paused me w) eqn:E; [|done]. by apply (lo_paused _ _ _ Hl) in E. }
  destruct (Hb w r w' (lo_wf _ _ _ Hl) Hp Hy) as (? & ? & ?). exists ph. split; [|done].
  apply so_act; [done..|congruence].
Qed.

Lemma neutral_register_stack_bottom sb : Neutral me (register_stack_bottom me env sb).
Proof.
  unfold register_stack_bottom. case_match; [neutral|]. apply neutral_keeps_running.
  apply keeps_running_bind; [apply keeps_running_calm; calm|intros []].
  apply keeps_running_bind; [apply keeps_running_calm; calm|intros _].
  apply keeps_running_modify. intros w Hwf Hp. split; [done|]. split; [split|].
  - intros t Ht. simpl. rewrite sm_find_alter. destruct (Z.eqb_spec t me); [done|]. by apply sm_find_emplace_ne.
  - intros _. simpl. by apply sm_wf_alter, sm_wf_emplace.
  - unfold paused in *. simpl. rewrite sm_find_alter, Z.eqb_refl.
    destruct (sm_find me (threads w)) as [s|] eqn:E.
    + by rewrite (sm_emplace_present _ _ s), E by done.
    + by rewrite sm_find_emplace_eq.
Qed.

Lemma neutral_unregister : Neutral me (unregister_current_thread me env).
Proof.
  apply neutral_keeps_running, keeps_running_modify. intros w Hwf Hp. split; [done|]. split; [split|].
  - intros t Ht. simpl. rewrite sm_find_erase by done. by destruct (Z.eqb_spec t me).
  - intros _. simpl. by apply sm_wf_erase.
  - unfold paused. simpl. by rewrite sm_find_erase, Z.eqb_refl.
Qed.

Lemma neutral_register_root_range b e : Neutral me (register_root_range me env b e).
Proof.
  unfold register_root_range. case_match; [neutral|]. intros ph Ha.
  apply disciplined_locked_after; [done| |done|apply section_ok_calm; [done|calm]].
  intros w r w' Hy. unfold yields, mbind, M_bind, native_alloc, modify in Hy.
  destruct (oom w) as [|[] o], r as [[]|e']; simplify_eq; [by eexists|by apply publishes_mgr|by eexists].
Qed.
End Threads.
#[export] Hint Resolve neutral_register_stack_bottom neutral_unregister neutral_register_root_range : neutral.

Section Stop.
Context {ASAN : AsanRuntime} (dtor : DestructorFn → Z → proc unit) (me : thread_id) (env : CollectEnv).
Hypothesis dtor_neutral : ∀ d p, Neutral me (dtor d p).

(** A process that is neutral and does not throw. *)
Definition quiet {A} (p : proc A) : Prop :=
  ∀ ph, active ph → disciplined me p (λ r ph', ph' = ph ∧ ∃ a, r = Ok a) ph.

Lemma quiet_ret {A} (a : A) : quiet (mret a).
Proof. intros ph _. split; [done|by exists a]. Qed.

Lemma quiet_atomic {A} (act : M World A) :
  private act → (∀ w e w', act w ≠ Throw e w') → quiet (atomic act).
Proof.
  intros Hp Hn ph Ha. split; [done|]. intros w r w' _ _ Hy. exists ph. split.
  - apply so_publish; [done|]. apply publishes_mgr. by eapply Hp.
  - destruct r as [a|e]; [by split; [|exists a]|]. by apply Hn in Hy.
Qed.

Lemma quiet_bind_result {A B} (p : proc A) (f : result A → proc B) :
  Neutral me p → (∀ r, quiet (f r)) → quiet (bind_result p f).
Proof.
  intros Hp Hf ph Ha. apply disciplined_bind_result. eapply disciplined_mono; [|by apply Hp].
  intros r ph' ->. by apply Hf.
Qed.

Lemma quiet_bind {A B} (p : proc A) (f : A → proc B) : quiet p → (∀ a, quiet (f a)) → quiet (p ≫= f).
Proof.
  intros Hp Hf ph Ha. apply disciplined_bind_result. eapply disciplined_mono; [|by apply Hp].
  intros r ph' [-> [a ->]]. by apply Hf.
Qed.

Lemma quiet_terminate {A} : quiet (atomic (λ _, Stuck Terminated : outcome World A)).
Proof. by apply quiet_atomic; [apply private_stuck|]. Qed.

Lemma free_block_memory_no_throw h w e w' : free_block_memory h w ≠ Throw e w'.
Proof.
  unfold free_block_memory, mbind, M_bind, read_header, modify, operator_delete.
  repeat case_match; simplify_eq; done.
Qed.

Lemma quiet_destroy_blocks hs : quiet (destroy_blocks dtor hs).
Proof.
  unfold destroy_blocks. apply quiet_bind; [|intros _].
  - induction hs as [|h hs IH]; simpl; [apply quiet_ret|]. apply quiet_bind; [|intros _; apply IH].
    unfold finalize_block. case_match; [apply quiet_ret|]. apply quiet_bind; [|intros hd].
    + apply quiet_atomic; [apply private_read_header|]. intros w e w'. unfold read_header. by case_match.
    + case_match; [apply quiet_ret|]. apply quiet_bind; [|intros _].
      * apply quiet_atomic; [by apply private_modify|done].
      * apply quiet_bind_result; [apply dtor_neutral|]. intros []; [apply quiet_ret|apply quiet_terminate].
  - induction hs as [|h hs IH]; simpl; [apply quiet_ret|]. apply quiet_bind; [|intros _; apply IH].
    apply quiet_atomic; [apply private_free_block_memory|apply free_block_memory_no_throw].
Qed.

(** The shape [collect], [shutdown] and the inspections share: a section that
    may stop the world, the wait, and a rest that ends with the release. *)
Definition may_request {X} (enter_body : M World X) (stops : X → bool) : Prop :=
  ∀ w r w', yields enter_body w r w' →
    (threads w' = threads w ∧ control w' = control w ∧ ∀ a, r = Ok a → stops a = false) ∨
    (collecting_ (mgr w) = false ∧ w' = set_mgr (set_stw (Some me) true true) w ∧ ∃ a, r = Ok a ∧ stops a = true).

Definition releases {A} (p : proc A) : Prop := disciplined me p (λ _ ph, ph = Running) Owner.

Lemma neutral_stop {X B C} (enter_body : M World X) (stops : X → bool) (act : M World B)
    (k : X → proc C) (rest : result B → proc C) penv :
  may_request enter_body stops → calm act → (∀ r, releases (rest r)) →
  (∀ a, if stops a then k a = bind_result (wait_for_other_threads_to_pause_locked me act) rest
        else Neutral me (k a)) →
  Neutral me (locked me penv enter_body ≫= k).
Proof.
  intros Henter Hact Hrest Hk ph Ha. apply disciplined_bind_result.
  eapply disciplined_mono; [|apply disciplined_locked_after; [done|apply publishes_nothing| |
    by apply (section_ok_request me enter_body stops)]]; [|done].
  intros [a|e] ph'; simpl; [|done]. specialize (Hk a). destruct (stops a).
  - intros [-> ->]. rewrite Hk. by apply disciplined_wait.
  - intros ->. by apply Hk.
Qed.

Lemma releases_then {B} (r : result B) (p : proc B) : p = Done r → releases (release_stop_the_world;; p).
Proof. intros ->. by apply disciplined_release. Qed.

Lemma destroy_then_release hs : releases (destroy_blocks dtor hs;; release_stop_the_world).
Proof.
  apply disciplined_bind_result. eapply disciplined_mono; [|apply quiet_destroy_blocks; by right].
  intros r ph [-> [[] ->]]. split; [done|]. intros w r w' Hl _ Hy. destruct r as [[]|e]; [|done].
  injection Hy as <-. exists Running. split; [by apply so_release|done].
Qed.

Lemma may_request_enter (check : M World unit) :
  calm check → (∀ w u w', check w = Ret u w' → w' = w) →
  may_request (w ← get;
    if collecting_ (mgr w) then mret false else check;; request_stop_the_world me;; mret true) (λ b, b).
Proof.
  intros Hc Hsame w r w' Hy. unfold yields in Hy. rewrite M_bind_get in Hy.
  destruct (collecting_ (mgr w)) eqn:Hcol.
  { left. destruct r as [b|]; [|done]. injection Hy as <- <-. split_and!; [done|done|by intros b [= <-]]. }
  unfold mbind, M_bind in Hy. destruct (check w) as [[] w1|e w1|] eqn:E; [| |by destruct r].
  - right. destruct r as [b|]; [|done]. injection Hy as <- <-. rewrite (Hsame w tt w1 E).
    split_and!; [done|done|by exists true].
  - left. destruct r as [|e']; [done|]. injection Hy as <- <-.
    destruct (Hc w (Raise e) w1 E) as [-> ->]. done.
Qed.

Lemma require_same t w u w' : require_registered_thread_locked t w = Ret u w' → w' = w.
Proof.
  unfold require_registered_thread_locked. rewrite M_bind_get. case_match; [|done]. by intros [= _ <-].
Qed.

Lemma neutral_collect : Neutral me (collect dtor me env).
Proof.
  unfold collect. apply (neutral_stop (collect_enter me) (λ b, b) (collect_locked me env) _ (λ r,
    match r with
    | Raise e => release_stop_the_world;; raise e
    | Ok unreachable => destroy_blocks dtor unreachable;; release_stop_the_world
    end)).
  - apply (may_request_enter (require_registered_thread_locked me)); [calm|apply require_same].
  - apply calm_collect_locked.
  - intros [hs|e]; [apply destroy_then_release|by apply (releases_then (Raise e))].
  - intros [|]; [done|apply neutral_done].
Qed.

Lemma neutral_shutdown : Neutral me (shutdown dtor me env).
Proof.
  unfold shutdown. apply (neutral_stop (shutdown_enter me) (λ b, b) shutdown_locked _ (λ r,
    match r with
    | Raise e => release_stop_the_world;; raise e
    | Ok blocks => destroy_blocks dtor blocks;; release_stop_the_world
    end)).
  - intros w r w' Hy. apply (may_request_enter (mret tt)); [calm|by intros ? [] ? [= <-]|].
    unfold yields, shutdown_enter in *. rewrite M_bind_get in *. by destruct (collecting_ (mgr w)).
  - apply calm_shutdown_locked.
  - intros [hs|e]; [apply destroy_then_release|by apply (releases_then (Raise e))].
  - intros [|]; [done|apply neutral_done].
Qed.

Lemma neutral_collect_if_needed n : Neutral me (collect_if_needed dtor me env n).
Proof.
  unfold collect_if_needed. apply neutral_bind; [|intros []; [apply neutral_collect|apply neutral_done]].
  apply neutral_locked. unfold collection_needed. calm.
Qed.

Lemma neutral_inspect {A} penv (body : M World A) : calm body → Neutral me (inspect me penv body).
Proof.
  intros Hc. unfold inspect.
  apply (neutral_stop (inspect_enter me body) (λ o, match o with Some _ => false | None => true end) body _
    (λ r, release_stop_the_world;; match r with Ok a => mret a | Raise e => raise e end)).
  - intros w r w' Hy. unfold yields, inspect_enter in Hy. rewrite M_bind_get in Hy.
    destruct (collecting_ (mgr w)) eqn:Hcol.
    + left. unfold mbind, M_bind in Hy. destruct (body w) as [a w1|e w1|] eqn:E; [| |by destruct r];
        destruct r as [o|e']; try done; injection Hy as <- <-.
      * destruct (Hc w (Ok a) w1 E). split_and!; [done..|by intros ? [= <-]].
      * by destruct (Hc w (Raise e) w1 E).
    + right. destruct r as [o|]; [|done]. injection Hy as <- <-. split_and!; [done..|by exists None].
  - done.
  - intros r. by apply (releases_then r); destruct r.
  - intros [a|]; [apply neutral_done|done].
Qed.

#[local] Hint Resolve neutral_collect : neutral.
Context {ALLOC : Allocator}.

Lemma neutral_malloc_internal size alignment d c : Neutral me (malloc_internal dtor me env size alignment d c).
Proof.
  unfold malloc_internal, allocate_block, operator_new_retry. neutral.
  all: unfold publish_block, register_block_locked; neutral.
Qed.

Lemma neutral_finish_construction p : Neutral me (finish_construction me env p).
Proof. unfold finish_construction, finish_construction_locked. neutral. Qed.

Lemma neutral_release_unconstructed p : Neutral me (release_unconstructed me env p).
Proof. unfold release_unconstructed, release_unconstructed_locked. neutral. Qed.
End Stop.
#[export] Hint Resolve neutral_collect neutral_shutdown neutral_collect_if_needed neutral_malloc_internal
  neutral_finish_construction neutral_release_unconstructed : neutral.

(** The roots, the registration guards and the handles are built from these. *)
Section Handles.
Context {ASAN : AsanRuntime} (me : thread_id) (env : ParkEnv).

Lemma neutral_unregister_root_range b e : Neutral me (unregister_root_range me env b e).
Proof. unfold unregister_root_range. neutral. Qed.
#[local] Hint Resolve neutral_unregister_root_range : neutral.

Lemma neutral_register_root_object o n : Neutral me (register_root_object me env o n).
Proof. unfold register_root_object. neutral. Qed.

Lemma neutral_unregister_root_object o n : Neutral me (unregister_root_object me env o n).
Proof. unfold unregister_root_object. neutral. Qed.
#[local] Hint Resolve neutral_register_root_object neutral_unregister_root_object : neutral.

Lemma neutral_ScopedRootRange_reset this b e : Neutral me (ScopedRootRange_reset me env this b e).
Proof. unfold ScopedRootRange_reset. neutral. Qed.

Lemma neutral_ScopedRootObject_reset n o o' : Neutral me (ScopedRootObject_reset me env n o o').
Proof. unfold ScopedRootObject_reset. neutral. Qed.

Lemma neutral_gc_root_new self p : Neutral me (gc_root_new me env self p).
Proof. unfold gc_root_new, register_self. neutral. Qed.

Lemma neutral_gc_root_destroy self : Neutral me (gc_root_destroy me env self).
Proof. unfold gc_root_destroy, unregister_self, noexcept. neutral. Qed.

Lemma neutral_safepoint : Neutral me (safepoint me env).
Proof. unfold safepoint. neutral. Qed.

Lemma neutral_is_registered : Neutral me (is_current_thread_registered me env).
Proof. unfold is_current_thread_registered. neutral. Qed.
#[local] Hint Resolve neutral_is_registered : neutral.

Lemma neutral_ScopedThreadRegistration_at sb : Neutral me (ScopedThreadRegistration_at me env sb).
Proof. unfold ScopedThreadRegistration_at. neutral. Qed.

Lemma neutral_noexcept {A} (p : proc A) : Neutral me p → Neutral me (noexcept p).
Proof. intros Hp. unfold noexcept. neutral. Qed.

Lemma neutral_ScopedThreadRegistration limits : Neutral me (ScopedThreadRegistration me env limits).
Proof. unfold ScopedThreadRegistration, register_current_thread. neutral. Qed.

Lemma neutral_destroy_registration b : Neutral me (destroy_ScopedThreadRegistration me env b).
Proof. unfold destroy_ScopedThreadRegistration. case_match; [apply neutral_noexcept; neutral|neutral]. Qed.

Lemma neutral_gc_root_copy self other : Neutral me (gc_root_copy me env self other).
Proof. unfold gc_root_copy, gc_root_new, register_self. neutral. Qed.
#[local] Hint Resolve neutral_gc_root_copy : neutral.

Lemma neutral_gc_root_move self other : Neutral me (gc_root_move me env self other).
Proof. unfold gc_root_move. neutral. Qed.

Lemma neutral_gc_root_assign self other : Neutral me (gc_root_assign self other).
Proof. unfold gc_root_assign. neutral. Qed.

Lemma neutral_gc_root_move_assign self other : Neutral me (gc_root_move_assign self other).
Proof. unfold gc_root_move_assign. neutral. Qed.

Lemma neutral_gc_weak_ptr_new self p : Neutral me (gc_weak_ptr_new me env self p).
Proof. unfold gc_weak_ptr_new, register_weak_ref, push_weak_ref. neutral. Qed.

Lemma neutral_gc_weak_ptr_destroy self : Neutral me (gc_weak_ptr_destroy me env self).
Proof. unfold gc_weak_ptr_destroy, noexcept, unregister_weak_ref. neutral. Qed.

Lemma neutral_gc_weak_ptr_copy self other : Neutral me (gc_weak_ptr_copy me env self other).
Proof. unfold gc_weak_ptr_copy, copy_weak_ref, push_weak_ref. neutral. Qed.

Lemma neutral_gc_weak_ptr_take self other : Neutral me (gc_weak_ptr_take me env self other).
Proof. unfold gc_weak_ptr_take, update_weak_ref. neutral. Qed.

Lemma neutral_gc_weak_ptr_move self other : Neutral me (gc_weak_ptr_move me env self other).
Proof. apply neutral_noexcept, neutral_gc_weak_ptr_take. Qed.

Lemma neutral_gc_weak_ptr_reset self : Neutral me (gc_weak_ptr_reset me env self).
Proof. unfold gc_weak_ptr_reset, noexcept, unregister_weak_ref. neutral. Qed.
#[local] Hint Resolve neutral_gc_weak_ptr_take neutral_gc_weak_ptr_reset neutral_gc_weak_ptr_new
  neutral_gc_weak_ptr_copy neutral_gc_weak_ptr_destroy : neutral.

Lemma neutral_gc_weak_ptr_move_assign self other : Neutral me (gc_weak_ptr_move_assign me env self other).
Proof. apply neutral_noexcept. neutral. Qed.
#[local] Hint Resolve neutral_gc_weak_ptr_move_assign : neutral.

Lemma neutral_gc_weak_ptr_copy_assign self other t : Neutral me (gc_weak_ptr_copy_assign me env self other t).
Proof. unfold gc_weak_ptr_copy_assign. neutral. Qed.

Lemma neutral_gc_weak_ptr_assign self p t : Neutral me (gc_weak_ptr_assign me env self p t).
Proof. unfold gc_weak_ptr_assign. neutral. Qed.

Lemma neutral_gc_weak_ptr_lock self : Neutral me (gc_weak_ptr_lock me env self).
Proof. unfold gc_weak_ptr_lock, noexcept, read_weak_ref. neutral. Qed.

Lemma calm_describe_block self b : calm (describe_block_locked self b).
Proof. unfold describe_block_locked, collect_outgoing_references_locked, outgoing_reference. calm. Qed.
#[local] Hint Resolve calm_describe_block : calm.

Lemma neutral_gc_weak_ptr_expired self : Neutral me (gc_weak_ptr_expired me env self).
Proof. unfold gc_weak_ptr_expired, noexcept, read_weak_ref. neutral. Qed.

Lemma neutral_stats : Neutral me (stats me env).
Proof. unfold stats. neutral. Qed.

Lemma neutral_is_live p : Neutral me (is_live me env p).
Proof. unfold is_live. neutral. Qed.

Lemma neutral_set_threshold t : Neutral me (set_collection_threshold_bytes me env t).
Proof. unfold set_collection_threshold_bytes. neutral. Qed.

Lemma neutral_live_objects : Neutral me (live_objects me env).
Proof. apply neutral_inspect. unfold describe_all_locked. calm. Qed.

Lemma neutral_object_info p : Neutral me (object_info me env p).
Proof. unfold object_info. case_match; [neutral|]. apply neutral_inspect. unfold object_info_locked. calm. Qed.
End Handles.
#[export] Hint Resolve neutral_unregister_root_range neutral_register_root_object neutral_unregister_root_object
  neutral_ScopedRootRange_reset neutral_ScopedRootObject_reset neutral_gc_root_new neutral_gc_root_destroy
  neutral_safepoint neutral_is_registered neutral_ScopedThreadRegistration_at neutral_gc_weak_ptr_new
  neutral_gc_weak_ptr_destroy neutral_gc_weak_ptr_copy neutral_gc_weak_ptr_move neutral_gc_weak_ptr_reset
  neutral_gc_weak_ptr_move_assign neutral_gc_weak_ptr_copy_assign neutral_gc_weak_ptr_assign
  neutral_gc_weak_ptr_lock neutral_gc_weak_ptr_expired neutral_live_objects neutral_object_info neutral_stats
  neutral_is_live neutral_set_threshold neutral_ScopedThreadRegistration neutral_destroy_registration
  neutral_gc_root_copy neutral_gc_root_move neutral_gc_root_assign neutral_gc_root_move_assign : neutral.

Section New.
Context {ASAN : AsanRuntime} {ALLOC : Allocator}.
Context (dtor : DestructorFn → Z → proc unit) (me : thread_id) (env : CollectEnv).
Hypothesis dtor_neutral : ∀ d p, Neutral me (dtor d p).

Lemma neutral_gc_new n a d ctor : (∀ p, Neutral me (ctor p)) → Neutral me (gc_new dtor me env n a d ctor).
Proof. intros Hc. unfold gc_new. neutral; try apply Hc; auto with neutral. Qed.

Lemma neutral_nothrow p : Neutral me p → Neutral me (nothrow p).
Proof. intros Hp. unfold nothrow. neutral. Qed.

Section Array.
Context (n a : Z) (d : DestructorFn) (construct : Z → nat → proc unit) (elem_dtor : Z → proc unit).
Hypothesis construct_neutral : ∀ p i, Neutral me (construct p i).
Hypothesis elem_dtor_neutral : ∀ p, Neutral me (elem_dtor p).

Lemma neutral_construct_elements p k i : Neutral me (construct_elements n a construct p k i).
Proof. revert i. induction k as [|k IH]; intros i; simpl; neutral. Qed.

Lemma neutral_destroy_elements p k : Neutral me (destroy_elements n a elem_dtor p k).
Proof. induction k as [|k IH]; simpl; neutral. Qed.
#[local] Hint Resolve neutral_construct_elements neutral_destroy_elements neutral_noexcept : neutral.

Lemma neutral_construct_array count : Neutral me (construct_array dtor me env n a count d construct elem_dtor).
Proof.
  unfold construct_array, construct_payload, ArrayDestructor_destroy. neutral; auto with neutral.
Qed.
End Array.
End New.
