(* ===== verification/CollectorTheorems.v ===== *)
(** * The collector: theorems

    The properties of the collector proper: lookup, scanning, marking,
    finalization order, sweeping, and whole collections, each with an instance
    at the heap of Scenario. *)

From S2P Require Import Prelude Words Memory OrdMap Chunk Manager Heap Scanner Scenario Mark.
From S2P Require Import Finalize WeakRefs Sweep Threads Collect CollectSpec.

(** ** The collection of Scenario *)

Definition demo_collect_env : CollectEnv :=
  {| ce_scan := demo_env; ce_park := {| pe_stack_marker := 0; pe_registers := [] |};
     ce_start := 10; ce_now := 25 |}.

Lemma demo_env_ok : @env_ok no_asan demo_env.
Proof.
  split; simpl; [done|unfold word_size, SIZE_MAX; lia|unfold is_size, SIZE_MAX; lia|done|].
  by intros i s ?%elem_of_nil.
Qed.

Lemma demo_roots_ok : @roots_ok no_asan demo_env demo_world.
Proof.
  split; [apply demo_env_ok|..].
  - intros t s [[= -> ->]|?%elem_of_nil]%elem_of_cons; [|done]. simpl. unfold is_size, SIZE_MAX. lia.
  - intros r [->|?%elem_of_nil]%elem_of_cons; [|done]. simpl. unfold demo_root, is_size, SIZE_MAX. lia.
Qed.

(** ** Collection *)

(** C2. The locked part of a collection keeps exactly the blocks the roots
    reach: what it returns are the headers of exactly the other blocks, once
    each, the registry is left well formed with every mark cleared, and the
    statistics count the bytes no longer managed.  If a native allocation
    fails it throws [bad_alloc] having changed nothing but mark bits. *)
Theorem collect_keeps_exactly_the_reachable {ASAN : AsanRuntime} env me w :
  heap_wf w → roots_ok (ce_scan env) w →
  match collect_locked me env w with
  | Ret hs w' =>
      heap_wf w' ∧
      (∀ kb, kb ∈ allocations w' ↔ kb ∈ allocations w ∧ live env me w kb.1) ∧
      NoDup hs ∧
      (∀ p, p ∈ hs ↔ ∃ k b, (k, b) ∈ allocations w ∧ ¬ live env me w k ∧ br_header b = p) ∧
      (∀ kb, kb ∈ allocations w' → markedb w' kb = false) ∧
      stats_ (mgr w') = stats_on_collect (Z.of_nat (length hs))
        (managed_bytes_ (mgr w) - managed_bytes_ (mgr w')) (ce_now env - ce_start env) (stats_ (mgr w))
  | Throw e w' => e = bad_alloc ∧ may_fail w ∧ with_oom (oom w) w' ≈ₘ w
  | Stuck _ => False
  end.
Proof.
  intros Hwf Hr. destruct (collect_locked_cases env me w Hwf Hr) as [(w' & -> & ? & ?)|(hs & w' & -> & Hc)]; [done|].
  destruct Hc as [? ? [? ?]]. done.
Qed.

Lemma collect_keeps_exactly_the_reachable_witness :
  match @collect_locked no_asan 1 demo_collect_env demo_world with
  | Ret hs w' => hs = [4224; 4288] ∧ (allocations w').*1 = [addr_A; addr_B] ∧ heap_wf w'
  | _ => False
  end.
Proof.
  assert (match @collect_locked no_asan 1 demo_collect_env demo_world with
    | Ret hs w' => hs = [4224; 4288] ∧ (allocations w').*1 = [addr_A; addr_B]
    | _ => False end) as Hv by (vm_compute; by split).
  pose proof (@collect_keeps_exactly_the_reachable no_asan demo_collect_env 1 demo_world demo_wf demo_roots_ok) as H.
  destruct (@collect_locked no_asan 1 demo_collect_env demo_world) as [hs w'| |]; [|done..].
  destruct H as [H _], Hv as [Hv1 Hv2]. done.
Defined.

(** ** What is reachable in Scenario *)

Lemma demo_edges k k' :
  edge demo_world k k' → (k = addr_A ∧ k' = addr_B) ∨ (k = addr_C ∧ k' = addr_D).
Proof.
  intros (b & b' & a & Hin & Ha & Hf).
  assert (find_block_locked demo_registry (load_word demo_memory a) = Some (k', b')) as Hf' by exact Hf.
  clear Hf. change (allocations demo_world) with demo_registry in Hin.
  repeat (apply elem_of_cons in Hin as [[= -> ->]|Hin]); try (by apply elem_of_nil in Hin);
    vm_compute in Ha; repeat (apply elem_of_cons in Ha as [->|Ha]); try (by apply elem_of_nil in Ha);
    vm_compute in Hf'; try done; injection Hf' as <- _; auto.
Qed.

Lemma demo_live k : @live no_asan demo_collect_env 1 demo_world k ↔ k = addr_A ∨ k = addr_B.
Proof.
  assert (@roots_of no_asan demo_collect_env 1 demo_world = [addr_A]) as Hr by (vm_compute; done).
  assert (find_block_locked demo_registry addr_A = Some (addr_A, demo_record 4096)) as Hf by (vm_compute; done).
  unfold live. rewrite Hr. split.
  - induction 1 as [c k b ->%list_elem_of_singleton Hf'|k k' _ IH [[_ ->]|[-> ->]]%demo_edges].
    + change (allocations demo_world) with demo_registry in Hf'. rewrite Hf in Hf'.
      injection Hf' as <- _. by left.
    + by right.
    + exfalso. unfold addr_A, addr_B, addr_C in IH. lia.
  - assert (reachable demo_world [addr_A] addr_A) as HA by (eapply reach_root; [left|exact Hf]).
    intros [->| ->]; [done|]. eapply reach_edge; [exact HA|].
    exists (demo_record 4096), (demo_record 4160), addr_A. split_and!; [left|left|vm_compute; done].
Qed.

Lemma demo_dead k : k = addr_C ∨ k = addr_D → ¬ @live no_asan demo_collect_env 1 demo_world k.
Proof. intros Hk [->| ->]%demo_live; unfold addr_A, addr_B, addr_C, addr_D in Hk; lia. Qed.

Lemma demo_dead_edge : @dead_edge no_asan demo_collect_env 1 demo_world addr_C addr_D.
Proof.
  split_and!; [by apply demo_dead; left|by apply demo_dead; right|done|].
  exists (demo_record 4224), (demo_record 4288), addr_C.
  split_and!; [right; right; left|left|vm_compute; done].
Qed.

Lemma demo_acc k : Acc (@dead_edge no_asan demo_collect_env 1 demo_world) k.
Proof.
  assert (∀ k', k' ≠ addr_D → Acc (@dead_edge no_asan demo_collect_env 1 demo_world) k') as H.
  { intros k' Hne. constructor. intros x (_ & Hd & _ & [[_ ->]|[_ ->]]%demo_edges); [|done].
    exfalso. apply Hd, demo_live. by right. }
  constructor. intros x (_ & _ & Hne & _). destruct (decide (x = addr_D)) as [->|]; [|auto].
  constructor. intros y (_ & Hd & Hne' & [[_ Hb]|[-> _]]%demo_edges); [done|]. by apply H.
Qed.

(** C17. Finalization order: a dead block comes before every other dead block it
    points into, unless that one lies on a cycle of dead blocks or behind one. *)
Theorem finalization_follows_dependencies {ASAN : AsanRuntime} env me w hs w' k b k' b' :
  heap_wf w → roots_ok (ce_scan env) w → collect_locked me env w = Ret hs w' →
  (k, b) ∈ allocations w → (k', b') ∈ allocations w →
  dead_edge env me w k k' → Acc (dead_edge env me w) k' → before hs (br_header b) (br_header b').
Proof.
  intros Hwf Hr E Hin Hin' Hd Hacc.
  destruct (collect_locked_cases env me w Hwf Hr) as [(? & E' & _)|(hs' & w2 & E' & Hc)]; rewrite E in E'.
  - done.
  - injection E' as <- _. by eapply (co_order _ _ _ _ _ Hc).
Qed.

Lemma finalization_follows_dependencies_witness : before [4224; 4288] 4224 4288.
Proof.
  assert (∃ w', @collect_locked no_asan 1 demo_collect_env demo_world = Ret [4224; 4288] w') as [w' E]
    by (eexists; vm_compute; reflexivity).
  exact (@finalization_follows_dependencies no_asan demo_collect_env 1 demo_world _ w' addr_C
    (demo_record 4224) addr_D (demo_record 4288) demo_wf demo_roots_ok E
    (list_elem_of_lookup_2 demo_registry 2 _ eq_refl) (list_elem_of_lookup_2 demo_registry 3 _ eq_refl)
    demo_dead_edge (demo_acc addr_D)).
Defined.

(** The log of a destruction does not depend on mark bits. *)
Lemma finalize_event_same w w' p : same_rest w w' → finalize_event w p = finalize_event w' p.
Proof.
  intros Hr. pose proof (f_equal (lookup p) (sr_headers _ _ Hr)) as Hp. rewrite !lookup_fmap in Hp.
  unfold finalize_event. destruct (headers w !! p) as [h|], (headers w' !! p) as [h'|]; try done.
  simpl in Hp. injection Hp as _ Hd _ Ho _. unfold payload_pointer. by rewrite Hd, Ho.
Qed.



(** Collections do not nest: one requested while another is under way (a
    finalizer's, say) does nothing, and one by a thread that never registered
    is refused, without effect. *)
Theorem collect_guards {ASAN : AsanRuntime} dtor env me w :
  may_run me w = true →
  (collecting_ (mgr w) = true → exec (collect dtor me env) w = Ret tt w) ∧
  (collecting_ (mgr w) = false → registered me w = false →
   exec (collect dtor me env) w = Throw not_registered_error w).
Proof. intros Hrun. split; [by apply collect_nested|by apply collect_unregistered]. Qed.

Lemma collect_guards_witness :
  exec (@collect no_asan no_finalizer 1 demo_collect_env) (announce 1 demo_world) = Ret tt (announce 1 demo_world) ∧
  exec (@collect no_asan no_finalizer 2 demo_collect_env) demo_world = Throw not_registered_error demo_world.
Proof.
  split.
  - apply (proj1 (@collect_guards no_asan no_finalizer demo_collect_env 1 (announce 1 demo_world) eq_refl)).
    reflexivity.
  - apply (proj2 (@collect_guards no_asan no_finalizer demo_collect_env 2 demo_world eq_refl)); reflexivity.
Defined.

(** A finalizer that throws terminates the program before anything of its
    batch is freed. *)
Theorem throwing_finalizer_terminates dtor p hs w h e w' :
  headers w !! p = Some h → p ≠ 0 → ch_destructor h ≠ 0 →
  exec (dtor (ch_destructor h) (payload_pointer p h))
    (add_log (EvFinalize (payload_pointer p h)) w) = Throw e w' →
  exec (destroy_blocks dtor (p :: hs)) w = Stuck Terminated.
Proof.
  intros Hh Hp Hd E. unfold destroy_blocks. cbn [finalize_blocks].
  by rewrite exec_bind, exec_bind, (finalize_block_throws dtor w p h e w').
Qed.

Lemma throwing_finalizer_terminates_witness :
  exec (destroy_blocks (λ _ _, raise (user_exception 7)) [4224; 4288]) demo_world = Stuck Terminated.
Proof.
  apply (throwing_finalizer_terminates (λ _ _, raise (user_exception 7)) 4224 [4288] demo_world
    (demo_header 1) (user_exception 7) (add_log (EvFinalize 4256) demo_world)); [reflexivity|done|done|reflexivity].
Defined.

(** ** Marking *)

(** C12. The mark phase changes nothing but mark bits and marks exactly the
    blocks reachable from the root words, whatever was marked before; a failed
    allocation of the worklist leaves everything but marks as it was. *)
Theorem mark_phase_marks_the_reachable {ASAN : AsanRuntime} env me w :
  heap_wf w → roots_ok env w →
  match mark_phase env me w with
  | Ret _ w' => with_oom (oom w) w' ≈ₘ w ∧
      ∀ k, marked w' k ↔ reachable w (root_candidates env me w) k
  | Throw e w' => e = bad_alloc ∧ may_fail w ∧ with_oom (oom w) w' ≈ₘ w
  | Stuck _ => False
  end.
Proof.
  intros Hwf Hr. set (cenv := {| ce_scan := env; ce_park := {| pe_stack_marker := 0; pe_registers := [] |};
    ce_start := 0; ce_now := 0 |}).
  destruct (mark_phase_cases cenv me w Hwf Hr) as (w1 & Heq & [[E Hf]|(E & _ & Hm)]);
    simpl in E; rewrite E; done.
Qed.

Lemma mark_phase_marks_the_reachable_witness :
  ∃ w', @mark_phase no_asan demo_env 1 demo_world = Ret tt w' ∧ marked w' addr_B ∧ ¬ marked w' addr_D.
Proof.
  destruct (@mark_phase no_asan demo_env 1 demo_world) as [[] w'|e w'|why] eqn:E;
    pose proof (@mark_phase_marks_the_reachable no_asan demo_env 1 demo_world demo_wf demo_roots_ok) as H;
    rewrite E in H.
  - exists w'. split; [reflexivity|]. destruct H as [_ Hm]. split.
    + apply Hm, demo_live. by right.
    + intros Hd%Hm. by apply (demo_dead addr_D ltac:(by right)).
  - exfalso. destruct H as (_ & Hf & _). by apply elem_of_nil in Hf.
  - exfalso. exact H.
Defined.

(** The worklist never outgrows the capacity reserved for it, one slot per
    block, and holds no block twice: pushing onto it cannot reallocate. *)
Theorem worklist_fits_its_reserve w cs wl w' :
  heap_wf w → (∀ k, ¬ marked w k) → foldM mark_candidate_locked cs [] w = Ret wl w' →
  (length wl <= length (allocations w))%nat ∧ NoDup wl.
Proof.
  intros Hwf Hno E. destruct (foldM_mark_spec cs [] w Hwf) as (w1 & wl1 & E1 & Hm).
  rewrite E in E1. injection E1 as <- <-. pose proof (marks_capacity _ _ _ _ _ Hm) as Hc.
  pose proof (unmarked_le w). destruct Hm as [_ (new & -> & Hnd & _) _]. rewrite app_nil_r in *.
  simpl in *. split; [lia|done].
Qed.

Lemma demo_unmarked k : ¬ marked demo_world k.
Proof.
  intros (b & Hin & Hm). change (allocations demo_world) with demo_registry in Hin.
  repeat (apply elem_of_cons in Hin as [[= -> ->]|Hin]); [..|by apply elem_of_nil in Hin];
    vm_compute in Hm; discriminate.
Qed.

Lemma worklist_fits_its_reserve_witness :
  ∃ wl w', foldM mark_candidate_locked [addr_A; addr_B + 4; addr_A + 1; 17] [] demo_world = Ret wl w' ∧
    wl = [addr_B; addr_A] ∧ NoDup wl.
Proof.
  destruct (foldM mark_candidate_locked [addr_A; addr_B + 4; addr_A + 1; 17] [] demo_world)
    as [wl w'|e w'|why] eqn:E.
  - exists wl, w'. split; [reflexivity|]. split.
    + assert (match foldM mark_candidate_locked [addr_A; addr_B + 4; addr_A + 1; 17] [] demo_world with
        | Ret wl _ => wl | _ => [] end = [addr_B; addr_A]) as Hv by (vm_compute; reflexivity).
      rewrite E in Hv. exact Hv.
    + exact (proj2 (worklist_fits_its_reserve demo_world _ wl w' demo_wf demo_unmarked E)).
  - exfalso. vm_compute in E. discriminate.
  - exfalso. vm_compute in E. discriminate.
Defined.

(** ** Lookup *)

(** C25. An address resolves to a block exactly when it lies in the block's
    payload, and to no other block; the address of a header, padding or foreign
    memory resolves to none. *)
Theorem find_block_resolves_payloads w a :
  heap_wf w →
  match find_block_locked (allocations w) a with
  | Some (k, b) => (k, b) ∈ allocations w ∧ br_payload_begin b <= a < br_payload_end b ∧
      ∀ k' b', (k', b') ∈ allocations w → br_payload_begin b' <= a < br_payload_end b' → k' = k ∧ b' = b
  | None => ∀ k b, (k, b) ∈ allocations w → ¬ br_payload_begin b <= a < br_payload_end b
  end.
Proof.
  intros Hwf. destruct (find_block_locked (allocations w) a) as [[k b]|] eqn:E.
  - apply (find_block_spec w Hwf) in E as [Hin Ha].
    split_and!; [done|rewrite (wf_begin w Hwf _ _ Hin); lia|rewrite ?(wf_begin w Hwf _ _ Hin); lia|].
    intros k' b' Hin' Ha'. rewrite (wf_begin w Hwf _ _ Hin') in Ha'.
    by eapply (wf_unique_key w Hwf).
  - intros k b Hin Ha. rewrite (wf_begin w Hwf _ _ Hin) in Ha.
    rewrite (proj2 (find_block_spec w Hwf a k b)) in E; done.
Qed.

Lemma find_block_resolves_payloads_witness :
  find_block_locked demo_registry (addr_B + 31) = Some (addr_B, demo_record 4160) ∧
  find_block_locked demo_registry (addr_B + 32) = None ∧
  ∀ k b, (k, b) ∈ demo_registry → ¬ br_payload_begin b <= addr_B + 32 < br_payload_end b.
Proof.
  split; [vm_compute; reflexivity|]. split; [vm_compute; reflexivity|].
  exact (find_block_resolves_payloads demo_world (addr_B + 32) demo_wf).
Defined.

(** ** Scanning *)

(** A range scan visits exactly the complete, word-aligned, unpoisoned words
    between its two ends, given in either order, in address order; a null end
    makes it empty. *)
Theorem scan_words_visits_aligned_words {ASAN : AsanRuntime} {S A : Type}
    (visitor : Z → A → M S A) m b e acc s :
  is_size b → is_size e →
  scan_words visitor m b e acc s = foldM visitor (load_word m <$> scan_addrs b e) acc s ∧
  StronglySorted Z.lt (scan_addrs b e) ∧
  ∀ a, a ∈ scan_addrs b e ↔
    b ≠ 0 ∧ e ≠ 0 ∧ (word_size | a) ∧ Z.min b e <= a ∧ a + word_size <= Z.max b e ∧
    region_is_poisoned a word_size = false.
Proof.
  intros Hb He. split; [by apply scan_words_spec|]. split; [apply scan_addrs_sorted|].
  intros a. apply elem_of_scan_addrs.
Qed.

Lemma scan_words_visits_aligned_words_witness :
  @scan_words no_asan unit (list Z) (λ c acc, mret (acc ++ [c])) demo_memory (demo_root + 20) (demo_root - 3) [] tt =
  Ret [addr_A; 0] tt.
Proof.
  rewrite (proj1 (@scan_words_visits_aligned_words no_asan unit (list Z) (λ c acc, mret (acc ++ [c]))
    demo_memory (demo_root + 20) (demo_root - 3) [] tt ltac:(unfold is_size, SIZE_MAX, demo_root; lia)
    ltac:(unfold is_size, SIZE_MAX, demo_root; lia))).
  vm_compute. reflexivity.
Defined.

(** A root scan passes over the registers, the stack (through a fake stack
    frame when there is one) and the writable segments of every image, and an
    exception of the visitor comes out unchanged although the segments are
    visited from inside a C callback. *)
Theorem scan_visits_every_root {ASAN : AsanRuntime} {S A : Type}
    (visitor : Z → A → M S A) env m bottom acc s :
  env_ok env → is_size bottom →
  scan visitor env m bottom acc s = foldM visitor (scan_candidates env m bottom) acc s.
Proof. by apply scan_spec. Qed.

Definition image_env : ScanEnv :=
  {| se_jmp_buf := 90000; se_registers := [5; 6]; se_local_marker := 131064;
     se_platform := Linux [{| dlpi_addr := demo_root; dlpi_phdr := [{| p_type := 1; p_flags := 6; p_vaddr := 0; p_memsz := 8 |}] |};
                   {| dlpi_addr := demo_root; dlpi_phdr := [{| p_type := 1; p_flags := 5; p_vaddr := 0; p_memsz := 8 |}] |}] |}.

Lemma scan_visits_every_root_witness :
  @scan no_asan unit (list Z) (λ c acc, if c =? addr_A then throw (user_exception 3) else mret (acc ++ [c]))
    image_env demo_memory 131072 [] tt = Throw (user_exception 3) tt ∧
  @scan no_asan unit (list Z) (λ c acc, mret (acc ++ [c])) image_env demo_memory 131072 [] tt =
    Ret [5; 6; 0; addr_A] tt.
Proof.
  assert (@env_ok no_asan image_env) as He.
  { split; simpl; [done|unfold word_size, SIZE_MAX; lia|unfold is_size, SIZE_MAX; lia|done|].
    intros i g [->|[->|Hi%elem_of_nil]%elem_of_cons]%elem_of_cons; [..|done]; simpl;
      intros [->|Hg%elem_of_nil]%elem_of_cons; done. }
  assert (is_size 131072) as Hb by (unfold is_size, SIZE_MAX; lia).
  split; rewrite (@scan_visits_every_root no_asan unit (list Z) _ _ _ _ _ _ He Hb);
    vm_compute; reflexivity.
Defined.

(** C38. The Windows walk over the address space ends, on as many turns as there
    are regions, however much fuel it has, and it misses nothing: a word of the
    writable data of an image, with no hole in the address space below it, is
    among the words visited. *)
Theorem windows_walk_covers {ASAN : AsanRuntime} {S A : Type} (visitor : Z → A → M S A) space m acc s :
  platform_ok (Windows space) →
  (∀ fuel, (length (regions space) < fuel)%nat →
     scan_regions visitor fuel space m 0 acc s = scan_globals_windows visitor space m acc s) ∧
  scan_globals_windows visitor space m acc s =
    foldM visitor (mbi ← walked space; region_candidates m mbi) acc s ∧
  ∀ a, 0 <= a → (∀ y, 0 <= y <= a → is_Some (VirtualQuery space y)) →
    ∃ mbi, mbi ∈ walked space ∧ mbi_BaseAddress mbi <= a < region_end mbi ∧
      (image_data mbi = true → (word_size | a) → mbi_BaseAddress mbi ≠ 0 → a + word_size <= region_end mbi →
       region_end mbi < 2 ^ 64 → region_is_poisoned a word_size = false →
       load_word m a ∈ (mbi ← walked space; region_candidates m mbi)).
Proof.
  intros Hok. split_and!; [|by apply scan_globals_windows_spec|].
  - intros fuel Hf. rewrite scan_globals_windows_spec by done. rewrite scan_regions_spec; [|done|].
    + do 2 f_equal. apply walk_regions_fuel; [done|..];
        unfold regions_above; pose proof (length_filter (λ mbi, 0 < region_end mbi) (regions space)); lia.
    + unfold regions_above. pose proof (length_filter (λ mbi, 0 < region_end mbi) (regions space)). lia.
  - intros a Ha Hall. destruct (walk_covers space Hok (Datatypes.S (length (regions space))) 0 a)
      as (mbi & Hin & Hb); [|done|done|].
    { unfold regions_above. pose proof (length_filter (λ mbi, 0 < region_end mbi) (regions space)). lia. }
    exists mbi. split_and!; [done|lia|lia|]. intros Hd Hal Hb0 He Hmax Hp.
    apply list_elem_of_bind. exists mbi. split; [|done]. unfold region_candidates. rewrite Hd.
    apply list_elem_of_fmap_2, elem_of_scan_addrs. fold (region_end mbi).
    assert (0 <= mbi_BaseAddress mbi) by by eapply walk_regions_base.
    rewrite wrap64_small by lia. split_and!; try done; lia.
Qed.

(** A hole of one page, the data of an image, its code. *)
Definition two_page_space : AddressSpace :=
  let region a type protect := {| mbi_BaseAddress := a; mbi_RegionSize := 4096; mbi_State := MEM_COMMIT;
                                  mbi_Protect := protect; mbi_Type := type |} in
  let rs := [region 0 0 0; region 4096 MEM_IMAGE PAGE_READWRITE; region 8192 MEM_IMAGE 0x20] in
  {| VirtualQuery := λ a, if a <? 0 then None else rs !! Z.to_nat (a / 4096); regions := rs |}.

Lemma two_page_ok : platform_ok (Windows two_page_space).
Proof.
  intros a mbi. simpl. destruct (Z.ltb_spec a 0) as [|Ha]; [done|]. intros E.
  split; [by eapply list_elem_of_lookup_2|].
  pose proof (Z.div_mod a 4096 ltac:(done)). pose proof (Z.mod_pos_bound a 4096 ltac:(done)).
  pose proof (Z.div_pos a 4096 Ha ltac:(done)).
  apply (f_equal (λ o, (o, Z.to_nat (a / 4096)))) in E.
  destruct (Z.to_nat (a / 4096)) as [|[|[|n]]] eqn:En; simplify_eq/=; lia.
Qed.

Lemma windows_walk_covers_witness :
  @scan_globals_windows no_asan unit (list Z) (λ c acc, mret (acc ++ [c])) two_page_space
    (store_word ∅ 4104 addr_B) [] tt =
  @scan_regions no_asan unit (list Z) (λ c acc, mret (acc ++ [c])) 9 two_page_space (store_word ∅ 4104 addr_B) 0 [] tt ∧
  ∃ mbi, mbi ∈ walked two_page_space ∧ mbi_BaseAddress mbi <= 4104 < region_end mbi.
Proof.
  destruct (@windows_walk_covers no_asan unit (list Z) (λ c acc, mret (acc ++ [c])) two_page_space
    (store_word ∅ 4104 addr_B) [] tt two_page_ok) as (Hf & _ & Hc).
  split; [symmetry; apply Hf; simpl; lia|].
  destruct (Hc 4104) as (mbi & Hin & Hb & _); [lia| |exists mbi; exact (conj Hin Hb)].
  intros y Hy. simpl. destruct (Z.ltb_spec y 0); [lia|].
  pose proof (Z.div_mod y 4096 ltac:(done)). pose proof (Z.mod_pos_bound y 4096 ltac:(done)).
  assert (0 <= y / 4096 <= 1) as Hq by lia.
  assert (y / 4096 = 0 ∨ y / 4096 = 1) as [->| ->] by lia; simpl; eexists; reflexivity.
Defined.

(** ** Finalization order, sweep, invalidation *)

(** C24. The ordering returns every block exactly once, and a block before each
    other block it points into when that one is not on a cycle or behind one;
    it terminates on every graph. *)
Theorem ordering_is_topological m bs :
  blocks_sorted bs →
  ∃ ord, order_blocks_for_finalization_locked m bs = Some (header_of bs <$> ord) ∧
    ord ≡ₚ seq 0 (length bs) ∧
    ∀ i j, dep m bs i j → Acc (dep m bs) j → before ord i j.
Proof. apply order_blocks_spec. Qed.

Lemma ordering_is_topological_witness :
  order_blocks_for_finalization_locked (store_word ∅ addr_D addr_A) demo_registry.*2 =
    Some [4288; 4224; 4160; 4096] ∧
  ∃ ord, order_blocks_for_finalization_locked (store_word ∅ addr_D addr_A) demo_registry.*2 =
    Some (header_of demo_registry.*2 <$> ord) ∧ ord ≡ₚ [0; 1; 2; 3]%nat.
Proof.
  split; [vm_compute; reflexivity|].
  assert (blocks_sorted demo_registry.*2) as Hs.
  { pose proof (sublist_sorted demo_world (λ _, True) demo_wf) as H.
    rewrite filter_true in H; [exact H|done]. }
  destruct (ordering_is_topological (store_word ∅ addr_D addr_A) _ Hs) as (ord & E & Hp & _).
  exists ord. exact (conj E Hp).
Defined.

(** C21. The sweep is all or nothing.  When it returns, the registry holds exactly
    the marked blocks, in order and unmarked again, the counters are their sums,
    and the result lists the headers of exactly the unmarked ones; when an
    allocation fails it throws before it has touched anything. *)
Theorem sweep_is_all_or_nothing w :
  heap_wf w →
  match sweep_locked w with
  | Ret hs w' =>
      heap_wf w' ∧ allocations w' = filter (λ kb, markedb w kb = true) (allocations w) ∧
      (∀ kb, kb ∈ allocations w' → markedb w' kb = false) ∧
      hs ≡ₚ (λ kb, br_header kb.2) <$> filter (λ kb, markedb w kb = false) (allocations w)
  | Throw e w' => e = bad_alloc ∧ may_fail w ∧ ∃ o, w' = with_oom o w
  | Stuck _ => False
  end.
Proof.
  intros Hwf. destruct (sweep_spec w Hwf) as [(o & -> & Hf)|(o & hs & w' & -> & Hsw & _ & Hp & _)]; [eauto|].
  assert (allocations w' = filter (λ kb, markedb w kb = true) (allocations w)) as Ha.
  { rewrite (sw_alloc _ _ _ Hsw). apply filter_ext_in. intros kb Hkb.
    change (markedb (with_oom o w)) with (markedb w). tauto. }
  split_and!; [apply Hsw|done| |].
  - intros kb Hkb. rewrite (sw_marks _ _ _ Hsw) by done. rewrite decide_True; [done|].
    rewrite Ha in Hkb. by apply list_elem_of_filter in Hkb as [_ ?].
  - rewrite Hp. unfold dead_blocks. by rewrite <-list_fmap_compose.
Qed.

Lemma sweep_is_all_or_nothing_witness :
  (∃ hs w', sweep_locked demo_world = Ret hs w' ∧ heap_wf w' ∧ managed_bytes_ (mgr w') = 0) ∧
  (∃ w', sweep_locked (with_oom [false; true] demo_world) = Throw bad_alloc w' ∧ w' = with_oom [] demo_world).
Proof.
  pose proof (sweep_is_all_or_nothing demo_world demo_wf) as H.
  pose proof (sweep_is_all_or_nothing (with_oom [false; true] demo_world)
    (with_oom_wf _ _ demo_wf)) as H2. split.
  - assert (match sweep_locked demo_world with Ret _ w' => managed_bytes_ (mgr w') = 0 | _ => False end) as Hv
      by (clear H H2; vm_compute; reflexivity).
    destruct (sweep_locked demo_world) as [hs w'| |]; [|destruct Hv..].
    exists hs, w'. split; [reflexivity|]. exact (conj (proj1 H) Hv).
  - assert (match sweep_locked (with_oom [false; true] demo_world) with
      | Throw e w' => oom w' = [] | _ => False end) as Hv by (clear H H2; vm_compute; reflexivity).
    destruct (sweep_locked (with_oom [false; true] demo_world)) as [|e w'|]; [destruct Hv| |destruct Hv].
    destruct H2 as (-> & _ & o & ->). exists (with_oom o demo_world). split; [reflexivity|].
    simpl in Hv. rewrite Hv. reflexivity.
Defined.

(** Invalidation for a block drops exactly the entries whose target lies in
    its payload and clears exactly their words; every other handle keeps its
    word and its entry. *)
Theorem invalidation_is_exact w pb pe :
  weak_ok w →
  ∃ w', invalidate_weak_refs_for_block_locked pb pe w = Ret tt w' ∧ weak_ok w' ∧
    weak_refs w' = filter (λ e, ¬ (pb <= we_target e < pe)) (weak_refs w) ∧
    ∀ e, e ∈ weak_refs w → load_word (mem w') (we_storage e) =
      if decide (pb <= we_target e < pe) then 0 else encode_weak_ptr (we_target e).
Proof.
  intros Hok. eexists. split; [apply invalidate_spec|].
  assert (Hd : ∀ e, e ∈ filter (λ e, weak_hits pb pe e = true) (weak_refs w) → e ∈ weak_refs w)
    by by intros e [_ ?]%list_elem_of_filter.
  assert (Hkept : ∀ e, e ∈ weak_refs w → weak_hits pb pe e = false →
    load_word (clear_words (filter (λ e, weak_hits pb pe e = true) (weak_refs w)) (mem w)) (we_storage e) =
    load_word (mem w) (we_storage e)).
  { intros e He Hh. apply clear_words_kept; [done..|]. intros [? _]%list_elem_of_filter. congruence. }
  split_and!.
  - apply (weak_ok_sub w); [done|apply sublist_filter|]. intros e [Hh He]%list_elem_of_filter. by apply Hkept.
  - simpl. apply filter_ext_in. intros e _. rewrite <-weak_hits_spec. by destruct (weak_hits pb pe e).
  - intros e He. simpl. case_decide as Hh.
    + apply clear_words_dead; [done..|]. apply list_elem_of_filter. by rewrite weak_hits_spec.
    + rewrite Hkept; [by apply (wo_word w Hok)|done|].
      rewrite <-weak_hits_spec in Hh. by destruct (weak_hits pb pe e).
Qed.

Lemma demo_weak_ok : weak_ok demo_world.
Proof.
  split.
  - vm_compute. repeat constructor; rewrite ?elem_of_cons, ?elem_of_nil; intros H; naive_solver.
  - intros e e' [->|[->|[]%elem_of_nil]%elem_of_cons]%elem_of_cons
      [->|[->|[]%elem_of_nil]%elem_of_cons]%elem_of_cons; simpl; unfold weak_B, weak_D, word_size; lia.
  - intros e [->|[->|[]%elem_of_nil]%elem_of_cons]%elem_of_cons; vm_compute; reflexivity.
Qed.

Lemma invalidation_is_exact_witness :
  ∃ w', invalidate_weak_refs_for_block_locked addr_D (addr_D + 32) demo_world = Ret tt w' ∧
    load_word (mem w') weak_D = 0 ∧ load_word (mem w') weak_B = demo_encoded addr_B.
Proof.
  destruct (invalidation_is_exact demo_world addr_D (addr_D + 32) demo_weak_ok) as (w' & E & _ & _ & Hw).
  exists w'. split; [exact E|]. split.
  - exact (Hw _ (list_elem_of_lookup_2 (weak_refs demo_world) 1 _ eq_refl)).
  - exact (Hw _ (list_elem_of_lookup_2 (weak_refs demo_world) 0 _ eq_refl)).
Defined.

(** ** Shutdown and the collection policy *)



(** The automatic trigger: a collection runs exactly when none is under way
    and the managed bytes plus the incoming ones, saturating at the largest
    size, reach the threshold. *)
Theorem collect_if_needed_policy {ASAN : AsanRuntime} dtor env me n w :
  heap_wf w → may_run me w = true → registered me w = true → is_size n →
  (collecting_ (mgr w) = false ∧
     collection_threshold_bytes_ (mgr w) <= Z.min (managed_bytes_ (mgr w) + n) SIZE_MAX →
   exec (collect_if_needed dtor me env n) w = exec (collect dtor me env) w) ∧
  (collecting_ (mgr w) = true ∨
     Z.min (managed_bytes_ (mgr w) + n) SIZE_MAX < collection_threshold_bytes_ (mgr w) →
   exec (collect_if_needed dtor me env n) w = Ret tt w).
Proof.
  intros Hwf Hrun Hr Hn. rewrite collect_if_needed_runs; [|done..|].
  2:{ pose proof (managed_nonneg w Hwf). pose proof (wf_managed_max w Hwf). unfold is_size. lia. }
  split.
  - intros [-> Ht%Z.leb_le]. by rewrite Ht.
  - intros [->|Ht%Z.leb_gt]; [done|]. by rewrite Ht, andb_false_r.
Qed.

Lemma collect_if_needed_policy_witness :
  exec (@collect_if_needed no_asan no_finalizer 1 demo_collect_env 64) demo_world = Ret tt demo_world ∧
  exec (@collect_if_needed no_asan no_finalizer 1 demo_collect_env SIZE_MAX) demo_world =
    exec (@collect no_asan no_finalizer 1 demo_collect_env) demo_world.
Proof.
  split.
  - refine (proj2 (@collect_if_needed_policy no_asan no_finalizer demo_collect_env 1 64 demo_world demo_wf
      eq_refl eq_refl _) _); [unfold is_size, SIZE_MAX; lia|right; reflexivity].
  - refine (proj1 (@collect_if_needed_policy no_asan no_finalizer demo_collect_env 1 SIZE_MAX demo_world demo_wf
      eq_refl eq_refl _) _); [unfold is_size, SIZE_MAX; lia|split; [reflexivity|vm_compute; discriminate]].
Defined.
