(* ===== verification/ApiTheorems.v ===== *)
(** * The public interface: theorems

    Allocation, construction, explicit roots, weak handles, threads and
    diagnostics, each with an instance at a concrete heap. *)

From S2P Require Import Prelude Words Memory OrdMap Chunk Manager Heap Scanner Scenario Mark.
From S2P Require Import Finalize WeakRefs Sweep Threads Collect CollectSpec CollectorTheorems.
From S2P Require Import Roots Alloc Handles GcNew Diagnostics.

Definition demo_park : ParkEnv := {| pe_stack_marker := 0; pe_registers := [] |}.

(** ** Allocation *)

(** C16. [malloc_internal] on valid arguments with storage at hand: it returns an
    aligned payload of a new block that reads as zero, registered and counted,
    in a well-formed heap; or it throws [bad_alloc], because a counter would
    overflow or a native allocation failed, with registry, counters and
    outstanding storage as before.  It never gets stuck. *)
Theorem malloc_internal_correct {ASAN : AsanRuntime} {ALLOC : Allocator} dtor me env w size k d c raw :
  heap_wf w → may_run me w = true → registered me w = true →
  0 < size → 0 <= k <= 15 → layout_offset k + size <= SIZE_MAX →
  new_address w (layout_offset k + size) (2 ^ Z.max k 4) = Some raw →
  match exec (malloc_internal dtor me env size (2 ^ k) d c) w with
  | Ret p w' =>
      heap_wf w' ∧ (2 ^ k | p) ∧ (16 | p) ∧
      allocations w' ≡ₚ
        (p, {| br_header := raw; br_payload_begin := p; br_payload_end := p + size; br_constructing := c |})
        :: allocations w ∧
      (∀ a, p <= a → a + 8 <= p + size → load_word (mem w') a = 0) ∧
      managed_bytes_ (mgr w') = managed_bytes_ (mgr w) + size ∧
      reserved_bytes_ (mgr w') = reserved_bytes_ (mgr w) + (layout_offset k + size)
  | Throw e w' =>
      e = bad_alloc ∧ heap_wf w' ∧ allocations w' = allocations w ∧ blocks w' = blocks w ∧
      managed_bytes_ (mgr w') = managed_bytes_ (mgr w) ∧
      (may_fail w ∨ SIZE_MAX < managed_bytes_ (mgr w) + size ∨
       SIZE_MAX < reserved_bytes_ (mgr w) + (layout_offset k + size))
  | Stuck _ => False
  end.
Proof.
  intros Hwf Hrun Hreg Hs Hk Hfit Hraw.
  pose proof (malloc_ends dtor me env w size k d c Hrun ltac:(lia) raw Hwf ltac:(lia) Hs Hfit Hreg Hraw) as He.
  destruct He as [o h|h Hfull|o m h Hf].
  - eapply published_facts; eauto.
  - split_and!; [done|by eapply (freed_wf w raw size k d)|done|by eapply (freed_blocks w raw size k d)|done|by right].
  - split_and!; [done|by eapply (freed_wf w raw size k d)|done|by eapply (freed_blocks w raw size k d)|done|by left].
Qed.

Lemma malloc_internal_correct_witness :
  ∃ p w', exec (@malloc_internal no_asan bump_allocator no_finalizer 1 demo_collect_env 40 (2 ^ 3) 9 true) fresh_world =
    Ret p w' ∧ p = 4128 ∧ heap_wf w' ∧ managed_bytes_ (mgr w') = 40.
Proof.
  assert (match exec (@malloc_internal no_asan bump_allocator no_finalizer 1 demo_collect_env 40 (2 ^ 3) 9 true) fresh_world with
    | Ret p _ => p = 4128 | _ => False end) as Hv by (vm_compute; reflexivity).
  pose proof (@malloc_internal_correct no_asan bump_allocator no_finalizer 1 demo_collect_env fresh_world 40 3 9 true 4096
    fresh_wf eq_refl eq_refl eq_refl ltac:(lia) ltac:(vm_compute; discriminate) ltac:(vm_compute; reflexivity)) as H.
  destruct (exec (@malloc_internal no_asan bump_allocator no_finalizer 1 demo_collect_env 40 (2 ^ 3) 9 true) fresh_world)
    as [p w'| |]; [|destruct Hv..].
  destruct H as (Hwf & _ & _ & _ & _ & Hm & _). exists p, w'.
  exact (conj eq_refl (conj Hv (conj Hwf Hm))).
Defined.

(** [malloc_internal] refuses, before it has any effect: a zero size, an
    alignment that is not a power of two, one so large that the payload offset
    leaves its 16-bit field, and a size whose total overflows; and then a thread
    that is not registered. *)
Theorem malloc_internal_refuses {ASAN : AsanRuntime} {ALLOC : Allocator} dtor me env w size a d c :
  may_run me w = true → is_size size → is_size a →
  ((size = 0 ∨ ¬ ∃ k, 0 <= k < 64 ∧ a = 2 ^ k) →
   exec (malloc_internal dtor me env size a d c) w = Throw bad_alloc w) ∧
  ∀ k, 0 < size → 0 <= k < 64 → a = 2 ^ k →
    (registered me w = false → exec (malloc_internal dtor me env size a d c) w = Throw not_registered_error w) ∧
    (registered me w = true → 16 <= k ∨ SIZE_MAX < layout_offset k + size →
     exec (malloc_internal dtor me env size a d c) w = Throw bad_alloc w).
Proof.
  intros Hrun Hs Ha. split.
  - intros [->|Hno]; [done|]. unfold malloc_internal.
    destruct (has_single_bit a) eqn:E; [|by rewrite orb_true_r].
    exfalso. by apply Hno, (has_single_bit_spec a Ha).
  - intros k Hpos Hk ->. split; [by intros; apply malloc_unregistered|].
    intros Hreg Hbad. rewrite malloc_enter by done. unfold add_would_overflow.
    destruct (Z.ltb_spec UINT16_MAX (layout_offset k)) as [|Hle]; [done|].
    destruct (Z.ltb_spec (SIZE_MAX - size) (layout_offset k)) as [|Hle']; [done|]. exfalso.
    destruct Hbad as [Hbad|Hbad]; [|lia]. pose proof (layout_offset_big k Hbad). lia.
Qed.

Lemma malloc_internal_refuses_witness :
  exec (@malloc_internal no_asan bump_allocator no_finalizer 1 demo_collect_env 8 24 0 true) fresh_world =
    Throw bad_alloc fresh_world ∧
  exec (@malloc_internal no_asan bump_allocator no_finalizer 1 demo_collect_env 8 (2 ^ 16) 0 true) fresh_world =
    Throw bad_alloc fresh_world ∧
  exec (@malloc_internal no_asan bump_allocator no_finalizer 2 demo_collect_env 8 8 0 true) fresh_world =
    Throw not_registered_error fresh_world.
Proof.
  assert (∀ x, 0 <= x <= 2 ^ 20 → is_size x) as Hs by (unfold is_size, SIZE_MAX; lia).
  split; [|split].
  - apply (@malloc_internal_refuses no_asan bump_allocator no_finalizer 1 demo_collect_env fresh_world 8 24 0 true
      eq_refl (Hs 8 ltac:(lia)) (Hs 24 ltac:(lia))). right. intros (k & Hk & E).
    assert (has_single_bit 24 = true) as H by (rewrite E; apply has_single_bit_pow2; lia).
    vm_compute in H. discriminate.
  - apply (proj2 (@malloc_internal_refuses no_asan bump_allocator no_finalizer 1 demo_collect_env fresh_world 8 (2 ^ 16) 0 true
      eq_refl (Hs 8 ltac:(lia)) (Hs (2 ^ 16) ltac:(lia))) 16); [lia|lia|reflexivity|reflexivity|lia].
  - apply (proj2 (@malloc_internal_refuses no_asan bump_allocator no_finalizer 2 demo_collect_env fresh_world 8 8 0 true
      eq_refl (Hs 8 ltac:(lia)) (Hs 8 ltac:(lia))) 3); [lia|lia|reflexivity|reflexivity].
Defined.

(** When no storage is at hand, one collection runs before the only second
    attempt: its exception goes out; if there is still no storage the result is
    [bad_alloc]; otherwise the call goes on as if storage had been at hand. *)
Theorem malloc_internal_collects_once {ASAN : AsanRuntime} {ALLOC : Allocator} dtor me env w size k d c :
  may_run me w = true → registered me w = true →
  0 < size → 0 <= k <= 15 → layout_offset k + size <= SIZE_MAX →
  new_address w (layout_offset k + size) (2 ^ Z.max k 4) = None →
  match exec (collect dtor me env) w with
  | Ret _ w1 =>
      match new_address w1 (layout_offset k + size) (2 ^ Z.max k 4) with
      | None => exec (malloc_internal dtor me env size (2 ^ k) d c) w = Throw bad_alloc w1
      | Some _ => may_run me w1 = true → registered me w1 = true →
          exec (malloc_internal dtor me env size (2 ^ k) d c) w =
          exec (malloc_internal dtor me env size (2 ^ k) d c) w1
      end
  | Throw e w1 => exec (malloc_internal dtor me env size (2 ^ k) d c) w = Throw e w1
  | Stuck why => exec (malloc_internal dtor me env size (2 ^ k) d c) w = Stuck why
  end.
Proof.
  intros Hrun Hreg Hs Hk Hfit Hnone.
  assert (∀ w, may_run me w = true → registered me w = true →
    exec (malloc_internal dtor me env size (2 ^ k) d c) w =
    exec (allocate_block dtor me env size (2 ^ Z.max k 4) (layout_offset k) d c) w) as Hent.
  { intros w0 Hr0 Hg0. rewrite malloc_enter by (done || lia).
    pose proof (layout_offset_bound k Hk). destruct (Z.ltb_spec UINT16_MAX (layout_offset k)); [lia|].
    by rewrite (proj2 (add_would_overflow_false _ _)). }
  assert (wrap64 (layout_offset k + size) = layout_offset k + size) as Hw64.
  { pose proof (layout_offset_bound k Hk). apply wrap64_size. unfold is_size, sizeof_ChunkHeader in *. lia. }
  rewrite (Hent w) by done. pose proof (operator_new_retry_spec dtor me env (layout_offset k + size) (2 ^ Z.max k 4) w) as Ew.
  rewrite Hnone in Ew.
  destruct (exec (collect dtor me env) w) as [[] w1|e w1|] eqn:Ec.
  - unfold operator_new in Ew. destruct (new_address w1 _ _) as [raw|] eqn:Hraw.
    + intros Hr1 Hg1. rewrite (Hent w1) by done. unfold allocate_block. rewrite Hw64, !exec_bind, Ew.
      by rewrite operator_new_retry_spec, Hraw.
    + unfold allocate_block. by rewrite Hw64, exec_bind, Ew.
  - unfold allocate_block. by rewrite Hw64, exec_bind, Ew.
  - unfold allocate_block. by rewrite Hw64, exec_bind, Ew.
Qed.

(** An allocator with room for four blocks. *)
Definition limited_address (w : World) (n a : Z) : option Z :=
  if (4 <=? size (blocks w))%nat then None else bump_address w n a.

Lemma limited_bump w n a p : limited_address w n a = Some p → bump_address w n a = Some p.
Proof. unfold limited_address. by destruct (4 <=? size (blocks w))%nat. Qed.

Definition limited_allocator : Allocator :=
  {| new_address := limited_address;
     new_address_pos w n a p H := @new_address_pos bump_allocator w n a p (limited_bump w n a p H);
     new_address_aligned w n a p Ha H := @new_address_aligned bump_allocator w n a p Ha (limited_bump w n a p H);
     new_address_low w n a p H := @new_address_low bump_allocator w n a p (limited_bump w n a p H);
     new_address_fresh w n a p q m b H :=
       @new_address_fresh bump_allocator w n a p q m b (limited_bump w n a p H) |}.

Lemma malloc_internal_collects_once_witness :
  ∃ w1, exec (@collect no_asan no_finalizer 1 demo_collect_env) demo_world = Ret tt w1 ∧
    exec (@malloc_internal no_asan limited_allocator no_finalizer 1 demo_collect_env 32 (2 ^ 3) 0 true) demo_world =
    exec (@malloc_internal no_asan limited_allocator no_finalizer 1 demo_collect_env 32 (2 ^ 3) 0 true) w1.
Proof.
  assert (match exec (@collect no_asan no_finalizer 1 demo_collect_env) demo_world with
    | Ret _ w1 => may_run 1 w1 = true ∧ registered 1 w1 = true ∧ limited_address w1 64 16 = Some 4224
    | _ => False end) as Hv by (vm_compute; repeat split).
  pose proof (@malloc_internal_collects_once no_asan limited_allocator no_finalizer 1 demo_collect_env demo_world 32 3 0 true
    eq_refl eq_refl eq_refl ltac:(lia) ltac:(vm_compute; discriminate) ltac:(vm_compute; reflexivity)) as H.
  destruct (exec (@collect no_asan no_finalizer 1 demo_collect_env) demo_world) as [[] w1| |]; [|destruct Hv..].
  exists w1. split; [reflexivity|]. destruct Hv as (H1 & H2 & H3).
  change (new_address w1 (layout_offset 3 + 32) (2 ^ Z.max 3 4)) with (limited_address w1 64 16) in H.
  rewrite H3 in H. exact (H H1 H2).
Defined.

(** Releasing an unconstructed block undoes its registration: in any
    well-formed heap the block, its bytes, its storage and the weak entries that
    point into it are gone, and nothing else is; null and unknown addresses are
    ignored. *)
Theorem release_unconstructed_correct {ASAN : AsanRuntime} me env w k :
  heap_wf w → may_run me w = true → registered me w = true →
  ∃ w', exec (release_unconstructed me env k) w = Ret tt w' ∧ heap_wf w' ∧
    match sm_find k (allocations w) with
    | None => w' = w
    | Some b =>
        allocations w' = filter (λ kb, kb.1 ≠ k) (allocations w) ∧
        managed_bytes_ (mgr w') = managed_bytes_ (mgr w) - (br_payload_end b - k) ∧
        headers w' = delete (br_header b) (headers w) ∧ blocks w' = delete (br_header b) (blocks w) ∧
        weak_refs w' = filter (λ e, ¬ (k <= we_target e < br_payload_end b)) (weak_refs w) ∧
        log w' = log w ++ [EvFree (br_header b)]
    end.
Proof.
  intros Hwf Hrun Hreg. destruct (sm_find k (allocations w)) as [b|] eqn:Ef.
  - apply sm_find_elem in Ef as Hin. eexists. split; [by apply release_unconstructed_alone|].
    split; [by apply freed_block_wf|]. unfold freed, drop_block. simpl. split_and!; try done.
    + apply sm_erase_filter, wf_sorted, Hwf.
    + unfold payload_size. simpl. rewrite (wf_begin w Hwf _ _ Hin). lia.
    + apply filter_ext_in. intros e _. rewrite <-weak_hits_spec. by destruct (weak_hits _ _ e).
  - exists w. split; [by apply release_unknown|done].
Qed.

Lemma release_unconstructed_correct_witness :
  ∃ w', exec (@release_unconstructed no_asan 1 demo_collect_env addr_B) demo_world = Ret tt w' ∧ heap_wf w' ∧
    allocations w' = filter (λ kb, kb.1 ≠ addr_B) demo_registry.
Proof.
  destruct (@release_unconstructed_correct no_asan 1 demo_collect_env demo_world addr_B demo_wf eq_refl eq_refl)
    as (w' & E & Hwf & H).
  exists w'. exact (conj E (conj Hwf (proj1 H))).
Defined.

(** Finishing a construction unpins exactly that block, keeping the heap well
    formed; an address that is not a payload is a [logic_error]. *)
Theorem finish_construction_correct {ASAN : AsanRuntime} me env w k :
  heap_wf w → may_run me w = true →
  match sm_find k (allocations w) with
  | None => exec (finish_construction me env k) w = Throw unknown_allocation_error w
  | Some b => ∃ w', exec (finish_construction me env k) w = Ret tt w' ∧ heap_wf w' ∧
      sm_find k (allocations w') = Some (set_constructing false b) ∧
      ∀ k', k' ≠ k → sm_find k' (allocations w') = sm_find k' (allocations w)
  end.
Proof.
  intros Hwf Hrun. rewrite finish_construction_alone by done.
  destruct (sm_find k (allocations w)) as [b|] eqn:E; [|done].
  exists (finished w k). split_and!; [done|by apply finished_wf| |]; unfold finished; simpl.
  - by rewrite sm_find_alter, Z.eqb_refl, E.
  - intros k' Hne. rewrite sm_find_alter. by destruct (Z.eqb_spec k' k).
Qed.

Lemma finish_construction_correct_witness :
  ∃ w', exec (@finish_construction no_asan 1 demo_collect_env addr_A) demo_world = Ret tt w' ∧
    sm_find addr_A (allocations w') = Some (demo_record 4096).
Proof.
  destruct (@finish_construction_correct no_asan 1 demo_collect_env demo_world addr_A demo_wf eq_refl)
    as (w' & E & _ & H & _).
  exists w'. exact (conj E H).
Defined.

(** ** Construction *)

(** C31. [gc_new]: when the constructor returns, the block is unpinned and its
    payload handed out; when it throws, the block is unregistered and freed and
    the constructor's exception goes on. *)
Theorem gc_new_constructs_or_releases {ASAN : AsanRuntime} {ALLOC : Allocator}
    dtor me env sizeof_T alignof_T d ctor w w1 w2 w3 payload b (r : result unit) :
  exec (collect_if_needed dtor me env sizeof_T) w = Ret tt w1 →
  exec (malloc_internal dtor me env sizeof_T alignof_T d true) w1 = Ret payload w2 →
  exec (ctor payload) w2 = match r with Ok u => Ret u w3 | Raise e => Throw e w3 end →
  heap_wf w3 → may_run me w3 = true → registered me w3 = true →
  sm_find payload (allocations w3) = Some b →
  ∃ w4, heap_wf w4 ∧
    match r with
    | Ok _ => exec (gc_new dtor me env sizeof_T alignof_T d ctor) w = Ret {| ptr_ := payload |} w4 ∧
        sm_find payload (allocations w4) = Some (set_constructing false b)
    | Raise e => exec (gc_new dtor me env sizeof_T alignof_T d ctor) w = Throw e w4 ∧
        sm_find payload (allocations w4) = None ∧ log w4 = log w3 ++ [EvFree (br_header b)]
    end.
Proof.
  intros E1 E2 E3 Hwf Hrun Hreg Hf. rewrite (gc_new_cont _ _ _ _ _ _ _ _ _ _ _ E1 E2), E3.
  destruct r as [u|e].
  - rewrite finish_construction_alone, Hf by done. exists (finished w3 payload).
    split_and!; [by apply finished_wf|done|]. unfold finished. simpl. by rewrite sm_find_alter, Z.eqb_refl, Hf.
  - apply sm_find_elem in Hf as Hin. rewrite (release_unconstructed_alone me env w3 Hwf Hrun payload b) by done.
    exists (freed (br_header b) (drop_block payload b w3)). split_and!; [by apply freed_block_wf|done| |done].
    unfold freed, drop_block. simpl. rewrite sm_find_erase by apply wf_sorted, Hwf. by rewrite Z.eqb_refl.
Qed.

Lemma gc_new_constructs_or_releases_witness :
  ∃ w4, exec (@gc_new no_asan bump_allocator no_finalizer 1 demo_collect_env 40 8 0 (λ _, raise (user_exception 5)))
      fresh_world = Throw (user_exception 5) w4 ∧ heap_wf w4.
Proof.
  destruct (exec (@malloc_internal no_asan bump_allocator no_finalizer 1 demo_collect_env 40 (2 ^ 3) 0 true) fresh_world)
    as [p w2| |] eqn:E; [|exfalso; vm_compute in E; discriminate..].
  pose proof (@malloc_internal_correct no_asan bump_allocator no_finalizer 1 demo_collect_env fresh_world 40 3 0 true 4096
    fresh_wf eq_refl eq_refl eq_refl ltac:(lia) ltac:(vm_compute; discriminate) ltac:(vm_compute; reflexivity)) as H.
  rewrite E in H. destruct H as (Hwf & _ & _ & Hp & _).
  assert (sm_find p (allocations w2) = Some {| br_header := 4096; br_payload_begin := p; br_payload_end := p + 40; br_constructing := true |}) as Hf.
  { apply sm_elem_find; [apply wf_sorted, Hwf|]. rewrite Hp. left. }
  assert (may_run 1 w2 = true ∧ registered 1 w2 = true) as [Hr Hg].
  { assert (match exec (@malloc_internal no_asan bump_allocator no_finalizer 1 demo_collect_env 40 (2 ^ 3) 0 true) fresh_world with
      | Ret _ w => may_run 1 w && registered 1 w | _ => false end = true) as Hv by (vm_compute; reflexivity).
    rewrite E in Hv. by apply andb_prop in Hv. }
  destruct (@gc_new_constructs_or_releases no_asan bump_allocator no_finalizer 1 demo_collect_env 40 8 0
    (λ _, raise (user_exception 5)) fresh_world fresh_world w2 w2 p _ (Raise (user_exception 5))
    eq_refl E eq_refl Hwf Hr Hg Hf) as (w4 & Hwf4 & E4 & _).
  exists w4. exact (conj E4 Hwf4).
Defined.

(** C32. Array construction that fails at element [i]: the elements [i - 1] down
    to [0], exactly those constructed, are destroyed in that order, the block is
    released and the element's exception goes on. *)
Theorem array_construction_rolls_back {ASAN : AsanRuntime} me env sizeof_T alignof_T payload construct
    elem_dtor count w i w1 w2 w3 e :
  Z.of_nat i < count →
  built sizeof_T alignof_T payload construct (set_mem (λ m, store_word m payload 0) w) i w1 →
  exec (construct (element sizeof_T alignof_T payload i) i) w1 = Throw e w2 →
  load_word (mem w2) payload = Z.of_nat i →
  exec (run_all elem_dtor (element sizeof_T alignof_T payload <$> reverse (seq 0 i))) w2 = Ret tt w3 →
  heap_wf w3 → may_run me w3 = true → registered me w3 = true →
  ∃ w4, exec (construct_payload me env sizeof_T alignof_T count payload construct elem_dtor) w = Throw e w4 ∧
    heap_wf w4 ∧ (payload ≠ 0 → sm_find payload (allocations w4) = None).
Proof.
  intros Hi Hb E Hp Ed Hwf Hrun Hreg.
  rewrite (construct_payload_throws me env _ _ payload construct elem_dtor count w i w1 w2 e) by done.
  unfold elements_down. rewrite Ed.
  destruct (sm_find payload (allocations w3)) as [b|] eqn:Ef.
  - apply sm_find_elem in Ef as Hin. rewrite (release_unconstructed_alone me env w3 Hwf Hrun payload b) by done.
    eexists. split_and!; [done|by apply freed_block_wf|]. intros _. unfold freed, drop_block. simpl.
    rewrite sm_find_erase by apply wf_sorted, Hwf. by rewrite Z.eqb_refl.
  - rewrite release_unknown by done. eauto.
Qed.

Definition log_destroy : Z → proc unit := λ a, atomic (modify (add_log (EvFinalize a))).
Definition fail_at_two : Z → nat → proc unit := λ a i,
  if (i =? 2)%nat then raise (user_exception 2) else atomic (write_word a 7).

Lemma array_construction_rolls_back_witness :
  ∃ w4, exec (@construct_payload no_asan 1 demo_collect_env 8 8 3 addr_C fail_at_two log_destroy) demo_world =
      Throw (user_exception 2) w4 ∧ heap_wf w4.
Proof.
  set (w0 := set_mem (λ m, store_word m addr_C 0) demo_world).
  set (wa := set_mem (λ m, store_word m addr_C 1) (set_mem (λ m, store_word m (addr_C + 8) 7) w0)).
  set (wb := set_mem (λ m, store_word m addr_C 2) (set_mem (λ m, store_word m (addr_C + 16) 7) wa)).
  assert (built 8 8 addr_C fail_at_two w0 2 wb) as Hb.
  { apply (built_S 8 8 addr_C fail_at_two w0 1 wa); [|reflexivity].
    apply (built_S 8 8 addr_C fail_at_two w0 0 w0); [apply built_0|reflexivity]. }
  set (wc := add_log (EvFinalize (addr_C + 8)) (add_log (EvFinalize (addr_C + 16)) wb)).
  assert (heap_wf wc) as Hwf by (eapply heap_wf_ext, demo_wf; reflexivity).
  destruct (@array_construction_rolls_back no_asan 1 demo_collect_env 8 8 addr_C fail_at_two log_destroy 3
    demo_world 2 wb wb wc (user_exception 2) ltac:(lia) Hb eq_refl ltac:(vm_compute; reflexivity) eq_refl Hwf
    eq_refl eq_refl) as (w4 & E & H & _).
  exists w4. exact (conj E H).
Defined.

(** Array layout: a zero count gives the null handle and an overflowing size
    [bad_alloc], both without effect; otherwise prefix, padding and elements fit
    the computed size and element zero is aligned for its type. *)
Theorem array_layout {ASAN : AsanRuntime} {ALLOC : Allocator} dtor me env sizeof_T k count d construct elem_dtor w :
  0 <= k <= 62 → is_size sizeof_T → is_size count →
  let off := detail.array_elements_offset (2 ^ k) in
  (count = 0 → exec (construct_array dtor me env sizeof_T (2 ^ k) count d construct elem_dtor) w = Ret gc_ptr_null w) ∧
  (count ≠ 0 → SIZE_MAX < off + sizeof_T * count →
   exec (construct_array dtor me env sizeof_T (2 ^ k) count d construct elem_dtor) w = Throw bad_alloc w) ∧
  (off + sizeof_T * count <= SIZE_MAX → wrap64 (off + wrap64 (sizeof_T * count)) = off + sizeof_T * count) ∧
  8 <= off ∧ ∀ payload, (2 ^ k | payload) → (2 ^ k | array_elements_begin (2 ^ k) payload).
Proof.
  intros Hk Hs Hc off. pose proof (array_elements_offset_spec k Hk) as [Hd Hoff]. fold off in Hd, Hoff.
  assert (0 <= sizeof_T * count) by (unfold is_size in *; nia).
  split_and!.
  - intros ->. done.
  - intros Hne Hbig. unfold construct_array. destruct (Z.eqb_spec count 0); [done|]. fold off.
    destruct (_ || _) eqn:E; [done|]. apply array_size_ok in E as [_ E]; [|done..]. fold off in E. lia.
  - intros Hfit. rewrite (wrap64_size (sizeof_T * count)) by (unfold is_size; lia).
    apply wrap64_size. unfold is_size. lia.
  - lia.
  - intros payload Hp. unfold array_elements_begin. by apply Z.divide_add_r.
Qed.

Lemma array_layout_witness :
  exec (@construct_array no_asan bump_allocator no_finalizer 1 demo_collect_env 24 (2 ^ 3) (2 ^ 62) 0
    (λ _ _, mret tt) (λ _, mret tt)) demo_world = Throw bad_alloc demo_world.
Proof.
  apply (proj1 (proj2 (@array_layout no_asan bump_allocator no_finalizer 1 demo_collect_env 24 3 (2 ^ 62) 0
    (λ _ _, mret tt) (λ _, mret tt) demo_world ltac:(lia) ltac:(unfold is_size, SIZE_MAX; lia)
    ltac:(unfold is_size, SIZE_MAX; lia)))); [lia|vm_compute; reflexivity].
Defined.

(** ** Weak handles *)



(** A weak handle built from a pointer into a live block, base or interior,
    observes that very address: [lock] gives it back, until something changes. *)
Theorem weak_handle_construction {ASAN : AsanRuntime} me env w self p k b :
  heap_wf w → weak_ok w → may_run me w = true → self ≠ 0 → fresh_word w self → oom w = [] →
  (k, b) ∈ allocations w → k <= p < br_payload_end b →
  ∃ w', exec (gc_weak_ptr_new me env self {| ptr_ := p |}) w = Ret tt w' ∧ heap_wf w' ∧ weak_ok w' ∧
    exec (gc_weak_ptr_lock me env self) w' = Ret {| ptr_ := p |} w' ∧
    load_word (mem w') self = encode_weak_ptr p.
Proof.
  intros Hwf Hok Hrun Hs Hf Ho Hin Hp.
  destruct (weak_new_live me env w Hwf Hok Hrun self p k b Hs Hf Ho Hin Hp) as (E & [Hwf' Hok'] & Hobs).
  eexists. split_and!; [done..| |].
  - by apply lock_observes.
  - apply (wo_word _ Hok' _ Hobs).
Qed.

Lemma demo_fresh self : self + 8 <= weak_B ∨ weak_D + 8 <= self → fresh_word demo_world self.
Proof.
  intros Hs e [->|[->|[]%elem_of_nil]%elem_of_cons]%elem_of_cons; simpl;
    unfold weak_B, weak_D, word_size in *; lia.
Qed.

Lemma weak_handle_construction_witness :
  ∃ w', exec (@gc_weak_ptr_new no_asan 1 demo_park 70016 {| ptr_ := addr_A + 3 |}) demo_world = Ret tt w' ∧
    exec (@gc_weak_ptr_lock no_asan 1 demo_park 70016) w' = Ret {| ptr_ := addr_A + 3 |} w'.
Proof.
  destruct (@weak_handle_construction no_asan 1 demo_park demo_world 70016 (addr_A + 3) addr_A (demo_record 4096)
    demo_wf demo_weak_ok eq_refl ltac:(lia) (demo_fresh 70016 ltac:(unfold weak_D; lia)) eq_refl
    ltac:(left) ltac:(vm_compute; split; [discriminate|reflexivity])) as (w' & E & _ & _ & El & _).
  exists w'. exact (conj E El).
Defined.

(** Copying a weak handle gives a second observer of the same target; moving
    it leaves the target with the new handle alone, the source empty. *)
Theorem weak_handle_copy_and_move {ASAN : AsanRuntime} me env w self other t :
  heap_wf w → weak_ok w → may_run me w = true → observes w other t → fresh_word w self → oom w = [] →
  (∃ w', exec (gc_weak_ptr_copy me env self other) w = Ret tt w' ∧ heap_wf w' ∧ weak_ok w' ∧
     exec (gc_weak_ptr_lock me env self) w' = Ret {| ptr_ := t |} w' ∧
     exec (gc_weak_ptr_lock me env other) w' = Ret {| ptr_ := t |} w') ∧
  (∃ w', exec (gc_weak_ptr_move me env self other) w = Ret tt w' ∧ heap_wf w' ∧ weak_ok w' ∧
     exec (gc_weak_ptr_lock me env self) w' = Ret {| ptr_ := t |} w' ∧
     exec (gc_weak_ptr_lock me env other) w' = Ret gc_ptr_null w' ∧ load_word (mem w') other = 0).
Proof.
  intros Hwf Hok Hrun Ho Hf Hoom. split.
  - destruct (weak_copy_observes me env w Hwf Hok Hrun self other t Ho Hf Hoom) as (E & [Hwf' Hok'] & H1 & H2).
    eexists. split_and!; try done; by apply lock_observes.
  - destruct (weak_take_observes me env w Hwf Hok Hrun self other t Ho Hf) as (w' & E & [Hwf' Hok'] & H1 & [Hz H2] & Hr & _).
    exists w'. split_and!; try done; [by apply exec_noexcept|by apply lock_observes|by apply lock_expired].
Qed.

Lemma weak_handle_copy_and_move_witness :
  ∃ w', exec (@gc_weak_ptr_move no_asan 1 demo_park 70016 weak_B) demo_world = Ret tt w' ∧
    exec (@gc_weak_ptr_lock no_asan 1 demo_park 70016) w' = Ret {| ptr_ := addr_B |} w' ∧
    exec (@gc_weak_ptr_lock no_asan 1 demo_park weak_B) w' = Ret gc_ptr_null w'.
Proof.
  destruct (proj2 (@weak_handle_copy_and_move no_asan 1 demo_park demo_world 70016 weak_B addr_B
    demo_wf demo_weak_ok eq_refl (list_elem_of_lookup_2 (weak_refs demo_world) 0 _ eq_refl)
    (demo_fresh 70016 ltac:(unfold weak_D; lia)) eq_refl)) as (w' & E & _ & _ & E1 & E2 & _).
  exists w'. exact (conj E (conj E1 E2)).
Defined.

(** Assignment replaces what a handle observes, whether it observed
    something or was expired: after a copy assignment both handles observe the
    target, after a move assignment the new one alone, after an assignment from
    a pointer into a live block the handle observes that pointer.  [reset]
    expires it. *)
Theorem weak_handle_assignment {ASAN : AsanRuntime} me env w self other t tmp :
  heap_wf w → weak_ok w → may_run me w = true → oom w = [] → self ≠ other → handle w self → observes w other t →
  tmp ≠ 0 → fresh_word w tmp → self + word_size <= tmp ∨ tmp + word_size <= self →
  (∃ w', exec (gc_weak_ptr_copy_assign me env self other tmp) w = Ret tt w' ∧ heap_wf w' ∧ weak_ok w' ∧
     exec (gc_weak_ptr_lock me env self) w' = Ret {| ptr_ := t |} w' ∧
     exec (gc_weak_ptr_lock me env other) w' = Ret {| ptr_ := t |} w') ∧
  (∃ w', exec (gc_weak_ptr_move_assign me env self other) w = Ret tt w' ∧ heap_wf w' ∧ weak_ok w' ∧
     exec (gc_weak_ptr_lock me env self) w' = Ret {| ptr_ := t |} w' ∧
     exec (gc_weak_ptr_lock me env other) w' = Ret gc_ptr_null w') ∧
  (∀ k b p, (k, b) ∈ allocations w → k <= p < br_payload_end b →
     ∃ w', exec (gc_weak_ptr_assign me env self {| ptr_ := p |} tmp) w = Ret tt w' ∧ heap_wf w' ∧ weak_ok w' ∧
       exec (gc_weak_ptr_lock me env self) w' = Ret {| ptr_ := p |} w') ∧
  (∃ w', exec (gc_weak_ptr_reset me env other) w = Ret tt w' ∧ heap_wf w' ∧ weak_ok w' ∧
     exec (gc_weak_ptr_expired me env other) w' = Ret true w').
Proof.
  intros Hwf Hok Hrun Hoom Hne Hself Ho Htmp Hf Hap. split_and!.
  - destruct (weak_copy_assign_observes me env w self other t tmp) as (w' & E & [Hwf' Hok'] & H1 & H2 & Hr); [done..|].
    exists w'. split_and!; try done; by apply lock_observes.
  - destruct (weak_move_assign_observes me env w self other t) as (w' & E & [Hwf' Hok'] & H1 & [_ H2] & Hr & _); [done..|].
    exists w'. split_and!; try done; [by apply lock_observes|by apply lock_expired].
  - intros k b p Hin Hp.
    destruct (weak_assign_observes me env w self p k b tmp) as (w' & E & [Hwf' Hok'] & H1 & Hr); [done..|].
    exists w'. split_and!; try done. by apply lock_observes.
  - destruct (weak_reset_observes me env w Hwf Hok Hrun other t Ho) as (w' & E & [Hwf' Hok'] & [_ H2] & Hr & _).
    exists w'. split_and!; try done. unfold gc_weak_ptr_expired.
    rewrite exec_bind, (exec_noexcept _ _ 0 w'); [done|]. rewrite exec_locked by done.
    apply read_weak_ref_absent. intros e He Heq. destruct (H2 e He); unfold word_size in *; lia.
Qed.

Lemma weak_handle_assignment_witness :
  ∃ w', exec (@gc_weak_ptr_copy_assign no_asan 1 demo_park weak_D weak_B 70032) demo_world = Ret tt w' ∧
    exec (@gc_weak_ptr_lock no_asan 1 demo_park weak_D) w' = Ret {| ptr_ := addr_B |} w' ∧
    exec (@gc_weak_ptr_lock no_asan 1 demo_park weak_B) w' = Ret {| ptr_ := addr_B |} w'.
Proof.
  destruct (proj1 (@weak_handle_assignment no_asan 1 demo_park demo_world weak_D weak_B addr_B 70032
    demo_wf demo_weak_ok eq_refl eq_refl ltac:(discriminate)
    (or_intror (ex_intro _ addr_D (list_elem_of_lookup_2 (weak_refs demo_world) 1 _ eq_refl)))
    (list_elem_of_lookup_2 (weak_refs demo_world) 0 _ eq_refl) ltac:(lia)
    (demo_fresh 70032 ltac:(unfold weak_D; lia)) ltac:(unfold weak_D, word_size; lia))) as (w' & E & _ & _ & E1 & E2).
  exists w'. exact (conj E (conj E1 E2)).
Defined.

(** The word of a weak handle decodes to its target, is zero only for null,
    and, for blocks in the lower half of the address space, never resolves to a
    block when a conservative scan meets it: weak handles keep nothing alive. *)
Theorem weak_words_are_invisible w p :
  heap_wf w → (∀ k b, (k, b) ∈ allocations w → br_payload_end b <= 2 ^ 63) → 0 <= p <= 2 ^ 63 →
  decode_weak_ptr (encode_weak_ptr p) = p ∧ (encode_weak_ptr p = 0 ↔ p = 0) ∧
  find_block_locked (allocations w) (encode_weak_ptr p) = None.
Proof.
  intros Hwf Hlow Hp. assert (is_size p) as Hs by (unfold is_size, SIZE_MAX; lia).
  split_and!; [by apply decode_encode|by apply encode_zero|].
  destruct (decide (p = 0)) as [->|]; [|apply encode_not_in_heap; [done..|lia]].
  destruct (find_block_locked _ _) as [[k b]|] eqn:E; [|done].
  apply (find_block_spec w Hwf) in E as [Hin Hr]. pose proof (wf_extent w Hwf k b Hin).
  unfold sizeof_ChunkHeader in *. simpl in Hr. change (encode_weak_ptr 0) with 0 in Hr. lia.
Qed.

Lemma weak_words_are_invisible_witness :
  find_block_locked demo_registry (encode_weak_ptr addr_B) = None.
Proof.
  refine (proj2 (proj2 (weak_words_are_invisible demo_world addr_B demo_wf _ _))).
  - intros k b Hin. change (allocations demo_world) with demo_registry in Hin.
    repeat (apply elem_of_cons in Hin as [[= -> ->]|Hin]); [..|by apply elem_of_nil in Hin]; simpl; lia.
  - unfold addr_B. lia.
Defined.

(** ** Explicit roots *)

Lemma write_word_wf a v w : heap_wf w → heap_wf (set_mem (λ m, store_word m a v) w).
Proof. by apply heap_wf_ext. Qed.

(** C18. A [gc_root] is exact: from its construction on, every collection keeps
    the block its pointer lies in, wherever the handle itself is stored, and
    destroying it restores the roots there were before. *)
Theorem gc_root_keeps_its_target {ASAN : AsanRuntime} me env w self p k b :
  heap_wf w → may_run me w = true → oom w = [] →
  (word_size | self) → 0 < self → self + sizeof_gc_root <= SIZE_MAX →
  region_is_poisoned self word_size = false →
  (k, b) ∈ allocations w → k <= p < br_payload_end b →
  ∃ w', exec (gc_root_new me env self p) w = Ret tt w' ∧ heap_wf w' ∧
    (∀ cenv collector w2 hs, collected cenv collector w' w2 hs → (k, b) ∈ allocations w2) ∧
    ∃ w3, exec (gc_root_destroy me env self) w' = Ret tt w3 ∧ root_ranges w3 ≡ₚ root_ranges w.
Proof.
  intros Hwf Hrun Ho Hal Hpos Hmax Hpois Hin Hp.
  destruct (gc_root_scanned self Hal Hpos Hmax Hpois) as [Hne Hscan].
  set (r := normalize_range self (wrap64 (self + sizeof_gc_root))) in Hscan.
  set (w1 := set_mem (λ m, store_word m self p) w).
  set (w' := with_ranges (λ l, l ++ [r]) w1).
  pose proof (wf_extent w Hwf k b Hin) as Hx. unfold sizeof_ChunkHeader, word_size in Hx.
  assert (is_size p) as Hsz by (unfold is_size; lia).
  assert (heap_wf w') as Hwf' by by apply with_ranges_wf, write_word_wf.
  assert (Eself : self =? 0 = false) by (apply Z.eqb_neq; lia).
  exists w'. split_and!; [|done| |].
  - unfold gc_root_new, register_self. rewrite exec_bind, exec_atomic. unfold write_word, modify. fold w1.
    unfold register_root_object. rewrite Eself. rewrite register_root_range_ok by done. by rewrite Hne.
  - intros cenv collector w2 hs Hc. apply (co_alloc _ _ _ _ _ Hc). split; [done|]. simpl.
    apply (range_live cenv collector w' r self k b); [apply elem_of_app; right; by apply list_elem_of_singleton|done|].
    apply (find_block_spec w' Hwf'). split; [done|]. simpl. by rewrite load_store_word_eq.
  - exists (with_ranges (erase_first r) w'). split.
    + unfold gc_root_destroy, unregister_self, unregister_root_object. apply exec_noexcept. rewrite Eself.
      rewrite unregister_root_range_ok by done. by rewrite Hne.
    + simpl. apply erase_first_snoc.
Qed.

Lemma gc_root_keeps_its_target_witness :
  ∃ w', exec (@gc_root_new no_asan 1 demo_park 80000 (addr_D + 5)) demo_world = Ret tt w' ∧
    ∀ w2 hs, @collected no_asan demo_collect_env 1 w' w2 hs → (addr_D, demo_record 4288) ∈ allocations w2.
Proof.
  destruct (@gc_root_keeps_its_target no_asan 1 demo_park demo_world 80000 (addr_D + 5) addr_D (demo_record 4288)
    demo_wf eq_refl eq_refl ltac:(exists 10000; reflexivity) ltac:(lia) ltac:(unfold sizeof_gc_root, SIZE_MAX; lia)
    eq_refl (list_elem_of_lookup_2 demo_registry 3 _ eq_refl)
    ltac:(vm_compute; split; [discriminate|reflexivity])) as (w' & E & _ & H & _).
  exists w'. split; [exact E|]. intros w2 hs Hc. exact (H _ _ _ _ Hc).
Defined.

(** [ScopedRootRange] owns its range.  [reset] replaces it: afterwards the
    registry has the new range, if not empty, and has lost the old one, if
    registered, as a multiset; when the registration throws, nothing changed.
    After a move the source owns nothing and destroying the new object gives
    the range up; a move assignment gives up the range of its target. *)
Theorem scoped_root_range_ownership {ASAN : AsanRuntime} me env this b e w :
  may_run me w = true →
  let old := normalize_range (sr_begin this) (sr_end this) in
  let owned := if sr_registered this then [old] else [] in
  (sr_registered this = true → empty_range (sr_begin this) (sr_end this) = false ∧ old ∈ root_ranges w) →
  ((∃ w', exec (ScopedRootRange_reset me env this b e) w =
       Ret {| sr_begin := b; sr_end := e; sr_registered := negb (empty_range b e) |} w' ∧
     owned ++ root_ranges w' ≡ₚ (if empty_range b e then [] else [normalize_range b e]) ++ root_ranges w) ∨
   (∃ o, exec (ScopedRootRange_reset me env this b e) w = Throw bad_alloc (with_oom o w) ∧ may_fail w)) ∧
  (∃ w', exec (ScopedRootRange_destroy me env (ScopedRootRange_move this).1) w = Ret tt w' ∧
     owned ++ root_ranges w' ≡ₚ root_ranges w ∧
     exec (ScopedRootRange_destroy me env (ScopedRootRange_move this).2) w' = Ret tt w') ∧
  (∀ other, ∃ w', exec (ScopedRootRange_move_assign me env this other) w = Ret (other, ScopedRootRange_init) w' ∧
     owned ++ root_ranges w' ≡ₚ root_ranges w).
Proof.
  intros Hrun old owned Hold. split.
  { by apply scoped_reset_cases. }
  destruct (scoped_reset_empty me env this w Hrun Hold) as (w' & E & Hp). split.
  - exists w'. split_and!; [|done|done]. unfold ScopedRootRange_destroy. apply exec_noexcept. simpl. by rewrite exec_bind, E.
  - intros other. exists w'. split; [|done]. unfold ScopedRootRange_move_assign. apply exec_noexcept. by rewrite exec_bind, E.
Qed.

Lemma scoped_root_range_ownership_witness :
  ∃ w', exec (@ScopedRootRange_reset no_asan 1 demo_park
      {| sr_begin := demo_root; sr_end := demo_root + 8; sr_registered := true |} 900 800) demo_world =
    Ret {| sr_begin := 900; sr_end := 800; sr_registered := true |} w' ∧
    root_ranges w' = [{| rr_begin := 800; rr_end := 900 |}].
Proof.
  destruct (@scoped_root_range_ownership no_asan 1 demo_park
    {| sr_begin := demo_root; sr_end := demo_root + 8; sr_registered := true |} 900 800 demo_world eq_refl)
    as [[(w' & E & Hp)|(o & E & _)] _].
  - intros _. split; [reflexivity|left].
  - exists w'. split; [exact E|]. simpl in Hp.
    change (normalize_range demo_root (demo_root + 8)) with {| rr_begin := demo_root; rr_end := demo_root + 8 |} in Hp.
    change (normalize_range 900 800) with {| rr_begin := 800; rr_end := 900 |} in Hp.
    change (root_ranges demo_world) with [{| rr_begin := demo_root; rr_end := demo_root + 8 |}] in Hp.
    rewrite (Permutation_swap _ _ []) in Hp. by apply Permutation_cons_inv, Permutation_singleton_r in Hp.
  - exfalso. vm_compute in E. discriminate.
Defined.

(** ** Threads *)

(** C22. While another thread has stopped the world, every operation that takes
    the lock parks its registered caller first: nothing but the caller's own
    parking record changes, its registers and stack are exposed to the
    collector, the body does not start before the restart, and the restart
    clears the record.  The collector starts only when all are parked. *)
Theorem locked_sections_park {ASAN : AsanRuntime} {A : Type} me env (body : M World A) w s :
  may_run me w = false → sm_find me (threads_ (mgr w)) = Some s → ts_stack_bottom s ≠ 0 →
  let w1 := parked_world me env w in
  rtc pstep (locked me env body, w) (parked_node me body, w1) ∧
  (∀ c, ¬ pstep (parked_node me body, w1) c) ∧
  sm_find me (threads_ (mgr w1)) = Some (parked_state env current_fake_stack_handle s) ∧
  (∀ t, t ≠ me → sm_find t (threads_ (mgr w1)) = sm_find t (threads_ (mgr w))) ∧
  (∀ collector, all_others_paused collector w = true → collector = me ∨ ts_paused_for_collection s = true) ∧
  (∃ w2, unpark me w1 = Ret tt w2 ∧
     (∀ t, t ≠ me → sm_find t (threads_ (mgr w2)) = sm_find t (threads_ (mgr w))) ∧
     sm_find me (threads_ (mgr w2)) = Some
       {| ts_stack_bottom := ts_stack_bottom s; ts_parked_stack_top := 0; ts_fake_stack_handle := 0;
          ts_register_spill := replicate (length (pe_registers env)) 0; ts_paused_for_collection := false |}).
Proof.
  intros Hrun Hs Hb w1. split_and!.
  - apply locked_parks; [done|]. unfold registered, find_thread_state_locked. rewrite Hs.
    by destruct (Z.eqb_spec (ts_stack_bottom s) 0).
  - intros c. apply parked_node_waits. unfold w1, parked_world. simpl.
    unfold may_run in Hrun. apply orb_false_iff in Hrun as [Hr _]. by destruct (stop_the_world_requested_ _).
  - simpl. by rewrite sm_find_alter, Z.eqb_refl, Hs.
  - intros t Ht. simpl. rewrite sm_find_alter. by destruct (Z.eqb_spec t me).
  - intros c Hall. unfold all_others_paused in Hall. rewrite forallb_forall in Hall.
    apply sm_find_elem, list_elem_of_In, Hall in Hs. simpl in Hs.
    destruct (Z.eqb_spec me c), (Z.eqb_spec (ts_stack_bottom s) 0); auto.
  - destruct (unpark_parked me env w) as (w2 & E & Ho & Hme). exists w2. split_and!; auto.
Qed.

Lemma locked_sections_park_witness :
  rtc pstep (@locked no_asan 1 demo_park Z (gets (λ w, managed_bytes_ (mgr w))), announce 2 demo_world)
    (parked_node 1 (gets (λ w, managed_bytes_ (mgr w))), @parked_world no_asan 1 demo_park (announce 2 demo_world)).
Proof.
  apply (@locked_sections_park no_asan Z 1 demo_park (gets (λ w, managed_bytes_ (mgr w))) (announce 2 demo_world)
    demo_thread); [reflexivity|reflexivity|discriminate].
Defined.

(** Registration: a null anchor is refused; otherwise the thread is
    registered with that anchor, the others are untouched, and unregistering
    removes it again and only it. *)
Theorem thread_registration {ASAN : AsanRuntime} me env sb w :
  may_run me w = true → oom w = [] → sm_wf (threads_ (mgr w)) →
  (sb = 0 → ∃ what, exec (register_stack_bottom me env sb) w = Throw (invalid_argument what) w) ∧
  (sb ≠ 0 → ∃ w', exec (register_stack_bottom me env sb) w = Ret tt w' ∧
     exec (is_current_thread_registered me env) w' = Ret true w' ∧ sm_wf (threads_ (mgr w')) ∧
     (∃ s, sm_find me (threads_ (mgr w')) = Some s ∧ ts_stack_bottom s = sb) ∧
     (∀ t, t ≠ me → sm_find t (threads_ (mgr w')) = sm_find t (threads_ (mgr w))) ∧
     ∃ w2, exec (unregister_current_thread me env) w' = Ret tt w2 ∧
       exec (is_current_thread_registered me env) w2 = Ret false w2 ∧
       ∀ t, t ≠ me → sm_find t (threads_ (mgr w2)) = sm_find t (threads_ (mgr w))).
Proof.
  intros Hrun Ho Hwf. split; [intros ->; by eexists|]. intros Hsb.
  set (w' := set_mgr (set_threads (λ ts, sm_alter (set_stack_bottom sb) me (sm_emplace me ThreadState_init ts))) w).
  assert (Hme : ∃ s, sm_find me (threads_ (mgr w')) = Some s ∧ ts_stack_bottom s = sb).
  { simpl. rewrite sm_find_alter, Z.eqb_refl. destruct (sm_find me (threads_ (mgr w))) as [s|] eqn:E.
    - rewrite (sm_emplace_present _ _ s), E by done. by eexists.
    - rewrite sm_find_emplace_eq by done. by eexists. }
  assert (Hoth : ∀ t, t ≠ me → sm_find t (threads_ (mgr w')) = sm_find t (threads_ (mgr w))).
  { intros t Ht. simpl. rewrite sm_find_alter. destruct (Z.eqb_spec t me); [done|]. by rewrite sm_find_emplace_ne. }
  exists w'. split_and!; [| | |done|done|].
  - unfold register_stack_bottom. destruct (Z.eqb_spec sb 0); [done|]. rewrite exec_locked by done.
    unfold assign_stack_bottom. rewrite M_bind_get. destruct (find_thread_state_locked me w).
    + done.
    + by mstep (native_alloc_ok w Ho).
  - unfold is_current_thread_registered. rewrite exec_locked by done. unfold gets, registered, find_thread_state_locked.
    destruct Hme as (s & -> & Hs). destruct (Z.eqb_spec (ts_stack_bottom s) 0); [congruence|done].
  - simpl. by apply sm_wf_alter, sm_wf_emplace.
  - assert (sm_wf (threads_ (mgr w'))) as Hwf' by by apply sm_wf_alter, sm_wf_emplace.
    exists (set_mgr (set_threads (sm_erase me)) w'). split_and!.
    + unfold unregister_current_thread. by rewrite exec_locked.
    + unfold is_current_thread_registered. rewrite exec_locked by done. unfold gets, registered, find_thread_state_locked.
      simpl. rewrite (sm_find_erase _ _ _ Hwf'). by rewrite Z.eqb_refl.
    + intros t Ht. simpl. rewrite (sm_find_erase _ _ _ Hwf'). destruct (Z.eqb_spec t me); [done|]. by apply Hoth.
Qed.

Lemma thread_registration_witness :
  ∃ w', exec (@register_stack_bottom no_asan 7 demo_park 262144) demo_world = Ret tt w' ∧
    sm_find 1 (threads_ (mgr w')) = Some demo_thread.
Proof.
  destruct (proj2 (@thread_registration no_asan 7 demo_park 262144 demo_world eq_refl eq_refl
    ltac:(repeat constructor)) ltac:(lia)) as (w' & E & _ & _ & _ & Ho & _).
  exists w'. split; [exact E|]. rewrite (Ho 1 ltac:(lia)). reflexivity.
Defined.

(** ** Diagnostics and statistics *)

(** [live_objects] stops the world, describes every block of the registry
    in address order, and releases the world: sizes, alignment and mark of each
    block are its own, and its references are, once each, exactly the other
    blocks a word of its payload points into. *)
Theorem live_objects_is_the_object_graph {ASAN : AsanRuntime} me env w :
  heap_wf w → oom w = [] → may_run me w = true → collecting_ (mgr w) = false →
  all_others_paused me (announce me w) = true →
  ∃ infos, exec (live_objects me env) w = Ret infos (released (announce me w)) ∧
    Forall2 (λ kb info,
      ho_payload info = kb.1 ∧ ho_payload_size info = payload_size kb ∧
      ho_reserved_size info = reserved_size kb ∧ ho_marked info = markedb w kb ∧
      (∃ n, blocks w !! br_header kb.2 = Some (n, ho_allocation_alignment info)) ∧
      NoDup (ho_outgoing_references info) ∧
      ∀ k', k' ∈ ho_outgoing_references info ↔ edge w kb.1 k' ∧ k' ≠ kb.1) (allocations w) infos.
Proof.
  intros Hwf Ho Hrun Hc Hp. destruct (describe_all_spec (announce me w) (announce_wf me w Hwf) Ho) as (infos & E & Hi).
  exists infos. unfold live_objects. rewrite inspect_runs, E by done. split; [done|].
  eapply Forall2_impl; [exact Hi|]. intros [k b] info (H1 & H2 & H3 & _ & H5 & H6 & H7 & H8).
  split_and!; try done; by apply H8.
Qed.

Lemma live_objects_is_the_object_graph_witness :
  ∃ infos, exec (@live_objects no_asan 1 demo_park) demo_world = Ret infos demo_world ∧
    (ho_outgoing_references <$> infos) = [[addr_B]; []; [addr_D]; []].
Proof.
  destruct (@live_objects_is_the_object_graph no_asan 1 demo_park demo_world demo_wf eq_refl eq_refl eq_refl eq_refl)
    as (infos & E & _).
  exists infos. split; [exact E|].
  assert (match exec (@live_objects no_asan 1 demo_park) demo_world with
    | Ret infos _ => (ho_outgoing_references <$> infos) = [[addr_B]; []; [addr_D]; []] | _ => False end) as Hv
    by (vm_compute; reflexivity).
  rewrite E in Hv. exact Hv.
Defined.

(** An inspection never leaves the world stopped: outside a collection it
    announces, reads and releases, also when the reading throws; inside one, a
    finalizer's say, it reads without touching the flags of the collection. *)
Theorem inspections_release_the_world {ASAN : AsanRuntime} {A : Type} me env (body : M World A) w :
  may_run me w = true →
  (collecting_ (mgr w) = true → exec (inspect me env body) w = body w) ∧
  (collecting_ (mgr w) = false → all_others_paused me (announce me w) = true →
   match exec (inspect me env body) w with
   | Ret _ w' | Throw _ w' => stop_the_world_requested_ (mgr w') = false ∧ collecting_ (mgr w') = false ∧
       collector_thread_ (mgr w') = None
   | Stuck why => body (announce me w) = Stuck why
   end).
Proof.
  intros Hrun. split; [by intros; apply inspect_nested|].
  intros Hc Hp. rewrite inspect_runs by done. by destruct (body (announce me w)).
Qed.

Lemma inspections_release_the_world_witness :
  exec (@object_info no_asan 1 demo_park addr_A) (announce 1 demo_world) =
    object_info_locked addr_A (announce 1 demo_world) ∧
  match exec (@inspect no_asan 1 demo_park (list HeapObjectInfo) describe_all_locked) (with_oom [true] demo_world) with
  | Throw e w' => stop_the_world_requested_ (mgr w') = false
  | _ => False
  end.
Proof.
  split.
  - exact (proj1 (@inspections_release_the_world no_asan (option HeapObjectInfo) 1 demo_park (object_info_locked addr_A)
      (announce 1 demo_world) eq_refl) eq_refl).
  - pose proof (proj2 (@inspections_release_the_world no_asan (list HeapObjectInfo) 1 demo_park describe_all_locked
      (with_oom [true] demo_world) eq_refl) eq_refl eq_refl) as H.
    assert (match exec (@inspect no_asan 1 demo_park (list HeapObjectInfo) describe_all_locked) (with_oom [true] demo_world) with
      | Throw _ _ => True | _ => False end) as Hv by (clear H; vm_compute; exact I).
    destruct (exec (@inspect no_asan 1 demo_park (list HeapObjectInfo) describe_all_locked) (with_oom [true] demo_world))
      as [|e w'|]; [destruct Hv| |destruct Hv]. exact (proj1 H).
Defined.

(** Registering a block: the cumulative counters saturate at the largest
    size instead of wrapping, and the peaks stay upper bounds of the live bytes
    and blocks, which are the exact sums over the registry. *)
Theorem allocation_statistics w header h c :
  heap_wf w → headers w !! header = Some h →
  block_ok w (payload_begin header h) (new_record header h c) →
  apart (allocations w) (new_record header h c) →
  managed_bytes_ (mgr w) + ch_size h <= SIZE_MAX →
  reserved_bytes_ (mgr w) + (ch_payload_offset h + ch_size h) <= SIZE_MAX →
  is_size (total_allocations (stats_ (mgr w))) → is_size (bytes_allocated_total (stats_ (mgr w))) →
  let w' := published header h c w in
  let s := stats_ (mgr w) in let s' := stats_ (mgr w') in
  heap_wf w' ∧
  total_allocations s' = Z.min (total_allocations s + 1) SIZE_MAX ∧
  bytes_allocated_total s' = Z.min (bytes_allocated_total s + ch_size h) SIZE_MAX ∧
  sumZ (payload_size <$> allocations w') <= peak_live_bytes s' ∧ peak_live_bytes s <= peak_live_bytes s' ∧
  Z.of_nat (length (allocations w')) <= peak_live_blocks s' ∧ peak_live_blocks s <= peak_live_blocks s' ∧
  total_collections s' = total_collections s.
Proof.
  intros Hwf Hh Hok Hap Hm Hr Ht Hb w' s s'.
  assert (heap_wf w') as Hwf'.
  { pose proof (published_wf w header h c Hwf Hh Hok Hap (oom w) Hm Hr) as H.
    by rewrite with_oom_id in H. }
  assert (is_size (ch_size h)) as Hsz.
  { destruct (new_reserved_size w header h c Hh Hok) as (_ & _ & ? & ?).
    pose proof (managed_nonneg w Hwf). unfold is_size. lia. }
  split_and!; [done| | | | | | |done].
  - unfold s', s. simpl. apply saturating_add_spec; [done|unfold is_size, SIZE_MAX; lia].
  - unfold s', s. simpl. by apply saturating_add_spec.
  - rewrite <-(wf_managed w' Hwf'). unfold s'. simpl. lia.
  - unfold s', s. simpl. lia.
  - unfold s'. simpl. lia.
  - unfold s', s. simpl. lia.
Qed.

Lemma allocation_statistics_witness :
  let w := with_raw 8192 64 16 (demo_header 0) demo_world in
  let w' := published 8192 (demo_header 0) true w in
  heap_wf w' ∧ peak_live_blocks (stats_ (mgr w')) = 5 ∧ total_allocations (stats_ (mgr w')) = 1.
Proof.
  set (w := with_raw 8192 64 16 (demo_header 0) demo_world).
  assert (Hfresh : ∀ k b, (k, b) ∈ demo_registry → br_header b ≠ 8192 ∧ br_payload_end b <= 8192).
  { intros k b Hin. repeat (apply elem_of_cons in Hin as [[= -> ->]|Hin]); [..|by apply elem_of_nil in Hin];
      simpl; lia. }
  assert (heap_wf w) as Hwf.
  { apply (heap_wf_local demo_world); [reflexivity..| |apply demo_wf]. intros k b Hin.
    destruct (Hfresh k b Hin). unfold w, with_raw, set_headers, set_blocks. cbn [headers blocks].
    split; by rewrite lookup_insert_ne by congruence. }
  assert (block_ok w 8224 (new_record 8192 (demo_header 0) true)) as Hok.
  { split; simpl; [reflexivity|lia|vm_compute; discriminate|]. exists (demo_header 0).
    split_and!; vm_compute; try reflexivity; discriminate. }
  assert (apart (allocations w) (new_record 8192 (demo_header 0) true)) as Hap.
  { intros k b Hin. right. by destruct (Hfresh k b Hin). }
  destruct (allocation_statistics w 8192 (demo_header 0) true Hwf eq_refl Hok Hap
    ltac:(vm_compute; discriminate) ltac:(vm_compute; discriminate)
    ltac:(unfold is_size, SIZE_MAX; simpl; lia) ltac:(unfold is_size, SIZE_MAX; simpl; lia)) as (H & _).
  split; [exact H|]. split; vm_compute; reflexivity.
Defined.

(** The block header's one-byte logarithm loses no alignment: whatever power
    of two is stored is read back, so the block is given back to the allocator
    with the alignment it was obtained with; and the 16-bit payload offset holds
    every offset the layout computes for the alignments it admits. *)
Theorem header_fields_lose_nothing size k d :
  0 <= k <= 15 →
  let h := make_header size (2 ^ Z.max k 4) (layout_offset k) d in
  round_up_to_alignment sizeof_ChunkHeader (normalize_alignment (2 ^ k)) = Ok (layout_offset k) ∧
  allocation_alignment h = 2 ^ Z.max k 4 ∧ ch_payload_offset h = layout_offset k ∧
  is_marked h = false ∧ ch_magic_number h = kChunkMagicNumber ∧
  (∀ b, is_marked (set_marked b h) = b).
Proof.
  intros Hk h. split_and!; [by apply layout_ok; lia|by apply make_header_alignment|by apply make_header_offset|done|done|].
  intros b. apply is_marked_set.
Qed.

Lemma header_fields_lose_nothing_witness :
  allocation_alignment (make_header 100 (2 ^ 15) (layout_offset 15) 3) = 32768 ∧
  ch_payload_offset (make_header 100 (2 ^ 15) (layout_offset 15) 3) = 32768.
Proof.
  destruct (header_fields_lose_nothing 100 15 3 ltac:(lia)) as (_ & Ha & Ho & _).
  exact (conj Ha Ho).
Defined.
