(* ===== verification/VectorTheorems.v ===== *)
(** * Theorems: vectors of roots

    Transactional growth, erasure, construction and destruction of a
    [gc_vector], and that its elements and the object [emplace_new] inserts are
    roots.  Each theorem is applied at a concrete vector. *)

From S2P Require Import Prelude Words Memory OrdMap Chunk Manager Heap Scanner Scenario Mark Finalize WeakRefs.
From S2P Require Import Sweep Threads Protocol Collect CollectSpec CollectorTheorems ApiTheorems Roots Alloc Handles GcNew.
From S2P Require Import Vector Slots VectorSpec Rooted.

(** ** Insertion of the created object *)

Section Insert.
Context {ASAN : AsanRuntime} {ALLOC : Allocator} {GROWTH : VectorGrowth} (me : thread_id) (env : ParkEnv).

Lemma insert_created_runs w v created rs bs :
  may_run me w = true → vector_ok w v (root_range created :: rs) bs → root_place created →
  others w v created →
  runs (insert_created me env v created) (λ r w', match r with
    | Ok (q, v') => gc_ptr_get q = load_word (mem w) created ∧ vector_ok w' v' rs bs ∧
        contents w' v' = contents w v ++ [load_word (mem w) created]
    | Raise e => vector_extend_error w v 1 e ∧ vector_ok w' v rs bs ∧ contents w' v = contents w v
    end) w.
Proof.
  intros Hrun Hv Hp Hoth. destruct Hoth as [Hu Ho]. pose proof (vo_size _ _ _ _ Hv) as Hs.
  assert (∀ w1 u, vector_ok w1 u (root_range created :: rs) bs → may_run me w1 = true →
    runs (gc_root_destroy me env created) (λ r w', r = Ok tt ∧ vector_ok w' u rs bs ∧ contents w' u = contents w1 u) w1)
    as Hdestroy.
  { intros w1 u [? ? ? Hb Hr] Hrun1. eapply runs_mono; [|apply gc_root_destroy_runs; [done|done|]].
    2:{ rewrite Hr. symmetry. apply Permutation_middle. }
    intros r w2 (-> & [Hc Hb2] & Hr2). split_and!; [done|by split; [..|rewrite Hb2|]|].
    eapply words_change; [exact Hc|]. intros i _. unfold outside. lia. }
  unfold insert_created. apply runs_bind_result.
  eapply runs_mono; [|apply (push_back_runs me env w v _ bs Hrun Hv created); [done|]].
  2:{ unfold outside, slot, storage_end, sizeof_gc_root in *. lia. }
  intros [v'|e] w1 [Hc Hpost]; pose proof (change_may_run _ _ _ _ Hc Hrun) as Hrun1.
  - destruct Hpost as (Hok & Hcon & _). apply runs_bind, runs_atomic. unfold read_word, gets.
    apply runs_bind. eapply runs_mono; [|by apply Hdestroy]. intros r w2 (-> & Hok2 & Hcon2). apply runs_ret.
    simpl. split_and!; [by apply (ch_mem _ _ _ Hc)|done|by rewrite Hcon2].
  - destruct Hpost as (He & Hok & Hcon). apply runs_bind. eapply runs_mono; [|by apply Hdestroy].
    intros r w2 (-> & Hok2 & Hcon2). apply runs_raise. split_and!; [done|done|by rewrite Hcon2].
Qed.
End Insert.

(** The whole of [emplace_new], from the object [gc_new] made. *)
Lemma emplace_new_runs {ASAN : AsanRuntime} {ALLOC : Allocator} {GROWTH : VectorGrowth}
    dtor me cenv sizeof_T alignof_T d ctor v created w q w1 rs bs :
  exec (gc_new dtor me cenv sizeof_T alignof_T d ctor) w = Ret q w1 → is_size (gc_ptr_get q) →
  may_run me w1 = true → vector_ok w1 v rs bs → root_place created → (∀ w, unavailable w created) →
  outside (data_ v) (storage_end v) created →
  runs (gc_vector_emplace_new dtor me cenv sizeof_T alignof_T d ctor v created) (λ r w', match r with
    | Ok (q', v') => q' = q ∧ vector_ok w' v' rs bs ∧ contents w' v' = contents w1 v ++ [gc_ptr_get q]
    | Raise e => (e = length_error ∨ e = bad_alloc) ∧ vector_ok w' v rs bs ∧ contents w' v = contents w1 v
    end) w.
Proof.
  intros Enew Hq Hrun Hv Hpl Hu Ho. unfold gc_vector_emplace_new. apply runs_bind. unfold runs at 1. rewrite Enew.
  apply runs_bind. eapply runs_mono; [|by apply gc_root_new_runs]. intros r w2 ([Hc Hb] & Hl & Hpost).
  assert (contents w2 v = contents w1 v) as Hcon.
  { eapply words_change; [exact Hc|]. intros i Hi. pose proof (vo_size _ _ _ _ Hv).
    destruct (slots_in_storage v i) as (?&?&?); [lia..|]. unfold outside, word_size in *. lia. }
  destruct r as [[]|e].
  - assert (vector_ok w2 v (root_range created :: rs) bs) as Hok.
    { destruct Hv as [? ? ? Hb1 Hr1]. split; [done..|by rewrite Hb|]. rewrite Hpost, Hr1. apply Permutation_middle. }
    eapply runs_mono; [|apply (insert_created_runs me (ce_park cenv) w2 v created rs bs);
      [by eapply change_may_run|done|done|by split]].
    intros [[q' v']|e] w3; rewrite ?Hl, ?Hcon.
    + intros (Hq' & Hok' & Hcon'). split_and!; [|done|done]. by destruct q', q; simpl in *; subst.
    + intros (He & Hok' & Hcon'). split_and!; [|done|done]. destruct He as [[-> _]|[-> _]]; auto.
  - destruct Hpost as (-> & Hf & Hr). split_and!; [by right| |done].
    destruct Hv as [? ? ? Hb1 Hr1]. split; [done..|by rewrite Hb|by rewrite Hr].
Qed.

(** ** The theorems *)

(** C33. Growth is transactional.  [push_back], [reserve], [shrink_to_fit] and
    [resize] leave a vector with the contents they should, its roots and its
    storage and nothing else of either; or they throw, for want of memory or
    of address space, and the vector is as it was.  [shrink_to_fit] never
    throws.  Words of others are kept, and the vector stays where it is when
    its capacity is enough. *)
Theorem gc_vector_growth {ASAN : AsanRuntime} {ALLOC : Allocator} {GROWTH : VectorGrowth} me env w v rs bs p n :
  may_run me w = true → vector_ok w v rs bs → is_size (gc_ptr_get p) → 0 <= n →
  runs (gc_vector_push_back me env v p)
    (vector_post w v rs bs (contents w v ++ [gc_ptr_get p])
       (λ v', Z.of_nat (size_ v) < capacity_ v → data_ v' = data_ v ∧ capacity_ v' = capacity_ v)
       (vector_extend_error w v 1)) w ∧
  runs (gc_vector_reserve me env v n)
    (vector_post w v rs bs (contents w v)
       (λ v', capacity_ v' = Z.max (capacity_ v) n ∧ ∀ a, others w v a → outside (data_ v') (storage_end v') a)
       (λ e, (e = length_error ∧ max_size < n) ∨ no_memory w e)) w ∧
  runs (gc_vector_shrink_to_fit me env v)
    (vector_post w v rs bs (contents w v)
       (λ v', capacity_ v' = Z.of_nat (size_ v) ∨ v' = v ∧ (may_fail w ∨ exhausted)) (λ _, False)) w ∧
  runs (gc_vector_resize me env v n)
    (vector_post w v rs bs (take (Z.to_nat n) (contents w v) ++ replicate (Z.to_nat n - size_ v) 0)
       (λ v', n <= capacity_ v → data_ v' = data_ v ∧ capacity_ v' = capacity_ v)
       (λ e, (e = length_error ∧ max_size < n) ∨ no_memory w e)) w.
Proof.
  intros Hrun Hv Hp Hn. split_and!.
  - by apply emplace_back_runs.
  - by apply vector_reserve_runs.
  - by apply vector_shrink_to_fit_runs.
  - by apply vector_resize_runs.
Qed.

Abbreviation demo_push v p := (@gc_vector_push_back no_asan bump_allocator doubling 1 demo_park v {| ptr_ := p |}).

(** A full vector of one element: the second one moves it. *)
Definition full_world : World * vector :=
  match exec (demo_push gc_vector addr_C) demo_world with Ret v w => (w, v) | _ => (demo_world, gc_vector) end.

Lemma full_ok : vector_ok full_world.1 full_world.2 (root_ranges demo_world) (blocks demo_world) ∧
  contents full_world.1 full_world.2 = [addr_C].
Proof.
  assert (runs (demo_push gc_vector addr_C) (λ r w, match r with
    | Ok v => vector_ok w v (root_ranges demo_world) (blocks demo_world) ∧ contents w v = [addr_C]
    | Raise _ => True end) demo_world) as H.
  { eapply runs_mono; [|apply (@emplace_back_runs no_asan bump_allocator 1 demo_park doubling demo_world gc_vector _ _ eq_refl
      (vector_empty_ok demo_world) addr_C ltac:(by vm_compute))].
    intros [v|e] w [_ Hpost]; [|done]. by destruct Hpost as (? & Hcon & _). }
  assert (match exec (demo_push gc_vector addr_C) demo_world with Ret _ _ => True | _ => False end) as Hv
    by (vm_compute; exact I).
  unfold runs in H. unfold full_world.
  destruct (exec (demo_push gc_vector addr_C) demo_world) as [v w| |]; [exact H|destruct Hv..].
Qed.

#[local] Opaque full_world.

Lemma gc_vector_growth_witness :
  ∃ v' w', exec (demo_push full_world.2 addr_D) full_world.1 = Ret v' w' ∧
    vector_ok w' v' (root_ranges demo_world) (blocks demo_world) ∧
    contents w' v' = [addr_C; addr_D] ∧ capacity_ v' = 2.
Proof.
  assert (match exec (demo_push full_world.2 addr_D) full_world.1 with
    | Ret v' _ => capacity_ v' = 2 | _ => False end) as Hv by (vm_compute; reflexivity).
  destruct full_ok as [Hok Hcon].
  pose proof (proj1 (@gc_vector_growth no_asan bump_allocator doubling 1 demo_park full_world.1 full_world.2 _ _
    {| ptr_ := addr_D |} 0 eq_refl Hok ltac:(vm_compute; split; discriminate) ltac:(lia))) as H.
  unfold runs in H. destruct (exec (demo_push full_world.2 addr_D) full_world.1) as [v' w'| |]; [|destruct Hv..].
  destruct H as [_ (Hok' & Hcon' & _)]. exists v', w'. rewrite Hcon in Hcon'.
  exact (conj eq_refl (conj Hok' (conj Hcon' Hv))).
Defined.

(** C34. Removal.  [erase] of a range or a position, [pop_back] and [clear] drop
    exactly those elements, keep the others in order and where the storage is,
    give up exactly the roots that are gone, and never throw; [at] finds the
    element at its index, or throws [out_of_range] behind the end. *)
Theorem gc_vector_removal {ASAN : AsanRuntime} {ALLOC : Allocator} me env w v rs bs first last i :
  may_run me w = true → vector_ok w v rs bs → (first <= last <= size_ v)%nat → (i < size_ v)%nat →
  let stays v' := data_ v' = data_ v ∧ capacity_ v' = capacity_ v in
  let removed vs := vector_post w v rs bs vs stays (λ _, False) in
  runs (gc_vector_erase_range me env v first last) (removed (take first (contents w v) ++ drop last (contents w v))) w ∧
  runs (gc_vector_erase me env v i) (removed (delete i (contents w v))) w ∧
  runs (gc_vector_pop_back me env v) (removed (take (size_ v - 1) (contents w v))) w ∧
  runs (gc_vector_clear me env v) (removed []) w ∧
  (∃ a, gc_vector_at v i = Ok a ∧ a = gc_vector_index v i ∧ contents w v !! i = Some (load_word (mem w) a)) ∧
  gc_vector_at v (size_ v) = Raise out_of_range.
Proof.
  intros Hrun Hv [Hfl Hl] Hi stays removed. split_and!.
  - by apply vector_erase_range_runs.
  - unfold removed. rewrite delete_take_drop. apply vector_erase_range_runs; [done|done|lia|lia].
  - apply vector_pop_back_runs; [done|done|lia].
  - apply (erase_tail_runs me env w v rs bs Hrun Hv 0). lia.
  - unfold gc_vector_at. rewrite (proj2 (Nat.ltb_lt _ _) Hi). eexists. split_and!; [done..|].
    unfold contents, words, slots. by rewrite !list_lookup_fmap, lookup_seq_lt.
  - unfold gc_vector_at. by rewrite Nat.ltb_irrefl.
Qed.

(** Three elements in storage for four. *)
Definition three_world : World * vector :=
  match exec (v ← demo_push gc_vector addr_A; v ← demo_push v addr_B; demo_push v addr_C) demo_world with
  | Ret v w => (w, v)
  | _ => (demo_world, gc_vector)
  end.

Lemma three_ok : vector_ok three_world.1 three_world.2 (root_ranges demo_world) (blocks demo_world) ∧
  contents three_world.1 three_world.2 = [addr_A; addr_B; addr_C].
Proof.
  assert (∀ w v p vs, may_run 1 w = true → is_size p → vector_ok w v (root_ranges demo_world) (blocks demo_world) →
    contents w v = vs → runs (demo_push v p) (λ r w', match r with
      | Ok v' => may_run 1 w' = true ∧ vector_ok w' v' (root_ranges demo_world) (blocks demo_world) ∧ contents w' v' = vs ++ [p]
      | Raise _ => True end) w) as Hpush.
  { intros w v p vs Hrun Hp Hok <-.
    eapply runs_mono; [|by apply (@emplace_back_runs no_asan bump_allocator 1 demo_park doubling w v _ _ Hrun Hok p Hp)].
    intros [v'|e] w' [Hc Hpost]; [|done]. split; [by eapply change_may_run|]. by destruct Hpost as (? & ? & _). }
  assert (∀ p, p ∈ [addr_A; addr_B; addr_C] → is_size p) as Hsz.
  { intros p Hp. repeat (apply elem_of_cons in Hp as [->|Hp]); [by vm_compute..|by apply elem_of_nil in Hp]. }
  assert (runs (v ← demo_push gc_vector addr_A; v ← demo_push v addr_B; demo_push v addr_C) (λ r w', match r with
    | Ok v' => vector_ok w' v' (root_ranges demo_world) (blocks demo_world) ∧ contents w' v' = [addr_A; addr_B; addr_C]
    | Raise _ => True end) demo_world) as H.
  { apply runs_bind. eapply runs_mono; [|apply (Hpush demo_world gc_vector addr_A []); [done|apply Hsz; set_solver|
      apply vector_empty_ok|done]].
    intros [v1|e] w1; [intros (Hr1 & Hok1 & Hc1)|done]. apply runs_bind.
    eapply runs_mono; [|apply (Hpush w1 v1 addr_B [addr_A]); [done|apply Hsz; set_solver|done|done]].
    intros [v2|e] w2; [intros (Hr2 & Hok2 & Hc2)|done].
    eapply runs_mono; [|apply (Hpush w2 v2 addr_C [addr_A; addr_B]); [done|apply Hsz; set_solver|done|done]].
    intros [v3|e] w3; [by intros (_ & Hok3 & Hc3)|done]. }
  unfold runs in H. unfold three_world.
  assert (match exec (v ← demo_push gc_vector addr_A; v ← demo_push v addr_B; demo_push v addr_C) demo_world with
    | Ret _ _ => True | _ => False end) as Hv by (vm_compute; exact I).
  destruct (exec (v ← demo_push gc_vector addr_A; _) demo_world) as [v w| |]; [exact H|destruct Hv..].
Qed.

#[local] Opaque three_world.

Lemma gc_vector_removal_witness :
  ∃ v' w', exec (@gc_vector_erase no_asan 1 demo_park three_world.2 0) three_world.1 = Ret v' w' ∧
    contents w' v' = [addr_B; addr_C] ∧ length (root_ranges w') = 3%nat ∧
    gc_vector_at three_world.2 3 = Raise out_of_range.
Proof.
  destruct three_ok as [Hok Hcon].
  destruct (@gc_vector_removal no_asan bump_allocator 1 demo_park three_world.1 three_world.2 _ _ 0 1 0
    ltac:(vm_compute; reflexivity) Hok ltac:(vm_compute; lia) ltac:(vm_compute; lia)) as (_ & H & _ & _ & _ & Hat).
  assert (match exec (@gc_vector_erase no_asan 1 demo_park three_world.2 0) three_world.1 with
    | Ret _ w' => length (root_ranges w') = 3%nat | _ => False end) as Hv by (vm_compute; reflexivity).
  unfold runs in H. destruct (exec (@gc_vector_erase no_asan 1 demo_park three_world.2 0) three_world.1) as [v' w'| |]; [|destruct Hv..].
  destruct H as [_ (_ & Hcon' & _)]. rewrite Hcon in Hcon'. exists v', w'.
  exact (conj eq_refl (conj Hcon' (conj Hv Hat))).
Defined.

(** C35. Construction and destruction.  The constructors make a vector of the
    given elements on top of the roots and storage there were, or throw and
    leave nothing; the assignments replace the contents; the destructor gives
    back every root and the storage of the vector and nothing else. *)
Theorem gc_vector_lifecycle {ASAN : AsanRuntime} {ALLOC : Allocator} {GROWTH : VectorGrowth}
    me env w v other rs rs' bs bs' pointers n :
  may_run me w = true → vector_ok w v rs bs → vector_ok w other rs' bs' →
  storage_end v <= data_ other ∨ storage_end other <= data_ v →
  Forall (λ p, is_size (gc_ptr_get p)) pointers → 0 <= n →
  runs (gc_vector_list me env pointers) (new_post w (gc_ptr_get <$> pointers)
    (λ e, (e = length_error ∧ max_size < Z.of_nat (length pointers)) ∨ no_memory w e)) w ∧
  runs (gc_vector_count me env n) (new_post w (replicate (Z.to_nat n) 0)
    (λ e, (e = length_error ∧ max_size < n) ∨ no_memory w e)) w ∧
  runs (gc_vector_copy me env other) (new_post w (contents w other) (no_memory w)) w ∧
  runs (gc_vector_assign me env v other) (copy_assign_post w v rs bs other) w ∧
  runs (gc_vector_move_assign me env v other) (λ r w', r = Ok (gc_vector_move other) ∧
    blocks w' = bs ∧ root_ranges w' ≡ₚ rs ∧ contents w' other = contents w other) w ∧
  runs (gc_vector_destroy me env v) (λ r w', r = Ok tt ∧
    blocks w' = bs ∧ root_ranges w' ≡ₚ rs ∧ contents w' other = contents w other) w.
Proof.
  intros Hrun Hv Ho Hapart Hp Hn.
  assert (∀ w', change (λ _, True) w w' → contents w' other = contents w other) as Hk.
  { intros w' Hc. by eapply words_change. }
  split_and!.
  - by apply gc_vector_list_runs.
  - by apply vector_count_runs.
  - by eapply vector_copy_runs.
  - by eapply vector_copy_assign_runs.
  - eapply runs_mono; [|by apply (vector_move_assign_runs me env w v rs bs)].
    intros r w' (-> & Hc & Hb & Hr). auto.
  - eapply runs_mono; [|by apply (vector_destroy_runs me env w v rs bs)].
    intros r w' (-> & Hc & Hb & Hr). auto.
Qed.

Lemma gc_vector_lifecycle_witness :
  ∃ w', exec (@gc_vector_destroy no_asan 1 demo_park three_world.2) three_world.1 = Ret tt w' ∧
    blocks w' = blocks demo_world ∧ root_ranges w' ≡ₚ root_ranges demo_world ∧
    ∃ v' w'', exec (@gc_vector_copy no_asan bump_allocator 1 demo_park three_world.2) three_world.1 = Ret v' w'' ∧
      contents w'' v' = [addr_A; addr_B; addr_C].
Proof.
  destruct three_ok as [Hok Hcon]. pose proof (vector_empty_ok three_world.1) as He.
  destruct (@gc_vector_lifecycle no_asan bump_allocator doubling 1 demo_park three_world.1 three_world.2 vector_empty
    _ _ _ _ [] 0 ltac:(vm_compute; reflexivity) Hok He ltac:(right; vm_compute; discriminate) ltac:(constructor) ltac:(lia))
    as (_ & _ & _ & _ & _ & Hd).
  destruct (@gc_vector_lifecycle no_asan bump_allocator doubling 1 demo_park three_world.1 vector_empty three_world.2
    _ _ _ _ [] 0 ltac:(vm_compute; reflexivity) He Hok ltac:(left; vm_compute; discriminate) ltac:(constructor) ltac:(lia))
    as (_ & _ & Hc & _).
  assert (match exec (@gc_vector_copy no_asan bump_allocator 1 demo_park three_world.2) three_world.1 with
    | Ret _ _ => True | _ => False end) as Hv by (vm_compute; exact I).
  unfold runs in Hd, Hc.
  destruct (exec (@gc_vector_destroy no_asan 1 demo_park three_world.2) three_world.1) as [[] w'|e w'|];
    [|destruct Hd as [Hd _]; discriminate Hd|destruct Hd].
  destruct (exec (@gc_vector_copy no_asan bump_allocator 1 demo_park three_world.2) three_world.1) as [v' w''| |]; [|destruct Hv..].
  destruct Hd as (_ & Hb & Hr & _). destruct Hc as (_ & _ & Hcv). rewrite Hcon in Hcv.
  exists w'. split; [reflexivity|]. split; [exact Hb|]. split; [exact Hr|].
  exists v', w''. exact (conj eq_refl Hcv).
Defined.


Lemma three_wf : heap_wf three_world.1.
Proof.
  apply (heap_wf_local demo_world); [vm_compute; reflexivity..| |exact demo_wf].
  intros k b Hin. change (allocations demo_world) with demo_registry in Hin. unfold demo_registry in Hin.
  rewrite !elem_of_cons, elem_of_nil in Hin.
  destruct Hin as [[= -> ->]|[[= -> ->]|[[= -> ->]|[[= -> ->]|[]]]]]; split; vm_compute; reflexivity.
Qed.

Lemma three_roots_ok : @roots_ok no_asan demo_env three_world.1.
Proof.
  assert (forallb (λ r, (0 <=? rr_begin r) && (rr_begin r <=? SIZE_MAX) && (0 <=? rr_end r) && (rr_end r <=? SIZE_MAX))
    (root_ranges three_world.1) = true) as Hr by (vm_compute; reflexivity).
  rewrite forallb_forall in Hr. split; [apply demo_roots_ok|exact (ro_threads _ _ demo_roots_ok)|].
  intros r Hin%list_elem_of_In%Hr. unfold is_size. lia.
Qed.



(** A local root at [demo_created] holds [addr_D]. *)
Definition demo_created : Z := 80000.

(** An allocator over a world whose stack holds the local root. *)
Definition low_address (w : World) (n a : Z) : option Z :=
  match bump_address w n a with
  | Some p => if (p + n <=? demo_created) || (demo_created + word_size <=? p) then Some p else None
  | None => None
  end.

#[refine] Definition low_allocator : Allocator := {| new_address := low_address |}.
Proof.
  all: intros w n a p; unfold low_address; intros;
    destruct (bump_address w n a) as [p'|] eqn:E; [|done]; case_match; simplify_eq.
  - by eapply (@new_address_pos bump_allocator).
  - by eapply (@new_address_aligned bump_allocator).
  - by eapply (@new_address_low bump_allocator).
  - by eapply (@new_address_fresh bump_allocator).
Defined.

Lemma demo_created_avoided w : @unavailable low_allocator w demo_created.
Proof.
  intros n p. simpl. unfold low_address. destruct (bump_address _ _ _) as [q|]; [|done].
  destruct (Z.leb_spec (q + n) demo_created), (Z.leb_spec (demo_created + word_size) q); simpl;
    intros ?; simplify_eq; unfold outside; lia.
Qed.

Abbreviation demo_emplace := (@gc_vector_emplace_new no_asan low_allocator doubling no_finalizer 1 demo_collect_env
  16 8 0 (λ _, mret tt) gc_vector demo_created).
Abbreviation demo_new := (@gc_new no_asan low_allocator no_finalizer 1 demo_collect_env 16 8 0 (λ _, mret tt)).

