(* ===== verification/HandleTheorems.v ===== *)
(** * Theorems: root handles and array handles

    Construction, copy, move, assignment and destruction of [gc_root]; what the
    handles of an array keep. *)

From S2P Require Import Prelude Words Memory OrdMap Chunk Manager Heap Scanner Scenario Mark Finalize WeakRefs.
From S2P Require Import Sweep Threads Protocol Collect CollectSpec CollectorTheorems ApiTheorems Roots Alloc Handles.
From S2P Require Import GcNew ArrayHandles Vector Slots VectorSpec Rooted.

(** C36. The members of [gc_root].  A constructor registers the handle, or throws
    [bad_alloc] and registers nothing; a copy has the pointer of its source, a
    move empties the source, which stays registered; an assignment changes the
    pointer only, and self-assignment nothing; the destructor gives up one root. *)
Theorem gc_root_members {ASAN : AsanRuntime} me env w self other p :
  may_run me w = true → root_place self → root_place other → is_size p →
  self + word_size <= other ∨ other + word_size <= self →
  let q := load_word (mem w) other in
  let constructs_with v q' := λ (r : result unit) w', load_word (mem w') other = q' ∧ match r with
    | Ok _ => rooted self v w' ∧ root_ranges w' ≡ₚ root_range self :: root_ranges w
    | Raise e => e = bad_alloc ∧ may_fail w ∧ root_ranges w' = root_ranges w
    end in
  let assigns_with v q' := λ (r : result unit) w', r = Ok tt ∧ load_word (mem w') self = v ∧
    load_word (mem w') other = q' ∧ root_ranges w' = root_ranges w in
  runs (gc_root_null me env self) (constructs_with 0 q) w ∧
  runs (gc_root_new me env self p) (constructs_with p q) w ∧
  runs (gc_root_copy me env self other) (constructs_with q q) w ∧
  runs (gc_root_move me env self other) (λ r w', match r with
    | Ok _ => constructs_with q 0 r w'
    | Raise _ => constructs_with q q r w' end) w ∧
  runs (gc_root_assign self other) (assigns_with q q) w ∧
  runs (gc_root_move_assign self other) (assigns_with q 0) w ∧
  runs (gc_root_assign_ptr self p) (assigns_with p q) w ∧
  runs (gc_root_reset self p) (assigns_with p q) w ∧
  exec (gc_root_assign self self) w = Ret tt w ∧ exec (gc_root_move_assign self self) w = Ret tt w ∧
  ∀ rs, root_ranges w ≡ₚ root_range self :: rs →
    runs (gc_root_destroy me env self) (λ r w', r = Ok tt ∧ root_ranges w' ≡ₚ rs ∧ effect 0 0 w w') w.
Proof.
  intros Hrun Hs Ho Hp Hd q constructs_with assigns_with.
  assert (outside self (self + word_size) other) as Hout by (unfold outside; lia).
  assert (is_size q) as Hq by apply load_word_size.
  assert (is_size 0) as H0 by (unfold is_size, SIZE_MAX; lia).
  assert (∀ v, is_size v → runs (gc_root_new me env self v) (constructs_with v q) w) as Hnew.
  { intros v Hv. eapply runs_mono; [|by apply gc_root_new_runs]. intros r w' ([Hc _] & Hl & Hpost).
    split; [by apply (ch_mem _ _ _ Hc)|]. destruct r as [[]|e]; [|done]. split; [|done].
    split; [rewrite Hpost; left|done]. }
  assert (∀ v, is_size v → runs (atomic (write_word self v)) (assigns_with v q) w) as Hwrite.
  { intros v Hv. apply runs_atomic. destruct (write_word_effect self v w Hv) as ([Hc _] & Hr & Hl).
    split_and!; [done|done|by apply (ch_mem _ _ _ Hc)|done]. }
  assert (runs (gc_root_copy me env self other) (constructs_with q q) w) as Hcopy.
  { unfold gc_root_copy. apply runs_bind, runs_atomic. by apply Hnew. }
  split_and!; [by apply (Hnew 0)|by apply Hnew|done| | | |by apply Hwrite|by apply Hwrite| | |].
  - unfold gc_root_move. apply runs_bind. eapply runs_mono; [|exact Hcopy]. intros [[]|e] w' Hpost; [|done].
    apply runs_atomic. destruct Hpost as (_ & [Hr Hl] & Hrs).
    destruct (write_word_effect other 0 w' H0) as ([Hc _] & Hr' & Hl').
    split; [done|]. split; [|by rewrite Hr']. split; [by rewrite Hr'|].
    rewrite (ch_mem _ _ _ Hc); [done|]. unfold outside. lia.
  - eapply runs_mono; [|apply gc_root_assign_runs; unfold word_size in Hd; lia].
    intros r w' (-> & [Hc _] & Hr & Hl). split_and!; [done|done|by apply (ch_mem _ _ _ Hc)|done].
  - unfold gc_root_move_assign. destruct (Z.eqb_spec self other); [unfold word_size in Hd; lia|].
    apply runs_bind, runs_atomic. apply runs_bind, runs_atomic, runs_atomic. fold q.
    destruct (write_word_effect self q w Hq) as (_ & _ & Hl). set (w1 := set_mem (λ m, store_word m self q) w) in *.
    destruct (write_word_effect other 0 w1 H0) as ([Hc _] & Hr & Hl2). split_and!; [done| |done|done].
    change (load_word (mem (set_mem (λ m, store_word m other 0) w1)) self = q).
    rewrite (ch_mem _ _ _ Hc); [done|]. unfold outside. lia.
  - unfold gc_root_assign. by rewrite Z.eqb_refl.
  - unfold gc_root_move_assign. by rewrite Z.eqb_refl.
  - intros rs Hrs. eapply runs_mono; [|by apply gc_root_destroy_runs]. intros r w' (-> & ? & ?). done.
Qed.

Lemma gc_root_members_witness :
  ∃ w', exec (@gc_root_move no_asan 1 demo_park 80000 demo_root) demo_world = Ret tt w' ∧
    rooted 80000 addr_A w' ∧ load_word (mem w') demo_root = 0.
Proof.
  assert (∀ a, 0 < a < 2 ^ 20 → root_place a) as Hpl by (unfold root_place, sizeof_gc_root, SIZE_MAX; lia).
  destruct (@gc_root_members no_asan 1 demo_park demo_world 80000 demo_root 0 eq_refl (Hpl 80000 ltac:(lia))
    (Hpl demo_root ltac:(unfold demo_root; lia)) ltac:(vm_compute; split; discriminate)
    ltac:(right; vm_compute; discriminate)) as (_ & _ & _ & H & _).
  assert (match exec (@gc_root_move no_asan 1 demo_park 80000 demo_root) demo_world with
    | Ret _ _ => True | _ => False end) as Hv by (vm_compute; exact I).
  assert (load_word (mem demo_world) demo_root = addr_A) as Hq by (vm_compute; reflexivity).
  unfold runs in H. rewrite Hq in H.
  destruct (exec (@gc_root_move no_asan 1 demo_park 80000 demo_root) demo_world) as [[] w'| |]; [|destruct Hv..].
  destruct H as (Hl & Hr & _). exists w'. exact (conj eq_refl (conj Hr Hl)).
Defined.

(** C37. Array handles.  In a block of the size the array constructors ask for,
    the elements are disjoint, lie in the payload and resolve to the block; the
    handle itself points inside the block, so a root of it keeps the whole
    array through every collection, and an array handle over another element
    would do as well. *)
Theorem array_handles_keep_the_array {ASAN : AsanRuntime} me env w self k b j sizeof_T count :
  heap_wf w → may_run me w = true → (word_size | self) → root_place self →
  region_is_poisoned self word_size = false → (k, b) ∈ allocations w →
  0 <= j <= 62 → 0 < sizeof_T → 0 < count →
  let off := detail.array_elements_offset (2 ^ j) in
  off + sizeof_T * count <= SIZE_MAX → br_payload_end b = k + wrap64 (off + wrap64 (sizeof_T * count)) →
  let p := {| array_ptr_ := array_elements_begin (2 ^ j) k |} in
  let element i := gc_array_ptr_index sizeof_T p i in
  (∀ i, 0 <= i < count →
     k < element i ∧ element i + sizeof_T <= br_payload_end b ∧
     find_block_locked (allocations w) (element i) = Some (k, b) ∧
     ∀ i', 0 <= i' < count → i ≠ i' → element i + sizeof_T <= element i' ∨ element i' + sizeof_T <= element i) ∧
  ∀ i, 0 <= i < count →
    runs (gc_array_root_new me env self {| array_ptr_ := element i |}) (λ r w', match r with
      | Ok _ => rooted self (element i) w' ∧ ∀ cenv collector w2 hs, collected cenv collector w' w2 hs → (k, b) ∈ allocations w2
      | Raise e => e = bad_alloc ∧ may_fail w ∧ root_ranges w' = root_ranges w
      end) w.
Proof.
  intros Hwf Hrun Hal Hpl Hpois Hin Hj Hs Hc off Hmax Hend p element.
  pose proof (array_elements_offset_spec j Hj) as [_ Hoff]. fold off in Hoff.
  rewrite (wrap64_size (sizeof_T * count)), wrap64_size in Hend by (unfold is_size; nia).
  assert (array_in b k sizeof_T (2 ^ j) count) as Hai by (split; fold off; lia).
  assert (∀ i, 0 <= i < count → k < element i ∧ element i + sizeof_T <= br_payload_end b ∧
    ∀ i', 0 <= i' < count → i ≠ i' → element i + sizeof_T <= element i' ∨ element i' + sizeof_T <= element i) as He.
  { intros i Hi. destruct (array_element_in b k sizeof_T (2 ^ j) count i Hai Hi) as (_ & ? & ? & ?). done. }
  pose proof (wf_extent w Hwf k b Hin) as Hx. unfold sizeof_ChunkHeader, word_size in Hx.
  split.
  - intros i Hi. destruct (He i Hi) as (H1 & H2 & H3). split_and!; [done|done| |done].
    apply (find_block_spec w Hwf). split; [done|lia].
  - intros i Hi. destruct (He i Hi) as (H1 & H2 & _).
    change (gc_array_root_new me env self {| array_ptr_ := element i |}) with (gc_root_new me env self (element i)).
    eapply runs_mono; [|apply gc_root_new_runs; [done|unfold is_size; lia|done]].
    intros [[]|e] w' (Hch & Hl & Hpost); [|done].
    assert (rooted self (element i) w') as Hr by (split; [rewrite Hpost; left|done]).
    split; [done|]. intros cenv collector w2 hs Hcol. apply (co_alloc _ _ _ _ _ Hcol).
    destruct Hch as [[Hm Hh _ _] Hb].
    assert (allocations w' = allocations w) as Ha by exact (f_equal allocations_ Hm).
    rewrite Ha. split; [done|]. apply (rooted_live cenv collector self (element i) w' k b); try done; [|by rewrite Ha|lia].
    apply (heap_wf_ext w); [done|exact (eq_sym (f_equal weak_refs_ Hm))|exact (eq_sym (f_equal managed_bytes_ Hm))|
      exact (eq_sym (f_equal reserved_bytes_ Hm))|done..].
Qed.

(** Block [A] holds an array of three elements of 8 bytes behind its count. *)
Lemma array_handles_keep_the_array_witness :
  find_block_locked (allocations demo_world) (gc_array_ptr_index 8 {| array_ptr_ := addr_A + 8 |} 2) =
    Some (addr_A, demo_record 4096) ∧
  ∃ w', exec (@gc_array_root_new no_asan 1 demo_park 80000 {| array_ptr_ := addr_A + 8 + 2 * 8 |}) demo_world = Ret tt w' ∧
    ∀ w2 hs, @collected no_asan demo_collect_env 1 w' w2 hs → (addr_A, demo_record 4096) ∈ allocations w2.
Proof.
  destruct (@array_handles_keep_the_array no_asan 1 demo_park demo_world 80000 addr_A (demo_record 4096) 3 8 3
    demo_wf eq_refl ltac:(exists 10000; reflexivity) ltac:(unfold root_place, sizeof_gc_root, SIZE_MAX; lia) eq_refl
    (list_elem_of_lookup_2 demo_registry 0 _ eq_refl) ltac:(lia) ltac:(lia) ltac:(lia)
    ltac:(vm_compute; discriminate) ltac:(vm_compute; reflexivity)) as [He Hr].
  assert (array_elements_begin (2 ^ 3) addr_A = addr_A + 8) as Eb by (vm_compute; reflexivity).
  rewrite Eb in He, Hr. destruct (He 2 ltac:(lia)) as (_ & _ & Hf & _). split; [exact Hf|].
  specialize (Hr 2 ltac:(lia)). unfold gc_array_ptr_index in Hr. simpl (array_ptr_ _) in Hr.
  assert (match exec (@gc_array_root_new no_asan 1 demo_park 80000 {| array_ptr_ := addr_A + 8 + 2 * 8 |}) demo_world with
    | Ret _ _ => True | _ => False end) as Hv by (vm_compute; exact I).
  unfold runs in Hr.
  destruct (exec (@gc_array_root_new no_asan 1 demo_park 80000 {| array_ptr_ := addr_A + 8 + 2 * 8 |}) demo_world)
    as [[] w'| |]; [|destruct Hv..].
  destruct Hr as [_ Hc]. exists w'. split; [reflexivity|]. intros w2 hs Hcol. exact (Hc _ _ _ _ Hcol).
Defined.
