(* ===== verification/Enrolment.v ===== *)
(** * Threads that leave

    A collector waits for every registered thread, so a program that ends
    without unregistering blocks it for good.  [enrolled] follows whether a
    thread is registered along its program, whatever the others do; every
    operation but registration leaves that alone ([Steady]); a program in the
    scope of a [ScopedThreadRegistration] ends unregistered. *)

From S2P Require Import Prelude Words Memory OrdMap Chunk Manager Heap Scanner Mark Finalize WeakRefs.
From S2P Require Import Sweep Threads Protocol Collect Roots Alloc Handles GcNew Diagnostics Disciplines.

(** ** Following the registration *)

Fixpoint enrolled (me : thread_id) {A} (p : proc A) (Q : result A → bool → Prop) (b : bool) : Prop :=
  match p with
  | Done r => Q r b
  | Atomic guard act k => ∀ w r w',
      sm_wf (threads w) → registered me w = b → guard w = true → yields act w r w' →
      enrolled me (k r) Q (registered me w')
  end.

Class Steady (me : thread_id) {A} (p : proc A) : Prop :=
  steady : ∀ (Q : result A → bool → Prop) b, (∀ r, Q r b) → enrolled me p Q b.

(** What a section makes of the registration. *)
Definition section_enrols (me : thread_id) {A} (body : M World A) (Q : result A → bool → Prop) (b : bool) : Prop :=
  ∀ w r w', sm_wf (threads w) → registered me w = b → yields body w r w' → Q r (registered me w').

Definition unmoved {A} (act : M World A) : Prop := ∀ w r w', yields act w r w' → threads w' = threads w.

Section Rules.
Context (me : thread_id).

Lemma enrolled_mono {A} (p : proc A) (Q Q' : result A → bool → Prop) b :
  (∀ r b', Q r b' → Q' r b') → enrolled me p Q b → enrolled me p Q' b.
Proof.
  intros HQ. revert b. induction p as [r|X guard act k IH]; intros b; simpl; [apply HQ|]. eauto.
Qed.

Lemma enrolled_bind_result {A B} (p : proc A) (f : result A → proc B) Q b :
  enrolled me p (λ r b', enrolled me (f r) Q b') b → enrolled me (bind_result p f) Q b.
Proof. revert b. induction p as [r|X guard act k IH]; intros b; simpl; eauto. Qed.

Lemma enrolled_bind {A B} (p : proc A) (f : A → proc B) Q b :
  enrolled me p (λ r b', match r with Ok a => enrolled me (f a) Q b' | Raise e => Q (Raise e) b' end) b →
  enrolled me (p ≫= f) Q b.
Proof. intros H. apply enrolled_bind_result. eapply enrolled_mono, H. by intros [a|e]. Qed.

Lemma steady_done {A} (r : result A) : Steady me (Done r).
Proof. intros Q b HQ. apply HQ. Qed.

Lemma steady_bind_result {A B} (p : proc A) (f : result A → proc B) :
  Steady me p → (∀ r, Steady me (f r)) → Steady me (bind_result p f).
Proof. intros Hp Hf Q b HQ. apply enrolled_bind_result, Hp. intros r. by apply Hf. Qed.

Lemma steady_bind {A B} (p : proc A) (f : A → proc B) :
  Steady me p → (∀ a, Steady me (f a)) → Steady me (p ≫= f).
Proof. intros Hp Hf. apply steady_bind_result; [done|]. intros [a|e]; [apply Hf|apply steady_done]. Qed.

(** ** Sections *)

Lemma unmoved_calm {A} (act : M World A) : calm act → unmoved act.
Proof. intros Hc w r w' Hy. by apply (Hc w r w'). Qed.

Lemma unmoved_private {A} (act : M World A) : private act → unmoved act.
Proof. intros Hp w r w' Hy. by rewrite (Hp w r w'). Qed.

Lemma unmoved_modify f : (∀ w, threads (f w) = threads w) → unmoved (modify f).
Proof. intros Hf w [x|e] w' E; [|done]. injection E as _ <-. apply Hf. Qed.

Lemma unmoved_bind {A B} (m : M World A) (f : A → M World B) :
  unmoved m → (∀ a, unmoved (f a)) → unmoved (m ≫= f).
Proof.
  intros Hm Hf w r w' E. unfold yields, mbind, M_bind in E.
  destruct (m w) as [a w1|e w1|] eqn:Em; [| |by destruct r].
  - rewrite <-(Hm w (Ok a) w1 Em). by apply (Hf a w1 r w').
  - destruct r; [done|]. injection E as -> <-. by apply (Hm w (Raise _) w1 Em).
Qed.

Lemma registered_unmoved w w' : threads w' = threads w → registered me w' = registered me w.
Proof. intros E. by destruct (same_threads me w w' E). Qed.

Lemma section_enrols_unmoved {A} (act : M World A) (Q : result A → bool → Prop) b :
  unmoved act → (∀ r, Q r b) → section_enrols me act Q b.
Proof. intros Ha HQ w r w' _ <- Hy. rewrite (registered_unmoved w) by (by eapply Ha). apply HQ. Qed.

Lemma steady_guarded {A B} guard (act : M World A) (k : result A → proc B) :
  unmoved act → (∀ r, Steady me (k r)) → Steady me (Atomic guard act k).
Proof.
  intros Ha Hk Q b HQ w r w' _ <- _ Hy. rewrite (registered_unmoved w) by (by eapply Ha). by apply Hk.
Qed.

Lemma steady_atomic {A} (act : M World A) : unmoved act → Steady me (atomic act).
Proof. intros Ha. apply steady_guarded; [done|]. intros r. apply steady_done. Qed.

(** Parking and resuming do not change the stack bottom. *)
Lemma registered_alter f w :
  (∀ s, ts_stack_bottom (f s) = ts_stack_bottom s) →
  registered me (set_mgr (set_threads (sm_alter f me)) w) = registered me w.
Proof.
  intros Hf. unfold registered, find_thread_state_locked. simpl. rewrite sm_find_alter, Z.eqb_refl.
  destruct (sm_find me (threads w)) as [s|]; [simpl; by rewrite Hf|done].
Qed.

Section Locked.
Context {ASAN : AsanRuntime} (env : ParkEnv) {A : Type}.
Context (pre : M World unit) (body : M World A) (Q : result A → bool → Prop) (b : bool).
Hypothesis pre_unmoved : unmoved pre.
Hypothesis pre_throws : ∀ w e w', yields pre w (Raise e) w' → Q (Raise e) b.
Hypothesis body_enrols : section_enrols me body Q b.

Lemma section_after_pre w w1 r w' :
  sm_wf (threads w) → registered me w = b → threads w1 = threads w → yields body w1 r w' → Q r (registered me w').
Proof.
  intros Hwf Hb E Hy. apply (body_enrols w1 r w'); [by rewrite E|by rewrite (registered_unmoved w)|done].
Qed.

Lemma enrolled_section guard : enrolled me (Atomic guard body Done) Q b.
Proof. intros w r w' Hwf Hb _ Hy. by apply (body_enrols w r w'). Qed.

Lemma enrolled_parked : enrolled me (parked_node me body) Q b.
Proof.
  intros w r w' Hwf Hb _ Hy.
  change (yields body (set_mgr (set_threads (sm_alter (λ s,
    {| ts_stack_bottom := ts_stack_bottom s; ts_parked_stack_top := 0; ts_fake_stack_handle := 0;
       ts_register_spill := replicate (length (ts_register_spill s)) 0;
       ts_paused_for_collection := false |}) me)) w) r w') in Hy.
  eapply body_enrols, Hy; [by apply sm_wf_alter|by rewrite registered_alter].
Qed.

(** [f] is what the thread does before it waits. *)
Lemma enrolled_enter (pre' : M World unit) f (k : result (entry A) → proc A) :
  unmoved pre' → (∀ w e w', yields pre' w (Raise e) w' → Q (Raise e) b) →
  (∀ w, registered me (f w) = registered me w) →
  (∀ r, k r = match r with
     | Raise e => Done (Raise e)
     | Ok (Entered _ a) => Done (Ok a)
     | Ok (Not_registered _) => k (Ok (Not_registered A))
     | Ok (Must_park _) => k (Ok (Must_park A)) end) →
  enrolled me (k (Ok (Not_registered A))) Q b → enrolled me (k (Ok (Must_park A))) Q b →
  enrolled me (Atomic always (enter me pre' (modify f) body) k) Q b.
Proof.
  intros Hpre Hthrow Hf Hk Hwait Hpark w r w' Hwf Hb _ Hy%enter_entered.
  assert (∀ w1, yields pre' w (Ok tt) w1 → registered me w1 = b) as Hb1.
  { intros w1 Hy1. rewrite (registered_unmoved w); [done|by eapply Hpre]. }
  rewrite Hk. destruct Hy as [e w1 Hy1|w1 a w1' Hy1 _ Hy2|w1 e w1' Hy1 _ Hy2|w1 Hy1 _ _|w1 w1' Hy1 _ _ Hy2].
  - rewrite (registered_unmoved w), Hb by (by eapply Hpre). by eapply Hthrow.
  - eapply (section_after_pre w w1); [done|done|by eapply Hpre|done].
  - eapply (section_after_pre w w1); [done|done|by eapply Hpre|done].
  - by rewrite Hb1.
  - injection Hy2 as <-. by rewrite Hf, Hb1.
Qed.

Lemma enrolled_locked_after : enrolled me (locked_after me env pre body) Q b.
Proof.
  unfold locked_after. change (mret tt) with (modify (λ w : World, w)).
  apply enrolled_enter; [done|done|done|by intros [[]|]|apply enrolled_section|].
  apply (enrolled_enter (modify (λ w : World, w))); [by apply unmoved_modify|done| |by intros [[]|]|apply enrolled_section|].
  - intros w. by apply registered_alter.
  - apply enrolled_parked.
Qed.
End Locked.

Lemma enrolled_locked {ASAN : AsanRuntime} env {A} (body : M World A) Q b :
  section_enrols me body Q b → enrolled me (locked me env body) Q b.
Proof. intros Hb. apply enrolled_locked_after; [by apply (unmoved_calm _ (calm_ret tt))|done|done]. Qed.

Lemma steady_locked_after {ASAN : AsanRuntime} env {A} (pre : M World unit) (body : M World A) :
  unmoved pre → unmoved body → Steady me (locked_after me env pre body).
Proof. intros Hp Hb Q b HQ. apply enrolled_locked_after; [done|done|by apply section_enrols_unmoved]. Qed.

Lemma steady_locked {ASAN : AsanRuntime} env {A} (body : M World A) :
  unmoved body → Steady me (locked me env body).
Proof. intros Hb. apply steady_locked_after; [by apply (unmoved_calm _ (calm_ret tt))|done]. Qed.
End Rules.

(** ** Operations *)

Create HintDb steady discriminated.

Ltac unmoved :=
  repeat first
    [ solve [apply unmoved_private; auto 2 with private nocore]
    | solve [apply unmoved_calm; calm]
    | apply unmoved_modify; reflexivity
    | apply unmoved_bind; [|intros ?]
    | case_match ].

(** Walks through a process down to its critical sections. *)
Ltac steady :=
  repeat first
    [ assumption
    | solve [auto 2 with steady nocore]
    | apply steady_done
    | apply steady_atomic; solve [unmoved]
    | apply steady_locked; solve [unmoved]
    | apply steady_bind; [|intros ?]
    | apply steady_bind_result; [|intros ?]
    | apply steady_guarded; [solve [unmoved]|intros ?]
    | case_match ].

Lemma steady_noexcept me {A} (p : proc A) : Steady me p → Steady me (noexcept p).
Proof. intros Hp. unfold noexcept. steady. Qed.

Lemma steady_release me : Steady me release_stop_the_world.
Proof. unfold release_stop_the_world. steady. Qed.
#[export] Hint Resolve steady_noexcept steady_release : steady.

Section Stop.
Context {ASAN : AsanRuntime} (dtor : DestructorFn → Z → proc unit) (me : thread_id) (env : CollectEnv).
Hypothesis dtor_steady : ∀ d p, Steady me (dtor d p).

Lemma steady_destroy_blocks hs : Steady me (destroy_blocks dtor hs).
Proof.
  unfold destroy_blocks. apply steady_bind; [|intros _].
  - induction hs as [|h hs IH]; simpl; unfold finalize_block; steady; apply dtor_steady.
  - induction hs as [|h hs IH]; simpl; steady.
Qed.
#[local] Hint Resolve steady_destroy_blocks : steady.
#[local] Hint Resolve calm_collect_locked calm_shutdown_locked : calm.

Lemma steady_collect : Steady me (collect dtor me env).
Proof. unfold collect, collect_enter, request_stop_the_world, wait_for_other_threads_to_pause_locked. steady. Qed.

Lemma steady_shutdown : Steady me (shutdown dtor me env).
Proof. unfold shutdown, shutdown_enter, request_stop_the_world, wait_for_other_threads_to_pause_locked. steady. Qed.
#[local] Hint Resolve steady_collect : steady.

Lemma steady_collect_if_needed n : Steady me (collect_if_needed dtor me env n).
Proof. unfold collect_if_needed, collection_needed. steady. Qed.

Lemma steady_inspect {A} penv (body : M World A) : calm body → Steady me (inspect me penv body).
Proof.
  intros Hc. unfold inspect, inspect_enter, request_stop_the_world, wait_for_other_threads_to_pause_locked.
  apply unmoved_calm in Hc. apply steady_bind.
  - apply steady_locked. apply unmoved_bind; [unmoved|intros w]. case_match; [|unmoved].
    apply unmoved_bind; [done|intros a; unmoved].
  - intros [a|]; [apply steady_done|]. apply steady_guarded; [done|]. intros r. steady.
Qed.

Context {ALLOC : Allocator}.

Lemma steady_malloc_internal size alignment d c : Steady me (malloc_internal dtor me env size alignment d c).
Proof. unfold malloc_internal, allocate_block, operator_new_retry, publish_block, register_block_locked. steady. Qed.

Lemma steady_finish_construction p : Steady me (finish_construction me env p).
Proof. unfold finish_construction, finish_construction_locked. steady. Qed.

Lemma steady_release_unconstructed p : Steady me (release_unconstructed me env p).
Proof. unfold release_unconstructed, release_unconstructed_locked. steady. Qed.
End Stop.
#[export] Hint Resolve steady_collect steady_shutdown steady_collect_if_needed steady_malloc_internal
  steady_finish_construction steady_release_unconstructed : steady.

Section Members.
Context {ASAN : AsanRuntime} (me : thread_id) (env : ParkEnv).

Lemma steady_register_root_range b e : Steady me (register_root_range me env b e).
Proof.
  unfold register_root_range. case_match; [steady|]. apply steady_locked_after; unmoved.
Qed.

Lemma steady_unregister_root_range b e : Steady me (unregister_root_range me env b e).
Proof. unfold unregister_root_range. steady. Qed.
#[local] Hint Resolve steady_register_root_range steady_unregister_root_range : steady.

Lemma steady_register_root_object o n : Steady me (register_root_object me env o n).
Proof. unfold register_root_object. steady. Qed.

Lemma steady_unregister_root_object o n : Steady me (unregister_root_object me env o n).
Proof. unfold unregister_root_object. steady. Qed.
#[local] Hint Resolve steady_register_root_object steady_unregister_root_object : steady.

Lemma steady_ScopedRootRange_reset this b e : Steady me (ScopedRootRange_reset me env this b e).
Proof. unfold ScopedRootRange_reset. steady. Qed.

Lemma steady_ScopedRootObject_reset n o o' : Steady me (ScopedRootObject_reset me env n o o').
Proof. unfold ScopedRootObject_reset. steady. Qed.

Lemma steady_gc_root_new self p : Steady me (gc_root_new me env self p).
Proof. unfold gc_root_new, register_self. steady. Qed.

#[local] Hint Resolve steady_gc_root_new : steady.

Lemma steady_gc_root_copy self other : Steady me (gc_root_copy me env self other).
Proof. unfold gc_root_copy. steady. Qed.

#[local] Hint Resolve steady_gc_root_copy : steady.

Lemma steady_gc_root_move self other : Steady me (gc_root_move me env self other).
Proof. unfold gc_root_move. steady. Qed.

Lemma steady_gc_root_assign self other : Steady me (gc_root_assign self other).
Proof. unfold gc_root_assign. steady. Qed.

Lemma steady_gc_root_move_assign self other : Steady me (gc_root_move_assign self other).
Proof. unfold gc_root_move_assign. steady. Qed.

Lemma steady_gc_root_destroy self : Steady me (gc_root_destroy me env self).
Proof. unfold gc_root_destroy, unregister_self. steady. Qed.

Lemma steady_gc_root_get self : Steady me (gc_root_get self).
Proof. unfold gc_root_get. steady. Qed.

Lemma steady_safepoint : Steady me (safepoint me env).
Proof. unfold safepoint. steady. Qed.

Lemma steady_gc_weak_ptr_new self p : Steady me (gc_weak_ptr_new me env self p).
Proof. unfold gc_weak_ptr_new, register_weak_ref, push_weak_ref. steady. Qed.

Lemma steady_gc_weak_ptr_destroy self : Steady me (gc_weak_ptr_destroy me env self).
Proof. unfold gc_weak_ptr_destroy, unregister_weak_ref. steady. Qed.

Lemma steady_gc_weak_ptr_copy self other : Steady me (gc_weak_ptr_copy me env self other).
Proof. unfold gc_weak_ptr_copy, copy_weak_ref, push_weak_ref. steady. Qed.

Lemma steady_gc_weak_ptr_take self other : Steady me (gc_weak_ptr_take me env self other).
Proof. unfold gc_weak_ptr_take, update_weak_ref. steady. Qed.

Lemma steady_gc_weak_ptr_reset self : Steady me (gc_weak_ptr_reset me env self).
Proof. unfold gc_weak_ptr_reset, unregister_weak_ref. steady. Qed.
#[local] Hint Resolve steady_gc_weak_ptr_take steady_gc_weak_ptr_reset : steady.

Lemma steady_gc_weak_ptr_move_assign self other : Steady me (gc_weak_ptr_move_assign me env self other).
Proof. apply steady_noexcept. steady. Qed.

Lemma steady_gc_weak_ptr_expired self : Steady me (gc_weak_ptr_expired me env self).
Proof. unfold gc_weak_ptr_expired, read_weak_ref. steady. Qed.

Lemma steady_gc_weak_ptr_lock self : Steady me (gc_weak_ptr_lock me env self).
Proof. unfold gc_weak_ptr_lock, read_weak_ref. steady. Qed.
End Members.
#[export] Hint Resolve steady_register_root_range steady_unregister_root_range steady_register_root_object
  steady_unregister_root_object steady_ScopedRootRange_reset steady_ScopedRootObject_reset steady_gc_root_new
  steady_gc_root_copy steady_gc_root_destroy steady_gc_root_get steady_safepoint steady_gc_weak_ptr_new
  steady_gc_weak_ptr_reset steady_gc_weak_ptr_lock steady_gc_root_move steady_gc_root_assign
  steady_gc_root_move_assign steady_gc_weak_ptr_destroy steady_gc_weak_ptr_copy steady_gc_weak_ptr_take
  steady_gc_weak_ptr_move_assign steady_gc_weak_ptr_expired : steady.

Section New.
Context {ASAN : AsanRuntime} {ALLOC : Allocator}.
Context (dtor : DestructorFn → Z → proc unit) (me : thread_id) (env : CollectEnv).
Hypothesis dtor_steady : ∀ d p, Steady me (dtor d p).

Lemma steady_gc_new n a d ctor : (∀ p, Steady me (ctor p)) → Steady me (gc_new dtor me env n a d ctor).
Proof.
  intros Hc. pose proof (steady_malloc_internal dtor me env dtor_steady).
  pose proof (steady_collect_if_needed dtor me env dtor_steady). unfold gc_new. steady; auto with steady.
Qed.

Lemma steady_nothrow p : Steady me p → Steady me (nothrow p).
Proof. intros Hp. unfold nothrow. steady. Qed.

Section Array.
Context (n a : Z) (d : DestructorFn) (construct : Z → nat → proc unit) (elem_dtor : Z → proc unit).
Hypothesis construct_steady : ∀ p i, Steady me (construct p i).
Hypothesis elem_dtor_steady : ∀ p, Steady me (elem_dtor p).

Lemma steady_construct_elements p k i : Steady me (construct_elements n a construct p k i).
Proof. revert i. induction k as [|k IH]; intros i; simpl; steady; apply construct_steady. Qed.

Lemma steady_destroy_elements p k : Steady me (destroy_elements n a elem_dtor p k).
Proof. induction k as [|k IH]; simpl; steady; apply elem_dtor_steady. Qed.
#[local] Hint Resolve steady_construct_elements steady_destroy_elements : steady.

Lemma steady_construct_array count : Steady me (construct_array dtor me env n a count d construct elem_dtor).
Proof.
  pose proof (steady_malloc_internal dtor me env dtor_steady).
  pose proof (steady_collect_if_needed dtor me env dtor_steady).
  unfold construct_array, construct_payload, ArrayDestructor_destroy. steady; auto with steady.
Qed.
End Array.
End New.

(** ** Registration *)

Section Registration.
Context {ASAN : AsanRuntime} (me : thread_id) (env : ParkEnv).

Lemma enrolled_unregister (Q : result unit → bool → Prop) b :
  (∀ r, Q r false) → enrolled me (unregister_current_thread me env) Q b.
Proof.
  intros HQ. apply enrolled_locked. intros w [[]|e] w' Hwf _ Hy; [|done]. injection Hy as <-.
  assert (registered me (set_mgr (set_threads (sm_erase me)) w) = false) as ->; [|done].
  unfold registered, find_thread_state_locked. simpl. by rewrite sm_find_erase, Z.eqb_refl.
Qed.

Lemma enrolled_register_stack_bottom sb (Q : result unit → bool → Prop) b :
  Q (Ok tt) true → (∀ e, Q (Raise e) b) → enrolled me (register_stack_bottom me env sb) Q b.
Proof.
  intros Hok He. unfold register_stack_bottom. destruct (Z.eqb_spec sb 0); [apply He|].
  apply enrolled_locked. intros w r w' Hwf Hb Hy. unfold yields, assign_stack_bottom in Hy.
  rewrite M_bind_get in Hy. unfold mbind, M_bind in Hy.
  match type of Hy with match ?m w with _ => _ end = _ => destruct (m w) as [[] w1|e w1|] eqn:E end; [| |by destruct r].
  - assert (threads w1 = threads w) as Ht.
    { destruct (find_thread_state_locked me w); [by injection E as <-|]. by apply (calm_native_alloc w (Ok tt) w1). }
    destruct r as [[]|e]; [|done]. injection Hy as <-.
    match goal with |- Q _ ?x => assert (x = true) as ->; [|done] end. rewrite <-Ht in Hwf.
    unfold registered, find_thread_state_locked. simpl. rewrite sm_find_alter, Z.eqb_refl.
    destruct (sm_find me (threads w1)) as [s|] eqn:Es.
    + rewrite (sm_emplace_present _ _ s), Es by done. simpl. by destruct (Z.eqb_spec sb 0).
    + rewrite sm_find_emplace_eq by done. simpl. by destruct (Z.eqb_spec sb 0).
  - destruct r as [|e']; [done|]. injection Hy as <- <-. destruct (find_thread_state_locked me w); [done|].
    rewrite (registered_unmoved me w), Hb; [done|]. by apply (calm_native_alloc w (Raise e) w1).
Qed.

Lemma enrolled_register_current_thread limits (Q : result unit → bool → Prop) b :
  Q (Ok tt) true → (∀ e, Q (Raise e) b) → enrolled me (register_current_thread me env limits) Q b.
Proof.
  intros Hok He. unfold register_current_thread. case_match; [by apply enrolled_register_stack_bottom|apply He].
Qed.

(** The registration of a thread that has none yet. *)
Lemma enrolled_ScopedThreadRegistration limits (Q : result bool → bool → Prop) :
  Q (Ok true) true → (∀ e, Q (Raise e) false) → enrolled me (ScopedThreadRegistration me env limits) Q false.
Proof.
  intros Hok He. unfold ScopedThreadRegistration, is_current_thread_registered.
  apply enrolled_bind, enrolled_locked. intros w [r|e] w' Hwf Hb Hy; [|done]. injection Hy as <- <-.
  rewrite Hb. cbn [negb]. apply enrolled_bind, enrolled_register_current_thread; [exact Hok|exact He].
Qed.

Lemma enrolled_destroy_registration (Q : result unit → bool → Prop) b :
  (∀ r, Q r false) → enrolled me (destroy_ScopedThreadRegistration me env true) Q b.
Proof.
  intros HQ. unfold destroy_ScopedThreadRegistration, noexcept. apply enrolled_bind_result, enrolled_unregister.
  intros [[]|e]; [apply HQ|]. intros w r w' _ _ _ Hy. by destruct r.
Qed.
End Registration.

(** ** Programs that leave *)

(** The program of a thread ends unregistered. *)
Definition leaves (me : thread_id) (p : proc unit) (b : bool) : Prop := enrolled me p (λ _ b', b' = false) b.

(** [{ ScopedThreadRegistration registration; body }]; [env] and [env'] are what
    the constructor and the destructor see. *)
Definition in_scope {ASAN : AsanRuntime} (me : thread_id) (env env' : ParkEnv) (limits : StackLimits)
    (body : proc unit) : proc unit :=
  owns_registration ← ScopedThreadRegistration me env limits;
  bind_result body (λ r, destroy_ScopedThreadRegistration me env' owns_registration;; Done r).

Lemma in_scope_leaves {ASAN : AsanRuntime} me env env' limits body :
  Steady me body → leaves me (in_scope me env env' limits body) false.
Proof.
  intros Hb. unfold leaves, in_scope. apply enrolled_bind, enrolled_ScopedThreadRegistration; [|done].
  apply enrolled_bind_result, Hb. intros r.
  apply enrolled_bind, enrolled_destroy_registration. by intros [[]|e].
Qed.

Lemma leaves_noexcept me p b : leaves me p b → leaves me (noexcept p) b.
Proof.
  intros Hp. unfold leaves, noexcept. apply enrolled_bind_result. eapply enrolled_mono, Hp.
  intros [a|e] b' ->; [done|]. intros w r w' _ _ _ Hy. by destruct r.
Qed.
