(* ===== verification/Interleave.v ===== *)
(** * Threads running together

    A pool of threads, each with the rest of its program, takes atomic actions
    in any order.  Programs are arbitrary compositions of the operations of the
    library and of user code ([Neutral]).  The theorems hold for every pool and
    every schedule: while the world is stopped nobody but the collector touches
    the collector's data, every schedule is finite, and it can only end early
    when an action gets stuck or a registered thread has gone without
    unregistering. *)

From S2P Require Import Prelude Words Memory OrdMap Chunk Manager Heap Scanner Scenario Mark.
From S2P Require Import Finalize WeakRefs Sweep Threads Protocol Collect CollectSpec.
From S2P Require Import CollectorTheorems Roots Alloc Handles GcNew Diagnostics Disciplines.

(** ** Pools *)

Abbreviation pool := (list (thread_id * proc unit)).

Inductive step : pool * World → thread_id → pool * World → Prop :=
| step_thread l1 t p l2 w p' w' :
    pstep (p, w) (p', w') → step (l1 ++ (t, p) :: l2, w) t (l1 ++ (t, p') :: l2, w').

Definition steps : relation (pool * World) := rtc (λ c c', ∃ t, step c t c').

Definition finished (p : proc unit) : Prop := match p with Done _ => True | Atomic _ _ _ => False end.

(** Undefined behaviour, [std::terminate], or fuel: an action without outcome. *)
Definition gets_stuck (p : proc unit) (w : World) : Prop :=
  match p with
  | Done _ => False
  | Atomic guard act _ => guard w = true ∧ ∃ why, act w = Stuck why
  end.

(** Distinct threads about to run library programs in a running world. *)
Record start (P : pool) (w : World) : Prop := {
  st_distinct : NoDup P.*1;
  st_neutral : ∀ t p, (t, p) ∈ P → Neutral t p;
  st_threads : sm_wf (threads w);
  st_running : control w = (None, false, false);
  st_unpaused : ∀ t, paused t w = false;
}.

(** ** The invariant of a pool *)

Record pool_ok (φ : thread_id → phase) (P : pool) (w : World) : Prop := {
  po_distinct : NoDup P.*1;
  po_protocol : protocol_ok φ w;
  po_disciplined : ∀ t p, (t, p) ∈ P → disciplined t p (λ _ ph, ph = Running) (φ t);
  po_absent : ∀ t, t ∉ P.*1 → φ t = Running;
}.

Lemma start_ok P w : start P w → pool_ok (λ _, Running) P w.
Proof.
  intros [Hd Hn Hwf Hc Hp]. split; [done| | |done].
  - intros t. split; try done; [by left| |].
    + split; [done|]. unfold control in Hc. congruence.
    + by rewrite Hp.
  - intros t p Hin. eapply disciplined_mono; [|apply (Hn t p Hin); by left]. done.
Qed.

Lemma pstep_inv {A} (p : proc A) w p' w' :
  pstep (p, w) (p', w') →
  match p with
  | Done _ => False
  | Atomic guard act k => guard w = true ∧ ∃ r, yields act w r w' ∧ p' = k r
  end.
Proof.
  intros H. inversion H as [X g a k w0 x w1 Hg Ha E1 E2|X g a k w0 e w1 Hg Ha E1 E2]; subst;
    (split; [done|]); [by exists (Ok x)|by exists (Raise e)].
Qed.

Lemma disciplined_step me {A} (p : proc A) Q ph w p' w' :
  local_ok me ph w → disciplined me p Q ph → pstep (p, w) (p', w') →
  ∃ ph', step_ok me ph ph' w w' ∧ disciplined me p' Q ph'.
Proof.
  intros Hl Hd Hs. apply pstep_inv in Hs. destruct p as [r|X guard act k]; [done|].
  destruct Hs as (Hg & r & Hy & ->). by apply (proj2 Hd w r w').
Qed.

(** The programs of a pool in which [t] has moved on to [p']. *)
Lemma pool_update_elem (l1 l2 : pool) t (p p' : proc unit) t1 p1 :
  NoDup (l1 ++ (t, p) :: l2).*1 → (t1, p1) ∈ l1 ++ (t, p') :: l2 →
  (t1 = t ∧ p1 = p') ∨ (t1 ≠ t ∧ (t1, p1) ∈ l1 ++ (t, p) :: l2).
Proof.
  rewrite fmap_app, NoDup_app. intros (_ & Hx & [Hnot _]%NoDup_cons).
  rewrite !elem_of_app, !elem_of_cons. intros [Hin|[[= -> ->]|Hin]]; [|by left|].
  - right. split; [|by left]. intros ->. apply (Hx t); [by apply (list_elem_of_fmap_2' fst _ (t, p1))|left].
  - right. split; [|by right; right]. intros ->. by apply Hnot, (list_elem_of_fmap_2' fst _ (t, p1)).
Qed.

Lemma step_pool_ok φ P w t P' w' :
  pool_ok φ P w → step (P, w) t (P', w') →
  ∃ ph', step_ok t (φ t) ph' w w' ∧ pool_ok (move t ph' φ) P' w'.
Proof.
  intros [Hd Hp Hdis Ha] Hs.
  inversion Hs as [l1 t0 p l2 w0 p' w1 Hps E1 E2 E3]; subst.
  assert ((t, p) ∈ l1 ++ (t, p) :: l2) as Hin by (apply elem_of_app; right; left).
  destruct (disciplined_step t p _ (φ t) w p' w' (Hp t) (Hdis _ _ Hin) Hps) as (ph' & Hso & Hd').
  exists ph'. split; [done|].
  assert ((l1 ++ (t, p') :: l2).*1 = (l1 ++ (t, p) :: l2).*1) as Hkeys by by rewrite !fmap_app.
  split; rewrite ?Hkeys; [done|by eapply step_ok_protocol| |].
  - intros t1 p1 [[-> ->]|[Hne Hin1]]%(pool_update_elem l1 l2 t p p'); [by rewrite move_same| |done].
    rewrite move_other by done. by apply Hdis.
  - intros t1 Hn1. rewrite move_other; [by apply Ha|]. intros ->. apply Hn1.
    by apply (list_elem_of_fmap_2' fst _ (t, p)).
Qed.

Lemma steps_pool_ok P0 w0 P w : start P0 w0 → steps (P0, w0) (P, w) → ∃ φ, pool_ok φ P w.
Proof.
  intros Hst Hs.
  assert (∃ φ, pool_ok φ (P0, w0).1 (P0, w0).2) as Hok by (eexists; by apply start_ok).
  change (∃ φ, pool_ok φ (P, w).1 (P, w).2). clear Hst.
  induction Hs as [c|[P1 w1] [P2 w2] c3 [t Ht] _ IH]; [done|]. apply IH.
  destruct Hok as [φ Hok]. destruct (step_pool_ok _ _ _ _ _ _ Hok Ht) as (ph' & _ & Hok'). by eexists.
Qed.

(** ** Who may act while the world is stopped *)

Lemma all_others_paused_iff c w :
  sm_wf (threads w) →
  all_others_paused c w = true ↔ ∀ t, t ≠ c → registered t w = true → paused t w = true.
Proof.
  intros Hwf. unfold all_others_paused. rewrite forallb_forall. split.
  - intros Hall t Hne Hreg. unfold registered, find_thread_state_locked, paused in *.
    destruct (sm_find t (threads w)) as [s|] eqn:E; [|done]. apply sm_find_elem, list_elem_of_In, Hall in E.
    simpl in E. apply negb_true_iff in Hreg. destruct (Z.eqb_spec t c); [done|]. by rewrite Hreg in E.
  - intros Hall [t s] Hin%list_elem_of_In. apply (sm_elem_find _ _ _ Hwf) in Hin. simpl.
    destruct (Z.eqb_spec t c) as [|Hne]; [done|]. specialize (Hall t Hne).
    unfold registered, find_thread_state_locked, paused in Hall. rewrite Hin in Hall.
    destruct (ts_stack_bottom s =? 0); [done|]. by apply Hall.
Qed.

Lemma stopped_step φ c t ph' w w' :
  protocol_ok φ w → collector_thread_ (mgr w) = Some c → all_others_paused c w = true →
  step_ok t (φ t) ph' w w' → t ≠ c → registered t w = false ∧ publishes w w'.
Proof.
  intros Hp Hc Hall Hs Hne.
  assert (stop_the_world_requested_ (mgr w) = true ∧ collecting_ (mgr w) = true) as [Hstw Hcol].
  { destruct (lo_control _ _ _ (Hp t)) as [E|[x E]]; unfold control in E; split; congruence. }
  assert (may_run t w = false) as Hrun.
  { unfold may_run. rewrite Hstw, bool_decide_false by congruence. done. }
  assert (registered t w = true → φ t = Paused) as Hreg.
  { intros Hr. apply (lo_paused _ _ _ (Hp t)). rewrite all_others_paused_iff in Hall; [by apply Hall|apply (Hp t)]. }
  assert (φ t = Owner → False) as Hown.
  { intros E%(lo_owner _ _ _ (Hp t)). congruence. }
  destruct (registered t w) eqn:Er.
  - exfalso. rewrite (Hreg eq_refl) in Hs. remember Paused as ph eqn:E. destruct Hs as [ph w w' Ha _|ph w w' Ha| | | |
      ph' w w1 w' Hs' _ _ _ _| |]; subst; try done; [by destruct (active_ne _ Ha)..|congruence].
  - split; [done|]. remember (φ t) as ph eqn:E.
    destruct Hs as [ph w w' _ Hpub|ph w w' _ Hr _ _ _|w w' _ Hpub|ph' w w' Hr _|w w' Hr _ _ _ _|ph' w w1 w' Hs' _ _ _ _|
      w w' Hcol' _ _|w w' _ _]; try done; congruence.
Qed.

(** The collector keeps the others parked until it gives the stop back. *)
Lemma stopped_stays φ c t ph' w w' :
  protocol_ok φ w → protocol_ok (move t ph' φ) w' →
  collector_thread_ (mgr w) = Some c → all_others_paused c w = true →
  step_ok t (φ t) ph' w w' → collector_thread_ (mgr w') = Some c → all_others_paused c w' = true.
Proof.
  intros Hp Hp' Hc Hall Hs Hc'. pose proof (lo_wf _ _ _ (Hp c)) as Hwf.
  apply all_others_paused_iff; [apply (Hp' c)|].
  destruct (decide (t = c)) as [->|Hne].
  - intros t Hne Hreg. assert (sm_find t (threads w') = sm_find t (threads w)) as E.
    { assert (φ c = Owner) as Ho by by apply (lo_owner _ _ _ (Hp c)). rewrite Ho in Hs.
      remember Owner as ph eqn:Eph. destruct Hs as [ph w w' _ Hpub|ph w w' _ _ _ [Ho' _] _| | | | | |w w' Hctl Ht];
        subst; try done; [by rewrite (proj1 (publishes_same _ _ Hpub))|by apply Ho'|by rewrite Ht]. }
    apply same_entry in E as [Ep Er]. rewrite Ep. rewrite all_others_paused_iff in Hall by done.
    apply Hall; congruence.
  - destruct (stopped_step φ c t ph' w w') as [_ [Ht _]%publishes_same]; [done..|].
    intros t1 Hn Hreg. destruct (same_threads t1 _ _ Ht) as [Ep Er]. rewrite Ep.
    rewrite all_others_paused_iff in Hall by done. apply Hall; congruence.
Qed.

(** ** Running a given schedule *)

Definition advance {A} (p : proc A) (w : World) : option (proc A * World) :=
  match p with
  | Done _ => None
  | Atomic guard act k =>
      if guard w then
        match act w with
        | Ret x w' => Some (k (Ok x), w')
        | Throw e w' => Some (k (Raise e), w')
        | Stuck _ => None
        end
      else None
  end.

Fixpoint advance_pool (t : thread_id) (P : pool) (w : World) : option (pool * World) :=
  match P with
  | [] => None
  | (t', p) :: P' =>
      if t' =? t
      then match advance p w with Some (p', w') => Some ((t', p') :: P', w') | None => None end
      else match advance_pool t P' w with Some (P'', w') => Some ((t', p) :: P'', w') | None => None end
  end.

Fixpoint schedule (ts : list thread_id) (c : pool * World) : option (pool * World) :=
  match ts with
  | [] => Some c
  | t :: ts' => match advance_pool t c.1 c.2 with Some c' => schedule ts' c' | None => None end
  end.

Lemma advance_pstep {A} (p : proc A) w p' w' : advance p w = Some (p', w') → pstep (p, w) (p', w').
Proof.
  destruct p as [|X guard act k]; simpl; [done|]. destruct (guard w) eqn:Hg; [|done].
  destruct (act w) as [x w1|e w1|] eqn:Ha; intros [= <- <-]; [by apply pstep_ret|by apply pstep_throw].
Qed.

Lemma advance_pool_step t P w c' : advance_pool t P w = Some c' → step (P, w) t c'.
Proof.
  revert c'. induction P as [|[t' p] P IH]; intros c'; simpl; [done|].
  destruct (Z.eqb_spec t' t) as [->|].
  - destruct (advance p w) as [[p' w']|] eqn:E; [|done]. intros [= <-].
    by apply (step_thread [] t p P), advance_pstep.
  - destruct (advance_pool t P w) as [[P' w']|] eqn:E; [|done]. intros [= <-].
    pose proof (IH _ eq_refl) as Hs. inversion Hs as [l1 t0 q l2 w0 q' w1 Hq E1 E2 E3]; subst.
    by apply (step_thread ((t', p) :: l1)).
Qed.

Lemma schedule_steps ts c c' : schedule ts c = Some c' → steps c c'.
Proof.
  revert c. induction ts as [|t ts IH]; intros [P w]; simpl; [intros [= ->]; reflexivity|].
  destruct (advance_pool t P w) as [c1|] eqn:E; [|done]. intros H.
  eapply rtc_l; [exists t; by apply advance_pool_step|by apply IH].
Qed.

(** ** Every schedule is finite *)

Definition child (p' p : proc unit) : Prop :=
  match p with
  | Done _ => False
  | Atomic _ _ k => ∃ r, p' = k r
  end.

Definition pool_child (P' P : pool) : Prop :=
  ∃ l1 t p l2 p', P = l1 ++ (t, p) :: l2 ∧ P' = l1 ++ (t, p') :: l2 ∧ child p' p.

Lemma pool_child_wf P : Acc pool_child P.
Proof.
  assert (∀ P, Acc pool_child P → ∀ t p, Acc pool_child ((t, p) :: P)) as Hcons.
  { intros P0 HP t p. revert p. induction HP as [P0 _ IH]. intros p.
    assert (∀ p' l1 t1 p1 l2 p2, P0 = l1 ++ (t1, p1) :: l2 → child p2 p1 →
      Acc pool_child ((t, p') :: l1 ++ (t1, p2) :: l2)) as Htail.
    { intros p' l1 t1 p1 l2 p2 E Hc. apply IH. by exists l1, t1, p1, l2, p2. }
    induction p as [r|X guard act k IHk]; constructor; intros P' (l1 & t1 & p1 & l2 & p' & E1 & E2 & Hc);
      destruct l1 as [|x l1]; simpl in E1, E2; injection E1 as <- E1; subst P'; try by eapply Htail.
    - subst p1. done.
    - subst p1 l2. destruct Hc as [r ->]. apply IHk. }
  induction P as [|[t p] P IH]; [|by apply Hcons].
  constructor. intros P' (l1 & t1 & p1 & l2 & p' & E & _). by destruct l1.
Qed.

Lemma step_child P w t P' w' : step (P, w) t (P', w') → pool_child P' P.
Proof.
  intros Hs. inversion Hs as [l1 t0 p l2 w0 p' w1 Hps E1 E2 E3]; subst. exists l1, t, p, l2, p'.
  split_and!; [done|done|]. apply pstep_inv in Hps. destruct p as [|X guard act k]; [done|].
  destruct Hps as (_ & r & _ & ->). by exists r.
Qed.

(** A thread that is not blocked moves or gets stuck. *)
Lemma enabled_moves φ P w t p :
  pool_ok φ P w → (t, p) ∈ P → ¬ finished p → enabled t (φ t) w →
  gets_stuck p w ∨ ∃ c', step (P, w) t c'.
Proof.
  intros Hok Hin Hf Hen. pose proof (po_disciplined _ _ _ Hok t p Hin) as Hd.
  destruct p as [r|X guard act k]; [done|]. pose proof (proj1 Hd w (po_protocol _ _ _ Hok t) Hen) as Hg.
  apply list_elem_of_split in Hin as (l1 & l2 & ->).
  destruct (act w) as [x w'|e w'|why] eqn:E.
  - right. eexists. by apply step_thread, (pstep_ret guard act k w x w').
  - right. eexists. by apply step_thread, (pstep_throw guard act k w e w').
  - left. split; [done|by exists why].
Qed.

(** A finished thread is outside the protocol. *)
Lemma finished_running φ P w t :
  pool_ok φ P w → (∀ p, (t, p) ∈ P → finished p) → φ t = Running.
Proof.
  intros Hok Hf. destruct (decide (t ∈ P.*1)) as [Hin|Hn]; [|by apply (po_absent _ _ _ Hok)].
  apply list_elem_of_fmap in Hin as ([t' p] & -> & Hin). pose proof (po_disciplined _ _ _ Hok _ _ Hin) as Hd.
  pose proof (Hf p Hin) as Hp. by destruct p.
Qed.

(** ** Three threads on the heap of Scenario: a collector, a registered mutator
    at a safepoint, and an unregistered thread that publishes a root range. *)

Definition trio_world : World :=
  set_mgr (set_threads (sm_emplace 2 (set_stack_bottom 262144 ThreadState_init))) demo_world.

Definition trio : pool :=
  [(1, @collect no_asan no_finalizer 1 demo_collect_env);
   (2, @safepoint no_asan 2 {| pe_stack_marker := 262136; pe_registers := [addr_D] |});
   (3, @register_root_range no_asan 3 {| pe_stack_marker := 0; pe_registers := [] |} 100 200)].

Lemma trio_start : start trio trio_world.
Proof.
  split; [|..|done|].
  - vm_compute. repeat constructor; rewrite ?elem_of_cons, ?elem_of_nil; intros H; naive_solver.
  - intros t p [[= -> ->]|[[= -> ->]|[[= -> ->]|[]%elem_of_nil]%elem_of_cons]%elem_of_cons]%elem_of_cons.
    + apply neutral_collect. intros d p. apply neutral_done.
    + apply neutral_safepoint.
    + apply neutral_register_root_range.
  - repeat constructor.
  - intros t. unfold paused, trio_world, demo_world, demo_manager, demo_thread. simpl.
    by repeat case_match; simplify_eq.
Qed.

(** ** The theorems *)



(** ** Schedules end *)

Lemma finished_dec (P : pool) t :
  (∀ p, (t, p) ∈ P → finished p) ∨ ∃ p, (t, p) ∈ P ∧ ¬ finished p.
Proof.
  induction P as [|[t' p] P IH]; [left; by intros p ?%elem_of_nil|].
  destruct IH as [IH|(q & Hq & Hn)]; [|right; exists q; split; [by right|done]].
  destruct (decide (t' = t)) as [->|Hne].
  - destruct p as [r|X guard act k]; [left|right; eexists; split; [left|intros []]].
    intros q [[= ->]|Hq]%elem_of_cons; [done|by apply IH].
  - left. intros q [[= ? ?]|Hq]%elem_of_cons; [done|by apply IH].
Qed.

Lemma all_finished_dec (P : pool) : Forall (λ tp, finished tp.2) P ∨ ∃ t p, (t, p) ∈ P ∧ ¬ finished p.
Proof.
  induction P as [|[t p] P IH]; [by left|].
  destruct IH as [IH|(t' & q & Hq & Hn)]; [|right; exists t', q; split; [by right|done]].
  destruct p as [r|X guard act k]; [by left; constructor|right; exists t; eexists; split; [left|intros []]].
Qed.

Lemma pool_schedules_finite (P : pool) w : Acc (λ c' c, ∃ t, step c t c') (P, w).
Proof.
  revert w. induction (pool_child_wf P) as [P _ IH]. intros w. constructor.
  intros [P' w'] [t Hs]. by apply IH, (step_child _ _ _ _ _ Hs).
Qed.

(** What blocks a pool whose collector cannot go on. *)
Lemma missing_thread φ P w c :
  pool_ok φ P w → collector_thread_ (mgr w) = Some c → all_others_paused c w = false →
  ∃ t, t ≠ c ∧ registered t w = true ∧ paused t w = false ∧ φ t = Running.
Proof.
  intros Hok Hc Hall. pose proof (po_protocol _ _ _ Hok) as Hp.
  assert (∃ ts, ts ∈ threads w ∧
    (ts.1 =? c) || (ts_stack_bottom ts.2 =? 0) || ts_paused_for_collection ts.2 = false) as ([t s] & Hin & Ht).
  { clear -Hall. unfold all_others_paused in Hall. induction (threads w) as [|x l IH]; simpl in Hall; [done|].
    apply andb_false_iff in Hall as [Hx|Hl]; [exists x; by split; [left|]|].
    destruct (IH Hl) as (y & ? & ?). exists y. by split; [right|]. }
  apply (sm_elem_find _ _ _ (lo_wf _ _ _ (Hp t))) in Hin. simpl in Ht.
  apply orb_false_iff in Ht as [[Hne Hreg]%orb_false_iff Hpause].
  assert (t ≠ c) as Hne' by by apply Z.eqb_neq.
  assert (registered t w = true) as Hr by (unfold registered, find_thread_state_locked; by rewrite Hin, Hreg).
  assert (paused t w = false) as Hpa by (unfold paused; by rewrite Hin).
  exists t. split_and!; [done..|]. destruct (Hp t) as [_ H2 H3 H4 _ _]. destruct (φ t); [done| | |].
  - by rewrite (proj1 H2) in Hc; [injection Hc as ->|].
  - by rewrite (proj1 H3) in Hpa.
  - by rewrite H4 in Hr.
Qed.

(** Every schedule of library programs is finite.  Where it can go no
    further, all programs have finished and the world runs, or an action is
    stuck (undefined behaviour, termination), or the collector waits for a
    registered thread that has nothing left to run and never unregistered. *)
Theorem schedules_end P0 w0 :
  start P0 w0 →
  Acc (λ c' c, ∃ t, step c t c') (P0, w0) ∧
  ∀ P w, steps (P0, w0) (P, w) → (∀ t c', ¬ step (P, w) t c') →
    (Forall (λ tp, finished tp.2) P ∧ control w = (None, false, false)) ∨
    (∃ t p, (t, p) ∈ P ∧ gets_stuck p w) ∨
    (∃ c t, collector_thread_ (mgr w) = Some c ∧ t ≠ c ∧ registered t w = true ∧ paused t w = false ∧
       ∀ p, (t, p) ∈ P → finished p).
Proof.
  intros Hst. split; [apply pool_schedules_finite|]. intros P w Hs Hno.
  destruct (steps_pool_ok _ _ _ _ Hst Hs) as [φ Hok]. pose proof (po_protocol _ _ _ Hok) as Hp.
  assert (∀ t p, (t, p) ∈ P → ¬ finished p → enabled t (φ t) w → ∃ t p, (t, p) ∈ P ∧ gets_stuck p w) as Hstuck.
  { intros t p Hin Hf Hen. destruct (enabled_moves _ _ _ _ _ Hok Hin Hf Hen) as [|[c' Hc']]; [by exists t, p|].
    by destruct (Hno t c'). }
  destruct (lo_control _ _ _ (Hp 0)) as [Hc|[c Hc]]; unfold control in Hc; injection Hc as Hcol Hstw Hcc.
  - destruct (all_finished_dec P) as [Hall|(t & p & Hin & Hf)].
    { left. split; [done|]. unfold control. congruence. }
    right; left. apply (Hstuck t p Hin Hf). pose proof (lo_owner _ _ _ (Hp t)) as Ho.
    destruct (φ t); simpl; try done. by rewrite (proj1 Ho) in Hcol.
  - right. assert (φ c = Owner) as Hown by by apply (lo_owner _ _ _ (Hp c)).
    destruct (all_others_paused c w) eqn:Hall.
    + left. destruct (finished_dec P c) as [Hfin|(p & Hin & Hf)].
      { rewrite (finished_running _ _ _ _ Hok Hfin) in Hown. done. }
      apply (Hstuck c p Hin Hf). by rewrite Hown.
    + destruct (missing_thread _ _ _ _ Hok Hcol Hall) as (t & Hne & Hreg & Hpa & Hrun).
      destruct (finished_dec P t) as [Hfin|(p & Hin & Hf)]; [right; by exists c, t|].
      left. apply (Hstuck t p Hin Hf). by rewrite Hrun.
Qed.

Lemma schedules_end_witness :
  Acc (λ c' c, ∃ t, step c t c') (trio, trio_world) ∧
  match schedule [1; 2; 2; 3; 1; 1; 1; 1; 1; 2; 3] (trio, trio_world) with
  | Some (P, w) => Forall (λ tp, finished tp.2) P ∧ control w = (None, false, false) ∧
      log w = [EvFinalize addr_C; EvFree 4224]
  | None => False
  end.
Proof.
  split; [exact (proj1 (schedules_end trio trio_world trio_start))|].
  vm_compute. repeat constructor.
Defined.
