(* ===== verification/Ownership.v ===== *)
(** * Ownership of storage

    A block of storage is registered with the collector, or in the hands of
    the one thread that is allocating, destroying or freeing it, or foreign to
    the collector.  [inv] is what holds of the collector's state at every step:
    the registry is well formed, every integer is in the range of its C++ type,
    the storage blocks do not overlap.  [own_step] is what one action of a
    thread that holds the blocks [L] may do, and leaves to its continuation;
    [owned] that all actions of a process keep to it and never get stuck,
    except by terminating the program; [Tidy] that the process also ends with
    the blocks it began with. *)

From S2P Require Import Prelude Words Memory OrdMap Chunk Manager Heap Scanner Mark.
From S2P Require Import Finalize WeakRefs Sweep Threads Collect CollectSpec Roots Alloc Contract.

(** ** The invariant *)

Definition range_typed (r : RootRange) : Prop := 0 < rr_begin r ∧ rr_begin r < rr_end r ∧ rr_end r <= SIZE_MAX.

Record thread_typed (s : ThreadState) : Prop := {
  tt_bottom : is_size (ts_stack_bottom s);
  tt_top : is_size (ts_parked_stack_top s);
  tt_spill : Forall is_size (ts_register_spill s);
}.

(** The [size_t] counters. *)
Definition counters (s : GCStats) : list Z :=
  [total_collections s; bytes_reclaimed_last s; blocks_reclaimed_last s; bytes_reclaimed_total s;
   total_allocations s; bytes_allocated_total s; peak_live_bytes s; peak_live_blocks s].

(** Every member of the manager is in the range of its type; the members that
    describe blocks are covered by [heap_wf]. *)
Record typed (g : GC_Manager) : Prop := {
  ty_threads : ∀ t s, (t, s) ∈ threads_ g → thread_typed s;
  ty_ranges : ∀ r, r ∈ registered_root_ranges_ g → range_typed r;
  ty_weak : ∀ e, e ∈ weak_refs_ g → is_size (we_storage e);
  ty_threshold : is_size (collection_threshold_bytes_ g);
  ty_stats : Forall is_size (counters (stats_ g));
}.

(** The peaks bound what is live. *)
Definition peaks_ok (g : GC_Manager) : Prop :=
  managed_bytes_ g <= peak_live_bytes (stats_ g) ∧
  Z.of_nat (length (allocations_ g)) <= peak_live_blocks (stats_ g).

Definition storage_apart (bs : gmap Z (Z * Z)) : Prop := ∀ p n a q m b,
  bs !! p = Some (n, a) → bs !! q = Some (m, b) → p = q ∨ p + n <= q ∨ q + m <= p.

(** The header without its mark bit, which the collector writes. *)
Definition header_at (w : World) (p : Z) : option ChunkHeader := set_marked false <$> headers w !! p.

Definition outstanding (w : World) (p : Z) : Prop := is_Some (blocks w !! p).

(** [size_t size; uint32_t magic; uint16_t payload_offset; uint8_t shift] *)
Record header_typed (h : ChunkHeader) : Prop := {
  ht_size : is_size (ch_size h);
  ht_magic : 0 <= ch_magic_number h < 2 ^ 32;
  ht_offset : 0 <= ch_payload_offset h <= UINT16_MAX;
  ht_shift : 0 <= ch_alignment_shift h < 2 ^ 8;
}.

Record inv (w : World) : Prop := {
  iv_wf : heap_wf w;
  iv_typed : typed (mgr w);
  iv_peaks : peaks_ok (mgr w);
  iv_apart : storage_apart (blocks w);
  iv_headers : ∀ p h, header_at w p = Some h → header_typed h ∧ outstanding w p;
}.

(** ** Holdings *)

(** A block of storage in the hands of a thread; the header is known, up to its
    mark bit, once it is written. *)
Record raw_block := { rb_size : Z; rb_alignment : Z; rb_header : option ChunkHeader }.

Abbreviation holding := (gmap Z raw_block).

Definition is_registered (w : World) (p : Z) : Prop :=
  ∃ k b, (k, b) ∈ allocations w ∧ br_header b = p.

Record holds_block (w : World) (p : Z) (r : raw_block) : Prop := {
  hb_storage : blocks w !! p = Some (rb_size r, rb_alignment r);
  hb_free : ¬ is_registered w p;
  hb_header : ∀ h, rb_header r = Some h →
    header_at w p = Some (set_marked false h) ∧ allocation_alignment h = rb_alignment r;
  hb_plain : rb_header r = None → header_at w p = None;
}.

Definition holds (L : holding) (w : World) : Prop := map_Forall (holds_block w) L.

(** The blocks of others: outstanding, not registered, not in [L]. *)
Definition foreign (L : holding) (w : World) (p : Z) : Prop :=
  outstanding w p ∧ ¬ is_registered w p ∧ L !! p = None.

Record own_step {ASAN : AsanRuntime} (L L' : holding) (w w' : World) : Prop := {
  os_inv : inv w';
  os_holds : holds L' w';
  os_foreign : ∀ p, foreign L w p →
    foreign L' w' p ∧ blocks w' !! p = blocks w !! p ∧ header_at w' p = header_at w p;
  os_accounted : ∀ p, outstanding w' p → is_registered w' p ∨ is_Some (L' !! p) ∨ foreign L w p;
  os_ledger : transition (ledger w) (ledger w');
}.

Lemma own_step_join {ASAN : AsanRuntime} L L1 L2 w w1 w2 :
  own_step L L1 w w1 → own_step L1 L2 w1 w2 → transition (ledger w) (ledger w2) → own_step L L2 w w2.
Proof.
  intros [_ _ Hf1 Ha1 _] [Hi Hh Hf2 Ha2 _] Ht. split; [done|done| | |done].
  - intros p Hp. destruct (Hf1 p Hp) as (Hp1 & <- & <-). by apply Hf2.
  - intros p Hp. destruct (Ha2 p Hp) as [?|[?|(Ho & Hr & Hl)]]; [auto..|].
    destruct (Ha1 p Ho) as [?|[[r Hr']|?]]; [done|congruence|auto].
Qed.

(** Two steps of one action, one of which leaves the ledger alone. *)
Lemma own_step_after {ASAN : AsanRuntime} L L1 L2 w w1 w2 :
  ledger w1 = ledger w → own_step L L1 w w1 → own_step L1 L2 w1 w2 → own_step L L2 w w2.
Proof. intros E H1 H2. eapply own_step_join; [done..|]. rewrite <-E. apply H2. Qed.

Lemma own_step_before {ASAN : AsanRuntime} L L1 L2 w w1 w2 :
  ledger w2 = ledger w1 → own_step L L1 w w1 → own_step L1 L2 w1 w2 → own_step L L2 w w2.
Proof. intros E H1 H2. eapply own_step_join; [done..|]. rewrite E. apply H1. Qed.

(** An action that changes neither registration nor storage nor headers. *)
Record own_frame (w w' : World) : Prop := {
  of_registered : ∀ p, is_registered w' p ↔ is_registered w p;
  of_blocks : ∀ p, blocks w' !! p = blocks w !! p;
  of_headers : ∀ p, header_at w' p = header_at w p;
}.

Lemma holds_frame L w w' : own_frame w w' → holds L w → holds L w'.
Proof.
  intros [Hr Hb Hh] Hl p r Hp. destruct (Hl p r Hp) as [H1 H2 H3 H4].
  split; [by rewrite Hb|by rewrite Hr| |]; [intros h|]; intros E; rewrite Hh; auto.
Qed.

Lemma holds_accounted L w p :
  outstanding w p → is_registered w p ∨ is_Some (L !! p) ∨ foreign L w p.
Proof.
  intros Ho. destruct (L !! p) as [r|] eqn:E; [right; left; by exists r|].
  destruct (decide (p ∈ (br_header ∘ snd) <$> allocations w)) as [Hin|Hn].
  - left. apply list_elem_of_fmap in Hin as ([k b] & -> & Hin). by exists k, b.
  - right; right. split_and!; [done| |done]. intros (k & b & Hin & <-).
    by apply Hn, (list_elem_of_fmap_2' _ _ (k, b)).
Qed.

Lemma own_step_frame {ASAN : AsanRuntime} L w w' : inv w' → holds L w → own_frame w w' → transition (ledger w) (ledger w') → own_step L L w w'.
Proof.
  intros Hi Hl Hf Ht. pose proof (holds_frame L w w' Hf Hl) as Hl'. destruct Hf as [Hr Hb Hh].
  split; [done..| | |done].
  - intros p (Ho & Hn & Hp). split; [|done]. split_and!; [|by rewrite Hr|done].
    unfold outstanding in *. by rewrite Hb.
  - intros p Ho. destruct (holds_accounted L w' p Ho) as [?|[?|(_ & Hn & Hp)]]; [auto..|].
    right; right. unfold outstanding in *. rewrite Hr, Hb in *. done.
Qed.

Lemma own_step_refl {ASAN : AsanRuntime} L w : inv w → holds L w → own_step L L w w.
Proof. intros. apply own_step_frame; [done..|]. apply transition_refl. Qed.

(** Everything but memory, the fate of native allocations and the log. *)
Record still (w w' : World) : Prop := {
  st_mgr : mgr w' = mgr w;
  st_headers : headers w' = headers w;
  st_blocks : blocks w' = blocks w;
}.

(** A change of the manager that leaves the heap alone. *)
Record heap_frame {ASAN : AsanRuntime} (w w' : World) : Prop := {
  hf_alloc : allocations w' = allocations w;
  hf_managed : managed_bytes_ (mgr w') = managed_bytes_ (mgr w);
  hf_reserved : reserved_bytes_ (mgr w') = reserved_bytes_ (mgr w);
  hf_peaks : peaks_ok (mgr w) → peaks_ok (mgr w');
  hf_headers : headers w' = headers w;
  hf_blocks : blocks w' = blocks w;
  hf_weak : ∀ e, e ∈ weak_refs w' → e ∈ weak_refs w ∨ points_into (allocations w) (we_target e);
  hf_tables : ∀ m,
    bookkeeping (with_tables (weak_refs w) (root_ranges w) m (ledger w))
      (with_tables (weak_refs w') (root_ranges w') m (ledger w));
  hf_cycles : total_collections (stats_ (mgr w')) = total_collections (stats_ (mgr w));
}.

Lemma heap_frame_wf {ASAN : AsanRuntime} w w' : heap_frame w w' → heap_wf w → heap_wf w'.
Proof.
  intros [Ha Hm Hr _ Hh Hb Hw _ _] Hwf.
  set (w0 := set_mgr (set_weak_refs (λ _, weak_refs w')) (set_mem (λ m, m) w)).
  assert (heap_wf w0) as H0.
  { apply heap_wf_weak; [done|]. intros e [He|He]%Hw; [by apply (wf_weak w Hwf)|done]. }
  by apply (heap_wf_ext w0).
Qed.

Lemma own_step_heap {ASAN : AsanRuntime} L w w' :
  inv w → holds L w → heap_frame w w' → typed (mgr w') → own_step L L w w'.
Proof.
  intros [Hwf _ Hp Hap Hhd] Hl Hf Ht. pose proof (heap_frame_wf w w' Hf Hwf) as Hwf'.
  destruct Hf as [Ha Hm Hr Hpk Hh Hb Hw Htab Hcy]. apply own_step_frame; [|done| |left; by eapply bookkeeping_tables].
  - split; [done|done|by apply Hpk|by rewrite Hb|]. unfold header_at, outstanding. by rewrite Hh, Hb.
  - split; [intros p; unfold is_registered; by rewrite Ha|intros p; by rewrite Hb|].
    intros p. unfold header_at. by rewrite Hh.
Qed.

Lemma still_heap {ASAN : AsanRuntime} w w' : still w w' → heap_frame w w'.
Proof. intros [Hm Hh Hb]. split; rewrite ?Hm; auto. intros m. apply rtc_refl. Qed.

Lemma own_step_still {ASAN : AsanRuntime} L w w' : inv w → holds L w → still w w' → own_step L L w w'.
Proof.
  intros Hi Hl Hs. apply own_step_heap; [done|done|by apply still_heap|].
  rewrite (st_mgr _ _ Hs). apply Hi.
Qed.

Lemma still_refl w : still w w.
Proof. done. Qed.

Lemma still_trans w w1 w2 : still w w1 → still w1 w2 → still w w2.
Proof. intros [] []. split; congruence. Qed.

Lemma still_oom o w : still w (with_oom o w).
Proof. done. Qed.

Lemma inv_still w w' : inv w → still w w' → inv w'.
Proof. intros Hi Hs. eapply os_inv, (@own_step_still no_asan ∅); [done|apply map_Forall_empty|done]. Qed.

Lemma native_alloc_still w :
  match native_alloc w with Ret _ w' | Throw _ w' => still w w' | Stuck _ => False end.
Proof. destruct (native_alloc_cases w) as [(o & -> & _)|(o & -> & _)]; apply still_oom. Qed.

(** ** Processes *)

(** An action that does no more than bookkeeping. *)
Definition desk_step {ASAN : AsanRuntime} (L : holding) (w w' : World) : Prop :=
  own_step L L w w' ∧ bookkeeping (ledger w) (ledger w').

Lemma desk_step_refl {ASAN : AsanRuntime} L w : inv w → holds L w → desk_step L w w.
Proof. intros. split; [by apply own_step_refl|apply rtc_refl]. Qed.

Lemma desk_step_trans {ASAN : AsanRuntime} L w w1 w2 : desk_step L w w1 → desk_step L w1 w2 → desk_step L w w2.
Proof.
  intros [H1 B1] [H2 B2]. assert (bookkeeping (ledger w) (ledger w2)) as B by by etrans.
  split; [|done]. eapply own_step_join; [done..|]. by left.
Qed.

Lemma desk_step_heap {ASAN : AsanRuntime} L w w' :
  inv w → holds L w → heap_frame w w' → typed (mgr w') → desk_step L w w'.
Proof.
  intros Hi Hl Hf Ht. split; [by apply own_step_heap|]. eapply bookkeeping_tables; [apply Hf|apply Hf|apply Hf|done].
Qed.

Lemma desk_step_still {ASAN : AsanRuntime} L w w' : inv w → holds L w → still w w' → desk_step L w w'.
Proof.
  intros Hi Hl Hs. apply desk_step_heap; [done|done|by apply still_heap|].
  rewrite (st_mgr _ _ Hs). apply Hi.
Qed.

(** An action that leaves the ledger alone. *)
Definition silent {A} (act : M World A) : Prop := ∀ w,
  match act w with Ret _ w' | Throw _ w' => ledger w' = ledger w | Stuck _ => True end.

Lemma silent_bind {A B} (m : M World A) (f : A → M World B) : silent m → (∀ a, silent (f a)) → silent (m ≫= f).
Proof.
  intros Hm Hf w. specialize (Hm w). unfold mbind, M_bind. destruct (m w) as [a w1|e w1|why]; [|done..].
  specialize (Hf a w1). destruct (f a w1); congruence.
Qed.

(** What an action may end in, and what then holds. *)
Definition act_owned {ASAN : AsanRuntime} {A} (act : M World A) (Q : result A → holding → Prop) (L : holding) : Prop :=
  ∀ w, inv w → holds L w →
    match act w with
    | Ret a w' => ∃ L', own_step L L' w w' ∧ Q (Ok a) L'
    | Throw e w' => ∃ L', own_step L L' w w' ∧ Q (Raise e) L'
    | Stuck why => why = Terminated
    end.

Fixpoint owned {ASAN : AsanRuntime} {A} (p : proc A) (Q : result A → holding → Prop) (L : holding) : Prop :=
  match p with
  | Done r => Q r L
  | Atomic _ act k => act_owned act (λ r L', owned (k r) Q L') L
  end.

(** The process gives back or registers every block it takes. *)
Class Tidy {ASAN : AsanRuntime} {A} (p : proc A) : Prop := tidy : ∀ L, owned p (λ _ L', L' = L) L.

Lemma act_owned_mono {ASAN : AsanRuntime} {A} (act : M World A) (Q Q' : result A → holding → Prop) L :
  (∀ r L', Q r L' → Q' r L') → act_owned act Q L → act_owned act Q' L.
Proof.
  intros HQ Ha w Hi Hl. specialize (Ha w Hi Hl).
  destruct (act w); [destruct Ha as (L' & ? & ?); eauto..|done].
Qed.

Lemma act_owned_bind {ASAN : AsanRuntime} {A B} (m : M World A) (f : A → M World B) Q L :
  silent m ∨ (∀ a, silent (f a)) →
  act_owned m (λ r L', match r with Ok a => act_owned (f a) Q L' | Raise e => Q (Raise e) L' end) L →
  act_owned (m ≫= f) Q L.
Proof.
  intros Hq Hm w Hi Hl. specialize (Hm w Hi Hl). unfold mbind, M_bind.
  assert (silent m → match m w with Ret _ w' | Throw _ w' => ledger w' = ledger w | Stuck _ => True end) as Hqm by (intros H; apply H).
  destruct (m w) as [a w1|e w1|why]; [|done..]. destruct Hm as (L1 & Hs & Hf).
  specialize (Hf w1 (os_inv _ _ _ _ Hs) (os_holds _ _ _ _ Hs)).
  assert ((∀ a, silent (f a)) → match f a w1 with Ret _ w' | Throw _ w' => ledger w' = ledger w1 | Stuck _ => True end)
    as Hqf by (intros H; apply H).
  destruct (f a w1); [destruct Hf as (L2 & Hs' & ?); exists L2; (split; [|done]);
    (destruct Hq as [Hq|Hq];
      [exact (own_step_after _ _ _ _ _ _ (Hqm Hq) Hs Hs')|exact (own_step_before _ _ _ _ _ _ (Hqf Hq) Hs Hs')])..|done].
Qed.

Lemma act_owned_ret {ASAN : AsanRuntime} {A} (a : A) (Q : result A → holding → Prop) L : Q (Ok a) L → act_owned (mret a) Q L.
Proof. intros HQ w Hi Hl. exists L. split; [by apply own_step_refl|done]. Qed.

Lemma owned_mono {ASAN : AsanRuntime} {A} (p : proc A) (Q Q' : result A → holding → Prop) L :
  (∀ r L', Q r L' → Q' r L') → owned p Q L → owned p Q' L.
Proof.
  intros HQ. revert L. induction p as [r|X guard act k IH]; intros L; simpl; [apply HQ|].
  apply act_owned_mono. intros r L'. apply IH.
Qed.

Lemma owned_bind_result {ASAN : AsanRuntime} {A B} (p : proc A) (f : result A → proc B) Q L :
  owned p (λ r L', owned (f r) Q L') L → owned (bind_result p f) Q L.
Proof.
  revert L. induction p as [r|X guard act k IH]; intros L; simpl; [done|].
  apply act_owned_mono. intros r L'. apply IH.
Qed.

Lemma owned_atomic {ASAN : AsanRuntime} {A} (act : M World A) Q L : act_owned act Q L → owned (atomic act) Q L.
Proof. apply act_owned_mono. by intros []. Qed.

Lemma owned_bind {ASAN : AsanRuntime} {A B} (p : proc A) (f : A → proc B) Q L :
  owned p (λ r L', match r with Ok a => owned (f a) Q L' | Raise e => Q (Raise e) L' end) L →
  owned (p ≫= f) Q L.
Proof. intros Hp. apply owned_bind_result. eapply owned_mono, Hp. by intros [a|e] L'. Qed.

Lemma tidy_done {ASAN : AsanRuntime} {A} (r : result A) : Tidy (Done r).
Proof. by intros L. Qed.

Lemma tidy_bind_result {ASAN : AsanRuntime} {A B} (p : proc A) (f : result A → proc B) :
  Tidy p → (∀ r, Tidy (f r)) → Tidy (bind_result p f).
Proof.
  intros Hp Hf L. apply owned_bind_result. eapply owned_mono, Hp. intros r L' ->. apply Hf.
Qed.

Lemma tidy_bind {ASAN : AsanRuntime} {A B} (p : proc A) (f : A → proc B) : Tidy p → (∀ a, Tidy (f a)) → Tidy (p ≫= f).
Proof. intros Hp Hf. apply tidy_bind_result; [done|]. intros [a|e]; [apply Hf|apply tidy_done]. Qed.

(** A tidy process as the first part of another. *)
Lemma owned_tidy_bind_result {ASAN : AsanRuntime} {A B} (p : proc A) (f : result A → proc B) Q L :
  Tidy p → (∀ r, owned (f r) Q L) → owned (bind_result p f) Q L.
Proof. intros Hp Hf. apply owned_bind_result. eapply owned_mono, Hp. intros r L' ->. apply Hf. Qed.

Lemma owned_tidy_bind {ASAN : AsanRuntime} {A B} (p : proc A) (f : A → proc B) Q L :
  Tidy p → (∀ a, owned (f a) Q L) → (∀ e, Q (Raise e) L) → owned (p ≫= f) Q L.
Proof. intros Hp Hf He. apply owned_tidy_bind_result; [done|]. intros [a|e]; [apply Hf|apply He]. Qed.

(** ** Actions that leave the holding alone *)

Definition keeps {ASAN : AsanRuntime} {A} (act : M World A) : Prop := ∀ L w, inv w → holds L w →
  match act w with
  | Ret _ w' | Throw _ w' => desk_step L w w'
  | Stuck why => why = Terminated
  end.

Lemma keeps_owned {ASAN : AsanRuntime} {A} (act : M World A) (Q : result A → holding → Prop) L :
  (∀ r, Q r L) → keeps act → act_owned act Q L.
Proof.
  intros HQ Hk w Hi Hl. specialize (Hk L w Hi Hl). destruct (act w); [exists L; split; [apply Hk|apply HQ]..|done].
Qed.

Lemma keeps_intro {ASAN : AsanRuntime} {A} (act : M World A) :
  (∀ w, inv w → match act w with
     | Ret _ w' | Throw _ w' => ∀ L, holds L w → desk_step L w w'
     | Stuck why => why = Terminated
     end) → keeps act.
Proof.
  intros H L w Hi Hl. specialize (H w Hi). destruct (act w); [by auto..|done].
Qed.

(** Actions that read, and allocate natively. *)
Lemma keeps_still {ASAN : AsanRuntime} {A} (act : M World A) :
  (∀ w, inv w → match act w with
     | Ret _ w' | Throw _ w' => still w w'
     | Stuck why => why = Terminated
     end) → keeps act.
Proof.
  intros H. apply keeps_intro. intros w Hi. specialize (H w Hi).
  destruct (act w); [intros L Hl; by apply desk_step_still..|done].
Qed.

Lemma keeps_ret {ASAN : AsanRuntime} {A} (a : A) : keeps (mret a).
Proof. by apply keeps_still. Qed.

Lemma keeps_throw {ASAN : AsanRuntime} {A} e : keeps (throw (A := A) e).
Proof. by apply keeps_still. Qed.

Lemma keeps_get {ASAN : AsanRuntime} : keeps get.
Proof. by apply keeps_still. Qed.

Lemma keeps_gets {ASAN : AsanRuntime} {A} (f : World → A) : keeps (gets f).
Proof. by apply keeps_still. Qed.

Lemma keeps_native_alloc {ASAN : AsanRuntime} : keeps native_alloc.
Proof. apply keeps_still. intros w _. pose proof (native_alloc_still w). by destruct (native_alloc w). Qed.

Lemma keeps_terminate {ASAN : AsanRuntime} {A} : keeps (λ _, Stuck Terminated : outcome World A).
Proof. by apply keeps_still. Qed.

Lemma keeps_modify {ASAN : AsanRuntime} (f : World → World) :
  (∀ w, inv w → heap_frame w (f w) ∧ typed (mgr (f w))) → keeps (modify f).
Proof. intros H. apply keeps_intro. intros w Hi L Hl. destruct (H w Hi). by apply desk_step_heap. Qed.

Lemma keeps_write_word {ASAN : AsanRuntime} a v : keeps (write_word a v).
Proof. by apply keeps_still. Qed.

Lemma keeps_bind {ASAN : AsanRuntime} {A B} (m : M World A) (f : A → M World B) :
  keeps m → (∀ a, keeps (f a)) → keeps (m ≫= f).
Proof.
  intros Hm Hf L w Hi Hl. specialize (Hm L w Hi Hl). unfold mbind, M_bind.
  destruct (m w) as [a w1|e w1|why]; [|done..]. destruct Hm as [Hs Hb].
  specialize (Hf a L w1 (os_inv _ _ _ _ Hs) (os_holds _ _ _ _ Hs)).
  destruct (f a w1); [by eapply desk_step_trans..|done].
Qed.

Lemma keeps_foldM {ASAN : AsanRuntime} {A B} (f : A → B → M World B) l b :
  (∀ a b, keeps (f a b)) → keeps (foldM f l b).
Proof.
  intros Hf. revert b. induction l as [|a l IH]; intros b; [apply keeps_ret|].
  apply keeps_bind; [apply Hf|apply IH].
Qed.

Lemma tidy_atomic {ASAN : AsanRuntime} {A} (act : M World A) : keeps act → Tidy (atomic act).
Proof. intros Ha L. by apply keeps_owned. Qed.

Create HintDb keeps discriminated.
#[export] Hint Resolve keeps_ret keeps_throw keeps_get keeps_gets keeps_native_alloc keeps_terminate
  keeps_write_word : keeps.

Ltac keeps :=
  repeat first
    [ solve [auto 3 with keeps nocore]
    | apply keeps_bind; [|intros ?]
    | apply keeps_foldM; intros ? ?
    | case_match ].

(** ** Changes of the manager *)

(** Updates that touch threads, ranges, the threshold or the stop request. *)
Lemma heap_frame_mgr {ASAN : AsanRuntime} f w :
  allocations_ (f (mgr w)) = allocations w → weak_refs_ (f (mgr w)) = weak_refs w →
  managed_bytes_ (f (mgr w)) = managed_bytes_ (mgr w) →
  reserved_bytes_ (f (mgr w)) = reserved_bytes_ (mgr w) → stats_ (f (mgr w)) = stats_ (mgr w) →
  range_change (root_ranges w) (registered_root_ranges_ (f (mgr w))) → heap_frame w (set_mgr f w).
Proof.
  intros Ha Hw Hm Hr Hs Hrg. split; simpl; rewrite ?Ha, ?Hw, ?Hm, ?Hr; auto.
  - unfold peaks_ok. by rewrite Ha, Hm, Hs.
  - intros m. by apply bookkeeping_range.
  - by rewrite Hs.
Qed.

Lemma sm_alter_elem {V} (f : V → V) k m kv :
  kv ∈ sm_alter f k m → kv ∈ m ∨ ∃ v, (k, v) ∈ m ∧ kv = (k, f v).
Proof.
  induction m as [|[k' v'] m IH]; [by intros ?%elem_of_nil|]. simpl.
  destruct (Z.eqb_spec k k') as [->|]; intros [->|Hin]%elem_of_cons.
  - right. exists v'. split; [left|done].
  - left. by right.
  - left. left.
  - destruct (IH Hin) as [?|(v & ? & ?)]; [left; by right|right; exists v; split; [by right|done]].
Qed.

Lemma typed_threads f g :
  typed g → (∀ t s, (t, s) ∈ f (threads_ g) → thread_typed s) → typed (set_threads f g).
Proof. intros [] Hf. by split. Qed.

Lemma keeps_set_threads {ASAN : AsanRuntime} f :
  (∀ g, typed g → ∀ t s, (t, s) ∈ f (threads_ g) → thread_typed s) →
  keeps (modify (set_mgr (set_threads f))).
Proof.
  intros Hf. apply keeps_modify. intros w Hi. split; [by apply heap_frame_mgr; try done; left|].
  apply typed_threads; [apply Hi|]. apply Hf, Hi.
Qed.

Lemma keeps_alter_thread {ASAN : AsanRuntime} f t :
  (∀ s, thread_typed s → thread_typed (f s)) → keeps (modify (set_mgr (set_threads (sm_alter f t)))).
Proof.
  intros Hf. apply keeps_set_threads. intros g Hg t' s [Hin|(s0 & Hin & [= -> ->])]%sm_alter_elem.
  - by eapply ty_threads.
  - apply Hf. by eapply ty_threads.
Qed.

Lemma keeps_set_ranges {ASAN : AsanRuntime} f :
  (∀ g, typed g → ∀ r, r ∈ f (registered_root_ranges_ g) → range_typed r) → (∀ l, range_change l (f l)) →
  keeps (modify (set_mgr (set_root_ranges f))).
Proof.
  intros Hf Hc. apply keeps_modify. intros w Hi. split; [by apply heap_frame_mgr|].
  pose proof (Hf (mgr w) (iv_typed w Hi)) as H. destruct (iv_typed w Hi). by split.
Qed.

Lemma keeps_set_threshold {ASAN : AsanRuntime} t : is_size t → keeps (modify (set_mgr (set_threshold t))).
Proof.
  intros Ht. apply keeps_modify. intros w Hi. split; [by apply heap_frame_mgr; try done; left|].
  destruct (iv_typed w Hi). by split.
Qed.

Lemma keeps_set_stw {ASAN : AsanRuntime} c r b : keeps (modify (set_mgr (set_stw c r b))).
Proof.
  apply keeps_modify. intros w Hi. split; [by apply heap_frame_mgr; try done; left|]. destruct (iv_typed w Hi). by split.
Qed.

Lemma keeps_add_log {ASAN : AsanRuntime} e : keeps (modify (add_log e)).
Proof. by apply keeps_still. Qed.

Lemma keeps_require {ASAN : AsanRuntime} me : keeps (require_registered_thread_locked me).
Proof. unfold require_registered_thread_locked. keeps. Qed.
#[export] Hint Resolve keeps_set_stw keeps_add_log keeps_require : keeps.

(** ** Critical sections *)

(** What a parking thread exposes are machine words. *)
Record park_typed (env : ParkEnv) : Prop := {
  pt_marker : is_size (pe_stack_marker env);
  pt_registers : Forall is_size (pe_registers env);
}.

Section Locked.
Context {ASAN : AsanRuntime} (me : thread_id) (env : ParkEnv) (Henv : park_typed env).

Lemma keeps_park : keeps (park me env).
Proof. apply keeps_alter_thread. intros s [? _ _]. destruct Henv. by split. Qed.

Lemma keeps_unpark : keeps (unpark me).
Proof.
  apply keeps_alter_thread. intros s [? _ _]. assert (is_size 0) by (unfold is_size, SIZE_MAX; lia).
  split; [done..|]. by apply Forall_replicate.
Qed.

Lemma silent_park : silent (park me env).
Proof. done. Qed.

Lemma silent_unpark : silent (unpark me).
Proof. done. Qed.

Lemma enter_owned {A} (pre parking : M World unit) (body : M World A) Q L :
  keeps pre → silent pre ∨ silent body → keeps parking → silent parking → (∀ e, Q (Raise e) L) → act_owned body Q L →
  act_owned (enter me pre parking body) (λ r L', match r with
    | Ok (Entered _ a) => Q (Ok a) L' | Ok _ => L' = L | Raise e => Q (Raise e) L' end) L.
Proof.
  intros Hpre Hspre Hpark Hspark HQ Hb. unfold enter. apply act_owned_bind.
  { destruct Hspre as [?|Hb']; [by left|right]. intros _. apply silent_bind; [done|]. intros w.
    destruct (may_run me w); [by apply silent_bind|]. destruct (registered me w); [by apply silent_bind|done]. }
  apply keeps_owned; [|done].
  intros [[]|e]; [|done]. apply act_owned_bind; [by left|]. apply keeps_owned; [|apply keeps_get].
  intros [w|e]; [|done]. destruct (may_run me w).
  - apply act_owned_bind; [by right|]. eapply act_owned_mono, Hb. intros [a|e] L' HQ'; [|done].
    by apply act_owned_ret.
  - destruct (registered me w); simpl.
    + apply act_owned_bind; [by right|]. apply keeps_owned; [|done]. intros [[]|e]; [|done]. by apply act_owned_ret.
    + by apply act_owned_ret.
Qed.

(** The rule for a critical section: it is enough to look at its body. *)
Lemma owned_locked_after {A} (pre : M World unit) (body : M World A) Q L :
  keeps pre → silent pre ∨ silent body → (∀ e, Q (Raise e) L) → act_owned body Q L → owned (locked_after me env pre body) Q L.
Proof.
  intros Hpre Hspre HQ Hb. pose proof keeps_park as Hpark.
  assert (keeps (mret tt : M World unit)) as Hret by apply keeps_ret.
  simpl. eapply act_owned_mono; [|by apply (enter_owned pre (mret tt) body Q L)].
  intros [[a| |]|e] L'; simpl; [done| |intros ->|done].
  - intros ->. simpl. eapply act_owned_mono, Hb. by intros [].
  - eapply act_owned_mono; [|apply (enter_owned (mret tt) (park me env) body Q L); try done; by left].
    intros [[a| |]|e] L'; simpl; [done| |intros ->|done].
    + intros ->. simpl. eapply act_owned_mono, Hb. by intros [].
    + apply act_owned_bind; [by left|]. apply keeps_owned; [|apply keeps_unpark]. intros [[]|e]; [|apply HQ].
      eapply act_owned_mono, Hb. by intros [].
Qed.

Lemma owned_locked {A} (body : M World A) Q L :
  (∀ e, Q (Raise e) L) → act_owned body Q L → owned (locked me env body) Q L.
Proof. apply owned_locked_after; [apply keeps_ret|by left]. Qed.

Lemma tidy_locked_after {A} (pre : M World unit) (body : M World A) :
  keeps pre → silent pre ∨ silent body → keeps body → Tidy (locked_after me env pre body).
Proof. intros Hp Hs Hb L. apply owned_locked_after; [done..|]. by apply keeps_owned. Qed.

Lemma tidy_locked {A} (body : M World A) : keeps body → Tidy (locked me env body).
Proof. apply tidy_locked_after; [apply keeps_ret|by left]. Qed.
End Locked.
