(* ===== verification/Storage.v ===== *)
(** * Storage in transit

    Rules of [owned] for the actions that move storage between the allocator,
    the threads and the registry: [operator new], the write of a header, the
    registration of a block, the sweep and the detachment that hand a batch of
    blocks to the collecting thread, the unlinking of an unconstructed block,
    and [free_block_memory]. *)

From S2P Require Import Prelude Words Memory OrdMap Chunk Manager Heap Scanner Mark Finalize WeakRefs.
From S2P Require Import Sweep Threads Collect CollectSpec Roots Alloc Contract Ownership.

(** ** Storage in transit *)

(** [L'] is [L] and the blocks [hs], all with a header. *)
Record takes (hs : list Z) (L L' : holding) : Prop := {
  tk_nodup : NoDup hs;
  tk_new : ∀ p, p ∈ hs → L !! p = None ∧ ∃ r h, L' !! p = Some r ∧ rb_header r = Some h;
  tk_old : ∀ p, p ∉ hs → L' !! p = L !! p;
}.

Lemma takes_nil L L' : takes [] L L' → L' = L.
Proof. intros [_ _ Ho]. apply map_eq. intros p. apply Ho. by intros ?%elem_of_nil. Qed.

Lemma takes_cons p hs L L' : takes (p :: hs) L L' → takes hs L (delete p L').
Proof.
  intros [[Hp Hnd]%NoDup_cons Hn Ho]. split; [done| |].
  - intros q Hq. rewrite lookup_delete_ne by (by intros ->). apply Hn. by right.
  - intros q Hq. destruct (decide (q = p)) as [->|Hne].
    + rewrite lookup_delete_eq. symmetry. apply (Hn p). left.
    + rewrite lookup_delete_ne by done. apply Ho. by intros [?|?]%elem_of_cons.
Qed.

Definition raw_at (w : World) (p : Z) : raw_block :=
  {| rb_size := from_option fst 0 (blocks w !! p); rb_alignment := from_option snd 0 (blocks w !! p);
     rb_header := headers w !! p |}.

Fixpoint take_blocks (w : World) (hs : list Z) (L : holding) : holding :=
  match hs with
  | [] => L
  | p :: hs' => <[p := raw_at w p]> (take_blocks w hs' L)
  end.

Lemma lookup_take_blocks w hs L p :
  take_blocks w hs L !! p = if decide (p ∈ hs) then Some (raw_at w p) else L !! p.
Proof.
  induction hs as [|q hs IH]; cbn [take_blocks]; [by rewrite decide_False by (by intros ?%elem_of_nil)|].
  destruct (decide (p = q)) as [->|Hne].
  - by rewrite lookup_insert_eq, decide_True by left.
  - rewrite lookup_insert_ne, IH by done. apply decide_ext. rewrite elem_of_cons. tauto.
Qed.

(** A batch of registered blocks passes into the hands of the thread. *)
Lemma own_step_take {ASAN : AsanRuntime} L w w' hs :
  event (ledger w) (ledger w') → inv w' → holds L w → blocks w' = blocks w → (∀ p, header_at w' p = header_at w p) → batch_ok w' hs →
  (∀ p, is_registered w' p ↔ is_registered w p ∧ p ∉ hs) → (∀ p, p ∈ hs → is_registered w p) →
  ∃ L', own_step L L' w w' ∧ takes hs L L'.
Proof.
  intros Htr Hi Hl Hb Hh [Hnd Hba] Hr Hhs. set (L' := take_blocks w' hs L). exists L'.
  assert (∀ p, p ∈ hs → L !! p = None) as Hnone.
  { intros p Hp. destruct (L !! p) as [r|] eqn:E; [|done]. by destruct (hb_free _ _ _ (Hl p r E)); apply Hhs. }
  assert (∀ p, L' !! p = if decide (p ∈ hs) then Some (raw_at w' p) else L !! p) as HL'
    by apply lookup_take_blocks.
  split; [split; [done| | | |by right]|split; [done| |]].
  - intros p r. rewrite HL'. case_decide as Hp.
    + intros [= <-]. destruct (Hba p Hp) as (h & n & Eh & Eb). split; simpl.
      * by rewrite Eb.
      * by intros [_ Hn]%Hr.
      * intros h'. unfold header_at. rewrite Eh, Eb. by intros [= <-].
      * by rewrite Eh.
    + intros E. destruct (Hl p r E) as [H1 H2 H3 H4]. split; [by rewrite Hb| | |].
      * by intros [? _]%Hr.
      * intros h E'. rewrite Hh. by apply H3.
      * intros E'. rewrite Hh. by apply H4.
  - intros p (Ho & Hn & E). split_and!; [|by rewrite Hb|done]. unfold foreign, outstanding in *.
    split_and!; [by rewrite Hb|by intros [? _]%Hr|]. rewrite HL', decide_False; [done|].
    by intros ?%Hhs.
  - intros p Ho. unfold outstanding in Ho. rewrite Hb in Ho.
    destruct (holds_accounted L w p Ho) as [Hreg|[Hs|Hf]]; [|right; left|by right; right].
    + destruct (decide (p ∈ hs)) as [Hp|Hp]; [|left; by apply Hr].
      right; left. rewrite HL', decide_True by done. eauto.
    + rewrite HL'. case_decide; eauto.
  - intros p Hp. split; [by apply Hnone|]. destruct (Hba p Hp) as (h & n & Eh & Eb).
    exists (raw_at w' p), h. rewrite HL', decide_True by done. done.
  - intros p Hp. by rewrite HL', decide_False.
Qed.

Section Storage.
Context {ASAN : AsanRuntime} {ALLOC : Allocator}.

Lemma registered_outstanding w p : heap_wf w → is_registered w p → outstanding w p.
Proof. intros Hwf (k & b & Hin & <-). destruct (wf_storage w k b Hwf Hin) as [a E]. by eexists. Qed.

(** What [operator new] promises of the address alone. *)
Definition placed (p n a : Z) : Prop := 0 < p ∧ p + n <= 2 ^ 63 ∧ (0 < a → (a | p)).

Lemma operator_new_owned n a (Q : result Z → holding → Prop) L :
  (∀ p, placed p n a → L !! p = None →
     Q (Ok p) (<[p := {| rb_size := n; rb_alignment := a; rb_header := None |}]> L)) →
  Q (Raise bad_alloc) L → act_owned (operator_new n a) Q L.
Proof.
  intros HQ Hbad w Hi Hl. unfold operator_new. destruct (new_address w n a) as [p|] eqn:E.
  2:{ exists L. split; [by apply own_step_refl|done]. }
  assert (blocks w !! p = None) as Hf.
  { destruct (blocks w !! p) as [[m b]|] eqn:Eb; [|done]. by destruct (new_address_fresh _ _ _ _ _ _ _ E Eb). }
  assert (∀ q, outstanding w q → q ≠ p) as Hne by (intros q [x Hx]; congruence).
  assert (¬ is_registered w p) as Hnr.
  { intros Hr%registered_outstanding; [|apply Hi]. by apply Hne in Hr. }
  assert (L !! p = None) as HLp.
  { destruct (L !! p) as [r|] eqn:Er; [|done]. destruct (Hne p); [|done].
    exists (rb_size r, rb_alignment r). apply (Hl p r Er). }
  set (w' := set_blocks <[p := (n, a)]> w). set (r := {| rb_size := n; rb_alignment := a; rb_header := None |}).
  exists (<[p := r]> L). split; [|apply HQ; [|done]].
  2:{ split_and!; [by eapply new_address_pos|by eapply new_address_low|intros; by eapply new_address_aligned]. }
  destruct Hi as [Hwf Ht Hp Hap Hhd]. split.
  - split; [|done|done| |].
    + apply (heap_wf_local w); try done. intros k b Hin. split; [done|]. simpl.
      rewrite lookup_insert_ne; [done|]. apply not_eq_sym, Hne, registered_outstanding; [done|by exists k, b].
    + intros q1 n1 a1 q2 n2 a2. simpl. rewrite !lookup_insert_Some.
      intros [[<- [= -> ->]]|[Hn1 H1]] [[<- [= -> ->]]|[Hn2 H2]].
      * by left.
      * destruct (new_address_fresh _ _ _ _ _ _ _ E H2). lia.
      * destruct (new_address_fresh _ _ _ _ _ _ _ E H1). lia.
      * by eapply Hap.
    + intros q h' Hq. destruct (Hhd q h' Hq) as [Hq1 Hq2]. split; [done|]. unfold outstanding. simpl.
      rewrite lookup_insert_ne; [done|]. by apply not_eq_sym, Hne.
  - intros q x. rewrite lookup_insert_Some. intros [[<- <-]|[Hn Hq]].
    + split; [simpl; by rewrite lookup_insert_eq|done|done|]. intros _. change (header_at w p = None).
      destruct (header_at w p) as [h'|] eqn:Eh; [|done]. by destruct (Hne p); [apply (Hhd p h' Eh)|].
    + destruct (Hl q x Hq). split; [simpl; by rewrite lookup_insert_ne|done..].
  - intros q (Ho & Hn & Hq). pose proof (Hne q Ho). unfold foreign, outstanding in *. simpl.
    rewrite !lookup_insert_ne by done. done.
  - intros q Ho. destruct (decide (q = p)) as [->|Hnq]; [right; left; rewrite lookup_insert_eq; eauto|].
    unfold outstanding in Ho. simpl in Ho. rewrite lookup_insert_ne in Ho by done.
    rewrite lookup_insert_ne by done. by apply (holds_accounted L w q).
  - apply transition_refl.
Qed.

(** Only the headers of registered blocks are pinned by the registry. *)
Lemma set_header_owned raw n a h (Q : result unit → holding → Prop) L :
  L !! raw = Some {| rb_size := n; rb_alignment := a; rb_header := None |} → allocation_alignment h = a →
  header_typed h → Q (Ok tt) (<[raw := {| rb_size := n; rb_alignment := a; rb_header := Some h |}]> L) →
  act_owned (modify (set_headers <[raw := h]>)) Q L.
Proof.
  intros Hraw Ha Hty HQ w Hi Hl. eexists. split; [|exact HQ]. destruct (Hl raw _ Hraw) as [Hs Hf _ _]. simpl in Hs.
  assert (∀ q, is_registered w q → q ≠ raw) as Hne by (intros q Hq ->; done).
  destruct Hi as [Hwf Ht Hp Hap Hhd]. split.
  - split; [|done..|].
    + apply (heap_wf_local w); try done. intros k b Hin. split; [|done]. simpl.
      rewrite lookup_insert_ne; [done|]. apply not_eq_sym, Hne. by exists k, b.
    + intros q h'. unfold header_at. simpl. destruct (decide (q = raw)) as [->|].
      * rewrite lookup_insert_eq. intros [= <-]. split; [|by eexists]. by destruct Hty.
      * rewrite lookup_insert_ne by done. apply Hhd.
  - intros q r. rewrite lookup_insert_Some. intros [[<- <-]|[Hn Hq]].
    + split; [done|done| |done]. intros h' [= <-]. unfold header_at. simpl. by rewrite lookup_insert_eq.
    + destruct (Hl q r Hq) as [? ? H3 H4]. split; [done..| |]; unfold header_at; simpl;
        rewrite lookup_insert_ne by done; [exact H3|exact H4].
  - intros q (Ho & Hn & Hq). assert (q ≠ raw) by congruence. unfold foreign, header_at. simpl.
    rewrite !lookup_insert_ne by done. done.
  - intros q Ho. destruct (holds_accounted L w q Ho) as [?|[?|?]]; [by left| |by right; right].
    right; left. destruct (decide (q = raw)) as [->|]; [rewrite lookup_insert_eq; eauto|by rewrite lookup_insert_ne].
  - apply transition_refl.
Qed.

(** Giving storage back to the allocator. *)
Lemma own_step_freed p r w L : L !! p = Some r → inv w → holds L w → own_step L (delete p L) w (freed p w).
Proof.
  intros Hp Hi Hl. destruct (Hl p r Hp) as [Hs Hf _ _].
  assert (∀ q, is_registered w q → q ≠ p) as Hne by (intros q Hq ->; done).
  destruct Hi as [Hwf Ht Hpk Hap Hhdr]. split.
  - split; [|done..| |].
    + apply (heap_wf_local w); try done. intros k b Hin. simpl.
      assert (p ≠ br_header b) by (apply not_eq_sym, Hne; by exists k, b). by rewrite !lookup_delete_ne.
    + intros q1 n1 a1 q2 n2 a2. simpl. rewrite !lookup_delete_Some. intros [_ Hq1] [_ Hq2]. by eapply Hap.
    + intros q h1. unfold header_at, outstanding. simpl.
      destruct (decide (q = p)) as [->|]; [by rewrite lookup_delete_eq|].
      rewrite !lookup_delete_ne by done. apply Hhdr.
  - intros q x [Hn Hq]%lookup_delete_Some. destruct (Hl q x Hq) as [Hx1 Hx2 Hx3 Hx4].
    split; [simpl; by rewrite lookup_delete_ne|done| |]; unfold header_at; simpl; by rewrite lookup_delete_ne.
  - intros q (Ho & Hn & Hq). assert (q ≠ p) by congruence. unfold foreign, outstanding, header_at in *. simpl.
    rewrite !lookup_delete_ne by done. done.
  - intros q Ho. unfold outstanding in Ho. simpl in Ho.
    destruct (decide (q = p)) as [->|]; [rewrite lookup_delete_eq in Ho; by destruct Ho|].
    rewrite lookup_delete_ne in Ho by done. rewrite lookup_delete_ne by done. by apply (holds_accounted L w q).
  - apply transition_refl.
Qed.

Lemma free_owned p r h (Q : result unit → holding → Prop) L :
  L !! p = Some r → rb_header r = Some h → Q (Ok tt) (delete p L) → act_owned (free_block_memory p) Q L.
Proof.
  intros Hp Hh HQ w Hi Hl. destruct (Hl p r Hp) as [Hs Hf Hhd _]. destruct (Hhd h Hh) as [Eh Ea].
  unfold header_at in Eh. destruct (headers w !! p) as [h'|] eqn:E'; [|done]. injection Eh as Eh.
  assert (allocation_alignment h' = rb_alignment r) as Ea'.
  { rewrite <-Ea. apply allocation_alignment_Proper. unfold same_but_mark, set_marked. congruence. }
  rewrite <-Ea' in Hs. rewrite (free_block_memory_spec w p h' _ E' Hs). exists (delete p L).
  split; [by eapply own_step_freed|done].
Qed.

(** Storage without a header. *)
Lemma operator_delete_owned p n a (Q : result unit → holding → Prop) L :
  L !! p = Some {| rb_size := n; rb_alignment := a; rb_header := None |} →
  Q (Ok tt) (delete p L) → act_owned (operator_delete p a) Q L.
Proof.
  intros Hp HQ w Hi Hl. destruct (Hl p _ Hp) as [Hs _ _ Hn]. specialize (Hn eq_refl). simpl in Hs.
  unfold operator_delete. rewrite Hs, Z.eqb_refl. exists (delete p L). split; [|done].
  assert (add_log (EvFree p) (set_blocks (delete p) w) = freed p w) as ->; [|by eapply own_step_freed].
  unfold freed. unfold header_at in Hn. destruct (headers w !! p) eqn:E; [done|].
  unfold set_headers. rewrite delete_id by done. by destruct w.
Qed.
End Storage.

(** ** Registering a block *)

Lemma blocks_le_managed w : heap_wf w → Z.of_nat (length (allocations w)) <= managed_bytes_ (mgr w).
Proof.
  intros Hwf. rewrite (wf_managed w Hwf).
  assert (∀ l : registry, (∀ kb, kb ∈ l → kb ∈ allocations w) → Z.of_nat (length l) <= sumZ (payload_size <$> l)) as H.
  { induction l as [|kb l IH]; intros Hl; csimpl; [done|].
    assert (0 < payload_size kb) by (apply (sizes_pos w Hwf), Hl; left).
    specialize (IH ltac:(intros; apply Hl; by right)). lia. }
  by apply H.
Qed.

Lemma stats_on_register_typed size managed n s :
  is_size size → is_size managed → is_size n → Forall is_size (counters s) →
  Forall is_size (counters (stats_on_register size managed n s)).
Proof.
  intros Hs Hm Hn Hc. unfold counters in *. rewrite !Forall_cons, Forall_nil in Hc.
  destruct Hc as (? & ? & ? & ? & Ht & Hb & ? & ? & _). simpl.
  assert (is_size 1) by (unfold is_size, SIZE_MAX; lia).
  repeat constructor; try done; rewrite ?saturating_add_spec by done; unfold is_size in *; lia.
Qed.

Section Publish.
Context {ASAN : AsanRuntime} (me : thread_id) (raw size k : Z) (d : DestructorFn) (c : bool).
Context (Hk : 0 <= k <= 15) (Hsize : 0 < size) (Hplace : 0 < raw ∧ raw + (layout_offset k + size) <= 2 ^ 63).
Let n := layout_offset k + size.
Let a := 2 ^ Z.max k 4.
Let h := make_header size a (layout_offset k) d.
Context (L : holding) (HL : L !! raw = Some {| rb_size := n; rb_alignment := a; rb_header := Some h |}).

Section AtWorld.
Context (w : World) (Hi : inv w) (Hl : holds L w).

(** The block in hand is ready to be registered. *)
Lemma held_header : ∃ h', headers w !! raw = Some h' ∧ ch_size h' = size ∧
  ch_payload_offset h' = layout_offset k ∧
  block_ok w (payload_begin raw h') (new_record raw h' c) ∧ apart (allocations w) (new_record raw h' c).
Proof.
  destruct (Hl raw _ HL) as [Hs Hf Hh]. destruct (Hh h eq_refl) as [Eh Ea]. simpl in Hs, Ea.
  unfold header_at in Eh. destruct (headers w !! raw) as [h'|] eqn:E; [|done].
  assert (same_but_mark h' h) as Hsame by by apply (inj Some) in Eh.
  assert (ch_size h' = size) as Hs' by by rewrite Hsame.
  assert (ch_payload_offset h' = layout_offset k) as Ho by (rewrite Hsame; by apply make_header_offset).
  pose proof (layout_offset_bound k Hk) as Hb.
  exists h'. split_and!; [done..| |].
  - split; simpl; [done|lia| |].
    + unfold payload_begin. rewrite Ho, Hs'. unfold word_size, SIZE_MAX. lia.
    + exists h'. split_and!; [done|by rewrite Hsame|done|done|lia|lia|].
      rewrite Hs, Ho, Hs'. do 2 f_equal. rewrite Hsame. by symmetry.
  - intros k' b' Hin. destruct (wf_storage w k' b' (iv_wf w Hi) Hin) as [a' Hst].
    assert (raw ≠ br_header b') by (intros ->; apply Hf; by exists k', b').
    unfold new_record, payload_begin. simpl. rewrite Ho, Hs'.
    destruct (iv_apart w Hi _ _ _ _ _ _ Hs Hst) as [|[?|?]]; [done|left|right]; unfold n in *; lia.
Qed.

Lemma publish_step h' o :
  headers w !! raw = Some h' → ch_size h' = size → ch_payload_offset h' = layout_offset k →
  block_ok w (payload_begin raw h') (new_record raw h' c) → apart (allocations w) (new_record raw h' c) →
  managed_bytes_ (mgr w) + ch_size h' <= SIZE_MAX →
  reserved_bytes_ (mgr w) + (ch_payload_offset h' + ch_size h') <= SIZE_MAX →
  own_step L (delete raw L) w (published raw h' c (with_oom o w)).
Proof.
  intros Eh Hs Ho Hok Hap Hm Hr. set (w' := published raw h' c (with_oom o w)).
  destruct Hi as [Hwf Ht Hp Hst Hhd].
  assert (heap_wf w') as Hwf' by by apply published_wf.
  pose proof (apart_fresh w _ _ Hwf Hok Hap) as Hfr.
  pose proof (sm_emplace_perm _ (new_record raw h' c) _ Hfr) as Hperm.
  assert (∀ p, is_registered w' p ↔ p = raw ∨ is_registered w p) as Hreg.
  { intros p. unfold is_registered, w'. simpl. setoid_rewrite Hperm. setoid_rewrite elem_of_cons. split.
    - intros (k1 & b1 & [[= -> ->]|Hin] & <-); [by left|right; eauto].
    - intros [->|(k1 & b1 & Hin & <-)]; [|by exists k1, b1; auto].
      exists (payload_begin raw h'), (new_record raw h' c). auto. }
  pose proof (managed_nonneg w Hwf) as Hmn. pose proof (blocks_le_managed w' Hwf') as Hbl.
  pose proof (wf_managed_max w' Hwf'). pose proof (managed_nonneg w' Hwf').
  assert (Hlw : ∀ p r, delete raw L !! p = Some r → p ≠ raw ∧ holds_block w p r).
  { intros p r [Hn Hpr]%lookup_delete_Some. split; [congruence|by apply Hl]. }
  split.
  - split; [done| | |done|done].
    + destruct Ht. split; try done. apply stats_on_register_typed; [|unfold is_size; simpl in *; lia..|done].
      unfold is_size. lia.
    + unfold peaks_ok, w'. simpl. lia.
  - intros p r [Hne [H1 H2 H3 H4]]%Hlw. split; [done|by intros [?|?]%Hreg|done|done].
  - intros p (Hop & Hnp & HLp). unfold foreign. rewrite Hreg.
    assert (p ≠ raw) by congruence. rewrite lookup_delete_ne by congruence. split_and!; try done. tauto.
  - intros p Hop. rewrite Hreg. destruct (decide (p = raw)) as [->|Hne]; [auto|].
    rewrite lookup_delete_ne by congruence. destruct (holds_accounted L w p Hop); auto.
  - right; by apply publish_event.
Qed.
End AtWorld.

Lemma publish_owned (Q : result unit → holding → Prop) :
  Q (Ok tt) (delete raw L) → (∀ e, Q (Raise e) L) → act_owned (publish_block me raw size n c) Q L.
Proof.
  intros HQ Hbad w Hi Hl. destruct (registered me w) eqn:Hreg.
  2:{ unfold publish_block, require_registered_thread_locked, mbind, M_bind, get. rewrite Hreg.
      exists L. split; [by apply own_step_refl|done]. }
  destruct (held_header w Hi Hl) as (h' & Eh & Hs & Ho & Hok & Hap).
  assert (n = ch_payload_offset h' + ch_size h') as Hn by (rewrite Ho, Hs; done).
  rewrite Hn, <-Hs. clear Hn.
  destruct (decide (managed_bytes_ (mgr w) + ch_size h' <= SIZE_MAX ∧
    reserved_bytes_ (mgr w) + (ch_payload_offset h' + ch_size h') <= SIZE_MAX)) as [[Hm Hr]|Hfull].
  - destruct (publish_block_cases me w raw h' c (iv_wf w Hi) Eh Hok Hap Hreg Hm Hr) as [(o & E & _)|(o & E)].
    + rewrite E. exists L. split; [|done]. by apply own_step_still.
    + rewrite E. exists (delete raw L). split; [|done]. by apply publish_step.
  - rewrite publish_block_full by (try done; lia). exists L. split; [by apply own_step_refl|done].
Qed.
End Publish.

(** ** Taking blocks out of the registry *)

Lemma allocations_smaller w w' :
  heap_wf w → heap_wf w' → (∀ kb, kb ∈ allocations w' → kb ∈ allocations w) →
  managed_bytes_ (mgr w') <= managed_bytes_ (mgr w) ∧ (length (allocations w') <= length (allocations w))%nat.
Proof.
  intros Hwf Hwf' Ha.
  assert (allocations w' ⊆+ allocations w) as Hsub.
  { apply NoDup_submseteq; [apply sm_wf_NoDup_entries, wf_sorted, Hwf'|done]. }
  split; [|by apply submseteq_length].
  rewrite (wf_managed w Hwf), (wf_managed w' Hwf'). destruct (submseteq_Permutation _ _ Hsub) as [l Hl].
  rewrite Hl, fmap_app, sumZ_app. assert (0 <= sumZ (payload_size <$> l)); [|lia].
  apply sumZ_nonneg. intros x (kb & -> & Hkb)%list_elem_of_fmap.
  assert (0 < payload_size kb); [|lia]. apply (sizes_pos w Hwf). rewrite Hl. apply elem_of_app. by right.
Qed.

(** Fewer blocks, fewer weak entries, the rest of the manager as it was but for
    statistics whose peaks stay. *)
Lemma inv_smaller w w' :
  inv w → heap_wf w' → (∀ kb, kb ∈ allocations w' → kb ∈ allocations w) →
  (∀ e, e ∈ weak_refs w' → e ∈ weak_refs w) →
  threads_ (mgr w') = threads_ (mgr w) →
  registered_root_ranges_ (mgr w') = registered_root_ranges_ (mgr w) →
  collection_threshold_bytes_ (mgr w') = collection_threshold_bytes_ (mgr w) →
  Forall is_size (counters (stats_ (mgr w'))) →
  peak_live_bytes (stats_ (mgr w')) = peak_live_bytes (stats_ (mgr w)) →
  peak_live_blocks (stats_ (mgr w')) = peak_live_blocks (stats_ (mgr w)) →
  blocks w' = blocks w → (∀ p, header_at w' p = header_at w p) → inv w'.
Proof.
  intros [Hwf [] [Hp1 Hp2] Hap Hhd] Hwf' Ha Hw Ht Hr Hth Hs Hpk1 Hpk2 Hb Hh.
  destruct (allocations_smaller w w' Hwf Hwf' Ha) as [Hm Hlen].
  split; [done| | |by rewrite Hb|].
  - split; rewrite ?Ht, ?Hr, ?Hth; auto.
  - unfold peaks_ok. rewrite Hpk1, Hpk2. lia.
  - intros p h. rewrite Hh. unfold outstanding. rewrite Hb. apply Hhd.
Qed.

(** The blocks whose headers are in [hs] leave the registry. *)
Lemma registered_smaller w w' (hs : list Z) :
  heap_wf w → (∀ kb, kb ∈ allocations w' ↔ kb ∈ allocations w ∧ br_header kb.2 ∉ hs) →
  ∀ p, is_registered w' p ↔ is_registered w p ∧ p ∉ hs.
Proof.
  intros Hwf Ha p. unfold is_registered. setoid_rewrite Ha. split.
  - intros (k & b & [Hin Hn] & <-). eauto.
  - intros [(k & b & Hin & <-) Hn]. eauto.
Qed.

Lemma stats_on_collect_typed n bytes t s :
  is_size n → is_size bytes → Forall is_size (counters s) →
  Forall is_size (counters (stats_on_collect n bytes t s)).
Proof.
  intros Hn Hb Hc. unfold counters in *. rewrite !Forall_cons, Forall_nil in Hc.
  simpl. rewrite !Forall_cons, Forall_nil. split_and!; try apply wrap64_bound; tauto.
Qed.

Section Collect.
Context {ASAN : AsanRuntime} (me : thread_id) (env : CollectEnv) (Henv : env_ok (ce_scan env)).

Lemma inv_roots_ok w : inv w → roots_ok (ce_scan env) w.
Proof.
  intros Hi. destruct (iv_typed w Hi) as [Ht Hr _ _ _]. split; [done| |].
  - intros t s Hin. destruct (Ht t s Hin). done.
  - intros r [? [? ?]]%Hr. unfold is_size. lia.
Qed.

Lemma collected_step L w w' hs :
  inv w → holds L w → collected env me w w' hs → ∃ L', own_step L L' w w' ∧ takes hs L L'.
Proof.
  intros Hi Hl Hc. pose proof (iv_wf w Hi) as Hwf. destruct (co_dead _ _ _ _ _ Hc) as [Hnd Hd].
  pose proof (co_rest _ _ _ _ _ Hc) as Hr. pose proof (co_wf _ _ _ _ _ Hc) as Hwf'.
  assert (∀ p, header_at w' p = header_at w p) as Hh.
  { intros p. pose proof (f_equal (lookup p) (sr_headers _ _ Hr)) as E. simpl in E.
    rewrite !lookup_fmap in E. unfold header_at. by rewrite E. }
  assert (∀ kb, kb ∈ allocations w' ↔ kb ∈ allocations w ∧ br_header kb.2 ∉ hs) as Ha.
  { intros [k b]. rewrite (co_alloc _ _ _ _ _ Hc). simpl. split.
    - intros [Hin Hlv]. split; [done|]. intros (k' & b' & Hin' & Hn & Eh)%Hd.
      by rewrite (wf_header_inj w Hwf _ _ _ _ Hin' Hin Eh) in Hn.
    - intros [Hin Hn]. split; [done|]. destruct (decide ((k, b) ∈ allocations w')) as [Hin'|Hnin].
      + by apply (co_alloc _ _ _ _ _ Hc) in Hin' as [_ ?].
      + exfalso. apply Hn, Hd. exists k, b. split_and!; [done| |done]. intros Hlv. apply Hnin.
        by apply (co_alloc _ _ _ _ _ Hc). }
  assert (∀ p, p ∈ hs → is_registered w p) as Hhs by (intros p (k & b & ? & _ & ?)%Hd; by exists k, b).
  pose proof (collected_batch env me w w' hs Hwf Hc).
  apply own_step_take; [by eapply collected_event| |done|by rewrite <-(sr_blocks _ _ Hr)|done|done
    |by apply registered_smaller|done].
  apply (inv_smaller w); rewrite ?(co_stats _ _ _ _ _ Hc); try done.
  - intros kb. rewrite Ha. by intros [? _].
  - intros e. rewrite (co_weak _ _ _ _ _ Hc). by intros [? _].
  - by rewrite <-(sr_threads _ _ Hr).
  - by rewrite <-(sr_ranges _ _ Hr).
  - by rewrite <-(sr_threshold _ _ Hr).
  - pose proof (wf_managed_max w Hwf). pose proof (managed_nonneg w' Hwf').
    pose proof (blocks_le_managed w Hwf). pose proof (managed_nonneg w Hwf).
    assert (length hs <= length (allocations w))%nat as Hlen.
    { rewrite <-(length_fmap (br_header ∘ snd)). apply submseteq_length, NoDup_submseteq; [done|].
      intros p (k & b & Hin & <-)%Hhs. by apply (list_elem_of_fmap_2' _ _ (k, b)). }
    apply stats_on_collect_typed; [unfold is_size; lia| |apply Hi].
    destruct (allocations_smaller w w' Hwf Hwf') as [Hm _]; [by intros kb [? _]%Ha|].
    unfold is_size. lia.
  - by rewrite <-(sr_blocks _ _ Hr).
Qed.

Lemma collect_locked_owned (Q : result (list Z) → holding → Prop) L :
  (∀ hs L', takes hs L L' → Q (Ok hs) L') → Q (Raise bad_alloc) L → act_owned (collect_locked me env) Q L.
Proof.
  intros HQ Hbad w Hi Hl.
  destruct (collect_locked_cases env me w (iv_wf w Hi) (inv_roots_ok w Hi))
    as [(w' & E & _ & Hq)|(hs & w' & E & Hc)].
  - rewrite E. exists L. split; [|done].
    assert (∀ p, header_at w' p = header_at w p) as Hhq.
    { intros p. pose proof (f_equal (λ w, headers w !! p) (me_erase _ _ Hq)) as E2. simpl in E2.
      by rewrite !lookup_fmap in E2. }
    apply own_step_frame; [|done| |].
    + assert (heap_wf (with_oom (oom w) w')) as Hwf' by by rewrite Hq; apply Hi.
      pose proof (mgr_Proper _ _ Hq) as Em. simpl in Em. pose proof (blocks_Proper _ _ Hq) as Eb. simpl in Eb.
      destruct Hi as [Hwf Ht Hp Hap Hhd]. split; rewrite ?Em, ?Eb; try done; [by eapply heap_wf_ext, Hwf'|].
      intros p h. rewrite Hhq. unfold outstanding. rewrite Eb. apply Hhd.
    + pose proof (mgr_Proper _ _ Hq) as Em. simpl in Em. split.
      * intros p. unfold is_registered. by rewrite Em.
      * intros p. pose proof (blocks_Proper _ _ Hq) as Eb. simpl in Eb. by rewrite Eb.
      * apply Hhq.
    + pose proof (mgr_Proper _ _ Hq) as Em. simpl in Em.
      rewrite (ledger_same w w'); [apply transition_refl|by rewrite Em..|exact (mem_Proper _ _ Hq)|by rewrite Em].
  - rewrite E. destruct (collected_step L w w' hs Hi Hl Hc) as (L' & Hs & Ht). eauto.
Qed.
End Collect.

Lemma shutdown_locked_owned {ASAN : AsanRuntime} (Q : result (list Z) → holding → Prop) L :
  (∀ hs L', takes hs L L' → Q (Ok hs) L') → (∀ e, Q (Raise e) L) → act_owned shutdown_locked Q L.
Proof.
  intros HQ Hbad w Hi Hl. pose proof (iv_wf w Hi) as Hwf.
  destruct (shutdown_locked_cases w Hwf) as [[_ E]|[(_ & _ & o & E)|(Hu & o & hs & E & _ & Hp)]]; rewrite E.
  - exists L. split; [by apply own_step_refl|done].
  - exists L. split; [by apply own_step_still|done].
  - enough (∃ L', own_step L L' w (shut_down w o) ∧ takes hs L L') as (L' & ? & ?) by eauto.
    assert (∀ p, p ∈ hs ↔ is_registered w p) as Hhs.
    { intros p. rewrite Hp, <-list_fmap_compose, list_elem_of_fmap. unfold is_registered. split.
      - intros ([k b] & -> & ?). eauto.
      - intros (k & b & ? & <-). by exists (k, b). }
    apply own_step_take; [by apply shutdown_event| |done|done|done|by apply shut_down_batch| |by intros p ?%Hhs].
    + destruct Hi as [_ [] _ Hap Hhd]. split; [apply shut_down_wf| |done|done|done].
      split; try done; [by intros e ?%elem_of_nil|].
      unfold counters. simpl. rewrite !Forall_cons, Forall_nil. unfold is_size, SIZE_MAX. lia.
    + intros p. rewrite Hhs. split; [|by intros [? ?]].
      by intros (k & b & ?%elem_of_nil & _).
Qed.

(** A block that leaves the registry before it is constructed. *)
Lemma release_locked_owned {ASAN : AsanRuntime} me k (Q : result Z → holding → Prop) L :
  Q (Ok 0) L → (∀ p L', p ≠ 0 → takes [p] L L' → Q (Ok p) L') → (∀ e, Q (Raise e) L) →
  act_owned (release_unconstructed_locked me k) Q L.
Proof.
  intros H0 HQ Hbad w Hi Hl. pose proof (iv_wf w Hi) as Hwf.
  destruct (registered me w) eqn:Hreg.
  2:{ unfold release_unconstructed_locked, require_registered_thread_locked, mbind, M_bind, get. rewrite Hreg.
      exists L. split; [by apply own_step_refl|done]. }
  destruct (sm_find k (allocations w)) as [b|] eqn:Ef.
  2:{ unfold release_unconstructed_locked, require_registered_thread_locked, mbind, M_bind, get.
      rewrite Hreg. cbn [mret M_ret]. rewrite Ef. exists L. split; [by apply own_step_refl|done]. }
  apply sm_find_elem in Ef as Hin.
  rewrite (release_unconstructed_locked_spec me w Hwf k b Hreg Hin).
  enough (∃ L', own_step L L' w (drop_block k b w) ∧ takes [br_header b] L L') as (L' & ? & ?).
  { exists L'. split; [done|]. apply HQ; [|done]. pose proof (wf_extent w Hwf k b Hin). lia. }
  assert (∀ kb, kb ∈ allocations (drop_block k b w) ↔ kb ∈ allocations w ∧ br_header kb.2 ∉ [br_header b]) as Ha.
  { intros [k' b']. change (allocations (drop_block k b w)) with (sm_erase k (allocations w)).
    rewrite elem_of_sm_erase, list_elem_of_singleton by apply wf_sorted, Hwf. simpl.
    split; intros [Hin' Hne]; (split; [done|]); contradict Hne.
    - by eapply (wf_header_inj w Hwf).
    - subst k'. by rewrite (wf_key_inj w Hwf _ _ _ Hin' Hin). }
  apply own_step_take; [by apply release_event| |done|done|done| |by apply registered_smaller|].
  - pose proof (drop_block_wf w Hwf k b Hin). apply (inv_smaller w); try done; [by intros kb [? _]%Ha| |apply Hi].
    intros e. simpl. by intros [_ ?]%list_elem_of_filter.
  - split; [apply NoDup_singleton|]. intros p ->%list_elem_of_singleton.
    destruct (wf_block w Hwf k b Hin) as [_ _ _ (h & Hh & _ & _ & _ & _ & _ & Hbl)]. eauto.
  - intros p ->%list_elem_of_singleton. by exists k, b.
Qed.
