(* ===== verification/Tidiness.v ===== *)
(** * Every operation is tidy

    Every public operation, run by any thread, keeps the invariant at each of
    its steps, never gets stuck except by terminating the program, and leaves
    no storage behind: what it took is registered or given back. *)

From S2P Require Import Prelude Words Memory OrdMap Chunk Manager Heap Scanner Mark Finalize WeakRefs.
From S2P Require Import Sweep Threads Collect CollectSpec Roots Alloc Handles GcNew Diagnostics Contract Ownership Storage.

(** ** Automation *)

Create HintDb tidy discriminated.

(** Walks through a process down to its critical sections. *)
Ltac tidy :=
  repeat first
    [ assumption
    | solve [auto 2 with tidy nocore]
    | apply tidy_done
    | apply tidy_atomic; solve [keeps]
    | apply tidy_locked; [assumption|solve [keeps]]
    | apply tidy_bind; [|intros ?]
    | apply tidy_bind_result; [|intros ?]
    | case_match ].

Lemma tidy_noexcept {ASAN : AsanRuntime} {A} (p : proc A) : Tidy p → Tidy (noexcept p).
Proof. intros Hp. unfold noexcept. tidy. Qed.
#[export] Hint Resolve tidy_noexcept : tidy.

(** ** Destroying a batch *)

Section Destroy.
Context {ASAN : AsanRuntime} (dtor : DestructorFn → Z → proc unit) (dtor_tidy : ∀ d p, Tidy (dtor d p)).

Lemma read_header_owned p r h (Q : result ChunkHeader → holding → Prop) L :
  L !! p = Some r → rb_header r = Some h → (∀ h', Q (Ok h') L) → act_owned (read_header p) Q L.
Proof.
  intros Hp Hh HQ w Hi Hl. destruct (hb_header _ _ _ (Hl p r Hp) h Hh) as [E _].
  unfold header_at, read_header in *. destruct (headers w !! p); [|done].
  exists L. split; [by apply own_step_refl|done].
Qed.

Lemma finalize_block_owned p r h L :
  L !! p = Some r → rb_header r = Some h →
  owned (finalize_block dtor p) (λ r L', r = Ok tt ∧ L' = L) L.
Proof.
  intros Hp Hh. unfold finalize_block. case_match; [done|]. apply owned_bind.
  eapply read_header_owned; [done..|]. intros h'. simpl. case_match; [done|].
  intros w Hi Hl. exists L. split; [by apply own_step_still|].
  simpl. apply owned_tidy_bind_result; [exact (dtor_tidy _ _)|]. by intros [[]|e].
Qed.

(** The finalizers run with the whole batch in hand; then it is freed. *)
Lemma finalize_blocks_owned hs L :
  (∀ p, p ∈ hs → ∃ r h, L !! p = Some r ∧ rb_header r = Some h) →
  owned (finalize_blocks dtor hs) (λ r L', r = Ok tt ∧ L' = L) L.
Proof.
  induction hs as [|p hs IH]; intros Hh; [done|]. cbn [finalize_blocks]. apply owned_bind.
  destruct (Hh p) as (r & h & Hp & E); [left|]. eapply owned_mono; [|by eapply finalize_block_owned].
  intros r' L' [-> ->]. apply IH. intros q Hq. apply Hh. by right.
Qed.

Lemma free_blocks_owned hs L L' :
  takes hs L L' → owned (free_blocks hs) (λ r L1, r = Ok tt ∧ L1 = L) L'.
Proof.
  revert L'. induction hs as [|p hs IH]; intros L' Ht; cbn [free_blocks].
  - by rewrite (takes_nil _ _ Ht).
  - apply owned_bind. destruct (tk_new _ _ _ Ht p) as (_ & r & h & Hp & Hh); [left|].
    eapply free_owned; [done..|]. by apply IH, takes_cons.
Qed.

Lemma destroy_blocks_owned hs L L' :
  takes hs L L' → owned (destroy_blocks dtor hs) (λ r L1, r = Ok tt ∧ L1 = L) L'.
Proof.
  intros Ht. unfold destroy_blocks. apply owned_bind.
  eapply owned_mono; [|apply finalize_blocks_owned; intros p Hp; by apply Ht].
  intros r L1 [-> ->]. by apply free_blocks_owned.
Qed.

(** ** Collection and shutdown *)

Context (me : thread_id) (env : CollectEnv).
Context (Hscan : env_ok (ce_scan env)) (Hpark : park_typed (ce_park env)).

Lemma tidy_release : Tidy release_stop_the_world.
Proof. apply tidy_atomic, keeps_set_stw. Qed.
Hint Resolve tidy_release : tidy.

Lemma destroy_then_release_owned hs L L' :
  takes hs L L' → owned (destroy_blocks dtor hs;; release_stop_the_world) (λ _ L1, L1 = L) L'.
Proof.
  intros Ht. apply owned_bind. eapply owned_mono; [|by apply destroy_blocks_owned].
  intros r L1 [-> ->]. apply tidy_release.
Qed.

Lemma tidy_collect : Tidy (collect dtor me env).
Proof.
  unfold collect, collect_enter, request_stop_the_world. apply tidy_bind; [tidy|]. intros [|]; simpl; [|tidy].
  intros L. simpl. apply collect_locked_owned; [done| |].
  - intros hs L'. apply destroy_then_release_owned.
  - by apply (tidy_bind release_stop_the_world (λ _, raise bad_alloc) tidy_release (λ _, tidy_done _)).
Qed.

Lemma tidy_shutdown : Tidy (shutdown dtor me env).
Proof.
  unfold shutdown, shutdown_enter, request_stop_the_world. apply tidy_bind; [tidy|]. intros [|]; simpl; [|tidy].
  intros L. simpl. apply shutdown_locked_owned.
  - intros hs L'. apply destroy_then_release_owned.
  - intros e. by apply (tidy_bind release_stop_the_world (λ _, raise e) tidy_release (λ _, tidy_done _)).
Qed.

Lemma tidy_collect_if_needed n : Tidy (collect_if_needed dtor me env n).
Proof. pose proof tidy_collect. unfold collect_if_needed, collection_needed. tidy. Qed.

(** ** Allocation *)

Context {ALLOC : Allocator}.

(** A block of storage no longer known to the allocator only. *)
Lemma operator_new_retry_owned n a L :
  owned (operator_new_retry dtor me env n a) (λ r L', match r with
    | Ok p => placed p n a ∧ L !! p = None ∧ L' = <[p := {| rb_size := n; rb_alignment := a; rb_header := None |}]> L
    | Raise _ => L' = L end) L.
Proof.
  unfold operator_new_retry. apply owned_bind_result. simpl.
  apply operator_new_owned; [done|]. apply owned_tidy_bind; [apply tidy_collect| |done].
  intros _. simpl. by apply operator_new_owned.
Qed.

Lemma make_header_typed size k d :
  0 <= k <= 15 → is_size size → header_typed (make_header size (2 ^ Z.max k 4) (layout_offset k) d).
Proof.
  intros Hk Hs. split; [done|done| |].
  - rewrite make_header_offset by done. pose proof (layout_offset_bound k Hk). unfold sizeof_ChunkHeader in *. lia.
  - simpl. pose proof (Z.mod_pos_bound (countr_zero (2 ^ Z.max k 4)) (2 ^ 8)). lia.
Qed.

Lemma tidy_allocate_block size k d c :
  0 <= k <= 15 → 0 < size → layout_offset k + size <= SIZE_MAX →
  Tidy (allocate_block dtor me env size (2 ^ Z.max k 4) (layout_offset k) d c).
Proof.
  intros Hk Hs Hfit L. pose proof (layout_offset_bound k Hk) as Hb. unfold sizeof_ChunkHeader in Hb.
  assert (is_size size) as Hsz by (unfold is_size; lia).
  unfold allocate_block. rewrite wrap64_size by (unfold is_size; lia). apply owned_bind.
  eapply owned_mono; [|apply operator_new_retry_owned]. intros [raw|e] L'; [|done].
  intros ((Hp & Hend & _) & Hraw & ->). apply owned_bind, owned_atomic.
  eapply set_header_owned; [apply lookup_insert_eq|by apply make_header_alignment|by apply make_header_typed|].
  rewrite insert_insert_eq. cbv beta iota. set (r := {| rb_size := _ |}).
  assert (delete raw (<[raw := r]> L) = L) as Hdel by by apply delete_insert_id.
  assert (∀ e : exn, owned (atomic (free_block_memory raw);; raise e : proc Z) (λ _ L', L' = L) (<[raw := r]> L)) as Hundo.
  { intros e. apply owned_bind, owned_atomic. eapply free_owned; [apply lookup_insert_eq|done|done]. }
  apply owned_bind_result, owned_locked; [done|done|].
  apply (publish_owned me raw size k d c); [done..|apply lookup_insert_eq|exact Hdel|exact Hundo].
Qed.

Lemma tidy_malloc_internal size alignment d c :
  is_size size → is_size alignment → Tidy (malloc_internal dtor me env size alignment d c).
Proof.
  intros Hs Ha. unfold malloc_internal.
  destruct (Z.eqb_spec size 0) as [|Hne]; simpl; [tidy|].
  destruct (has_single_bit alignment) eqn:Hb; simpl; [|tidy].
  apply has_single_bit_spec in Hb as (k & Hk & ->); [|done].
  apply tidy_bind; [tidy|]. intros _. destruct (layout_ok k Hk) as [-> _].
  destruct (_ || _) eqn:E; [tidy|]. apply orb_false_iff in E as [E1%Z.ltb_ge E2].
  apply add_would_overflow_false in E2. rewrite normalize_pow2 by lia.
  assert (k <= 15).
  { destruct (Z.le_gt_cases k 15); [done|]. pose proof (layout_offset_big k ltac:(lia)). lia. }
  unfold is_size in *. apply tidy_allocate_block; lia.
Qed.

Lemma finish_owned p (Q : result unit → holding → Prop) L :
  (∀ r, Q r L) → act_owned (finish_construction_locked p) Q L.
Proof.
  intros HQ w Hi Hl. unfold finish_construction_locked. rewrite M_bind_get.
  destruct (sm_find p (allocations w)) as [bp|] eqn:Ep; [|exists L; split; [by apply own_step_refl|done]].
  exists L. split; [|done].
  apply sm_find_elem in Ep. destruct Hi as [Hwf Ht Hp Hap Hhd].
  assert (∀ kb, kb ∈ sm_alter (set_constructing false) p (allocations w) → ∃ b, (kb.1, b) ∈ allocations w ∧
    br_header b = br_header kb.2) as Hin.
  { intros [k b] [Hin|(b' & Hin & [= -> ->])]%sm_alter_elem; eauto. }
  apply own_step_frame; [|done| |right; by eapply finish_event].
  - split; [by apply finished_wf|by destruct Ht| |done|done]. unfold peaks_ok in *. simpl.
    by rewrite <-(length_fmap fst), sm_keys_alter, length_fmap.
  - split; [|done|done]. intros q. unfold is_registered. simpl. split.
    + intros (k & b & (b' & Hb' & Eb)%Hin & <-). by exists k, b'.
    + intros (k & b & Hkb & <-). pose proof Hkb as Hkb'. apply (sm_elem_find _ _ _ (wf_sorted w Hwf)) in Hkb'.
      assert (sm_find k (sm_alter (set_constructing false) p (allocations w)) =
        Some (if k =? p then set_constructing false b else b)) as Ef.
      { rewrite sm_find_alter. destruct (Z.eqb_spec k p) as [->|]; by rewrite Hkb'. }
      apply sm_find_elem in Ef. eexists k, _. split; [done|]. by case_match.
Qed.
Lemma tidy_finish_construction p : Tidy (finish_construction me env p).
Proof. intros L. apply owned_locked; [done..|]. by apply finish_owned. Qed.

Lemma tidy_release_unconstructed p : Tidy (release_unconstructed me env p).
Proof.
  unfold release_unconstructed. case_match; [tidy|]. intros L. apply owned_bind, owned_locked; [done..|].
  apply release_locked_owned; [done| |done]. intros hd L' Hne Ht.
  destruct (Z.eqb_spec hd 0); [done|]. simpl. destruct (tk_new _ _ _ Ht hd) as (_ & r & h & Hp & Hh); [left|].
  eapply free_owned; [done..|]. by apply takes_cons, takes_nil in Ht.
Qed.
End Destroy.
#[export] Hint Resolve tidy_release tidy_collect tidy_shutdown tidy_collect_if_needed tidy_malloc_internal
  tidy_finish_construction tidy_release_unconstructed : tidy.

(** ** Inspections *)

(** Bodies that read only, at a world that satisfies the invariant. *)
Definition quietly {A} (act : M World A) (w : World) : Prop :=
  match act w with
  | Ret _ w' | Throw _ w' => still w w'
  | Stuck why => why = Terminated
  end.

Lemma quietly_bind {A B} (m : M World A) (f : A → M World B) w :
  quietly m w → (∀ a w', still w w' → quietly (f a) w') → quietly (m ≫= f) w.
Proof.
  unfold quietly, mbind, M_bind. intros Hm Hf. destruct (m w) as [a w1|e w1|why]; [|done..].
  specialize (Hf a w1 Hm). destruct (f a w1); [by eapply still_trans..|done].
Qed.

Lemma quietly_foldM {A B} (f : A → B → M World B) l b w :
  (∀ a b w', a ∈ l → still w w' → quietly (f a b) w') → quietly (foldM f l b) w.
Proof.
  revert b w. induction l as [|a l IH]; intros b w Hf; [by apply still_refl|]. simpl.
  apply quietly_bind; [apply Hf; [left|done]|]. intros b' w' Hs. apply IH.
  intros a' b'' w'' Hin Hs'. apply Hf; [by right|by eapply still_trans].
Qed.

Lemma quietly_native_alloc w : quietly native_alloc w.
Proof. unfold quietly. pose proof (native_alloc_still w). by destruct (native_alloc w). Qed.

Lemma quietly_read_header w k b :
  inv w → (k, b) ∈ allocations w → quietly (read_header (br_header b)) w.
Proof.
  intros Hi Hin. destruct (wf_read_header w (iv_wf w Hi) k b Hin) as (h & Hh & _).
  unfold quietly, read_header. by rewrite Hh.
Qed.

Lemma quietly_get {B} (f : World → M World B) w : quietly (f w) w → quietly (get ≫= f) w.
Proof. done. Qed.

Lemma quietly_outgoing_reference self c refs w : inv w → quietly (outgoing_reference self c refs) w.
Proof.
  intros Hi. apply quietly_get. destruct (find_block_locked _ c) as [[k b]|] eqn:E; [|by apply still_refl].
  apply find_block_elem in E as [Hin _]. case_match; [by apply still_refl|].
  apply quietly_bind; [by eapply quietly_read_header|]. intros h w1 Hs. cbv beta zeta. case_match; [by apply still_refl|].
  apply quietly_bind; [apply quietly_native_alloc|]. intros _ w2 _. by apply still_refl.
Qed.

Lemma quietly_describe k b w : inv w → (k, b) ∈ allocations w → quietly (describe_block_locked k b) w.
Proof.
  intros Hi Hin. unfold describe_block_locked, collect_outgoing_references_locked.
  apply quietly_bind; [by eapply quietly_read_header|]. intros h w1 Hs1. apply quietly_bind; [|done].
  pose proof (inv_still w w1 Hi Hs1) as Hi1. rewrite <-(st_mgr _ _ Hs1) in Hin.
  apply quietly_bind.
  - unfold quietly, read_payload_words. by rewrite (wf_payload_words w1 (iv_wf w1 Hi1) k b Hin).
  - intros ws w2 Hs2. apply quietly_foldM. intros c refs w3 _ Hs3. apply quietly_outgoing_reference.
    by eapply inv_still, Hs3; eapply inv_still, Hs2.
Qed.

Lemma keeps_describe_all {ASAN : AsanRuntime} : keeps describe_all_locked.
Proof.
  apply keeps_still. intros w Hi. change (quietly describe_all_locked w).
  apply quietly_bind; [apply quietly_native_alloc|]. intros _ w1 Hs1. pose proof (inv_still w w1 Hi Hs1) as Hi1.
  apply quietly_get, quietly_foldM. intros [k b] acc w2 Hin Hs2. apply quietly_bind; [|done].
  apply quietly_describe; [by eapply inv_still|by rewrite (st_mgr _ _ Hs2)].
Qed.

Lemma keeps_object_info {ASAN : AsanRuntime} p : keeps (object_info_locked p).
Proof.
  apply keeps_still. intros w Hi. change (quietly (object_info_locked p) w). apply quietly_get.
  destruct (find_block_locked _ p) as [[k b]|] eqn:E; [|by apply still_refl].
  apply find_block_elem in E as [Hin _]. apply quietly_bind; [by apply quietly_describe|by intros info w1 _].
Qed.

(** ** The thread registry *)

Section Threads.
Context {ASAN : AsanRuntime} (me : thread_id) (env : ParkEnv) (Hpark : park_typed env).

Lemma keeps_assign_stack_bottom sb : is_size sb → keeps (assign_stack_bottom me sb).
Proof.
  intros Hsb. assert (is_size 0) by (unfold is_size, SIZE_MAX; lia).
  apply keeps_bind; [keeps|]. intros w. apply keeps_bind; [keeps|]. intros _.
  apply keeps_set_threads. intros g Hg t s.
  assert (∀ t s, (t, s) ∈ sm_emplace me ThreadState_init (threads_ g) → thread_typed s) as Hem.
  { intros t' s' [[= -> ->]|Hin]%elem_of_sm_emplace; [|by eapply ty_threads].
    split; [done..|by apply Forall_nil]. }
  intros [Hin|(s0 & Hin & [= -> ->])]%sm_alter_elem; [by eapply Hem|].
  destruct (Hem _ _ Hin). by split.
Qed.

Lemma tidy_register_stack_bottom sb : is_size sb → Tidy (register_stack_bottom me env sb).
Proof. intros Hsb. pose proof (keeps_assign_stack_bottom sb Hsb). unfold register_stack_bottom. tidy. Qed.

(** The stack end the platform gives is a machine address. *)
Definition limits_typed (limits : StackLimits) : Prop :=
  match limits with
  | Apple_stack high | Windows_stack _ high => is_size high
  | Linux_stack _ | Unsupported_stack => True
  end.

Lemma tidy_register_current_thread limits : limits_typed limits → Tidy (register_current_thread me env limits).
Proof.
  intros Ht. unfold register_current_thread, detect_current_thread_stack_bottom, detect_stack_bottom_linux,
    detect_stack_bottom_apple, detect_stack_bottom_windows.
  repeat (case_match; simplify_eq); try apply tidy_done; apply tidy_register_stack_bottom; [apply wrap64_bound|done..].
Qed.

Lemma tidy_unregister : Tidy (unregister_current_thread me env).
Proof.
  apply tidy_locked; [done|]. apply keeps_set_threads. intros g Hg t s Hin.
  apply (ty_threads g Hg t). clear Hg. induction (threads_ g) as [|[t' s'] l IH]; [done|]. simpl in Hin.
  destruct (me =? t'); [by right|]. apply elem_of_cons in Hin as [->|?]; [by left|right; auto].
Qed.

Lemma tidy_is_registered : Tidy (is_current_thread_registered me env).
Proof. unfold is_current_thread_registered. tidy. Qed.

Lemma tidy_safepoint : Tidy (safepoint me env).
Proof. unfold safepoint. tidy. Qed.
#[local] Hint Resolve tidy_register_stack_bottom tidy_register_current_thread tidy_unregister tidy_is_registered : tidy.

Lemma tidy_ScopedThreadRegistration limits :
  limits_typed limits → Tidy (ScopedThreadRegistration me env limits).
Proof. intros Ht. unfold ScopedThreadRegistration. tidy. Qed.

Lemma tidy_ScopedThreadRegistration_at sb : is_size sb → Tidy (ScopedThreadRegistration_at me env sb).
Proof. intros Hsb. unfold ScopedThreadRegistration_at. tidy. Qed.

Lemma tidy_destroy_ScopedThreadRegistration b : Tidy (destroy_ScopedThreadRegistration me env b).
Proof. unfold destroy_ScopedThreadRegistration. tidy. Qed.

(** ** Diagnostics *)

Lemma tidy_inspect {A} (body : M World A) : keeps body → Tidy (inspect me env body).
Proof.
  intros Hb. unfold inspect, inspect_enter, request_stop_the_world. apply tidy_bind; [tidy|]. intros [a|]; [tidy|].
  intros L. simpl. apply keeps_owned; [|done]. intros r.
  apply (tidy_bind release_stop_the_world _ tidy_release). intros _. destruct r; tidy.
Qed.

Lemma tidy_live_objects : Tidy (live_objects me env).
Proof. apply tidy_inspect, keeps_describe_all. Qed.

Lemma tidy_object_info p : Tidy (object_info me env p).
Proof. unfold object_info. case_match; [tidy|]. apply tidy_inspect, keeps_object_info. Qed.

Lemma tidy_stats : Tidy (stats me env).
Proof. unfold stats. tidy. Qed.
#[local] Hint Resolve tidy_live_objects tidy_stats : tidy.

Lemma tidy_dump_heap : Tidy (dump_heap me env).
Proof. unfold dump_heap. tidy. Qed.

Lemma tidy_is_live p : Tidy (is_live me env p).
Proof. unfold is_live. tidy. Qed.

Lemma tidy_set_threshold t : is_size t → Tidy (set_collection_threshold_bytes me env t).
Proof. intros Ht. apply tidy_locked; [done|]. by apply keeps_set_threshold. Qed.

(** ** Roots *)

Lemma normalize_range_typed b e :
  is_size b → is_size e → empty_range b e = false → range_typed (normalize_range b e).
Proof.
  unfold is_size, empty_range, normalize_range, range_typed. intros Hb He.
  destruct (Z.eqb_spec b 0), (Z.eqb_spec e 0), (Z.eqb_spec b e), (Z.ltb_spec e b); simpl; try done; lia.
Qed.

Lemma tidy_register_root_range b e : is_size b → is_size e → Tidy (register_root_range me env b e).
Proof.
  intros Hb He. unfold register_root_range. destruct (empty_range b e) eqn:E; [tidy|].
  apply tidy_locked_after; [done| |by right|keeps]. apply keeps_bind; [keeps|]. intros _.
  apply keeps_set_ranges; [|intros l; apply range_change_snoc]. intros g Hg r [Hin| ->%list_elem_of_singleton]%elem_of_app; [by eapply ty_ranges|by apply normalize_range_typed].
Qed.

Lemma tidy_unregister_root_range b e : Tidy (unregister_root_range me env b e).
Proof.
  unfold unregister_root_range. case_match; [tidy|]. apply tidy_locked; [done|].
  apply keeps_set_ranges; [|intros l; apply range_change_erase]. intros g Hg r Hin. apply (ty_ranges g Hg). clear Hg.
  induction (registered_root_ranges_ g) as [|r' l IH]; [done|]. simpl in Hin. case_decide; [by right|].
  apply elem_of_cons in Hin as [->|?]; [by left|right; auto].
Qed.
#[local] Hint Resolve tidy_register_root_range tidy_unregister_root_range wrap64_bound : tidy.

Lemma tidy_register_root_object o n : is_size o → Tidy (register_root_object me env o n).
Proof. intros Ho. unfold register_root_object. tidy. Qed.

Lemma tidy_unregister_root_object o n : Tidy (unregister_root_object me env o n).
Proof. unfold unregister_root_object. tidy. Qed.
#[local] Hint Resolve tidy_register_root_object tidy_unregister_root_object : tidy.

Lemma tidy_ScopedRootRange_reset this b e : is_size b → is_size e → Tidy (ScopedRootRange_reset me env this b e).
Proof. intros Hb He. unfold ScopedRootRange_reset. tidy. Qed.

Lemma tidy_ScopedRootObject_reset n o o' : is_size o' → Tidy (ScopedRootObject_reset me env n o o').
Proof. intros Ho. unfold ScopedRootObject_reset. tidy. Qed.

Lemma tidy_read_word a : Tidy (atomic (read_word a)).
Proof. unfold read_word. tidy. Qed.
#[local] Hint Resolve tidy_read_word : tidy.

Lemma tidy_gc_root_new self p : is_size self → Tidy (gc_root_new me env self p).
Proof. intros Hs. unfold gc_root_new, register_self. tidy. Qed.
#[local] Hint Resolve tidy_gc_root_new : tidy.

Lemma tidy_gc_root_copy self other : is_size self → Tidy (gc_root_copy me env self other).
Proof. intros Hs. unfold gc_root_copy. tidy. Qed.
#[local] Hint Resolve tidy_gc_root_copy : tidy.

Lemma tidy_gc_root_move self other : is_size self → Tidy (gc_root_move me env self other).
Proof. intros Hs. unfold gc_root_move. tidy. Qed.

Lemma tidy_gc_root_assign self other : Tidy (gc_root_assign self other).
Proof. unfold gc_root_assign. tidy. Qed.

Lemma tidy_gc_root_move_assign self other : Tidy (gc_root_move_assign self other).
Proof. unfold gc_root_move_assign. tidy. Qed.

Lemma tidy_gc_root_destroy self : Tidy (gc_root_destroy me env self).
Proof. unfold gc_root_destroy, unregister_self. tidy. Qed.
End Threads.
#[export] Hint Resolve tidy_register_stack_bottom tidy_register_current_thread tidy_unregister tidy_is_registered
  tidy_safepoint tidy_ScopedThreadRegistration tidy_ScopedThreadRegistration_at
  tidy_destroy_ScopedThreadRegistration tidy_live_objects tidy_object_info tidy_stats tidy_dump_heap tidy_is_live
  tidy_set_threshold tidy_register_root_range tidy_unregister_root_range tidy_register_root_object
  tidy_unregister_root_object tidy_ScopedRootRange_reset tidy_ScopedRootObject_reset tidy_read_word
  tidy_gc_root_new tidy_gc_root_copy tidy_gc_root_move tidy_gc_root_assign tidy_gc_root_move_assign
  tidy_gc_root_destroy wrap64_bound : tidy.

(** ** Weak handles *)

(** A change of the weak table: old entries, or new ones that point into a block. *)
Lemma table_step {ASAN : AsanRuntime} L w w' f :
  inv w → holds L w → mgr w' = set_weak_refs f (mgr w) → headers w' = headers w → blocks w' = blocks w →
  (∀ e, e ∈ f (weak_refs w) → is_size (we_storage e) ∧
     (e ∈ weak_refs w ∨ points_into (allocations w) (we_target e))) →
  handle_change (ledger w) (weak_refs w) (f (weak_refs w)) → desk_step L w w'.
Proof.
  intros Hi Hl Em Hh Hb Hf Hc. apply desk_step_heap; [done|done| |]; rewrite ?Em.
  - split; rewrite ?Em; simpl; auto; [intros e He; by apply Hf|]. intros m. by apply (bookkeeping_handles (ledger w)).
  - destruct (iv_typed w Hi). split; try done. intros e He. by apply Hf.
Qed.

Lemma push_weak_ref_step {ASAN : AsanRuntime} w e :
  inv w → is_size (we_storage e) → points_into (allocations w) (we_target e) →
  ∃ o, (push_weak_ref e w = Throw bad_alloc (with_oom o w)) ∨
    (push_weak_ref e w = Ret tt (set_mgr (set_weak_refs (λ l, l ++ [e])) (with_oom o w)) ∧
     ∀ L w', holds L w → still (set_mgr (set_weak_refs (λ l, l ++ [e])) (with_oom o w)) w' → desk_step L w w').
Proof.
  intros Hi Hs Hp. destruct (native_alloc_cases w) as [(o & E & _)|(o & E & _)]; exists o.
  - right. split; [unfold push_weak_ref; by mstep E|]. intros L w' Hl [Em Eh Eb].
    apply (table_step L w w' (λ l, l ++ [e])); [done..| |].
    2:{ left. exists e. split; [|by rewrite Permutation_app_comm]. destruct Hp as (k & b & Hin & Ha). exists k.
        apply within_ledger; [apply Hi|by exists b]. }
    intros e' [He'| ->%list_elem_of_singleton]%elem_of_app.
    + split; [by eapply (ty_weak _ (iv_typed w Hi))|by left].
    + split; [done|by right].
  - left. unfold push_weak_ref. by mthrow E.
Qed.

Lemma keeps_register_weak_ref {ASAN : AsanRuntime} t s : is_size s → keeps (register_weak_ref t s).
Proof.
  intros Hs. apply keeps_intro. intros w Hi. unfold register_weak_ref.
  destruct (s =? 0); [intros L Hl; by apply desk_step_refl|]. rewrite M_bind_get.
  destruct (find_block_locked _ t) as [kb|] eqn:E; [|intros L Hl; by apply desk_step_still].
  assert (points_into (allocations w) t) as Hp by (apply find_block_points_into; [apply Hi|by eexists]).
  destruct (push_weak_ref_step w {| we_target := t; we_storage := s |} Hi Hs Hp) as (o & [-> | [-> Hstep]]);
    intros L Hl; [by apply desk_step_still|by apply Hstep].
Qed.

Lemma find_weak_points w s i e :
  inv w → find_weak s (weak_refs w) = Some (i, e) → e ∈ weak_refs w ∧ points_into (allocations w) (we_target e).
Proof.
  intros Hi [Hin%list_elem_of_lookup_2 _]%find_weak_Some. split; [done|]. by apply (wf_weak w (iv_wf w Hi)).
Qed.

Lemma keeps_copy_weak_ref {ASAN : AsanRuntime} s s' : is_size s' → keeps (copy_weak_ref s s').
Proof.
  intros Hs. apply keeps_intro. intros w Hi. unfold copy_weak_ref. rewrite M_bind_get.
  destruct (find_weak s _) as [[i e]|] eqn:E; [|intros L Hl; by apply desk_step_still].
  apply find_weak_points in E as [_ Hp]; [|done].
  destruct (push_weak_ref_step w {| we_target := we_target e; we_storage := s' |} Hi Hs Hp)
    as (o & [Ep|[Ep Hstep]]).
  - mthrow Ep. intros L Hl. by apply desk_step_still.
  - mstep Ep. intros L Hl. by apply Hstep.
Qed.

Lemma keeps_update_weak_ref {ASAN : AsanRuntime} s s' : is_size s' → keeps (update_weak_ref s s').
Proof.
  intros Hs. apply keeps_intro. intros w Hi. unfold update_weak_ref. rewrite M_bind_get.
  destruct (find_weak s _) as [[i e]|] eqn:E; [|intros L Hl; by apply desk_step_still].
  pose proof E as [Hi' _]%find_weak_Some. apply find_weak_points in E as [Hin Hp]; [|done]. intros L Hl.
  eapply (table_step L w _ (λ l, <[i := {| we_target := we_target e; we_storage := s' |}]> l)); [done..| |].
  2:{ right; right. exists e, {| we_target := we_target e; we_storage := s' |}, (delete i (weak_refs w)). split_and!.
      - destruct Hp as (k & b & Hb & Ha). exists k. apply within_ledger; [apply Hi|by exists b].
      - by apply delete_Permutation.
      - rewrite insert_take_drop by by eapply lookup_lt_Some. by rewrite delete_take_drop, <-Permutation_middle. }
  intros e' [j Hj]%list_elem_of_lookup. apply list_lookup_insert_Some in Hj as [(_ & <- & _)|[_ Hj]]; [by auto|].
  apply list_elem_of_lookup_2 in Hj. split; [by eapply (ty_weak _ (iv_typed w Hi))|by left].
Qed.

Lemma keeps_unregister_weak_ref {ASAN : AsanRuntime} s : keeps (unregister_weak_ref s).
Proof.
  apply keeps_intro. intros w Hi. unfold unregister_weak_ref. rewrite M_bind_get.
  destruct (find_weak s _) as [[i e]|] eqn:E; [|intros L Hl; by apply desk_step_refl].
  apply find_weak_Some in E as [Hin _]. intros L Hl.
  apply (table_step L w _ (swap_pop i)); [done..| |].
  2:{ right; left. exists e. symmetry. by apply swap_pop_perm. }
  intros e' He'.
  assert (e' ∈ weak_refs w) as He by (rewrite <-(swap_pop_perm _ _ _ Hin); by right).
  split; [by eapply (ty_weak _ (iv_typed w Hi))|by left].
Qed.

Lemma keeps_read_weak_ref {ASAN : AsanRuntime} s : keeps (read_weak_ref s).
Proof. unfold read_weak_ref. keeps. Qed.
#[export] Hint Resolve keeps_register_weak_ref keeps_copy_weak_ref keeps_update_weak_ref
  keeps_unregister_weak_ref keeps_read_weak_ref : keeps.

Section Weak.
Context {ASAN : AsanRuntime} (me : thread_id) (env : ParkEnv) (Hpark : park_typed env).
Context (self : Z) (Hself : is_size self).

Lemma tidy_gc_weak_ptr_new p : Tidy (gc_weak_ptr_new me env self p).
Proof. unfold gc_weak_ptr_new. tidy. Qed.

Lemma tidy_gc_weak_ptr_destroy : Tidy (gc_weak_ptr_destroy me env self).
Proof. unfold gc_weak_ptr_destroy, noexcept. tidy. Qed.

Lemma tidy_gc_weak_ptr_copy other : Tidy (gc_weak_ptr_copy me env self other).
Proof. unfold gc_weak_ptr_copy. tidy. Qed.

Lemma tidy_gc_weak_ptr_take other : Tidy (gc_weak_ptr_take me env self other).
Proof. unfold gc_weak_ptr_take. tidy. Qed.
Hint Resolve tidy_gc_weak_ptr_take : tidy.

Lemma tidy_gc_weak_ptr_move other : Tidy (gc_weak_ptr_move me env self other).
Proof. unfold gc_weak_ptr_move. tidy. Qed.

Lemma tidy_gc_weak_ptr_reset : Tidy (gc_weak_ptr_reset me env self).
Proof. unfold gc_weak_ptr_reset, noexcept. tidy. Qed.
Hint Resolve tidy_gc_weak_ptr_reset : tidy.

Lemma tidy_gc_weak_ptr_move_assign other : Tidy (gc_weak_ptr_move_assign me env self other).
Proof. unfold gc_weak_ptr_move_assign, noexcept. tidy. Qed.

Lemma tidy_gc_weak_ptr_lock : Tidy (gc_weak_ptr_lock me env self).
Proof. unfold gc_weak_ptr_lock, noexcept. tidy. Qed.

Lemma tidy_gc_weak_ptr_expired : Tidy (gc_weak_ptr_expired me env self).
Proof. unfold gc_weak_ptr_expired, noexcept. tidy. Qed.
End Weak.
#[export] Hint Resolve tidy_gc_weak_ptr_new tidy_gc_weak_ptr_destroy tidy_gc_weak_ptr_copy tidy_gc_weak_ptr_take
  tidy_gc_weak_ptr_move tidy_gc_weak_ptr_reset tidy_gc_weak_ptr_move_assign tidy_gc_weak_ptr_lock
  tidy_gc_weak_ptr_expired : tidy.

Section WeakAssign.
Context {ASAN : AsanRuntime} (me : thread_id) (env : ParkEnv) (Hpark : park_typed env).
Context (self tmp : Z) (Hself : is_size self) (Htmp : is_size tmp).

Lemma tidy_gc_weak_ptr_copy_assign other : Tidy (gc_weak_ptr_copy_assign me env self other tmp).
Proof. unfold gc_weak_ptr_copy_assign. tidy. Qed.

Lemma tidy_gc_weak_ptr_assign p : Tidy (gc_weak_ptr_assign me env self p tmp).
Proof. unfold gc_weak_ptr_assign. tidy. Qed.
End WeakAssign.
#[export] Hint Resolve tidy_gc_weak_ptr_copy_assign tidy_gc_weak_ptr_assign : tidy.

(** ** Objects and arrays *)

Section New.
Context {ASAN : AsanRuntime} {ALLOC : Allocator}.
Context (dtor : DestructorFn → Z → proc unit) (dtor_tidy : ∀ d p, Tidy (dtor d p)).
Context (me : thread_id) (env : CollectEnv) (Hscan : env_ok (ce_scan env)) (Hpark : park_typed (ce_park env)).

Lemma tidy_nothrow p : Tidy p → Tidy (nothrow p).
Proof. intros Hp. unfold nothrow. tidy. Qed.

Lemma tidy_gc_new n a d ctor :
  is_size n → is_size a → (∀ p, Tidy (ctor p)) → Tidy (gc_new dtor me env n a d ctor).
Proof. intros Hn Ha Hc. unfold gc_new. tidy; apply Hc. Qed.

Section Array.
Context (n a : Z) (Hn : is_size n) (Ha : is_size a).
Context (construct : Z → nat → proc unit) (construct_tidy : ∀ p i, Tidy (construct p i)).
Context (elem_dtor : Z → proc unit) (elem_dtor_tidy : ∀ p, Tidy (elem_dtor p)).

Lemma tidy_construct_elements p k i : Tidy (construct_elements n a construct p k i).
Proof. revert i. induction k as [|k IH]; intros i; cbn [construct_elements]; tidy; apply construct_tidy. Qed.

Lemma tidy_destroy_elements p k : Tidy (destroy_elements n a elem_dtor p k).
Proof. induction k as [|k IH]; cbn [destroy_elements]; tidy; apply elem_dtor_tidy. Qed.
#[local] Hint Resolve tidy_construct_elements tidy_destroy_elements : tidy.

Lemma tidy_ArrayDestructor_destroy p : Tidy (ArrayDestructor_destroy n a elem_dtor p).
Proof. unfold ArrayDestructor_destroy. tidy. Qed.
#[local] Hint Resolve tidy_ArrayDestructor_destroy : tidy.

Lemma tidy_construct_array count d : Tidy (construct_array dtor me env n a count d construct elem_dtor).
Proof.
  unfold construct_array, construct_payload. pose proof tidy_malloc_internal.
  assert (is_size 8) by (unfold is_size, SIZE_MAX; lia). tidy; eauto with tidy.
Qed.
End Array.
End New.
#[export] Hint Resolve tidy_nothrow tidy_gc_new tidy_construct_array : tidy.
