(* ===== verification/VectorStorage.v ===== *)
(** * The storage of a vector

    A thread that works on a [gc_vector] holds its storage.  Every operation of
    the vector, run by any thread, keeps the invariant of the collector at each
    of its steps and ends with the storage of the vector it returns in hand,
    whatever it took meanwhile given back; when it throws, with the storage it
    began with.  The destructor gives the storage back, so a program in which
    vectors live and die is [Tidy]. *)

From S2P Require Import Prelude Words Memory OrdMap Chunk Manager Heap Scanner Mark Finalize WeakRefs.
From S2P Require Import Sweep Threads Protocol Collect CollectSpec Roots Alloc Handles GcNew Vector Slots VectorSpec Disciplines.
From S2P Require Import Ownership Storage Tidiness.

(** ** Storage in hand *)

Definition storage_of (n : Z) : raw_block :=
  {| rb_size := sizeof_gc_root * n; rb_alignment := default_new_alignment; rb_header := None |}.

(** [L] is [L0] and the storage of [n] elements at [p]; none for none. *)
Definition fresh (p n : Z) (L0 L : holding) : Prop :=
  p = 0 ∧ n = 0 ∧ L = L0 ∨
  placed p (sizeof_gc_root * n) default_new_alignment ∧ 0 < n ∧ L0 !! p = None ∧ L = <[p := storage_of n]> L0.

(** [L] is [L0] and the storage of [v]. *)
Record stored (v : vector) (L0 L : holding) : Prop := {
  so_size : Z.of_nat (size_ v) <= capacity_ v;
  so_fresh : fresh (data_ v) (capacity_ v) L0 L;
}.

Lemma stored_empty L : stored vector_empty L L.
Proof. split; [done|by left]. Qed.

Lemma fresh_swap p n q m L0 L1 L2 :
  fresh p n L0 L1 → fresh q m L1 L2 → ∃ L, fresh q m L0 L ∧ fresh p n L L2.
Proof.
  intros [(-> & -> & ->)|(Hp & Hn & Ep & ->)] Hq; [exists L2; split; [done|by left]|].
  destruct Hq as [(-> & -> & ->)|(Hq & Hm & Eq & ->)]; [exists L0; split; [by left|by right]|].
  assert (q ≠ p) as Hne by (intros ->; by rewrite lookup_insert_eq in Eq). rewrite lookup_insert_ne in Eq by done.
  exists (<[q := storage_of m]> L0). split; [by right|]. right. split_and!; [done..| |].
  - by rewrite lookup_insert_ne.
  - by rewrite insert_insert_ne.
Qed.

(** The elements lie in the address space. *)
Lemma fresh_slots p n L0 L i : fresh p n L0 L → Z.of_nat i < n → is_size (slot p i).
Proof.
  intros [(-> & -> & _)|((? & ? & _) & _)] Hi; [lia|]. unfold slot, sizeof_gc_root, is_size, SIZE_MAX in *. lia.
Qed.

Lemma owned_noexcept {ASAN : AsanRuntime} {A} (p : proc A) L : Tidy p → owned (noexcept p) (λ r L', L' = L ∧ ∃ a, r = Ok a) L.
Proof. intros Hp. apply owned_tidy_bind_result; [done|]. intros [a|e]; [split; eauto|by intros w]. Qed.

Section Storage.
Context {ASAN : AsanRuntime} {ALLOC : Allocator} {GROWTH : VectorGrowth} (me : thread_id) (env : ParkEnv).
Context (Hpark : park_typed env).

Lemma allocate_owned n L :
  0 <= n → owned (allocate n) (λ r L', match r with Ok p => fresh p n L L' | Raise _ => L' = L end) L.
Proof.
  intros Hn. unfold allocate. destruct (Z.eqb_spec n 0) as [->|]; [by left|]. apply owned_atomic, operator_new_owned; [|done].
  intros p Hp Hl. right. split_and!; [done|lia|done..].
Qed.

Lemma deallocate_owned p n L0 L : fresh p n L0 L → owned (deallocate p) (λ r L', r = Ok tt ∧ L' = L0) L.
Proof.
  unfold deallocate. intros [(-> & _ & ->)|((Hp & _) & _ & Hl & ->)]; [done|].
  destruct (Z.eqb_spec p 0); [lia|]. eapply owned_atomic, operator_delete_owned; [by rewrite lookup_insert_eq|].
  split; [done|]. rewrite delete_insert_eq. by apply delete_id.
Qed.

Lemma gc_root_destroy_owned self L : owned (gc_root_destroy me env self) (λ r L', L' = L ∧ r = Ok tt) L.
Proof.
  eapply owned_mono; [|apply owned_noexcept; by apply tidy_unregister_root_object]. by intros r L' [-> [[] ->]].
Qed.

Lemma destroy_slots_owned first n L : owned (destroy_slots me env first n) (λ r L', L' = L ∧ r = Ok tt) L.
Proof.
  revert first. induction n as [|n IH]; intros first; [done|]. cbn [destroy_slots]. apply owned_bind.
  eapply owned_mono; [|apply gc_root_destroy_owned]. intros r L' [-> ->]. apply IH.
Qed.

Lemma tidy_destroy_slots first n : Tidy (destroy_slots me env first n).
Proof. intros L. eapply owned_mono, destroy_slots_owned. by intros r L' [-> _]. Qed.
Hint Resolve tidy_destroy_slots : tidy.

Lemma tidy_construct_slots construct first done_ n :
  (∀ i, (i < done_ + n)%nat → Tidy (construct i (slot first i))) → Tidy (construct_slots me env construct first done_ n).
Proof.
  revert done_. induction n as [|n IH]; intros i Hc; cbn [construct_slots]; [apply tidy_done|].
  apply tidy_bind_result; [apply Hc; lia|]. intros [[]|e]; [|tidy]. apply IH. intros j Hj. apply Hc. lia.
Qed.

(** What was allocated goes when the construction throws. *)
Lemma deallocate_raise_owned {A} p n e (Q : result A → holding → Prop) L0 L :
  fresh p n L0 L → Q (Raise e) L0 → owned (deallocate p;; raise e) Q L.
Proof.
  intros Hf HQ. apply owned_bind. eapply owned_mono; [|by eapply deallocate_owned]. by intros r L' [-> ->].
Qed.

Definition tidy_slots (construct : nat → Z → proc unit) (n : nat) : Prop :=
  ∀ i a, (i < n)%nat → is_size a → Tidy (construct i a).

Lemma allocate_and_construct_owned capacity construct n L :
  0 <= capacity → Z.of_nat n <= capacity → tidy_slots construct n →
  owned (allocate_and_construct me env capacity construct n)
    (λ r L', match r with Ok p => fresh p capacity L L' | Raise _ => L' = L end) L.
Proof.
  intros Hc Hn Ht. unfold allocate_and_construct. apply owned_bind.
  eapply owned_mono; [|by apply allocate_owned]. intros [p|e] L1 HL1; [|done]. apply owned_tidy_bind_result.
  - apply tidy_construct_slots. intros i Hi. apply Ht; [lia|]. eapply fresh_slots; [done|lia].
  - intros [[]|e]; [done|]. by eapply deallocate_raise_owned.
Qed.

Lemma release_storage_owned v L0 L : stored v L0 L → owned (release_storage me env v) (λ r L', r = Ok tt ∧ L' = L0) L.
Proof.
  intros [_ Hf]. apply owned_bind. eapply owned_mono; [|apply destroy_slots_owned]. intros r L' [-> ->].
  by eapply deallocate_owned.
Qed.

Lemma vector_destroy_owned v L0 L : stored v L0 L → owned (vector_destroy me env v) (λ r L', r = Ok tt ∧ L' = L0) L.
Proof.
  intros Hv. apply owned_bind_result. eapply owned_mono; [|by apply release_storage_owned]. by intros r L' [-> ->].
Qed.

(** What an operation on [v] leaves in hand. *)
Definition vector_result (v : vector) (L0 : holding) (r : result vector) (L : holding) : Prop :=
  match r with Ok v' => stored v' L0 L | Raise _ => stored v L0 L end.

(** The old storage goes, the new one stays. *)
Lemma replace_storage_owned v data n capacity L0 L L1 :
  stored v L0 L → fresh data capacity L L1 → Z.of_nat n <= capacity →
  owned (release_storage me env v;; mret {| data_ := data; size_ := n; capacity_ := capacity |}) (vector_result v L0) L1.
Proof.
  intros [Hs Hf] Hd Hn. destruct (fresh_swap _ _ _ _ _ _ _ Hf Hd) as (L2 & H2 & H3). apply owned_bind.
  eapply owned_mono; [|by apply (release_storage_owned v L2)]. intros r L' [-> ->]. by split.
Qed.

Lemma tidy_slots_copy src n : tidy_slots (copy_slot me env src) n.
Proof. intros i a _ Ha. by apply tidy_gc_root_copy. Qed.
Lemma tidy_slots_default n : tidy_slots (default_slot me env) n.
Proof. intros i a _ Ha. by apply tidy_gc_root_new. Qed.
Hint Resolve tidy_slots_copy tidy_slots_default : core.

Section Operations.
Context (v : vector) (L0 L : holding) (Hv : stored v L0 L).

Lemma stored_fits : 0 <= capacity_ v.
Proof. pose proof (so_size _ _ _ Hv). lia. Qed.

Lemma vector_extend_owned construct n :
  0 < n → tidy_slots construct (Z.to_nat n) → owned (vector_extend me env construct n v) (vector_result v L0) L.
Proof.
  intros Hn Hc. destruct (Hv) as [Hs Hf]. unfold vector_extend. destruct (Z.leb_spec n (capacity_ v - Z.of_nat (size_ v))).
  { apply owned_tidy_bind; [|intros _; split; simpl; [lia|done]|done].
    apply tidy_construct_slots. intros i Hi. apply Hc; [lia|]. rewrite slot_add. eapply fresh_slots; [done|lia]. }
  destruct (Z.ltb_spec (max_size - Z.of_nat (size_ v)) n); [done|].
  destruct (next_capacity_ok (Z.of_nat (size_ v)) n) as [Hcap _]; [lia..|].
  apply owned_bind. eapply owned_mono; [|apply allocate_owned; lia]. intros [p|e] L1 HL1; [|by rewrite HL1].
  apply owned_tidy_bind_result.
  { apply tidy_construct_slots. intros i Hi. apply Hc; [lia|]. rewrite slot_add. eapply fresh_slots; [done|lia]. }
  intros [[]|e]; [|by eapply deallocate_raise_owned]. apply owned_tidy_bind_result.
  { apply tidy_construct_slots. intros i Hi. eapply tidy_slots_copy; [exact Hi|]. eapply fresh_slots; [done|lia]. }
  intros [[]|e]; [by apply (replace_storage_owned v p _ _ L0 L); [..|lia]|].
  apply owned_bind. eapply owned_mono; [|apply destroy_slots_owned]. intros r L' [-> ->]. by eapply deallocate_raise_owned.
Qed.

Lemma emplace_back_owned p : owned (emplace_back me env v p) (vector_result v L0) L.
Proof. apply vector_extend_owned; [done|]. intros i a _ Ha. by apply tidy_gc_root_new. Qed.

Lemma push_back_owned root : owned (push_back me env v root) (vector_result v L0) L.
Proof. apply vector_extend_owned; [done|]. intros i a _ Ha. by apply tidy_gc_root_copy. Qed.

Lemma vector_reserve_owned n : owned (vector_reserve me env v n) (vector_result v L0) L.
Proof.
  destruct (Hv) as [Hs Hf]. unfold vector_reserve. destruct (Z.ltb_spec max_size n); [done|].
  destruct (Z.ltb_spec (capacity_ v) n); [|done]. apply owned_bind.
  eapply owned_mono; [|apply allocate_and_construct_owned; [lia..|done]]. intros [p|e] L1 HL1; [|by rewrite HL1].
  by apply (replace_storage_owned v p _ _ L0 L); [..|lia].
Qed.

Lemma vector_shrink_owned : owned (vector_shrink_to_fit me env v) (vector_result v L0) L.
Proof.
  destruct (Hv) as [Hs Hf]. unfold vector_shrink_to_fit. destruct (Z.eqb_spec (capacity_ v) (Z.of_nat (size_ v))); [done|].
  apply owned_bind_result.
  eapply owned_mono; [|apply allocate_and_construct_owned; [lia..|done]]. intros [p|e] L1 HL1; [|by rewrite HL1].
  by apply (replace_storage_owned v p _ _ L0 L); [..|lia].
Qed.

Lemma erase_at_end_owned n : (n <= size_ v)%nat → owned (erase_at_end me env v n) (vector_result v L0) L.
Proof.
  intros Hn. destruct (Hv) as [Hs Hf]. apply owned_tidy_bind; [apply tidy_destroy_slots|intros _|done].
  split; simpl; [lia|done].
Qed.

Lemma vector_resize_owned n : 0 <= n → owned (vector_resize me env v n) (vector_result v L0) L.
Proof.
  intros Hn. unfold vector_resize. destruct (Z.ltb_spec (Z.of_nat (size_ v)) n).
  - apply vector_extend_owned; [lia|done].
  - apply erase_at_end_owned. lia.
Qed.

Lemma vector_clear_owned : owned (vector_clear me env v) (vector_result v L0) L.
Proof. apply erase_at_end_owned. lia. Qed.

Lemma vector_pop_back_owned : size_ v ≠ 0%nat → owned (vector_pop_back me env v) (vector_result v L0) L.
Proof. intros Hn. unfold vector_pop_back. destruct (size_ v) eqn:E; [done|]. apply erase_at_end_owned. lia. Qed.

Lemma tidy_move_slots result first n : Tidy (move_slots result first n).
Proof. revert result first. induction n as [|n IH]; intros result first; cbn [move_slots]; tidy. Qed.

Lemma tidy_assign_slots result first n : Tidy (assign_slots result first n).
Proof. revert result first. induction n as [|n IH]; intros result first; cbn [assign_slots]; tidy. Qed.

Lemma vector_erase_range_owned first last :
  (first <= last)%nat → (last <= size_ v)%nat → owned (vector_erase_range me env v first last) (vector_result v L0) L.
Proof.
  intros Hf Hl. unfold vector_erase_range. apply Nat.leb_le in Hf as Hf'. apply Nat.leb_le in Hl as Hl'. rewrite Hf', Hl'.
  simpl. destruct (Nat.eqb_spec first last); [done|].
  apply owned_tidy_bind; [apply tidy_move_slots|intros _; apply erase_at_end_owned; lia|done].
Qed.

(** The other vector of an assignment may be anywhere. *)
Lemma vector_copy_assign_owned other : owned (vector_copy_assign me env v other) (vector_result v L0) L.
Proof.
  destruct (Hv) as [Hs Hf]. unfold vector_copy_assign. destruct (Z.ltb_spec (capacity_ v) (Z.of_nat (size_ other))).
  - apply owned_bind. eapply owned_mono; [|apply allocate_and_construct_owned; [lia..|done]].
    intros [p|e] L1 HL1; [|by rewrite HL1]. by apply (replace_storage_owned v p _ _ L0 L).
  - destruct (Nat.leb_spec (size_ other) (size_ v)).
    + apply owned_tidy_bind; [apply tidy_assign_slots|intros _; by apply erase_at_end_owned|done].
    + apply owned_tidy_bind; [apply tidy_assign_slots|intros _|done]. apply owned_tidy_bind; [|by intros _|done].
      apply tidy_construct_slots. intros i Hi. eapply tidy_slots_copy; [exact Hi|]. rewrite slot_add.
      eapply fresh_slots; [done|lia].
Qed.
End Operations.

(** ** Construction *)

Definition new_vector (L0 : holding) (r : result vector) (L : holding) : Prop :=
  match r with Ok v => stored v L0 L | Raise _ => L = L0 end.

Lemma vector_count_owned n L : 0 <= n → owned (vector_count me env n) (new_vector L) L.
Proof.
  intros Hn. unfold vector_count. destruct (_ <? n); [done|]. apply owned_bind.
  eapply owned_mono; [|apply allocate_and_construct_owned; [lia..|done]]. intros [p|e] L1 HL1; [|done].
  split; simpl; [lia|done].
Qed.

Lemma vector_copy_owned other L : owned (vector_copy me env other) (new_vector L) L.
Proof.
  unfold vector_copy. apply owned_bind. eapply owned_mono; [|apply allocate_and_construct_owned; [lia..|done]].
  intros [p|e] L1 HL1; [|done]. by split.
Qed.

(** The members built so far go with the exception. *)
Lemma destroy_raise_owned {A} v e (Q : result A → holding → Prop) L0 L :
  stored v L0 L → Q (Raise e) L0 → owned (vector_destroy me env v;; raise e) Q L.
Proof.
  intros Hv HQ. apply owned_bind. eapply owned_mono; [|by eapply vector_destroy_owned]. by intros r L' [-> ->].
Qed.

Lemma emplace_all_owned pointers v L0 L : stored v L0 L → owned (emplace_all me env v pointers) (new_vector L0) L.
Proof.
  revert v L. induction pointers as [|p pointers IH]; intros v L Hv; cbn [emplace_all]; [done|].
  apply owned_bind_result. eapply owned_mono; [|by apply (emplace_back_owned v L0)].
  intros [v'|e] L' HL'; [by apply IH|by eapply destroy_raise_owned].
Qed.

Lemma gc_vector_list_owned pointers L : owned (gc_vector_list me env pointers) (new_vector L) L.
Proof.
  apply owned_bind_result. eapply owned_mono; [|apply (vector_reserve_owned _ L), stored_empty].
  intros [v|e] L' HL'; [by apply emplace_all_owned|by eapply destroy_raise_owned].
Qed.

(** ** Moves *)

Lemma vector_move_assign_owned v other L0 L1 L :
  stored v L0 L1 → stored other L1 L →
  owned (vector_move_assign me env v other)
    (λ r L', ∃ v' rest, r = Ok (v', rest) ∧ stored v' L0 L' ∧ stored rest L' L') L.
Proof.
  intros [Hs1 Hf1] [Hs2 Hf2]. destruct (fresh_swap _ _ _ _ _ _ _ Hf1 Hf2) as (L2 & H2 & H1).
  apply owned_bind_result, owned_bind. eapply owned_mono; [|by apply (release_storage_owned v L2)].
  intros r L' [-> ->]. exists other, vector_empty. split_and!; [done|by split|apply stored_empty].
Qed.
End Storage.

(** ** Objects *)

Section EmplaceNew.
Context {ASAN : AsanRuntime} {ALLOC : Allocator} {GROWTH : VectorGrowth}.
Context (dtor : DestructorFn → Z → proc unit) (dtor_tidy : ∀ d p, Tidy (dtor d p)) (me : thread_id) (env : CollectEnv).
Context (Hscan : env_ok (ce_scan env)) (Hpark : park_typed (ce_park env)).

Definition inserted (v : vector) (L0 : holding) (r : result (gc_ptr * vector)) (L : holding) : Prop :=
  match r with Ok (_, v') => stored v' L0 L | Raise _ => stored v L0 L end.

Lemma insert_created_owned v created L0 L :
  stored v L0 L → owned (insert_created me (ce_park env) v created) (inserted v L0) L.
Proof.
  intros Hv. apply owned_bind_result. eapply owned_mono; [|by apply (push_back_owned _ _ Hpark _ L0)].
  intros [v'|e] L' HL'.
  - apply owned_bind, owned_atomic. intros w Hi Hl. exists L'. split; [by apply own_step_refl|]. simpl.
    apply owned_bind. eapply owned_mono; [|by apply gc_root_destroy_owned]. by intros r L1 [-> ->].
  - by apply owned_tidy_bind; [apply tidy_gc_root_destroy|intros _|].
Qed.

Lemma gc_vector_emplace_new_owned n a d ctor v created L0 L :
  is_size n → is_size a → is_size created → (∀ p, Tidy (ctor p)) → stored v L0 L →
  owned (gc_vector_emplace_new dtor me env n a d ctor v created) (inserted v L0) L.
Proof.
  intros Hn Ha Hc Hctor Hv. apply owned_tidy_bind; [by apply tidy_gc_new|intros p|done].
  apply owned_tidy_bind; [by apply tidy_gc_root_new|intros _; by apply insert_created_owned|done].
Qed.
End EmplaceNew.
