(* ===== verification/Making.v ===== *)
(** * Blocks under construction

    From [malloc_internal] to [finish_construction] a block is marked as under
    construction, and one thread is responsible for it.  [crafted] follows a
    program with the storage its thread holds, the blocks it is constructing and
    whether it is registered; [Plain] programs construct nothing themselves,
    [Crafts] ones finish or release every block they start, whatever the other
    threads do meanwhile. *)

From S2P Require Import Prelude Words Memory OrdMap Chunk Manager Heap Scanner Mark Finalize WeakRefs.
From S2P Require Import Sweep Threads Protocol Collect CollectSpec Roots Alloc Handles GcNew Diagnostics Disciplines.
From S2P Require Import Contract Enrolment Ownership Storage Tidiness.

(** ** What is under construction *)

Definition in_making (w : World) (k : Z) (b : BlockRecord) : Prop :=
  (k, b) ∈ allocations w ∧ br_constructing b = true.

(** The blocks [K] are under construction. *)
Definition makes (K : gset Z) (w : World) : Prop := ∀ k, k ∈ K → ∃ b, in_making w k b.

(** What an action of a thread that makes [K], and then [K'], may do: the
    blocks others make stay as they are, and the new ones are its own. *)
Record make_step (K K' : gset Z) (w w' : World) : Prop := {
  ms_makes : makes K' w';
  ms_kept : ∀ k b, in_making w k b → k ∉ K → in_making w' k b ∧ k ∉ K';
  ms_new : ∀ k b, in_making w' k b → k ∈ K' ∨ k ∉ K ∧ in_making w k b;
}.

Definition same_making (w w' : World) : Prop := ∀ k b, in_making w' k b ↔ in_making w k b.

Lemma same_making_alloc w w' : allocations w' = allocations w → same_making w w'.
Proof. unfold same_making, in_making. by intros ->. Qed.

Lemma make_step_same K w w' : makes K w → same_making w w' → make_step K K w w'.
Proof.
  intros Hm Hs. split.
  - intros k [b Hb]%Hm. exists b. by apply Hs.
  - intros k b Hb Hk. split; [by apply Hs|done].
  - intros k b Hb%Hs. destruct (decide (k ∈ K)); auto.
Qed.

Lemma make_step_before K K' w w1 w' : same_making w w1 → make_step K K' w1 w' → make_step K K' w w'.
Proof.
  intros Hs [Hm Hk Hn]. split; [done| |].
  - intros k b Hb. apply Hk. by apply Hs.
  - intros k b [?|[? ?%Hs]]%Hn; auto.
Qed.

(** ** Following a program *)

Definition act_crafted {ASAN : AsanRuntime} (me : thread_id) (guard : World → bool) {A} (act : M World A)
    (Q : result A → holding → gset Z → bool → Prop) (L : holding) (K : gset Z) (e : bool) : Prop :=
  ∀ w r w', inv w → sm_wf (threads w) → holds L w → makes K w → registered me w = e →
    guard w = true → yields act w r w' → ∃ L' K', own_step L L' w w' ∧ make_step K K' w w' ∧ Q r L' K' (registered me w').

Fixpoint crafted {ASAN : AsanRuntime} (me : thread_id) {A} (p : proc A) (Q : result A → holding → gset Z → bool → Prop)
    (L : holding) (K : gset Z) (e : bool) : Prop :=
  match p with
  | Done r => Q r L K e
  | Atomic guard act k => act_crafted me guard act (λ r L' K' e', crafted me (k r) Q L' K' e') L K e
  end.

(** The program leaves its thread with what it had. *)
Class Crafts {ASAN : AsanRuntime} (me : thread_id) {A} (p : proc A) : Prop :=
  crafts : ∀ L K e, crafted me p (λ _ L' K' e', L' = L ∧ K' = K ∧ e' = e) L K e.

(** Programs that do not change what is under construction. *)
Definition plain_act {A} (act : M World A) : Prop := ∀ w r w', inv w → yields act w r w' → same_making w w'.

Fixpoint plain {A} (p : proc A) : Prop :=
  match p with
  | Done _ => True
  | Atomic _ act k => plain_act act ∧ ∀ r, plain (k r)
  end.

Class Plain {A} (p : proc A) : Prop := is_plain : plain p.

Section Rules.
Context (me : thread_id).

Lemma act_crafted_mono {ASAN : AsanRuntime} guard {A} (act : M World A) (Q Q' : result A → holding → gset Z → bool → Prop) L K e :
  (∀ r L' K' e', Q r L' K' e' → Q' r L' K' e') → act_crafted me guard act Q L K e → act_crafted me guard act Q' L K e.
Proof.
  intros HQ Ha w r w' Hi Hwf Hl Hm He Hg Hy. destruct (Ha w r w' Hi Hwf Hl Hm He Hg Hy) as (L' & K' & ? & ? & ?).
  exists L', K'. auto.
Qed.

Lemma crafted_mono {ASAN : AsanRuntime} {A} (p : proc A) (Q Q' : result A → holding → gset Z → bool → Prop) L K e :
  (∀ r L' K' e', Q r L' K' e' → Q' r L' K' e') → crafted me p Q L K e → crafted me p Q' L K e.
Proof.
  intros HQ. revert L K e. induction p as [r|X guard act k IH]; intros L K e; simpl; [apply HQ|].
  apply act_crafted_mono. intros r L' K' e'. apply IH.
Qed.

Lemma crafted_bind_result {ASAN : AsanRuntime} {A B} (p : proc A) (f : result A → proc B) Q L K e :
  crafted me p (λ r L' K' e', crafted me (f r) Q L' K' e') L K e → crafted me (bind_result p f) Q L K e.
Proof.
  revert L K e. induction p as [r|X guard act k IH]; intros L K e; simpl; [done|].
  apply act_crafted_mono. intros r L' K' e'. apply IH.
Qed.

Lemma crafted_bind {ASAN : AsanRuntime} {A B} (p : proc A) (f : A → proc B) Q L K e :
  crafted me p (λ r L' K' e', match r with Ok a => crafted me (f a) Q L' K' e' | Raise x => Q (Raise x) L' K' e' end)
    L K e → crafted me (p ≫= f) Q L K e.
Proof. intros Hp. apply crafted_bind_result. eapply crafted_mono, Hp. by intros [a|x]. Qed.

Lemma crafts_done {ASAN : AsanRuntime} {A} (r : result A) : Crafts me (Done r).
Proof. by intros L K e. Qed.

Lemma crafts_bind_result {ASAN : AsanRuntime} {A B} (p : proc A) (f : result A → proc B) :
  Crafts me p → (∀ r, Crafts me (f r)) → Crafts me (bind_result p f).
Proof.
  intros Hp Hf L K e. apply crafted_bind_result. eapply crafted_mono, Hp. intros r L' K' e' (-> & -> & ->). apply Hf.
Qed.

Lemma crafts_bind {ASAN : AsanRuntime} {A B} (p : proc A) (f : A → proc B) :
  Crafts me p → (∀ a, Crafts me (f a)) → Crafts me (p ≫= f).
Proof. intros Hp Hf. apply crafts_bind_result; [done|]. intros [a|x]; [apply Hf|apply crafts_done]. Qed.

(** A program as the first part of another. *)
Lemma crafted_crafts_bind {ASAN : AsanRuntime} {A B} (p : proc A) (f : A → proc B) Q L K e :
  Crafts me p → (∀ a, crafted me (f a) Q L K e) → (∀ x, Q (Raise x) L K e) → crafted me (p ≫= f) Q L K e.
Proof.
  intros Hp Hf Hx. apply crafted_bind. eapply crafted_mono, Hp. intros [a|x] L' K' e' (-> & -> & ->); [apply Hf|apply Hx].
Qed.

(** ** Plain programs *)

Lemma owned_yields {ASAN : AsanRuntime} {A} (act : M World A) QL L w r w' :
  act_owned act QL L → inv w → holds L w → yields act w r w' → ∃ L', own_step L L' w w' ∧ QL r L'.
Proof. intros Ho Hi Hl Hy. specialize (Ho w Hi Hl). unfold yields in Hy. rewrite Hy in Ho. by destruct r. Qed.

Lemma act_crafted_plain {ASAN : AsanRuntime} guard {A} (act : M World A) QL QE L K e :
  act_owned act QL L → plain_act act → section_enrols me act QE e →
  act_crafted me guard act (λ r L' K' e', QL r L' ∧ K' = K ∧ QE r e') L K e.
Proof.
  intros Ho Hp He w r w' Hi Hwf Hl Hm Hr _ Hy. destruct (owned_yields act QL L w r w' Ho Hi Hl Hy) as (L' & ? & ?).
  exists L', K. split_and!; [done|eapply make_step_same; [done|by eapply Hp]|done|done|by apply (He w r w')].
Qed.

Lemma crafted_plain {ASAN : AsanRuntime} {A} (p : proc A) QL QE L K e :
  owned p QL L → plain p → enrolled me p QE e → crafted me p (λ r L' K' e', QL r L' ∧ K' = K ∧ QE r e') L K e.
Proof.
  revert L e. induction p as [r|X guard act k IH]; intros L e; simpl; [done|].
  intros Ho [Hp Hk] He w r w' Hi Hwf Hl Hm Hr Hg Hy.
  destruct (owned_yields act _ L w r w' Ho Hi Hl Hy) as (L' & ? & Ho').
  exists L', K. split_and!; [done|eapply make_step_same; [done|by eapply Hp]|].
  apply IH; [done|apply Hk|by apply (He w r w')].
Qed.

Lemma crafts_plain {ASAN : AsanRuntime} {A} (p : proc A) : Tidy p → Plain p → Steady me p → Crafts me p.
Proof. intros Ht Hp Hs L K e. apply crafted_plain; [apply Ht|apply Hp|by apply Hs]. Qed.

(** What a thread constructs does not depend on how its program treats the
    registration. *)
Lemma enrolled_any {A} (p : proc A) e : enrolled me p (λ _ _, True) e.
Proof. revert e. induction p as [r|X guard act k IH]; intros e; simpl; [done|]. intros w r w' _ _ _ _. apply IH. Qed.
End Rules.

(** ** Plain programs *)

Lemma plain_done {A} (r : result A) : Plain (Done r).
Proof. exact I. Qed.

Lemma plain_bind_result {A B} (p : proc A) (f : result A → proc B) :
  Plain p → (∀ r, Plain (f r)) → Plain (bind_result p f).
Proof.
  unfold Plain. intros Hp Hf. induction p as [r|X guard act k IH]; simpl in *; [apply Hf|].
  destruct Hp as [Ha Hk]. split; [done|]. intros r. apply IH, Hk.
Qed.

Lemma plain_bind {A B} (p : proc A) (f : A → proc B) : Plain p → (∀ a, Plain (f a)) → Plain (p ≫= f).
Proof. intros Hp Hf. apply plain_bind_result; [done|]. intros [a|x]; [apply Hf|apply plain_done]. Qed.

(** Actions that do not touch the registry of blocks. *)
Definition unlisted {A} (act : M World A) : Prop := ∀ w r w', yields act w r w' → allocations w' = allocations w.

Lemma unlisted_plain {A} (act : M World A) : unlisted act → plain_act act.
Proof. intros Ha w r w' _ Hy. eapply same_making_alloc, Ha, Hy. Qed.

Lemma unlisted_private {A} (act : M World A) : private act → unlisted act.
Proof. intros Hp w r w' Hy. by rewrite (Hp w r w'). Qed.

Lemma unlisted_modify f : (∀ w, allocations (f w) = allocations w) → unlisted (modify f).
Proof. intros Hf w [x|e] w' E; [|done]. injection E as _ <-. apply Hf. Qed.

Lemma unlisted_bind {A B} (m : M World A) (f : A → M World B) :
  unlisted m → (∀ a, unlisted (f a)) → unlisted (m ≫= f).
Proof.
  intros Hm Hf w r w' E. unfold yields, mbind, M_bind in E.
  destruct (m w) as [a w1|e w1|] eqn:Em; [| |by destruct r].
  - rewrite <-(Hm w (Ok a) w1 Em). by apply (Hf a w1 r w').
  - destruct r; [done|]. injection E as -> <-. by apply (Hm w (Raise _) w1 Em).
Qed.

Lemma unlisted_foldM {A B} (f : A → B → M World B) l b : (∀ a b, unlisted (f a b)) → unlisted (foldM f l b).
Proof.
  intros Hf. revert b. induction l as [|a l IH]; intros b; simpl; [|by apply unlisted_bind].
  intros w [x|e] w' E; [|done]. by injection E as _ <-.
Qed.

Lemma plain_guarded {A B} guard (act : M World A) (k : result A → proc B) :
  plain_act act → (∀ r, Plain (k r)) → Plain (Atomic guard act k).
Proof. intros Ha Hk. by split. Qed.

Lemma plain_atomic {A} (act : M World A) : unlisted act → Plain (atomic act).
Proof. intros Ha. apply plain_guarded; [by apply unlisted_plain|]. intros r. apply plain_done. Qed.

Create HintDb unlisted discriminated.

Ltac unlisted :=
  repeat first
    [ solve [auto 2 with unlisted nocore]
    | solve [apply unlisted_private; auto 2 with private nocore]
    | apply unlisted_modify; reflexivity
    | apply unlisted_bind; [|intros ?]
    | apply unlisted_foldM; intros ? ?
    | case_match ].

Lemma unlisted_ret {A} (a : A) : unlisted (mret a).
Proof. intros w [x|e] w' E; [|done]. by injection E as _ <-. Qed.

Lemma unlisted_throw {A} e : unlisted (throw (A := A) e).
Proof. intros w [x|e'] w' E; [done|]. by injection E as _ <-. Qed.

Lemma unlisted_get : unlisted get.
Proof. intros w [x|e] w' E; [|done]. by injection E as _ <-. Qed.

Lemma unlisted_native_alloc : unlisted native_alloc.
Proof.
  intros w r w' Hy. pose proof (native_alloc_still w) as Hs. unfold yields in Hy. rewrite Hy in Hs.
  destruct r; by rewrite (st_mgr _ _ Hs).
Qed.
#[export] Hint Resolve unlisted_ret unlisted_throw unlisted_get unlisted_native_alloc : unlisted.

Lemma unlisted_require me : unlisted (require_registered_thread_locked me).
Proof. unfold require_registered_thread_locked. unlisted. Qed.
#[export] Hint Resolve unlisted_require : unlisted.

Section Locked.
Context {ASAN : AsanRuntime} (me : thread_id) (env : ParkEnv).

Lemma unlisted_enter {A} (pre parking : M World unit) (body : M World A) :
  unlisted pre → unlisted parking → unlisted body → unlisted (enter me pre parking body).
Proof. intros. unfold enter. repeat (apply unlisted_bind; [by auto with unlisted|intros ?]). unlisted; done. Qed.

Lemma plain_locked_after {A} (pre : M World unit) (body : M World A) :
  unlisted pre → unlisted body → Plain (locked_after me env pre body).
Proof.
  intros Hp Hb. pose proof (unlisted_ret tt) as Hret.
  assert (unlisted (park me env)) as Hpark by (unfold park; unlisted).
  apply plain_guarded; [by apply unlisted_plain, unlisted_enter|].
  assert (∀ g, Plain (Atomic g body Done)) as Hwait.
  { intros g. apply plain_guarded; [by apply unlisted_plain|]. intros r. apply plain_done. }
  intros [[a| |]|x]; [apply plain_done|apply Hwait| |apply plain_done].
  apply plain_guarded; [by apply unlisted_plain, unlisted_enter|].
  intros [[a| |]|x]; [apply plain_done|apply Hwait| |apply plain_done].
  apply plain_guarded; [|intros r; apply plain_done]. apply unlisted_plain, unlisted_bind; [|done]. unfold unpark. unlisted.
Qed.

Lemma plain_locked {A} (body : M World A) : unlisted body → Plain (locked me env body).
Proof. intros. apply plain_locked_after; [apply unlisted_ret|done]. Qed.

(** Parking and resuming, for the rule of a section that constructs. *)
Lemma act_crafted_after f {A} (body : M World A) guard Q L K e :
  keeps (modify f) → (∀ w, ledger (f w) = ledger w) → (∀ w, allocations (f w) = allocations w) →
  (∀ w, sm_wf (threads w) → sm_wf (threads (f w))) → (∀ w, registered me (f w) = registered me w) →
  act_crafted me always body Q L K e → act_crafted me guard (modify f;; body) Q L K e.
Proof.
  intros Hf Hle Ha Hwf Hr Hb w r w' Hi Ht Hl Hm He _ Hy. destruct (Hf L w Hi Hl) as [Hs _].
  destruct (Hb (f w) r w' (os_inv _ _ _ _ Hs) (Hwf w Ht) (os_holds _ _ _ _ Hs)) as (L' & K' & Hs' & Hmk & HQ).
  - intros k [b Hk]%Hm. exists b. by apply same_making_alloc with (w := w).
  - by rewrite Hr.
  - done.
  - done.
  - exists L', K'. split_and!; [by eapply own_step_after; [apply Hle|..]| |done].
    eapply make_step_before, Hmk. by apply same_making_alloc.
Qed.

(** Entering a section, where the body is not run. *)
Lemma entered_nothing {A} f (body : M World A) w r w' :
  yields (enter me (mret tt) (modify f) body) w r w' →
  match r with
  | Ok (Entered _ a) => yields body w (Ok a) w'
  | Ok (Not_registered _) => w' = w
  | Ok (Must_park _) => w' = f w
  | Raise x => yields body w (Raise x) w'
  end.
Proof.
  intros Hy%enter_entered. destruct Hy as [x w1 Hy1|w1 a w1' Hy1 _ Hy2|w1 x w1' Hy1 _ Hy2|w1 Hy1 _ _|w1 w1' Hy1 _ _ Hy2].
  - done.
  - by injection Hy1 as <-.
  - by injection Hy1 as <-.
  - by injection Hy1 as <-.
  - injection Hy1 as <-. by injection Hy2 as <-.
Qed.

Lemma act_crafted_enter f {A} (body : M World A) (k : result (entry A) → proc A) Q L K e :
  keeps (modify f) → (∀ w, allocations (f w) = allocations w) → (∀ w, registered me (f w) = registered me w) →
  (∀ a, k (Ok (Entered A a)) = Done (Ok a)) → (∀ x, k (Raise x) = Done (Raise x)) →
  crafted me (k (Ok (Not_registered A))) Q L K e → crafted me (k (Ok (Must_park A))) Q L K e →
  act_crafted me always body Q L K e → crafted me (Atomic always (enter me (mret tt) (modify f) body) k) Q L K e.
Proof.
  intros Hf Ha Hr Hka Hkx Hwait Hpark Hb w r w' Hi Ht Hl Hm He _ Hy%entered_nothing.
  destruct r as [[a| |]|x].
  - rewrite Hka. by apply (Hb w (Ok a) w').
  - subst w'. exists L, K. rewrite He. split_and!; [by apply own_step_refl|by apply make_step_same|done].
  - subst w'. destruct (Hf L w Hi Hl) as [Hs _]. exists L, K. rewrite Hr, He.
    split_and!; [done|apply make_step_same; [done|by apply same_making_alloc]|done].
  - rewrite Hkx. by apply (Hb w (Raise x) w').
Qed.

Lemma crafted_locked {A} (body : M World A) Q L K e :
  park_typed env → act_crafted me always body Q L K e → crafted me (locked me env body) Q L K e.
Proof.
  intros Henv Hb. assert (∀ g, crafted me (Atomic g body Done) Q L K e) as Hwait.
  { intros g w r w' Hi Ht Hl Hm He _ Hy. by apply (Hb w r w'). }
  unfold locked, locked_after. change (enter me (mret tt) (mret tt) body) with (enter me (mret tt) (modify (λ w, w)) body).
  apply act_crafted_enter; [exact (keeps_ret tt)|done|done|done|done|apply Hwait| |done].
  apply act_crafted_enter; [by apply keeps_park|done| |done|done|apply Hwait| |done].
  - intros w. by apply registered_alter.
  - apply act_crafted_after; [by apply keeps_unpark|done|done| | |].
    + intros w. apply sm_wf_alter.
    + intros w. by apply registered_alter.
    + eapply act_crafted_mono, Hb. done.
Qed.
End Locked.

(** ** Operations that construct nothing *)

Create HintDb plain discriminated.

(** Walks through a process down to its critical sections. *)
Ltac plain :=
  repeat first
    [ assumption
    | solve [auto 2 with plain nocore]
    | apply plain_done
    | apply plain_atomic; solve [unlisted]
    | apply plain_locked; solve [unlisted]
    | apply plain_bind; [|intros ?]
    | apply plain_bind_result; [|intros ?]
    | case_match ].

Lemma plain_noexcept {A} (p : proc A) : Plain p → Plain (noexcept p).
Proof. intros Hp. unfold noexcept. plain. Qed.

Lemma plain_release : Plain release_stop_the_world.
Proof. unfold release_stop_the_world. plain. Qed.
#[export] Hint Resolve plain_noexcept plain_release : plain.

Section Members.
Context {ASAN : AsanRuntime} (me : thread_id) (env : ParkEnv).

Lemma plain_register_stack_bottom sb : Plain (register_stack_bottom me env sb).
Proof. unfold register_stack_bottom, assign_stack_bottom. plain. Qed.
#[local] Hint Resolve plain_register_stack_bottom : plain.

Lemma plain_register_current_thread limits : Plain (register_current_thread me env limits).
Proof. unfold register_current_thread. plain. Qed.

Lemma plain_unregister : Plain (unregister_current_thread me env).
Proof. unfold unregister_current_thread. plain. Qed.
#[local] Hint Resolve plain_register_current_thread plain_unregister : plain.

Lemma plain_ScopedThreadRegistration limits : Plain (ScopedThreadRegistration me env limits).
Proof. unfold ScopedThreadRegistration, is_current_thread_registered. plain. Qed.

Lemma plain_destroy_registration b : Plain (destroy_ScopedThreadRegistration me env b).
Proof. unfold destroy_ScopedThreadRegistration. plain. Qed.

Lemma plain_safepoint : Plain (safepoint me env).
Proof. unfold safepoint. plain. Qed.

Lemma plain_inspect {A} (body : M World A) : unlisted body → Plain (inspect me env body).
Proof.
  intros Hb. unfold inspect, inspect_enter, request_stop_the_world, wait_for_other_threads_to_pause_locked.
  apply plain_bind.
  - apply plain_locked. apply unlisted_bind; [unlisted|intros w]. case_match; [|unlisted].
    apply unlisted_bind; [done|intros a; unlisted].
  - intros [a|]; [apply plain_done|]. apply plain_guarded; [by apply unlisted_plain|]. intros r. plain.
Qed.

Lemma plain_register_root_range b e : Plain (register_root_range me env b e).
Proof. unfold register_root_range. case_match; [plain|]. apply plain_locked_after; unlisted. Qed.

Lemma plain_unregister_root_range b e : Plain (unregister_root_range me env b e).
Proof. unfold unregister_root_range. plain. Qed.
#[local] Hint Resolve plain_register_root_range plain_unregister_root_range : plain.

Lemma plain_register_root_object o n : Plain (register_root_object me env o n).
Proof. unfold register_root_object. plain. Qed.

Lemma plain_unregister_root_object o n : Plain (unregister_root_object me env o n).
Proof. unfold unregister_root_object. plain. Qed.
#[local] Hint Resolve plain_register_root_object plain_unregister_root_object : plain.

Lemma plain_ScopedRootRange_reset this b e : Plain (ScopedRootRange_reset me env this b e).
Proof. unfold ScopedRootRange_reset. plain. Qed.

Lemma plain_ScopedRootObject_reset n o o' : Plain (ScopedRootObject_reset me env n o o').
Proof. unfold ScopedRootObject_reset. plain. Qed.

Lemma plain_gc_root_new self p : Plain (gc_root_new me env self p).
Proof. unfold gc_root_new, register_self. plain. Qed.
#[local] Hint Resolve plain_gc_root_new : plain.

Lemma plain_gc_root_copy self other : Plain (gc_root_copy me env self other).
Proof. unfold gc_root_copy. plain. Qed.
#[local] Hint Resolve plain_gc_root_copy : plain.

Lemma plain_gc_root_move self other : Plain (gc_root_move me env self other).
Proof. unfold gc_root_move. plain. Qed.

Lemma plain_gc_root_assign self other : Plain (gc_root_assign self other).
Proof. unfold gc_root_assign. plain. Qed.

Lemma plain_gc_root_move_assign self other : Plain (gc_root_move_assign self other).
Proof. unfold gc_root_move_assign. plain. Qed.

Lemma plain_gc_root_destroy self : Plain (gc_root_destroy me env self).
Proof. unfold gc_root_destroy, unregister_self. plain. Qed.

Lemma plain_gc_root_get self : Plain (gc_root_get self).
Proof. unfold gc_root_get. plain. Qed.

Lemma plain_gc_weak_ptr_new self p : Plain (gc_weak_ptr_new me env self p).
Proof. unfold gc_weak_ptr_new, register_weak_ref, push_weak_ref. plain. Qed.

Lemma plain_gc_weak_ptr_destroy self : Plain (gc_weak_ptr_destroy me env self).
Proof. unfold gc_weak_ptr_destroy, unregister_weak_ref. plain. Qed.

Lemma plain_gc_weak_ptr_copy self other : Plain (gc_weak_ptr_copy me env self other).
Proof. unfold gc_weak_ptr_copy, copy_weak_ref, push_weak_ref. plain. Qed.

Lemma plain_gc_weak_ptr_take self other : Plain (gc_weak_ptr_take me env self other).
Proof. unfold gc_weak_ptr_take, update_weak_ref. plain. Qed.

Lemma plain_gc_weak_ptr_reset self : Plain (gc_weak_ptr_reset me env self).
Proof. unfold gc_weak_ptr_reset, unregister_weak_ref. plain. Qed.
#[local] Hint Resolve plain_gc_weak_ptr_take plain_gc_weak_ptr_reset : plain.

Lemma plain_gc_weak_ptr_move_assign self other : Plain (gc_weak_ptr_move_assign me env self other).
Proof. apply plain_noexcept. plain. Qed.

Lemma plain_gc_weak_ptr_expired self : Plain (gc_weak_ptr_expired me env self).
Proof. unfold gc_weak_ptr_expired, read_weak_ref. plain. Qed.

Lemma plain_gc_weak_ptr_lock self : Plain (gc_weak_ptr_lock me env self).
Proof. unfold gc_weak_ptr_lock, read_weak_ref. plain. Qed.
End Members.
#[export] Hint Resolve plain_register_stack_bottom plain_register_current_thread plain_unregister
  plain_ScopedThreadRegistration plain_destroy_registration plain_safepoint plain_register_root_range
  plain_unregister_root_range plain_register_root_object plain_unregister_root_object plain_ScopedRootRange_reset
  plain_ScopedRootObject_reset plain_gc_root_new plain_gc_root_copy plain_gc_root_move plain_gc_root_assign
  plain_gc_root_move_assign plain_gc_root_destroy plain_gc_root_get plain_gc_weak_ptr_new plain_gc_weak_ptr_destroy
  plain_gc_weak_ptr_copy plain_gc_weak_ptr_take plain_gc_weak_ptr_reset plain_gc_weak_ptr_move_assign
  plain_gc_weak_ptr_expired plain_gc_weak_ptr_lock : plain.

(** ** Collection and shutdown *)

Section Stop.
Context {ASAN : AsanRuntime} (dtor : DestructorFn → Z → proc unit) (me : thread_id) (env : CollectEnv).
Hypothesis dtor_tidy : ∀ d p, Tidy (dtor d p).
Hypothesis dtor_crafts : ∀ d p, Crafts me (dtor d p).
Hypothesis dtor_steady : ∀ d p, Steady me (dtor d p).
Hypothesis Hscan : env_ok (ce_scan env).
Hypothesis Hpark : park_typed (ce_park env).

Lemma crafted_modify f {B} (q : unit → proc B) Q L K e :
  keeps (modify f) → unlisted (modify f) → unmoved (modify f) → crafted me (q tt) Q L K e →
  crafted me (atomic (modify f) ≫= q) Q L K e.
Proof.
  intros Hk Hu Hm Hq. apply crafted_bind.
  intros w [[]|x] w' Hi Hwf Hl Hmk <- _ Hy; [|done]. destruct (Hk L w Hi Hl) as [Hs _].
  exists L, K. rewrite (registered_unmoved me w w') by by eapply Hm. injection Hy as <-. split_and!; [done| |done].
  apply make_step_same, same_making_alloc; [done|by apply (Hu w (Ok tt))].
Qed.

Lemma finalize_block_crafted p r h L K e :
  L !! p = Some r → rb_header r = Some h →
  crafted me (finalize_block dtor p) (λ r L' K' e', r = Ok tt ∧ L' = L ∧ K' = K ∧ e' = e) L K e.
Proof.
  intros Hp Hh. unfold finalize_block. case_match; [done|]. apply crafted_bind.
  eapply crafted_mono; [|apply (crafted_plain me _ (λ r L', (∃ h', r = Ok h') ∧ L' = L) (λ _ e', e' = e))].
  2:{ eapply read_header_owned; [done..|]. intros h'. simpl. by eauto. }
  2:{ apply plain_atomic. unlisted. }
  2:{ by apply (steady_atomic me); [unmoved|]. }
  intros _ L' K' e' ([[h' ->] ->] & -> & ->). case_match; [done|].
  apply crafted_modify; [apply keeps_add_log|unlisted|unmoved|].
  apply crafted_bind_result. eapply crafted_mono, dtor_crafts. intros [[]|x] L' K' e' (-> & -> & ->); [done|].
  intros w r' w' _ _ _ _ _ _ Hy. by destruct r'.
Qed.

Lemma finalize_blocks_crafted hs L K e :
  (∀ p, p ∈ hs → ∃ r h, L !! p = Some r ∧ rb_header r = Some h) →
  crafted me (finalize_blocks dtor hs) (λ r L' K' e', r = Ok tt ∧ L' = L ∧ K' = K ∧ e' = e) L K e.
Proof.
  induction hs as [|p hs IH]; intros Hh; [done|]. cbn [finalize_blocks]. apply crafted_bind.
  destruct (Hh p) as (r & h & Hp & E); [left|]. eapply crafted_mono; [|by eapply finalize_block_crafted].
  intros r' L' K' e' (-> & -> & -> & ->). apply IH. intros q Hq. apply Hh. by right.
Qed.

Lemma plain_free_blocks hs : Plain (free_blocks hs).
Proof. induction hs as [|h hs IH]; cbn [free_blocks]; plain. Qed.

Lemma steady_free_blocks hs : Steady me (free_blocks hs).
Proof. induction hs as [|h hs IH]; cbn [free_blocks]; steady. Qed.

Lemma destroy_blocks_crafted hs L L' K e :
  takes hs L L' →
  crafted me (destroy_blocks dtor hs) (λ r L1 K' e', r = Ok tt ∧ L1 = L ∧ K' = K ∧ e' = e) L' K e.
Proof.
  intros Ht. unfold destroy_blocks. apply crafted_bind.
  eapply crafted_mono; [|apply finalize_blocks_crafted; intros p Hp; by apply Ht].
  intros r L1 K' e' (-> & -> & -> & ->).
  eapply crafted_mono; [|apply (crafted_plain me _ (λ r L1, r = Ok tt ∧ L1 = L) (λ _ e', e' = e));
    [by apply free_blocks_owned|apply plain_free_blocks|by apply steady_free_blocks]].
  by intros r L1 K' e' ([-> ->] & -> & ->).
Qed.

Lemma crafts_release : Crafts me release_stop_the_world.
Proof. apply crafts_plain; [apply tidy_release|apply plain_release|apply steady_release]. Qed.

Lemma destroy_then_release_crafted hs L L' K e :
  takes hs L L' →
  crafted me (destroy_blocks dtor hs;; release_stop_the_world) (λ _ L1 K' e', L1 = L ∧ K' = K ∧ e' = e) L' K e.
Proof.
  intros Ht. apply crafted_bind. eapply crafted_mono; [|by apply destroy_blocks_crafted].
  intros r L1 K' e' (-> & -> & -> & ->). apply crafts_release.
Qed.

(** A block under construction is a root of every collection. *)
Lemma in_making_live w k b : heap_wf w → in_making w k b → live env me w k.
Proof.
  intros Hwf [Hin Hc]. pose proof (wf_extent w Hwf k b Hin) as Hx. unfold word_size in Hx.
  apply (reach_root _ _ k k b); [|apply find_block_spec; [done|]; split; [done|]].
  - unfold roots_of, root_candidates, constructing_candidates. apply elem_of_app. left.
    apply list_elem_of_fmap. exists (k, b). split; [done|]. by apply list_elem_of_filter.
  - lia.
Qed.

Lemma plain_collect_locked : plain_act (collect_locked me env).
Proof.
  intros w r w' Hi Hy.
  destruct (collect_locked_cases env me w (iv_wf w Hi) (inv_roots_ok env Hscan w Hi))
    as [(w1 & E & _ & Hq)|(hs & w1 & E & Hc)]; unfold yields in Hy; rewrite E in Hy; destruct r; try done.
  - injection Hy as <- <-. apply same_making_alloc. pose proof (mgr_Proper _ _ Hq) as Em. simpl in Em. by rewrite Em.
  - injection Hy as <- <-. intros k b. unfold in_making. rewrite (co_alloc _ _ _ _ _ Hc). simpl. split; [tauto|].
    intros Hm. split; [|by apply Hm]. split; [apply Hm|]. apply (in_making_live w k b); [apply Hi|done].
Qed.

Lemma plain_shutdown_locked : plain_act shutdown_locked.
Proof.
  intros w r w' Hi Hy. unfold yields in Hy.
  destruct (shutdown_locked_cases w (iv_wf w Hi)) as [[_ E]|[(_ & _ & o & E)|(Hu & o & hs & E & _)]];
    rewrite E in Hy; destruct r; try done; injection Hy as <- <-; try by apply same_making_alloc.
  intros k b. unfold in_making. simpl. split; [by intros [?%elem_of_nil _]|].
  intros [Hin Hb]. destruct Hu. by exists (k, b).
Qed.

(** A program that hands a batch of blocks to its thread, which destroys them. *)
Lemma crafted_batch (act : M World (list Z)) guard (f : exn → proc unit) L K e :
  act_owned act (λ r L', match r with Ok hs => takes hs L L' | Raise _ => L' = L end) L →
  plain_act act → unmoved act → (∀ x, Crafts me (f x)) →
  crafted me (bind_result (Atomic guard act Done) (λ r, match r with
    | Raise x => f x | Ok hs => destroy_blocks dtor hs;; release_stop_the_world end))
    (λ _ L' K' e', L' = L ∧ K' = K ∧ e' = e) L K e.
Proof.
  intros Ho Hp Hu Hf. simpl. eapply act_crafted_mono; [|apply (act_crafted_plain me guard act _ (λ _ e', e' = e) L K e Ho Hp)].
  - intros [hs|x] L' K' e' (HL & -> & ->); simpl; [by apply destroy_then_release_crafted|subst L'; apply Hf].
  - by apply section_enrols_unmoved.
Qed.

Lemma crafts_collect : Crafts me (collect dtor me env).
Proof.
  unfold collect. apply crafts_bind.
  - unfold collect_enter, request_stop_the_world. apply crafts_plain; [tidy|plain|steady].
  - intros [|]; simpl; [|apply crafts_done]. intros L K e. apply crafted_batch.
    + by apply collect_locked_owned.
    + apply plain_collect_locked.
    + apply unmoved_calm, calm_collect_locked.
    + intros x. apply crafts_bind; [apply crafts_release|intros _; apply crafts_done].
Qed.

Lemma crafts_shutdown : Crafts me (shutdown dtor me env).
Proof.
  unfold shutdown. apply crafts_bind.
  - unfold shutdown_enter, request_stop_the_world. apply crafts_plain; [tidy|plain|steady].
  - intros [|]; simpl; [|apply crafts_done]. intros L K e. apply crafted_batch.
    + by apply shutdown_locked_owned.
    + apply plain_shutdown_locked.
    + apply unmoved_calm, calm_shutdown_locked.
    + intros x. apply crafts_bind; [apply crafts_release|intros _; apply crafts_done].
Qed.

Lemma crafts_collect_if_needed n : Crafts me (collect_if_needed dtor me env n).
Proof.
  unfold collect_if_needed, collection_needed. apply crafts_bind; [apply crafts_plain; [tidy|plain|steady]|].
  intros [|]; [apply crafts_collect|apply crafts_done].
Qed.
End Stop.
Create HintDb crafts discriminated.
#[export] Hint Resolve crafts_release : crafts.

(** ** Allocation *)

Section Alloc.
Context {ASAN : AsanRuntime} {ALLOC : Allocator}.
Context (dtor : DestructorFn → Z → proc unit) (me : thread_id) (env : CollectEnv).
Hypothesis dtor_tidy : ∀ d p, Tidy (dtor d p).
Hypothesis dtor_crafts : ∀ d p, Crafts me (dtor d p).
Hypothesis dtor_steady : ∀ d p, Steady me (dtor d p).
Hypothesis Hscan : env_ok (ce_scan env).
Hypothesis Hpark : park_typed (ce_park env).

(** What [operator new] hands to the thread. *)
Definition new_raw (n a : Z) (L : holding) (r : result Z) (L' : holding) : Prop :=
  match r with
  | Ok p => placed p n a ∧ L !! p = None ∧ L' = <[p := {| rb_size := n; rb_alignment := a; rb_header := None |}]> L
  | Raise _ => L' = L
  end.

Lemma operator_new_crafted n a L K e :
  crafted me (atomic (operator_new n a)) (λ r L' K' e', new_raw n a L r L' ∧ K' = K ∧ e' = e) L K e.
Proof.
  apply (crafted_plain me _ (new_raw n a L) (λ _ e', e' = e)).
  - by apply operator_new_owned.
  - plain.
  - by apply (steady_atomic me); [unmoved|].
Qed.

Lemma operator_new_retry_crafted n a L K e :
  crafted me (operator_new_retry dtor me env n a) (λ r L' K' e', new_raw n a L r L' ∧ K' = K ∧ e' = e) L K e.
Proof.
  unfold operator_new_retry. apply crafted_bind_result. eapply crafted_mono, operator_new_crafted.
  intros [p|x] L' K' e' (HL & -> & ->); [done|]. simpl in HL. subst L'. destruct x; try done.
  apply crafted_crafts_bind; [by apply crafts_collect| |done]. intros _. apply operator_new_crafted.
Qed.

Section Publish.
Context (raw size k : Z) (d : DestructorFn) (c : bool).
Context (Hk : 0 <= k <= 15) (Hsize : 0 < size) (Hplace : 0 < raw ∧ raw + (layout_offset k + size) <= 2 ^ 63).
Let n := layout_offset k + size.
Let a := 2 ^ Z.max k 4.
Let h := make_header size a (layout_offset k) d.
Context (L : holding) (HL : L !! raw = Some {| rb_size := n; rb_alignment := a; rb_header := Some h |}).

(** The effect of a publication on the registry. *)
Lemma publish_yields w r w' :
  inv w → holds L w → yields (publish_block me raw size n c) w r w' →
  match r with
  | Raise _ => allocations w' = allocations w
  | Ok _ => registered me w = true ∧ ∃ b, br_constructing b = c ∧
      sm_find (raw + layout_offset k) (allocations w) = None ∧ allocations w' ≡ₚ (raw + layout_offset k, b) :: allocations w
  end.
Proof.
  intros Hi Hl Hy. unfold yields in Hy. destruct (registered me w) eqn:Hreg.
  2:{ unfold publish_block, require_registered_thread_locked, mbind, M_bind, get in Hy. rewrite Hreg in Hy.
      destruct r; [done|]. by injection Hy as _ <-. }
  destruct (held_header raw size k d c Hk Hsize Hplace L HL w Hi Hl) as (h' & Eh & Hs & Ho & Hok & Hap).
  assert (n = ch_payload_offset h' + ch_size h') as Hn by (rewrite Ho, Hs; done). rewrite Hn, <-Hs in Hy.
  destruct (decide (managed_bytes_ (mgr w) + ch_size h' <= SIZE_MAX ∧
    reserved_bytes_ (mgr w) + (ch_payload_offset h' + ch_size h') <= SIZE_MAX)) as [[Hm Hr]|Hfull].
  - pose proof (apart_fresh w _ _ (iv_wf w Hi) Hok Hap) as Hfr.
    destruct (publish_block_cases me w raw h' c (iv_wf w Hi) Eh Hok Hap Hreg Hm Hr) as [(o & E & _)|(o & E)];
      rewrite E in Hy; destruct r as [[]|x]; try done; injection Hy as <-; [by subst|].
    split; [done|]. exists (new_record raw h' c). unfold payload_begin in *. rewrite <-Ho. split_and!; [done|done|].
    by apply sm_emplace_perm.
  - rewrite publish_block_full in Hy by (try done; lia). destruct r; [done|]. by injection Hy as _ <-.
Qed.

(** What a successful allocation adds: one block, when it is to be constructed. *)
Definition with_new (p : Z) (K : gset Z) : gset Z := if c then {[p]} ∪ K else K.

Lemma publish_makes K w r w' :
  inv w → holds L w → makes K w → yields (publish_block me raw size n c) w r w' →
  let p := raw + layout_offset k in
  match r with
  | Raise _ => make_step K K w w'
  | Ok _ => registered me w = true ∧ p ∉ K ∧ make_step K (with_new p K) w w'
  end.
Proof.
  intros Hi Hl Hm Hy p. pose proof (publish_yields w r w' Hi Hl Hy) as Hp. destruct r as [[]|x].
  2:{ by apply make_step_same, same_making_alloc. }
  destruct Hp as (Hr & b & Hc & Hf & Ha). rewrite sm_find_None in Hf. fold p in Hf, Ha.
  assert (∀ k' b', in_making w' k' b' ↔ (k' = p ∧ b' = b ∧ c = true) ∨ in_making w k' b') as Hin.
  { intros k' b'. unfold in_making. rewrite Ha, elem_of_cons. naive_solver. }
  assert (p ∉ K) as HpK by by intros [b' [Hb _]]%Hm; apply (Hf b').
  assert (∀ k', k' ∈ with_new p K ↔ k' = p ∧ c = true ∨ k' ∈ K) as HK.
  { intros k'. unfold with_new. destruct c; set_solver. }
  split_and!; [done..|]. split.
  - intros k' [[-> Hct]|[b' Hb]%Hm]%HK; [exists b|exists b']; apply Hin; [by left|by right].
  - intros k' b' Hb Hk'. split; [apply Hin; by right|]. rewrite HK. intros [[-> _]|?]; [|done]. by destruct (Hf b'), Hb.
  - intros k' b' [(-> & _ & Hct)|Hb]%Hin; [left; apply HK; by left|].
    destruct (decide (k' ∈ K)); [left; apply HK; by right|by right].
Qed.

Lemma publish_crafted K e :
  act_crafted me always (publish_block me raw size n c) (λ r L' K' e', e' = e ∧ match r with
    | Ok _ => L' = delete raw L ∧ e = true ∧ raw + layout_offset k ∉ K ∧ K' = with_new (raw + layout_offset k) K
    | Raise _ => L' = L ∧ K' = K end) L K e.
Proof.
  intros w r w' Hi Hwf Hl Hm He _ Hy.
  destruct (owned_yields _ (λ r L', L' = match r with Ok _ => delete raw L | Raise _ => L end) L w r w'
    (publish_owned me raw size k d c Hk Hsize Hplace L HL _ eq_refl (λ _, eq_refl)) Hi Hl Hy) as (L' & Hs & HL').
  assert (registered me w' = e) as ->.
  { rewrite <-He. apply registered_unmoved. assert (unmoved (publish_block me raw size n c)) as Hu; [|by eapply Hu].
    unfold publish_block, register_block_locked. unmoved. }
  pose proof (publish_makes K w r w' Hi Hl Hm Hy) as Hmk. destruct r as [[]|x].
  - destruct Hmk as (Hr & Hp & Hmk). exists L', (with_new (raw + layout_offset k) K). rewrite Hr in He. by subst.
  - exists L', K. by subst.
Qed.
End Publish.

(** [malloc_internal] starts one block or none. *)
Definition started (c : bool) (L : holding) (K : gset Z) (e : bool) (r : result Z) (L' : holding) (K' : gset Z)
    (e' : bool) : Prop :=
  L' = L ∧ e' = e ∧ match r with
  | Ok p => e = true ∧ p ≠ 0 ∧ p ∉ K ∧ K' = with_new c p K
  | Raise _ => K' = K
  end.

Lemma allocate_block_crafted size k d c L K e :
  0 <= k <= 15 → 0 < size → layout_offset k + size <= SIZE_MAX →
  crafted me (allocate_block dtor me env size (2 ^ Z.max k 4) (layout_offset k) d c) (started c L K e) L K e.
Proof.
  intros Hk Hs Hfit. pose proof (layout_offset_bound k Hk) as Hb. unfold sizeof_ChunkHeader in Hb.
  assert (is_size size) as Hsz by (unfold is_size; lia).
  unfold allocate_block. rewrite wrap64_size by (unfold is_size; lia). apply crafted_bind.
  eapply crafted_mono; [|apply operator_new_retry_crafted]. intros [raw|x] L' K' e' (HL & -> & ->); [|done].
  destruct HL as ((Hp & Hend & _) & Hraw & ->). apply crafted_bind.
  set (h := make_header size (2 ^ Z.max k 4) (layout_offset k) d).
  set (r := {| rb_size := layout_offset k + size; rb_alignment := 2 ^ Z.max k 4; rb_header := Some h |}).
  eapply crafted_mono; [|apply (crafted_plain me _ (λ r0 L', r0 = Ok tt ∧ L' = <[raw := r]> L) (λ _ e', e' = e))].
  2:{ apply owned_atomic. eapply set_header_owned; [apply lookup_insert_eq|by apply make_header_alignment|
      by apply make_header_typed|]. by rewrite insert_insert_eq. }
  2:{ plain. }
  2:{ by apply (steady_atomic me); [unmoved|]. }
  intros _ L' K' e' ([-> ->] & -> & ->). apply crafted_bind_result, crafted_locked; [done|].
  assert (delete raw (<[raw := r]> L) = L) as Hdel by by apply delete_insert_id.
  eapply act_crafted_mono; [|apply (publish_crafted raw size k d c Hk Hs (conj Hp Hend) (<[raw := r]> L) (lookup_insert_eq _ _ _))].
  intros [[]|x] L' K' e' (-> & HL); simpl.
  - destruct HL as (-> & -> & HK & ->). unfold payload_pointer, h. rewrite make_header_offset, Hdel by done.
    split_and!; try done. lia.
  - destruct HL as [-> ->]. eapply act_crafted_mono; [|apply (act_crafted_plain me _ _ (λ r L', L' = L) (λ _ e', e' = e))].
    + by intros [[]|x'] L' K' e' (-> & -> & ->).
    + eapply free_owned; [apply lookup_insert_eq|done|done].
    + apply unlisted_plain. unlisted.
    + apply section_enrols_unmoved; [unmoved|done].
Qed.

Lemma malloc_crafted size alignment d c L K e :
  is_size size → is_size alignment →
  crafted me (malloc_internal dtor me env size alignment d c) (started c L K e) L K e.
Proof.
  intros Hs Ha. unfold malloc_internal.
  destruct (Z.eqb_spec size 0) as [|Hne]; cbn [orb]; [done|].
  destruct (has_single_bit alignment) eqn:Hb; cbn [negb]; [|done].
  apply has_single_bit_spec in Hb as (k & Hk & ->); [|done].
  apply crafted_crafts_bind; [apply crafts_plain; [tidy|plain|steady]| |done]. intros _.
  destruct (layout_ok k Hk) as [-> _].
  destruct (_ || _) eqn:E; [done|]. apply orb_false_iff in E as [E1%Z.ltb_ge E2].
  apply add_would_overflow_false in E2. rewrite normalize_pow2 by lia.
  assert (k <= 15).
  { destruct (Z.le_gt_cases k 15); [done|]. pose proof (layout_offset_big k ltac:(lia)). lia. }
  unfold is_size in *. apply allocate_block_crafted; lia.
Qed.
End Alloc.

(** ** The end of a construction *)

(** The block [p] leaves the set; the others stay as they are. *)
Lemma make_step_end K p w w' :
  makes K w → (∀ k b, in_making w' k b ↔ in_making w k b ∧ k ≠ p) → p ∈ K → make_step K (K ∖ {[p]}) w w'.
Proof.
  intros Hm Hin Hp. split.
  - intros k [[b Hb]%Hm Hne]%elem_of_difference. exists b. apply Hin. split; [done|]. set_solver.
  - intros k b Hb Hk. split; [|set_solver]. apply Hin. split; [done|]. by intros ->.
  - intros k b [Hb Hne]%Hin. destruct (decide (k ∈ K)); [left|by right]. set_solver.
Qed.

Section End.
Context {ASAN : AsanRuntime} (me : thread_id) (env : CollectEnv) (Hpark : park_typed (ce_park env)).

Lemma finish_crafted p L K e :
  p ∈ K → crafted me (finish_construction me env p)
    (λ r L' K' e', r = Ok tt ∧ L' = L ∧ K' = K ∖ {[p]} ∧ e' = e) L K e.
Proof.
  intros Hp. apply crafted_locked; [done|]. intros w r w' Hi Hwf Hl Hm <- _ Hy.
  destruct (owned_yields _ (λ _ L', L' = L) L w r w' (finish_owned p _ L (λ _, eq_refl)) Hi Hl Hy) as (L' & Hs & ->). exists L, (K ∖ {[p]}).
  destruct (Hm p Hp) as (b & Hin & Hb). pose proof (wf_sorted w (iv_wf w Hi)) as Hsm.
  assert (r = Ok tt ∧ w' = set_mgr (set_allocations (sm_alter (set_constructing false) p)) w) as [-> ->].
  { unfold yields, finish_construction_locked in Hy. rewrite M_bind_get, (sm_elem_find p b _ Hsm Hin) in Hy.
    destruct r as [[]|x]; [|done]. by injection Hy as <-. }
  split_and!; try done. apply make_step_end; [done| |done]. intros k b'. unfold in_making. simpl.
  rewrite <-!sm_find_iff, sm_find_alter by (try apply sm_wf_alter; done).
  destruct (Z.eqb_spec k p) as [->|]; [|naive_solver].
  rewrite (sm_elem_find p b _ Hsm Hin). simpl. naive_solver.
Qed.

Lemma release_crafted p L K :
  p ∈ K → p ≠ 0 → crafted me (release_unconstructed me env p)
    (λ r L' K' e', r = Ok tt ∧ L' = L ∧ K' = K ∖ {[p]} ∧ e' = true) L K true.
Proof.
  intros Hp Hne. unfold release_unconstructed. destruct (Z.eqb_spec p 0); [done|]. apply crafted_bind, crafted_locked; [done|].
  intros w r w' Hi Hwf Hl Hm Hr _ Hy. pose proof (iv_wf w Hi) as Hw.
  destruct (Hm p Hp) as (b & Hin & Hb). pose proof (wf_extent w Hw p b Hin) as Hx.
  assert (act_owned (release_unconstructed_locked me p) (λ r L', ∀ hd, r = Ok hd → hd ≠ 0 → takes [hd] L L') L) as Ho
    by (apply release_locked_owned; naive_solver).
  destruct (owned_yields _ _ L w r w' Ho Hi Hl Hy) as (L' & Hs & HL').
  pose proof (release_unconstructed_locked_spec me w Hw p b Hr Hin) as E. unfold yields in Hy. rewrite E in Hy.
  destruct r as [hd|x]; [|done]. injection Hy as <- <-. exists L', (K ∖ {[p]}).
  change (registered me (drop_block p b w)) with (registered me w). rewrite Hr. split_and!; [done| |].
  - apply make_step_end; [done| |done]. intros k b'. unfold in_making.
    change (allocations (drop_block p b w)) with (sm_erase p (allocations w)).
    rewrite elem_of_sm_erase by apply wf_sorted, Hw. simpl. tauto.
  - specialize (HL' _ eq_refl ltac:(lia)). destruct (Z.eqb_spec (br_header b) 0); [lia|].
    eapply act_crafted_mono; [|apply (act_crafted_plain me _ _ (λ r L1, r = Ok tt ∧ L1 = L) (λ _ e', e' = true))].
    + by intros r L1 K1 e1 ([-> ->] & -> & ->).
    + destruct (tk_new _ _ _ HL' (br_header b)) as (_ & r & h & E1 & E2); [left|].
      eapply free_owned; [done..|]. split; [done|]. by apply takes_cons, takes_nil in HL'.
    + apply unlisted_plain. unlisted.
    + apply section_enrols_unmoved; [unmoved|done].
Qed.
End End.

(** Composes what crafts, and what constructs nothing. *)
Ltac crafts :=
  repeat first
    [ assumption
    | solve [auto 2 with crafts nocore]
    | apply crafts_done
    | solve [apply crafts_plain; [tidy|plain|steady]]
    | apply crafts_bind; [|intros ?]
    | apply crafts_bind_result; [|intros ?]
    | case_match ].

(** The program comes back, with what it had. *)
Definition returning {ASAN : AsanRuntime} (me : thread_id) {A} (p : proc A) : Prop :=
  ∀ L K e, crafted me p (λ r L' K' e', (∃ a, r = Ok a) ∧ L' = L ∧ K' = K ∧ e' = e) L K e.

Lemma returning_crafts {ASAN : AsanRuntime} me {A} (p : proc A) : returning me p → Crafts me p.
Proof. intros Hp L K e. eapply crafted_mono, Hp. by intros r L' K' e' (_ & ? & ? & ?). Qed.

Lemma returning_noexcept {ASAN : AsanRuntime} me {A} (p : proc A) : Crafts me p → returning me (noexcept p).
Proof.
  intros Hp L K e. apply crafted_bind_result. eapply crafted_mono, Hp. intros [a|x] L' K' e' (-> & -> & ->); [simpl; eauto|].
  intros w r w' _ _ _ _ _ _ Hy. by destruct r.
Qed.

Lemma returning_ret {ASAN : AsanRuntime} me {A} (a : A) : returning me (mret a).
Proof. intros L K e. simpl. eauto. Qed.

Lemma crafts_noexcept {ASAN : AsanRuntime} me {A} (p : proc A) : Crafts me p → Crafts me (noexcept p).
Proof. intros. by apply returning_crafts, returning_noexcept. Qed.
#[export] Hint Resolve crafts_noexcept : crafts.

(** ** Objects and arrays *)

Section New.
Context {ASAN : AsanRuntime} {ALLOC : Allocator}.
Context (dtor : DestructorFn → Z → proc unit) (me : thread_id) (env : CollectEnv).
Hypothesis dtor_tidy : ∀ d p, Tidy (dtor d p).
Hypothesis dtor_crafts : ∀ d p, Crafts me (dtor d p).
Hypothesis dtor_steady : ∀ d p, Steady me (dtor d p).
Hypothesis Hscan : env_ok (ce_scan env).
Hypothesis Hpark : park_typed (ce_park env).

(** The block that was started is finished or released: in either case the
    thread is left with what it had. *)
Lemma finish_or_release_crafted p (build : proc unit) (undo : proc unit) (q : gc_ptr) L K :
  Crafts me build → returning me undo → p ≠ 0 → p ∉ K →
  crafted me (bind_result build (λ r, match r with
      | Raise x => undo;; release_unconstructed me env p;; raise x
      | Ok _ => finish_construction me env p;; mret q end))
    (λ _ L' K' e', L' = L ∧ K' = K ∧ e' = true) L ({[p]} ∪ K) true.
Proof.
  intros Hb Hu Hp HK. assert (({[p]} ∪ K) ∖ {[p]} = K) as EK by set_solver.
  apply crafted_bind_result. eapply crafted_mono, Hb. intros [[]|x] L' K' e' (-> & -> & ->).
  - apply crafted_bind. eapply crafted_mono; [|apply finish_crafted; [done|set_solver]].
    by intros r L' K' e' (-> & -> & -> & ->).
  - apply crafted_bind. eapply crafted_mono, Hu. intros r L' K' e' ([[] ->] & -> & -> & ->).
    apply crafted_bind. eapply crafted_mono; [|apply release_crafted; [done|set_solver|done]].
    by intros r L' K' e' (-> & -> & -> & ->).
Qed.

(** A block that is started and then built. *)
Lemma construction_crafts n a d (rest : Z → proc gc_ptr) :
  is_size n → is_size a →
  (∀ p L K, p ≠ 0 → p ∉ K → crafted me (rest p) (λ _ L' K' e', L' = L ∧ K' = K ∧ e' = true) L ({[p]} ∪ K) true) →
  Crafts me (payload ← malloc_internal dtor me env n a d true; rest payload).
Proof.
  intros Hn Ha Hr L K e. apply crafted_bind. eapply crafted_mono; [|by apply malloc_crafted].
  intros [p|x] L' K' e' (-> & -> & HK); [|by subst]. destruct HK as (-> & Hp & HpK & ->). by apply Hr.
Qed.

Lemma crafts_gc_new n a d ctor :
  is_size n → is_size a → (∀ p, Crafts me (ctor p)) → Crafts me (gc_new dtor me env n a d ctor).
Proof.
  intros Hn Ha Hc. unfold gc_new. apply crafts_bind; [by apply crafts_collect_if_needed|intros _].
  apply construction_crafts; [done..|]. intros p L K Hp HK.
  exact (finish_or_release_crafted p (ctor p) (mret tt) {| ptr_ := p |} L K (Hc p) (returning_ret me tt) Hp HK).
Qed.

Lemma crafts_nothrow p : Crafts me p → Crafts me (nothrow p).
Proof. intros Hp. unfold nothrow. crafts. Qed.

Section Array.
Context (n a : Z) (d : DestructorFn) (construct : Z → nat → proc unit) (elem_dtor : Z → proc unit).
Hypothesis Ha : is_size a.
Hypothesis construct_crafts : ∀ p i, Crafts me (construct p i).
Hypothesis elem_dtor_crafts : ∀ p, Crafts me (elem_dtor p).

Lemma crafts_construct_elements p k i : Crafts me (construct_elements n a construct p k i).
Proof.
  revert i. induction k as [|k IH]; intros i; cbn [construct_elements]; [apply crafts_done|].
  apply crafts_bind; [apply construct_crafts|intros _]. apply crafts_bind; [crafts|intros _; apply IH].
Qed.

Lemma crafts_destroy_elements p k : Crafts me (destroy_elements n a elem_dtor p k).
Proof.
  induction k as [|k IH]; cbn [destroy_elements]; [apply crafts_done|].
  apply crafts_bind; [apply elem_dtor_crafts|intros _; apply IH].
Qed.

Lemma returning_ArrayDestructor p : returning me (ArrayDestructor_destroy n a elem_dtor p).
Proof.
  intros L K e. unfold ArrayDestructor_destroy. apply crafted_bind. intros w [c|x] w' Hi Hwf Hl Hm <- _ Hy; [|discriminate Hy].
  injection Hy as <- <-. exists L, K. split_and!; [by apply own_step_refl|by apply make_step_same|].
  apply returning_noexcept, crafts_destroy_elements.
Qed.

Lemma crafts_construct_array count :
  Crafts me (construct_array dtor me env n a count d construct elem_dtor).
Proof.
  unfold construct_array. case_match; [apply crafts_done|]. cbv zeta. case_match; [apply crafts_done|].
  apply crafts_bind; [by apply crafts_collect_if_needed|intros _].
  assert (is_size (if 8 <=? a then a else 8)) by (case_match; [done|unfold is_size, SIZE_MAX; lia]).
  apply construction_crafts; [apply wrap64_bound|done|]. intros p L K Hp HK.
  unfold construct_payload, write_word. apply crafted_modify; [apply keeps_write_word|unlisted|unmoved|].
  apply (finish_or_release_crafted p _ (ArrayDestructor_destroy n a elem_dtor p)); try done.
  - apply crafts_construct_elements.
  - apply returning_ArrayDestructor.
Qed.
End Array.
End New.
#[export] Hint Resolve crafts_gc_new crafts_construct_array crafts_nothrow crafts_collect crafts_shutdown
  crafts_collect_if_needed : crafts.
