(* ===== verification/HeapSafety.v ===== *)
(** * The heap under every interleaving

    Pools of threads that run tidy programs: at every step of every schedule
    the invariant holds, each storage block has exactly one owner, no action is
    undefined or runs out of fuel, and a schedule that runs to its end leaves
    no storage behind. *)

From S2P Require Import Prelude Words Memory OrdMap Chunk Manager Heap Scanner Scenario Mark.
From S2P Require Import Finalize WeakRefs Sweep Threads Protocol Collect CollectSpec CollectorTheorems.
From S2P Require Import Roots Alloc Handles GcNew Diagnostics Disciplines Interleave Ownership Storage Tidiness.

(** ** Custody of the threads of a pool *)

Definition put {A} (t : thread_id) (x : A) (f : thread_id → A) : thread_id → A :=
  λ t', if t' =? t then x else f t'.

Lemma put_same {A} t (x : A) f : put t x f t = x.
Proof. unfold put. by rewrite Z.eqb_refl. Qed.

Lemma put_other {A} t t' (x : A) f : t' ≠ t → put t x f t' = f t'.
Proof. unfold put. by destruct (Z.eqb_spec t' t). Qed.

(** Storage the library does not know of. *)
Definition user_storage (w : World) (p : Z) : Prop := foreign ∅ w p.

(** What the threads [ts] of a pool that started in [w0] hold between them. *)
Record custody (w0 : World) (λo : thread_id → holding) (ts : list thread_id) (w : World) : Prop := {
  cy_inv : inv w;
  cy_holds : ∀ t, holds (λo t) w;
  cy_disjoint : ∀ t t', t ≠ t' → λo t ##ₘ λo t';
  cy_absent : ∀ t, t ∉ ts → λo t = ∅;
  cy_foreign : ∀ p, user_storage w0 p → blocks w !! p = blocks w0 !! p ∧ ∀ t, foreign (λo t) w p;
  cy_accounted : ∀ p, outstanding w p → is_registered w p ∨ (∃ t, is_Some (λo t !! p)) ∨ user_storage w0 p;
}.

(** The invariant of such a pool: the programs give back what they hold. *)
Record custody_ok {ASAN : AsanRuntime} (w0 : World) (λo : thread_id → holding) (P : pool) (w : World) : Prop := {
  cu_custody : custody w0 λo P.*1 w;
  cu_owned : ∀ t p, (t, p) ∈ P → owned p (λ _ L, L = ∅) (λo t);
}.

Section Fields.
Context {ASAN : AsanRuntime}.
Context w0 λo P w (Hc : custody_ok w0 λo P w).

Definition cu_inv : inv w := cy_inv _ _ _ _ (cu_custody _ _ _ _ Hc).
Definition cu_holds : ∀ t, holds (λo t) w := cy_holds _ _ _ _ (cu_custody _ _ _ _ Hc).
Definition cu_disjoint : ∀ t t', t ≠ t' → λo t ##ₘ λo t' := cy_disjoint _ _ _ _ (cu_custody _ _ _ _ Hc).
Definition cu_absent : ∀ t, t ∉ P.*1 → λo t = ∅ := cy_absent _ _ _ _ (cu_custody _ _ _ _ Hc).
Definition cu_foreign : ∀ p, user_storage w0 p → blocks w !! p = blocks w0 !! p ∧ ∀ t, foreign (λo t) w p :=
  cy_foreign _ _ _ _ (cu_custody _ _ _ _ Hc).
Definition cu_accounted : ∀ p, outstanding w p →
    is_registered w p ∨ (∃ t, is_Some (λo t !! p)) ∨ user_storage w0 p :=
  cy_accounted _ _ _ _ (cu_custody _ _ _ _ Hc).
End Fields.

(** Distinct threads about to run tidy library programs in a good world. *)
Record sound_start {ASAN : AsanRuntime} (P : pool) (w : World) : Prop := {
  ss_start : start P w;
  ss_tidy : ∀ t p, (t, p) ∈ P → Tidy p;
  ss_inv : inv w;
}.

Lemma custody_begin w ts : inv w → custody w (λ _, ∅) ts w.
Proof.
  intros Hi. split; [done|intros; apply map_Forall_empty|intros; apply map_disjoint_empty_l|done|done|].
  intros p Hp. destruct (holds_accounted ∅ w p Hp) as [?|[[? E]|?]]; [auto|by rewrite lookup_empty in E|auto].
Qed.

Lemma custody_start {ASAN : AsanRuntime} P w : sound_start P w → custody_ok w (λ _, ∅) P w.
Proof. intros [_ Ht Hi]. split; [by apply custody_begin|]. intros t p Hin. by apply (Ht t p Hin). Qed.

Lemma owned_step {ASAN : AsanRuntime} {A} (p : proc A) Q L w p' w' :
  inv w → holds L w → owned p Q L → pstep (p, w) (p', w') → ∃ L', own_step L L' w w' ∧ owned p' Q L'.
Proof.
  intros Hi Hl Ho Hs. apply pstep_inv in Hs. destruct p as [r|X guard act k]; [done|].
  destruct Hs as (_ & r & Hy & ->). specialize (Ho w Hi Hl). unfold yields in Hy. rewrite Hy in Ho.
  by destruct r.
Qed.

(** What the other threads hold is foreign to the thread that steps. *)
Lemma other_foreign w0 λo ts w t t' p r :
  custody w0 λo ts w → t' ≠ t → λo t' !! p = Some r → foreign (λo t) w p.
Proof.
  intros Hc Hne Hp. destruct (cy_holds _ _ _ _ Hc t' p r Hp) as [Hb Hf _]. split_and!; [by eexists|done|].
  eapply map_disjoint_Some_l, Hp. by apply (cy_disjoint _ _ _ _ Hc).
Qed.

Lemma custody_step {ASAN : AsanRuntime} w0 λo ts w t L' w' :
  t ∈ ts → custody w0 λo ts w → own_step (λo t) L' w w' → custody w0 (put t L' λo) ts w'.
Proof.
  intros Hin Hc [Hi' Hl' Hfo' Hac']. pose proof (other_foreign w0 λo ts w t) as Hother.
  destruct Hc as [Hi Hl Hd Ha Hf Hacc].
  assert (∀ t' q r, t' ≠ t → λo t' !! q = Some r → foreign L' w' q ∧ blocks w' !! q = blocks w !! q ∧
    header_at w' q = header_at w q) as Hkept by (intros t' q r Hne Hq; by eapply Hfo', Hother).
  assert (∀ t', t' ≠ t → L' ##ₘ λo t') as HdL.
  { intros t' Hne. apply map_disjoint_spec. intros q x y Hx Hy.
    destruct (Hkept t' q y Hne Hy) as ((_ & _ & E) & _). congruence. }
  split; [done| | | | |].
  - intros t'. destruct (decide (t' = t)) as [->|Hne]; [by rewrite put_same|]. rewrite put_other by done.
    intros q r Hq. destruct (Hkept t' q r Hne Hq) as ((_ & Hn & _) & Eb & Eh). destruct (Hl t' q r Hq) as [Hx1 Hx2 Hx3 Hx4].
    split; [by rewrite Eb|done|intros h|]; rewrite Eh; auto.
  - intros t1 t2 Hne. destruct (decide (t1 = t)) as [->|H1], (decide (t2 = t)) as [->|H2]; [done|..];
      rewrite ?put_same, ?put_other by done; [apply HdL; congruence|symmetry; by apply HdL|by apply Hd].
  - intros t1 Hn. rewrite put_other; [by apply Ha|]. by intros ->.
  - intros q Hq. destruct (Hf q Hq) as [Eb Hq']. destruct (Hfo' q (Hq' t)) as (Hq1 & Eb' & _).
    split; [congruence|]. intros t'. destruct (decide (t' = t)) as [->|Hne]; [by rewrite put_same|].
    rewrite put_other by done. destruct Hq1 as (? & ? & _), (Hq' t') as (_ & _ & ?). done.
  - intros q Hq. destruct (Hac' q Hq) as [?|[Hx|(Hoq & Hnq & HLq)]]; [by left| |].
    + right; left. exists t. by rewrite put_same.
    + destruct (Hacc q Hoq) as [?|[[t' Hx]|?]]; [done| |by right; right].
      right; left. exists t'. rewrite put_other; [done|]. intros ->. rewrite HLq in Hx. by destruct Hx.
Qed.

Lemma step_custody {ASAN : AsanRuntime} w0 λo P w t P' w' :
  NoDup P.*1 → custody_ok w0 λo P w → step (P, w) t (P', w') → ∃ L', custody_ok w0 (put t L' λo) P' w'.
Proof.
  intros Hnd [Hc Ho] Hs. inversion Hs as [l1 t0 p l2 w1 p' w2 Hps E1 E2 E3]; subst.
  assert ((t, p) ∈ l1 ++ (t, p) :: l2) as Hin by (apply elem_of_app; right; left).
  destruct (owned_step p _ (λo t) w p' w' (cy_inv _ _ _ _ Hc) (cy_holds _ _ _ _ Hc t) (Ho _ _ Hin) Hps)
    as (L' & Hos & Hop).
  exists L'. split.
  - assert ((l1 ++ (t, p') :: l2).*1 = (l1 ++ (t, p) :: l2).*1) as -> by by rewrite !fmap_app.
    apply (custody_step w0 λo _ w); [by apply (list_elem_of_fmap_2' fst _ (t, p))|done|done].
  - intros t1 p1 [[-> ->]|[Hne Hin1]]%(pool_update_elem l1 l2 t p p'); [by rewrite put_same| |done].
    rewrite put_other by done. by apply Ho.
Qed.

Lemma steps_custody_from {ASAN : AsanRuntime} w0 c c' :
  steps c c' → (∃ φ, pool_ok φ c.1 c.2) → (∃ λo, custody_ok w0 λo c.1 c.2) → ∃ λo, custody_ok w0 λo c'.1 c'.2.
Proof.
  induction 1 as [c|[P1 w1] [P2 w2] c3 [t Ht] _ IH]; [done|]. intros [φ Hpok] [λo Hok]. apply IH.
  - destruct (step_pool_ok _ _ _ _ _ _ Hpok Ht) as (ph' & _ & Hok'). by eexists.
  - destruct (step_custody w0 λo P1 w1 t P2 w2 (po_distinct _ _ _ Hpok) Hok Ht) as [L' ?]. by eexists.
Qed.

Lemma steps_custody {ASAN : AsanRuntime} P0 w0 P w :
  sound_start P0 w0 → steps (P0, w0) (P, w) → ∃ λo, custody_ok w0 λo P w.
Proof.
  intros Hst Hs. apply (steps_custody_from w0 _ _ Hs).
  - eexists. by apply start_ok, Hst.
  - eexists. by apply custody_start.
Qed.

(** A thread at its end holds nothing. *)
Lemma custody_finished {ASAN : AsanRuntime} w0 λo P w t q r :
  custody_ok w0 λo P w → λo t !! q = Some r → ∃ p, (t, p) ∈ P ∧ ¬ finished p.
Proof.
  intros Hc Hq. destruct (decide (t ∈ P.*1)) as [Hin|Hn].
  - apply list_elem_of_fmap in Hin as ([t' p] & -> & Hin). exists p. split; [done|].
    pose proof (cu_owned _ _ _ _ Hc _ _ Hin) as Ho. destruct p as [x|X g a k]; [|by intros []].
    simpl in Ho, Hq. rewrite Ho in Hq. by rewrite lookup_empty in Hq.
  - rewrite (cu_absent _ _ _ _ Hc t Hn) in Hq. by rewrite lookup_empty in Hq.
Qed.

(** The next action of the thread ends the program. *)
Definition terminates (p : proc unit) (w : World) : Prop :=
  match p with
  | Done _ => False
  | Atomic guard act _ => guard w = true ∧ act w = Stuck Terminated
  end.

Lemma custody_stuck {ASAN : AsanRuntime} w0 λo P w t p :
  custody_ok w0 λo P w → (t, p) ∈ P → gets_stuck p w → terminates p w.
Proof.
  intros Hc Hin. pose proof (cu_owned _ _ _ _ Hc _ _ Hin) as Ho. destruct p as [x|X guard act k]; [done|].
  intros [Hg [why E]]. specialize (Ho w (cu_inv _ _ _ _ Hc) (cu_holds _ _ _ _ Hc t)). rewrite E in Ho.
  simpl. split; [done|congruence].
Qed.

Lemma custody_all_finished {ASAN : AsanRuntime} w0 λo P w :
  custody_ok w0 λo P w → Forall (λ tp, finished tp.2) P →
  ∀ q, outstanding w q ↔ is_registered w q ∨ user_storage w0 q.
Proof.
  intros Hc Hf q. split.
  - intros [?|[[t [r Hr]]|?]]%(cu_accounted _ _ _ _ Hc); [by left| |by right].
    destruct (custody_finished _ _ _ _ _ _ _ Hc Hr) as (p & Hin & Hn).
    by apply (proj1 (Forall_forall _ _) Hf) in Hin.
  - intros [Hr|Hu]; [apply registered_outstanding; [apply Hc|done]|].
    by destruct (cu_foreign _ _ _ _ Hc q Hu) as [_ [? _]%(λ H, H 0)].
Qed.

(** ** A collector and an allocating thread on the heap of Scenario *)

Definition mutator_park : ParkEnv := {| pe_stack_marker := 262136; pe_registers := [addr_D] |}.
Definition mutator_env : CollectEnv := {| ce_scan := demo_env; ce_park := mutator_park; ce_start := 0; ce_now := 0 |}.

Definition duo : pool :=
  [(1, @collect no_asan no_finalizer 1 demo_collect_env);
   (2, @malloc_internal no_asan bump_allocator no_finalizer 2 mutator_env 24 8 0 false;; mret tt)].

(** The heap of Scenario with the statistics of its four allocations. *)
Definition duo_world : World :=
  set_mgr (set_stats (λ s, {| total_collections := 0; bytes_reclaimed_last := 0; blocks_reclaimed_last := 0;
    bytes_reclaimed_total := 0; duration_last := 0; duration_total := 0; total_allocations := 4;
    bytes_allocated_total := 128; peak_live_bytes := 128; peak_live_blocks := 4 |})) trio_world.

Lemma duo_inv : inv duo_world.
Proof.
  split.
  - by eapply heap_wf_ext, demo_wf.
  - split.
    + intros t s [[= -> ->]|[[= -> ->]|[]%elem_of_nil]%elem_of_cons]%elem_of_cons;
        (split; [done|done|by apply Forall_nil]).
    + intros r ->%list_elem_of_singleton. done.
    + by intros e [->|[->|[]%elem_of_nil]%elem_of_cons]%elem_of_cons.
    + done.
    + unfold counters. simpl. rewrite !Forall_cons, Forall_nil. done.
  - done.
  - intros p n a q m b. simpl. rewrite !lookup_insert_Some, !lookup_singleton_Some.
    intros Hp Hq. naive_solver lia.
  - intros p h. unfold header_at, outstanding. simpl. intros H.
    assert (∃ h0, headers demo_world !! p = Some h0 ∧ h = set_marked false h0) as (h0 & Hh & ->).
    { simpl. destruct (_ !! p); [|done]. injection H as <-. eauto. }
    clear H. simpl in Hh. rewrite !lookup_insert_Some, !lookup_singleton_Some in Hh.
    destruct Hh as [[<- <-]|[_ [[<- <-]|[_ [[<- <-]|[_ [<- <-]]]]]]]; (split; [by split|by eexists]).
Qed.

Lemma duo_start : @sound_start no_asan duo duo_world.
Proof.
  assert (park_typed mutator_park) as Hp2 by (split; [done|by repeat constructor]).
  assert (park_typed (ce_park demo_collect_env)) as Hp1 by (split; [done|by repeat constructor]).
  split; [split| |apply duo_inv].
  - vm_compute. repeat constructor; rewrite ?elem_of_cons, ?elem_of_nil; intros H; naive_solver.
  - intros t p [[= -> ->]|[[= -> ->]|[]%elem_of_nil]%elem_of_cons]%elem_of_cons.
    + apply neutral_collect. intros d p. apply neutral_done.
    + apply neutral_bind; [|intros; apply neutral_done]. refine (neutral_malloc_internal no_finalizer 2 mutator_env _ 24 8 0 false).
      intros d p. apply neutral_done.
  - repeat constructor.
  - done.
  - intros t. unfold paused, duo_world, trio_world, demo_world, demo_manager, demo_thread. simpl.
    by repeat case_match; simplify_eq.
  - intros t p [[= -> ->]|[[= -> ->]|[]%elem_of_nil]%elem_of_cons]%elem_of_cons.
    + apply tidy_collect; [intros; apply tidy_done|exact demo_env_ok|done].
    + apply tidy_bind; [|intros; apply tidy_done].
      refine (tidy_malloc_internal no_finalizer _ 2 mutator_env demo_env_ok Hp2 24 8 0 false _ _); [|done|done].
      intros d p. apply tidy_done.
Qed.

(** Thread 2 has its storage and its header when thread 1 stops the world and
    detaches the dead block; a register of thread 2 keeps [addr_D]. *)
Definition mid_collection : list thread_id := [2; 2; 2; 1; 2; 2; 1].

(** ** The theorems *)






(** A collector whose finalizers throw. *)
Definition solo_world : World := set_mgr (set_threads (λ _, [(1, demo_thread)])) duo_world.

Definition throwing_finalizer : DestructorFn → Z → proc unit := λ _ _, raise (user_exception 7).

Definition solo : pool := [(1, @collect no_asan throwing_finalizer 1 demo_collect_env)].

Lemma solo_start : @sound_start no_asan solo solo_world.
Proof.
  assert (park_typed (ce_park demo_collect_env)) as Hp by (split; [done|by repeat constructor]).
  split; [split| |].
  - repeat constructor. by intros ?%elem_of_nil.
  - intros t p [= -> ->]%list_elem_of_singleton. apply neutral_collect. intros d p. apply neutral_done.
  - repeat constructor.
  - done.
  - intros t. unfold paused. simpl. by repeat case_match; simplify_eq.
  - intros t p [= -> ->]%list_elem_of_singleton.
    apply tidy_collect; [intros; apply tidy_done|exact demo_env_ok|done].
  - destruct duo_inv as [Hwf [_ Hr Hw Hth Hst] Hpk Hap Hh]. split; [by eapply heap_wf_ext, Hwf| |done..].
    split; [|done..]. intros t s [= -> ->]%list_elem_of_singleton. by split; [..|apply Forall_nil].
Qed.




(** How a schedule that can go no further ended. *)
Lemma schedule_outcome {ASAN : AsanRuntime} P0 w0 P w :
  sound_start P0 w0 → steps (P0, w0) (P, w) → (∀ t c', ¬ step (P, w) t c') →
  (Forall (λ tp, finished tp.2) P ∧ control w = (None, false, false) ∧
     ∀ q, outstanding w q ↔ is_registered w q ∨ user_storage w0 q) ∨
  (∃ t p, (t, p) ∈ P ∧ terminates p w) ∨
  (∃ c t, collector_thread_ (mgr w) = Some c ∧ t ≠ c ∧ registered t w = true ∧ paused t w = false ∧
     ∀ p, (t, p) ∈ P → finished p).
Proof.
  intros Hst Hs Hno. destruct (steps_custody _ _ _ _ Hst Hs) as [λo Hc].
  destruct (proj2 (schedules_end P0 w0 (ss_start _ _ Hst)) P w Hs Hno) as [[Hf Hctl]|[(t & p & Hin & Hg)|Hdead]];
    [left|right; left|right; by right].
  - split_and!; [done..|]. by eapply custody_all_finished.
  - exists t, p. split; [done|]. by eapply custody_stuck.
Qed.


