(* ===== verification/CollectSafety.v ===== *)
(** * Collections under every interleaving

    What a collection does when it runs alone it does in every schedule: when
    the collector gets to its critical section the registry is well formed, the
    other registered threads are parked, and the words they parked with are
    among the roots. *)

From S2P Require Import Prelude Words Memory OrdMap Chunk Manager Heap Scanner Scenario Mark.
From S2P Require Import Finalize WeakRefs Sweep Threads Protocol Collect CollectSpec CollectorTheorems.
From S2P Require Import Roots Alloc Handles GcNew Diagnostics Disciplines Interleave Ownership Storage Tidiness HeapSafety.

(** Where the frames of a parked thread are: on its stack, or, when the
    sanitizer moved the frame that parks, in a fake frame and on the stack from
    the real one on. *)
Definition parked_stack {ASAN : AsanRuntime} (s : ThreadState) : list (Z * Z) :=
  if ts_fake_stack_handle s =? 0 then [(ts_parked_stack_top s, ts_stack_bottom s)]
  else
    match addr_is_in_fake_stack (ts_fake_stack_handle s) (ts_parked_stack_top s) with
    | Some (real, (fb, fe)) => [(fb, fe); (real, ts_stack_bottom s)]
    | None => [(ts_parked_stack_top s, ts_stack_bottom s)]
    end.

(** A word a thread held when it parked: in a register, or in its frames. *)
Definition parked_word {ASAN : AsanRuntime} (w : World) (s : ThreadState) (v : Z) : Prop :=
  v ∈ ts_register_spill s ∨
  ts_parked_stack_top s ≠ 0 ∧ ∃ lo hi a, (lo, hi) ∈ parked_stack s ∧ lo ≠ 0 ∧ hi ≠ 0 ∧
    (word_size | a) ∧ Z.min lo hi <= a ∧ a + word_size <= Z.max lo hi ∧
    region_is_poisoned a word_size = false ∧ load_word (mem w) a = v.

Lemma parked_word_candidate {ASAN : AsanRuntime} env m collector t s w v :
  t ≠ collector → ts_stack_bottom s ≠ 0 → mem w = m → parked_word w s v →
  v ∈ thread_candidates env m collector (t, s).
Proof.
  intros Hne Hb <- Hv. unfold thread_candidates. simpl.
  destruct (Z.eqb_spec (ts_stack_bottom s) 0), (Z.eqb_spec t collector); try done.
  apply elem_of_app. destruct Hv as [?|(Ht & lo & hi & a & Hin & Hlo & Hhi & Ha & Hmin & Hmax & Hp & <-)]; [by left|right].
  assert (load_word (mem w) a ∈ range_candidates (mem w) lo hi) as Hr
    by (apply list_elem_of_fmap_2, elem_of_scan_addrs; done).
  unfold stack_candidates, parked_stack in *.
  destruct (Z.eqb_spec (ts_parked_stack_top s) 0), (Z.eqb_spec (ts_stack_bottom s) 0); try done. simpl.
  repeat case_match; simplify_eq; rewrite ?elem_of_app;
    repeat (apply elem_of_cons in Hin as [[= -> ->]|Hin]); auto; by apply elem_of_nil in Hin.
Qed.

(** Its target survives. *)
Lemma parked_word_live {ASAN : AsanRuntime} env collector w t s v k b :
  heap_wf w → sm_find t (threads w) = Some s → t ≠ collector → ts_stack_bottom s ≠ 0 → parked_word w s v →
  (k, b) ∈ allocations w → k <= v < br_payload_end b → live env collector w k.
Proof.
  intros Hwf Ht Hne Hb Hv Hin Hk. apply (reach_root _ _ v k b); [|by apply find_block_spec].
  unfold roots_of, root_candidates. rewrite !elem_of_app. right. left. apply list_elem_of_bind.
  exists (t, s). split; [by eapply parked_word_candidate|by apply sm_find_elem].
Qed.

(** Thread 2 parks with [addr_D] in a register; then thread 1 can collect. *)
Definition parked_config : pool * World :=
  match schedule [2; 2; 2; 1; 2; 2] (duo, duo_world) with Some c => c | None => (duo, duo_world) end.

Lemma parked_config_steps : steps (duo, duo_world) parked_config.
Proof.
  assert (match schedule [2; 2; 2; 1; 2; 2] (duo, duo_world) with Some _ => True | None => False end) as Hv by (vm_compute; exact I).
  apply (schedule_steps [2; 2; 2; 1; 2; 2]). unfold parked_config.
  destruct (schedule _ (duo, duo_world)); [reflexivity|destruct Hv].
Qed.

Lemma parked_config_collector :
  ∃ k, parked_config.1 !! 0%nat = Some (1, Atomic (all_others_paused 1) (@collect_locked no_asan 1 demo_collect_env) k).
Proof. eexists. reflexivity. Qed.

(** C3. A collection is exact in every interleaving.  Whenever, in any schedule,
    the critical section of a collection can run, every other registered thread
    is parked; the section then either throws [bad_alloc] and leaves the
    manager as it is, or keeps exactly the blocks the roots reach and hands
    exactly the headers of the others to their finalization; and the roots
    include every word that a parked thread holds in its saved registers or in
    the live part of its stack. *)
Theorem collections_are_exact {ASAN : AsanRuntime} P0 w0 P w c env k :
  sound_start P0 w0 → steps (P0, w0) (P, w) → env_ok (ce_scan env) →
  (c, Atomic (all_others_paused c) (collect_locked c env) k) ∈ P → all_others_paused c w = true →
  (∀ t, t ≠ c → registered t w = true → paused t w = true) ∧
  match collect_locked c env w with
  | Throw e w' => e = bad_alloc ∧ may_fail w ∧ mgr w' = mgr w
  | Stuck _ => False
  | Ret hs w' =>
      collected env c w w' hs ∧
      ∀ t s v kb b, t ≠ c → sm_find t (threads w) = Some s → registered t w = true → parked_word w s v →
        (kb, b) ∈ allocations w → kb <= v < br_payload_end b → (kb, b) ∈ allocations w'
  end.
Proof.
  intros Hst Hs He Hin Hall. destruct (steps_custody _ _ _ _ Hst Hs) as [λo Hc].
  destruct (steps_pool_ok _ _ _ _ (ss_start _ _ Hst) Hs) as [φ Hok].
  pose proof (cu_inv _ _ _ _ Hc) as Hi. pose proof (iv_wf w Hi) as Hwf. split.
  - by apply all_others_paused_iff; [apply (po_protocol _ _ _ Hok c)|].
  - destruct (collect_locked_cases env c w Hwf (inv_roots_ok env He w Hi)) as [(w' & -> & Hf & Heq)|(hs & w' & -> & Hco)].
    + split_and!; [done..|]. exact (f_equal mgr (me_erase _ _ Heq)).
    + split; [done|]. intros t s v kb b Hne Ht Hr Hv Hb Hk. apply (co_alloc _ _ _ _ _ Hco). split; [done|].
      eapply parked_word_live; try done. intros E. unfold registered, find_thread_state_locked in Hr.
      by rewrite Ht, E in Hr.
Qed.

Lemma collections_are_exact_witness :
  ∃ hs w', @collect_locked no_asan 1 demo_collect_env parked_config.2 = Ret hs w' ∧
    paused 2 parked_config.2 = true ∧ (addr_D, demo_record 4288) ∈ allocations w' ∧ hs = [4224].
Proof.
  assert (match @collect_locked no_asan 1 demo_collect_env parked_config.2 with
    | Ret hs _ => hs = [4224] | _ => False end) as Hv by (vm_compute; reflexivity).
  assert (all_others_paused 1 parked_config.2 = true ∧ registered 2 parked_config.2 = true ∧
    (ts_register_spill <$> sm_find 2 (threads parked_config.2)) = Some [addr_D] ∧
    last (allocations parked_config.2) = Some (addr_D, demo_record 4288)) as (Hall & Hr & Hspill & Hlast)
    by (vm_compute; repeat split).
  destruct parked_config_collector as [k Hk]. apply list_elem_of_lookup_2 in Hk.
  pose proof (@collections_are_exact no_asan duo duo_world parked_config.1 parked_config.2 1 demo_collect_env k
    duo_start) as Hex.
  rewrite <-surjective_pairing in Hex. specialize (Hex parked_config_steps demo_env_ok Hk Hall).
  destruct Hex as [Hp Hex]. specialize (Hp 2 ltac:(discriminate) Hr).
  destruct (sm_find 2 (threads parked_config.2)) as [s|] eqn:Es; [|discriminate Hspill]. injection Hspill as Hspill.
  destruct (@collect_locked no_asan 1 demo_collect_env parked_config.2) as [hs w'|e w'|]; [|destruct Hv..].
  exists hs, w'. split; [reflexivity|]. split; [exact Hp|]. split; [|exact Hv].
  apply (proj2 Hex 2 s addr_D addr_D); [discriminate|exact Es|exact Hr|left; rewrite Hspill; left| |].
  - apply last_Some_elem_of. exact Hlast.
  - vm_compute. split; [discriminate|reflexivity].
Defined.
