(* ===== verification/Refinement.v ===== *)
(** * The library refines its contract

    The forward simulation: the ledger of a world is the abstract state, and
    whatever a thread does in a pool of tidy programs is one transition of the
    contract. *)

From S2P Require Import Prelude Words Memory OrdMap Chunk Manager Heap Scanner Scenario Mark.
From S2P Require Import Finalize WeakRefs Sweep Threads Protocol Collect CollectSpec Contract.
From S2P Require Import Interleave Ownership HeapSafety CollectSafety.

Section Simulation.
Context {ASAN : AsanRuntime}.

Lemma step_transition w0 λo P w t P' w' :
  custody_ok w0 λo P w → step (P, w) t (P', w') → transition (ledger w) (ledger w').
Proof.
  intros Hc Hs. inversion Hs as [l1 t0 p l2 w1 p' w2 Hps E1 E2 E3]; subst.
  assert ((t, p) ∈ l1 ++ (t, p) :: l2) as Hin by (apply elem_of_app; right; left).
  destruct (owned_step p _ (λo t) w p' w' (cu_inv _ _ _ _ Hc) (cu_holds _ _ _ _ Hc t) (cu_owned _ _ _ _ Hc _ _ Hin) Hps)
    as (L' & Hos & _). apply Hos.
Qed.

Lemma reached_transition P0 w0 P w t P' w' :
  sound_start P0 w0 → steps (P0, w0) (P, w) → step (P, w) t (P', w') → transition (ledger w) (ledger w').
Proof. intros Hst Hs. destruct (steps_custody _ _ _ _ Hst Hs) as [λo Hc]. by apply (step_transition w0 λo P w t P'). Qed.

Lemma reached_transitions P0 w0 c :
  sound_start P0 w0 → steps (P0, w0) c → rtc transition (ledger w0) (ledger c.2).
Proof.
  intros Hst. revert c. apply (rtc_ind_r (λ c, rtc transition (ledger w0) (ledger c.2))); [apply rtc_refl|].
  intros [P1 w1] [P2 w2] Hs [t Ht] IH. eapply rtc_r; [exact IH|]. by eapply (reached_transition P0 w0 P1 w1 t P2).
Qed.
End Simulation.


