(* ===== verification/Leaving.v ===== *)
(** * Threads that leave, running together and alone

    A pool whose threads end unregistered never blocks.  A program that runs
    alone is such a pool: it returns, throws or terminates the process.  What
    [collect] and [shutdown] establish when they return, the scope of a
    registration, and the states in which nobody is registered. *)

From S2P Require Import Prelude Words Memory OrdMap Chunk Manager Heap Scanner Scenario Mark.
From S2P Require Import Finalize WeakRefs Sweep Threads Protocol Collect CollectSpec CollectorTheorems.
From S2P Require Import Roots Alloc Handles GcNew Diagnostics Disciplines Enrolment Interleave.
From S2P Require Import Ownership Storage Tidiness HeapSafety.

(** ** No thread is left behind *)

(** Distinct threads whose programs leave; nobody else is registered. *)
Record leaving_start {ASAN : AsanRuntime} (P : pool) (w : World) : Prop := {
  ls_sound : sound_start P w;
  ls_leaves : ∀ t p, (t, p) ∈ P → leaves t p (registered t w);
  ls_absent : ∀ t, t ∉ P.*1 → registered t w = false;
}.

Definition all_leave (P : pool) (w : World) : Prop :=
  (∀ t p, (t, p) ∈ P → leaves t p (registered t w)) ∧ ∀ t, t ∉ P.*1 → registered t w = false.

Lemma step_ok_others me ph ph' w w' t :
  t ≠ me → step_ok me ph ph' w w' → sm_find t (threads w') = sm_find t (threads w).
Proof.
  intros Hne H. induction H as [ph w w' Ha Hpub|ph w w' Ha Hrun Hc Ho Hp|w w' Hreg Hpub|
      ph' w w' Hrun H IH|w w' Hreg Hc Ho Hp Hr'|ph' w w1 w' Hs Hc Ho Hp H IH|
      w w' Hcol Hc Ht|w w' Hc Ht].
  all: try (by rewrite Ht); try (by rewrite (proj1 (publishes_same _ _ Hpub))); try done; try by apply Ho.
  rewrite IH. by apply Ho.
Qed.

Lemma step_all_leave φ P w t P' w' :
  pool_ok φ P w → all_leave P w → step (P, w) t (P', w') → all_leave P' w'.
Proof.
  intros Hok [Hl Ha] Hs. destruct (step_pool_ok _ _ _ _ _ _ Hok Hs) as (ph' & Hso & _).
  assert (∀ t1, t1 ≠ t → registered t1 w' = registered t1 w) as Hother.
  { intros t1 Hne. by apply same_entry, (step_ok_others t (φ t) ph'). }
  pose proof (lo_wf _ _ _ (po_protocol _ _ _ Hok t)) as Hwf. pose proof (po_distinct _ _ _ Hok) as Hd.
  inversion Hs as [l1 t0 p l2 w0 p' w1 Hps E1 E2 E3]; subst.
  assert ((t, p) ∈ l1 ++ (t, p) :: l2) as Hin by (apply elem_of_app; right; left).
  split.
  - intros t1 p1 [[-> ->]|[Hne Hin1]]%(pool_update_elem l1 l2 t p p'); [|rewrite Hother by done; by apply Hl|done].
    specialize (Hl t p Hin). apply pstep_inv in Hps. destruct p as [r|X g a k]; [done|].
    destruct Hps as (Hg & r & Hy & ->). by apply (Hl w r w').
  - intros t1 Hn1. assert (t1 ∉ (l1 ++ (t, p) :: l2).*1) as Hn by by rewrite fmap_app in *.
    rewrite Hother; [by apply Ha|]. intros ->. by apply Hn, (list_elem_of_fmap_2' fst _ (t, p)).
Qed.

Lemma steps_all_leave c c' :
  steps c c' → (∃ φ, pool_ok φ c.1 c.2) → all_leave c.1 c.2 → all_leave c'.1 c'.2.
Proof.
  induction 1 as [c|[P1 w1] [P2 w2] c3 [t Ht] _ IH]; [done|]. intros [φ Hok] Hl. apply IH.
  - destruct (step_pool_ok _ _ _ _ _ _ Hok Ht) as (ph' & _ & Hok'). by eexists.
  - by eapply step_all_leave.
Qed.

(** A finished program has left. *)
Lemma finished_unregistered P w t :
  all_leave P w → (∀ p, (t, p) ∈ P → finished p) → registered t w = false.
Proof.
  intros [Hl Ha] Hf. destruct (decide (t ∈ P.*1)) as [Hin|Hn]; [|by apply Ha].
  apply list_elem_of_fmap in Hin as ([t' p] & -> & Hin). specialize (Hl _ _ Hin). specialize (Hf p Hin).
  by destruct p.
Qed.

Lemma leaving_end {ASAN : AsanRuntime} P0 w0 P w : leaving_start P0 w0 → steps (P0, w0) (P, w) → all_leave P w.
Proof.
  intros [Hst Hl Ha] Hs. apply (steps_all_leave _ _ Hs); [|done]. eexists. by apply start_ok, Hst.
Qed.

Lemma leaving_outcome {ASAN : AsanRuntime} P0 w0 P w :
  leaving_start P0 w0 → steps (P0, w0) (P, w) → (∀ t c', ¬ step (P, w) t c') →
  (Forall (λ tp, finished tp.2) P ∧ control w = (None, false, false) ∧ (∀ t, registered t w = false) ∧
     ∀ q, outstanding w q ↔ is_registered w q ∨ user_storage w0 q) ∨
  ∃ t p, (t, p) ∈ P ∧ terminates p w.
Proof.
  intros Hls Hs Hno. pose proof (leaving_end _ _ _ _ Hls Hs) as Hleave. destruct Hls as [Hst _ _].
  destruct (schedule_outcome P0 w0 P w Hst Hs Hno) as [(Hf & Hc & Hq)|[?|(c & t & _ & _ & Hr & _ & Hf)]]; [left|by right|].
  - split_and!; [done..| |done]. intros t. apply (finished_unregistered P); [done|].
    intros p Hin. by apply (proj1 (Forall_forall _ _) Hf) in Hin.
  - exfalso. by rewrite (finished_unregistered P w t Hleave Hf) in Hr.
Qed.

(** Finished programs have no step. *)
Lemma finished_no_step P w : Forall (λ tp, finished tp.2) P → ∀ t c', ¬ step (P, w) t c'.
Proof.
  intros Hf t c' H. inversion H as [a0 t0 p a1 w0 p' w1 Hps E1 E2 E3]; subst.
  apply Forall_app in Hf as [_ Hf%Forall_cons]. destruct Hf as [Hf _]. apply pstep_inv in Hps. by destruct p.
Qed.

(** ** One thread alone *)

Lemma psteps_exec {A} (p p' : proc A) w w' : rtc pstep (p, w) (p', w') → exec p w = exec p' w'.
Proof.
  intros H. remember (p, w) as c eqn:Ec. remember (p', w') as c' eqn:Ec'.
  induction H as [c|c [p1 w1] c2 Hs _ IH] in p, w, Ec, Ec' |- *; [by rewrite Ec in Ec'; simplify_eq|]. subst c.
  rewrite <-(IH p1 w1 eq_refl Ec'). apply pstep_inv in Hs. destruct p as [r|X g a k]; [done|].
  destruct Hs as (Hg & r & Hy & ->). simpl. unfold yields in Hy. rewrite Hg, Hy. by destruct r.
Qed.

(** The uninterrupted run goes as far as it can. *)
Lemma psteps_maximal {A} (p : proc A) w :
  ∃ p' w', rtc pstep (p, w) (p', w') ∧ ∀ c, ¬ pstep (p', w') c.
Proof.
  revert w. induction p as [r|X g a k IH]; intros w.
  { exists (Done r), w. split; [done|]. intros [p' w'] H. by apply pstep_inv in H. }
  assert (g w = true → ∀ r w1, yields a w r w1 →
    ∃ p' w', rtc pstep (Atomic g a k, w) (p', w') ∧ ∀ c, ¬ pstep (p', w') c) as Hgo.
  { intros Hg r w1 Hy. destruct (IH r w1) as (p' & w' & Hs & Hm). exists p', w'. split; [|done].
    eapply rtc_l, Hs. unfold yields in Hy. destruct r; [by eapply pstep_ret|by eapply pstep_throw]. }
  assert ((∀ c, ¬ pstep (Atomic g a k, w) c) →
    ∃ p' w', rtc pstep (Atomic g a k, w) (p', w') ∧ ∀ c, ¬ pstep (p', w') c) as Hstop.
  { intros H. exists (Atomic g a k), w. split; [reflexivity|done]. }
  destruct (g w) eqn:Hg.
  - destruct (a w) as [x w1|e w1|why] eqn:E; [by apply (Hgo eq_refl (Ok x) w1)|by apply (Hgo eq_refl (Raise e) w1)|].
    apply Hstop. intros [p' w'] H. apply pstep_inv in H as (_ & r & Hy & _). unfold yields in Hy. rewrite E in Hy. by destruct r.
  - apply Hstop. intros [p' w'] H. apply pstep_inv in H as (H & _). congruence.
Qed.

Lemma psteps_steps t (p p' : proc unit) w w' :
  rtc pstep (p, w) (p', w') → steps ([(t, p)], w) ([(t, p')], w').
Proof.
  intros H. remember (p, w) as c eqn:Ec. remember (p', w') as c' eqn:Ec'.
  induction H as [c|c [p1 w1] c2 Hs _ IH] in p, w, Ec, Ec' |- *; [rewrite Ec in Ec'; simplify_eq; reflexivity|]. subst c.
  eapply rtc_l, IH, Ec'; [|reflexivity]. exists t. by apply (step_thread [] t p []).
Qed.

(** A program alone, with no other thread registered. *)
Record alone_start {ASAN : AsanRuntime} (t : thread_id) (p : proc unit) (w : World) : Prop := {
  as_sound : sound_start [(t, p)] w;
  as_alone : ∀ t', t' ≠ t → registered t' w = false;
}.

Lemma alone_others {ASAN : AsanRuntime} t p p' w w' t' :
  sound_start [(t, p)] w → steps ([(t, p)], w) ([(t, p')], w') → t' ≠ t → registered t' w' = registered t' w.
Proof.
  intros Hst Hs Hne. assert (∃ φ, pool_ok φ [(t, p)] w) as Hok by (eexists; by apply start_ok, Hst). clear Hst.
  remember ([(t, p)], w) as c eqn:Ec. remember ([(t, p')], w') as c' eqn:Ec'.
  induction Hs as [c|c [P1 w1] c2 [t1 H] _ IH] in p, w, Ec, Ec', Hok |- *; [by rewrite Ec in Ec'; simplify_eq|]. subst c.
  destruct Hok as [φ Hok]. destruct (step_pool_ok _ _ _ _ _ _ Hok H) as (ph' & Hso & Hok').
  inversion H as [l1 t0 q l2 w0 q' w2 Hq E1 E2 E3]; subst. destruct l1 as [|? [|]]; simpl in *; simplify_eq.
  rewrite (IH q' w1) by (done || by eexists). by apply same_entry, (step_ok_others t (φ t) ph').
Qed.

Lemma alone_outcome {ASAN : AsanRuntime} t p w :
  alone_start t p w →
  exec p w = Stuck Terminated ∨
  ∃ r w', exec p w = match r with Ok a => Ret a w' | Raise e => Throw e w' end ∧
    steps ([(t, p)], w) ([(t, Done r)], w') ∧
    control w' = (None, false, false) ∧ (∀ t', t' ≠ t → registered t' w' = false) ∧
    ∀ q, outstanding w' q ↔ is_registered w' q ∨ user_storage w q.
Proof.
  intros [Hst Ha]. destruct (psteps_maximal p w) as (p' & w' & Hps & Hm).
  assert (∀ t1 c, ¬ step ([(t, p')], w') t1 c) as Hno.
  { intros t1 c H. inversion H as [l1 t0 q l2 w0 q' w1 Hq E1 E2 E3]; subst.
    destruct l1 as [|? [|]]; simpl in E1; simplify_eq. by eapply Hm. }
  pose proof (psteps_steps t _ _ _ _ Hps) as Hs. rewrite (psteps_exec _ _ _ _ Hps).
  assert (∀ t', t' ≠ t → registered t' w' = false) as Ha'.
  { intros t' Hne. rewrite (alone_others t p p' w w') by done. by apply Ha. }
  destruct (schedule_outcome _ _ _ _ Hst Hs Hno) as [(Hf & Hc & Hq)|[(t1 & q & Hin & Ht)|(c & t1 & Hc & Hne & Hr & _)]].
  - right. apply Forall_cons in Hf as [Hf _]. simpl in Hf. destruct p' as [r|]; [|done]. exists r, w'. split_and!; [|done..].
    by destruct r.
  - left. apply list_elem_of_singleton in Hin as [= -> ->]. destruct p' as [|X g a k]; [done|].
    destruct Ht as [Hg Hact]. simpl. by rewrite Hg, Hact.
  - exfalso. destruct (steps_pool_ok _ _ _ _ (ss_start _ _ Hst) Hs) as [φ Hok].
    assert (c = t) as ->; [|by rewrite Ha' in Hr].
    destruct (decide (c = t)) as [|Hct]; [done|].
    pose proof (proj2 (lo_owner _ _ _ (po_protocol _ _ _ Hok c)) Hc) as Ho.
    rewrite (po_absent _ _ _ Hok c) in Ho; [done|]. by intros ?%list_elem_of_singleton.
Qed.

(** ** What holds when a program returns *)

Definition ends {A} (p : proc A) (Q : A → World → Prop) (w : World) : Prop :=
  ∀ a w', exec p w = Ret a w' → Q a w'.

Definition returns {A} (m : M World A) (Q : A → World → Prop) (w : World) : Prop :=
  ∀ a w', m w = Ret a w' → Q a w'.

Lemma ends_bind {A B} (p : proc A) (f : A → proc B) Q w :
  ends p (λ a w', ends (f a) Q w') w → ends (p ≫= f) Q w.
Proof. intros H b w'. rewrite exec_bind. destruct (exec p w) as [a w1| |] eqn:E; [by apply H|done..]. Qed.

Lemma ends_mono {A} (p : proc A) (Q Q' : A → World → Prop) w :
  (∀ a w', Q a w' → Q' a w') → ends p Q w → ends p Q' w.
Proof. intros HQ H a w' E. by apply HQ, H. Qed.

Lemma ends_ret {A} (a : A) (Q : A → World → Prop) w : Q a w → ends (mret a) Q w.
Proof. intros H b w' E. by injection E as <- <-. Qed.

Lemma ends_atomic {A} (m : M World A) Q w : returns m Q w → ends (atomic m) Q w.
Proof. intros H a w' E. rewrite exec_atomic in E. by apply H. Qed.

Lemma ends_locked {ASAN : AsanRuntime} me env {A} (m : M World A) Q w :
  may_run me w = true → returns m Q w → ends (locked me env m) Q w.
Proof. intros Hr H a w' E. rewrite exec_locked in E by done. by apply H. Qed.

Lemma ends_noexcept {A} (p : proc A) Q w : ends p Q w → ends (noexcept p) Q w.
Proof. intros H a w'. unfold noexcept. rewrite exec_bind_result. destruct (exec p w) eqn:E; [|done..]. intros [= -> ->]. by apply H. Qed.

Lemma returns_bind {A B} (m : M World A) (f : A → M World B) Q w :
  returns m (λ a w', returns (f a) Q w') w → returns (m ≫= f) Q w.
Proof.
  intros H b w' E. unfold mbind, M_bind in E. destruct (m w) as [a w1| |] eqn:Em; [|done..]. by apply (H a w1 Em).
Qed.

Lemma returns_mono {A} (m : M World A) (Q Q' : A → World → Prop) w :
  (∀ a w', Q a w' → Q' a w') → returns m Q w → returns m Q' w.
Proof. intros HQ H a w' E. by apply HQ, H. Qed.

Lemma returns_keep {A} (m : M World A) w : calm m → returns m (λ _ w', threads w' = threads w ∧ control w' = control w) w.
Proof. intros Hc a w' E. by apply (Hc w (Ok a) w'). Qed.

Lemma noexcept_no_throw {A} (p : proc A) w e w' : exec (noexcept p) w ≠ Throw e w'.
Proof. unfold noexcept. rewrite exec_bind_result. by destruct (exec p w). Qed.

(** ** At rest: nobody stops the world *)

Definition idle (w : World) : Prop := control w = (None, false, false).

Lemma idle_parts me w : idle w → may_run me w = true ∧ collecting_ (mgr w) = false.
Proof. unfold idle, control, may_run. intros [= _ -> ->]. done. Qed.

Record resting (me : thread_id) (w : World) : Prop := {
  re_local : local_ok me Running w;
  re_idle : idle w;
}.

Lemma step_ok_idle me ph ph' w w' :
  (ph ≠ Owner → idle w) → step_ok me ph ph' w w' → ph' ≠ Owner → idle w'.
Proof.
  unfold idle. intros Hi H. induction H as [ph w w' Ha Hpub|ph w w' Ha Hrun Hc Ho Hp|w w' Hreg Hpub|
      ph' w w' Hrun H IH|w w' Hreg Hc Ho Hp Hr'|ph' w w1 w' Hs Hc Ho Hp H IH|
      w w' Hcol Hc Ht|w w' Hc Ht]; intros Hn; try (rewrite (proj2 (publishes_same _ _ Hpub))); try rewrite Hc; try (by apply Hi); try done.
  all: apply IH; [|done]; intros _; rewrite ?Hc; by apply Hi.
Qed.

Lemma disciplined_exec me {A} (p : proc A) Q ph w a w' :
  local_ok me ph w → (ph ≠ Owner → idle w) → disciplined me p Q ph → exec p w = Ret a w' →
  ∃ ph', Q (Ok a) ph' ∧ local_ok me ph' w' ∧ (ph' ≠ Owner → idle w').
Proof.
  revert ph w. induction p as [r|X g act k IH]; intros ph w Hl Hi Hd E; simpl in E.
  - destruct r; [|done]. injection E as -> ->. by exists ph.
  - destruct (g w) eqn:Hg; [|done]. assert (∃ r w1, yields act w r w1 ∧ exec (k r) w1 = Ret a w') as (r & w1 & Hy & E').
    { unfold yields. destruct (act w) as [x w1|e w1|]; [by exists (Ok x), w1|by exists (Raise e), w1|done]. }
    destruct (proj2 Hd w r w1 Hl Hg Hy) as (ph1 & Hs & Hd1). apply (IH r ph1 w1); try done.
    + by eapply step_ok_local.
    + by eapply step_ok_idle.
Qed.

(** A neutral program that returns leaves the world at rest. *)
Lemma ends_neutral me {A} (p : proc A) w : Neutral me p → resting me w → ends p (λ _ w', resting me w') w.
Proof.
  intros Hn [Hl Hi] a w' E.
  destruct (disciplined_exec me p _ Running w a w' Hl (λ _, Hi) (Hn Running (or_introl eq_refl)) E) as (ph & -> & Hl' & Hi').
  split; [done|by apply Hi'].
Qed.

(** Nothing is registered any more. *)
Definition emptied (w : World) : Prop := allocations w = [] ∧ weak_refs w = [].

Section Closing.
Context {ASAN : AsanRuntime} (dtor : DestructorFn → Z → proc unit) (me : thread_id).

(** Finalizers that allocate nothing and make no weak handle. *)
Hypothesis dtor_empties : ∀ d p w, emptied w → ends (dtor d p) (λ _ w', emptied w') w.

Lemma emptied_mgr w w' : mgr w' = mgr w → emptied w → emptied w'.
Proof. unfold emptied. by intros ->. Qed.

Lemma ends_destroy_blocks hs w : emptied w → ends (destroy_blocks dtor hs) (λ _ w', emptied w') w.
Proof.
  intros He. unfold destroy_blocks. apply ends_bind. eapply (ends_mono _ (λ _ w', emptied w')).
  - intros [] w1 H1. revert w1 H1. induction hs as [|h hs IH]; intros w1 H1; simpl; [by apply ends_ret|].
    apply ends_bind, ends_atomic. intros [] w2 E. apply IH, (emptied_mgr w1); [|done].
    by apply (private_free_block_memory h w1 (Ok tt)).
  - revert w He. induction hs as [|h hs IH]; intros w He; simpl; [by apply ends_ret|]. apply ends_bind.
    eapply (ends_mono _ (λ _ w', emptied w')); [by intros [] w1 H1; apply IH|].
    unfold finalize_block. case_match; [by apply ends_ret|]. apply ends_bind, ends_atomic. intros hd w1 E.
    apply (private_read_header h w (Ok hd) w1) in E. case_match; [by apply ends_ret, (emptied_mgr w)|].
    apply ends_bind, ends_atomic. intros [] w2 [= <-]. intros [] w3. rewrite exec_bind_result.
    match goal with |- match exec ?q ?v with _ => _ end = _ → _ => destruct (exec q v) as [[] w4|e w4|] eqn:Ed end; [|done..].
    intros [= <-]. eapply dtor_empties, Ed. by apply (emptied_mgr w).
Qed.

Lemma returns_shutdown_locked w : returns shutdown_locked (λ _, emptied) w.
Proof.
  unfold shutdown_locked. apply returns_bind. intros w1 w2 [= <- <-]. apply returns_bind. intros [] w1 _.
  apply returns_bind. unfold detach_all_blocks_locked. apply returns_bind. intros [] w2 _.
  apply returns_bind. intros w3 w4 [= <- <-]. apply returns_bind. intros hs w5 _.
  intros hs' w6 [= <- <-]. apply returns_bind. intros [] w7 E. intros hs'' w8 [= <- <-]. split; [|done].
  simpl. match type of E with foldM ?f _ tt _ = _ => assert (∀ l v, allocations v = [] →
    returns (foldM f l tt) (λ _ v2, allocations v2 = []) v) as Hl end.
  { induction l as [|e l IH]; intros v H1; [by intros [] v2 [= <-]|]. apply returns_bind.
    unfold when. case_match; intros [] v2 [= <-]; by apply IH. }
  refine (Hl _ _ _ tt w7 E). done.
Qed.

Lemma ends_shutdown env w : idle w → ends (shutdown dtor me env) (λ _ w', emptied w') w.
Proof.
  intros Hw. destruct (idle_parts me w Hw) as [Hrun Hc]. unfold shutdown. apply ends_bind, ends_locked; [done|].
  unfold shutdown_enter. apply returns_bind. intros w1 w2 [= <- <-]. rewrite Hc. intros b w1 [= <- <-]. cbn [negb].
  intros a w'. simpl. destruct (all_others_paused _ _); [|done].
  match goal with |- match ?m with _ => _ end = _ → _ => destruct m as [hs w1|e w1|] eqn:E end; [|done|done].
  intros Ex. refine (ends_bind (destroy_blocks dtor hs) _ (λ _ w', emptied w') w1 _ a w' Ex).
  eapply ends_mono, ends_destroy_blocks; [|by eapply returns_shutdown_locked].
  intros [] w2 E2. apply ends_atomic. by intros [] w3 [= <-].
Qed.

Lemma ends_unregister env b w :
  idle w → emptied w → ends (destroy_ScopedThreadRegistration me env b) (λ _, emptied) w.
Proof.
  intros Hw He. unfold destroy_ScopedThreadRegistration. case_match; [|by apply ends_ret].
  apply ends_noexcept, ends_locked; [by apply idle_parts|]. by intros [] w' [= <-].
Qed.
End Closing.

(** ** The scope of a registration *)

Section Scope.
Context {ASAN : AsanRuntime} (me : thread_id).

Lemma neutral_in_scope env env' limits body : Neutral me body → Neutral me (in_scope me env env' limits body).
Proof.
  intros Hb. unfold in_scope, ScopedThreadRegistration, register_current_thread, destroy_ScopedThreadRegistration, noexcept.
  neutral.
Qed.

Lemma tidy_in_scope env env' limits body :
  park_typed env → park_typed env' → limits_typed limits → Tidy body → Tidy (in_scope me env env' limits body).
Proof. intros He He' Hl Hb. unfold in_scope. tidy. Qed.

End Scope.

(** ** Nobody registered *)

(** A process before it uses the collector, and as the workers leave it. *)
Record unenrolled (w : World) : Prop := {
  un_inv : inv w;
  un_idle : idle w;
  un_wf : sm_wf (threads w);
  un_registered : ∀ t, registered t w = false;
  un_paused : ∀ t, paused t w = false;
}.

Lemma unenrolled_start {ASAN : AsanRuntime} P w :
  unenrolled w → NoDup P.*1 → (∀ t p, (t, p) ∈ P → Neutral t p ∧ Tidy p ∧ leaves t p false) → leaving_start P w.
Proof.
  intros [Hi Hc Hwf Hr Hp] Hd HP. split; [split; [split|..]|..]; try done; intros t p Hin;
    destruct (HP t p Hin) as (? & ? & ?); [done..|by rewrite Hr].
Qed.

Lemma unenrolled_end {ASAN : AsanRuntime} P0 w0 P w :
  leaving_start P0 w0 → steps (P0, w0) (P, w) → idle w → (∀ t, registered t w = false) → unenrolled w.
Proof.
  intros [Hst _ _] Hs Hc Hr. destruct (steps_custody _ _ _ _ Hst Hs) as [λo Hcu].
  destruct (steps_pool_ok _ _ _ _ (ss_start _ _ Hst) Hs) as [φ Hok]. pose proof (po_protocol _ _ _ Hok) as Hp.
  split; [apply Hcu|done|apply (Hp 0)|done|]. intros t. destruct (paused t w) eqn:E; [|done].
  pose proof (lo_registered _ _ _ (Hp t) (proj2 (lo_paused _ _ _ (Hp t)) E)). by rewrite Hr in H.
Qed.

Lemma unenrolled_resting me w : unenrolled w → resting me w.
Proof.
  intros [_ Hi Hwf Hr Hp]. split; [|done]. split; try done; [by left| |by rewrite Hp].
  split; [done|]. unfold idle, control in Hi. congruence.
Qed.

Lemma unenrolled_alone {ASAN : AsanRuntime} t p w : unenrolled w → Neutral t p → Tidy p → alone_start t p w.
Proof.
  intros [Hi Hc Hwf Hr Hp] Hn Ht. split; [|by intros]. split; [split|..]; try done; [apply NoDup_singleton|..];
    by intros t' p' [= -> ->]%list_elem_of_singleton.
Qed.
