(* ===== verification/Survival.v ===== *)
(** * What the roots of a running program keep

    A program that runs alone and uses neither weak handles nor finalizers.
    [has cells bs m out w]: the root ranges [cells] and the blocks [bs] are
    registered, the addresses the allocator keeps clear of ([held]) and the blocks
    [bs] hold the bytes they hold in [m], and [out] is what has been printed.  As
    long as every block of [bs] hangs on a cell, every operation that returns keeps
    that, collections included. *)

From S2P Require Import Prelude Words Memory OrdMap Chunk Manager Heap Scanner Scenario Mark.
From S2P Require Import Finalize WeakRefs Sweep Threads Protocol Collect CollectSpec CollectorTheorems.
From S2P Require Import Roots Alloc Handles GcNew Slots Diagnostics Disciplines Enrolment Interleave.
From S2P Require Import Ownership Storage Tidiness HeapSafety Leaving.

(** What a program has printed. *)
Definition printed (w : World) : list String.string :=
  e ← log w; match e with EvPrint line => [line] | _ => [] end.

Lemma printed_log e w : printed (add_log e w) = printed w ++ match e with EvPrint line => [line] | _ => [] end.
Proof. unfold printed. simpl. rewrite bind_app. simpl. by destruct e. Qed.

(** ** Programs that return keep the invariant *)

Lemma ends_owned {ASAN : AsanRuntime} {A} (p : proc A) Q L w :
  owned p Q L → inv w → holds L w → ends p (λ a w', inv w' ∧ ∃ L', holds L' w' ∧ Q (Ok a) L') w.
Proof.
  revert L w. induction p as [r|X g act k IH]; intros L w Ho Hi Hl a w' E; simpl in E.
  - destruct r; [|done]. injection E as -> ->. split; [done|by exists L].
  - destruct (g w); [|done]. specialize (Ho w Hi Hl).
    destruct (act w) as [x w1|e w1|]; [| |done]; destruct Ho as (L1 & [Hi1 Hl1 _ _] & Ho);
      exact (IH _ L1 w1 Ho Hi1 Hl1 a w' E).
Qed.

Lemma ends_and {A} (p : proc A) Q Q' w : ends p Q w → ends p Q' w → ends p (λ a w', Q a w' ∧ Q' a w') w.
Proof. intros H H' a w' E. auto. Qed.

(** At rest, with the blocks of [L] in hand. *)
Record calmly (me : thread_id) (L : holding) (w : World) : Prop := {
  cy_inv : inv w;
  cy_holds : holds L w;
  cy_resting : resting me w;
}.

Lemma ends_calmly {ASAN : AsanRuntime} me L {A} (p : proc A) Q w :
  Tidy p → Neutral me p → calmly me L w → ends p Q w → ends p (λ a w', calmly me L w' ∧ Q a w') w.
Proof.
  intros Ht Hn [Hi Hl Hr] Hp. apply ends_and; [|done]. intros a w' E.
  destruct (ends_owned p _ L w (Ht L) Hi Hl a w' E) as (Hi' & L' & Hl' & ->).
  split; [done..|by eapply ends_neutral].
Qed.

Lemma calmly_run me L w : calmly me L w → may_run me w = true ∧ collecting_ (mgr w) = false.
Proof. intros [_ _ [_ Hi]]. by apply idle_parts. Qed.

(** ** Data that hangs on cells *)

Section Data.
Context {ASAN : AsanRuntime} (held : Z → Prop) (cells : list RootRange) (bs : registry) (m : memory).

Definition protected (a : Z) : Prop := held a ∨ ∃ k b, (k, b) ∈ bs ∧ k <= a < br_payload_end b.

Record has (out : list String.string) (w : World) : Prop := {
  hs_cells : ∀ r, r ∈ cells → r ∈ root_ranges w;
  hs_blocks : ∀ kb, kb ∈ bs → kb ∈ allocations w;
  hs_mem : ∀ a, protected a → load_byte (mem w) a = load_byte m a;
  hs_weak : weak_refs w = [];
  hs_out : printed w = out;
}.

(** Reached from a cell through the blocks. *)
Inductive hangs : Z → Prop :=
| hangs_cell r a k b :
    r ∈ cells → a ∈ scan_addrs (rr_begin r) (rr_end r) → (k, b) ∈ bs → k <= load_word m a < br_payload_end b → hangs k
| hangs_block k b a k' b' :
    hangs k → (k, b) ∈ bs → a ∈ word_addrs k (br_payload_end b) → (k', b') ∈ bs →
    k' <= load_word m a < br_payload_end b' → hangs k'.

(** Cells are held, and blocks hang. *)
Record hanging : Prop := {
  hg_cells : ∀ r a, r ∈ cells → rr_begin r <= a < rr_end r → held a;
  hg_order : ∀ r, r ∈ cells → rr_begin r < rr_end r;
  hg_blocks : ∀ k b, (k, b) ∈ bs → hangs k;
}.

Lemma has_same out w w' :
  root_ranges w' = root_ranges w → allocations w' = allocations w → mem w' = mem w → weak_refs w' = weak_refs w →
  printed w' = printed w → has out w → has out w'.
Proof. intros E1 E2 E3 E4 E5 []. split; rewrite ?E1, ?E2, ?E3, ?E4, ?E5; done. Qed.

Lemma has_word out w a : has out w → (∀ x, a <= x < a + 8 → protected x) → load_word (mem w) a = load_word m a.
Proof. intros Hk Ha. apply load_word_ext. intros x Hx. by apply (hs_mem out w Hk), Ha. Qed.

Lemma hangs_live out w env me k :
  heap_wf w → has out w → hanging → hangs k → live env me w k.
Proof.
  intros Hwf Hk [Hheld Hord _]. induction 1 as [r a k b Hr Ha Hin Hw|k b a k' b' _ IH Hb Ha Hin Hw].
  - apply (range_live env me w r a k b); [by apply (hs_cells out w Hk)|done|]. apply (find_block_spec w Hwf).
    split; [by apply (hs_blocks out w Hk)|]. rewrite (has_word out w); [done|done|]. intros x Hx. left.
    apply (Hheld r); [done|]. apply elem_of_scan_addrs in Ha as (_ & _ & _ & Hlo & Hhi & _). specialize (Hord r Hr).
    unfold word_size in *. lia.
  - eapply reach_edge; [exact IH|]. exists b, b', a. split_and!; [by apply (hs_blocks out w Hk)|done|].
    apply (find_block_spec w Hwf). split; [by apply (hs_blocks out w Hk)|]. rewrite (has_word out w); [done|done|].
    intros x Hx. right. exists k, b. split; [done|]. apply elem_of_word_addrs in Ha as (i & ? & -> & ?). lia.
Qed.

(** ** Collections *)

Section Collect.
Context (me : thread_id) (env : CollectEnv) (Hscan : env_ok (ce_scan env)) (Hpark : park_typed (ce_park env)).
Context (Hhang : hanging) (out : list String.string).

(** Storage goes back, the manager and memory stay. *)
Lemma free_block_has h w : returns (free_block_memory h) (λ _ w', has out w → has out w') w.
Proof.
  unfold free_block_memory. apply returns_bind. unfold read_header. intros hd w1. destruct (headers w !! h); [|done].
  intros [= <- <-]. apply returns_bind. intros [] w2 [= <-]. intros [] w3. unfold operator_delete. simpl.
  repeat case_match; try done. intros [= <-]. apply has_same; try done. by rewrite printed_log, app_nil_r.
Qed.

Lemma ends_destroy_has hs w : has out w → ends (destroy_blocks no_finalizer hs) (λ _ w', has out w') w.
Proof.
  intros Hk. unfold destroy_blocks. apply ends_bind. eapply (ends_mono _ (λ _ w', has out w')).
  - intros [] w1 H1. revert w1 H1. induction hs as [|h hs IH]; intros w1 H1; simpl; [by apply ends_ret|].
    apply ends_bind, ends_atomic. intros [] w2 E. by apply IH, (free_block_has h w1 tt).
  - revert w Hk. induction hs as [|h hs IH]; intros w Hk; simpl; [by apply ends_ret|]. apply ends_bind.
    eapply (ends_mono _ (λ _ w', has out w')); [by intros [] w1 H1; apply IH|].
    unfold finalize_block. case_match; [by apply ends_ret|]. apply ends_bind, ends_atomic.
    unfold read_header. intros hd w1. destruct (headers w !! h); [|done]. intros [= <- <-]. case_match; [by apply ends_ret|].
    apply ends_bind, ends_atomic. intros [] w2 [= <-]. intros [] w3 [= <-]. apply (has_same out w); try done.
    by rewrite printed_log, app_nil_r.
Qed.

Lemma collected_has w w' hs : heap_wf w → has out w → collected env me w w' hs → has out w'.
Proof.
  intros Hwf Hk Hc. pose proof (co_rest _ _ _ _ _ Hc) as Hr. destruct (Hk) as [Hcl Hbl Hm Hw Ho].
  destruct (co_mem _ _ _ _ _ Hc) as (dead & Em & Hd).
  assert (dead = []) as ->.
  { destruct dead as [|e dead]; [done|]. destruct (proj1 (Hd e)) as [He _]; [left|]. rewrite Hw in He. by apply elem_of_nil in He. }
  split.
  - intros r Hin. change (r ∈ registered_root_ranges_ (mgr w')). rewrite <-(sr_ranges _ _ Hr). by apply Hcl.
  - intros [k b] Hin. apply (co_alloc _ _ _ _ _ Hc). split; [by apply Hbl|].
    apply (hangs_live out w); try done. by eapply (hg_blocks Hhang).
  - intros a Ha. rewrite Em. by apply Hm.
  - pose proof (co_weak_sub _ _ _ _ _ Hc) as Hs. rewrite Hw in Hs. by apply sublist_nil_r in Hs.
  - unfold printed. by rewrite <-(sr_log _ _ Hr).
Qed.

Lemma ends_collect_has L w :
  calmly me L w → has out w → ends (collect no_finalizer me env) (λ _ w', has out w') w.
Proof.
  intros Hy Hk. destruct (calmly_run me L w Hy) as [Hrun Hc]. unfold collect.
  apply ends_bind, ends_locked; [done|]. unfold collect_enter. apply returns_bind. intros w1 w2 [= <- <-]. rewrite Hc.
  apply returns_bind. intros [] w1 E%require_same. subst w1. intros b w1 [= <- <-]. cbn [negb].
  change (set_mgr (set_stw (Some me) true true) w) with (announce me w).
  intros a w'. cbn [bind_result wait_for_other_threads_to_pause_locked exec]. destruct (all_others_paused me (announce me w)); [|done].
  assert (inv (announce me w)) as Hi'.
  { destruct (keeps_set_stw (Some me) true true ∅ w (cy_inv _ _ _ Hy)) as [Hs _]; [apply map_Forall_empty|]. by destruct Hs. }
  destruct (collect_locked_cases env me (announce me w) (iv_wf _ Hi') (inv_roots_ok env Hscan _ Hi'))
    as [(w1 & -> & _)|(hs & w1 & -> & Hco)]; [done|].
  intros E. refine (ends_bind (destroy_blocks no_finalizer hs) _ (λ _ w', has out w') w1 _ a w' E).
  eapply ends_mono, ends_destroy_has; [|eapply collected_has, Hco; [apply Hi'|by apply (has_same out w)]].
  intros [] w2 H2. apply ends_atomic. intros [] w3 [= <-]. by apply (has_same out w2).
Qed.

Lemma ends_collect L w :
  calmly me L w → has out w → ends (collect no_finalizer me env) (λ _ w', calmly me L w' ∧ has out w') w.
Proof.
  intros Hy Hk. apply ends_calmly; [apply tidy_collect; [intros; apply tidy_done|done..]
    |apply neutral_collect; intros; apply neutral_done|done|by eapply ends_collect_has].
Qed.

(** ** Allocations *)

Context {ALLOC : Allocator} (L : holding).
Context (Hclear : ∀ w n a p x, holds L w → new_address w n a = Some p → held x → ¬ p <= x < p + n).

(** A registered block that none of the protected addresses lies in. *)
Definition new_block (size k : Z) (c : bool) (p : Z) (w : World) : Prop :=
  (∃ raw, (p, {| br_header := raw; br_payload_begin := p; br_payload_end := p + size; br_constructing := c |}) ∈ allocations w) ∧
  (2 ^ k | p) ∧ ∀ x, p <= x < p + size → ¬ protected x.

Lemma publish_returns w raw size total c :
  returns (publish_block me raw size total c) (λ _ _,
    registered me w = true ∧ managed_bytes_ (mgr w) + size <= SIZE_MAX ∧ reserved_bytes_ (mgr w) + total <= SIZE_MAX) w.
Proof.
  intros u w' E. destruct (registered me w) eqn:Hr.
  - revert E. unfold publish_block, require_registered_thread_locked. unfold mbind at 1, M_bind at 1.
    unfold mbind at 1, M_bind at 1, get at 1. rewrite Hr. cbn [mret M_ret]. rewrite M_bind_get.
    destruct (add_would_overflow (managed_bytes_ (mgr w)) size) eqn:E1; [done|].
    destruct (add_would_overflow (reserved_bytes_ (mgr w)) total) eqn:E2; [done|]. intros _.
    by apply add_would_overflow_false in E1, E2.
  - revert E. unfold publish_block, require_registered_thread_locked, mbind, M_bind, get. by rewrite Hr.
Qed.

Lemma ends_operator_new_retry n a w :
  calmly me L w → has out w →
  ends (operator_new_retry no_finalizer me env n a) (λ raw w', ∃ w1, calmly me L w1 ∧ has out w1 ∧
    new_address w1 n a = Some raw ∧ w' = set_blocks <[raw := (n, a)]> w1) w.
Proof.
  intros Hy Hk raw w'. rewrite operator_new_retry_spec. destruct (new_address w n a) as [p|] eqn:Hp.
  - intros [= -> <-]. by exists w.
  - destruct (exec (collect no_finalizer me env) w) as [[] w1| |] eqn:E; [|done..].
    destruct (ends_collect L w Hy Hk tt w1 E) as [Hy1 Hk1]. unfold operator_new.
    destruct (new_address w1 n a) as [p|] eqn:Hp1; [|done]. intros [= -> <-]. by exists w1.
Qed.

Section Sizes.
Context (size k : Z) (d : DestructorFn).
Context (Hsize : 0 < size) (Hk : 0 <= k <= 15) (Hfit : layout_offset k + size <= SIZE_MAX).

Lemma published_has c w raw o :
  calmly me L w → has out w → new_address w (layout_offset k + size) (2 ^ Z.max k 4) = Some raw →
  managed_bytes_ (mgr w) + size <= SIZE_MAX → reserved_bytes_ (mgr w) + (layout_offset k + size) <= SIZE_MAX →
  let h := make_header size (2 ^ Z.max k 4) (layout_offset k) d in
  let w' := published raw h c (with_oom o (with_raw raw (layout_offset k + size) (2 ^ Z.max k 4) h w)) in
  has out w' ∧ new_block size k c (payload_begin raw h) w'.
Proof.
  intros Hy Hh Hraw Hm Hr h w'.
  pose proof (cy_inv _ _ _ Hy) as Hi. pose proof (iv_wf _ Hi) as Hwf.
  destruct (published_facts w raw size k d c o Hwf Hsize Hk Hraw Hm Hr) as (_ & Hal & _ & Hperm & _).
  fold h in Hal, Hperm. fold w' in Hperm.
  assert (payload_begin raw h = raw + layout_offset k) as Hp.
  { unfold payload_begin, h. by rewrite make_header_offset. }
  pose proof (layout_offset_bound k Hk) as Hoff. unfold sizeof_ChunkHeader in Hoff.
  assert (∀ x, payload_begin raw h <= x < payload_begin raw h + size → ¬ protected x) as Hnew.
  { intros x Hx [Hx'|(k' & b' & Hin & Hx')].
    - apply (Hclear w (layout_offset k + size) (2 ^ Z.max k 4) raw x (cy_holds _ _ _ Hy) Hraw Hx'). lia.
    - apply (hs_blocks out w Hh) in Hin. pose proof (wf_extent w Hwf k' b' Hin) as He. unfold sizeof_ChunkHeader in He.
      destruct (raw_fresh w raw size k Hwf Hraw k' b' Hin) as [_ ?]. lia. }
  destruct (Hh) as [Hcl Hbl Hmem Hw Ho]. split.
  - split; try done.
    + intros kb Hin. rewrite Hperm. apply elem_of_cons. right. by apply Hbl.
    + intros x Hx. rewrite <-Hmem by done. simpl. unfold load_byte, memset0. rewrite store_bytes_out; [done|].
      rewrite length_replicate. destruct (decide (payload_begin raw h <= x < payload_begin raw h + size)) as [Hx'|]; [|].
      * by destruct (Hnew x Hx').
      * change (ch_size h) with size. lia.
  - split_and!; [|done|done]. exists raw. rewrite Hperm. apply elem_of_cons. by left.
Qed.

Lemma ends_allocate_block c w :
  calmly me L w → has out w →
  ends (allocate_block no_finalizer me env size (2 ^ Z.max k 4) (layout_offset k) d c)
    (λ p w', has out w' ∧ new_block size k c p w') w.
Proof.
  intros Hy Hh p w'. pose proof (layout_offset_bound k Hk) as Hoff. unfold sizeof_ChunkHeader in Hoff.
  assert (wrap64 (layout_offset k + size) = layout_offset k + size) as Hw64 by (apply wrap64_size; unfold is_size; lia).
  destruct (exec (operator_new_retry no_finalizer me env (wrap64 (layout_offset k + size)) (2 ^ Z.max k 4)) w)
    as [raw w1'| |] eqn:E; [|by unfold allocate_block; rewrite exec_bind, E..].
  destruct (ends_operator_new_retry _ _ w Hy Hh raw w1' E) as (w1 & Hy1 & Hh1 & Hraw & ->).
  destruct (calmly_run me L w1 Hy1) as [Hrun _]. rewrite (allocate_block_cont _ _ _ _ _ _ _ _ _ _ _ E Hrun).
  rewrite Hw64 in *. set (h := make_header size (2 ^ Z.max k 4) (layout_offset k) d).
  change (set_headers _ (set_blocks _ w1)) with (with_raw raw (layout_offset k + size) (2 ^ Z.max k 4) h w1).
  set (w2 := with_raw raw (layout_offset k + size) (2 ^ Z.max k 4) h w1).
  pose proof (iv_wf _ (cy_inv _ _ _ Hy1)) as Hwf1.
  destruct (publish_block me raw size (layout_offset k + size) c w2) as [[] w3|e w3|] eqn:Ep; [|by destruct (free_block_memory raw w3)|done].
  intros [= <- <-]. destruct (publish_returns w2 raw size _ c tt w3 Ep) as (Hreg & Hm & Hr).
  assert (layout_offset k = ch_payload_offset h) as Ho by (symmetry; by apply make_header_offset).
  destruct (publish_block_cases me w2 raw h c) as [(o & E' & _)|(o & E')]; try done.
  - by eapply with_raw_wf.
  - by eapply with_raw_header.
  - by eapply with_raw_block.
  - by eapply with_raw_apart.
  - by rewrite <-Ho.
  - rewrite <-Ho in E'. change (ch_size h) with size in E'. by rewrite E' in Ep.
  - rewrite <-Ho in E'. change (ch_size h) with size in E'. rewrite E' in Ep. injection Ep as <-. by apply published_has.
Qed.

Lemma ends_malloc_internal c w :
  calmly me L w → has out w → is_size size →
  ends (malloc_internal no_finalizer me env size (2 ^ k) d c)
    (λ p w', calmly me L w' ∧ has out w' ∧ new_block size k c p w') w.
Proof.
  intros Hy Hh Hs. apply ends_calmly; [|by apply neutral_malloc_internal; intros; apply neutral_done|done|].
  { assert (2 ^ k <= 2 ^ 15) by (apply Z.pow_le_mono_r; lia).
    apply tidy_malloc_internal; try done. unfold is_size, SIZE_MAX. lia. }
  destruct (calmly_run me L w Hy) as [Hrun _]. intros p w'. destruct (registered me w) eqn:Hr.
  - rewrite malloc_enter by (done || lia). destruct (_ || _); [done|]. by apply ends_allocate_block.
  - rewrite malloc_unregistered by (done || lia). done.
Qed.

Lemma new_block_extent p c w : heap_wf w → new_block size k c p w → 0 < p ∧ p + size <= SIZE_MAX.
Proof.
  intros Hwf ([raw Hin] & _). pose proof (wf_extent w Hwf _ _ Hin) as He. unfold sizeof_ChunkHeader, word_size in He.
  simpl in He. lia.
Qed.

(** The constructor of an object of [size] bytes writes in it only, and leaves
    [init]. *)
Definition constructs (ctor : Z → proc unit) (init : Z → memory → Prop) : Prop := ∀ p w,
  0 < p → p + size <= SIZE_MAX → ends (ctor p) (λ _ w', mgr w' = mgr w ∧ log w' = log w ∧
    (∀ a, ¬ p <= a < p + size → load_byte (mem w') a = load_byte (mem w) a) ∧ init p (mem w')) w.

Lemma ends_collect_if_needed n w :
  calmly me L w → has out w →
  ends (collect_if_needed no_finalizer me env n) (λ _ w', calmly me L w' ∧ has out w') w.
Proof.
  intros Hy Hh. destruct (calmly_run me L w Hy) as [Hrun _]. apply ends_bind, ends_locked; [done|].
  intros b w1. unfold collection_needed, mbind, M_bind.
  destruct (require_registered_thread_locked me w) as [[] w2| |] eqn:E; [|done..]. apply require_same in E as ->.
  intros [= <- <-]. case_match; [by apply ends_collect|by apply ends_ret].
Qed.

Lemma finish_has p w :
  heap_wf w → has out w → new_block size k true p w →
  returns (finish_construction_locked p) (λ _ w',
    has out w' ∧ new_block size k false p w' ∧ mem w' = mem w) w.
Proof.
  intros Hwf [Hcl Hbl Hm Hw Ho] ([raw Hin] & Hal & Hnew) [] w'. unfold finish_construction_locked. rewrite M_bind_get.
  pose proof (wf_sorted w Hwf) as Hs. rewrite (sm_elem_find _ _ _ Hs Hin). intros [= <-].
  assert (∀ k' b, (k', b) ∈ allocations w → k' ≠ p → (k', b) ∈ sm_alter (set_constructing false) p (allocations w)) as Hkeep.
  { intros k' b Hb Hne. apply sm_find_iff; [by apply sm_wf_alter|]. rewrite sm_find_alter.
    destruct (Z.eqb_spec k' p); [done|]. by apply sm_elem_find. }
  split_and!; [split; try done|split_and!|done]; [| |done|done].
  - intros [k' b] Hb. apply Hkeep; [by apply Hbl|]. intros ->. apply (Hnew p); [lia|]. right. exists p, b. split; [done|].
    pose proof (wf_extent w Hwf p b (Hbl _ Hb)). lia.
  - exists raw. change (allocations (set_mgr _ w)) with (sm_alter (set_constructing false) p (allocations w)).
    apply sm_find_iff; [by apply sm_wf_alter|]. by rewrite sm_find_alter, Z.eqb_refl, (sm_elem_find _ _ _ Hs Hin).
Qed.

Lemma ends_gc_new ctor init w :
  calmly me L w → has out w → is_size size → (∀ p, Tidy (ctor p)) → (∀ p, Neutral me (ctor p)) → constructs ctor init →
  ends (gc_new no_finalizer me env size (2 ^ k) d ctor)
    (λ q w', calmly me L w' ∧ has out w' ∧ new_block size k false (ptr_ q) w' ∧ init (ptr_ q) (mem w')) w.
Proof.
  intros Hy Hh Hs Ht Hn Hc. assert (2 ^ k <= 2 ^ 15) by (apply Z.pow_le_mono_r; lia).
  apply ends_calmly; [apply tidy_gc_new; try done; unfold is_size, SIZE_MAX; lia|
    apply neutral_gc_new; [intros; apply neutral_done|done]|done|].
  apply ends_bind. eapply ends_mono, ends_collect_if_needed; [|exact Hy|exact Hh]. intros [] w1 [Hy1 Hh1].
  apply ends_bind. eapply ends_mono, ends_malloc_internal; [|exact Hy1|exact Hh1|done]. intros p w2 (Hy2 & Hh2 & Hb2).
  intros q w3. rewrite exec_bind_result. destruct (exec (ctor p) w2) as [[] w4|e w4|] eqn:E; [| |done].
  - destruct (new_block_extent p true w2 (iv_wf _ (cy_inv _ _ _ Hy2)) Hb2) as [Hpos Hmax].
    destruct (Hc p w2 Hpos Hmax tt w4 E) as (Em & El & Hbytes & Hinit).
    assert (has out w4) as Hh4.
    { destruct Hh2 as [Hcl Hbl Hm Hw Ho]. split; rewrite ?Em; try done; [|unfold printed; by rewrite El].
      intros a Ha. rewrite Hbytes; [by apply Hm|]. intros Hx. by destruct (proj2 (proj2 Hb2) a Hx). }
    assert (new_block size k true p w4) as Hb4 by (unfold new_block; by rewrite Em).
    destruct (ends_calmly me L (ctor p) (λ _ _, True) w2 (Ht p) (Hn p) Hy2 ltac:(done) tt w4 E) as [Hy4 _].
    destruct (calmly_run me L w4 Hy4) as [Hrun _]. revert q w3.
    apply ends_bind, ends_locked; [done|]. eapply returns_mono, finish_has; [|apply Hy4|done..].
    intros [] w5 (Hh5 & Hb5 & Em5). apply ends_ret. by rewrite Em5.
  - rewrite exec_bind. by destruct (exec (release_unconstructed me env p) w4).
Qed.
End Sizes.
End Collect.
End Data.

(** ** Around collections and allocations *)

Section Around.
Context {ASAN : AsanRuntime} (held : Z → Prop) (me : thread_id).

(** What the world holds now, and part of what it held. *)
Lemma has_now cells bs m out w bs' :
  has held cells bs m out w → (∀ kb, kb ∈ bs' → kb ∈ allocations w) → has held cells bs' (mem w) out w.
Proof. intros [] Hb. by split. Qed.

Lemma has_nothing cells bs m out w : has held cells bs m out w → has held [] [] (mem w) out w.
Proof. intros []. split; [by intros r ?%elem_of_nil|by intros kb ?%elem_of_nil|done..]. Qed.

Lemma hanging_nothing m : hanging held [] [] m.
Proof. split; [by intros r a ?%elem_of_nil|by intros r ?%elem_of_nil|by intros k b ?%elem_of_nil]. Qed.

Lemma has_write cells bs m out w a v :
  has held cells bs m out w → has held cells bs (store_word m a v) out (set_mem (λ m, store_word m a v) w).
Proof.
  intros [Hc Hb Hm Hw Ho]. split; try done. intros x Hx%Hm. simpl. unfold load_byte, store_word in *.
  destruct (decide (a <= x < a + 8)).
  - by rewrite !store_bytes_in by (rewrite length_le_split; lia).
  - by rewrite !store_bytes_out by (rewrite length_le_split; lia).
Qed.

Lemma ends_register_stack_bottom env sb cells bs m out w :
  may_run me w = true → has held cells bs m out w →
  ends (register_stack_bottom me env sb) (λ _, has held cells bs m out) w.
Proof.
  intros Hrun Hh. unfold register_stack_bottom. case_match; [done|]. apply ends_locked; [done|].
  unfold assign_stack_bottom. apply returns_bind. intros w1 w2 [= <- <-]. apply returns_bind.
  intros [] w1 E [] w2 [= <-]. assert (∃ o, w1 = with_oom o w) as [o ->].
  { case_match; [injection E as <-; exists (oom w); by destruct w|].
    destruct (native_alloc_cases w) as [(o & E' & _)|(o & E' & _)]; rewrite E' in E; [injection E as <-; by exists o|done]. }
  by apply (has_same _ _ _ _ _ w).
Qed.

Lemma ends_register_root env cells bs m out o w :
  may_run me w = true → root_place o → has held cells bs m out w →
  ends (register_root_object me env o sizeof_gc_root)
    (λ _ w', has held (root_range o :: cells) bs m out w' ∧ mem w' = mem w ∧ allocations w' = allocations w) w.
Proof.
  intros Hrun Ho [Hc Hb Hm Hw Hout] [] w'. destruct (place_range o Ho) as (Hz & He & Hn).
  unfold register_root_object. rewrite Hz.
  destruct (register_root_range_cases me env w o (wrap64 (o + sizeof_gc_root)) Hrun) as [(l & -> & _)|(l & -> & _)]; [|done].
  rewrite He, Hn. intros [= <-]. split; [|done]. split; try done. intros r Hr. simpl. apply elem_of_app.
  apply elem_of_cons in Hr as [->|Hr]; [right; by apply list_elem_of_singleton|left; by apply Hc].
Qed.

Lemma ends_unregister_root env cells bs m out o n w :
  may_run me w = true → has held cells bs m out w →
  ends (unregister_root_object me env o n) (λ _, has held [] bs m out) w.
Proof.
  intros Hrun [Hc Hb Hm Hw Hout] [] w'. unfold unregister_root_object.
  assert (∀ r, r ∈ [] → r ∈ root_ranges w') as Hnil by by intros r ?%elem_of_nil.
  case_match; [by intros [= <-]|]. rewrite unregister_root_range_ok by done. intros [= <-].
  by case_match; split.
Qed.

Lemma returns_shutdown_has w out cells bs m :
  heap_wf w → has held cells bs m out w → returns shutdown_locked (λ _, has held [] [] m out) w.
Proof.
  intros Hwf [Hc Hb Hm Hw Hout] hs w' E.
  destruct (shutdown_locked_cases w Hwf) as [[_ E']|[(_ & _ & o & E')|(_ & o & hs' & E' & _)]]; rewrite E' in E; [done..|].
  injection E as <- <-. split; [by intros r ?%elem_of_nil|by intros kb ?%elem_of_nil| |done|done].
  intros a [Ha|(k & b & []%elem_of_nil & _)]. simpl. rewrite Hw. simpl. apply Hm. by left.
Qed.

Lemma ends_shutdown_has env cells bs m out w :
  heap_wf w → idle w → has held cells bs m out w →
  ends (shutdown no_finalizer me env) (λ _, has held [] [] m out) w.
Proof.
  intros Hwf Hi Hh. destruct (idle_parts me w Hi) as [Hrun Hc]. unfold shutdown. apply ends_bind, ends_locked; [done|].
  unfold shutdown_enter. apply returns_bind. intros w1 w2 [= <- <-]. rewrite Hc. intros b w1 [= <- <-]. cbn [negb].
  intros a w'. simpl. destruct (all_others_paused _ _); [|done].
  match goal with |- match ?m with _ => _ end = _ → _ => destruct m as [hs w1|e w1|] eqn:E end; [|done|done].
  intros Ex. refine (ends_bind (destroy_blocks no_finalizer hs) _ (λ _, has held [] [] m out) w1 _ a w' Ex).
  eapply ends_mono, ends_destroy_has; [|eapply returns_shutdown_has, E; [by apply announce_wf|by apply (has_same _ _ _ _ _ w)]].
  intros [] w2 H2. apply ends_atomic. intros [] w3 [= <-]. by apply (has_same _ _ _ _ _ w2).
Qed.
End Around.
