(* ===== verification/Workers.v ===== *)
(** * The program of examples/worker_threads.cpp

    Two threads in the scope of a [ScopedThreadRegistration] each, which allocate
    and stop at safepoints, and a main thread that registers after joining them:
    every schedule runs to its end, and what is left in the end is nothing. *)

From S2P Require Import Prelude Words Memory OrdMap Chunk Manager Heap Scanner Scenario Mark.
From S2P Require Import Finalize WeakRefs Sweep Threads Protocol Collect CollectSpec CollectorTheorems.
From S2P Require Import Roots Alloc Handles GcNew Diagnostics Disciplines Enrolment Interleave.
From S2P Require Import Ownership Storage Tidiness HeapSafety Leaving.

(** ** The program of examples/worker_threads.cpp *)

(** [completed_jobs.fetch_add(1)] on a [std::atomic<int>]. *)
Definition load_int (m : memory) (a : Z) : Z := le_combine (load_byte m <$> seqZ a 4).
Definition store_int (m : memory) (a v : Z) : memory := store_bytes m a (le_split 4 v).

Definition fetch_add (a v : Z) : M World unit :=
  modify (set_mem (λ m, store_int m a ((load_int m a + v) mod 2 ^ 32))).

(** [struct Job { gc_ptr<Job> next; int id; }] *)
Definition sizeof_Job : Z := 16.
Definition alignof_Job : Z := 8.
Definition Job_next (job : Z) : Z := job.
Definition Job_id (job : Z) : Z := job + 8.

Definition Job (id_value job : Z) : proc unit :=
  atomic (write_word (Job_next job) 0);;
  atomic (modify (set_mem (λ m, store_int m (Job_id job) id_value))).

Section Worker.
Context {ASAN : AsanRuntime} {ALLOC : Allocator}.

(** [env i] is what the [i]-th call of the thread into the collector sees. *)
Context (dtor : DestructorFn → Z → proc unit) (me : thread_id) (env : nat → CollectEnv) (destroy_Job : DestructorFn).

(** The loop with [n] iterations to go; sleeping is not visible. *)
Fixpoint iterations (completed_jobs : Z) (n : nat) : proc unit :=
  match n with
  | O => mret tt
  | S n' =>
      safepoint me (ce_park (env (8 - n')));;
      atomic (fetch_add completed_jobs 1);;
      iterations completed_jobs n'
  end.

(** From the construction of [head], a variable at that address, on. *)
Definition with_head (completed_jobs worker_id head : Z) : proc unit :=
  bind_result
    (job ← gc_new dtor me (env 4) sizeof_Job alignof_Job destroy_Job (Job (worker_id * 100 + 1));
     h ← gc_root_get head;
     atomic (write_word (Job_next h) (gc_ptr_get job));;
     iterations completed_jobs 4)
    (λ r, gc_root_destroy me (ce_park (env 9)) head;; Done r).

Definition worker (limits : StackLimits) (completed_jobs worker_id head : Z) : proc unit :=
  in_scope me (ce_park (env 1)) (ce_park (env 10)) limits (
    job ← gc_new dtor me (env 2) sizeof_Job alignof_Job destroy_Job (Job (worker_id * 100));
    gc_root_new me (ce_park (env 3)) head (gc_ptr_get job);;
    with_head completed_jobs worker_id head).

(** The function a [std::thread] runs: what it throws ends the process. *)
Definition worker_thread (limits : StackLimits) (completed_jobs worker_id head : Z) : proc unit :=
  noexcept (worker limits completed_jobs worker_id head).

(** [main] after the joins. *)
Definition main_after_join (limits : StackLimits) : proc unit :=
  noexcept (in_scope me (ce_park (env 1)) (ce_park (env 4)) limits
    (collect dtor me (env 2);; shutdown dtor me (env 3))).
End Worker.

(** ** The main thread after the joins *)

Lemma ends_main_after_join {ASAN : AsanRuntime} me (env : nat → CollectEnv) limits w :
  resting me w → ends (main_after_join no_finalizer me env limits) (λ _, emptied) w.
Proof.
  intros Hw. apply ends_noexcept. unfold in_scope. apply ends_bind.
  eapply ends_mono; [|apply (ends_neutral me), Hw; apply neutral_ScopedThreadRegistration].
  intros b w1 Hw1 a w2. rewrite exec_bind_result. simpl in Hw1.
  match goal with |- context [exec ?q w1] => set (body := q) end.
  assert (Neutral me body) as Hn.
  { apply neutral_bind; [|intros _]; [apply neutral_collect|apply neutral_shutdown]; intros; apply neutral_done. }
  assert (ends body (λ _ w', emptied w') w1) as Hb.
  { apply ends_bind. eapply ends_mono; [|apply (ends_neutral me), Hw1; apply neutral_collect; intros; apply neutral_done].
    intros [] w3 Hw3. apply ends_shutdown; [|apply Hw3]. intros d p w4 H4. by apply ends_ret. }
  destruct (exec body w1) as [[] w3|e w3|] eqn:E; [| |done].
  - intros Ex. refine (ends_bind _ _ (λ _, emptied) w3 _ a w2 Ex).
    destruct (ends_neutral me body w1 Hn Hw1 tt w3 E) as [_ Hi].
    eapply ends_mono, ends_unregister; [|done|by apply (Hb tt w3 E)]. intros [] w4 H4 a4 w5 [= _ <-]. done.
  - rewrite exec_bind. by destruct (exec (destroy_ScopedThreadRegistration _ _ b) w3).
Qed.

(** ** The pool of workers *)

Section Programs.
Context {ASAN : AsanRuntime} (me : thread_id).

Context {ALLOC : Allocator} (env : nat → CollectEnv) (d : DestructorFn).

Lemma private_fetch_add a v : private (fetch_add a v).
Proof. by apply private_modify. Qed.

Lemma private_store_int a v : private (modify (set_mem (λ m, store_int m a v))).
Proof. by apply private_modify. Qed.
#[local] Hint Resolve private_fetch_add private_store_int : private.

Lemma keeps_fetch_add a v : keeps (fetch_add a v).
Proof. by apply keeps_still. Qed.

Lemma keeps_store_int a v : keeps (modify (set_mem (λ m, store_int m a v))).
Proof. by apply keeps_still. Qed.
#[local] Hint Resolve keeps_fetch_add keeps_store_int : keeps.

Lemma neutral_Job id job : Neutral me (Job id job).
Proof. unfold Job. neutral. Qed.

Lemma steady_Job id job : Steady me (Job id job).
Proof. unfold Job. steady. Qed.

Lemma tidy_Job id job : Tidy (Job id job).
Proof. unfold Job. tidy. Qed.

Lemma neutral_worker_thread limits a id head : Neutral me (worker_thread no_finalizer me env d limits a id head).
Proof.
  apply neutral_noexcept, neutral_in_scope.
  assert (∀ j i, Neutral me (gc_new no_finalizer me (env j) sizeof_Job alignof_Job d (Job i))) as Hnew.
  { intros j i. apply neutral_gc_new; [intros; apply neutral_done|apply neutral_Job]. }
  assert (∀ n, Neutral me (iterations me env a n)) as Hit by (induction n; simpl; neutral).
  unfold with_head, gc_root_get. neutral; done.
Qed.

Lemma worker_thread_leaves limits a id head : leaves me (worker_thread no_finalizer me env d limits a id head) false.
Proof.
  apply leaves_noexcept, in_scope_leaves.
  assert (∀ j i, Steady me (gc_new no_finalizer me (env j) sizeof_Job alignof_Job d (Job i))) as Hnew.
  { intros j i. apply steady_gc_new; [intros; apply steady_done|apply steady_Job]. }
  assert (∀ n, Steady me (iterations me env a n)) as Hit by (induction n; simpl; steady).
  unfold with_head. steady; done.
Qed.

Hypothesis Hscan : ∀ i, env_ok (ce_scan (env i)).
Hypothesis Hpark : ∀ i, park_typed (ce_park (env i)).
#[local] Hint Resolve Hscan Hpark : tidy.

Lemma tidy_worker_thread limits a id head :
  limits_typed limits → is_size head → Tidy (worker_thread no_finalizer me env d limits a id head).
Proof.
  intros Hl Hh. apply tidy_noexcept, tidy_in_scope; [done..|].
  assert (∀ j i, Tidy (gc_new no_finalizer me (env j) sizeof_Job alignof_Job d (Job i))) as Hnew.
  { intros j i. apply tidy_gc_new; try done; intros; first [apply tidy_done|apply tidy_Job]. }
  assert (∀ n, Tidy (iterations me env a n)) as Hit
    by (induction n; simpl; [tidy|apply tidy_bind; [by apply tidy_safepoint|intros _; tidy]]).
  unfold with_head, gc_root_get. tidy; done.
Qed.

Lemma main_after_join_ok limits :
  limits_typed limits →
  Neutral me (main_after_join no_finalizer me env limits) ∧ Tidy (main_after_join no_finalizer me env limits) ∧
  leaves me (main_after_join no_finalizer me env limits) false.
Proof.
  intros Hl. unfold main_after_join. split_and!.
  - apply neutral_noexcept, neutral_in_scope, neutral_bind; [|intros _]; [apply neutral_collect|apply neutral_shutdown];
      intros; apply neutral_done.
  - apply tidy_noexcept, tidy_in_scope; [done..|]. apply tidy_bind; [|intros _]; [apply tidy_collect|apply tidy_shutdown];
      try done; intros; apply tidy_done.
  - apply leaves_noexcept, in_scope_leaves, steady_bind; [|intros _]; [apply steady_collect|apply steady_shutdown];
      intros; apply steady_done.
Qed.
End Programs.

(** ** The theorems *)


(** Two workers at their first collection threshold. *)
Definition worker_env (stack : Z) : CollectEnv :=
  {| ce_scan := {| se_jmp_buf := 90000; se_registers := []; se_local_marker := stack; se_platform := Linux [] |};
     ce_park := {| pe_stack_marker := stack; pe_registers := [] |}; ce_start := 0; ce_now := 0 |}.

Definition small_heap : World := set_mgr (set_threshold 24) World_init.
Definition completed_at : Z := 80000.

Definition worker_pool (e1 e2 : nat → CollectEnv) {ASAN : AsanRuntime} {ALLOC : Allocator} (d : DestructorFn)
    (left right : thread_id) (l1 l2 : StackLimits) (completed_jobs head1 head2 : Z) : pool :=
  [(left, worker_thread no_finalizer left e1 d l1 completed_jobs 1 head1);
   (right, worker_thread no_finalizer right e2 d l2 completed_jobs 2 head2)].

Definition demo_workers : pool :=
  @worker_pool (λ _, worker_env 200000) (λ _, worker_env 300000) no_asan bump_allocator 1 2 3
    (Apple_stack 200064) (Apple_stack 300064) completed_at 200032 300032.

(** Each of the two collects once while the other is parked. *)
Definition worker_schedule : list thread_id :=
  concat (replicate 14 [2; 3]) ++ [3; 2; 2; 3; 2; 2; 3] ++ concat (replicate 19 [3; 2]) ++ [3].

Lemma small_heap_unenrolled : unenrolled small_heap.
Proof.
  split; [|done|constructor|done|done]. split.
  - split; simpl; try done; [constructor|by intros k b ?%elem_of_nil|by intros k1 b1 k2 b2 ?%elem_of_nil|by intros e ?%elem_of_nil].
  - split; simpl; try done; [by intros t s ?%elem_of_nil|by intros r ?%elem_of_nil|by intros e ?%elem_of_nil|].
    unfold counters. simpl. rewrite !Forall_cons, Forall_nil. done.
  - done.
  - intros p n a q m b. simpl. rewrite lookup_empty. done.
  - intros p h. unfold header_at. simpl. by rewrite lookup_empty.
Qed.

Lemma worker_env_ok stack :
  word_size <= stack <= 2 ^ 62 → @env_ok no_asan (ce_scan (worker_env stack)) ∧ park_typed (ce_park (worker_env stack)).
Proof.
  intros Hs. unfold word_size in Hs. split.
  - split; simpl; [done|unfold word_size, SIZE_MAX; lia|unfold is_size, SIZE_MAX; lia|done|by intros i s ?%elem_of_nil].
  - split; [|by repeat constructor]. unfold is_size, SIZE_MAX. simpl. lia.
Qed.

(** The workers as a pool whose threads leave. *)
Lemma worker_pool_start {ASAN : AsanRuntime} {ALLOC : Allocator} e1 e2 d left right l1 l2 completed_jobs head1 head2 w0 :
  unenrolled w0 → left ≠ right →
  (∀ i, env_ok (ce_scan (e1 i)) ∧ park_typed (ce_park (e1 i))) →
  (∀ i, env_ok (ce_scan (e2 i)) ∧ park_typed (ce_park (e2 i))) →
  limits_typed l1 → limits_typed l2 → is_size head1 → is_size head2 →
  leaving_start (worker_pool e1 e2 d left right l1 l2 completed_jobs head1 head2) w0.
Proof.
  intros Hw Hne He1 He2 Hl1 Hl2 Hh1 Hh2. apply unenrolled_start; [done| |].
  - apply NoDup_cons. split; [|apply NoDup_singleton]. by intros ?%list_elem_of_singleton.
  - intros t p [[= -> ->]|[[= -> ->]|[]%elem_of_nil]%elem_of_cons]%elem_of_cons;
      (split_and!; [apply neutral_worker_thread|apply tidy_worker_thread; try done; naive_solver|apply worker_thread_leaves]).
Qed.

Lemma demo_workers_start : @leaving_start no_asan demo_workers small_heap.
Proof.
  by apply worker_pool_start; [apply small_heap_unenrolled|done|intros; by apply worker_env_ok..|done|done|done|].
Qed.


(** C28. The program of worker_threads.cpp.  Its two threads, started in a process
    that has not used the collector, run to their ends in every schedule, unless
    one of them terminates the process; [main], which registers only after
    joining them, then collects and shuts down and returns with an empty heap:
    no block registered, no weak handle tracked, no storage outstanding, nobody
    registered; or an exception leaves [main] and terminates it. *)
Theorem worker_threads_complete {ASAN : AsanRuntime} {ALLOC : Allocator}
    e0 e1 e2 d main left right l0 l1 l2 completed_jobs head1 head2 w0 :
  unenrolled w0 → blocks w0 = ∅ → left ≠ right →
  (∀ i, env_ok (ce_scan (e0 i)) ∧ park_typed (ce_park (e0 i))) →
  (∀ i, env_ok (ce_scan (e1 i)) ∧ park_typed (ce_park (e1 i))) →
  (∀ i, env_ok (ce_scan (e2 i)) ∧ park_typed (ce_park (e2 i))) →
  limits_typed l0 → limits_typed l1 → limits_typed l2 → is_size head1 → is_size head2 →
  let P0 := worker_pool e1 e2 d left right l1 l2 completed_jobs head1 head2 in
  Acc (λ c' c, ∃ t, step c t c') (P0, w0) ∧
  ∀ P w, steps (P0, w0) (P, w) → (∀ t c', ¬ step (P, w) t c') →
    (∃ t p, (t, p) ∈ P ∧ terminates p w) ∨
    Forall (λ tp, finished tp.2) P ∧
    (exec (main_after_join no_finalizer main e0 l0) w = Stuck Terminated ∨
     ∃ w', exec (main_after_join no_finalizer main e0 l0) w = Ret tt w' ∧
       allocations w' = [] ∧ weak_refs w' = [] ∧ blocks w' = ∅ ∧ ∀ t, registered t w' = false).
Proof.
  intros Hw Hb Hne He0 He1 He2 Hl0 Hl1 Hl2 Hh1 Hh2 P0.
  assert (leaving_start P0 w0) as Hst by by apply worker_pool_start.
  split; [by apply schedules_end, ls_sound|]. intros P w Hs Hno.
  destruct (leaving_outcome P0 w0 P w Hst Hs Hno) as [(Hf & Hc & Hr & Hq)|?]; [right|by left]. split; [done|].
  pose proof (unenrolled_end P0 w0 P w Hst Hs Hc Hr) as Hw'.
  assert (∀ q, ¬ user_storage w q) as Hnone.
  { intros q (Ho & Hn & _). apply Hq in Ho as [?|([? Hx] & _)]; [done|]. rewrite Hb in Hx. by rewrite lookup_empty in Hx. }
  destruct (main_after_join_ok main e0 (λ i, proj1 (He0 i)) (λ i, proj2 (He0 i)) l0 Hl0) as (Hn & Ht & Hl).
  assert (alone_start main (main_after_join no_finalizer main e0 l0) w) as Hst' by by apply unenrolled_alone.
  destruct (alone_outcome _ _ _ Hst') as [?|(r & w' & E & Hs' & _ & Hr' & Hq')]; [by left|]. right.
  destruct r as [[]|e]; [|by destruct (noexcept_no_throw _ _ _ _ E)]. exists w'. split; [done|].
  destruct (ends_main_after_join main e0 l0 w (unenrolled_resting main w Hw') tt w' E) as [Ha Hwk]. split_and!; [done..| |].
  2:{ assert (leaving_start [(main, main_after_join no_finalizer main e0 l0)] w) as Hls.
      { apply unenrolled_start; [done|apply NoDup_singleton|]. by intros t p [= -> ->]%list_elem_of_singleton. }
      intros t. eapply finished_unregistered; [by eapply leaving_end|]. by intros p [= _ ->]%list_elem_of_singleton. }
  apply map_empty. intros q. apply eq_None_not_Some. intros Ho. apply Hq' in Ho as [(k & b & Hin & _)|Hu].
  - rewrite Ha in Hin. by apply elem_of_nil in Hin.
  - by destruct (Hnone q).
Qed.

(** The workers by that schedule, then the main thread. *)
Lemma worker_threads_complete_witness :
  ∃ P w w', schedule worker_schedule (demo_workers, small_heap) = Some (P, w) ∧
    length (allocations w) = 4%nat ∧
    exec (@main_after_join no_asan no_finalizer 1 (λ _, worker_env 131000) (Apple_stack 131072)) w = Ret tt w' ∧
    allocations w' = [] ∧ blocks w' = ∅.
Proof.
  pose proof (proj2 (@worker_threads_complete no_asan bump_allocator (λ _, worker_env 131000) (λ _, worker_env 200000)
    (λ _, worker_env 300000) 1 1 2 3 (Apple_stack 131072) (Apple_stack 200064) (Apple_stack 300064) completed_at
    200032 300032 small_heap small_heap_unenrolled eq_refl ltac:(done)
    (λ _, worker_env_ok 131000 ltac:(done)) (λ _, worker_env_ok 200000 ltac:(done)) (λ _, worker_env_ok 300000 ltac:(done))
    ltac:(done) ltac:(done) ltac:(done) ltac:(done) ltac:(done))) as Hall.
  assert (match schedule worker_schedule (demo_workers, small_heap) with
    | Some (P, w) => Forall (λ tp, finished tp.2) P ∧ length (allocations w) = 4%nat ∧
        match exec (@main_after_join no_asan no_finalizer 1 (λ _, worker_env 131000) (Apple_stack 131072)) w with
        | Ret _ _ => True | _ => False end
    | None => False end) as Hv by (vm_compute; repeat constructor).
  destruct (schedule worker_schedule (demo_workers, small_heap)) as [[P w]|] eqn:E; [|destruct Hv].
  destruct Hv as (Hf & Hn & Hm).
  assert (∀ t c', ¬ step (P, w) t c') as Hno by by apply finished_no_step.
  destruct (Hall P w (schedule_steps _ _ _ E) Hno)
    as [(t & p & Hin & Ht)|(_ & [Et|(w' & Ew & Ha & _ & Hb & _)])].
  - exfalso. pose proof (proj1 (Forall_forall _ _) Hf _ Hin) as Hp. destruct p; [destruct Ht|destruct Hp].
  - rewrite Et in Hm. destruct Hm.
  - exists P, w, w'. split; [reflexivity|]. split; [exact Hn|]. split; [exact Ew|]. split; [exact Ha|exact Hb].
Defined.
