(* ===== verification/Construction.v ===== *)
(** * Construction under every interleaving

    Pools of threads whose programs finish or release what they start: each
    block under construction has one thread that makes it, no other thread's
    step, a collection included, takes it or ends its construction, and when
    the programs have ended nothing is left under construction. *)

From S2P Require Import Prelude Words Memory OrdMap Chunk Manager Heap Scanner Scenario Mark.
From S2P Require Import Finalize WeakRefs Sweep Threads Protocol Collect CollectSpec CollectorTheorems.
From S2P Require Import Roots Alloc Handles GcNew Diagnostics Disciplines Enrolment Interleave.
From S2P Require Import Ownership Storage Tidiness HeapSafety Leaving Making Workers.

(** The program of a thread ends with nothing in hand. *)
Definition completes {ASAN : AsanRuntime} {A} (t : thread_id) (p : proc A) (L : holding) (K : gset Z) (e : bool) : Prop :=
  crafted t p (λ _ L' K' _, L' = ∅ ∧ K' = ∅) L K e.

(** ** The invariant *)

Record making_ok {ASAN : AsanRuntime} (w0 : World) (λo : thread_id → holding) (κ : thread_id → gset Z) (P : pool) (w : World) : Prop := {
  mo_custody : custody w0 λo P.*1 w;
  mo_makes : ∀ t, makes (κ t) w;
  mo_disjoint : ∀ t t', t ≠ t' → κ t ## κ t';
  mo_absent : ∀ t, t ∉ P.*1 → κ t = ∅;
  mo_complete : ∀ k b, in_making w k b → ∃ t, k ∈ κ t;
  mo_completes : ∀ t p, (t, p) ∈ P → completes t p (λo t) (κ t) (registered t w);
}.

Record crafting_start {ASAN : AsanRuntime} (P : pool) (w : World) : Prop := {
  cs_sound : sound_start P w;
  cs_completes : ∀ t p, (t, p) ∈ P → completes t p ∅ ∅ (registered t w);
  cs_nothing : ¬ under_construction w;
}.

Lemma making_start {ASAN : AsanRuntime} P w : crafting_start P w → making_ok w (λ _, ∅) (λ _, ∅) P w.
Proof.
  intros [[_ _ Hi] Hc Hn]. split; try done.
  - by apply custody_begin.
  - intros k b [Hin Hb]. destruct Hn. by exists (k, b).
Qed.

Lemma crafted_step {ASAN : AsanRuntime} {A} t (p : proc A) Q L K w p' w' :
  inv w → sm_wf (threads w) → holds L w → makes K w → crafted t p Q L K (registered t w) → pstep (p, w) (p', w') →
  ∃ L' K', own_step L L' w w' ∧ make_step K K' w w' ∧ crafted t p' Q L' K' (registered t w').
Proof.
  intros Hi Hwf Hl Hm Hc Hs. apply pstep_inv in Hs. destruct p as [r|X guard act k]; [done|].
  destruct Hs as (Hg & r & Hy & ->). by apply (Hc w r w').
Qed.

Lemma step_making {ASAN : AsanRuntime} φ w0 λo κ P w t P' w' :
  pool_ok φ P w → making_ok w0 λo κ P w → step (P, w) t (P', w') →
  ∃ L' K', make_step (κ t) K' w w' ∧ making_ok w0 (put t L' λo) (put t K' κ) P' w'.
Proof.
  intros Hok [Hc Hm Hd Ha Hcp Hcr] Hs. destruct (step_pool_ok _ _ _ _ _ _ Hok Hs) as (ph' & Hso & _).
  assert (∀ t1, t1 ≠ t → registered t1 w' = registered t1 w) as Hother.
  { intros t1 Hne. by apply same_entry, (step_ok_others t (φ t) ph'). }
  pose proof (lo_wf _ _ _ (po_protocol _ _ _ Hok t)) as Hwf. pose proof (po_distinct _ _ _ Hok) as Hnd.
  inversion Hs as [l1 t0 p l2 w1 p' w2 Hps E1 E2 E3]; subst.
  assert ((t, p) ∈ l1 ++ (t, p) :: l2) as Hin by (apply elem_of_app; right; left).
  destruct (crafted_step t p _ (λo t) (κ t) w p' w' (cy_inv _ _ _ _ Hc) Hwf (cy_holds _ _ _ _ Hc t) (Hm t)
    (Hcr _ _ Hin) Hps) as (L' & K' & Hos & Hms & Hcr').
  exists L', K'. split; [done|]. destruct Hms as [Hmk Hkept Hnew].
  assert ((l1 ++ (t, p') :: l2).*1 = (l1 ++ (t, p) :: l2).*1) as El by by rewrite !fmap_app.
  assert (∀ t1, t1 ≠ t → κ t1 ## K') as HdK.
  { intros t1 Hne k Hk Hk'. destruct (Hm t1 k Hk) as [b Hb]. apply (Hkept k b Hb); [|done].
    intros Hkt. by apply (Hd t1 t Hne k). }
  split; rewrite ?El.
  - apply (custody_step w0 λo _ w); [by apply (list_elem_of_fmap_2' fst _ (t, p))|done|done].
  - intros t1. destruct (decide (t1 = t)) as [->|Hne]; [by rewrite put_same|]. rewrite put_other by done.
    intros k Hk. destruct (Hm t1 k Hk) as [b Hb]. exists b. apply Hkept; [done|]. intros Hkt. by apply (Hd t1 t Hne k).
  - intros t1 t2 Hne. destruct (decide (t1 = t)) as [->|H1], (decide (t2 = t)) as [->|H2]; [done|..];
      rewrite ?put_same, ?put_other by done; [symmetry; by apply HdK|by apply HdK|by apply Hd].
  - intros t1 Hn. rewrite put_other; [by apply Ha|]. intros ->. by apply Hn, (list_elem_of_fmap_2' fst _ (t, p)).
  - intros k b [Hk|[Hk Hb]]%Hnew; [exists t; by rewrite put_same|]. destruct (Hcp k b Hb) as [t1 Ht1].
    exists t1. rewrite put_other; [done|]. by intros ->.
  - intros t1 p1 [[-> ->]|[Hne Hin1]]%(pool_update_elem l1 l2 t p p'); [by rewrite !put_same| |done].
    rewrite !put_other, Hother by done. by apply Hcr.
Qed.

Lemma steps_making_from {ASAN : AsanRuntime} w0 c c' :
  steps c c' → (∃ φ, pool_ok φ c.1 c.2) → (∃ λo κ, making_ok w0 λo κ c.1 c.2) →
  ∃ λo κ, making_ok w0 λo κ c'.1 c'.2.
Proof.
  induction 1 as [c|[P1 w1] [P2 w2] c3 [t Ht] _ IH]; [done|]. intros [φ Hpok] (λo & κ & Hok). apply IH.
  - destruct (step_pool_ok _ _ _ _ _ _ Hpok Ht) as (ph' & _ & Hok'). by eexists.
  - destruct (step_making φ w0 λo κ P1 w1 t P2 w2 Hpok Hok Ht) as (L' & K' & _ & ?). by do 2 eexists.
Qed.

Lemma steps_making {ASAN : AsanRuntime} P0 w0 P w :
  crafting_start P0 w0 → steps (P0, w0) (P, w) → ∃ λo κ, making_ok w0 λo κ P w.
Proof.
  intros Hst Hs. apply (steps_making_from w0 _ _ Hs).
  - eexists. by apply start_ok, Hst.
  - do 2 eexists. by apply making_start.
Qed.

(** A thread at its end makes nothing. *)
Lemma making_finished {ASAN : AsanRuntime} w0 λo κ P w t k :
  making_ok w0 λo κ P w → k ∈ κ t → ∃ p, (t, p) ∈ P ∧ ¬ finished p.
Proof.
  intros Hc Hk. destruct (decide (t ∈ P.*1)) as [Hin|Hn].
  - apply list_elem_of_fmap in Hin as ([t' p] & -> & Hin). exists p. split; [done|].
    pose proof (mo_completes _ _ _ _ _ Hc _ _ Hin) as Ho. destruct p as [x|X g a q]; [|by intros []].
    destruct Ho as [_ Ho]. simpl in Hk. by rewrite Ho in Hk.
  - by rewrite (mo_absent _ _ _ _ _ Hc t Hn) in Hk.
Qed.

Lemma making_all_finished {ASAN : AsanRuntime} w0 λo κ P w :
  making_ok w0 λo κ P w → Forall (λ tp, finished tp.2) P → ¬ under_construction w.
Proof.
  intros Hc Hf ([k b] & Hin & Hb). destruct (mo_complete _ _ _ _ _ Hc k b (conj Hin Hb)) as [t Ht].
  destruct (making_finished _ _ _ _ _ _ _ Hc Ht) as (p & Hp & Hn). by apply (proj1 (Forall_forall _ _) Hf) in Hp.
Qed.

(** ** Programs that complete *)

Lemma crafts_completes {ASAN : AsanRuntime} {A} t (p : proc A) e : Crafts t p → completes t p ∅ ∅ e.
Proof. intros Hp. eapply crafted_mono, Hp. by intros r L K e' (-> & -> & _). Qed.

Lemma completes_noexcept {ASAN : AsanRuntime} {A} t (p : proc A) e : completes t p ∅ ∅ e → completes t (noexcept p) ∅ ∅ e.
Proof.
  intros Hp. apply crafted_bind_result. eapply crafted_mono, Hp. intros [a|x] L K e' [-> ->]; [done|].
  intros w r w' _ _ _ _ _ _ Hy. by destruct r.
Qed.

(** Registration constructs nothing, and may change the registration. *)
Lemma plain_crafted {ASAN : AsanRuntime} {A} t (p : proc A) L K e :
  Tidy p → Plain p → crafted t p (λ _ L' K' _, L' = L ∧ K' = K) L K e.
Proof.
  intros Ht Hp. eapply crafted_mono; [|apply (crafted_plain t p (λ _ L', L' = L) (λ _ _, True));
    [apply Ht|apply Hp|apply enrolled_any]]. by intros r L' K' e' (-> & -> & _).
Qed.

Lemma completes_in_scope {ASAN : AsanRuntime} t env env' limits body e :
  park_typed env → park_typed env' → limits_typed limits → Crafts t body →
  completes t (in_scope t env env' limits body) ∅ ∅ e.
Proof.
  intros He He' Hl Hb. unfold in_scope. apply crafted_bind.
  eapply crafted_mono; [|apply plain_crafted; [by apply tidy_ScopedThreadRegistration|apply plain_ScopedThreadRegistration]].
  intros [b|x] L K e1 [-> ->]; [|done]. apply crafted_bind_result. eapply crafted_mono, Hb.
  intros r L K e2 (-> & -> & _). apply crafted_bind.
  eapply crafted_mono; [|apply plain_crafted; [by apply tidy_destroy_ScopedThreadRegistration|apply plain_destroy_registration]].
  by intros [[]|x] L K e3 [-> ->].
Qed.

(** ** A constructor interrupted by a collection *)

(** Thread 2's constructor stops at a safepoint; thread 1 collects. *)
Definition collecting_thread : proc unit :=
  @in_scope no_asan 1 (ce_park (worker_env 200000)) (ce_park (worker_env 200000)) (Apple_stack 200064)
    (@collect no_asan no_finalizer 1 (worker_env 200000)).

Definition constructing_thread : proc unit :=
  @in_scope no_asan 2 (ce_park (worker_env 300000)) (ce_park (worker_env 300000)) (Apple_stack 300064)
    (@gc_new no_asan bump_allocator no_finalizer 2 (worker_env 300000) sizeof_Job alignof_Job 1
       (λ _, @safepoint no_asan 2 (ce_park (worker_env 300000)));; mret tt).

Definition makers : pool := [(1, collecting_thread); (2, constructing_thread)].

(** Up to the point where thread 1 has swept and thread 2 is parked inside the
    constructor, and from there to the end. *)
Definition mid_construction : list thread_id := replicate 7 2 ++ [1; 1; 1; 2; 2; 1].
Definition makers_schedule : list thread_id := mid_construction ++ [1; 1; 2; 2; 2].

Lemma makers_programs t p : (t, p) ∈ makers →
  Neutral t p ∧ @Tidy no_asan _ p ∧ leaves t p false ∧ ∀ e, @completes no_asan _ t p ∅ ∅ e.
Proof.
  destruct (worker_env_ok 200000) as [Hs1 Hp1]; [done|]. destruct (worker_env_ok 300000) as [Hs2 Hp2]; [done|].
  intros [[= -> ->]|[[= -> ->]|[]%elem_of_nil]%elem_of_cons]%elem_of_cons.
  - split_and!.
    + apply neutral_in_scope, neutral_collect; intros; apply neutral_done.
    + apply tidy_in_scope; [done..|]. apply tidy_collect; try done; intros; apply tidy_done.
    + apply in_scope_leaves, steady_collect; intros; apply steady_done.
    + intros e. apply completes_in_scope; [done..|]. apply crafts_collect; try done; intros;
        first [apply tidy_done|apply crafts_done].
  - split_and!.
    + assert (∀ p : Z, Neutral 2 (@safepoint no_asan 2 (ce_park (worker_env 300000)))) as Hsafe
        by (intros; unfold safepoint; neutral).
      apply neutral_in_scope, neutral_bind; [|intros; apply neutral_done].
      apply neutral_gc_new; [intros; apply neutral_done|exact Hsafe].
    + apply tidy_in_scope; [done..|]. apply tidy_bind; [|intros; apply tidy_done].
      apply tidy_gc_new; try done; intros; first [apply tidy_done|by apply tidy_safepoint].
    + apply in_scope_leaves, steady_bind; [|intros; apply steady_done].
      apply steady_gc_new; [intros; apply steady_done|intros; apply steady_safepoint].
    + intros e. apply completes_in_scope; [done..|]. apply crafts_bind; [|intros; apply crafts_done].
      assert (∀ p : Z, @Crafts no_asan 2 _ (@safepoint no_asan 2 (ce_park (worker_env 300000)))) as Hsafe
        by (intros; apply crafts_plain; [by apply tidy_safepoint|apply plain_safepoint|apply steady_safepoint]).
      apply crafts_gc_new; try done; intros; first [apply tidy_done|apply crafts_done|apply steady_done|apply Hsafe].
Qed.

Lemma makers_leaving : @leaving_start no_asan makers small_heap.
Proof.
  apply unenrolled_start; [apply small_heap_unenrolled| |].
  - apply NoDup_cons. split; [|apply NoDup_singleton]. by intros ?%list_elem_of_singleton.
  - intros t p Hin. destruct (makers_programs t p Hin) as (? & ? & ? & _). done.
Qed.

Lemma makers_start : @crafting_start no_asan makers small_heap.
Proof.
  split; [apply makers_leaving| |].
  - intros t p Hin. by apply makers_programs.
  - intros (kb & Hin & _). by apply elem_of_nil in Hin.
Qed.

(** ** The theorems *)



(** When nobody is registered, nobody is waited for. *)
Lemma nobody_to_wait_for me w : unenrolled w → all_others_paused me (announce me w) = true.
Proof.
  intros Hw. apply all_others_paused_iff; [apply Hw|]. intros t Hne Hr.
  change (registered t w = true) in Hr. by rewrite (un_registered w Hw) in Hr.
Qed.


