(* ===== verification/VectorPrograms.v ===== *)
(** * Programs over vectors

    A program that builds a [gc_vector], works on it and destroys it, in the
    scope of a [ScopedThreadRegistration], run by any number of threads in any
    interleaving.  What an operation throws is remembered; the vector is then
    what it was before the operation. *)

From S2P Require Import Prelude Words Memory OrdMap Chunk Manager Heap Scanner Scenario Mark.
From S2P Require Import Finalize WeakRefs Sweep Threads Protocol Collect CollectSpec CollectorTheorems.
From S2P Require Import Roots Alloc Handles GcNew Vector Slots VectorSpec Diagnostics Disciplines Enrolment Interleave.
From S2P Require Import Ownership Storage Tidiness VectorStorage HeapSafety Leaving Workers.

(** ** Classes of programs the vector operations belong to *)

(** A class of programs of one thread that has the primitives of the vector and
    is closed under sequencing. *)
Record vector_class (me : thread_id) {ASAN : AsanRuntime} {ALLOC : Allocator} (C : ∀ A : Type, proc A → Prop) : Prop := {
  vc_done : ∀ A (r : result A), C A (Done r);
  vc_bind_result : ∀ A B (p : proc A) (f : result A → proc B), C A p → (∀ r, C B (f r)) → C B (bind_result p f);
  vc_terminate : ∀ A, C A (atomic (λ _, Stuck Terminated));
  vc_undefined : ∀ A, C A (atomic undefined);
  vc_new : ∀ n a, C Z (atomic (operator_new n a));
  vc_delete : ∀ p a, C unit (atomic (operator_delete p a));
  vc_root_new : ∀ env a p, C unit (gc_root_new me env a p);
  vc_root_copy : ∀ env a b, C unit (gc_root_copy me env a b);
  vc_root_destroy : ∀ env a, C unit (gc_root_destroy me env a);
  vc_root_assign : ∀ a b, C unit (gc_root_assign a b);
  vc_root_move_assign : ∀ a b, C unit (gc_root_move_assign a b);
  vc_root_get : ∀ a, C Z (gc_root_get a);
}.

Section Class.
Context {ASAN : AsanRuntime} {ALLOC : Allocator} {GROWTH : VectorGrowth} (me : thread_id).
Context (C : ∀ A : Type, proc A → Prop) (HC : vector_class me C) (env : ParkEnv).
Abbreviation in_class p := (C _ p).

Lemma class_bind {A B} (p : proc A) (f : A → proc B) : in_class p → (∀ a, in_class (f a)) → in_class (p ≫= f).
Proof. intros Hp Hf. apply (vc_bind_result _ _ HC); [done|]. intros [a|e]; [apply Hf|apply (vc_done _ _ HC)]. Qed.

Lemma class_noexcept {A} (p : proc A) : in_class p → in_class (noexcept p).
Proof.
  intros Hp. apply (vc_bind_result _ _ HC); [done|].
  intros [a|e]; [apply (vc_done _ _ HC)|apply (vc_terminate _ _ HC)].
Qed.

Ltac in_class :=
  repeat first
    [ assumption | apply (vc_done _ _ HC) | apply (vc_undefined _ _ HC) | apply (vc_new _ _ HC)
    | apply (vc_delete _ _ HC) | apply (vc_root_new _ _ HC) | apply (vc_root_copy _ _ HC)
    | apply (vc_root_destroy _ _ HC) | apply (vc_root_assign _ _ HC) | apply (vc_root_move_assign _ _ HC)
    | apply (vc_root_get _ _ HC) | solve [auto 2] | apply class_noexcept
    | apply class_bind; [|intros ?] | apply (vc_bind_result _ _ HC); [|intros ?] | case_match ].

Lemma class_destroy_slots first n : in_class (destroy_slots me env first n).
Proof. revert first. induction n as [|n IH]; intros first; cbn [destroy_slots]; in_class. Qed.
Hint Resolve class_destroy_slots : core.

Lemma class_construct_slots construct first done_ n :
  (∀ i a, in_class (construct i a)) → in_class (construct_slots me env construct first done_ n).
Proof. intros Hc. revert done_. induction n as [|n IH]; intros i; cbn [construct_slots]; in_class. Qed.

Lemma class_copy_slots src first done_ n : in_class (construct_slots me env (copy_slot me env src) first done_ n).
Proof. apply class_construct_slots. intros i a. apply (vc_root_copy _ _ HC). Qed.

Lemma class_default_slots first done_ n : in_class (construct_slots me env (default_slot me env) first done_ n).
Proof. apply class_construct_slots. intros i a. apply (vc_root_new _ _ HC). Qed.
Hint Resolve class_construct_slots class_copy_slots class_default_slots : core.

Lemma class_release_storage v : in_class (release_storage me env v).
Proof. unfold release_storage, deallocate. in_class. Qed.
Hint Resolve class_release_storage : core.

Lemma class_vector_extend construct n v :
  (∀ i a, in_class (construct i a)) → in_class (vector_extend me env construct n v).
Proof. intros Hc. unfold vector_extend, allocate, deallocate. in_class. Qed.

Lemma class_emplace_back v p : in_class (emplace_back me env v p).
Proof. apply class_vector_extend. intros i a. apply (vc_root_new _ _ HC). Qed.

Lemma class_push_back v a : in_class (push_back me env v a).
Proof. apply class_vector_extend. intros i b. apply (vc_root_copy _ _ HC). Qed.
Hint Resolve class_emplace_back class_push_back : core.

Lemma class_vector_reserve v n : in_class (vector_reserve me env v n).
Proof. unfold vector_reserve, allocate_and_construct, allocate, deallocate. in_class. Qed.
Hint Resolve class_vector_reserve : core.

Lemma class_vector_shrink v : in_class (vector_shrink_to_fit me env v).
Proof. unfold vector_shrink_to_fit, allocate_and_construct, allocate, deallocate. in_class. Qed.

Lemma class_erase_at_end v n : in_class (erase_at_end me env v n).
Proof. unfold erase_at_end. in_class. Qed.
Hint Resolve class_erase_at_end : core.

Lemma class_vector_resize v n : in_class (vector_resize me env v n).
Proof.
  unfold vector_resize. case_match; [|done]. apply class_vector_extend. intros i a. apply (vc_root_new _ _ HC).
Qed.

Lemma class_vector_pop_back v : in_class (vector_pop_back me env v).
Proof. unfold vector_pop_back. in_class. Qed.

Lemma class_move_slots result first n : in_class (move_slots result first n).
Proof. revert result first. induction n as [|n IH]; intros result first; cbn [move_slots]; in_class. Qed.
Hint Resolve class_move_slots : core.

Lemma class_vector_erase_range v i j : in_class (vector_erase_range me env v i j).
Proof. unfold vector_erase_range. in_class. Qed.

Lemma class_vector_destroy v : in_class (vector_destroy me env v).
Proof. unfold vector_destroy. in_class. Qed.
Hint Resolve class_vector_destroy : core.

Lemma class_gc_vector_list pointers : in_class (gc_vector_list me env pointers).
Proof.
  unfold gc_vector_list. apply (vc_bind_result _ _ HC); [done|]. intros [v|e]; [|in_class].
  revert v. induction pointers as [|p pointers IH]; intros v; cbn [emplace_all]; in_class.
Qed.

Lemma class_vector_move_assign v other : in_class (vector_move_assign me env v other).
Proof. unfold vector_move_assign. in_class. Qed.

Lemma class_insert_created v created : in_class (insert_created me env v created).
Proof. unfold insert_created. in_class. Qed.
End Class.

Lemma neutral_vector_class {ASAN : AsanRuntime} {ALLOC : Allocator} me : vector_class me (λ A p, Neutral me p).
Proof.
  split; intros.
  - apply neutral_done.
  - by apply neutral_bind_result.
  - apply neutral_private. by intros w r w'; destruct r.
  - apply neutral_private. by intros w r w'; destruct r.
  - neutral.
  - neutral.
  - neutral.
  - neutral.
  - neutral.
  - neutral.
  - neutral.
  - unfold gc_root_get. neutral.
Qed.

Lemma steady_vector_class {ASAN : AsanRuntime} {ALLOC : Allocator} me : vector_class me (λ A p, Steady me p).
Proof.
  split; intros.
  - apply steady_done.
  - by apply steady_bind_result.
  - apply steady_atomic. by intros w r w'; destruct r.
  - apply steady_atomic. by intros w r w'; destruct r.
  - steady.
  - apply steady_atomic, unmoved_private, private_operator_delete.
  - steady.
  - steady.
  - steady.
  - steady.
  - steady.
  - steady.
Qed.

(** ** Scripts *)

(** What a client does with its vector; [created] is the address of the local
    root of [emplace_new], [Assign] is the assignment of a new vector. *)
Inductive vector_op :=
| Push_back (pointer : gc_ptr)
| Emplace_new (sizeof_T alignof_T : Z) (d : DestructorFn) (ctor : Z → proc unit) (created : Z)
| Reserve (capacity : Z)
| Shrink_to_fit
| Resize (count : Z)
| Clear
| Pop_back
| Erase (first last : nat)
| Assign (pointers : list gc_ptr).

(** The preconditions of the standard. *)
Definition op_allowed (op : vector_op) (v : vector) : bool :=
  match op with
  | Pop_back => negb (size_ v =? 0)%nat
  | Erase first last => (first <=? last)%nat && (last <=? size_ v)%nat
  | Resize count => 0 <=? count
  | _ => true
  end.

Section Script.
Context {ASAN : AsanRuntime} {ALLOC : Allocator} {GROWTH : VectorGrowth}.
Context (dtor : DestructorFn → Z → proc unit) (me : thread_id) (env : nat → CollectEnv).

Definition run_op (i : nat) (op : vector_op) (v : vector) : proc vector :=
  let park := ce_park (env i) in
  match op with
  | Push_back pointer => gc_vector_push_back me park v pointer
  | Emplace_new n a d ctor created =>
      '(_, v) ← gc_vector_emplace_new dtor me (env i) n a d ctor v created; mret v
  | Reserve capacity => gc_vector_reserve me park v capacity
  | Shrink_to_fit => gc_vector_shrink_to_fit me park v
  | Resize count => gc_vector_resize me park v count
  | Clear => gc_vector_clear me park v
  | Pop_back => gc_vector_pop_back me park v
  | Erase first last => gc_vector_erase_range me park v first last
  | Assign pointers =>
      other ← gc_vector_list me park pointers;
      '(v, other) ← gc_vector_move_assign me park v other;
      gc_vector_destroy me park other;; mret v
  end.

(** The vector in the end, and what stopped the script. *)
Fixpoint run_ops (i : nat) (ops : list vector_op) (v : vector) : proc (vector * result unit) :=
  match ops with
  | [] => mret (v, Ok tt)
  | op :: ops' =>
      if op_allowed op v
      then
        bind_result (run_op i op v) (λ r,
          match r with
          | Ok v' => run_ops (S i) ops' v'
          | Raise e => mret (v, Raise e)
          end)
      else run_ops (S i) ops' v
  end.

Definition vector_scope (pointers : list gc_ptr) (ops : list vector_op) : proc unit :=
  v ← gc_vector_list me (ce_park (env 1)) pointers;
  '(v, r) ← run_ops 3 ops v;
  gc_vector_destroy me (ce_park (env 2)) v;; Done r.

Definition vector_thread (limits : StackLimits) (pointers : list gc_ptr) (ops : list vector_op) : proc unit :=
  noexcept (in_scope me (ce_park (env 0)) (ce_park (env 0)) limits (vector_scope pointers ops)).
End Script.

(** What a script asks of the constructors of the objects it makes. *)
Definition op_ok {ASAN : AsanRuntime} (me : thread_id) (op : vector_op) : Prop :=
  match op with
  | Emplace_new n a d ctor created =>
      is_size n ∧ is_size a ∧ is_size created ∧
      (∀ p, Neutral me (ctor p)) ∧ (∀ p, Tidy (ctor p)) ∧ (∀ p, Steady me (ctor p))
  | _ => True
  end.

Section ScriptProofs.
Context {ASAN : AsanRuntime} {ALLOC : Allocator} {GROWTH : VectorGrowth}.
Context (dtor : DestructorFn → Z → proc unit) (me : thread_id) (env : nat → CollectEnv).

(** *** The class of a script *)

Section ScriptClass.
Context (C : ∀ A : Type, proc A → Prop) (HC : vector_class me C).
Context (Hnew : ∀ i n a d ctor created, op_ok me (Emplace_new n a d ctor created) →
  C _ (gc_new dtor me (env i) n a d ctor)).

Lemma class_run_op i op v : op_ok me op → C _ (run_op dtor me env i op v).
Proof.
  destruct op; intros Hok; unfold run_op; cbv zeta.
  - by apply (class_emplace_back _ _ HC).
  - apply (class_bind _ _ HC); [|intros [? ?]; apply (vc_done _ _ HC)].
    unfold gc_vector_emplace_new. apply (class_bind _ _ HC); [by eapply Hnew|intros p]. apply (class_bind _ _ HC); [apply (vc_root_new _ _ HC)|intros _].
    by apply (class_insert_created _ _ HC).
  - by apply (class_vector_reserve _ _ HC).
  - by apply (class_vector_shrink _ _ HC).
  - by apply (class_vector_resize _ _ HC).
  - by apply (class_erase_at_end _ _ HC).
  - by apply (class_vector_pop_back _ _ HC).
  - by apply (class_vector_erase_range _ _ HC).
  - apply (class_bind _ _ HC); [by apply (class_gc_vector_list _ _ HC)|intros other].
    apply (class_bind _ _ HC); [by apply (class_vector_move_assign _ _ HC)|intros [v' other']].
    apply (class_bind _ _ HC); [by apply (class_vector_destroy _ _ HC)|intros _; apply (vc_done _ _ HC)].
Qed.

Lemma class_run_ops i ops v : Forall (op_ok me) ops → C _ (run_ops dtor me env i ops v).
Proof.
  intros Hops. revert i v. induction Hops as [|op ops Hop _ IH]; intros i v; simpl; [apply (vc_done _ _ HC)|].
  case_match; [|done]. apply (vc_bind_result _ _ HC); [by apply class_run_op|].
  intros [v'|e]; [done|apply (vc_done _ _ HC)].
Qed.

Lemma class_vector_scope pointers ops : Forall (op_ok me) ops → C _ (vector_scope dtor me env pointers ops).
Proof.
  intros Hops. apply (class_bind _ _ HC); [by apply (class_gc_vector_list _ _ HC)|intros v].
  apply (class_bind _ _ HC); [by apply class_run_ops|intros [v' r]].
  apply (class_bind _ _ HC); [by apply (class_vector_destroy _ _ HC)|intros _; apply (vc_done _ _ HC)].
Qed.
End ScriptClass.

(** *** The storage of a script *)

Context (dtor_tidy : ∀ d p, Tidy (dtor d p)).
Context (Henv : ∀ i, env_ok (ce_scan (env i)) ∧ park_typed (ce_park (env i))).

Lemma run_op_owned i op v L0 L :
  op_ok me op → op_allowed op v = true → stored v L0 L → owned (run_op dtor me env i op v) (vector_result v L0) L.
Proof.
  destruct (Henv i) as [Hscan Hpark]. intros Hok Hall Hv. destruct op; unfold run_op; cbv zeta; unfold op_allowed, op_ok in *.
  - by apply emplace_back_owned.
  - destruct Hok as (Hn & Ha & Hc & _ & Ht & _). apply owned_bind.
    eapply owned_mono; [|by apply gc_vector_emplace_new_owned]. by intros [[p v']|e].
  - by apply vector_reserve_owned.
  - by apply vector_shrink_owned.
  - apply vector_resize_owned; [done|done|lia].
  - by apply vector_clear_owned.
  - apply vector_pop_back_owned; [done|done|]. by destruct (size_ v).
  - apply andb_prop in Hall as [?%Nat.leb_le ?%Nat.leb_le]. by apply vector_erase_range_owned.
  - apply owned_bind. eapply owned_mono; [|by apply gc_vector_list_owned]. intros [other|e] L1 HL1; [|by rewrite HL1].
    apply owned_bind. eapply owned_mono; [|by eapply vector_move_assign_owned].
    intros r L2 (v' & rest & -> & Hv' & Hrest). apply owned_bind.
    eapply owned_mono; [|by eapply vector_destroy_owned]. by intros r L3 [-> ->].
Qed.

Lemma run_ops_owned i ops v L0 L :
  Forall (op_ok me) ops → stored v L0 L →
  owned (run_ops dtor me env i ops v) (λ r L', ∃ v' x, r = Ok (v', x) ∧ stored v' L0 L') L.
Proof.
  intros Hops. revert i v L. induction Hops as [|op ops Hop _ IH]; intros i v L Hv; simpl; [by eauto|].
  destruct (op_allowed op v) eqn:Hall; [|by apply IH]. apply owned_bind_result.
  eapply owned_mono; [|by apply run_op_owned]. intros [v'|e] L' HL'; [by apply IH|]. simpl. eauto.
Qed.

Lemma tidy_vector_scope pointers ops : Forall (op_ok me) ops → Tidy (vector_scope dtor me env pointers ops).
Proof.
  intros Hops L. unfold vector_scope. apply owned_bind.
  eapply owned_mono; [|apply gc_vector_list_owned; by apply Henv]. intros [v|e] L1 HL1; [|done].
  apply owned_bind. eapply owned_mono; [|by eapply run_ops_owned]. intros r L2 (v' & x & -> & Hv').
  apply owned_bind. eapply owned_mono; [|eapply vector_destroy_owned, Hv'; by apply Henv]. by intros r' L3 [-> ->].
Qed.
End ScriptProofs.

Lemma vector_thread_ok {ASAN : AsanRuntime} {ALLOC : Allocator} {GROWTH : VectorGrowth} me env limits pointers ops :
  (∀ i, env_ok (ce_scan (env i)) ∧ park_typed (ce_park (env i))) → limits_typed limits → Forall (op_ok me) ops →
  let p := vector_thread no_finalizer me env limits pointers ops in Neutral me p ∧ Tidy p ∧ leaves me p false.
Proof.
  intros He Hl Hops. split_and!.
  - apply neutral_noexcept, neutral_in_scope, (class_vector_scope _ _ _ _ (neutral_vector_class me)); [|done].
    intros i n a d ctor created (_ & _ & _ & Hn & _). apply neutral_gc_new; [intros; apply neutral_done|done].
  - apply tidy_noexcept, tidy_in_scope; [apply He..|done|]. apply tidy_vector_scope; [intros; apply tidy_done|done..].
  - apply leaves_noexcept, in_scope_leaves, (class_vector_scope _ _ _ _ (steady_vector_class me)); [|done].
    intros i n a d ctor created (_ & _ & _ & _ & _ & Hs). apply steady_gc_new; [intros; apply steady_done|done].
Qed.

(** ** The theorem *)

Record vector_client := {
  vt_thread : thread_id;
  vt_env : nat → CollectEnv;
  vt_limits : StackLimits;
  vt_pointers : list gc_ptr;
  vt_script : list vector_op;
}.

Definition vector_pool {ASAN : AsanRuntime} {ALLOC : Allocator} {GROWTH : VectorGrowth} (clients : list vector_client) : pool :=
  (λ c, (vt_thread c, vector_thread no_finalizer (vt_thread c) (vt_env c) (vt_limits c) (vt_pointers c) (vt_script c)))
    <$> clients.

Record client_ok {ASAN : AsanRuntime} (c : vector_client) : Prop := {
  vo_env : ∀ i, env_ok (ce_scan (vt_env c i)) ∧ park_typed (ce_park (vt_env c i));
  vo_limits : limits_typed (vt_limits c);
  vo_script : Forall (op_ok (vt_thread c)) (vt_script c);
}.

Lemma vector_pool_leaving {ASAN : AsanRuntime} {ALLOC : Allocator} {GROWTH : VectorGrowth} clients w0 :
  unenrolled w0 → NoDup (vt_thread <$> clients) → Forall client_ok clients → leaving_start (vector_pool clients) w0.
Proof.
  intros Hw Hnd Hok. apply unenrolled_start; [done| |].
  - unfold vector_pool. by rewrite <-list_fmap_compose.
  - intros t p (c & [= -> ->] & Hin)%list_elem_of_fmap. destruct (proj1 (Forall_forall _ _) Hok c Hin).
    by apply vector_thread_ok.
Qed.

(** C7. Threads that build a vector, work on it by any script of operations within
    the preconditions of the standard, and destroy it, interleaved in any way
    with each other and with the collections they cause: no step is undefined,
    every schedule ends, and when it has, all threads have finished or one of
    them let an exception escape and terminated the process; the world runs,
    nobody is registered, and no storage of a vector is left. *)
Theorem vector_programs_complete {ASAN : AsanRuntime} {ALLOC : Allocator} {GROWTH : VectorGrowth} clients w0 :
  unenrolled w0 → NoDup (vt_thread <$> clients) → Forall client_ok clients →
  let P0 := vector_pool clients in
  Acc (λ c' c, ∃ t, step c t c') (P0, w0) ∧
  ∀ P w, steps (P0, w0) (P, w) → (∀ t c', ¬ step (P, w) t c') →
    (Forall (λ tp, finished tp.2) P ∧ control w = (None, false, false) ∧ (∀ t, registered t w = false) ∧
       ∀ q, outstanding w q ↔ is_registered w q ∨ user_storage w0 q) ∨
    ∃ t p, (t, p) ∈ P ∧ terminates p w.
Proof.
  intros Hw Hnd Hok P0. pose proof (vector_pool_leaving clients w0 Hw Hnd Hok) as Hst.
  split; [by apply schedules_end, ls_sound|]. intros P w. by apply leaving_outcome.
Qed.

Definition demo_clients : list vector_client :=
  [{| vt_thread := 2; vt_env := λ _, worker_env 200000; vt_limits := Apple_stack 200064; vt_pointers := [];
      vt_script := [Emplace_new sizeof_Job alignof_Job 1 (Job 1) 200032; Push_back gc_ptr_null; Resize 5; Erase 1 3;
                    Shrink_to_fit; Emplace_new sizeof_Job alignof_Job 1 (Job 2) 200032; Clear] |};
   {| vt_thread := 3; vt_env := λ _, worker_env 300000; vt_limits := Apple_stack 300064; vt_pointers := [gc_ptr_null];
      vt_script := [Reserve 4; Emplace_new sizeof_Job alignof_Job 1 (Job 3) 300032; Pop_back;
                    Assign [gc_ptr_null; gc_ptr_null]] |}].

(** The two take turns; the collections each causes find the other parked. *)
Definition clients_schedule : list thread_id :=
  concat (replicate 13 [2; 3]) ++ [2; 2; 2; 2; 3; 3] ++ concat (replicate 26 [2; 3]) ++ replicate 64 2.

Lemma Job_op_ok {ASAN : AsanRuntime} me id created : is_size created → op_ok me (Emplace_new sizeof_Job alignof_Job 1 (Job id) created).
Proof.
  intros Hc. split_and!; [done|done|done|..]; intros p; [apply neutral_Job|apply tidy_Job|apply steady_Job].
Qed.

Lemma demo_clients_ok : Forall (@client_ok no_asan) demo_clients.
Proof.
  repeat (apply Forall_cons; split); [..|done]; (split; [intros; by apply worker_env_ok|done|]);
    repeat (apply Forall_cons; split); try done; by apply Job_op_ok.
Qed.

Lemma demo_clients_distinct : NoDup (vt_thread <$> demo_clients).
Proof. apply NoDup_cons. split; [by intros ?%list_elem_of_singleton|apply NoDup_singleton]. Qed.

Lemma vector_programs_complete_witness :
  ∃ P w, schedule clients_schedule (@vector_pool no_asan bump_allocator doubling demo_clients, small_heap) = Some (P, w) ∧
    Forall (λ tp, finished tp.2) P ∧ (∀ t, registered t w = false) ∧
    (∀ q, outstanding w q ↔ is_registered w q) ∧ (allocations w).*1 = [4144; 4384].
Proof.
  assert (match schedule clients_schedule (@vector_pool no_asan bump_allocator doubling demo_clients, small_heap) with
    | Some (P, w) => Forall (λ tp, finished tp.2) P ∧ (allocations w).*1 = [4144; 4384]
    | None => False end) as Hv by (vm_compute; repeat constructor).
  pose proof (proj2 (@vector_programs_complete no_asan bump_allocator doubling demo_clients small_heap small_heap_unenrolled
    demo_clients_distinct demo_clients_ok)) as Hall.
  destruct (schedule clients_schedule (@vector_pool no_asan bump_allocator doubling demo_clients, small_heap))
    as [[P w]|] eqn:E; [|destruct Hv]. destruct Hv as [Hf Ha].
  exists P, w. split; [reflexivity|]. split; [exact Hf|].
  destruct (Hall P w (schedule_steps _ _ _ E) ltac:(by apply finished_no_step)) as [(_ & _ & Hr & Hq)|(t & p & Hin & Ht)].
  - split; [exact Hr|]. split; [|exact Ha]. intros q. rewrite (Hq q). split; [|by left].
    intros [?|([x Hx] & _)]; [assumption|]. simpl in Hx. by rewrite lookup_empty in Hx.
  - exfalso. pose proof (proj1 (Forall_forall _ _) Hf _ Hin) as Hp. destruct p; [destruct Ht|destruct Hp].
Defined.
