(* ===== verification/Process.v ===== *)
(** * A process from main to exit

    [main] runs on the thread of the process; when it returns, the static
    manager is destroyed.  Whatever a single-threaded program did, its exit
    leaves nothing behind.  The program of src/examples/weak_arrays.cpp. *)

From S2P Require Import Prelude Words Memory OrdMap Chunk Manager Heap Scanner Scenario Mark.
From S2P Require Import Finalize WeakRefs Sweep Threads Protocol Collect CollectSpec CollectorTheorems.
From S2P Require Import Roots Alloc Handles GcNew ArrayHandles Api Diagnostics Disciplines Enrolment Interleave.
From S2P Require Import Ownership Storage Tidiness HeapSafety Leaving Workers.

(** [main], then the destructors of static objects, on the thread [me]. *)
Definition process {ASAN : AsanRuntime} (dtor : DestructorFn → Z → proc unit) (me : thread_id) (env : CollectEnv)
    (main : proc unit) : proc unit :=
  noexcept main;; gc.destroy_GC_Manager dtor me env.

(** ** The program of examples/weak_arrays.cpp *)

(** [struct Buffer { int value = 0; }] *)
Definition sizeof_Buffer : Z := 4.
Definition alignof_Buffer : Z := 4.

Definition Buffer (buffer : Z) : proc unit := atomic (modify (set_mem (λ m, store_int m buffer 0))).

Section WeakArrays.
Context {ASAN : AsanRuntime} {ALLOC : Allocator} (dtor : DestructorFn → Z → proc unit).

(** [env i] is what the [i]-th call sees; [weak_array] and [temporary] are the
    addresses of the variable and of the temporary assigned to it. *)
Context (me : thread_id) (env : nat → CollectEnv) (destroy_Buffers : DestructorFn) (weak_array temporary : Z).

Abbreviation park i := (ce_park (env i%nat)).

Definition value_at (array : gc_array_ptr) (i : Z) : M World Z :=
  gets (λ w, load_int (mem w) (gc_array_ptr_index sizeof_Buffer array i)).

Definition set_value_at (array : gc_array_ptr) (i v : Z) : M World unit :=
  modify (set_mem (λ m, store_int m (gc_array_ptr_index sizeof_Buffer array i) v)).

(** The inner block; what it prints is its result. *)
Definition weak_arrays_block : proc (option (Z * Z)) :=
  array ← gc_new_array dtor me (env 2) sizeof_Buffer alignof_Buffer 3 destroy_Buffers Buffer (λ _, mret tt);
  let array := as_array array in
  atomic (set_value_at array 0 7);;
  atomic (set_value_at array 1 11);;
  gc_array_weak_ptr_new me (park 3) temporary array;;
  gc_array_weak_ptr_move_assign me (park 4) weak_array temporary;;
  gc_array_weak_ptr_destroy me (park 5) temporary;;
  locked ← gc_array_weak_ptr_lock me (park 6) weak_array;
  if gc_array_ptr_bool locked
  then
    v0 ← atomic (value_at locked 0);
    v1 ← atomic (value_at locked 1);
    mret (Some (v0, v1))
  else mret None.

(** [main]; the second component is what the last line prints. *)
Definition weak_arrays (limits : StackLimits) : proc (option (Z * Z) * bool) :=
  gc.register_current_thread me (env 1) limits;;
  atomic (write_word weak_array 0);;
  bind_result
    (values ← weak_arrays_block;
     gc.shutdown dtor me (env 7);;
     expired ← gc_array_weak_ptr_expired me (park 8) weak_array;
     mret (values, expired))
    (λ r, gc_array_weak_ptr_destroy me (park 9) weak_array;; Done r).
End WeakArrays.

(** ** Exit *)

Section Exit.
Context {ASAN : AsanRuntime} (dtor : DestructorFn → Z → proc unit) (me : thread_id) (env : CollectEnv).
Hypothesis dtor_neutral : ∀ d p, Neutral me (dtor d p).
Hypothesis dtor_tidy : ∀ d p, Tidy (dtor d p).
Hypothesis dtor_empties : ∀ d p w, emptied w → ends (dtor d p) (λ _ w', emptied w') w.
Hypothesis Hpark : park_typed (ce_park env).

Lemma neutral_destroy_GC_Manager : Neutral me (gc.destroy_GC_Manager dtor me env).
Proof. by apply neutral_noexcept, neutral_shutdown. Qed.

Lemma tidy_destroy_GC_Manager : Tidy (gc.destroy_GC_Manager dtor me env).
Proof. by apply tidy_noexcept, tidy_shutdown. Qed.

Lemma process_outcome main w :
  unenrolled w → Neutral me main → Tidy main →
  exec (process dtor me env main) w = Stuck Terminated ∨
  ∃ w', exec (process dtor me env main) w = Ret tt w' ∧ emptied w' ∧ idle w' ∧
    ∀ q, outstanding w' q ↔ user_storage w q.
Proof.
  intros Hw Hn Ht.
  assert (alone_start me (process dtor me env main) w) as Hst.
  { apply unenrolled_alone; [done|..].
    - apply neutral_bind; [by apply neutral_noexcept|intros _; apply neutral_destroy_GC_Manager].
    - apply tidy_bind; [by apply tidy_noexcept|intros _; apply tidy_destroy_GC_Manager]. }
  destruct (alone_outcome _ _ _ Hst) as [?|(r & w' & E & _ & Hi & _ & Hq)]; [by left|right].
  destruct r as [[]|e].
  - assert (emptied w') as He.
    { refine (ends_bind (noexcept main) _ (λ _ w', emptied w') w _ tt w' E).
      eapply ends_mono; [|apply (ends_neutral me), unenrolled_resting, Hw; by apply neutral_noexcept].
      intros [] w1 [_ Hi1]. by apply ends_noexcept, ends_shutdown. }
    exists w'. split_and!; [done..|]. intros q. rewrite Hq. split; [|by right].
    intros [(k & b & Hin & _)|?]; [|done]. rewrite (proj1 He) in Hin. by apply elem_of_nil in Hin.
  - exfalso. unfold process in E. rewrite exec_bind in E.
    destruct (exec (noexcept main) w) as [[] w1|e1 w1|] eqn:E1; [by eapply noexcept_no_throw|by eapply noexcept_no_throw|done].
Qed.
End Exit.

(** ** The weak arrays *)

Section WeakArraysProofs.
Context {ASAN : AsanRuntime} {ALLOC : Allocator} (me : thread_id) (env : nat → CollectEnv).
Context (d : DestructorFn) (weak_array temporary : Z).

#[local] Hint Resolve private_store_int : private.
#[local] Hint Extern 1 (private (set_value_at _ _ _)) => apply private_modify; reflexivity : private.
#[local] Hint Extern 1 (private (value_at _ _)) => apply private_gets : private.
#[local] Hint Resolve keeps_store_int : keeps.

Lemma keeps_set_value_at array i v : keeps (set_value_at array i v).
Proof. by apply keeps_still. Qed.

Lemma keeps_value_at array i : keeps (value_at array i).
Proof. by apply keeps_still. Qed.
#[local] Hint Resolve keeps_set_value_at keeps_value_at : keeps.

Lemma neutral_lock penv self : Neutral me (gc_array_weak_ptr_lock me penv self).
Proof. unfold gc_array_weak_ptr_lock, noexcept, read_weak_ref. neutral. Qed.

Lemma tidy_lock penv self : park_typed penv → Tidy (gc_array_weak_ptr_lock me penv self).
Proof. intros Hp. unfold gc_array_weak_ptr_lock. tidy. Qed.

Lemma neutral_weak_arrays_block : Neutral me (weak_arrays_block no_finalizer me env d weak_array temporary).
Proof.
  unfold weak_arrays_block. apply neutral_bind; [|intros array; simpl].
  - apply neutral_construct_array; [intros; apply neutral_done|intros; unfold Buffer; neutral|intros; apply neutral_done].
  - repeat (apply neutral_bind; [first [apply neutral_gc_weak_ptr_new|apply neutral_gc_weak_ptr_move_assign
      |apply neutral_gc_weak_ptr_destroy|apply neutral_lock|neutral]|intros ?]). neutral.
Qed.

Lemma neutral_weak_arrays limits : Neutral me (weak_arrays no_finalizer me env d weak_array temporary limits).
Proof.
  unfold weak_arrays, gc.register_current_thread, register_current_thread.
  apply neutral_bind; [neutral|intros _]. apply neutral_bind; [neutral|intros _].
  apply neutral_bind_result; [|intros r; apply neutral_bind; [apply neutral_gc_weak_ptr_destroy|intros; apply neutral_done]].
  apply neutral_bind; [apply neutral_weak_arrays_block|intros values].
  apply neutral_bind; [apply neutral_shutdown; intros; apply neutral_done|intros _].
  apply neutral_bind; [apply neutral_gc_weak_ptr_expired|intros; apply neutral_done].
Qed.

Hypothesis Hscan : ∀ i, env_ok (ce_scan (env i)).
Hypothesis Hpark : ∀ i, park_typed (ce_park (env i)).
Hypothesis Hweak : is_size weak_array.
Hypothesis Htemp : is_size temporary.

Lemma tidy_weak_arrays_block : Tidy (weak_arrays_block no_finalizer me env d weak_array temporary).
Proof.
  unfold weak_arrays_block. apply tidy_bind; [|intros array; simpl].
  - apply tidy_construct_array; try done; intros; unfold Buffer; tidy.
  - repeat (apply tidy_bind; [first [by apply tidy_gc_weak_ptr_new|by apply tidy_gc_weak_ptr_move_assign
      |by apply tidy_gc_weak_ptr_destroy|by apply tidy_lock|tidy]|intros ?]). tidy.
Qed.

Lemma tidy_weak_arrays limits :
  limits_typed limits → Tidy (weak_arrays no_finalizer me env d weak_array temporary limits).
Proof.
  intros Hl. unfold weak_arrays. apply tidy_bind; [by apply tidy_register_current_thread|intros _].
  apply tidy_bind; [tidy|intros _].
  apply tidy_bind_result; [|intros r; apply tidy_bind; [by apply tidy_gc_weak_ptr_destroy|intros; apply tidy_done]].
  apply tidy_bind; [apply tidy_weak_arrays_block|intros values].
  apply tidy_bind; [apply tidy_shutdown; try done; intros; apply tidy_done|intros _].
  apply tidy_bind; [by apply tidy_gc_weak_ptr_expired|intros; apply tidy_done].
Qed.

Lemma expired_when_emptied penv self w :
  resting me w → emptied w → exec (gc_array_weak_ptr_expired me penv self) w = Ret true w.
Proof.
  intros [_ Hi] [_ He]. unfold gc_array_weak_ptr_expired. rewrite exec_bind.
  rewrite (exec_noexcept _ w 0 w); [done|]. rewrite exec_locked by by apply idle_parts.
  apply read_weak_ref_absent. rewrite He. by intros e ?%elem_of_nil.
Qed.

Lemma ends_weak_arrays limits w :
  resting me w → ends (weak_arrays no_finalizer me env d weak_array temporary limits) (λ r _, r.2 = true) w.
Proof.
  intros Hw. unfold weak_arrays. apply ends_bind.
  eapply ends_mono; [|apply (ends_neutral me), Hw; unfold gc.register_current_thread, register_current_thread; neutral].
  intros [] w1 Hw1. apply ends_bind. eapply ends_mono; [|apply (ends_neutral me), Hw1; neutral]. intros [] w2 Hw2.
  intros r w3. rewrite exec_bind_result.
  match goal with |- context [exec ?q w2] => set (body := q) end.
  assert (ends body (λ r _, r.2 = true) w2) as Hb.
  { apply ends_bind. eapply ends_mono; [|apply (ends_neutral me), Hw2; apply neutral_weak_arrays_block].
    intros values w4 Hw4. apply ends_bind. intros [] w5 E.
    assert (resting me w5) as Hw5.
    { refine (ends_neutral me _ w4 _ Hw4 tt w5 E). apply neutral_shutdown. intros. apply neutral_done. }
    assert (emptied w5) as He.
    { refine (ends_shutdown no_finalizer me _ _ w4 (re_idle _ _ Hw4) tt w5 E). intros. by apply ends_ret. }
    intros x w6. rewrite exec_bind, expired_when_emptied by done. by intros [= <- <-]. }
  destruct (exec body w2) as [x w4|e w4|] eqn:E; [| |done]; rewrite exec_bind;
    match goal with |- match ?o with _ => _ end = _ → _ => destruct o as [[] w5|e5 w5|] end; try done.
  simpl. intros [= <- <-]. by apply (Hb x w4).
Qed.
End WeakArraysProofs.

(** ** The theorems *)

(** C27. Exit leaves nothing behind.  A process with one thread, which starts
    without storage of its own kind and runs any composition of library
    operations and user code as [main], registered at the end or not, either
    calls [std::terminate] or returns from [main], destroys the manager and ends
    with an empty registry, no weak handle tracked, the world running, and no
    storage outstanding but what was there before and the library never knew.
    The finalizers may do anything but allocate or observe blocks. *)
Theorem process_exit_leaves_nothing {ASAN : AsanRuntime} dtor me env main w :
  (∀ d p, Neutral me (dtor d p)) → (∀ d p, Tidy (dtor d p)) →
  (∀ d p w, emptied w → ends (dtor d p) (λ _ w', emptied w') w) →
  park_typed (ce_park env) → unenrolled w → Neutral me main → Tidy main →
  exec (process dtor me env main) w = Stuck Terminated ∨
  ∃ w', exec (process dtor me env main) w = Ret tt w' ∧ allocations w' = [] ∧ weak_refs w' = [] ∧
    control w' = (None, false, false) ∧ ∀ q, outstanding w' q ↔ user_storage w q.
Proof.
  intros Hn Ht He Hp Hw Hnm Htm.
  destruct (process_outcome dtor me env Hn Ht He Hp main w Hw Hnm Htm) as [?|(w' & E & [Ha Hk] & Hi & Hq)]; [by left|right].
  by exists w'.
Qed.

(** A main program that leaks: it allocates and returns, still registered. *)
Definition leaky_main : proc unit :=
  @gc.register_current_thread no_asan 1 (worker_env 131000) (Apple_stack 131072);;
  @gc_new no_asan bump_allocator no_finalizer 1 (worker_env 131000) sizeof_Job alignof_Job 1 (Job 5);;
  mret tt.

Lemma process_exit_leaves_nothing_witness :
  ∃ w', exec (@process no_asan no_finalizer 1 (worker_env 131000) leaky_main) small_heap = Ret tt w' ∧
    allocations w' = [] ∧ log w' = [EvFinalize 4128; EvFree 4096] ∧ registered 1 w' = true.
Proof.
  assert (Neutral 1 leaky_main) as Hn.
  { apply neutral_bind; [unfold gc.register_current_thread, register_current_thread; neutral|intros _].
    apply neutral_bind; [|intros; apply neutral_done]. apply neutral_gc_new; [intros; apply neutral_done|apply neutral_Job]. }
  assert (@Tidy no_asan _ leaky_main) as Ht.
  { destruct (worker_env_ok 131000) as [Hs Hp]; [done|].
    apply tidy_bind; [by apply tidy_register_current_thread|intros _]. apply tidy_bind; [|intros; apply tidy_done].
    apply tidy_gc_new; try done; intros; first [apply tidy_done|apply tidy_Job]. }
  assert (match exec (@process no_asan no_finalizer 1 (worker_env 131000) leaky_main) small_heap with
    | Ret _ w' => log w' = [EvFinalize 4128; EvFree 4096] ∧ registered 1 w' = true
    | _ => False end) as Hv by (vm_compute; split; reflexivity).
  destruct (@process_exit_leaves_nothing no_asan no_finalizer 1 (worker_env 131000) leaky_main small_heap)
    as [E|(w' & E & Ha & _)].
  - intros d p. apply neutral_done.
  - intros d p. apply tidy_done.
  - intros d p w He. exact (ends_ret tt (λ _ w', emptied w') w He).
  - apply worker_env_ok. done.
  - exact small_heap_unenrolled.
  - exact Hn.
  - exact Ht.
  - rewrite E in Hv. destruct Hv.
  - rewrite E in Hv. destruct Hv as [Hl Hr]. exists w'. exact (conj E (conj Ha (conj Hl Hr))).
Defined.

(** C39. The program of weak_arrays.cpp.  Run in a process that has not used the
    collector, it terminates or exits with an empty heap and no storage left,
    and whenever its [main] returns it has printed that the weak array expired
    after the shutdown. *)
Theorem weak_arrays_expires {ASAN : AsanRuntime} {ALLOC : Allocator} me env exit_env d weak_array temporary limits w :
  unenrolled w → blocks w = ∅ →
  (∀ i, env_ok (ce_scan (env i)) ∧ park_typed (ce_park (env i))) →
  park_typed (ce_park exit_env) → limits_typed limits → is_size weak_array → is_size temporary →
  let main := weak_arrays no_finalizer me env d weak_array temporary limits in
  (exec (process no_finalizer me exit_env (main;; mret tt)) w = Stuck Terminated ∨
   ∃ w', exec (process no_finalizer me exit_env (main;; mret tt)) w = Ret tt w' ∧
     allocations w' = [] ∧ weak_refs w' = [] ∧ blocks w' = ∅) ∧
  ∀ values expired w', exec main w = Ret (values, expired) w' → expired = true.
Proof.
  intros Hw Hb He Hp Hl Hwa Ht main. split.
  - assert (Neutral me (main;; mret tt)) as Hn
      by (apply neutral_bind; [apply neutral_weak_arrays|intros; apply neutral_done]).
    assert (Tidy (main;; mret tt)) as Htidy
      by (apply tidy_bind; [apply tidy_weak_arrays; try done; intros i; apply He|intros; apply tidy_done]).
    destruct (process_outcome no_finalizer me exit_env ltac:(intros; apply neutral_done) ltac:(intros; apply tidy_done)
      ltac:(intros; by apply ends_ret) Hp _ w Hw Hn Htidy) as [?|(w' & E & [Ha Hk] & _ & Hq)]; [by left|right].
    exists w'. split_and!; [done..|]. apply map_empty. intros q. apply eq_None_not_Some.
    intros [([? Hx] & _)%Hq]%(λ H, conj H I). rewrite Hb in Hx. by rewrite lookup_empty in Hx.
  - intros values expired w' E. by apply (ends_weak_arrays me env d weak_array temporary limits w (unenrolled_resting me w Hw) (values, expired) w').
Qed.

Lemma weak_arrays_expires_witness :
  ∃ w', exec (@weak_arrays no_asan bump_allocator no_finalizer 1 (λ _, worker_env 131000) 1 131040 131048 (Apple_stack 131072))
      small_heap = Ret (Some (7, 11), true) w' ∧ allocations w' = [].
Proof.
  pose proof (proj2 (@weak_arrays_expires no_asan bump_allocator 1 (λ _, worker_env 131000) (worker_env 131000) 1
    131040 131048 (Apple_stack 131072) small_heap small_heap_unenrolled eq_refl (λ _, worker_env_ok 131000 ltac:(done))
    (proj2 (worker_env_ok 131000 ltac:(done)))
    ltac:(done) ltac:(done) ltac:(done))) as Hall.
  assert (match exec (@weak_arrays no_asan bump_allocator no_finalizer 1 (λ _, worker_env 131000) 1 131040 131048
      (Apple_stack 131072)) small_heap with
    | Ret (Some (v0, v1), _) w' => v0 = 7 ∧ v1 = 11 ∧ allocations w' = []
    | _ => False end) as Hv by (vm_compute; repeat constructor).
  destruct (exec (@weak_arrays no_asan bump_allocator no_finalizer 1 (λ _, worker_env 131000) 1 131040 131048
      (Apple_stack 131072)) small_heap) as [[[[v0 v1]|] b] w'|e w'|] eqn:E; [|destruct Hv..].
  rewrite (Hall _ _ _ eq_refl) in *. destruct Hv as (-> & -> & Hv). exists w'. split; [reflexivity|exact Hv].
Defined.
