(* ===== verification/Programs.v ===== *)
(** * The programs of the repository

    src/src/main.cpp and the programs of src/examples/ but for worker_threads.cpp
    and weak_arrays.cpp, which Workers and Process hold: run in a process that
    has not used the collector, each ends with an empty heap, or terminates.

    A label is a [std::string] of at most fifteen characters, laid out as
    libstdc++ does, in the object itself.  [env i] is what the [i]-th call into
    the collector sees; variables of [main] are given by their addresses. *)

From Stdlib Require Import Ascii.
From S2P Require Import Prelude Words Memory OrdMap Chunk Manager Heap Scanner Scenario Mark.
From S2P Require Import Finalize WeakRefs Sweep Threads Protocol Collect CollectSpec CollectorTheorems.
From S2P Require Import Roots Alloc Handles GcNew ArrayHandles Vector Api Slots VectorSpec Diagnostics Text.
From S2P Require Import Disciplines Enrolment Interleave Ownership Storage Tidiness VectorStorage HeapSafety Leaving Survival.
From S2P Require Import Workers VectorPrograms Process.
#[local] Open Scope string_scope.
#[local] Open Scope Z_scope.

(** ** The standard library *)

Definition sizeof_string : Z := 32.

Definition char_codes (s : string) : list Z := (λ c, Z.of_N (N_of_ascii c)) <$> String.list_ascii_of_string s.

(** The pointer to the characters, the length, the characters and a zero. *)
Definition store_string (s : string) (this : Z) (m : memory) : memory :=
  store_word (store_word (store_bytes m (this + 16) (char_codes s ++ [0])) (this + 8) (Z.of_nat (String.length s)))
    this (this + 16).

Definition load_string (m : memory) (this : Z) : string :=
  String.string_of_list_ascii ((λ a, ascii_of_N (Z.to_N (load_byte m a))) <$> seqZ (load_word m this) (load_word m (this + 8))).

Definition read_string (this : Z) : M World string := gets (λ w, load_string (mem w) this).
Definition construct_string (s : string) (this : Z) : M World unit := modify (set_mem (store_string s this)).

Definition read_int (a : Z) : M World Z := gets (λ w, load_int (mem w) a).
Definition write_int (a v : Z) : M World unit := modify (set_mem (λ m, store_int m a v)).

(** [std::cout << line] *)
Definition print (line : string) : proc unit := atomic (modify (add_log (EvPrint line))).

(** [p] in a scope that [cleanup] leaves. *)
Definition finally {A} (p : proc A) (cleanup : proc unit) : proc A := bind_result p (λ r, cleanup;; Done r).

(** ** src/src/main.cpp *)

Module Demonstration.

(** [struct Node { gc_ptr<Node> next; std::string label; }] *)
Definition sizeof_Node : Z := 40.
Definition alignof_Node : Z := 8.
Definition Node_next (node : Z) : Z := node.
Definition Node_label (node : Z) : Z := node + 8.

Definition Node (label_value : string) (node : Z) : proc unit :=
  atomic (write_word (Node_next node) 0);; atomic (construct_string label_value (Node_label node)).

Definition destroy_Node (node : Z) : proc unit :=
  label ← atomic (read_string (Node_label node));
  print ("Destroying " +:+ label +:+ newline).

(** The only finalizer of the program. *)
Definition destroy_Nodes (d : DestructorFn) (payload : Z) : proc unit := destroy_object destroy_Node payload.

Definition scrub_stack : proc unit :=
  let noise := seqZ 0 256 in
  let sink := foldl Z.lxor 0 noise in
  if sink =? SIZE_MAX then print ("unreachable" +:+ newline) else mret tt.

Section Main.
Context {ASAN : AsanRuntime} {ALLOC : Allocator} (me : thread_id) (env : nat → CollectEnv).
Context (destroy_object_Node : DestructorFn) (root : Z).

Definition new_Node (i : nat) (label_value : string) : proc gc_ptr :=
  gc_new destroy_Nodes me (env i) sizeof_Node alignof_Node destroy_object_Node (Node label_value).

Definition build_unreachable_cycle : proc unit :=
  alpha ← new_Node 7 "alpha";
  beta ← new_Node 8 "beta";
  atomic (write_word (Node_next (gc_ptr_get alpha)) (gc_ptr_get beta));;
  atomic (write_word (Node_next (gc_ptr_get beta)) (gc_ptr_get alpha)).

(** [std::cout << label << manager.managed_block_count() << '\n'] *)
Definition print_count (i : nat) (label : string) : proc unit :=
  print label;;
  count ← managed_block_count me (ce_park (env i));
  print (put_dec count newline).

(** From the construction of [root] on. *)
Definition with_root : proc unit :=
  finally
    (child ← new_Node 3 "child";
     r ← gc_root_get root;
     atomic (write_word (Node_next r) (gc_ptr_get child));;
     print_count 4 "Managed blocks before collection: ";;
     collect destroy_Nodes me (env 5);;
     print_count 6 "Managed blocks with a root on the stack: ";;
     build_unreachable_cycle;;
     scrub_stack;;
     collect destroy_Nodes me (env 9);;
     print_count 10 "Managed blocks after reclaiming an unreachable cycle: ";;
     snapshot ← dump_heap_text me (ce_park (env 11));
     print snapshot;;
     gc_root_reset root 0;;
     scrub_stack;;
     collect destroy_Nodes me (env 12);;
     print_count 13 "Managed blocks after dropping every root: ";;
     gc.shutdown destroy_Nodes me (env 14))
    (gc_root_destroy me (ce_park (env 15)) root).

Definition main (limits : StackLimits) : proc unit :=
  gc.register_current_thread me (env 0) limits;;
  node ← new_Node 1 "root";
  gc_root_new me (ce_park (env 2)) root (gc_ptr_get node);;
  with_root.
End Main.
End Demonstration.

(** ** src/examples/quick_start.cpp *)

Module QuickStart.

(** [struct Message { gc_ptr<Message> next; std::string text; }] *)
Definition sizeof_Message : Z := 40.
Definition alignof_Message : Z := 8.
Definition Message_next (message : Z) : Z := message.
Definition Message_text (message : Z) : Z := message + 8.

Definition Message (text_value : string) (message : Z) : proc unit :=
  atomic (write_word (Message_next message) 0);; atomic (construct_string text_value (Message_text message)).

Section Main.
Context {ASAN : AsanRuntime} {ALLOC : Allocator} (me : thread_id) (env : nat → CollectEnv).
Context (destroy_object_Message : DestructorFn) (head : Z).

Definition new_Message (i : nat) (text_value : string) : proc gc_ptr :=
  gc_new no_finalizer me (env i) sizeof_Message alignof_Message destroy_object_Message (Message text_value).

(** From the first collection on. *)
Definition after_linking : proc unit :=
  gc.collect no_finalizer me (env 4);;
  h ← gc_root_get head;
  text ← atomic (read_string (Message_text h));
  h ← gc_root_get head;
  next ← atomic (read_word (Message_next h));
  next_text ← atomic (read_string (Message_text next));
  print ("After collection the rooted list is still alive: " +:+ text +:+ " -> " +:+ next_text +:+ newline);;
  gc_root_reset head 0;;
  gc.collect no_finalizer me (env 5);;
  gc.shutdown no_finalizer me (env 6).

Definition with_head : proc unit :=
  finally
    (child ← new_Message 3 "child";
     h ← gc_root_get head;
     atomic (write_word (Message_next h) (gc_ptr_get child));;
     after_linking)
    (gc_root_destroy me (ce_park (env 7)) head).

Definition main (limits : StackLimits) : proc unit :=
  gc.register_current_thread me (env 0) limits;;
  message ← new_Message 1 "root";
  gc_root_new me (ce_park (env 2)) head (gc_ptr_get message);;
  with_head.
End Main.
End QuickStart.

(** ** src/examples/explicit_roots.cpp *)

Module ExplicitRoots.

(** [struct Node { int value; }] *)
Definition sizeof_Node : Z := 4.
Definition alignof_Node : Z := 4.
Definition sizeof_gc_ptr : Z := 8.

Definition Node (value_in node : Z) : proc unit := atomic (write_int node value_in).

Section Main.
Context {ASAN : AsanRuntime} {ALLOC : Allocator} (me : thread_id) (env : nat → CollectEnv).
Context (destroy_object_Node : DestructorFn).

(** The inner block. *)
Definition rooted_block (external_root : Z) : proc unit :=
  rooted_external ← ScopedRootObject_new me (ce_park (env 2)) sizeof_gc_ptr external_root;
  finally
    (gc.collect no_finalizer me (env 3);;
     node ← atomic (read_word external_root);
     value ← atomic (read_int node);
     print ("The externally stored node survived collection with value " +:+ put_dec value newline))
    (ScopedRootObject_destroy me (ce_park (env 4)) sizeof_gc_ptr rooted_external).

(** From the allocation of the external handle on; its owner deletes it. *)
Definition with_external_root (external_root : Z) : proc unit :=
  finally
    (atomic (write_word external_root 0);;
     node ← gc_new no_finalizer me (env 1) sizeof_Node alignof_Node destroy_object_Node (Node 42);
     atomic (write_word external_root (gc_ptr_get node));;
     rooted_block external_root;;
     atomic (write_word external_root 0);;
     gc.collect no_finalizer me (env 5);;
     gc.shutdown no_finalizer me (env 6))
    (atomic (operator_delete external_root default_new_alignment)).

Definition main (limits : StackLimits) : proc unit :=
  gc.register_current_thread me (env 0) limits;;
  external_root ← atomic (operator_new sizeof_gc_ptr default_new_alignment);
  with_external_root external_root.
End Main.
End ExplicitRoots.

(** ** src/examples/collections_and_diagnostics.cpp *)

Module Collections.

(** [struct Sample { std::string name; int reading; }] *)
Definition sizeof_Sample : Z := 40.
Definition alignof_Sample : Z := 8.
Definition Sample_name (sample : Z) : Z := sample.
Definition Sample_reading (sample : Z) : Z := sample + 32.

Definition Sample (name_value : string) (reading_value sample : Z) : proc unit :=
  atomic (construct_string name_value (Sample_name sample));; atomic (write_int (Sample_reading sample) reading_value).

Definition sizeof_int : Z := 4.
Definition alignof_int : Z := 4.

(** [int] as the four bytes hold it. *)
Definition int_of (v : Z) : Z := v mod 2 ^ 32.

Section Main.
Context {ASAN : AsanRuntime} {ALLOC : Allocator} {GROWTH : VectorGrowth} (me : thread_id) (env : nat → CollectEnv).
Context (destroy_object_Sample destroy_ints : DestructorFn) (squares defaults created : Z).

(** [p] in the scope of the vector [samples], which goes when [p] throws. *)
Definition or_destroy {A B} (samples : vector) (p : proc A) (k : A → proc B) : proc B :=
  bind_result p (λ r,
    match r with
    | Ok a => k a
    | Raise e => gc_vector_destroy me (ce_park (env 20)) samples;; raise e
    end).

Definition emplace_Sample (i : nat) (name_value : string) (reading_value : Z) (samples : vector)
    : proc (gc_ptr * vector) :=
  gc_vector_emplace_new no_finalizer me (env i) sizeof_Sample alignof_Sample destroy_object_Sample
    (Sample name_value reading_value) samples created.

(** The loop over the [n] samples from the address [root] on. *)
Fixpoint print_samples (root : Z) (n : nat) : proc unit :=
  match n with
  | O => mret tt
  | S n' =>
      sample ← gc_root_get root;
      name ← atomic (read_string (Sample_name sample));
      reading ← atomic (read_int (Sample_reading sample));
      print (name +:+ ": " +:+ put_dec reading newline);;
      print_samples (root + sizeof_gc_root) n'
  end.

(** From the collection on: the vector in the end and the value of [main]. *)
Definition diagnostics (samples : vector) : proc (vector * result Z) :=
  gc.collect no_finalizer me (env 7);;
  print_samples (gc_vector_begin samples) (gc_vector_size samples);;
  square3 ← gc_array_root_index sizeof_int squares 3;
  info ← object_info me (ce_park (env 8)) square3;
  snapshot ← stats me (ce_park (env 9));
  square7 ← gc_array_root_index sizeof_int squares 7;
  v7 ← atomic (read_int square7);
  default3 ← gc_array_root_index sizeof_int defaults 3;
  v3 ← atomic (read_int default3);
  match info with
  | Some info =>
      if negb (v7 =? 49) || negb (v3 =? int_of (-1)) || negb (total_allocations (sn_stats snapshot) =? 4)
      then mret (samples, Ok 1)
      else
        print ("Generated array allocation: " +:+ put_dec (ho_payload_size info) (" payload bytes" +:+ newline +:+
          "Allocations: " +:+ put_dec (total_allocations (sn_stats snapshot)) (", peak payload bytes: " +:+
          put_dec (peak_live_bytes (sn_stats snapshot)) newline)));;
        samples ← gc_vector_clear me (ce_park (env 10)) samples;
        gc_array_root_reset squares 0;;
        gc_array_root_reset defaults 0;;
        bind_result (gc.shutdown no_finalizer me (env 11)) (λ r,
          mret (samples, match r with Ok _ => Ok 0 | Raise e => Raise e end))
  | None => mret (samples, Ok 1)
  end.

(** The two arrays and their roots. *)
Definition with_arrays (samples : vector) : proc (vector * result Z) :=
  array ← gc_generate_array no_finalizer me (env 3) sizeof_int alignof_int 8 destroy_ints
    (λ index element, atomic (write_int element (Z.of_nat index * Z.of_nat index))) (λ _, mret tt);
  gc_array_root_new me (ce_park (env 4)) squares (as_array array);;
  finally
    (array ← gc_new_array_copies no_finalizer me (env 5) sizeof_int alignof_int 4 destroy_ints
       (λ element, atomic (write_int element (-1))) (λ _, mret tt);
     gc_array_root_new me (ce_park (env 6)) defaults (as_array array);;
     finally (diagnostics samples) (gc_array_root_destroy me (ce_park (env 12)) defaults))
    (gc_array_root_destroy me (ce_park (env 13)) squares).

Definition with_samples : proc Z :=
  or_destroy gc_vector (emplace_Sample 1 "temperature" 21 gc_vector) (λ '(_, samples),
  or_destroy samples (emplace_Sample 2 "humidity" 48 samples) (λ '(_, samples),
  or_destroy samples (with_arrays samples) (λ '(samples, r),
  gc_vector_destroy me (ce_park (env 20)) samples;; Done r))).

Definition main (limits : StackLimits) : proc Z :=
  owns_registration ← ScopedThreadRegistration me (ce_park (env 0)) limits;
  finally with_samples (destroy_ScopedThreadRegistration me (ce_park (env 14)) owns_registration).
End Main.
End Collections.

(** ** Proofs *)

Lemma neutral_finally me {A} (p : proc A) c : Neutral me p → Neutral me c → Neutral me (finally p c).
Proof. intros Hp Hc. unfold finally. neutral. Qed.

Lemma tidy_finally {ASAN : AsanRuntime} {A} (p : proc A) c : Tidy p → Tidy c → Tidy (finally p c).
Proof. intros Hp Hc. unfold finally. tidy. Qed.

Lemma neutral_print me line : Neutral me (print line).
Proof. unfold print. neutral. Qed.

Lemma keeps_memory {ASAN : AsanRuntime} f : keeps (modify (set_mem f)).
Proof. by apply keeps_still. Qed.

Lemma tidy_print {ASAN : AsanRuntime} line : Tidy (print line).
Proof. by apply tidy_atomic, keeps_still. Qed.

#[export] Hint Resolve neutral_finally neutral_print : neutral.
#[export] Hint Resolve tidy_finally tidy_print : tidy.
#[export] Hint Extern 1 (private (read_string _)) => apply private_gets : private.
#[export] Hint Extern 1 (private (read_int _)) => apply private_gets : private.
#[export] Hint Extern 1 (private (construct_string _ _)) => apply private_modify; reflexivity : private.
#[export] Hint Extern 1 (private (write_int _ _)) => apply private_modify; reflexivity : private.
#[export] Hint Extern 1 (keeps (read_string _)) => apply keeps_gets : keeps.
#[export] Hint Extern 1 (keeps (read_int _)) => apply keeps_gets : keeps.
#[export] Hint Extern 1 (keeps (construct_string _ _)) => apply keeps_memory : keeps.
#[export] Hint Extern 1 (keeps (write_int _ _)) => apply keeps_memory : keeps.

(** A program of the repository, alone in its process. *)
Record program_ok {ASAN : AsanRuntime} (dtor : DestructorFn → Z → proc unit) (me : thread_id) (main : proc unit) : Prop := {
  pk_neutral : Neutral me main;
  pk_tidy : Tidy main;
  pk_dtor_neutral : ∀ d p, Neutral me (dtor d p);
  pk_dtor_tidy : ∀ d p, Tidy (dtor d p);
  pk_dtor_empties : ∀ d p w, emptied w → ends (dtor d p) (λ _ w', emptied w') w;
}.

Lemma program_exits {ASAN : AsanRuntime} dtor me exit_env main w :
  program_ok dtor me main → park_typed (ce_park exit_env) → unenrolled w → blocks w = ∅ →
  exec (process dtor me exit_env main) w = Stuck Terminated ∨
  ∃ w', exec (process dtor me exit_env main) w = Ret tt w' ∧
    allocations w' = [] ∧ weak_refs w' = [] ∧ blocks w' = ∅.
Proof.
  intros [Hn Ht Hdn Hdt He] Hp Hw Hb.
  destruct (process_outcome dtor me exit_env Hdn Hdt He Hp main w Hw Hn Ht)
    as [?|(w' & E & [Ha Hk] & _ & Hq)]; [by left|right].
  exists w'. split_and!; [done..|]. apply map_empty. intros q. apply eq_None_not_Some.
  intros [([? Hx] & _)%Hq]%(λ H, conj H I). rewrite Hb in Hx. by rewrite lookup_empty in Hx.
Qed.

Section DemonstrationProofs.
Context {ASAN : AsanRuntime} {ALLOC : Allocator} (me : thread_id) (env : nat → CollectEnv) (d : DestructorFn) (root : Z).
Import Demonstration.

Lemma neutral_destroy_Nodes d' p : Neutral me (destroy_Nodes d' p).
Proof. unfold destroy_Nodes, destroy_object, destroy_Node. neutral. Qed.

Lemma tidy_destroy_Nodes d' p : Tidy (destroy_Nodes d' p).
Proof. unfold destroy_Nodes, destroy_object, destroy_Node. tidy. Qed.

Lemma destroy_Nodes_empties d' p w : emptied w → ends (destroy_Nodes d' p) (λ _ w', emptied w') w.
Proof. intros Hw [] w' [= <-]. by apply (emptied_mgr w). Qed.

Lemma neutral_new_Node i l : Neutral me (new_Node me env d i l).
Proof. apply neutral_gc_new; [apply neutral_destroy_Nodes|intros p; unfold Node; neutral]. Qed.
#[local] Hint Resolve neutral_new_Node : neutral.

Lemma neutral_managed_block_count penv : Neutral me (managed_block_count me penv).
Proof. unfold managed_block_count. neutral. Qed.
#[local] Hint Resolve neutral_managed_block_count : neutral.

Lemma neutral_dump_heap_text penv : Neutral me (dump_heap_text me penv).
Proof. unfold dump_heap_text, dump_heap. neutral. Qed.
#[local] Hint Resolve neutral_dump_heap_text : neutral.

Lemma neutral_collect_Nodes env' : Neutral me (collect destroy_Nodes me env').
Proof. apply neutral_collect, neutral_destroy_Nodes. Qed.

Lemma neutral_shutdown_Nodes env' : Neutral me (gc.shutdown destroy_Nodes me env').
Proof. apply neutral_shutdown, neutral_destroy_Nodes. Qed.
#[local] Hint Resolve neutral_collect_Nodes neutral_shutdown_Nodes : neutral.

Lemma neutral_print_count i label : Neutral me (print_count me env i label).
Proof. unfold print_count. neutral. Qed.

Lemma neutral_cycle : Neutral me (build_unreachable_cycle me env d).
Proof. unfold build_unreachable_cycle. neutral. Qed.

(** The exclusive or of the numbers below 256 is zero. *)
Lemma scrub_stack_silent : scrub_stack = mret tt.
Proof. reflexivity. Qed.
#[local] Hint Resolve neutral_print_count neutral_cycle : neutral.

Lemma neutral_demonstration limits : Neutral me (main me env d root limits).
Proof.
  unfold main, gc.register_current_thread, register_current_thread. apply neutral_bind; [neutral|intros _].
  apply neutral_bind; [apply neutral_new_Node|intros node]. apply neutral_bind; [neutral|intros _].
  unfold with_root. rewrite scrub_stack_silent. unfold gc_root_get, gc_root_reset. neutral.
Qed.

Hypothesis Henv : ∀ i, env_ok (ce_scan (env i)) ∧ park_typed (ce_park (env i)).
Hypothesis Hroot : is_size root.

Lemma tidy_new_Node i l : Tidy (new_Node me env d i l).
Proof. apply tidy_gc_new; try apply Henv; [apply tidy_destroy_Nodes|done..|intros p; unfold Node; tidy]. Qed.

Lemma tidy_count penv : park_typed penv → Tidy (managed_block_count me penv).
Proof. intros Hp. unfold managed_block_count. tidy. Qed.

Lemma tidy_dump_heap_text penv : park_typed penv → Tidy (dump_heap_text me penv).
Proof. intros Hp. unfold dump_heap_text. apply tidy_bind; [by apply tidy_dump_heap|intros; apply tidy_done]. Qed.

Lemma tidy_collect_Nodes i : Tidy (collect destroy_Nodes me (env i)).
Proof. apply tidy_collect; [apply tidy_destroy_Nodes|apply Henv..]. Qed.

Lemma tidy_shutdown_Nodes i : Tidy (gc.shutdown destroy_Nodes me (env i)).
Proof. apply tidy_shutdown; [apply tidy_destroy_Nodes|apply Henv..]. Qed.

Lemma tidy_root_new i p : Tidy (gc_root_new me (ce_park (env i)) root p).
Proof. apply tidy_gc_root_new; [apply Henv|done]. Qed.

Lemma tidy_root_destroy i a : Tidy (gc_root_destroy me (ce_park (env i)) a).
Proof. apply tidy_gc_root_destroy, Henv. Qed.

Lemma tidy_print_count i label : Tidy (print_count me env i label).
Proof. unfold print_count. pose proof (tidy_count (ce_park (env i)) (proj2 (Henv i))). tidy. Qed.

Lemma tidy_cycle : Tidy (build_unreachable_cycle me env d).
Proof. pose proof tidy_new_Node. unfold build_unreachable_cycle. tidy. Qed.
#[local] Hint Resolve tidy_new_Node tidy_cycle tidy_print_count tidy_collect_Nodes tidy_shutdown_Nodes tidy_root_new tidy_root_destroy : tidy.

Lemma tidy_demonstration limits : limits_typed limits → Tidy (main me env d root limits).
Proof.
  intros Hl. unfold main. apply tidy_bind; [apply tidy_register_current_thread; [apply Henv|done]|intros _].
  pose proof (tidy_dump_heap_text (ce_park (env 11)) (proj2 (Henv 11))).
  apply tidy_bind; [apply tidy_new_Node|intros node]. apply tidy_bind; [apply tidy_root_new|intros _].
  unfold with_root. rewrite scrub_stack_silent. unfold gc_root_get, gc_root_reset. tidy.
Qed.

Lemma demonstration_ok limits : limits_typed limits → program_ok destroy_Nodes me (main me env d root limits).
Proof.
  intros Hl. split; [apply neutral_demonstration|by apply tidy_demonstration|apply neutral_destroy_Nodes
    |apply tidy_destroy_Nodes|apply destroy_Nodes_empties].
Qed.
End DemonstrationProofs.

Section QuickStartProofs.
Context {ASAN : AsanRuntime} {ALLOC : Allocator} (me : thread_id) (env : nat → CollectEnv) (d : DestructorFn) (head : Z).
Context (Henv : ∀ i, env_ok (ce_scan (env i)) ∧ park_typed (ce_park (env i))) (Hhead : is_size head).
Import QuickStart.

Lemma neutral_collect_none env' : Neutral me (gc.collect no_finalizer me env').
Proof. apply neutral_collect. intros; apply neutral_done. Qed.

Lemma neutral_shutdown_none env' : Neutral me (gc.shutdown no_finalizer me env').
Proof. apply neutral_shutdown. intros; apply neutral_done. Qed.

Lemma tidy_collect_none i : Tidy (gc.collect no_finalizer me (env i)).
Proof. apply tidy_collect; [intros; apply tidy_done|apply Henv..]. Qed.

Lemma tidy_shutdown_none i : Tidy (gc.shutdown no_finalizer me (env i)).
Proof. apply tidy_shutdown; [intros; apply tidy_done|apply Henv..]. Qed.

Lemma neutral_new_Message i l : Neutral me (new_Message me env d i l).
Proof. apply neutral_gc_new; [intros; apply neutral_done|intros p; unfold Message; neutral]. Qed.

Lemma tidy_new_Message i l : Tidy (new_Message me env d i l).
Proof. apply tidy_gc_new; try apply Henv; [intros; apply tidy_done|done..|intros p; unfold Message; tidy]. Qed.

Lemma no_finalizer_ok main : Neutral me main → Tidy main → program_ok no_finalizer me main.
Proof.
  intros Hn Ht. split; [done|done|intros; apply neutral_done|intros; apply tidy_done|].
  intros d' p w Hw. exact (ends_ret tt (λ _ w', emptied w') w Hw).
Qed.

#[local] Hint Resolve neutral_collect_none neutral_shutdown_none neutral_new_Message : neutral.
#[local] Hint Resolve tidy_collect_none tidy_shutdown_none tidy_new_Message : tidy.

Lemma quick_start_ok limits : limits_typed limits → program_ok no_finalizer me (main me env d head limits).
Proof.
  intros Hl. apply no_finalizer_ok.
  - unfold main, gc.register_current_thread, register_current_thread, with_head, after_linking, gc_root_get, gc_root_reset. neutral.
  - unfold main. apply tidy_bind; [apply tidy_register_current_thread; [apply Henv|done]|intros _].
    apply tidy_bind; [apply tidy_new_Message|intros message].
    apply tidy_bind; [apply tidy_gc_root_new; [apply Henv|done]|intros _].
    unfold with_head, after_linking, gc_root_get, gc_root_reset. apply tidy_finally; [tidy|apply tidy_gc_root_destroy, Henv].
Qed.
End QuickStartProofs.

Section ExplicitRootsProofs.
Context {ASAN : AsanRuntime} {ALLOC : Allocator} (me : thread_id) (env : nat → CollectEnv) (d : DestructorFn).
Context (Henv : ∀ i, env_ok (ce_scan (env i)) ∧ park_typed (ce_park (env i))).
Import ExplicitRoots.

#[local] Hint Resolve neutral_collect_none neutral_shutdown_none : neutral.
#[local] Hint Resolve tidy_collect_none tidy_shutdown_none : tidy.

Lemma neutral_explicit_roots limits : Neutral me (main me env d limits).
Proof.
  unfold main, gc.register_current_thread, register_current_thread. apply neutral_bind; [neutral|intros _].
  apply neutral_bind; [neutral|intros external_root]. unfold with_external_root. apply neutral_finally; [|neutral].
  assert (Neutral me (gc_new no_finalizer me (env 1) sizeof_Node alignof_Node d (Node 42))).
  { apply neutral_gc_new; [intros; apply neutral_done|intros p; unfold Node; neutral]. }
  assert (Neutral me (rooted_block me env external_root)); [|neutral].
  unfold rooted_block, ScopedRootObject_new, ScopedRootObject_destroy. apply neutral_bind; [apply neutral_ScopedRootObject_reset|].
  intros this. apply neutral_finally; [neutral|].
  apply neutral_noexcept, neutral_bind; [apply neutral_ScopedRootObject_reset|intros; apply neutral_done].
Qed.

Lemma tidy_rooted_block external_root : is_size external_root → Tidy (rooted_block me env external_root).
Proof.
  intros Hx. unfold rooted_block, ScopedRootObject_new, ScopedRootObject_destroy.
  apply tidy_bind; [apply tidy_ScopedRootObject_reset; [apply Henv|done]|].
  intros this. pose proof (tidy_collect_none me env Henv 3). apply tidy_finally; [tidy|].
  apply tidy_noexcept, tidy_bind; [apply tidy_ScopedRootObject_reset; [apply Henv|done]|intros; apply tidy_done].
Qed.

(** The owner of the storage deletes it on every path. *)
Lemma finally_delete_owned {A} (p : proc A) x n a L :
  Tidy p → L !! x = None →
  owned (finally p (atomic (operator_delete x a))) (λ _ L', L' = L)
    (<[x := {| rb_size := n; rb_alignment := a; rb_header := None |}]> L).
Proof.
  intros Hp Hx. apply owned_tidy_bind_result; [done|]. intros r. apply owned_bind, owned_atomic.
  eapply operator_delete_owned; [by rewrite lookup_insert_eq|]. simpl. by rewrite delete_insert_eq, delete_id.
Qed.

Lemma tidy_explicit_roots limits : limits_typed limits → Tidy (main me env d limits).
Proof.
  intros Hl. unfold main. apply tidy_bind; [apply tidy_register_current_thread; [apply Henv|done]|intros _]. intros L.
  apply owned_bind, owned_atomic, operator_new_owned; [|done]. intros x (Hx & Hmax & _) HL.
  apply finally_delete_owned; [|done].
  assert (is_size x) as Hsz by (unfold sizeof_gc_ptr, is_size, SIZE_MAX in *; lia).
  assert (Tidy (gc_new no_finalizer me (env 1) sizeof_Node alignof_Node d (Node 42))).
  { apply tidy_gc_new; try apply Henv; [intros; apply tidy_done|done..|intros p; unfold Node; tidy]. }
  pose proof (tidy_rooted_block x Hsz). pose proof (tidy_collect_none me env Henv 5).
  pose proof (tidy_shutdown_none me env Henv 6). tidy.
Qed.

Lemma explicit_roots_ok limits : limits_typed limits → program_ok no_finalizer me (main me env d limits).
Proof. intros Hl. apply no_finalizer_ok; [apply neutral_explicit_roots|by apply tidy_explicit_roots]. Qed.
End ExplicitRootsProofs.

Section CollectionsProofs.
Context {ASAN : AsanRuntime} {ALLOC : Allocator} {GROWTH : VectorGrowth} (me : thread_id) (env : nat → CollectEnv).
Context (d_Sample d_ints : DestructorFn) (squares defaults created : Z).
Import Collections.

#[local] Hint Resolve neutral_collect_none neutral_shutdown_none : neutral.
#[local] Hint Resolve tidy_collect_none tidy_shutdown_none : tidy.

Lemma neutral_gc_vector_destroy penv v : Neutral me (gc_vector_destroy me penv v).
Proof. apply (class_vector_destroy _ _ (neutral_vector_class me)). Qed.

Lemma neutral_gc_vector_clear penv v : Neutral me (gc_vector_clear me penv v).
Proof. apply (class_erase_at_end _ _ (neutral_vector_class me)). Qed.

Lemma neutral_or_destroy {A B} v (p : proc A) (k : A → proc B) :
  Neutral me p → (∀ a, Neutral me (k a)) → Neutral me (or_destroy me env v p k).
Proof. intros Hp Hk. pose proof (neutral_gc_vector_destroy (ce_park (env 20)) v). unfold or_destroy. neutral; apply Hk. Qed.

Lemma neutral_emplace_Sample i n r v : Neutral me (emplace_Sample me env d_Sample created i n r v).
Proof.
  unfold emplace_Sample, gc_vector_emplace_new. apply neutral_bind; [|intros p].
  - apply neutral_gc_new; [intros; apply neutral_done|intros p; unfold Sample; neutral].
  - apply neutral_bind; [apply neutral_gc_root_new|intros _].
    apply (class_insert_created _ _ (neutral_vector_class me)).
Qed.

Lemma neutral_print_samples root n : Neutral me (print_samples root n).
Proof. revert root. induction n as [|n IH]; intros root; cbn [print_samples]; unfold gc_root_get; neutral. Qed.

Lemma neutral_array_root_new penv self p : Neutral me (gc_array_root_new me penv self p).
Proof. unfold gc_array_root_new, gc_array_root_register_self. neutral. Qed.

Lemma neutral_array_root_destroy penv self : Neutral me (gc_array_root_destroy me penv self).
Proof. unfold gc_array_root_destroy, gc_array_root_unregister_self. neutral. Qed.
#[local] Hint Resolve neutral_print_samples neutral_gc_vector_clear neutral_gc_vector_destroy neutral_array_root_new
  neutral_array_root_destroy : neutral.

Lemma neutral_diagnostics v : Neutral me (diagnostics me env squares defaults v).
Proof. unfold diagnostics, gc_array_root_index, gc_array_root_get, gc_array_root_reset. neutral. Qed.
#[local] Hint Resolve neutral_diagnostics : neutral.

Lemma neutral_with_arrays v : Neutral me (with_arrays me env d_ints squares defaults v).
Proof.
  unfold with_arrays. apply neutral_bind; [|intros array].
  { apply neutral_construct_array; [intros; apply neutral_done|intros; neutral|intros; apply neutral_done]. }
  apply neutral_bind; [neutral|intros _]. apply neutral_finally; [|neutral]. apply neutral_bind; [|intros array'; neutral].
  apply neutral_construct_array; [intros; apply neutral_done|intros; neutral|intros; apply neutral_done].
Qed.

Lemma neutral_collections limits : Neutral me (main me env d_Sample d_ints squares defaults created limits).
Proof.
  unfold main, ScopedThreadRegistration, destroy_ScopedThreadRegistration, register_current_thread, with_samples.
  apply neutral_bind; [neutral|intros owns]. apply neutral_finally; [|neutral].
  apply neutral_or_destroy; [apply neutral_emplace_Sample|intros [_ v1]].
  apply neutral_or_destroy; [apply neutral_emplace_Sample|intros [_ v2]].
  apply neutral_or_destroy; [apply neutral_with_arrays|intros [v3 r]]. neutral.
Qed.

Hypothesis Henv : ∀ i, env_ok (ce_scan (env i)) ∧ park_typed (ce_park (env i)).
Hypothesis Hsquares : is_size squares.
Hypothesis Hdefaults : is_size defaults.
Hypothesis Hcreated : is_size created.

(** What is in hand while [samples] lives: its storage. *)
Definition with_storage (L0 : holding) (r : result (vector * result Z)) (L : holding) (v : vector) : Prop :=
  match r with Ok (v', _) => stored v' L0 L | Raise _ => stored v L0 L end.

Lemma or_destroy_owned {A B} v (p : proc A) (k : A → proc B) (Q : result B → holding → Prop) L0 L :
  owned p (λ r L', match r with Ok a => owned (k a) Q L' | Raise e => stored v L0 L' end) L →
  (∀ e, Q (Raise e) L0) → owned (or_destroy me env v p k) Q L.
Proof.
  intros Hp HQ. apply owned_bind_result. eapply owned_mono, Hp. intros [a|e] L' HL'; [done|].
  eapply destroy_raise_owned; [by apply Henv|done|apply HQ].
Qed.

Lemma emplace_Sample_owned i n r v L0 L :
  stored v L0 L → owned (emplace_Sample me env d_Sample created i n r v) (inserted v L0) L.
Proof.
  intros Hv. apply gc_vector_emplace_new_owned; try apply Henv; try done. intros p. unfold Sample. tidy.
Qed.

Lemma tidy_array_root_new i self p : is_size self → Tidy (gc_array_root_new me (ce_park (env i)) self p).
Proof.
  intros Hs. pose proof (proj2 (Henv i)). unfold gc_array_root_new, gc_array_root_register_self. tidy.
Qed.

Lemma tidy_array_root_destroy i self : Tidy (gc_array_root_destroy me (ce_park (env i)) self).
Proof. pose proof (proj2 (Henv i)). unfold gc_array_root_destroy, gc_array_root_unregister_self. tidy. Qed.
#[local] Hint Resolve tidy_array_root_new tidy_array_root_destroy : tidy.

Lemma tidy_print_samples root n : Tidy (print_samples root n).
Proof. revert root. induction n as [|n IH]; intros root; cbn [print_samples]; unfold gc_root_get; tidy. Qed.

Lemma tidy_array_root_index n self i : Tidy (gc_array_root_index n self i).
Proof. unfold gc_array_root_index, gc_array_root_get. tidy. Qed.

Lemma write_word_owned a x (Q : result unit → holding → Prop) L : Q (Ok tt) L → act_owned (write_word a x) Q L.
Proof. intros HQ w Hi Hl. exists L. split; [by apply own_step_still|done]. Qed.

Lemma diagnostics_owned v L0 L :
  stored v L0 L → owned (diagnostics me env squares defaults v) (λ r L', with_storage L0 r L' v) L.
Proof.
  intros Hv. unfold diagnostics. pose proof tidy_array_root_index.
  apply owned_tidy_bind; [apply tidy_collect_none, Henv|intros _|done].
  apply owned_tidy_bind; [apply tidy_print_samples|intros _|done]. apply owned_tidy_bind; [done|intros square3|done].
  apply owned_tidy_bind; [apply tidy_object_info, Henv|intros info|done].
  apply owned_tidy_bind; [apply tidy_stats, Henv|intros snapshot|done].
  apply owned_tidy_bind; [done|intros square7|done]. apply owned_tidy_bind; [tidy|intros v7|done].
  apply owned_tidy_bind; [done|intros default3|done]. apply owned_tidy_bind; [tidy|intros v3|done].
  destruct info as [info|]; [|done]. destruct (_ || _); [done|].
  apply owned_tidy_bind; [tidy|intros _|done]. apply owned_bind.
  eapply owned_mono; [|apply vector_clear_owned, Hv; by apply Henv]. intros [v'|e] L' Hv'; [|done].
  unfold gc_array_root_reset. apply owned_bind, owned_atomic, write_word_owned.
  apply owned_bind, owned_atomic, write_word_owned. apply owned_tidy_bind_result; [apply tidy_shutdown_none, Henv|]. done.
Qed.

Lemma with_arrays_owned v L0 L :
  stored v L0 L → owned (with_arrays me env d_ints squares defaults v) (λ r L', with_storage L0 r L' v) L.
Proof.
  intros Hv. unfold with_arrays.
  assert (∀ i count f, (∀ p j, Tidy (f p j)) →
    Tidy (construct_array no_finalizer me (env i) sizeof_int alignof_int count d_ints f (λ _, mret tt))) as Hnew.
  { intros i count f Hf. apply tidy_construct_array; try apply Henv; try done; intros; apply tidy_done. }
  assert (∀ (p : proc (vector * result Z)) i a, owned p (λ r L', with_storage L0 r L' v) L →
    owned (finally p (gc_array_root_destroy me (ce_park (env i)) a)) (λ r L', with_storage L0 r L' v) L) as Hfin.
  { intros p i a Hp. apply owned_bind_result. eapply owned_mono, Hp. intros r L' HL'. apply owned_bind.
    eapply owned_mono; [|apply owned_noexcept, tidy_unregister_root_object, Henv]. by intros r' L1 [-> [[] ->]]. }
  apply owned_tidy_bind; [apply Hnew; intros; tidy|intros array|done].
  apply owned_tidy_bind; [by apply tidy_array_root_new|intros _|done]. apply Hfin.
  apply owned_tidy_bind; [apply Hnew; intros; tidy|intros array'|done].
  apply owned_tidy_bind; [by apply tidy_array_root_new|intros _|done]. by apply Hfin, diagnostics_owned.
Qed.

Lemma tidy_with_samples : Tidy (with_samples me env d_Sample d_ints squares defaults created).
Proof.
  intros L. apply (or_destroy_owned _ _ _ _ L); [|done].
  eapply owned_mono; [|apply emplace_Sample_owned, stored_empty]. intros [[p1 v1]|e] L1 H1; [|done].
  apply (or_destroy_owned _ _ _ _ L); [|done].
  eapply owned_mono; [|by apply emplace_Sample_owned]. intros [[p2 v2]|e] L2 H2; [|done].
  apply (or_destroy_owned _ _ _ _ L); [|done].
  eapply owned_mono; [|by apply with_arrays_owned]. intros [[v3 r]|e] L3 H3; [|done]. apply owned_bind.
  eapply owned_mono; [|eapply vector_destroy_owned, H3; by apply Henv]. by intros r' L4 [-> ->].
Qed.

Lemma tidy_collections limits :
  limits_typed limits → Tidy (main me env d_Sample d_ints squares defaults created limits).
Proof.
  intros Hl. unfold main. apply tidy_bind; [apply tidy_ScopedThreadRegistration; [apply Henv|done]|intros owns].
  apply tidy_finally; [apply tidy_with_samples|apply tidy_destroy_ScopedThreadRegistration, Henv].
Qed.

Lemma collections_ok limits :
  limits_typed limits →
  program_ok no_finalizer me (main me env d_Sample d_ints squares defaults created limits;; mret tt).
Proof.
  intros Hl. apply no_finalizer_ok.
  - apply neutral_bind; [apply neutral_collections|intros; apply neutral_done].
  - apply tidy_bind; [by apply tidy_collections|intros; apply tidy_done].
Qed.
End CollectionsProofs.

(** ** The theorem *)

(** C29. The programs of the repository leave nothing behind.  main.cpp,
    quick_start.cpp, explicit_roots.cpp and collections_and_diagnostics.cpp, run
    in a process that has not used the collector, whatever the platform, the
    allocator, the contents of the stack and the failures of native allocations:
    each calls [std::terminate], or returns from [main], and after the
    destruction of the manager no block is registered, no weak handle tracked
    and no storage outstanding, their vectors' and their own included. *)
Theorem programs_exit_cleanly {ASAN : AsanRuntime} {ALLOC : Allocator} {GROWTH : VectorGrowth}
    me env exit_env d1 d2 a1 a2 a3 limits w :
  unenrolled w → blocks w = ∅ →
  (∀ i, env_ok (ce_scan (env i)) ∧ park_typed (ce_park (env i))) →
  park_typed (ce_park exit_env) → limits_typed limits → is_size a1 → is_size a2 → is_size a3 →
  let exits dtor main :=
    exec (process dtor me exit_env main) w = Stuck Terminated ∨
    ∃ w', exec (process dtor me exit_env main) w = Ret tt w' ∧
      allocations w' = [] ∧ weak_refs w' = [] ∧ blocks w' = ∅ in
  exits Demonstration.destroy_Nodes (Demonstration.main me env d1 a1 limits) ∧
  exits no_finalizer (QuickStart.main me env d1 a1 limits) ∧
  exits no_finalizer (ExplicitRoots.main me env d1 limits) ∧
  exits no_finalizer (Collections.main me env d1 d2 a1 a2 a3 limits;; mret tt).
Proof.
  intros Hw Hb He Hx Hl H1 H2 H3 exits. split_and!; apply program_exits; try done.
  - by apply demonstration_ok.
  - by apply quick_start_ok.
  - by apply explicit_roots_ok.
  - by apply collections_ok.
Qed.

Lemma World_init_unenrolled : unenrolled World_init.
Proof.
  destruct small_heap_unenrolled as [[Hwf Ht Hp Ha Hh] Hc Hsm Hr Hps]. split; [|done..]. split; [|by destruct Ht|done..].
  by eapply heap_wf_ext, Hwf.
Qed.

Definition first_env : nat → CollectEnv := λ _, worker_env 131000.

Lemma programs_exit_cleanly_witness :
  ∃ w', exec (@process no_asan Demonstration.destroy_Nodes 1 (worker_env 131000)
      (@Demonstration.main no_asan bump_allocator 1 first_env 1 131032 (Apple_stack 131072))) World_init = Ret tt w' ∧
    allocations w' = [] ∧ blocks w' = ∅ ∧
    take 6 (printed w') =
      ["Managed blocks before collection: "; "2" +:+ newline; "Managed blocks with a root on the stack: "; "2" +:+ newline;
       "Destroying beta" +:+ newline; "Destroying alpha" +:+ newline] ∧
    drop 9 (printed w') =
      ["Destroying root" +:+ newline; "Destroying child" +:+ newline;
       "Managed blocks after dropping every root: "; "0" +:+ newline].
Proof.
  destruct (@programs_exit_cleanly no_asan bump_allocator doubling 1 first_env (worker_env 131000) 1 2 131032 131040 131048
    (Apple_stack 131072) World_init World_init_unenrolled eq_refl (λ _, worker_env_ok 131000 ltac:(done))
    (proj2 (worker_env_ok 131000 ltac:(done))) ltac:(done) ltac:(done) ltac:(done) ltac:(done)) as [Hall _].
  assert (match exec (@process no_asan Demonstration.destroy_Nodes 1 (worker_env 131000)
      (@Demonstration.main no_asan bump_allocator 1 first_env 1 131032 (Apple_stack 131072))) World_init with
    | Ret _ w' => take 6 (printed w') =
        ["Managed blocks before collection: "; "2" +:+ newline; "Managed blocks with a root on the stack: "; "2" +:+ newline;
         "Destroying beta" +:+ newline; "Destroying alpha" +:+ newline] ∧
        drop 9 (printed w') =
        ["Destroying root" +:+ newline; "Destroying child" +:+ newline;
         "Managed blocks after dropping every root: "; "0" +:+ newline]
    | _ => False end) as Hv by (vm_compute; split; reflexivity).
  destruct Hall as [E|(w' & E & Ha & _ & Hb)]; rewrite E in Hv; [destruct Hv|].
  destruct Hv as [Hv1 Hv2]. exists w'. exact (conj E (conj Ha (conj Hb (conj Hv1 Hv2)))).
Defined.

Definition prints {A} (p : proc A) (a : A) (lines : list string) : Prop :=
  match exec p World_init with Ret a' w => a' = a ∧ printed w = lines | _ => False end.

Example quick_start_prints :
  prints (@QuickStart.main no_asan bump_allocator 1 first_env 1 131032 (Apple_stack 131072)) tt
    ["After collection the rooted list is still alive: root -> child" +:+ newline].
Proof. vm_compute. by split. Qed.

Example explicit_roots_prints :
  prints (@ExplicitRoots.main no_asan bump_allocator 1 first_env 1 (Apple_stack 131072)) tt
    ["The externally stored node survived collection with value 42" +:+ newline].
Proof. vm_compute. by split. Qed.

Example collections_prints :
  prints (@Collections.main no_asan bump_allocator doubling 1 first_env 1 2 131032 131040 131048 (Apple_stack 131072)) 0
    ["temperature: 21" +:+ newline; "humidity: 48" +:+ newline;
     "Generated array allocation: 40 payload bytes" +:+ newline +:+ "Allocations: 4, peak payload bytes: 144" +:+ newline].
Proof. vm_compute. by split. Qed.
