(* ===== verification/Outputs.v ===== *)
(** * What the example programs print

    src/examples/quick_start.cpp and src/examples/explicit_roots.cpp: whenever
    [main] returns it has printed the line its author meant, whatever the
    platform, the allocator, the contents of the stack and the failures of native
    allocations, since the objects the line reads are reachable from an explicit
    root and survive every collection. *)

From Stdlib Require Import Ascii.
From S2P Require Import Prelude Words Memory OrdMap Chunk Manager Heap Scanner Scenario Mark.
From S2P Require Import Finalize WeakRefs Sweep Threads Protocol Collect CollectSpec CollectorTheorems.
From S2P Require Import Roots Alloc Handles GcNew Vector Api Slots Diagnostics Text.
From S2P Require Import Disciplines Enrolment Interleave Ownership Storage Tidiness HeapSafety Leaving Survival.
From S2P Require Import Workers Process Programs.
#[local] Open Scope string_scope.
#[local] Open Scope Z_scope.

(** ** Strings and integers in memory *)

Definition string_at (s : string) (this : Z) (m : memory) : Prop :=
  load_word m this = this + 16 ∧ load_word m (this + 8) = Z.of_nat (String.length s) ∧
  load_byte m <$> seqZ (this + 16) (Z.of_nat (String.length s)) = char_codes s.

Lemma length_char_codes s : length (char_codes s) = String.length s.
Proof. unfold char_codes. rewrite length_fmap. induction s; simpl; congruence. Qed.

Lemma char_codes_bytes s c : c ∈ char_codes s → 0 <= c < 256.
Proof.
  intros (a & -> & _)%list_elem_of_fmap. pose proof (N_ascii_bounded a). lia.
Qed.

Lemma load_string_at s this m : string_at s this m → load_string m this = s.
Proof.
  intros (Hp & Hl & Hc). unfold load_string. rewrite Hp, Hl.
  rewrite (list_fmap_compose (load_byte m) (λ b, ascii_of_N (Z.to_N b))), Hc. unfold char_codes.
  rewrite <-list_fmap_compose. rewrite <-(String.string_of_list_ascii_of_string s) at 2. f_equal.
  rewrite <-(list_fmap_id (String.list_ascii_of_string s)) at 2. apply list_fmap_ext. intros i a _. simpl.
  by rewrite N2Z.id, ascii_N_embedding.
Qed.

Lemma string_at_ext s this m m' :
  (∀ a, this <= a < this + 16 + Z.of_nat (String.length s) → load_byte m' a = load_byte m a) →
  string_at s this m → string_at s this m'.
Proof.
  intros He (Hp & Hl & Hc). split_and!.
  - rewrite <-Hp. apply load_word_ext. intros x Hx. apply He. lia.
  - rewrite <-Hl. apply load_word_ext. intros x Hx. apply He. lia.
  - rewrite <-Hc. apply list_fmap_ext. intros i x Hx%lookup_seqZ. apply He. lia.
Qed.

Lemma store_bytes_away m a bs x :
  x < a ∨ a + Z.of_nat (length bs) <= x → load_byte (store_bytes m a bs) x = load_byte m x.
Proof. intros Hx. unfold load_byte. by rewrite store_bytes_out. Qed.

Lemma store_word_away m a v x : x < a ∨ a + 8 <= x → load_byte (store_word m a v) x = load_byte m x.
Proof. intros Hx. apply store_bytes_away. by rewrite length_le_split. Qed.

Lemma store_string_away s this m x :
  x < this ∨ this + 16 + Z.of_nat (String.length s) < x → load_byte (store_string s this m) x = load_byte m x.
Proof.
  intros Hx. unfold store_string. rewrite !store_word_away by lia. apply store_bytes_away.
  rewrite length_app, length_char_codes. simpl. lia.
Qed.

Lemma store_string_at s this m :
  0 <= this → this + 16 <= SIZE_MAX → Z.of_nat (String.length s) <= SIZE_MAX → string_at s this (store_string s this m).
Proof.
  intros Hp Hmax Hlen. unfold store_string. split_and!.
  - apply load_store_word_eq. unfold is_size. lia.
  - rewrite load_store_word_disjoint by lia. apply load_store_word_eq. unfold is_size. lia.
  - transitivity (load_byte (store_bytes m (this + 16) (char_codes s ++ [0])) <$> seqZ (this + 16) (Z.of_nat (String.length s))).
    { apply list_fmap_ext. intros i x Hx%lookup_seqZ. rewrite !store_word_away by lia. done. }
    rewrite <-(load_store_bytes m (this + 16) (char_codes s) (Z.of_nat (String.length s))) at 2;
      [|by rewrite length_char_codes, Nat2Z.id|apply char_codes_bytes].
    apply list_fmap_ext. intros i x Hx%lookup_seqZ. unfold load_byte.
    rewrite !store_bytes_in by (rewrite ?length_app, length_char_codes; lia).
    rewrite lookup_app_l; [done|]. rewrite length_char_codes. lia.
Qed.

Lemma load_int_ext m m' a : (∀ x, a <= x < a + 4 → load_byte m' x = load_byte m x) → load_int m' a = load_int m a.
Proof. intros He. unfold load_int. f_equal. apply list_fmap_ext. intros i x Hx%lookup_seqZ. apply He. lia. Qed.

Lemma load_store_int m a v : 0 <= v < 2 ^ 32 → load_int (store_int m a v) a = v.
Proof.
  intros Hv. unfold load_int, store_int. rewrite load_store_bytes; [|by rewrite length_le_split|apply le_split_bytes].
  rewrite le_combine_split. by apply Z.mod_small.
Qed.

Lemma store_int_away m a v x : x < a ∨ a + 4 <= x → load_byte (store_int m a v) x = load_byte m x.
Proof. intros Hx. apply store_bytes_away. by rewrite length_le_split. Qed.

(** ** Steps the programs share *)

Lemma ends_finally {A} (p : proc A) cleanup Q w :
  ends p (λ a w1, ends cleanup (λ _ w2, Q a w2) w1) w → ends (finally p cleanup) Q w.
Proof.
  intros Hp a w'. unfold finally. rewrite exec_bind_result. destruct (exec p w) as [b w1|e w1|] eqn:E; [|by rewrite exec_bind; destruct (exec cleanup w1)|done].
  rewrite exec_bind. destruct (exec cleanup w1) as [[] w2| |] eqn:Ec; [|done..]. intros [= -> ->]. by eapply Hp.
Qed.

Lemma ends_read a (w : World) : ends (atomic (read_word a)) (λ v w', v = load_word (mem w) a ∧ w' = w) w.
Proof. apply ends_atomic. by intros v w' [= <- <-]. Qed.

Lemma ends_write a v (w : World) :
  ends (atomic (write_word a v)) (λ _ w', w' = set_mem (λ m, store_word m a v) w) w.
Proof. apply ends_atomic. by intros [] w' [= <-]. Qed.

(** Nothing needs to be kept; what is printed stays. *)
Definition quiet (out : list string) (w : World) : Prop := weak_refs w = [] ∧ printed w = out.

Lemma has_quiet {ASAN : AsanRuntime} held cells bs m out w : has held cells bs m out w → quiet out w.
Proof. by intros []. Qed.

Lemma quiet_has {ASAN : AsanRuntime} held out w : quiet out w → has held [] [] (mem w) out w.
Proof. intros [??]. split; [by intros r ?%elem_of_nil|by intros kb ?%elem_of_nil|done..]. Qed.

Section Steps.
Context {ASAN : AsanRuntime} {ALLOC : Allocator} (held : Z → Prop) (me : thread_id) (L : holding).

Lemma calmly_write a v w : calmly me L w → calmly me L (set_mem (λ m, store_word m a v) w).
Proof.
  intros Hy. destruct (ends_calmly me L (atomic (write_word a v)) (λ _ _, True) w) with tt (set_mem (λ m, store_word m a v) w)
    as [? _]; try done; [tidy|neutral].
Qed.

Lemma ends_print line cells bs m out w :
  has held cells bs m out w → ends (print line) (λ _, has held cells bs m (out ++ [line])) w.
Proof.
  intros [Hc Hb Hm Hw Ho]. apply ends_atomic. intros [] w' [= <-]. split; try done. by rewrite printed_log, Ho.
Qed.

Lemma ends_register_thread env limits cells bs m out w :
  calmly me L w → park_typed (ce_park env) → limits_typed limits → has held cells bs m out w →
  ends (gc.register_current_thread me env limits) (λ _ w', calmly me L w' ∧ has held cells bs m out w') w.
Proof.
  intros Hy Hp Hl Hh. apply ends_calmly; [by apply tidy_register_current_thread| |done|].
  - unfold gc.register_current_thread, register_current_thread. neutral.
  - unfold gc.register_current_thread, register_current_thread. case_match; [|done].
    apply ends_register_stack_bottom; [by eapply calmly_run|done].
Qed.

Lemma ends_shutdown_quiet env out w :
  park_typed (ce_park env) → calmly me L w → quiet out w →
  ends (gc.shutdown no_finalizer me env) (λ _ w', calmly me L w' ∧ quiet out w') w.
Proof.
  intros Hp Hy Hh%(quiet_has (λ _, False)). apply ends_calmly; [apply tidy_shutdown; [intros; apply tidy_done|done]
    |apply neutral_shutdown; intros; apply neutral_done|done|].
  eapply ends_mono; [|eapply ends_shutdown_has, Hh; apply Hy]. intros [] w2. apply has_quiet.
Qed.

Lemma ends_collect_and_shutdown env env' out w :
  env_ok (ce_scan env) → park_typed (ce_park env) → park_typed (ce_park env') →
  calmly me L w → quiet out w →
  ends (gc.collect no_finalizer me env;; gc.shutdown no_finalizer me env') (λ _ w', calmly me L w' ∧ quiet out w') w.
Proof.
  intros Hs Hp Hp' Hy Hh%(quiet_has (λ _, False)). apply ends_bind.
  eapply ends_mono, (ends_collect (λ _, False) [] [] (mem w) me env Hs Hp (hanging_nothing _ (mem w)) out L w Hy Hh).
  intros [] w1 [Hy1 Hh1]. apply ends_shutdown_quiet; [done..|by eapply has_quiet].
Qed.
End Steps.

Lemma unenrolled_calmly {ASAN : AsanRuntime} me w : unenrolled w → calmly me ∅ w.
Proof. intros Hw. split; [apply Hw|apply map_Forall_empty|by apply unenrolled_resting]. Qed.

Lemma process_prints {ASAN : AsanRuntime} me exit_env main out w :
  park_typed (ce_park exit_env) → unenrolled w → program_ok no_finalizer me main → blocks w = ∅ →
  ends main (λ _, quiet out) w →
  exec (process no_finalizer me exit_env main) w = Stuck Terminated ∨
  ∃ w', exec (process no_finalizer me exit_env main) w = Ret tt w' ∧ printed w' = out.
Proof.
  intros Hp Hw Hok Hb Hm. destruct (program_exits no_finalizer me exit_env main w Hok Hp Hw Hb) as [?|(w' & E & _)]; [by left|right].
  exists w'. split; [done|]. revert E. generalize tt at 1. intros u E.
  assert (ends (process no_finalizer me exit_env main) (λ _ w', printed w' = out) w) as He; [|by eapply He].
  apply ends_bind. eapply ends_mono; [|apply ends_noexcept, (ends_calmly me ∅); [apply Hok|apply Hok|by apply unenrolled_calmly|exact Hm]].
  intros [] w1 [Hy1 Hq1]. apply ends_noexcept.
  eapply ends_mono, ends_shutdown_quiet; [|done|exact Hy1|exact Hq1]. by intros [] w2 [_ [_ ?]].
Qed.

(** ** One cell *)

Section Cell.
Context {ASAN : AsanRuntime} (cell : Z).
Context (Hplace : root_place cell) (Haligned : (word_size | cell)) (Hclean : region_is_poisoned cell word_size = false).

Definition cell_word (x : Z) : Prop := cell <= x < cell + word_size.

Lemma cell_hangs bs m p b :
  (p, b) ∈ bs → p < br_payload_end b → load_word m cell = p → hangs [root_range cell] bs m p.
Proof.
  intros Hin Hlt Hm. apply (hangs_cell _ _ _ (root_range cell) cell p b); [by left| |done|rewrite Hm; lia].
  apply elem_of_scan_addrs. unfold root_place, root_range, sizeof_gc_root, word_size in *. simpl. split_and!; try done; lia.
Qed.

Lemma cell_hanging m bs :
  (∀ k b, (k, b) ∈ bs → hangs [root_range cell] bs m k) → hanging cell_word [root_range cell] bs m.
Proof.
  intros Hb. split; [|by intros r ->%list_elem_of_singleton; simpl; unfold sizeof_gc_root; lia|done].
  intros r a ->%list_elem_of_singleton. simpl. unfold cell_word, sizeof_gc_root, word_size. lia.
Qed.

(** The word of the cell is among what is kept. *)
Lemma cell_read bs m out w : has cell_word [root_range cell] bs m out w → load_word (mem w) cell = load_word m cell.
Proof. intros Hh. eapply has_word; [exact Hh|]. intros x Hx. left. exact Hx. Qed.
End Cell.

(** ** quick_start.cpp *)

Section QuickStart.
Context {ASAN : AsanRuntime} {ALLOC : Allocator} (me : thread_id) (env : nat → CollectEnv) (d : DestructorFn) (head : Z).
Context (Henv : ∀ i, env_ok (ce_scan (env i)) ∧ park_typed (ce_park (env i))).
Context (Hplace : root_place head) (Haligned : (word_size | head)) (Hclean : region_is_poisoned head word_size = false).
Context (Hapart : ∀ w n a p, new_address w n a = Some p → p + n <= head ∨ head + word_size <= p).
Import QuickStart.

Lemma head_clear w n a p x : holds ∅ w → new_address w n a = Some p → cell_word head x → ¬ p <= x < p + n.
Proof. intros _ Hp Hx. specialize (Hapart w n a p Hp). unfold cell_word in Hx. lia. Qed.

Definition Message_init (text : string) (p : Z) : memory → Prop := string_at text (Message_text p).

Lemma constructs_Message text :
  Z.of_nat (String.length text) <= 15 → constructs sizeof_Message (Message text) (Message_init text).
Proof.
  intros Hlen p w Hpos Hmax [] w' E. unfold Message in E. rewrite exec_bind, !exec_atomic in E. injection E as <-.
  unfold sizeof_Message in *. split_and!; [done..| |].
  - intros a Ha. simpl. unfold Message_text, Message_next. by rewrite store_string_away, store_word_away by lia.
  - apply store_string_at; unfold Message_text, SIZE_MAX in *; lia.
Qed.

Lemma ends_new_Message i text cells bs m out w :
  Z.of_nat (String.length text) <= 15 → hanging (cell_word head) cells bs m → calmly me ∅ w → has (cell_word head) cells bs m out w →
  ends (new_Message me env d i text) (λ q w', calmly me ∅ w' ∧ has (cell_word head) cells bs m out w' ∧
    new_block (cell_word head) bs sizeof_Message 3 false (ptr_ q) w' ∧ Message_init text (ptr_ q) (mem w')) w.
Proof.
  intros Hlen Hhang Hy Hh. unfold new_Message. change alignof_Message with (2 ^ 3).
  apply (ends_gc_new (cell_word head) cells bs m me (env i)); try done; try apply Henv.
  - exact head_clear.
  - intros p. unfold Message. tidy.
  - intros p. unfold Message. neutral.
  - by apply constructs_Message.
Qed.

(** [head] and a list of one or two messages. *)
Definition Message_block (p raw : Z) : Z * BlockRecord :=
  (p, {| br_header := raw; br_payload_begin := p; br_payload_end := p + sizeof_Message; br_constructing := false |}).

Lemma head_hangs m p raw bs :
  Message_block p raw ∈ bs → load_word m head = p → hangs [root_range head] bs m p.
Proof. intros Hin. apply (cell_hangs head Hplace Haligned Hclean bs m p (Message_block p raw).2 Hin). simpl. unfold sizeof_Message. lia. Qed.

Lemma next_hangs m p raw c raw' bs :
  Message_block p raw ∈ bs → Message_block c raw' ∈ bs → load_word m head = p → load_word m (Message_next p) = c →
  hangs [root_range head] bs m c.
Proof.
  intros Hp Hc Hm Hn.
  apply (hangs_block _ _ _ p (Message_block p raw).2 p c (Message_block c raw').2); [by eapply head_hangs|done| |done|].
  - apply elem_of_word_addrs. exists 0. simpl. unfold sizeof_Message. lia.
  - unfold Message_next in Hn. rewrite Hn. simpl. unfold sizeof_Message. lia.
Qed.

Definition quick_start_line : string := "After collection the rooted list is still alive: root -> child" +:+ newline.

Section List.
Context (p raw : Z) (out : list string).

(** [head] keeps the root message, and the child hangs on the root. *)
Record rooted (m : memory) (w : World) : Prop := {
  rt_calmly : calmly me ∅ w;
  rt_has : has (cell_word head) [root_range head] [Message_block p raw] m out w;
  rt_head : load_word m head = p;
  rt_text : string_at "root" (Message_text p) m;
  rt_apart : ∀ x, p <= x < p + sizeof_Message → ¬ cell_word head x;
}.

Record linked (c raw' : Z) (m : memory) (w : World) : Prop := {
  lk_calmly : calmly me ∅ w;
  lk_has : has (cell_word head) [root_range head] [Message_block c raw'; Message_block p raw] m out w;
  lk_head : load_word m head = p;
  lk_next : load_word m (Message_next p) = c;
  lk_root : string_at "root" (Message_text p) m;
  lk_child : string_at "child" (Message_text c) m;
}.

Lemma rooted_hanging m w : rooted m w → hanging (cell_word head) [root_range head] [Message_block p raw] m.
Proof.
  intros Hr. apply cell_hanging. intros k b [= -> ->]%list_elem_of_singleton.
  eapply head_hangs, (rt_head m w Hr). by apply list_elem_of_singleton.
Qed.

Lemma linked_hanging c raw' m w :
  linked c raw' m w → hanging (cell_word head) [root_range head] [Message_block c raw'; Message_block p raw] m.
Proof.
  intros Hl. apply cell_hanging. intros k b [E|E%list_elem_of_singleton]%elem_of_cons; injection E as -> ->.
  - eapply (next_hangs m p raw c raw'); [right; left|left|apply Hl..].
  - eapply (head_hangs m p raw); [right; left|apply Hl].
Qed.

(** Two blocks that share no address. *)
Lemma apart_ranges a b n : 0 < n → (∀ x, a <= x < a + n → ¬ b <= x < b + n) → a + n <= b ∨ b + n <= a.
Proof. intros Hn H. pose proof (H (Z.max a b)). lia. Qed.

Lemma rooted_bytes m w a :
  rooted m w → cell_word head a ∨ p <= a < p + sizeof_Message → load_byte (mem w) a = load_byte m a.
Proof.
  intros Hr Ha. apply (hs_mem _ _ _ _ _ _ (rt_has m w Hr)). destruct Ha as [?|?]; [by left|right].
  exists p, (Message_block p raw).2. split; [by apply list_elem_of_singleton|done].
Qed.

(** [head->next = child] *)
Lemma rooted_linked m w w1 c raw' :
  rooted m w → calmly me ∅ w1 → has (cell_word head) [root_range head] [Message_block p raw] m out w1 →
  Message_block c raw' ∈ allocations w1 → (∀ x, c <= x < c + sizeof_Message → ¬ protected (cell_word head) [Message_block p raw] x) →
  string_at "child" (Message_text c) (mem w1) →
  linked c raw' (store_word (mem w1) (Message_next p) c) (set_mem (λ m, store_word m (Message_next p) c) w1).
Proof.
  intros [_ _ Hhead Htext Hap] Hy1 Hh1 Hin Hnew Hchild.
  assert (rooted m w1) as Hr1 by done. pose proof (λ a, rooted_bytes m w1 a Hr1) as Hbytes.
  pose proof (wf_extent w1 (iv_wf _ (cy_inv _ _ _ Hy1)) _ _ Hin) as He. simpl in He.
  unfold sizeof_ChunkHeader, word_size in He.
  assert (c + sizeof_Message <= p ∨ p + sizeof_Message <= c) as Hcp.
  { apply apart_ranges; [done|]. intros x Hx Hp. apply (Hnew x Hx). right.
    exists p, (Message_block p raw).2. split; [by apply list_elem_of_singleton|done]. }
  assert (p + 8 <= head ∨ head + 8 <= p) as Hhp.
  { pose proof (Hap (Z.max p head)) as H. unfold cell_word, sizeof_Message, word_size in H. lia. }
  unfold sizeof_Message in *. unfold Message_next, Message_text in *. split.
  - by apply calmly_write.
  - apply has_write. eapply has_now; [exact Hh1|]. intros kb [->|E%list_elem_of_singleton]%elem_of_cons; [done|subst kb].
    apply (hs_blocks _ _ _ _ _ _ Hh1). by apply list_elem_of_singleton.
  - rewrite load_store_word_disjoint by lia. rewrite <-Hhead. apply load_word_ext. intros x Hx. apply Hbytes. left.
    unfold cell_word, word_size. lia.
  - apply load_store_word_eq. unfold is_size. lia.
  - eapply string_at_ext, Htext. unfold Message_text. simpl. intros a Ha. rewrite store_word_away by lia. apply Hbytes. right. lia.
  - eapply string_at_ext, Hchild. unfold Message_text. simpl. intros a Ha. by rewrite store_word_away by lia.
Qed.

Lemma ends_read_string s this (w : World) :
  string_at s this (mem w) → ends (atomic (read_string this)) (λ t w', t = s ∧ w' = w) w.
Proof. intros Hs. apply ends_atomic. intros t w' [= <- <-]. split; [by apply load_string_at|done]. Qed.

Lemma linked_bytes c raw' m w a :
  linked c raw' m w → cell_word head a ∨ p <= a < p + sizeof_Message ∨ c <= a < c + sizeof_Message →
  load_byte (mem w) a = load_byte m a.
Proof.
  intros Hl Ha. apply (hs_mem _ _ _ _ _ _ (lk_has _ _ _ _ Hl)). destruct Ha as [?|[?|?]]; [by left|right..].
  - exists p, (Message_block p raw).2. split; [right; left|done].
  - exists c, (Message_block c raw').2. split; [left|done].
Qed.

Lemma ends_after_linking c raw' m w :
  linked c raw' m w → ends (after_linking me env head) (λ _ w', calmly me ∅ w' ∧ quiet (out ++ [quick_start_line]) w') w.
Proof.
  intros Hl. unfold after_linking. apply ends_bind.
  eapply ends_mono, (ends_collect (cell_word head) _ _ m me (env 4) (proj1 (Henv 4)) (proj2 (Henv 4)) (linked_hanging _ _ _ _ Hl) out ∅ w
    (lk_calmly _ _ _ _ Hl) (lk_has _ _ _ _ Hl)).
  intros [] w1 [Hy1 Hh1]. destruct Hl as [_ _ Hhead Hnext Hroot Hchild].
  assert (linked c raw' m w1) as Hl1 by done. pose proof (λ a, linked_bytes c raw' m w1 a Hl1) as Hbytes.
  unfold cell_word, word_size, sizeof_Message, Message_next in *.
  assert (load_word (mem w1) head = p) as E1 by (rewrite <-Hhead; apply load_word_ext; intros x Hx; apply Hbytes; lia).
  assert (load_word (mem w1) p = c) as E2 by (rewrite <-Hnext; apply load_word_ext; intros x Hx; apply Hbytes; lia).
  apply ends_bind. eapply ends_mono, ends_read. intros h w2 [-> ->]. rewrite E1.
  apply ends_bind. eapply ends_mono, (ends_read_string "root");
    [|eapply string_at_ext, Hroot; unfold Message_text; simpl; intros a Ha; apply Hbytes; lia]. intros t w2 [-> ->].
  apply ends_bind. eapply ends_mono, ends_read. intros h w2 [-> ->]. rewrite E1.
  apply ends_bind. eapply ends_mono, ends_read. intros next w2 [-> ->]. rewrite E2.
  apply ends_bind. eapply ends_mono, (ends_read_string "child");
    [|eapply string_at_ext, Hchild; unfold Message_text; simpl; intros a Ha; apply Hbytes; lia]. intros t w2 [-> ->].
  apply ends_bind. eapply ends_mono, (ends_calmly me ∅); [|apply tidy_print|apply neutral_print|exact Hy1|by apply ends_print].
  intros [] w2 [Hy2 Hh2]. apply ends_bind. eapply ends_mono, ends_write. intros [] w3 ->.
  apply ends_collect_and_shutdown; [apply Henv..|by apply calmly_write|]. by eapply has_quiet, has_write.
Qed.

Lemma ends_with_head m w :
  rooted m w → ends (with_head me env d head) (λ _, quiet (out ++ [quick_start_line])) w.
Proof.
  intros Hr. apply ends_finally, ends_bind.
  eapply ends_mono; [|apply (ends_new_Message 3 "child" _ _ _ _ _ ltac:(done) (rooted_hanging m w Hr) (rt_calmly m w Hr) (rt_has m w Hr))].
  intros child w1 (Hy1 & Hh1 & ([raw' Hin] & _ & Hnew) & Hchild).
  apply ends_bind. eapply ends_mono, ends_read. intros h w2 [-> ->].
  assert (load_word (mem w1) head = p) as ->.
  { rewrite <-(rt_head m w Hr). apply load_word_ext. intros x Hx. apply (hs_mem _ _ _ _ _ _ Hh1). left.
    unfold cell_word, word_size. lia. }
  apply ends_bind. eapply ends_mono, ends_write. intros [] w2 ->.
  eapply ends_mono, ends_after_linking, rooted_linked; [|done..].
  intros [] w2 [Hy2 Hh2%(quiet_has (cell_word head))]. eapply ends_mono, ends_noexcept, ends_unregister_root; [|by eapply calmly_run|exact Hh2].
  intros [] w3. apply has_quiet.
Qed.
End List.

Lemma ends_quick_start limits out w :
  limits_typed limits → calmly me ∅ w → weak_refs w = [] → printed w = out →
  ends (main me env d head limits) (λ _, quiet (out ++ [quick_start_line])) w.
Proof.
  intros Hl Hy Hw Ho. apply ends_bind.
  eapply ends_mono, (ends_register_thread (cell_word head) me ∅ (env 0) limits [] [] (mem w) out w Hy (proj2 (Henv 0)) Hl).
  2:{ split; [by intros r ?%elem_of_nil|by intros kb ?%elem_of_nil|done..]. }
  intros [] w1 [Hy1 Hh1]. apply ends_bind. eapply ends_mono, ends_new_Message; [|done|apply hanging_nothing|exact Hy1|exact Hh1].
  intros q w2 (Hy2 & Hh2 & Hb2 & Htext). destruct (new_block_extent _ _ _ _ _ _ _ (iv_wf _ (cy_inv _ _ _ Hy2)) Hb2) as [Hpos Hmax].
  destruct Hb2 as ([raw Hin] & _ & Hnew). apply ends_bind.
  set (m := store_word (mem w2) head (ptr_ q)).
  assert (ends (gc_root_new me (ce_park (env 2)) head (gc_ptr_get q))
    (λ _, has (cell_word head) [root_range head] [Message_block (ptr_ q) raw] m out) w2) as Hroot.
  { apply ends_bind. eapply ends_mono, ends_write. intros [] w3 ->.
    eapply ends_mono, (ends_register_root (cell_word head) me (ce_park (env 2)) [] [Message_block (ptr_ q) raw] m out);
      [by intros [] w3 [? _]|by eapply calmly_run, calmly_write|done|].
    eapply has_write, has_now; [exact Hh2|]. intros kb ->%list_elem_of_singleton. exact Hin. }
  eapply ends_mono, (ends_calmly me ∅); [| |apply neutral_gc_root_new|exact Hy2|exact Hroot].
  2: apply tidy_gc_root_new; [apply Henv|unfold root_place, sizeof_gc_root, is_size in *; lia].
  intros [] w3 [Hy3 Hh3]. eapply ends_with_head. split; [exact Hy3|exact Hh3| | |].
  - apply load_store_word_eq. unfold is_size, sizeof_Message in *. lia.
  - eapply string_at_ext, Htext. unfold Message_text. simpl. intros a Ha. apply store_word_away.
    assert (¬ (head <= a < head + 8)); [|lia]. intros Ha'. apply (Hnew a); [unfold sizeof_Message; lia|by left].
  - intros x Hx Hd. apply (Hnew x Hx). by left.
Qed.
End QuickStart.

(** ** explicit_roots.cpp *)

Section ExplicitRoots.
Context {ASAN : AsanRuntime} {ALLOC : Allocator} (me : thread_id) (env : nat → CollectEnv) (d : DestructorFn).
Context (Henv : ∀ i, env_ok (ce_scan (env i)) ∧ park_typed (ce_park (env i))).
Import ExplicitRoots.

Definition explicit_roots_line : string := "The externally stored node survived collection with value " +:+ put_dec 42 newline.

(** From the allocation of the external handle on. *)
Section Cell.
Context (x : Z) (Hplace : root_place x) (Haligned : (word_size | x)) (Hclean : region_is_poisoned x word_size = false).
Context (out : list string).

Definition handle_storage : holding :=
  {[ x := {| rb_size := sizeof_gc_ptr; rb_alignment := default_new_alignment; rb_header := None |} ]}.

Lemma handle_clear w n a p y : holds handle_storage w → new_address w n a = Some p → cell_word x y → ¬ p <= y < p + n.
Proof.
  intros Hl Hp Hy. destruct (Hl x _ ltac:(apply lookup_singleton_eq)) as [Hb _ _ _].
  destruct (new_address_fresh _ _ _ _ _ _ _ Hp Hb) as [_ H]. simpl in H. unfold sizeof_gc_ptr, cell_word, word_size in *. lia.
Qed.

Lemma constructs_Node v : 0 <= v < 2 ^ 32 → constructs sizeof_Node (Node v) (λ p m, load_int m p = v).
Proof.
  intros Hv p w Hpos Hmax [] w' E. unfold Node in E. rewrite exec_atomic in E. injection E as <-.
  split_and!; [done..| |by apply load_store_int]. intros a Ha. simpl. unfold sizeof_Node in Ha. apply store_int_away. lia.
Qed.

Definition Node_block (p raw : Z) : Z * BlockRecord :=
  (p, {| br_header := raw; br_payload_begin := p; br_payload_end := p + sizeof_Node; br_constructing := false |}).

Record stored_node (cells : list RootRange) (p raw : Z) (m : memory) (w : World) : Prop := {
  sn_calmly : calmly me handle_storage w;
  sn_has : has (cell_word x) cells [Node_block p raw] m out w;
  sn_cell : load_word m x = p;
  sn_value : load_int m p = 42;
}.

Lemma node_hanging p raw m w : stored_node [root_range x] p raw m w → hanging (cell_word x) [root_range x] [Node_block p raw] m.
Proof.
  intros Hn. apply cell_hanging. intros k b E%list_elem_of_singleton. injection E as -> ->.
  apply (cell_hangs x Hplace Haligned Hclean _ m p (Node_block p raw).2); [by apply list_elem_of_singleton| |apply Hn].
  simpl. unfold sizeof_Node. lia.
Qed.

(** [node = gc_new<Node>(42)], stored where the handle points. *)
Lemma ends_store_node {A} (rest : proc A) Q m w :
  calmly me handle_storage w → has (cell_word x) [] [] m out w →
  (∀ p raw m' w', stored_node [] p raw m' w' → ends rest Q w') →
  ends (node ← gc_new no_finalizer me (env 1) sizeof_Node alignof_Node d (Node 42);
        atomic (write_word x (gc_ptr_get node));; rest) Q w.
Proof.
  intros Hy Hh Hrest. apply ends_bind. change alignof_Node with (2 ^ 2).
  eapply ends_mono, (ends_gc_new (cell_word x) [] [] m me (env 1) (proj1 (Henv 1)) (proj2 (Henv 1)) (hanging_nothing _ m) out
    handle_storage handle_clear sizeof_Node 2 d eq_refl ltac:(lia) ltac:(done) (Node 42) _ w Hy Hh ltac:(done)).
  2: intros p; unfold Node; tidy.
  2: intros p; unfold Node; neutral.
  2: by apply constructs_Node.
  intros q w1 (Hy1 & Hh1 & Hb1 & Hv). destruct (new_block_extent _ _ _ _ _ _ _ (iv_wf _ (cy_inv _ _ _ Hy1)) Hb1) as [Hpos Hmax].
  destruct Hb1 as ([raw Hin] & _ & Hnew). apply ends_bind. eapply ends_mono, ends_write. intros [] w2 ->.
  apply (Hrest (ptr_ q) raw (store_word (mem w1) x (ptr_ q))). split.
  - by apply calmly_write.
  - eapply has_write, has_now; [exact Hh1|]. intros kb ->%list_elem_of_singleton. exact Hin.
  - apply load_store_word_eq. unfold is_size, sizeof_Node in *. lia.
  - rewrite <-Hv. apply load_int_ext. intros a Ha. apply store_word_away.
    assert (¬ (x <= a < x + 8)); [|lia]. intros Ha'. apply (Hnew a); [unfold sizeof_Node; lia|by left].
Qed.

(** The handle is published for the inner block. *)
Lemma ends_ScopedRootObject_new p raw m w :
  stored_node [] p raw m w →
  ends (ScopedRootObject_new me (ce_park (env 2)) sizeof_gc_ptr x)
    (λ this w', this = x ∧ stored_node [root_range x] p raw m w') w.
Proof.
  intros [Hy Hh Hm Hv]. eapply ends_mono, (ends_calmly me handle_storage _
    (λ this w', this = x ∧ has (cell_word x) [root_range x] [Node_block p raw] m out w')).
  - intros this w' (Hy' & -> & Hh'). by split.
  - apply tidy_ScopedRootObject_reset; [apply Henv|]. unfold root_place, sizeof_gc_root, is_size in *. lia.
  - apply neutral_ScopedRootObject_reset.
  - done.
  - unfold ScopedRootObject_new, ScopedRootObject_reset. destruct (Z.eqb_spec x 0); [unfold root_place in Hplace; lia|].
    apply ends_bind. eapply ends_mono, (ends_register_root (cell_word x) me); [|by eapply calmly_run|exact Hplace|exact Hh].
    intros [] w1 [Hh1 _]. apply ends_bind, ends_ret, ends_ret. done.
Qed.

Lemma ends_ScopedRootObject_destroy cells bs m lines w :
  calmly me handle_storage w → has (cell_word x) cells bs m lines w →
  ends (ScopedRootObject_destroy me (ce_park (env 4)) sizeof_gc_ptr x)
    (λ _ w', calmly me handle_storage w' ∧ has (cell_word x) [] bs m lines w') w.
Proof.
  intros Hy Hh. unfold ScopedRootObject_destroy.
  apply ends_calmly; [|apply neutral_noexcept, neutral_bind; [apply neutral_ScopedRootObject_reset|intros; apply neutral_done]|done|].
  - apply tidy_noexcept, tidy_bind; [by apply tidy_ScopedRootObject_reset; [apply Henv|]|intros; apply tidy_done].
  - apply ends_noexcept. unfold ScopedRootObject_reset. change (negb (0 =? 0)) with false.
    cbv beta iota. apply ends_bind, ends_bind, ends_ret.
    destruct (Z.eqb_spec x 0); [unfold root_place in Hplace; lia|]. apply ends_bind.
    eapply ends_mono, ends_unregister_root; [|by eapply calmly_run|exact Hh]. intros [] w1 Hh1. by apply ends_ret, ends_ret.
Qed.

Lemma ends_rooted_block p raw m w :
  stored_node [] p raw m w →
  ends (rooted_block me env x) (λ _ w', calmly me handle_storage w' ∧ quiet (out ++ [explicit_roots_line]) w') w.
Proof.
  intros Hn. apply ends_bind. eapply ends_mono, ends_ScopedRootObject_new, Hn. intros this w1 [-> Hn1].
  apply ends_finally, ends_bind.
  eapply ends_mono, (ends_collect (cell_word x) _ _ m me (env 3) (proj1 (Henv 3)) (proj2 (Henv 3)) (node_hanging _ _ _ _ Hn1) out
    handle_storage w1 (sn_calmly _ _ _ _ _ Hn1) (sn_has _ _ _ _ _ Hn1)).
  intros [] w2 [Hy2 Hh2]. apply ends_bind. eapply ends_mono, ends_read. intros node w3 [-> ->].
  rewrite (cell_read x _ _ _ _ Hh2), (sn_cell _ _ _ _ _ Hn1).
  apply ends_bind, ends_atomic. intros v w3 [= <- <-].
  assert (load_int (mem w2) p = 42) as ->.
  { rewrite <-(sn_value _ _ _ _ _ Hn1). apply load_int_ext. intros a Ha. apply (hs_mem _ _ _ _ _ _ Hh2). right.
    exists p, (Node_block p raw).2. split; [by apply list_elem_of_singleton|done]. }
  eapply ends_mono, (ends_calmly me handle_storage); [|apply tidy_print|apply neutral_print|exact Hy2|by apply ends_print].
  intros [] w3 [Hy3 Hh3]. eapply ends_mono, ends_ScopedRootObject_destroy; [|exact Hy3|exact Hh3].
  intros [] w4 [Hy4 Hh4]. split; [done|by eapply has_quiet].
Qed.

Lemma ends_with_external_root m w :
  calmly me handle_storage w → has (cell_word x) [] [] m out w →
  ends (with_external_root me env d x) (λ _, quiet (out ++ [explicit_roots_line])) w.
Proof.
  intros Hy Hh. apply ends_finally, ends_bind. eapply ends_mono, ends_write. intros [] w1 ->.
  set (w1 := set_mem _ w). assert (calmly me handle_storage w1) as Hy1 by by apply calmly_write.
  pose proof (has_write _ _ _ _ _ _ x 0 Hh) as Hh1. fold w1 in Hh1.
  apply (ends_store_node _ _ _ w1 Hy1 Hh1). intros p raw m' w2 Hn.
  apply ends_bind. eapply ends_mono, ends_rooted_block, Hn. intros [] w3 [Hy3 Hh3%(quiet_has (cell_word x))].
  apply ends_bind. eapply ends_mono, ends_write. intros [] w4 ->.
  eapply ends_mono, ends_collect_and_shutdown; [|apply Henv..|by apply calmly_write|by eapply has_quiet, has_write].
  intros [] w5 [_ Hh5]. apply ends_atomic. intros [] w6. unfold operator_delete. repeat case_match; try done.
  intros [= <-]. split; [apply Hh5|]. rewrite printed_log, app_nil_r. apply Hh5.
Qed.
End Cell.

(** Storage from [operator new] is not poisoned. *)
Context (Hclean : ∀ w n a p, new_address w n a = Some p → word_size <= n → region_is_poisoned p word_size = false).

Lemma ends_explicit_roots limits out w :
  limits_typed limits → calmly me ∅ w → weak_refs w = [] → printed w = out →
  ends (main me env d limits) (λ _, quiet (out ++ [explicit_roots_line])) w.
Proof.
  intros Hl Hy Hw Ho. apply ends_bind.
  eapply ends_mono, (ends_register_thread (λ _, False) me ∅ (env 0) limits [] [] (mem w) out w Hy (proj2 (Henv 0)) Hl).
  2:{ split; [by intros r ?%elem_of_nil|by intros kb ?%elem_of_nil|done..]. }
  intros [] w1 [Hy1 Hh1]. apply ends_bind.
  assert (owned (atomic (operator_new sizeof_gc_ptr default_new_alignment))
    (λ r L, ∀ x, r = Ok x → placed x sizeof_gc_ptr default_new_alignment ∧ L = handle_storage x) ∅) as Hnew.
  { apply owned_atomic, operator_new_owned; [|done]. intros x Hx _ _ [= <-]. split; [done|]. apply insert_empty. }
  pose proof (ends_neutral me (atomic (operator_new sizeof_gc_ptr default_new_alignment)) w1 ltac:(neutral) (cy_resting _ _ _ Hy1)) as Hr.
  intros x w2 E. destruct (ends_owned _ _ ∅ w1 Hnew (cy_inv _ _ _ Hy1) (cy_holds _ _ _ Hy1) x w2 E) as (Hi2 & L & Hl2 & HL).
  destruct (HL x eq_refl) as [(Hpos & Hmax & Hal) ->]. specialize (Hr x w2 E).
  rewrite exec_atomic in E. unfold operator_new in E. destruct (new_address w1 _ _) as [x'|] eqn:Ha; [|done]. injection E as -> <-.
  set (w2 := set_blocks _ w1) in *.
  assert (ends (with_external_root me env d x) (λ _, quiet (out ++ [explicit_roots_line])) w2) as He.
  { eapply (ends_with_external_root x) with (m := mem w2).
    - unfold root_place, sizeof_gc_root, sizeof_gc_ptr, SIZE_MAX in *. lia.
    - transitivity default_new_alignment; [by exists 2|by apply Hal].
    - by eapply Hclean.
    - by split.
    - apply quiet_has. exact (has_quiet _ _ _ _ _ _ Hh1). }
  exact He.
Qed.
End ExplicitRoots.

(** ** The theorem *)

(** C30. The examples print what they promise.  In a process that has not used
    the collector, whatever the platform, the allocator, the contents of the stack
    and the failures of native allocations, quick_start.cpp and explicit_roots.cpp
    either call [std::terminate] or run to the end, and then they have printed
    their line, with the labels of the rooted list and the value of the externally
    stored node as they were constructed, and nothing else.  Storage from the
    allocator overlaps no variable and is not poisoned. *)
Theorem examples_print_their_line {ASAN : AsanRuntime} {ALLOC : Allocator} me env exit_env d head limits w :
  unenrolled w → blocks w = ∅ → weak_refs w = [] →
  (∀ i, env_ok (ce_scan (env i)) ∧ park_typed (ce_park (env i))) →
  park_typed (ce_park exit_env) → limits_typed limits →
  root_place head → (word_size | head) → region_is_poisoned head word_size = false →
  (∀ w n a p, new_address w n a = Some p → p + n <= head ∨ head + word_size <= p) →
  (∀ w n a p, new_address w n a = Some p → word_size <= n → region_is_poisoned p word_size = false) →
  let prints main line :=
    exec (process no_finalizer me exit_env main) w = Stuck Terminated ∨
    ∃ w', exec (process no_finalizer me exit_env main) w = Ret tt w' ∧ printed w' = (printed w ++ [line])%list in
  prints (QuickStart.main me env d head limits)
    ("After collection the rooted list is still alive: root -> child" +:+ newline) ∧
  prints (ExplicitRoots.main me env d limits)
    ("The externally stored node survived collection with value 42" +:+ newline).
Proof.
  intros Hw Hb Hk He Hx Hl Hp Hal Hc Hap Hst prints.
  pose proof (unenrolled_calmly me w Hw) as Hy.
  assert (is_size head) as Hs by (unfold root_place, sizeof_gc_root, is_size in *; lia).
  split; apply process_prints; try done.
  - by apply quick_start_ok.
  - by apply ends_quick_start.
  - by apply explicit_roots_ok.
  - by apply ends_explicit_roots.
Qed.

Lemma examples_print_their_line_witness :
  (∃ w', exec (@process no_asan no_finalizer 1 (worker_env 131000)
      (@QuickStart.main no_asan bump_allocator 1 first_env 1 1024 (Apple_stack 131072))) World_init = Ret tt w' ∧
    printed w' = ["After collection the rooted list is still alive: root -> child" +:+ newline]) ∧
  (∃ w', exec (@process no_asan no_finalizer 1 (worker_env 131000)
      (@ExplicitRoots.main no_asan bump_allocator 1 first_env 1 (Apple_stack 131072))) World_init = Ret tt w' ∧
    printed w' = ["The externally stored node survived collection with value 42" +:+ newline]).
Proof.
  assert (∀ w n a p, bump_address w n a = Some p → p + n <= 1024 ∨ 1024 + word_size <= p) as Hap.
  { intros w n a p (_ & _ & _ & Hp)%bump_address_spec. pose proof (top_of_pos (blocks w)). right. unfold word_size. lia. }
  destruct (@examples_print_their_line no_asan bump_allocator 1 first_env (worker_env 131000) 1 1024 (Apple_stack 131072)
    World_init World_init_unenrolled eq_refl eq_refl (λ _, worker_env_ok 131000 ltac:(done))
    (proj2 (worker_env_ok 131000 ltac:(done))) ltac:(done) ltac:(done) ltac:(exists 128; reflexivity) eq_refl Hap
    ltac:(done)) as [H1 H2].
  split.
  - destruct H1 as [E|(w' & E & Hw')]; [vm_compute in E; discriminate E|]. exists w'. exact (conj E Hw').
  - destruct H2 as [E|(w' & E & Hw')]; [vm_compute in E; discriminate E|]. exists w'. exact (conj E Hw').
Defined.
